(* ===== verification/_CoqProject ===== *)
-Q . S2P
Prelude.v
GoFmt.v
Float.v
Utf8.v
GoText.v
Json.v
LValue.v
LExtract.v
LParse.v
LRoundtrip.v
Smus.v
Paths.v
ScriptPath.v
LuaValue.v
LuaFill.v
LuaRound.v
BlowfishTables.v
Blowfish.v
Effects.v
Protocol.v
Ports.v
Codec.v
SessionStore.v
Rfc3339.v
Redis.v
RedisSession.v
Cache.v
RedisCache.v
TokenStore.v
CacheLock.v
RedisLock.v
BanCheck.v
SqlText.v
SqlBuilder.v
SqlSchema.v
SqlDB.v
SqlStore.v
Migrations.v
Console.v
LuaHost.v
LuaSpec.v
LuaProps.v
Modules.v
Http.v
LuaJson.v
Metrics.v
Lifecycle.v
Timers.v
RateLimit.v
Jobs.v
Tickers.v
Queue.v
RedisQueue.v
Opening.v
Email.v
ConnPool.v
MovieTable.v
Interfaces.v
Services.v
LogonSession.v
LogonRace.v
Movies.v
World.v
Idle.v
SystemService.v
SystemProps.v
Dispatch.v
Tcp.v
Listener.v
Udp.v
Config.v
Dsn.v
Logger.v
Boot.v
