(* ===== verification/Prelude.v ===== *)
(** * MUSGoS: a verification of the game server

    MUSGoS is a multi-user server in Go for Shockwave/Director clients (the SMUS
    protocol). Clients send framed binary messages over TCP or UDP. A message
    carries Lingo values, is possibly encrypted with Blowfish, and is routed to a
    built-in system command, to a Lua script, or to another user or group. The
    server keeps sessions and rooms, accounts and attributes in a database, and
    reaches everything outside its domain through ports (internal/domain/ports).

    ** How the code is modelled

    - Values, codecs and parsers are Rocq functions with the names of the source.
      A Go computation that may panic is an [outcome] (this file): [Ret],
      [Panic] or, where the model recurses on fuel, [OutOfFuel]; for a script
      [OutOfFuel] also stands for a process that is gone ([process_ends]:
      [mus.log.fatal], or a stack at its limit). No theorem
      assumes that fuel suffices; the totality theorems prove it (the parsers
      take the length of the input, JSON twice the length plus two, the framer
      the length of the buffer: every turn consumes a byte or descends a level
      that a byte opened).
    - Services and handlers are programs over their ports (Effects.v): trees of
      calls that are run against an implementation, interleaved with other
      goroutines, or searched for the calls they can make. Theorems that quantify
      over the implementation of the ports hold whatever the database or the
      session store answers, errors included.
    - A component with an own state (session store, pool, movie table, cache,
      timers, queue) is a record and a step function per method; the mutex of
      the component is the atomicity of a step.
    - Machine integers are [Z] with their wrap-around written out; floats are
      IEEE bit patterns; strings are byte strings.
    - Go's map iteration order is a parameter (class [MapOrder], SessionStore.v)
      of which only the language's promise is known.

    ** Files and sources

    Foundations: Prelude (outcomes, integers, bytes, strings), GoFmt (strconv and
    fmt), Float (float64 arithmetic), Utf8, GoText (strings and bufio), Json
    (encoding/json), Rfc3339 (package time), Paths (path/filepath), Effects
    (programs), Protocol (which calls a program may make when), Ports
    (domain/ports: errors, records, one constructor per method).

    Protocol: LValue, LExtract, LParse, LRoundtrip (domain/types/lingo: the Lingo
    values, their wire form, the parser and the round trip), Smus
    (domain/types/smus: messages), BlowfishTables and Blowfish
    (outbound/blowfish.go), Codec (lingo/codec.go: values as JSON text).

    State: SessionStore (outbound/memory_session_store.go), Redis and RedisSession
    (outbound/redis_session_store.go over a class of Redis servers), Cache,
    CacheLock, TokenStore (outbound/memory_cache.go, memory_cache_lock.go,
    cache_token_store.go), RedisCache and RedisLock (outbound/redis_cache.go,
    redis_cache_lock.go), BanCheck (inbound/ban_checker.go), ConnPool
    (inbound/conn_pool.go), MovieTable and Movies (inbound/mus/movie.go,
    group.go), Timers (inbound/timer_manager.go), RateLimit
    (inbound/rate_limiter.go), Queue and RedisQueue (outbound/memory_queue.go,
    redis_queue.go), Opening (the constructors of the adapters that own
    connections, and outbound/rabbitmq_queue.go), Email
    (outbound/smtp_email_sender.go), Logger (outbound/file_logger.go).

    Database: SqlText (dialects, identifiers, placeholders), SqlBuilder
    (outbound/sql_query_builder.go), SqlSchema (ports/schema.go, DDL, the initial
    migration), SqlDB (outbound/sql_db.go as programs over the driver), SqlStore
    (what those programs store, over a class of engines), Migrations
    (services/migration_runner.go, outbound/sql_migration.go).

    Scripts: ScriptPath (which file a name leads to: outbound/lua_script_engine.go,
    lua_sandboxed_loader.go), Modules (require, dofile and sandboxed chunks),
    LuaValue, LuaFill and LuaRound (lingo/lua_convert.go: values to Lua and back),
    LuaHost (outbound/lua_*.go: the functions of the table [mus]), LuaSpec and
    LuaProps (a program logic for them, and what any script can do), LuaJson
    (outbound/lua_json_module.go).

    Services: Interfaces (the classes [SessionPort], [PoolPort], [MoviePort] the
    services are proved against), Services (authorizer.go, logon_service.go),
    LogonSession and LogonRace (what a logon does, alone and next to others),
    World (the running system, an instance of the interfaces), Idle
    (inbound/idle_checker.go and the kick of a user timer), SystemService and
    SystemProps (inbound/mus/system_service*.go: the 42 commands), Dispatch
    (sender.go, dispatcher.go, smus_handler.go), Jobs (job_discovery.go,
    scheduler.go), Console (inbound/console.go, services/boot_hooks.go).

    Servers: Tcp (tcp_server.go: framing and one connection; disconnect_hook.go),
    Listener (tcp_server.go: accept loop and shutdown), Udp (udp_server.go), Http
    (http_server.go), Metrics (metrics_server.go), Lifecycle (start and shutdown
    of these three), Tickers (the goroutines of scheduler.go and
    idle_checker.go), Config and Dsn (internal/config/config.go), Boot
    (cmd/gameserver/main.go, internal/factory).

    ** What the theorems show

    - Parsing is total and exact: every byte sequence is rejected or parsed
      without panic ([ParseMUSMessage_total], [FromRawBytes_total]); values and
      messages round-trip exactly when the stated condition holds
      ([roundtrip_iff], [message_roundtrip], [wire_parse]); the shared cipher is
      reusable ([shared_cipher_roundtrip]); framing does not depend on how TCP
      cuts the stream ([chunking_irrelevant], [nextFrame_exact]).
    - Identity: a logon succeeds only after authentication ([logon_sound]), under
      every interleaving a user is bound to one connection ([logon_race],
      [remap_spec]), its effect on sessions and pool is exact ([logon_effect]),
      the level it grants is the one commands are checked against
      ([logon_level_enforced]), and the sender named in a packet is never
      believed ([wire_sender_ignored]).
    - Authorization: a guarded command from a sender below the configured level
      is inert, for every configuration ([denied_command_inert],
      [configured_level_enforced]); the open commands are confined
      ([open_commands_confined]); users cannot reach each other's data
      ([cross_user_isolated]).
    - State refines its abstract specification: memory and Redis session stores
      ([session_store_refines], [redis_store_refines]), memory and Redis caches
      ([cache_refines], [redis_cache_agrees]), database adapter
      ([adapter_refines]); pool invariant ([pool_write_reaches_owner]); timers
      ([timers_tracked]); locks, with mutual exclusion ([cache_lock_correct],
      [lease_lock_exclusive]); single use of tokens ([token_single_use]);
      freshness of ban verdicts ([ban_verdict_fresh]); the rate limit in float64
      arithmetic ([rate_limit_bound], [rate_limiter_cleanup_invisible]); queues in
      order ([redis_queue_fifo]); the log in order ([log_in_order]).
    - SQL: names from callers never become SQL ([builder_statements],
      [schema_text]), placeholders match their values ([adapter_statements]),
      migrations are applied as wholes and in order ([run_pending_history]).
    - Scripts: a script causes only the calls of the functions it uses
      ([script_confined]), the files it requires lie below the scripts directory
      ([script_contained], [sandboxed_contained], [modules_loaded]), a sandboxed
      chunk has an environment of its own ([sandbox_isolated]), a transaction of
      its tables is atomic and its locks are released
      ([script_transaction_atomic], [script_locks_released]); values pass to Lua and back as stated
      ([script_roundtrip], [conversion_terminates], [json_through_lua]).
    - The servers: cleanup after every end of a connection
      ([connection_cleanup]); nothing stops the UDP server ([udp_served]) or the
      console ([console_survives]); the HTTP bridge answers what the script said, as
      far as net/http sends it ([http_bridge], [http_envelope_faithful]); the metrics page is consistent ([metrics_page]);
      accept loop, servers and tickers come to an end ([tcp_lifecycle],
      [servers_stop], [tickers_stop]); start-up opens things in order and closes
      what it opened ([startup_order]); constructors leak nothing
      ([openings_balanced], [rabbit_channels]); mail and connection strings say
      what they were given ([email_faithful], [dsn_roundtrip]).
    - Where the code falls short of its comments the development says exactly
      how: nested property lists are doubled ([roundtrip_iff]), Latin-1 text is
      lost in the database ([stored_roundtrip]), a token can be used twice by
      racing logons ([token_race]), a renewed timer can escape
      ([expired_timer_escapes]), movie rooms can be forged
      ([movie_room_forged]), a Redis session outlives its record hollow, and a
      logon leaves a hollow record ([lapsed_session_hollow],
      [logon_leaves_hollow]), an address registered as an id displaces a user who
      logged on as it ([register_clobbers]), a module that requires itself can get
      two values ([self_require_overwritten]), [loadfile] runs any file
      ([loadfile_escapes]), Redis does not count on from [007]
      ([adapters_disagree]), configured levels of open commands have no
      effect ([configured_level_ignored]), a subject can add mail headers
      ([subject_injects]), 2^63 changes its sign in JSON ([two63_wraps]), a second
      subscriber of a topic is forgotten ([second_rabbit_subscriber]), an idle check
      can follow [Stop] ([idle_check_after_stop]), a shutdown can come too early
      ([shutdown_too_early]).

    ** What is assumed

    Code outside the repository is a parameter with its documented behaviour:
    the database engine ([SqlEngine], [TxDatabase], [ScriptDb], instances
    [Memory_engine], [mini_db], [mini_script_db]), the Redis server
    ([RedisEngine], [RcServer]), Lua tables ([LuaTables], [JsonTables]), the leases
    of the lock port ([Leases]), the counters while other goroutines run
    ([Counting]), the order in which Go ranges over a map ([MapOrder]), the
    decimal form of floats ([FormatFloat], [ParseFloat], [reformat], [float_text];
    package strconv), symbolic links ([EvalSymlinks]) and the files of a directory,
    the texts of error values and of logged fields ([error_text], [show_value]),
    the random source, the clock and the password hasher (ports whose answers are
    arbitrary unless a theorem says otherwise). The server of net/http, tickers,
    wait groups, channels and [sync.Once] behave as their documentation says.
    [TxDatabase] takes a transaction to stay open under every statement run in it: a
    migration whose own SQL text says COMMIT is outside its theorems. [SqlEngine]
    describes an engine without I/O errors. The TCP server is modelled for a
    MAX_MESSAGE_SIZE above zero, the size of its read buffer: with zero its reads
    return nothing for ever, with a negative one [make] panics.
    The depth to which Lua files may load each other is a parameter, for the size of
    the interpreter's call stack.

    ** Not modelled

    The Lua interpreter (a script is any tree of calls), SQLite and PostgreSQL,
    the client libraries of Redis, AMQP and SQL, TLS and SMTP below their calls,
    bcrypt, the .env loader: third-party code behind the ports above. Sockets
    below reads and writes. The fields of log lines, the calls that increment the
    metrics, and the hexadecimal dump of a message: text for humans. Timing: a
    timeout is an error that may come at any time. Test doubles under src/_tests. *)

From Stdlib Require Import ZArith Lia String Ascii.
From Stdlib Require Import Strings.Byte.
From stdpp Require Import base list strings gmap option.

Open Scope Z_scope.

(** ** Outcomes of Go code

    A Go computation either returns, panics (index out of range, nil
    dereference), or, in a model that recurses on fuel, runs out of fuel.
    The two failures are kept apart: a panic is an observable behaviour of the
    program, exhausted fuel is an artefact that theorems must exclude. *)

Inductive outcome (A : Type) : Type :=
| Ret (a : A)
| Panic
| OutOfFuel.

Arguments Ret {A} a.
Arguments Panic {A}.
Arguments OutOfFuel {A}.

#[export] Instance outcome_ret : MRet outcome := fun A a => Ret a.
#[export] Instance outcome_bind : MBind outcome := fun A B f m =>
  match m with
  | Ret a => f a
  | Panic => Panic
  | OutOfFuel => OutOfFuel
  end.
#[export] Instance outcome_fmap : FMap outcome := fun A B f m =>
  match m with
  | Ret a => Ret (f a)
  | Panic => Panic
  | OutOfFuel => OutOfFuel
  end.

(** [returns m] says that [m] neither panics nor lacks fuel. *)
Definition returns {A} (m : outcome A) : Prop := exists a, m = Ret a.

Lemma bind_Ret {A B} (a : A) (f : A -> outcome B) : (Ret a ≫= f) = f a.
Proof. reflexivity. Qed.

Lemma bind_Ret_inv {A B} (m : outcome A) (f : A -> outcome B) b :
  (m ≫= f) = Ret b -> exists a, m = Ret a /\ f a = Ret b.
Proof. destruct m; try discriminate. intros H. exists a. split; [done|exact H]. Qed.

Lemma returns_bind {A B} (m : outcome A) (f : A -> outcome B) :
  returns m -> (forall a, m = Ret a -> returns (f a)) -> returns (m ≫= f).
Proof. intros [a ->] H. simpl. apply H. reflexivity. Qed.

Lemma returns_Ret {A} (a : A) : returns (Ret a).
Proof. by exists a. Qed.

(** [fueled m]: the model of [m] has fuel enough. *)
Definition fueled {A} (o : outcome A) : Prop := o <> OutOfFuel.

Lemma fueled_bind {A B} (m : outcome A) (f : A -> outcome B) :
  fueled m -> (forall a, m = Ret a -> fueled (f a)) -> fueled (m ≫= f).
Proof. intros Hm Hf. destruct m; [by apply Hf|done|by destruct Hm]. Qed.

Lemma fueled_Ret {A} (a : A) : fueled (Ret a).
Proof. done. Qed.

Lemma fueled_Panic {A} : fueled (@Panic A).
Proof. done. Qed.

(** Running an effectful function over a list, left to right; [zipM_outcome]
    walks two slices by the indices of the first one, so a second slice that is
    too short is an index panic. *)
Section MapM.
Context {A B : Type} (f : A -> outcome B).

Fixpoint mapM_outcome (l : list A) : outcome (list B) :=
  match l with
  | [] => Ret []
  | x :: l => y ← f x; ys ← mapM_outcome l; Ret (y :: ys)
  end.

Fixpoint zip_calls (l k : list (outcome B)) : outcome (list (B * B)) :=
  match l, k with
  | [], _ => Ret []
  | x :: l, y :: k => a ← x; b ← y; r ← zip_calls l k; Ret ((a, b) :: r)
  | _ :: _, [] => Panic
  end.

(** The calls on the elements, made pairwise in order. *)
Definition zipM_outcome (l k : list A) : outcome (list (B * B)) :=
  zip_calls (map f l) (map f k).

Lemma mapM_outcome_Ret (g : A -> B) l :
  Forall (fun x => f x = Ret (g x)) l -> mapM_outcome l = Ret (g <$> l).
Proof. induction 1 as [|x l Hx _ IH]; simpl; [done|]. by rewrite Hx, IH. Qed.

Lemma zipM_outcome_Ret (g : A -> B) l k :
  length l = length k ->
  Forall (fun x => f x = Ret (g x)) l -> Forall (fun x => f x = Ret (g x)) k ->
  zipM_outcome l k = Ret (zip (g <$> l) (g <$> k)).
Proof.
  intros Hlen Hl. revert k Hlen. induction Hl as [|x l Hx _ IH];
    intros [|y k] Hlen Hk; simplify_eq/=; [done|].
  inversion Hk as [|? ? Hy Hk']; subst. unfold zipM_outcome in *. simpl.
  rewrite Hx, Hy. simpl. by rewrite IH.
Qed.

Lemma mapM_outcome_returns l :
  returns (mapM_outcome l) <-> Forall (fun x => returns (f x)) l.
Proof.
  induction l as [|x l IH]; simpl.
  { split; [constructor|intros _; apply returns_Ret]. }
  rewrite Forall_cons_iff, <- IH. split.
  - intros [r H]. apply bind_Ret_inv in H as (y & Hy & H).
    apply bind_Ret_inv in H as (ys & Hys & _). split; eexists; eauto.
  - intros [[y Hy] [ys Hys]]. rewrite Hy, Hys. apply returns_Ret.
Qed.

Lemma zipM_outcome_returns l k :
  length l = length k ->
  (returns (zipM_outcome l k) <->
   Forall (fun x => returns (f x)) l /\ Forall (fun x => returns (f x)) k).
Proof.
  unfold zipM_outcome. revert k.
  induction l as [|x l IH]; intros [|y k] Hlen; simplify_eq/=.
  { split; [by repeat constructor|intros _; apply returns_Ret]. }
  rewrite !Forall_cons_iff. split.
  - intros [r H]. apply bind_Ret_inv in H as (a & Ha & H).
    apply bind_Ret_inv in H as (b & Hb & H). apply bind_Ret_inv in H as (c & Hc & _).
    destruct (proj1 (IH k Hlen)) as [? ?]; [by exists c|].
    split; split; auto; eexists; eauto.
  - intros [[[a Ha] Hl] [[b Hb] Hk]]. rewrite Ha, Hb. simpl.
    destruct (proj2 (IH k Hlen)) as [c Hc]; [done|]. rewrite Hc. apply returns_Ret.
Qed.
End MapM.

(** ** Machine integers *)

Definition two8 : Z := 256.
Definition two16 : Z := 65536.
Definition two32 : Z := 4294967296.
Definition two64 : Z := 18446744073709551616.

(** [uint32 z] and [int32 z] are Go's conversions: the low bits, reinterpreted. *)
Definition uint16 (z : Z) : Z := z mod two16.
Definition uint32 (z : Z) : Z := z mod two32.
Definition int16 (z : Z) : Z :=
  let u := z mod two16 in if u <? 32768 then u else u - two16.
Definition int32 (z : Z) : Z :=
  let u := z mod two32 in if u <? 2147483648 then u else u - two32.
Definition int64 (z : Z) : Z :=
  let u := z mod two64 in if u <? 9223372036854775808 then u else u - two64.

Definition in_int32 (z : Z) : Prop := -2147483648 <= z < 2147483648.
Definition in_uint32 (z : Z) : Prop := 0 <= z < two32.

Lemma uint32_range z : 0 <= uint32 z < two32.
Proof. apply Z.mod_pos_bound. reflexivity. Qed.

Lemma int32_range z : in_int32 (int32 z).
Proof.
  unfold int32, in_int32, two32.
  pose proof (Z.mod_pos_bound z 4294967296 ltac:(lia)).
  case_match; lia.
Qed.

Lemma int32_id z : in_int32 z -> int32 z = z.
Proof.
  unfold int32, in_int32, two32. intros H.
  destruct (decide (0 <= z)).
  - rewrite Z.mod_small by lia. case_match; lia.
  - rewrite <- (Z.mod_unique z 4294967296 (-1) (z + 4294967296)) by lia.
    case_match; lia.
Qed.

Lemma int32_uint32 z : int32 (uint32 z) = int32 z.
Proof. unfold int32, uint32. by rewrite Zmod_mod. Qed.

Lemma uint32_id z : in_uint32 z -> uint32 z = z.
Proof. intros H. by apply Z.mod_small. Qed.

(** ** Bytes *)

Abbreviation byte := Byte.byte.
Abbreviation bytes := (list Byte.byte).

#[export] Instance byte_eq_dec : EqDecision byte := Byte.byte_eq_dec.

Definition Z_of_byte (b : byte) : Z := Z.of_N (Byte.to_N b).
Definition byte_of_Z (z : Z) : byte :=
  match Byte.of_N (Z.to_N (z mod 256)) with
  | Some b => b
  | None => Byte.x00
  end.

Lemma Z_of_byte_range b : 0 <= Z_of_byte b < 256.
Proof. unfold Z_of_byte. pose proof (Byte.to_N_bounded b). lia. Qed.

Lemma Z_of_byte_of_Z z : Z_of_byte (byte_of_Z z) = z mod 256.
Proof.
  unfold byte_of_Z, Z_of_byte.
  pose proof (Z.mod_pos_bound z 256 ltac:(lia)) as Hr.
  destruct (Byte.of_N (Z.to_N (z mod 256))) as [b|] eqn:E.
  - apply Byte.to_of_N in E. rewrite E. lia.
  - apply Byte.of_N_None_iff in E. lia.
Qed.

Lemma byte_of_Z_of_byte b : byte_of_Z (Z_of_byte b) = b.
Proof.
  unfold byte_of_Z, Z_of_byte.
  pose proof (Byte.to_N_bounded b).
  rewrite Z.mod_small, N2Z.id, Byte.of_to_N by lia. reflexivity.
Qed.

Lemma Z_of_byte_inj a b : Z_of_byte a = Z_of_byte b -> a = b.
Proof.
  intros H. rewrite <- (byte_of_Z_of_byte a), <- (byte_of_Z_of_byte b). by rewrite H.
Qed.

(** Length as a Go [int]. *)
Definition zlen {A} (l : list A) : Z := Z.of_nat (length l).

Lemma zlen_nonneg {A} (l : list A) : 0 <= zlen l.
Proof. unfold zlen. lia. Qed.

Lemma zlen_nil {A} : zlen (@nil A) = 0.
Proof. reflexivity. Qed.

Lemma zlen_cons {A} (x : A) l : zlen (x :: l) = 1 + zlen l.
Proof. unfold zlen. simpl length. lia. Qed.

Lemma zlen_app {A} (l k : list A) : zlen (l ++ k) = zlen l + zlen k.
Proof. unfold zlen. rewrite length_app. lia. Qed.

Lemma zlen_fmap {A B} (f : A -> B) l : zlen (f <$> l) = zlen l.
Proof. unfold zlen. by rewrite length_fmap. Qed.

(** [slice l a b] is Go's [l[a:b]]: a panic unless [0 <= a <= b <= len(l)]. *)
Definition slice {A} (l : list A) (a b : Z) : outcome (list A) :=
  if (0 <=? a) && (a <=? b) && (b <=? zlen l)
  then Ret (take (Z.to_nat (b - a)) (drop (Z.to_nat a) l))
  else Panic.

(** [slice_from l a] is Go's [l[a:]]. *)
Definition slice_from {A} (l : list A) (a : Z) : outcome (list A) := slice l a (zlen l).

(** [index l i] is Go's [l[i]]. *)
Definition index {A} (l : list A) (i : Z) : outcome A :=
  if 0 <=? i then
    match l !! Z.to_nat i with Some x => Ret x | None => Panic end
  else Panic.

Lemma slice_ret {A} (l : list A) a b :
  0 <= a -> a <= b -> b <= zlen l ->
  slice l a b = Ret (take (Z.to_nat (b - a)) (drop (Z.to_nat a) l)).
Proof.
  intros. unfold slice.
  by rewrite !(proj2 (Z.leb_le _ _)) by lia.
Qed.

Lemma slice_app {A} (pre mid post : list A) a b :
  a = zlen pre -> b = zlen pre + zlen mid ->
  slice (pre ++ mid ++ post) a b = Ret mid.
Proof.
  intros -> ->. pose proof (zlen_nonneg mid). pose proof (zlen_nonneg post).
  pose proof (zlen_nonneg pre).
  rewrite slice_ret by (rewrite ?zlen_app; lia).
  unfold zlen. replace (Z.to_nat (_ + _ - _)) with (length mid) by lia.
  rewrite Nat2Z.id, drop_app_length, take_app_length. reflexivity.
Qed.

Lemma slice_zlen {A} (l k : list A) a b : slice l a b = Ret k -> zlen k = b - a.
Proof.
  unfold slice. destruct (_ && _) eqn:E; [|done]. intros [= <-].
  repeat (apply andb_prop in E as [E ?]).
  rewrite ?Z.leb_le in *. unfold zlen in *.
  rewrite length_take, length_drop. lia.
Qed.

Lemma index_app {A} (pre : list A) x post i :
  i = zlen pre -> index (pre ++ x :: post) i = Ret x.
Proof.
  intros ->. pose proof (zlen_nonneg pre). unfold index, zlen.
  rewrite (proj2 (Z.leb_le _ _)) by lia.
  rewrite Nat2Z.id, list_lookup_middle by done. reflexivity.
Qed.

Lemma index_ret {A} (l : list A) i : 0 <= i < zlen l -> returns (index l i).
Proof.
  intros [H1 H2]. unfold index, zlen in *.
  rewrite (proj2 (Z.leb_le _ _)) by lia.
  destruct (lookup_lt_is_Some_2 l (Z.to_nat i)) as [x ->]; [lia|]. by exists x.
Qed.

(** ** Big-endian words (encoding/binary) *)

Fixpoint be_put (n : nat) (z : Z) : bytes :=
  match n with
  | O => []
  | S n => byte_of_Z (z / 256 ^ Z.of_nat n) :: be_put n z
  end.

Definition be_get (l : bytes) : Z :=
  fold_left (fun acc b => acc * 256 + Z_of_byte b) l 0.

(** [be_uint n raw off] is [binary.BigEndian.UintN(raw[off:])]: a panic unless
    [n] bytes are available at [off]. *)
Definition be_uint (n : nat) (raw : bytes) (off : Z) : outcome Z :=
  w ← slice raw off (off + Z.of_nat n); Ret (be_get w).

Definition PutUint16 (z : Z) : bytes := be_put 2 z.
Definition PutUint32 (z : Z) : bytes := be_put 4 z.
Definition PutUint64 (z : Z) : bytes := be_put 8 z.

#[global] Arguments PutUint16 : simpl never.
#[global] Arguments PutUint32 : simpl never.
#[global] Arguments PutUint64 : simpl never.

Lemma be_put_length n z : length (be_put n z) = n.
Proof. induction n; simpl; auto. Qed.

Lemma zlen_be_put n z : zlen (be_put n z) = Z.of_nat n.
Proof. unfold zlen. by rewrite be_put_length. Qed.

Lemma be_get_acc l acc :
  fold_left (fun a b => a * 256 + Z_of_byte b) l acc =
  acc * 256 ^ zlen l + be_get l.
Proof.
  unfold be_get. revert acc. induction l as [|b l IH]; intros acc; simpl fold_left.
  - rewrite zlen_nil. lia.
  - rewrite IH, (IH (0 * 256 + Z_of_byte b)).
    rewrite zlen_cons, Z.pow_add_r by (pose proof (zlen_nonneg l); lia). lia.
Qed.

Lemma be_get_cons b l : be_get (b :: l) = Z_of_byte b * 256 ^ zlen l + be_get l.
Proof. unfold be_get at 1. cbn [fold_left]. by rewrite be_get_acc. Qed.

Lemma be_get_put n z : be_get (be_put n z) = z mod 256 ^ Z.of_nat n.
Proof.
  induction n as [|n IH].
  - cbn. by rewrite Z.mod_1_r.
  - cbn [be_put]. rewrite be_get_cons, IH, Z_of_byte_of_Z, zlen_be_put.
    rewrite Nat2Z.inj_succ, Z.pow_succ_r by lia.
    set (p := 256 ^ Z.of_nat n). assert (0 < p) by (unfold p; lia).
    rewrite (Z.mul_comm 256 p), Z.rem_mul_r by lia. lia.
Qed.

Lemma be_get_range l : 0 <= be_get l < 256 ^ zlen l.
Proof.
  induction l as [|b l IH]; [cbv; split; [discriminate|reflexivity]|].
  rewrite be_get_cons, zlen_cons, Z.pow_add_r by (pose proof (zlen_nonneg l); lia).
  pose proof (Z_of_byte_range b). nia.
Qed.

Lemma be_uint_put n z pre post off :
  off = zlen pre ->
  be_uint n (pre ++ be_put n z ++ post) off = Ret (z mod 256 ^ Z.of_nat n).
Proof.
  intros ->. unfold be_uint.
  erewrite slice_app; [|done|by rewrite zlen_be_put].
  simpl. by rewrite be_get_put.
Qed.

Lemma be_uint_ret n raw off :
  0 <= off -> off + Z.of_nat n <= zlen raw ->
  exists w, be_uint n raw off = Ret w /\ 0 <= w < 256 ^ Z.of_nat n.
Proof.
  intros H1 H2. unfold be_uint. rewrite slice_ret by lia. simpl. eexists. split; [done|].
  pose proof (be_get_range (take (Z.to_nat (off + Z.of_nat n - off)) (drop (Z.to_nat off) raw))) as H.
  unfold zlen in *. rewrite length_take, length_drop in H.
  replace (Z.of_nat (_ `min` _)) with (Z.of_nat n) in H by lia. exact H.
Qed.

(** ** Go strings are byte sequences *)

Definition bytes_of_string (s : string) : bytes := String.list_byte_of_string s.
Definition string_of_bytes (l : bytes) : string := String.string_of_list_byte l.

Lemma string_of_bytes_of_string s : string_of_bytes (bytes_of_string s) = s.
Proof. apply String.string_of_list_byte_of_string. Qed.

Lemma bytes_of_string_of_bytes l : bytes_of_string (string_of_bytes l) = l.
Proof. apply String.list_byte_of_string_of_list_byte. Qed.

(** [len(s)] *)
Definition slen (s : string) : Z := zlen (bytes_of_string s).

Lemma slen_nonneg s : 0 <= slen s.
Proof. apply zlen_nonneg. Qed.

Lemma slen_app s t : slen (s +:+ t) = slen s + slen t.
Proof.
  unfold slen, bytes_of_string, String.list_byte_of_string.
  rewrite <- zlen_app. f_equal. induction s as [|c s IH]; simpl; [done|by f_equal].
Qed.

(** strings.HasPrefix and strings.TrimPrefix *)
Definition HasPrefix (s p : string) : bool := String.prefix p s.

Fixpoint string_drop (n : nat) (s : string) : string :=
  match n, s with
  | O, _ => s
  | S n, String _ s => string_drop n s
  | S _, EmptyString => EmptyString
  end.

Definition TrimPrefix (s p : string) : string :=
  if HasPrefix s p then string_drop (String.length p) s else s.

Lemma HasPrefix_app p s : HasPrefix (p +:+ s) p = true.
Proof.
  unfold HasPrefix. induction p as [|c p IH]; simpl; [by destruct s|].
  destruct (ascii_dec c c); [apply IH|done].
Qed.

Lemma HasPrefix_spec s p : HasPrefix s p = true <-> exists r, s = p +:+ r.
Proof.
  split.
  - unfold HasPrefix. revert s. induction p as [|c p IH]; intros s H; simpl in *.
    + by exists s.
    + destruct s as [|d s]; simpl in H; [done|]. destruct (ascii_dec c d) as [->|]; [|done].
      destruct (IH s H) as [r ->]. by exists r.
  - intros [r ->]. apply HasPrefix_app.
Qed.

Lemma TrimPrefix_app p s : TrimPrefix (p +:+ s) p = s.
Proof.
  unfold TrimPrefix. rewrite HasPrefix_app.
  induction p as [|c p IH]; simpl; [done|apply IH].
Qed.

Lemma string_app_inj_l (p a b : string) : p +:+ a = p +:+ b -> a = b.
Proof. induction p as [|c p IH]; simpl; [done|]. intros [=]. by apply IH. Qed.

(** ** Automation shared by the components *)

Create HintDb go discriminated.
Create HintDb fuel.
#[export] Hint Resolve returns_Ret zlen_nonneg slen_nonneg : go.
#[export] Hint Resolve fueled_bind fueled_Ret fueled_Panic : fuel.

#[export] Hint Rewrite @zlen_app @zlen_cons @zlen_nil @zlen_fmap zlen_be_put : zlen.

(** Normalise list lengths and hand the rest to [lia]. *)
Ltac zl := autorewrite with zlen in *; simpl Z.of_nat in *;
  repeat match goal with
  | _ : context [zlen ?l] |- _ =>
      lazymatch goal with H : 0 <= zlen l |- _ => fail | _ => pose proof (zlen_nonneg l) end
  | |- context [zlen ?l] =>
      lazymatch goal with H : 0 <= zlen l |- _ => fail | _ => pose proof (zlen_nonneg l) end
  end; lia.

(** Case on the boolean comparisons the code branches on. *)
Ltac zcase :=
  repeat match goal with
  | |- context [?a <? ?b] => destruct (Z.ltb_spec a b)
  | |- context [?a <=? ?b] => destruct (Z.leb_spec a b)
  | |- context [?a >? ?b] => rewrite (Z.gtb_ltb a b)
  | |- context [?a =? ?b] => destruct (Z.eqb_spec a b)
  end.
