(* ===== verification/GoFmt.v ===== *)
(** * Formatting verbs of Go's [fmt] and [strconv] that the program uses

    [Itoa] is [strconv.Itoa] and the [%d] verb, [hex2] one byte of [%x], and
    [fmt_f] the [%f] verb (six decimals, exact value rounded half to even) on
    IEEE 754 bit patterns: floats are carried as their bit patterns, which is
    what [math.Float64bits] and [math.Float64frombits] exchange. *)

From stdpp Require Import base list strings pretty.
From Stdlib Require Import ZArith Lia.
From S2P Require Import Prelude.

Open Scope Z_scope.

Definition Itoa (z : Z) : string := pretty z.

Lemma Itoa_inj a b : Itoa a = Itoa b -> a = b.
Proof. apply (inj (pretty (A:=Z))). Qed.

Definition hex_digit (z : Z) : Ascii.ascii :=
  Ascii.ascii_of_N (Z.to_N (if z <? 10 then 48 + z else 87 + z)).

(** One byte as two lowercase hexadecimal digits. *)
Definition hex2 (b : byte) : string :=
  String (hex_digit (Z_of_byte b / 16)) (String (hex_digit (Z_of_byte b mod 16)) EmptyString).

Definition hex (l : bytes) : string := fold_right String.append EmptyString (hex2 <$> l).

(** Left-pad a decimal with zeros to six digits. *)
Definition pad6 (z : Z) : string :=
  let s := Itoa z in
  String.append (String.substring 0 (6 - String.length s) "000000") s.

(** [m * 2^e * 10^6] rounded to the nearest integer, ties to even. *)
Definition scaled6 (m e : Z) : Z :=
  let num := m * 1000000 in
  if 0 <=? e then num * 2 ^ e
  else
    let den := 2 ^ (- e) in
    let q := num / den in
    let r := num mod den in
    if 2 * r <? den then q
    else if den <? 2 * r then q + 1
    else if Z.even q then q else q + 1.

(** [%f] of the float with the given field widths and bit pattern. *)
Definition fmt_f (mbits ebits : Z) (bits : Z) : string :=
  let sign := Z.testbit bits (mbits + ebits) in
  let ex := Z.land (Z.shiftr bits mbits) (2 ^ ebits - 1) in
  let man := Z.land bits (2 ^ mbits - 1) in
  let bias := 2 ^ (ebits - 1) - 1 + mbits in
  if ex =? 2 ^ ebits - 1 then
    if man =? 0 then (if sign then "-Inf" else "+Inf")%string else "NaN"%string
  else
    let q := if ex =? 0 then scaled6 man (1 - bias)
             else scaled6 (man + 2 ^ mbits) (ex - bias) in
    String.append (if sign then "-" else "")
      (String.append (Itoa (q / 1000000)) (String.append "." (pad6 (q mod 1000000)))).

Definition fmt_f64 : Z -> string := fmt_f 52 11.
Definition fmt_f32 : Z -> string := fmt_f 23 8.

(** [float64(f)] for a [float32] bit pattern [f]: exact on finite values. *)
Definition float64_of_float32 (bits : Z) : Z :=
  let sign := Z.shiftl (Z.shiftr bits 31) 63 in
  let ex := Z.land (Z.shiftr bits 23) 255 in
  let man := Z.land bits 8388607 in
  if ex =? 255 then
    Z.lor sign (Z.lor (Z.shiftl 2047 52)
      (if man =? 0 then 0 else Z.lor (Z.shiftl 1 51) (Z.shiftl man 29)))
  else if ex =? 0 then
    if man =? 0 then sign
    else
      let k := Z.log2 man in
      Z.lor sign (Z.lor (Z.shiftl (k - 149 + 1023) 52)
        (Z.shiftl (man - Z.shiftl 1 k) (52 - k)))
  else Z.lor sign (Z.lor (Z.shiftl (ex - 127 + 1023) 52) (Z.shiftl man 29)).

Example fmt_f_pi : fmt_f64 0x400921fb54442d18 = "3.141593"%string.
Proof. vm_compute. reflexivity. Qed.
Example fmt_f_half : fmt_f32 0xbf000000 = "-0.500000"%string.
Proof. vm_compute. reflexivity. Qed.
Example float_widen : fmt_f64 (float64_of_float32 0xbf000000) = "-0.500000"%string.
Proof. vm_compute. reflexivity. Qed.

(** ** [strconv.ParseInt(s, 10, 64)]

    An optional sign, then decimal digits. The digits are read left to right
    and the first offence decides the error: a character that is no digit is
    [ErrSyntax], a value beyond the unsigned range is [ErrRange]. *)

Inductive num_error := ErrSyntax | ErrRange.

Definition digit_value (b : byte) : option Z :=
  let z := Z_of_byte b in if (48 <=? z) && (z <=? 57) then Some (z - 48) else None.

Fixpoint parse_digits (acc : Z) (l : bytes) : num_error + Z :=
  match l with
  | [] => inr acc
  | b :: l =>
      match digit_value b with
      | None => inl ErrSyntax
      | Some d => if two64 <=? 10 * acc + d then inl ErrRange else parse_digits (10 * acc + d) l
      end
  end.

Definition parse_uint (l : bytes) : num_error + Z :=
  match l with [] => inl ErrSyntax | _ => parse_digits 0 l end.

Definition max_int64 : Z := 9223372036854775807.
Definition in_int64 (z : Z) : Prop := - max_int64 - 1 <= z <= max_int64.

(** [Time.Sub], which saturates. *)
Definition time_Sub (t u : Z) : Z := Z.max (- max_int64 - 1) (Z.min max_int64 (t - u)).

Definition ParseInt (l : bytes) : num_error + Z :=
  match l with
  | [] => inl ErrSyntax
  | b :: rest =>
      let neg := bool_decide (b = Byte.x2d) in
      match parse_uint (if neg || bool_decide (b = Byte.x2b) then rest else l) with
      | inl e => inl e
      | inr u =>
          if neg then if max_int64 + 1 <? u then inl ErrRange else inr (- u)
          else if max_int64 <? u then inl ErrRange else inr u
      end
  end.

(** Reading back a printed integer: [pretty] prints the most significant digits
    first, which is the order they are read in. *)
Lemma digit_value_char (x : N) :
  (x < 10)%N -> digit_value (Ascii.byte_of_ascii (pretty_N_char x)) = Some (Z.of_N x).
Proof.
  intros Hx. assert (x = 0 \/ x = 1 \/ x = 2 \/ x = 3 \/ x = 4 \/ x = 5 \/ x = 6 \/ x = 7 \/ x = 8 \/ x = 9)%N
    as H by lia. by repeat destruct H as [->|H]; [..|subst].
Qed.

Lemma parse_digits_pretty (x : N) (s : string) :
  Z.of_N x < two64 ->
  parse_digits 0 (bytes_of_string (pretty_N_go x s)) = parse_digits (Z.of_N x) (bytes_of_string s).
Proof.
  revert s. induction (N.lt_wf_0 x) as [x _ IH]; intros s Hx.
  destruct (decide (x = 0)%N) as [->|Hne]; [by rewrite pretty_N_go_0|].
  pose proof (N.div_mod x 10 ltac:(done)) as Hdm.
  pose proof (N.mod_lt x 10 ltac:(done)) as Hm.
  assert (x / 10 < x)%N as Hlt by (apply N.div_lt; lia).
  rewrite pretty_N_go_step by lia. rewrite IH; [|exact Hlt|lia].
  change (bytes_of_string (String ?c s)) with (Ascii.byte_of_ascii c :: bytes_of_string s).
  cbn [parse_digits]. rewrite digit_value_char by done.
  replace (10 * Z.of_N (x / 10) + Z.of_N (x mod 10)) with (Z.of_N x) by lia.
  by rewrite (proj2 (Z.leb_gt _ _)).
Qed.

Lemma pretty_N_go_starts (x : N) s :
  (0 < x)%N -> exists y r, (y < 10)%N /\ pretty_N_go x s = String (pretty_N_char y) r.
Proof.
  revert s. induction (N.lt_wf_0 x) as [x _ IH]; intros s Hx.
  pose proof (N.mod_lt x 10 ltac:(done)) as Hm. rewrite pretty_N_go_step by done.
  destruct (decide (x / 10 = 0)%N) as [->|Hd].
  - rewrite pretty_N_go_0. eauto.
  - apply IH; [apply N.div_lt; lia|by apply N.neq_0_lt_0].
Qed.

(** Printed naturals start with a digit, so no sign is consumed. *)
Lemma parse_uint_pretty (x : N) :
  Z.of_N x < two64 ->
  exists b l, bytes_of_string (pretty x) = b :: l /\ b <> Byte.x2d /\ b <> Byte.x2b /\
    parse_uint (b :: l) = inr (Z.of_N x).
Proof.
  intros Hx. unfold pretty, pretty_N. case_decide as H0.
  { subst. by exists Byte.x30, []. }
  destruct (pretty_N_go_starts x "" ltac:(lia)) as (y & r & Hy & Hr).
  pose proof (parse_digits_pretty x "" Hx) as Hp. rewrite Hr in Hp |- *.
  change (bytes_of_string (String ?c r)) with (Ascii.byte_of_ascii c :: bytes_of_string r) in *.
  exists (Ascii.byte_of_ascii (pretty_N_char y)), (bytes_of_string r).
  pose proof (digit_value_char y Hy) as Hd.
  split_and!; [done|by intros E; rewrite E in Hd|by intros E; rewrite E in Hd|].
  unfold parse_uint. by rewrite Hp.
Qed.

Lemma ParseInt_Itoa z : in_int64 z -> ParseInt (bytes_of_string (Itoa z)) = inr z.
Proof.
  intros Hz. unfold in_int64, max_int64 in Hz. unfold Itoa, pretty, pretty_Z.
  destruct z as [|p|p]; [done|..].
  - destruct (parse_uint_pretty (Npos p)) as (b & l & Hb & Hm & Hp & Hu); [cbn; unfold two64; lia|].
    change (pretty (Npos p)) with (pretty p) in Hb. rewrite Hb. unfold ParseInt. rewrite !bool_decide_false by done.
    cbn [orb]. rewrite Hu. unfold max_int64. cbn [Z.of_N]. by rewrite (proj2 (Z.ltb_ge _ _)) by lia.
  - destruct (parse_uint_pretty (Npos p)) as (b & l & Hb & Hm & Hp & Hu); [cbn; unfold two64; lia|].
    change (pretty (Npos p)) with (pretty p) in Hb.
    change (bytes_of_string ("-" +:+ pretty p)) with (Byte.x2d :: bytes_of_string (pretty p)). rewrite Hb.
    unfold ParseInt. rewrite !bool_decide_true by done. cbn [orb]. rewrite Hu. unfold max_int64. cbn [Z.of_N].
    by rewrite (proj2 (Z.ltb_ge _ _)) by lia.
Qed.
