(* ===== verification/Float.v ===== *)
(** * float64 arithmetic

    The sums, products and quotients of package-level Go code on [float64]: the
    exact result rounded to the nearest of the numbers with 53 significant bits,
    ties to even, down to the smallest subnormal, [2^-1074]. A finite number is
    the integer that counts those units, so every operation is integer
    arithmetic and runs. The two zeros are one number here: no code that uses
    this file divides by a zero that could be negative. Products are rounded
    before they are added, as on amd64. *)

From Stdlib Require Import ZArith Lia.
From stdpp Require Import base tactics.
From S2P Require Import Prelude.

Open Scope Z_scope.

(** ** Rounding *)

(** The integer nearest to [n / d], ties to even. *)
Definition rne (n d : Z) : Z :=
  let q := n / d in
  let r := n mod d in
  if 2 * r <? d then q
  else if d <? 2 * r then q + 1
  else if Z.even q then q else q + 1.

(** The distance of the floats around [n / d]. *)
Definition quantum (n d : Z) : Z := 2 ^ Z.max 0 (Z.log2 (n / d) - 52).

Definition rnd (n d : Z) : Z := rne n (d * quantum n d) * quantum n d.

(** ** Numbers *)

Inductive f64 := Fin (units : Z) | Inf (negative : bool) | NaN.

Definition one : Z := 2 ^ 1074.

(** The float nearest to [n / d] units, for a positive [d]. *)
Definition fround (n d : Z) : f64 :=
  let m := rnd (Z.abs n) d in
  if m <? 2 ^ 1024 * one then Fin (Z.sgn n * m) else Inf (n <? 0).

(** [float64(z)] *)
Definition of_int (z : Z) : f64 := fround (z * one) 1.

Definition fadd (a b : f64) : f64 :=
  match a, b with
  | Fin x, Fin y => fround (x + y) 1
  | NaN, _ | _, NaN => NaN
  | Inf s, Inf t => if Bool.eqb s t then Inf s else NaN
  | Inf s, Fin _ | Fin _, Inf s => Inf s
  end.

Definition fneg (a : f64) : f64 :=
  match a with Fin x => Fin (- x) | Inf s => Inf (negb s) | NaN => NaN end.

Definition fsub (a b : f64) : f64 := fadd a (fneg b).

Definition fmul (a b : f64) : f64 :=
  match a, b with
  | Fin x, Fin y => fround (x * y) one
  | NaN, _ | _, NaN => NaN
  | Inf s, Inf t => Inf (xorb s t)
  | Inf s, Fin y | Fin y, Inf s => if y =? 0 then NaN else Inf (xorb s (y <? 0))
  end.

Definition fdiv (a b : f64) : f64 :=
  match a, b with
  | Fin x, Fin y =>
      if y =? 0 then (if x =? 0 then NaN else Inf (x <? 0))
      else fround (x * one * Z.sgn y) (Z.abs y)
  | NaN, _ | _, NaN => NaN
  | Inf _, Inf _ => NaN
  | Inf s, Fin y => Inf (xorb s (y <? 0))
  | Fin _, Inf _ => Fin 0
  end.

(** [a < b] and [a <= b]; with a NaN both are false. *)
Definition flt (a b : f64) : bool :=
  match a, b with
  | Fin x, Fin y => x <? y
  | NaN, _ | _, NaN => false
  | Inf s, Inf t => s && negb t
  | Inf s, Fin _ => s
  | Fin _, Inf t => negb t
  end.

Definition fle (a b : f64) : bool :=
  match a, b with
  | Fin x, Fin y => x <=? y
  | NaN, _ | _, NaN => false
  | Inf s, Inf t => s || negb t
  | Inf s, Fin _ => s
  | Fin _, Inf t => negb t
  end.

(** [Duration.Seconds] *)
Definition Seconds (d : Z) : f64 :=
  fadd (of_int (Z.quot d 1000000000)) (fdiv (of_int (Z.rem d 1000000000)) (of_int 1000000000)).

Example half : fdiv (of_int 1) (of_int 2) = Fin (2 ^ 1073).
Proof. vm_compute. reflexivity. Qed.
(** 0.1 + 0.2 is the float after 0.3. *)
Example tenths :
  fsub (fadd (fdiv (of_int 1) (of_int 10)) (fdiv (of_int 2) (of_int 10))) (fdiv (of_int 3) (of_int 10)) =
    Fin (2 ^ 1020).
Proof. vm_compute. reflexivity. Qed.
Example third_bits : fdiv (of_int 1) (of_int 3) = Fin (0x15555555555555 * 2 ^ (1074 - 54)).
Proof. vm_compute. reflexivity. Qed.
Example zero_over_zero : fdiv (of_int 0) (of_int 0) = NaN /\ fmul (of_int 0) (fdiv (of_int 5) (of_int 0)) = NaN.
Proof. vm_compute. split; reflexivity. Qed.

(** ** Rounding is monotone and close *)

Lemma rne_bounds n d : 0 < d -> n / d <= rne n d <= n / d + 1.
Proof. intros Hd. unfold rne. repeat case_match; lia. Qed.

Lemma rne_exact q d : 0 < d -> rne (q * d) d = q.
Proof.
  intros Hd. unfold rne. rewrite Z.div_mul, Z.mod_mul by lia. by rewrite (proj2 (Z.ltb_lt _ _)) by lia.
Qed.

Lemma rne_error n d : 0 < d -> - d <= 2 * (rne n d * d - n) <= d.
Proof.
  intros Hd. pose proof (Z.div_mod n d) as Hn. pose proof (Z.mod_pos_bound n d Hd) as Hr. unfold rne.
  destruct (Z.ltb_spec (2 * (n mod d)) d); [nia|]. destruct (Z.ltb_spec d (2 * (n mod d))); [nia|].
  destruct (Z.even (n / d)); nia.
Qed.

(** Within one unit the rounding direction depends on the remainder, compared
    across denominators. *)
Lemma rne_mono n1 d1 n2 d2 : 0 < d1 -> 0 < d2 -> n1 * d2 <= n2 * d1 -> rne n1 d1 <= rne n2 d2.
Proof.
  intros H1 H2 Hle.
  assert (Hq : n1 / d1 <= n2 / d2).
  { apply Z.div_le_lower_bound; [done|]. pose proof (Z.mul_div_le n1 d1 H1). nia. }
  pose proof (rne_bounds n1 d1 H1). pose proof (rne_bounds n2 d2 H2).
  destruct (Z.eq_dec (n1 / d1) (n2 / d2)) as [E|]; [|lia].
  pose proof (Z.div_mod n1 d1 ltac:(lia)) as E1. pose proof (Z.div_mod n2 d2 ltac:(lia)) as E2.
  assert (Hr : (n1 mod d1) * d2 <= (n2 mod d2) * d1) by (rewrite E in E1; nia).
  unfold rne. rewrite E. clear E1 E2 Hq Hle.
  destruct (Z.ltb_spec (2 * (n1 mod d1)) d1); [repeat case_match; lia|].
  destruct (Z.ltb_spec (2 * (n2 mod d2)) d2); [nia|].
  destruct (Z.ltb_spec d2 (2 * (n2 mod d2))); [repeat case_match; lia|].
  destruct (Z.ltb_spec d1 (2 * (n1 mod d1))); [nia|]. lia.
Qed.

Lemma quantum_pos n d : 0 < quantum n d.
Proof. apply Z.pow_pos_nonneg; lia. Qed.

Lemma quantum_cases n d :
  0 <= n -> 0 < d ->
  (quantum n d = 1 /\ n / d < 2 ^ 53) \/
  (exists k, 0 <= k /\ quantum n d = 2 ^ k /\ 2 ^ (52 + k) <= n / d < 2 ^ (53 + k)).
Proof.
  intros Hn Hd. pose proof (Z.div_pos n d Hn Hd) as Hq. unfold quantum.
  destruct (Z.le_gt_cases (Z.log2 (n / d)) 52) as [Hl|Hl].
  - left. rewrite Z.max_l by lia. split; [done|]. destruct (Z.eq_dec (n / d) 0) as [->|]; [lia|].
    apply Z.log2_lt_pow2; lia.
  - right. exists (Z.log2 (n / d) - 52). rewrite Z.max_r by lia. split; [lia|]. split; [done|].
    replace (52 + _) with (Z.log2 (n / d)) by lia. replace (53 + _) with (Z.succ (Z.log2 (n / d))) by lia.
    apply Z.log2_spec. destruct (Z.eq_dec (n / d) 0) as [E|]; [rewrite E in Hl; done|lia].
Qed.

(** The rounded number stays inside its binade, the upper end included. *)
Lemma rnd_binade n d j :
  0 <= n -> 0 < d -> 0 <= j -> 
  (n <= 2 ^ j * d -> rnd n d <= 2 ^ j) /\ (2 ^ j * d <= n -> 2 ^ j <= rnd n d).
Proof.
  intros Hn Hd Hj. unfold rnd. pose proof (quantum_pos n d) as Hu.
  assert (H2 : 0 < 2 ^ j) by (apply Z.pow_pos_nonneg; lia).
  destruct (quantum_cases n d Hn Hd) as [[-> Hq]|(k & Hk & Ek & Hlo & Hhi)].
  - rewrite !Z.mul_1_r. split; intros Hle.
    + rewrite <- (rne_exact (2 ^ j) d) by done. apply rne_mono; nia.
    + rewrite <- (rne_exact (2 ^ j) d) at 1 by done. apply rne_mono; nia.
  - rewrite Ek in *. split; intros Hle.
    + assert (52 + k <= j).
      { apply (Z.pow_le_mono_r_iff 2); [lia..|]. apply Z.le_trans with (n / d); [done|].
        apply Z.div_le_upper_bound; lia. }
      assert (E : 2 ^ j = 2 ^ (j - k) * 2 ^ k) by (rewrite <- Z.pow_add_r by lia; f_equal; lia).
      rewrite E. apply Z.mul_le_mono_nonneg_r; [lia|]. rewrite <- (rne_exact (2 ^ (j - k)) (d * 2 ^ k)) by nia.
      apply rne_mono; nia.
    + assert (j < 53 + k).
      { apply (Z.pow_lt_mono_r_iff 2); [lia..|]. apply Z.le_lt_trans with (n / d); [|done].
        apply Z.div_le_lower_bound; lia. }
      destruct (Z.le_gt_cases k j) as [Hkj|Hkj].
      * assert (E : 2 ^ j = 2 ^ (j - k) * 2 ^ k) by (rewrite <- Z.pow_add_r by lia; f_equal; lia).
        rewrite E. apply Z.mul_le_mono_nonneg_r; [lia|]. rewrite <- (rne_exact (2 ^ (j - k)) (d * 2 ^ k)) at 1 by nia.
        apply rne_mono; nia.
      * assert (2 ^ j <= 2 ^ k) by (apply Z.pow_le_mono_r; lia).
        assert (1 <= rne n (d * 2 ^ k)); [|nia].
        rewrite <- (rne_exact 1 (d * 2 ^ k)) by nia. apply rne_mono; [nia|nia|].
        assert (2 ^ k <= n / d).
        { apply Z.le_trans with (2 ^ (52 + k)); [apply Z.pow_le_mono_r; lia|done]. }
        pose proof (Z.mul_div_le n d Hd). assert (d * 2 ^ k <= n) by nia. nia.
Qed.

Lemma rnd_mono n1 d1 n2 d2 :
  0 <= n1 -> 0 <= n2 -> 0 < d1 -> 0 < d2 -> n1 * d2 <= n2 * d1 -> rnd n1 d1 <= rnd n2 d2.
Proof.
  intros H1 H2 Hd1 Hd2 Hle. pose proof (quantum_pos n1 d1) as Hu.
  assert (Hq : n1 / d1 <= n2 / d2).
  { apply Z.div_le_lower_bound; [done|]. pose proof (Z.mul_div_le n1 d1 Hd1). nia. }
  assert (Hsame : quantum n1 d1 = quantum n2 d2 -> rnd n1 d1 <= rnd n2 d2).
  { intros E. unfold rnd. rewrite <- E. apply Z.mul_le_mono_nonneg_r; [lia|]. apply rne_mono; nia. }
  destruct (Z.eq_dec (quantum n1 d1) (quantum n2 d2)) as [E|Hne]; [auto|].
  destruct (quantum_cases n2 d2 H2 Hd2) as [[E2 Hlt]|(k2 & Hk2 & E2 & Hlo & Hhi)].
  { exfalso. apply Hne. rewrite E2. unfold quantum. rewrite Z.max_l; [done|].
    enough (Z.log2 (n1 / d1) <= Z.log2 (2 ^ 53 - 1)) by (change (Z.log2 (2 ^ 53 - 1)) with 52 in *; lia).
    apply Z.log2_le_mono. lia. }
  assert (Hb : exists j, 0 <= j /\ n1 / d1 < 2 ^ j /\ j <= 52 + k2).
  { destruct (quantum_cases n1 d1 H1 Hd1) as [[E1 Hlt]|(k1 & Hk1 & E1 & Hlo1 & Hhi1)].
    - exists 53. split_and!; [lia|done|]. rewrite E1, E2 in Hne. destruct (Z.eq_dec k2 0) as [->|]; [done|lia].
    - exists (53 + k1). split_and!; [lia|done|]. enough (k1 < k2) by lia.
      assert (k1 <> k2) by congruence. apply Z.nle_gt. intros Hk.
      enough (2 ^ (53 + k2) <= 2 ^ (52 + k1)) by lia. apply Z.pow_le_mono_r; lia. }
  destruct Hb as (j & Hj & Hlt & Hjk). apply Z.le_trans with (2 ^ j).
  - apply rnd_binade; [lia..|]. pose proof (Z.div_mod n1 d1 ltac:(lia)). pose proof (Z.mod_pos_bound n1 d1 Hd1). nia.
  - apply Z.le_trans with (2 ^ (52 + k2)); [apply Z.pow_le_mono_r; lia|]. apply rnd_binade; [lia..|].
    pose proof (Z.mul_div_le n2 d2 Hd2). nia.
Qed.

(** The rounding error is at most half a unit plus [2^-53] of the number. *)
Lemma rnd_error n d :
  0 <= n -> 0 < d -> 2 ^ 53 * Z.abs (rnd n d * d - n) <= n + 2 ^ 52 * d.
Proof.
  intros Hn Hd. unfold rnd. pose proof (quantum_pos n d) as Hu.
  pose proof (rne_error n (d * quantum n d) ltac:(nia)) as He.
  assert (Hb : 2 * Z.abs (rne n (d * quantum n d) * quantum n d * d - n) <= d * quantum n d) by nia.
  enough (2 ^ 52 * (d * quantum n d) <= n + 2 ^ 52 * d) by lia.
  destruct (quantum_cases n d Hn Hd) as [[-> _]|(k & Hk & -> & Hlo & _)]; [lia|].
  rewrite Z.pow_add_r in Hlo by lia. pose proof (Z.mul_div_le n d Hd). nia.
Qed.

Lemma rnd_nonneg n d : 0 <= n -> 0 < d -> 0 <= rnd n d.
Proof.
  intros Hn Hd. unfold rnd. pose proof (quantum_pos n d) as Hu. apply Z.mul_nonneg_nonneg; [|lia].
  pose proof (rne_bounds n (d * quantum n d) ltac:(nia)). pose proof (Z.div_pos n (d * quantum n d) Hn ltac:(nia)). lia.
Qed.

Lemma one_pos : 0 < one.
Proof. apply Z.pow_pos_nonneg; lia. Qed.

(** Whole numbers below [2^53] are floats. *)
Lemma rnd_whole z : 0 <= z < 2 ^ 53 -> rnd (z * one) 1 = z * one.
Proof.
  intros [Hz Hlt]. unfold rnd. pose proof (quantum_pos (z * one) 1) as Hu.
  assert (Hdvd : exists m, z * one = m * (1 * quantum (z * one) 1)).
  { pose proof one_pos. destruct (quantum_cases (z * one) 1) as [[-> _]|(k & Hk & -> & Hlo & _)]; [nia|lia|exists (z * one); lia|].
    rewrite Z.div_1_r in Hlo. assert (k < 1075).
    { apply Z.nle_gt. intros Hk'. assert (2 ^ 53 * one <= 2 ^ (52 + k)); [|nia].
      unfold one. rewrite <- Z.pow_add_r by lia. apply Z.pow_le_mono_r; lia. }
    exists (z * 2 ^ (1074 - k)). unfold one. rewrite Z.mul_1_l, <- Z.mul_assoc, <- Z.pow_add_r by lia. do 2 f_equal. lia. }
  destruct Hdvd as [m Hm]. rewrite Hm at 1. rewrite rne_exact by lia. lia.
Qed.

(** ** Arithmetic on finite numbers that are not negative *)

Lemma rnd_0 d : 0 < d -> rnd 0 d = 0.
Proof. intros Hd. unfold rnd. rewrite <- (Z.mul_0_l (d * quantum 0 d)) at 1. rewrite rne_exact; [lia|]. pose proof (quantum_pos 0 d). nia. Qed.

Lemma rnd_le_pow n d j : 0 <= n -> 0 < d -> 0 <= j -> n <= 2 ^ j * d -> rnd n d <= 2 ^ j.
Proof. intros ????. by apply rnd_binade. Qed.

Lemma one_pow k : 0 <= k -> 2 ^ k * one = 2 ^ (1074 + k).
Proof. intros Hk. unfold one. rewrite <- Z.pow_add_r by lia. f_equal. lia. Qed.

(** A number below [2^j] rounds to one below [2^j]. *)
Lemma rnd_le_one n d j : 0 <= n -> 0 < d -> 0 <= j -> n <= 2 ^ j * one * d -> rnd n d <= 2 ^ j * one.
Proof. intros Hn Hd Hj. rewrite one_pow by done. apply rnd_le_pow; lia. Qed.

Lemma fround_fin n d : 0 <= n -> 0 < d -> n <= 2 ^ 1023 * one * d -> fround n d = Fin (rnd n d).
Proof.
  intros Hn Hd Hle. unfold fround. rewrite Z.abs_eq by done. pose proof one_pos.
  pose proof (rnd_le_one n d 1023 Hn Hd ltac:(lia) Hle).
  assert (2 ^ 1024 * one = 2 * (2 ^ 1023 * one)) by (rewrite Z.mul_assoc; f_equal).
  assert (0 < 2 ^ 1023 * one) by (apply Z.mul_pos_pos; [apply Z.pow_pos_nonneg; lia|done]).
  rewrite (proj2 (Z.ltb_lt _ _)) by lia. destruct (Z.eq_dec n 0) as [->|]; [by rewrite rnd_0|].
  by rewrite Z.sgn_pos, Z.mul_1_l by lia.
Qed.

Lemma of_int_whole z : 0 <= z < 2 ^ 53 -> of_int z = Fin (z * one).
Proof.
  intros Hz. pose proof one_pos. unfold of_int. rewrite fround_fin; [by rewrite rnd_whole|nia|lia|].
  rewrite Z.mul_1_r. apply Z.mul_le_mono_nonneg_r; [lia|]. transitivity (2 ^ 53); [lia|]. apply Z.pow_le_mono_r; lia.
Qed.

(** One-sided forms of the error bound. *)
Lemma rnd_upper n d : 0 <= n -> 0 < d -> rnd n d * d * 2 ^ 53 <= n * (2 ^ 53 + 1) + 2 ^ 52 * d.
Proof. intros Hn Hd. pose proof (rnd_error n d Hn Hd). lia. Qed.

Lemma rnd_lower n d : 0 <= n -> 0 < d -> n * (2 ^ 53 - 1) <= rnd n d * d * 2 ^ 53 + 2 ^ 52 * d.
Proof. intros Hn Hd. pose proof (rnd_error n d Hn Hd). lia. Qed.

(** Away from the subnormal numbers the error is relative. *)
Lemma rnd_upper_rel n d : 0 < d -> 2 ^ 52 * d <= n -> rnd n d * d * 2 ^ 52 <= n * (2 ^ 52 + 1).
Proof. intros Hd Hle. pose proof (rnd_upper n d ltac:(lia) Hd). lia. Qed.

Lemma rnd_lower_rel n d : 0 < d -> 2 ^ 52 * d <= n -> n * (2 ^ 52 - 1) <= rnd n d * d * 2 ^ 52.
Proof. intros Hd Hle. pose proof (rnd_lower n d ltac:(lia) Hd). lia. Qed.

(** ** Durations *)

Definition ns : Z := 1000000000.

(** The fraction of a second, and the whole duration, in units. *)
Definition secs_frac (r : Z) : Z := rnd (r * one * one) (ns * one).
Definition secs (d : Z) : Z := rnd (d / ns * one + secs_frac (d mod ns)) 1.

Lemma one_large : 2 ^ 1000 < one.
Proof. apply Z.pow_lt_mono_r; lia. Qed.

Lemma secs_frac_bounds r : 0 <= r < ns -> 0 <= secs_frac r <= one.
Proof.
  intros Hr. pose proof one_pos. split; [apply rnd_nonneg; unfold ns in *; nia|].
  enough (secs_frac r <= 2 ^ 0 * one) by lia. apply rnd_le_one; unfold ns in *; nia.
Qed.

Lemma Seconds_secs d : 0 <= d <= 9223372036854775807 -> Seconds d = Fin (secs d) /\ 0 <= secs d <= 2 ^ 35 * one.
Proof.
  intros Hd. pose proof one_pos as Ho. unfold Seconds. change 1000000000 with ns.
  rewrite Z.quot_div_nonneg, Z.rem_mod_nonneg by (unfold ns; lia).
  pose proof (Z.mod_pos_bound d ns ltac:(done)) as Hr.
  assert (Hq : 0 <= d / ns < 2 ^ 34) by (split; [apply Z.div_pos|apply Z.div_lt_upper_bound]; unfold ns; lia).
  pose proof (secs_frac_bounds _ Hr) as Hf.
  rewrite !of_int_whole by (unfold ns in *; lia). cbn [fdiv].
  rewrite (proj2 (Z.eqb_neq _ _)) by (unfold ns; nia). rewrite Z.sgn_pos, Z.abs_eq, Z.mul_1_r by (unfold ns; nia).
  rewrite fround_fin; [|unfold ns in *; nia|unfold ns; nia|].
  2: { apply Z.le_trans with (1 * one * (ns * one)); [unfold ns in *; nia|].
       repeat (apply Z.mul_le_mono_nonneg_r; [unfold ns; nia|]). apply (Z.pow_le_mono_r 2 0 1023); lia. }
  fold (secs_frac (d mod ns)). cbn [fadd]. 
  assert (Hs : d / ns * one + secs_frac (d mod ns) <= 2 ^ 35 * one) by nia.
  rewrite fround_fin; [|nia|lia|].
  2: { rewrite Z.mul_1_r. etransitivity; [exact Hs|]. apply Z.mul_le_mono_nonneg_r; [lia|]. apply Z.pow_le_mono_r; lia. }
  split; [done|]. split; [apply rnd_nonneg; nia|]. apply rnd_le_one; lia.
Qed.

Lemma secs_mono d d' : 0 <= d <= d' -> secs d <= secs d'.
Proof.
  intros Hd. pose proof one_pos as Ho. assert (Hn : 0 < ns) by done.
  pose proof (Z.mod_pos_bound d ns Hn) as Hr. pose proof (Z.mod_pos_bound d' ns Hn) as Hr'.
  pose proof (secs_frac_bounds _ Hr). pose proof (secs_frac_bounds _ Hr').
  assert (0 <= d / ns) by (apply Z.div_pos; lia). assert (d / ns <= d' / ns) by (apply Z.div_le_mono; lia).
  assert (d / ns * one + secs_frac (d mod ns) <= d' / ns * one + secs_frac (d' mod ns)).
  { destruct (Z.eq_dec (d / ns) (d' / ns)) as [E|]; [|nia]. rewrite E. apply Zplus_le_compat_l.
    pose proof (Z.div_mod d ns ltac:(lia)). pose proof (Z.div_mod d' ns ltac:(lia)).
    assert (d mod ns <= d' mod ns) by nia. apply rnd_mono; try nia.
    by repeat (apply Z.mul_le_mono_nonneg_r; [nia|]). }
  apply rnd_mono; nia.
Qed.

Lemma secs_0 : secs 0 = 0.
Proof.
  unfold secs, secs_frac. change (0 / ns) with 0. change (0 mod ns) with 0. pose proof one_pos.
  rewrite !Z.mul_0_l, (rnd_0 (ns * one)), rnd_0; unfold ns; lia.
Qed.

(** Seconds are accurate to [3 * 2^-52]. *)
Lemma secs_frac_accurate r :
  0 <= r < ns ->
  secs_frac r * ns * 2 ^ 52 <= r * one * (2 ^ 52 + 1) /\ r * one * (2 ^ 52 - 1) <= secs_frac r * ns * 2 ^ 52.
Proof.
  intros Hr. pose proof one_pos as Ho. pose proof one_large as Hl. unfold secs_frac.
  destruct (Z.eq_dec r 0) as [->|]; [|].
  { assert (E : rnd (0 * one * one) (ns * one) = 0) by (rewrite !Z.mul_0_l; apply rnd_0; unfold ns; lia).
    rewrite E. lia. }
  assert (Hn : 2 ^ 52 * (ns * one) <= r * one * one).
  { transitivity (1 * one * one); [|nia]. rewrite Z.mul_assoc. apply Z.mul_le_mono_nonneg_r; [lia|].
    rewrite Z.mul_1_l. transitivity (2 ^ 1000); [|lia]. vm_compute. discriminate. }
  pose proof (rnd_upper_rel (r * one * one) (ns * one) ltac:(unfold ns; lia) Hn) as Hu.
  pose proof (rnd_lower_rel (r * one * one) (ns * one) ltac:(unfold ns; lia) Hn) as Hw.
  set (f := rnd (r * one * one) (ns * one)) in *. clearbody f.
  split; apply (Z.mul_le_mono_pos_r _ _ one); lia.
Qed.

Lemma secs_accurate d :
  0 <= d -> secs d * ns * 2 ^ 52 <= d * one * (2 ^ 52 + 3) /\ d * one * (2 ^ 52 - 3) <= secs d * ns * 2 ^ 52.
Proof.
  intros Hd. pose proof one_pos as Ho. pose proof one_large as Hl.
  destruct (Z.eq_dec d 0) as [->|]; [rewrite secs_0; lia|].
  pose proof (Z.mod_pos_bound d ns ltac:(done)) as Hr. pose proof (secs_frac_accurate _ Hr) as [Hu Hw].
  pose proof (secs_frac_bounds _ Hr) as Hf. pose proof (Z.div_mod d ns ltac:(done)) as Hdm.
  assert (0 <= d / ns) by (apply Z.div_pos; [lia|done]). unfold secs.
  set (f := secs_frac (d mod ns)) in *. set (x := d / ns * one + f) in *.
  assert (Hx : x * ns * 2 ^ 52 <= d * one * (2 ^ 52 + 1) /\ d * one * (2 ^ 52 - 1) <= x * ns * 2 ^ 52).
  { subst x. assert (E : d * one = d / ns * one * ns + d mod ns * one) by (rewrite Hdm at 1; ring).
    assert (0 <= d / ns * one) by (apply Z.mul_nonneg_nonneg; lia).
    assert (0 <= d / ns * one * ns) by (apply Z.mul_nonneg_nonneg; [lia|done]). rewrite E.
    rewrite Z.mul_add_distr_r. lia. }
  assert (Hx0 : 2 ^ 52 * 1 <= x).
  { destruct Hx as [_ Hx]. unfold ns in Hx. assert (2 ^ 1000 <= d * one) by nia.
    assert (2 ^ 200 < 2 ^ 1000) by (vm_compute; reflexivity). lia. }
  pose proof (rnd_upper_rel x 1 ltac:(lia) Hx0) as Hru. pose proof (rnd_lower_rel x 1 ltac:(lia) Hx0) as Hrl.
  set (s := rnd x 1) in *. clearbody s x f. unfold ns in *. lia.
Qed.
