(* ===== verification/Utf8.v ===== *)
(** * UTF-8 in Go strings (package unicode/utf8, [for range] over a string)

    Go strings are byte sequences; ranging over one decodes it rune by rune, and
    an invalid byte is a rune of its own, U+FFFD. [chunks] cuts a byte sequence
    the way [utf8.DecodeRune] does; re-encoding the runes, as
    [encoding/json] and [strings.Builder.WriteRune] do, replaces every invalid
    byte and changes nothing else. *)

From Stdlib Require Import ZArith Lia.
From Stdlib Require Import Strings.Byte.
From stdpp Require Import base list strings option.
From S2P Require Import Prelude.

Open Scope Z_scope.

Definition between (lo hi : Z) (b : byte) : bool := (lo <=? Z_of_byte b) && (Z_of_byte b <=? hi).

(** Continuation bytes, all but the first of them. *)
Definition cont : byte -> bool := between 128 191.

(** The length of the rune a byte sequence starts with, 0 if its first byte is
    invalid; the table of accepted second bytes is the one of package utf8. *)
Definition second_ok (b0 b1 : byte) : bool :=
  if Z_of_byte b0 =? 224 then between 160 191 b1
  else if Z_of_byte b0 =? 237 then between 128 159 b1
  else if Z_of_byte b0 =? 240 then between 144 191 b1
  else if Z_of_byte b0 =? 244 then between 128 143 b1
  else cont b1.

Definition rune_len (l : bytes) : nat :=
  match l with
  | [] => 0
  | b0 :: r =>
      if between 0 127 b0 then 1
      else if between 194 223 b0 then
        match r with b1 :: _ => if cont b1 then 2 else 0 | _ => 0 end
      else if between 224 239 b0 then
        match r with b1 :: b2 :: _ => if second_ok b0 b1 && cont b2 then 3 else 0 | _ => 0 end
      else if between 240 244 b0 then
        match r with
        | b1 :: b2 :: b3 :: _ => if second_ok b0 b1 && cont b2 && cont b3 then 4 else 0
        | _ => 0
        end
      else 0
  end%nat.

Inductive chunk :=
| Rune (enc : bytes)
| Invalid (b : byte).

Fixpoint chunks_fuel (n : nat) (l : bytes) : list chunk :=
  match n, l with
  | S n, b :: r =>
      match rune_len l with
      | O => Invalid b :: chunks_fuel n r
      | k => Rune (take k l) :: chunks_fuel n (drop k l)
      end
  | _, _ => []
  end.

(** A rune has at least one byte, so the length is fuel enough. *)
Definition chunks (l : bytes) : list chunk := chunks_fuel (length l) l.

(** U+FFFD, the replacement character. *)
Definition replacement : bytes := [Byte.xef; Byte.xbf; Byte.xbd].

Definition encode (c : chunk) : bytes := match c with Rune e => e | Invalid _ => replacement end.
Definition source (c : chunk) : bytes := match c with Rune e => e | Invalid b => [b] end.

Definition flat {A} (f : A -> bytes) (l : list A) : bytes := concat (f <$> l).

(** What is left of a string after its runes have been decoded and encoded. *)
Definition coerce (l : bytes) : bytes := flat encode (chunks l).

Definition valid (l : bytes) : bool := forallb (fun c => match c with Rune _ => true | Invalid _ => false end) (chunks l).

(** A byte sequence that is exactly one rune. *)
Definition is_rune (e : bytes) : Prop := e <> [] /\ rune_len e = length e.

(** ** Lemmas *)

Lemma rune_len_bound l : (rune_len l <= length l)%nat.
Proof. unfold rune_len. repeat case_match; subst; cbn; lia. Qed.

Lemma rune_len_app e r : rune_len e <> 0%nat -> rune_len (e ++ r) = rune_len e.
Proof.
  unfold rune_len. destruct e as [|b0 [|b1 [|b2 [|b3 e]]]]; cbn [app]; try done;
    repeat case_match; naive_solver.
Qed.

Lemma rune_len_take l : rune_len l <> 0%nat -> rune_len (take (rune_len l) l) = rune_len l.
Proof.
  destruct l as [|b0 r]; [done|]. unfold rune_len at 1 3 4.
  destruct (between 0 127 b0) eqn:E0; [intros _; cbn; by rewrite E0|].
  destruct (between 194 223 b0) eqn:E1; [|destruct (between 224 239 b0) eqn:E2];
    [..|destruct (between 240 244 b0) eqn:E3; [|done]]; destruct r as [|b1 [|b2 [|b3 r]]]; try done;
    case_match eqn:Ec; try done; intros _; unfold rune_len; cbn [take]; by rewrite ?E0, ?E1, ?E2, ?E3, Ec.
Qed.

Lemma flat_cons {A} (f : A -> bytes) x l : flat f (x :: l) = f x ++ flat f l.
Proof. done. Qed.

Lemma flat_app {A} (f : A -> bytes) l k : flat f (l ++ k) = flat f l ++ flat f k.
Proof. unfold flat. by rewrite fmap_app, concat_app. Qed.

Lemma chunks_fuel_enough n m l :
  (length l <= n)%nat -> (length l <= m)%nat -> chunks_fuel n l = chunks_fuel m l.
Proof.
  revert m l. induction n as [|n IH]; intros [|m] [|b r] Hn Hm; cbn in Hn, Hm; try done; try lia.
  cbn [chunks_fuel]. destruct (rune_len (b :: r)) as [|k] eqn:Hk; f_equal.
  - apply IH; lia.
  - apply IH; rewrite length_drop; cbn; lia.
Qed.

Lemma chunks_cons l :
  l <> [] ->
  chunks l = match rune_len l with
             | O => Invalid (default Byte.x00 (head l)) :: chunks (tail l)
             | k => Rune (take k l) :: chunks (drop k l)
             end.
Proof.
  intros Hl. destruct l as [|b r]; [done|]. unfold chunks. cbn [length chunks_fuel head tail default].
  destruct (rune_len (b :: r)) as [|k] eqn:Hk; [done|]. f_equal.
  pose proof (rune_len_bound (b :: r)) as Hb. rewrite Hk in Hb. cbn in Hb.
  apply chunks_fuel_enough; rewrite ?length_drop; cbn; lia.
Qed.

(** Induction along the chunks of a string. *)
Lemma chunks_ind (P : bytes -> Prop) :
  P [] ->
  (forall b r, rune_len (b :: r) = 0%nat -> chunks (b :: r) = Invalid b :: chunks r -> P r -> P (b :: r)) ->
  (forall e r, is_rune e -> chunks (e ++ r) = Rune e :: chunks r -> P r -> P (e ++ r)) ->
  forall l, P l.
Proof.
  intros H0 Hi Hr l. remember (length l) as n eqn:Hn. revert l Hn.
  induction n as [n IH] using lt_wf_ind. intros l ->.
  destruct l as [|b r]; [done|]. pose proof (chunks_cons (b :: r) ltac:(done)) as Hc.
  destruct (rune_len (b :: r)) as [|k] eqn:Hk.
  - apply Hi; [done|done|]. eapply IH; [|done]. cbn. lia.
  - pose proof (rune_len_bound (b :: r)) as Hb. rewrite Hk in Hb.
    pose proof (rune_len_take (b :: r)) as Ht. rewrite Hk in Ht. specialize (Ht ltac:(lia)).
    assert (length (take (S k) (b :: r)) = S k) as Hlen by (rewrite length_take; lia).
    rewrite <- (take_drop (S k) (b :: r)) at 1. rewrite <- (take_drop (S k) (b :: r)) in Hc at 1.
    apply Hr; [|done|].
    + split; [done|]. congruence.
    + eapply IH; [|done]. rewrite length_drop. cbn. lia.
Qed.

Lemma chunks_rune e r : is_rune e -> chunks (e ++ r) = Rune e :: chunks r.
Proof.
  intros [He Hl]. assert (rune_len e <> 0%nat) as Hne by (rewrite Hl; by destruct e).
  rewrite chunks_cons by (by destruct e). rewrite rune_len_app, Hl by done.
  destruct e as [|b e]; [done|]. cbn [length]. change (S (length e)) with (length (b :: e)).
  by rewrite take_app_length, drop_app_length.
Qed.

Lemma chunks_runes es r :
  Forall is_rune es -> chunks (concat es ++ r) = (Rune <$> es) ++ chunks r.
Proof.
  induction 1 as [|e es He _ IH]; [done|]. cbn [concat fmap list_fmap]. rewrite <- app_assoc.
  rewrite chunks_rune by done. by rewrite IH.
Qed.

Lemma source_chunks l : flat source (chunks l) = l.
Proof.
  induction l as [|b r Hk Hc IH|e r He Hc IH] using chunks_ind; [done| |];
    rewrite Hc, flat_cons, IH; done.
Qed.

Lemma chunks_are_runes l : Forall (fun c => is_rune (encode c)) (chunks l).
Proof.
  induction l as [|b r Hk Hc IH|e r He Hc IH] using chunks_ind; [constructor| |]; rewrite Hc;
    constructor; auto. by split.
Qed.

Lemma ascii_is_rune b : between 0 127 b = true -> is_rune [b].
Proof. intros Hb. split; [done|]. unfold rune_len. by rewrite Hb. Qed.

(** Coercion leaves valid strings alone, and its result is valid. *)
Lemma coerce_valid l : valid l = true -> coerce l = l.
Proof.
  intros Hv. rewrite <- (source_chunks l) at 2. unfold coerce, valid in *.
  induction (chunks l) as [|[e|b] cs IH]; [done| |done]. rewrite !flat_cons, IH; done.
Qed.

Lemma chunks_coerce l : chunks (coerce l) = (fun c => Rune (encode c)) <$> chunks l.
Proof.
  unfold coerce, flat. rewrite <- (app_nil_r (concat _)), chunks_runes.
  - by rewrite app_nil_r, <- list_fmap_compose.
  - apply Forall_fmap. apply chunks_are_runes.
Qed.

Lemma valid_coerce l : valid (coerce l) = true.
Proof. unfold valid. rewrite chunks_coerce. by induction (chunks l). Qed.

Lemma coerce_fixed l : coerce l = l <-> valid l = true.
Proof. split; [intros <-; apply valid_coerce|apply coerce_valid]. Qed.

Lemma chunks_valid_app l r : valid l = true -> chunks (l ++ r) = chunks l ++ chunks r.
Proof.
  induction l as [|b l Hk Hc IH|e l He Hc IH] using chunks_ind; intros Hv; [done| |].
  - unfold valid in Hv. rewrite Hc in Hv. done.
  - rewrite Hc. unfold valid in Hv. rewrite Hc in Hv. cbn [forallb andb] in Hv.
    rewrite <- app_assoc, chunks_rune by done. cbn [app]. f_equal. by apply IH.
Qed.

Lemma valid_ascii l : Forall (fun b => between 0 127 b = true) l -> valid l = true.
Proof.
  induction 1 as [|b l Hb _ IH]; [done|]. unfold valid.
  change (b :: l) with ([b] ++ l). by rewrite (chunks_rune [b] l (ascii_is_rune b Hb)).
Qed.

Example coerce_latin1 : coerce [Byte.x63; Byte.x61; Byte.x66; Byte.xe9] = [Byte.x63; Byte.x61; Byte.x66] ++ replacement.
Proof. vm_compute. reflexivity. Qed.
