(* ===== verification/GoText.v ===== *)
(** * Words and lines (packages strings and bufio)

    [strings.TrimSpace], [strings.Fields], [strings.Trim] for an ASCII cutset,
    comparing [strings.ToLower] with an ASCII word, and the lines of
    [bufio.Scanner]. Spaces are those of [unicode.IsSpace], so text is cut into
    runes first (Utf8.v); invalid bytes are never spaces. *)

From Stdlib Require Import ZArith Lia.
From Stdlib Require Import Strings.Byte.
From stdpp Require Import base list sets strings option.
From S2P Require Import Prelude Utf8.

Open Scope Z_scope.

(** U+0009 to U+000D, space, U+0085, U+00A0, U+1680, U+2000 to U+200A, U+2028,
    U+2029, U+202F, U+205F, U+3000. *)
Definition space_rune (e : bytes) : bool :=
  match e with
  | [b] => between 9 13 b || bool_decide (b = Byte.x20)
  | [b0; b1] => bool_decide (b0 = Byte.xc2) && (bool_decide (b1 = Byte.x85) || bool_decide (b1 = Byte.xa0))
  | [b0; b1; b2] =>
      bool_decide (e = [Byte.xe1; Byte.x9a; Byte.x80]) ||
      (bool_decide ([b0; b1] = [Byte.xe2; Byte.x80]) &&
         (between 128 138 b2 || bool_decide (b2 ∈ [Byte.xa8; Byte.xa9; Byte.xaf]))) ||
      bool_decide (e = [Byte.xe2; Byte.x81; Byte.x9f]) || bool_decide (e = [Byte.xe3; Byte.x80; Byte.x80])
  | _ => false
  end.

Definition is_space_chunk (c : chunk) : bool := match c with Rune e => space_rune e | Invalid _ => false end.

(** [strings.Fields] *)
Definition close_word (cur : bytes) (rest : list bytes) : list bytes :=
  match cur with [] => rest | _ => cur :: rest end.

Fixpoint fields_loop (cur : bytes) (cs : list chunk) : list bytes :=
  match cs with
  | [] => close_word cur []
  | c :: cs => if is_space_chunk c then close_word cur (fields_loop [] cs) else fields_loop (cur ++ source c) cs
  end.

Definition Fields (s : bytes) : list bytes := fields_loop [] (chunks s).

(** [strings.TrimSpace] *)
Fixpoint drop_spaces (cs : list chunk) : list chunk :=
  match cs with
  | [] => []
  | c :: cs' => if is_space_chunk c then drop_spaces cs' else cs
  end.

Definition TrimSpace (s : bytes) : bytes := flat source (rev (drop_spaces (rev (drop_spaces (chunks s))))).

(** [strings.Trim] with one ASCII byte. *)
Fixpoint trim_left (b : byte) (s : bytes) : bytes :=
  match s with
  | [] => []
  | x :: s' => if decide (x = b) then trim_left b s' else s
  end.

Definition Trim (b : byte) (s : bytes) : bytes := rev (trim_left b (rev (trim_left b s))).

(** [strings.ToLower], as far as it decides whether the result is a given ASCII
    text: besides the letters, U+0130 and U+212A become ASCII. *)
Definition lower_chunk (c : chunk) : bytes :=
  match c with
  | Rune [b] => [if between 65 90 b then byte_of_Z (Z_of_byte b + 32) else b]
  | Rune e =>
      if decide (e = [Byte.xc4; Byte.xb0]) then [Byte.x69]
      else if decide (e = [Byte.xe2; Byte.x84; Byte.xaa]) then [Byte.x6b] else e
  | Invalid _ => replacement
  end.

Definition ToLower (s : bytes) : bytes := flat lower_chunk (chunks s).

(** [bufio.Scanner] with [ScanLines]: a carriage return before the line feed is
    dropped, so is an empty last line; a line that does not fit the buffer of
    64 KiB together with its line feed ends the scan. *)
Definition MaxScanTokenSize : Z := 65536.

Definition drop_cr (line : bytes) : bytes :=
  match rev line with Byte.x0d :: r => rev r | _ => line end.

Fixpoint scan_lines (cur : bytes) (s : bytes) : list bytes :=
  if MaxScanTokenSize <=? zlen cur then []
  else
    match s with
    | [] => match cur with [] => [] | _ => [drop_cr cur] end
    | b :: s => if decide (b = Byte.x0a) then drop_cr cur :: scan_lines [] s else scan_lines (cur ++ [b]) s
    end.

Example fields_ex : Fields (bytes_of_string "  ban user  bob ") =
  [bytes_of_string "ban"; bytes_of_string "user"; bytes_of_string "bob"].
Proof. vm_compute. reflexivity. Qed.
Example fields_nbsp : Fields [Byte.x61; Byte.xc2; Byte.xa0; Byte.x62; Byte.xa0] = [[Byte.x61]; [Byte.x62; Byte.xa0]].
Proof. vm_compute. reflexivity. Qed.
Example kelvin : ToLower (bytes_of_string "REVO" ++ [Byte.xe2; Byte.x84; Byte.xaa] ++ bytes_of_string "E") = bytes_of_string "revoke".
Proof. vm_compute. reflexivity. Qed.

(** ** Lemmas *)

(** A rune of several bytes has no ASCII byte. *)
Lemma rune_bytes e b : is_rune e -> b ∈ e -> Z_of_byte b < 128 -> e = [b].
Proof.
  intros [He Hl] Hb Hlt. unfold rune_len in Hl. destruct e as [|b0 e]; [done|].
  assert (Hhi : forall lo hi x, between lo hi x = true -> 128 <= lo -> b <> x).
  { intros lo hi x Hx Hlo ->. unfold between in Hx. lia. }
  assert (Hco : forall x, cont x = true -> b <> x) by (intros x Hx; by apply (Hhi 128 191)).
  assert (Hse : forall x y, second_ok x y = true -> b <> y).
  { intros x y. unfold second_ok. repeat case_match; intros Hy; first [exact (Hco _ Hy)|exact (Hhi _ _ _ Hy ltac:(lia))]. }
  destruct (between 0 127 b0) eqn:E0.
  { destruct e; [|done]. by apply list_elem_of_singleton in Hb as ->. }
  destruct (between 194 223 b0) eqn:E1.
  { destruct e as [|b1 [|]]; try done; [|by case_match]. destruct (cont b1) eqn:C1; [|done].
    apply elem_of_cons in Hb as [->|Hb]; [by apply (Hhi _ _ _) in E1; [|lia]|]. apply list_elem_of_singleton in Hb. by apply Hco in C1. }
  destruct (between 224 239 b0) eqn:E2.
  { destruct e as [|b1 [|b2 [|]]]; try done; [|by case_match]. destruct (second_ok b0 b1 && cont b2) eqn:C; [|done].
    apply andb_true_iff in C as [C1%Hse C2%Hco]. apply (Hhi _ _ _) in E2; [|lia]. set_solver. }
  destruct (between 240 244 b0) eqn:E3; [|done].
  destruct e as [|b1 [|b2 [|b3 [|]]]]; try done; [|by case_match].
  destruct (second_ok b0 b1 && cont b2 && cont b3) eqn:C; [|done].
  apply andb_true_iff in C as [[C1%Hse C2%Hco]%andb_true_iff C3%Hco]. apply (Hhi _ _ _) in E3; [|lia]. set_solver.
Qed.

Lemma Invalid_high l b : Invalid b ∈ chunks l -> 128 <= Z_of_byte b.
Proof.
  induction l as [|b0 r Hk Hc IH|e r He Hc IH] using chunks_ind; [by intros ?%not_elem_of_nil| |]; rewrite Hc, elem_of_cons.
  - intros [[= ->]|?]; [|auto]. unfold rune_len in Hk. destruct (between 0 127 b0) eqn:E; [done|].
    unfold between in E. pose proof (Z_of_byte_range b0). lia.
  - intros [[=]|?]. auto.
Qed.

(** Where an ASCII byte of a text comes from. *)
Lemma ascii_chunk l c b : c ∈ chunks l -> b ∈ source c -> Z_of_byte b < 128 -> c = Rune [b].
Proof.
  intros Hc Hb Hlt. destruct c as [e|x]; cbn in Hb.
  - f_equal. apply rune_bytes; [|done|done]. pose proof (chunks_are_runes l) as Hr. rewrite Forall_forall in Hr.
    apply list_elem_of_In in Hc. exact (Hr _ Hc).
  - apply list_elem_of_singleton in Hb as ->. apply Invalid_high in Hc. lia.
Qed.

Lemma elem_of_flat {A} (f : A -> bytes) b cs : b ∈ flat f cs <-> exists c, c ∈ cs /\ b ∈ f c.
Proof.
  induction cs as [|c cs IH]; [split; [by intros ?%not_elem_of_nil|by intros (? & ?%not_elem_of_nil & _)]|].
  rewrite flat_cons, elem_of_app, IH. set_solver.
Qed.

(** Words are not empty and made of runes that are no spaces. *)
Lemma fields_loop_words l cs cur w :
  (forall c, c ∈ cs -> c ∈ chunks l) -> (forall b, b ∈ cur -> exists c, c ∈ chunks l /\ b ∈ source c /\ is_space_chunk c = false) ->
  w ∈ fields_loop cur cs ->
  w <> [] /\ forall b, b ∈ w -> exists c, c ∈ chunks l /\ b ∈ source c /\ is_space_chunk c = false.
Proof.
  revert cur. induction cs as [|c cs IH]; intros cur Hcs Hcur; cbn [fields_loop].
  - destruct cur; cbn; [by intros ?%not_elem_of_nil|]. by intros ->%list_elem_of_singleton.
  - destruct (is_space_chunk c) eqn:E.
    + assert (Hrest : w ∈ fields_loop [] cs -> w <> [] /\ forall b, b ∈ w -> exists c, c ∈ chunks l /\ b ∈ source c /\ is_space_chunk c = false).
      { apply IH; [set_solver|]. by intros b ?%not_elem_of_nil. }
      destruct cur as [|x cur]; cbn [close_word]; [exact Hrest|].
      intros [->|?]%elem_of_cons; [|auto]. split; [done|exact Hcur].
    + apply IH; [set_solver|]. intros b [Hb|Hb]%elem_of_app; [auto|]. exists c. set_solver.
Qed.

Lemma Fields_words s w : w ∈ Fields s -> w <> [] /\ Byte.x20 ∉ w.
Proof.
  intros Hw. destruct (fields_loop_words s (chunks s) [] w) as [Hne Hin]; [done| |done|].
  { by intros b ?%not_elem_of_nil. }
  split; [done|]. intros Hb. destruct (Hin _ Hb) as (c & Hc & Hbc & Hs).
  apply (ascii_chunk s) in Hbc; [|done|done]. by subst c.
Qed.

(** Lower case makes no spaces. *)
Lemma ToLower_space s : Byte.x20 ∈ ToLower s -> Byte.x20 ∈ s.
Proof.
  intros (c & Hc & Hb)%elem_of_flat. rewrite <- (source_chunks s). apply elem_of_flat. exists c. split; [done|].
  destruct c as [[|b [|b' e]]|b]; cbn in Hb.
  - by apply not_elem_of_nil in Hb.
  - apply list_elem_of_singleton in Hb. destruct (between 65 90 b) eqn:E; [|subst; cbn; set_solver].
    exfalso. apply (f_equal Z_of_byte) in Hb. unfold between in E. rewrite Z_of_byte_of_Z in Hb.
    change (Z_of_byte Byte.x20) with 32 in Hb. rewrite Z.mod_small in Hb; lia.
  - repeat case_decide; cbn; [set_solver..|done].
  - set_solver.
Qed.
