(* ===== verification/Json.v ===== *)
(** * JSON text (package encoding/json, as the codec and the token store use it)

    [print] is [json.Marshal] of a value, with the HTML escaping of the default
    encoder; [parse] is the syntax of [json.Unmarshal]. Strings are byte
    sequences: printing writes every invalid byte as the replacement character,
    and so does parsing. Number tokens are kept as text, since the type they are
    read into decides what they mean.

    [parse_print]: parsing a printed value gives it back with every string
    coerced to valid UTF-8. *)

From Stdlib Require Import ZArith Lia.
From Stdlib Require Import Strings.Byte.
From stdpp Require Import base list strings option pretty.
From S2P Require Import Prelude GoFmt Utf8.

Open Scope Z_scope.

Inductive json :=
| JNull
| JBool (b : bool)
| JNum (token : bytes)
| JStr (s : bytes)
| JArr (elems : list json)
| JObj (members : list (bytes * json)).

(** ** Printing *)

Definition lit (s : string) : bytes := bytes_of_string s.

Definition hex4 (hi lo : byte) : bytes := lit "\u" ++ bytes_of_string (hex2 hi +:+ hex2 lo).

Definition escape_byte (b : byte) : bytes :=
  match b with
  | Byte.x22 => [Byte.x5c; Byte.x22]
  | Byte.x5c => [Byte.x5c; Byte.x5c]
  | Byte.x08 => lit "\b"
  | Byte.x0c => lit "\f"
  | Byte.x0a => lit "\n"
  | Byte.x0d => lit "\r"
  | Byte.x09 => lit "\t"
  | _ => if (Z_of_byte b <? 32) || bool_decide (b ∈ [Byte.x3c; Byte.x3e; Byte.x26])
         then hex4 Byte.x00 b else [b]
  end.

Definition escape_chunk (c : chunk) : bytes :=
  match c with
  | Invalid _ => hex4 Byte.xff Byte.xfd
  | Rune [b] => escape_byte b
  | Rune e =>
      if decide (e = [Byte.xe2; Byte.x80; Byte.xa8]) then hex4 Byte.x20 Byte.x28
      else if decide (e = [Byte.xe2; Byte.x80; Byte.xa9]) then hex4 Byte.x20 Byte.x29
      else e
  end.

Definition quote (s : bytes) : bytes := [Byte.x22] ++ flat escape_chunk (chunks s) ++ [Byte.x22].

Fixpoint join (sep : bytes) (l : list bytes) : bytes :=
  match l with
  | [] => []
  | [x] => x
  | x :: l => x ++ sep ++ join sep l
  end.

Fixpoint print (j : json) : bytes :=
  match j with
  | JNull => lit "null"
  | JBool b => lit (if b then "true" else "false")
  | JNum t => t
  | JStr s => quote s
  | JArr l => lit "[" ++ join (lit ",") (map print l) ++ lit "]"
  | JObj l => lit "{" ++ join (lit ",") (map (fun kv => quote kv.1 ++ lit ":" ++ print kv.2) l) ++ lit "}"
  end.

(** ** Parsing *)

Definition is_space (b : byte) : bool := bool_decide (b ∈ [Byte.x20; Byte.x09; Byte.x0a; Byte.x0d]).

Fixpoint skip_ws (l : bytes) : bytes :=
  match l with b :: r => if is_space b then skip_ws r else l | [] => [] end.

(** [eat b l]: the rest of [l] after a first byte [b]. *)
Definition eat (b : byte) (l : bytes) : option bytes :=
  match l with x :: r => if decide (x = b) then Some r else None | [] => None end.

Definition hex_value (b : byte) : option Z :=
  let z := Z_of_byte b in
  if (48 <=? z) && (z <=? 57) then Some (z - 48)
  else if (97 <=? z) && (z <=? 102) then Some (z - 87)
  else if (65 <=? z) && (z <=? 70) then Some (z - 55)
  else None.

Definition read_hex4 (l : bytes) : option (Z * bytes) :=
  match l with
  | a :: b :: c :: d :: r =>
      a ← hex_value a; b ← hex_value b; c ← hex_value c; d ← hex_value d;
      Some (((a * 16 + b) * 16 + c) * 16 + d, r)
  | _ => None
  end.

(** [utf8.EncodeRune]: surrogates are not runes. *)
Definition encode_rune (z : Z) : bytes :=
  if z <? 128 then [byte_of_Z z]
  else if z <? 2048 then [byte_of_Z (192 + z / 64); byte_of_Z (128 + z mod 64)]
  else if (55296 <=? z) && (z <=? 57343) then replacement
  else if z <? 65536 then
    [byte_of_Z (224 + z / 4096); byte_of_Z (128 + z / 64 mod 64); byte_of_Z (128 + z mod 64)]
  else
    [byte_of_Z (240 + z / 262144); byte_of_Z (128 + z / 4096 mod 64);
     byte_of_Z (128 + z / 64 mod 64); byte_of_Z (128 + z mod 64)].

Definition simple_escape (b : byte) : option byte :=
  match b with
  | Byte.x22 => Some Byte.x22 | Byte.x5c => Some Byte.x5c | Byte.x2f => Some Byte.x2f
  | Byte.x62 => Some Byte.x08 | Byte.x66 => Some Byte.x0c | Byte.x6e => Some Byte.x0a
  | Byte.x72 => Some Byte.x0d | Byte.x74 => Some Byte.x09
  | _ => None
  end.

(** The second half of a surrogate pair, when one follows. *)
Definition low_surrogate (l : bytes) : option (Z * bytes) :=
  match eat Byte.x5c l ≫= eat Byte.x75 with
  | Some r =>
      match read_hex4 r with
      | Some (z, r) => if (56320 <=? z) && (z <=? 57343) then Some (z, r) else None
      | None => None
      end
  | None => None
  end.

(** What a [\u] escape denotes, and what follows it. *)
Definition unicode_escape (r : bytes) : option (bytes * bytes) :=
  match read_hex4 r with
  | None => None
  | Some (z, r) =>
      if (55296 <=? z) && (z <=? 56319) then
        match low_surrogate r with
        | Some (lo, r') => Some (encode_rune ((z - 55296) * 1024 + (lo - 56320) + 65536), r')
        | None => Some (replacement, r)
        end
      else Some (encode_rune z, r)
  end.

Section Parse.

(** One character of a string: what it denotes, and the rest. *)
Definition parse_char (l : bytes) : option (bytes * bytes) :=
  match l with
  | [] => None
  | b :: r =>
      if decide (b = Byte.x5c) then
        match r with
        | [] => None
        | e :: r' =>
            if decide (e = Byte.x75) then unicode_escape r'
            else match simple_escape e with Some x => Some ([x], r') | None => None end
        end
      else if Z_of_byte b <? 32 then None
      else match rune_len l with
           | O => Some (replacement, r)
           | k => Some (take k l, drop k l)
           end
  end.

(** The body of a string, after the opening quote. *)
Fixpoint parse_string (n : nat) (l : bytes) : outcome (option (bytes * bytes)) :=
  match n with
  | O => OutOfFuel
  | S n =>
      match l with
      | [] => Ret None
      | b :: r =>
          if decide (b = Byte.x22) then Ret (Some ([], r))
          else
            match parse_char l with
            | None => Ret None
            | Some (x, r) =>
                o ← parse_string n r;
                Ret (match o with Some (s, r) => Some (x ++ s, r) | None => None end)
            end
      end
  end.

Definition is_digit (b : byte) : bool := between 48 57 b.

Fixpoint span_digits (l : bytes) : bytes * bytes :=
  match l with
  | b :: r => if is_digit b then let s := span_digits r in (b :: s.1, s.2) else ([], l)
  | [] => ([], [])
  end.

(** The optional parts of a number: fraction and exponent need a digit. *)
Definition number_frac (l : bytes) : option (bytes * bytes) :=
  match eat Byte.x2e l with
  | Some r => let s := span_digits r in
              if decide (s.1 = []) then None else Some (Byte.x2e :: s.1, s.2)
  | None => Some ([], l)
  end.

Definition number_exp (l : bytes) : option (bytes * bytes) :=
  match l with
  | b :: r =>
      if bool_decide (b ∈ [Byte.x65; Byte.x45]) then
        let sr := match r with
                  | s :: r' => if bool_decide (s ∈ [Byte.x2b; Byte.x2d]) then ([s], r') else ([], r)
                  | [] => ([], [])
                  end in
        let s := span_digits sr.2 in
        if decide (s.1 = []) then None else Some (b :: sr.1 ++ s.1, s.2)
      else Some ([], l)
  | [] => Some ([], [])
  end.

Definition number_int (l : bytes) : option (bytes * bytes) :=
  match eat Byte.x30 l with
  | Some r => Some ([Byte.x30], r)
  | None => let s := span_digits l in if decide (s.1 = []) then None else Some s
  end.

Definition scan_number (l : bytes) : option (bytes * bytes) :=
  let sr := match eat Byte.x2d l with Some r => ([Byte.x2d], r) | None => ([], l) end in
  '(i, r) ← number_int sr.2;
  '(f, r) ← number_frac r;
  '(e, r) ← number_exp r;
  Some (sr.1 ++ i ++ f ++ e, r).

Definition literal (word : string) (v : json) (l : bytes) : option (json * bytes) :=
  if decide (take (length (lit word)) l = lit word) then Some (v, drop (length (lit word)) l) else None.

Definition then_ {A B} (o : outcome (option (A * bytes))) (f : A -> bytes -> outcome (option B)) :
    outcome (option B) :=
  x ← o; match x with None => Ret None | Some (a, r) => f a r end.

Fixpoint parse_value (n : nat) (l : bytes) : outcome (option (json * bytes)) :=
  match n with
  | O => OutOfFuel
  | S n =>
      match skip_ws l with
      | [] => Ret None
      | b :: r =>
          if decide (b = Byte.x22) then then_ (parse_string n r) (fun s r => Ret (Some (JStr s, r)))
          else if decide (b = Byte.x7b) then
            match eat Byte.x7d (skip_ws r) with
            | Some r => Ret (Some (JObj [], r))
            | None => then_ (parse_members n r) (fun l r => Ret (Some (JObj l, r)))
            end
          else if decide (b = Byte.x5b) then
            match eat Byte.x5d (skip_ws r) with
            | Some r => Ret (Some (JArr [], r))
            | None => then_ (parse_elems n r) (fun l r => Ret (Some (JArr l, r)))
            end
          else if decide (b = Byte.x74) then Ret (literal "true" (JBool true) (b :: r))
          else if decide (b = Byte.x66) then Ret (literal "false" (JBool false) (b :: r))
          else if decide (b = Byte.x6e) then Ret (literal "null" JNull (b :: r))
          else Ret ('(t, r) ← scan_number (b :: r); Some (JNum t, r))
      end
  end
with parse_elems (n : nat) (l : bytes) : outcome (option (list json * bytes)) :=
  match n with
  | O => OutOfFuel
  | S n =>
      then_ (parse_value n l) (fun v r =>
        let r := skip_ws r in
        match eat Byte.x5d r with
        | Some r => Ret (Some ([v], r))
        | None =>
            match eat Byte.x2c r with
            | Some r => then_ (parse_elems n r) (fun l r => Ret (Some (v :: l, r)))
            | None => Ret None
            end
        end)
  end
with parse_members (n : nat) (l : bytes) : outcome (option (list (bytes * json) * bytes)) :=
  match n with
  | O => OutOfFuel
  | S n =>
      match eat Byte.x22 (skip_ws l) with
      | None => Ret None
      | Some r =>
          then_ (parse_string n r) (fun k r =>
            match eat Byte.x3a (skip_ws r) with
            | None => Ret None
            | Some r =>
                then_ (parse_value n r) (fun v r =>
                  let r := skip_ws r in
                  match eat Byte.x7d r with
                  | Some r => Ret (Some ([(k, v)], r))
                  | None =>
                      match eat Byte.x2c r with
                      | Some r => then_ (parse_members n r) (fun l r => Ret (Some ((k, v) :: l, r)))
                      | None => Ret None
                      end
                  end)
            end)
      end
  end.

(** A whole text: one value, then only white space. *)
Definition parse (l : bytes) : outcome (option json) :=
  then_ (parse_value (2 + 2 * length l) l) (fun v r =>
    Ret (match skip_ws r with [] => Some v | _ => None end)).
End Parse.

Example parse_print_ex :
  parse (print (JObj [(lit "a", JArr [JNum (lit "-12.5e3"); JNull; JStr [Byte.x22; Byte.xe9]])])) =
  Ret (Some (JObj [(lit "a", JArr [JNum (lit "-12.5e3"); JNull; JStr (Byte.x22 :: replacement)])])).
Proof. vm_compute. reflexivity. Qed.

(** ** Parsing always returns *)

Definition shorter {A} (l : bytes) (o : outcome (option (A * bytes))) : Prop :=
  exists x, o = Ret x /\ match x with Some (_, r) => (length r < length l)%nat | None => True end.

Lemma shorter_then {A B} l (o : outcome (option (A * bytes))) (f : A -> bytes -> outcome (option (B * bytes))) l0 :
  shorter l o -> (forall a r, (length r < length l)%nat -> shorter l0 (f a r)) -> shorter l0 (then_ o f).
Proof. intros (x & -> & Hx) Hf. destruct x as [[a r]|]; cbn; [by apply Hf|by exists None]. Qed.

Lemma shorter_none {A} l : shorter (A := A) l (Ret None).
Proof. by exists None. Qed.

Lemma shorter_some {A} l (a : A) r : (length r < length l)%nat -> shorter l (Ret (Some (a, r))).
Proof. intros H. by exists (Some (a, r)). Qed.

Lemma skip_ws_length l : (length (skip_ws l) <= length l)%nat.
Proof. induction l as [|b l IH]; cbn; [lia|]. case_match; cbn; lia. Qed.

Lemma eat_cons b l r : eat b l = Some r -> l = b :: r.
Proof. destruct l as [|x l]; [done|]. cbn. case_decide; [|done]. by intros [= <-]; subst. Qed.

Lemma eat_eq b r : eat b (b :: r) = Some r.
Proof. cbn. by rewrite decide_True. Qed.

Lemma eat_ne b x r : x <> b -> eat b (x :: r) = None.
Proof. intros. cbn. by rewrite decide_False. Qed.

Lemma read_hex4_length l z r : read_hex4 l = Some (z, r) -> (length r < length l)%nat.
Proof.
  destruct l as [|a [|b [|c [|d l]]]]; try done. unfold read_hex4.
  destruct (hex_value a), (hex_value b), (hex_value c), (hex_value d); try done.
  intros H. injection H as _ <-. cbn. lia.
Qed.

Lemma unicode_escape_length l s r : unicode_escape l = Some (s, r) -> (length r < length l)%nat.
Proof.
  unfold unicode_escape. destruct (read_hex4 l) as [[z r0]|] eqn:Hh; [|done].
  pose proof (read_hex4_length _ _ _ Hh). case_match; [|by intros [= _ <-]].
  destruct (low_surrogate r0) as [[lo r']|] eqn:Hl; [|by intros [= _ <-]]. intros [= _ <-].
  unfold low_surrogate in Hl. destruct (eat Byte.x5c r0 ≫= eat Byte.x75) as [r1|] eqn:He; [|done].
  apply bind_Some in He as (r2 & He1%eat_cons & He2%eat_cons). subst.
  destruct (read_hex4 r1) as [[z' r2]|] eqn:Hh'; [|done]. pose proof (read_hex4_length _ _ _ Hh').
  case_match; [|done]. injection Hl as _ <-. cbn in *. lia.
Qed.

Lemma parse_char_length l s r : parse_char l = Some (s, r) -> (length r < length l)%nat.
Proof.
  unfold parse_char. destruct l as [|b l]; [done|]. case_decide.
  - destruct l as [|e l]; [done|]. case_decide.
    + intros H'. apply unicode_escape_length in H'. cbn. lia.
    + destruct (simple_escape e); [|done]. intros [= _ <-]. cbn. lia.
  - case_match; [done|]. case_match; intros [= _ <-]; [cbn; lia|]. rewrite length_drop. cbn. lia.
Qed.

Lemma parse_string_returns n l : (length l < n)%nat -> shorter l (parse_string n l).
Proof.
  revert l. induction n as [|n IH]; intros l Hn; [lia|]. cbn [parse_string].
  destruct l as [|b l]; [apply shorter_none|]. case_decide; [apply shorter_some; cbn; lia|].
  destruct (parse_char (b :: l)) as [[x r]|] eqn:Hc; [|apply shorter_none].
  apply parse_char_length in Hc. destruct (IH r) as (o & -> & Ho); [lia|]. cbn [mbind outcome_bind].
  destruct o as [[s r']|]; [apply shorter_some; lia|apply shorter_none].
Qed.

Lemma literal_shorter w v l : lit w <> [] -> shorter l (Ret (literal w v l)).
Proof.
  intros Hw. unfold literal. case_decide as Ht; [|apply shorter_none]. apply shorter_some.
  rewrite length_drop. destruct (lit w) as [|b w']; [done|]. destruct l; [done|]. cbn. lia.
Qed.

Lemma span_digits_app l : (span_digits l).1 ++ (span_digits l).2 = l.
Proof. induction l as [|b l IH]; cbn; [done|]. case_match; cbn; [by rewrite IH|done]. Qed.

Lemma number_frac_app l t r : number_frac l = Some (t, r) -> t ++ r = l.
Proof.
  unfold number_frac. destruct (eat Byte.x2e l) as [r'|] eqn:He; [|by intros [= <- <-]].
  apply eat_cons in He as ->. case_decide; [done|]. intros [= <- <-]. cbn. by rewrite span_digits_app.
Qed.

Lemma number_exp_app l t r : number_exp l = Some (t, r) -> t ++ r = l.
Proof.
  unfold number_exp. destruct l as [|b l]; [by intros [= <- <-]|].
  destruct (bool_decide (b ∈ [Byte.x65; Byte.x45])); [|by intros [= <- <-]].
  set (sr := match l with [] => _ | _ => _ end). assert (sr.1 ++ sr.2 = l) as Hsr.
  { unfold sr. destruct l as [|s l']; [done|]. by destruct (bool_decide _). }
  clearbody sr. cbv zeta. destruct (decide ((span_digits sr.2).1 = [])); [done|]. intros [= <- <-].
  cbn. by rewrite <- app_assoc, span_digits_app, Hsr.
Qed.

Lemma number_int_app l t r : number_int l = Some (t, r) -> t ++ r = l /\ t <> [].
Proof.
  unfold number_int. destruct (eat Byte.x30 l) as [r'|] eqn:He.
  - apply eat_cons in He as ->. by intros [= <- <-].
  - destruct (decide ((span_digits l).1 = [])) as [|Hne]; [done|]. intros H'.
    pose proof (span_digits_app l) as Happ. injection H' as H'. rewrite H' in *. done.
Qed.

Lemma scan_number_app l t r : scan_number l = Some (t, r) -> t ++ r = l /\ t <> [].
Proof.
  unfold scan_number. set (sr := match eat Byte.x2d l with Some r => ([Byte.x2d], r) | None => ([], l) end).
  assert (sr.1 ++ sr.2 = l) as Hsr.
  { unfold sr. destruct (eat Byte.x2d l) as [r'|] eqn:He; [by apply eat_cons in He as ->|done]. }
  clearbody sr. destruct (number_int sr.2) as [[i r1]|] eqn:Hi; [|done]. cbn.
  destruct (number_frac r1) as [[f r2]|] eqn:Hf; [|done]. cbn.
  destruct (number_exp r2) as [[e r3]|] eqn:He; [|done]. cbn. intros [= <- <-].
  apply number_int_app in Hi as [Hi Hne]. apply number_frac_app in Hf. apply number_exp_app in He.
  split; [|destruct sr.1; [by destruct i|done]]. rewrite <- !app_assoc. by rewrite He, Hf, Hi.
Qed.

Lemma scan_number_shorter l : shorter l (Ret ('(t, r) ← scan_number l; Some (JNum t, r))).
Proof.
  destruct (scan_number l) as [[t r]|] eqn:Hs; cbn; [|apply shorter_none].
  apply scan_number_app in Hs as [<- Hne]. apply shorter_some. rewrite length_app. destruct t; [done|]. cbn. lia.
Qed.

Lemma eat_length b l r : eat b l = Some r -> length l = S (length r).
Proof. by intros ->%eat_cons. Qed.

(** All three parsers, by induction on the fuel. *)
Lemma parsers_return n :
  (forall l, (2 * length l < n)%nat -> shorter l (parse_value n l)) /\
  (forall l, (2 * length l + 1 < n)%nat -> shorter l (parse_elems n l)) /\
  (forall l, (2 * length l + 1 < n)%nat -> shorter l (parse_members n l)).
Proof.
  induction n as [|n (IHv & IHe & IHm)]; [split_and!; intros; lia|]. split_and!; intros l Hn.
  - cbn [parse_value]. pose proof (skip_ws_length l) as Hw. destruct (skip_ws l) as [|b r]; [apply shorter_none|].
    cbn [length] in Hw. pose proof (skip_ws_length r) as Hw'.
    case_decide; [|case_decide; [|case_decide; [|repeat case_decide]]].
    + eapply shorter_then; [apply parse_string_returns; lia|]. intros s r' Hr. apply shorter_some. lia.
    + destruct (eat Byte.x7d (skip_ws r)) as [r'|] eqn:He.
      * apply eat_length in He. apply shorter_some. lia.
      * eapply shorter_then; [apply IHm; lia|]. intros ms r' Hr. apply shorter_some. lia.
    + destruct (eat Byte.x5d (skip_ws r)) as [r'|] eqn:He.
      * apply eat_length in He. apply shorter_some. lia.
      * eapply shorter_then; [apply IHe; lia|]. intros ms r' Hr. apply shorter_some. lia.
    + destruct (literal_shorter "true" (JBool true) (b :: r)) as (x & -> & Hx); [done|].
      exists x. split; [done|]. destruct x as [[? ?]|]; cbn in *; [lia|done].
    + destruct (literal_shorter "false" (JBool false) (b :: r)) as (x & -> & Hx); [done|].
      exists x. split; [done|]. destruct x as [[? ?]|]; cbn in *; [lia|done].
    + destruct (literal_shorter "null" JNull (b :: r)) as (x & -> & Hx); [done|].
      exists x. split; [done|]. destruct x as [[? ?]|]; cbn in *; [lia|done].
    + destruct (scan_number_shorter (b :: r)) as (x & -> & Hx).
      exists x. split; [done|]. destruct x as [[? ?]|]; cbn in *; [lia|done].
  - cbn [parse_elems]. eapply shorter_then; [apply IHv; lia|]. intros v r Hr. cbv zeta.
    pose proof (skip_ws_length r). destruct (eat Byte.x5d (skip_ws r)) as [r'|] eqn:He.
    + apply eat_length in He. apply shorter_some. lia.
    + destruct (eat Byte.x2c (skip_ws r)) as [r'|] eqn:He'; [|apply shorter_none]. apply eat_length in He'.
      eapply shorter_then; [apply IHe; lia|]. intros vs r'' Hr'. apply shorter_some. lia.
  - cbn [parse_members]. pose proof (skip_ws_length l).
    destruct (eat Byte.x22 (skip_ws l)) as [r|] eqn:Hq; [|apply shorter_none]. apply eat_length in Hq.
    eapply shorter_then; [apply parse_string_returns; lia|]. intros k r1 Hr1.
    pose proof (skip_ws_length r1). destruct (eat Byte.x3a (skip_ws r1)) as [r2|] eqn:Hc; [|apply shorter_none].
    apply eat_length in Hc. eapply shorter_then; [apply IHv; lia|]. intros v r3 Hr3. cbv zeta.
    pose proof (skip_ws_length r3). destruct (eat Byte.x7d (skip_ws r3)) as [r4|] eqn:He.
    + apply eat_length in He. apply shorter_some. lia.
    + destruct (eat Byte.x2c (skip_ws r3)) as [r4|] eqn:He'; [|apply shorter_none]. apply eat_length in He'.
      eapply shorter_then; [apply IHm; lia|]. intros vs r5 Hr5. apply shorter_some. lia.
Qed.

(** Every text is either parsed or refused: the fuel suffices. *)
Lemma parse_returns l : returns (parse l).
Proof.
  unfold parse. destruct (proj1 (parsers_return (2 + 2 * length l)) l ltac:(lia)) as (x & -> & _).
  destruct x as [[v r]|]; by eexists.
Qed.

(** ** Parsing what was printed *)

Lemma parse_char_ascii b r :
  between 0 127 b = true ->
  parse_char (escape_byte b ++ r) = Some ([b], r) /\
  match escape_byte b with x :: _ => x <> Byte.x22 | [] => False end.
Proof. by destruct b; try discriminate; intros _; (split; [reflexivity|cbn]). Qed.

Lemma rune_head_high b0 b1 e : is_rune (b0 :: b1 :: e) -> 194 <= Z_of_byte b0.
Proof.
  intros [_ Hl]. cbn in Hl. unfold between in Hl.
  repeat (case_match; try lia); rewrite ?andb_true_iff, ?Z.leb_le in *; lia.
Qed.

Lemma parse_char_rune e r :
  is_rune e -> 32 <= Z_of_byte (default Byte.x00 (head e)) -> head e <> Some Byte.x5c ->
  parse_char (e ++ r) = Some (e, r).
Proof.
  intros [Hne Hl] H32 Hb. destruct e as [|b e]; [done|]. cbn in H32, Hb. unfold parse_char. cbn [app].
  rewrite decide_False by congruence. rewrite (proj2 (Z.ltb_ge _ _)) by done.
  change (b :: e ++ r) with ((b :: e) ++ r). rewrite rune_len_app by (by rewrite Hl). rewrite Hl.
  cbn [length]. change (S (length e)) with (length (b :: e)). by rewrite take_app_length, drop_app_length.
Qed.

Lemma parse_char_escape c r :
  match c with Rune e => is_rune e | Invalid _ => True end ->
  parse_char (escape_chunk c ++ r) = Some (encode c, r) /\
  match escape_chunk c with x :: _ => x <> Byte.x22 | [] => False end.
Proof.
  destruct c as [e|b]; [|done]. intros He. destruct e as [|b0 [|b1 e]]; [by destruct He| |].
  - apply parse_char_ascii. destruct He as [_ Hl]. cbn in Hl. by destruct (between 0 127 b0); repeat case_match.
  - pose proof (rune_head_high _ _ _ He) as Hhi. cbn [escape_chunk encode].
    case_decide as H1; [by rewrite H1|]. case_decide as H2; [by rewrite H2|].
    split; [|intros ->; by vm_compute in Hhi].
    apply parse_char_rune; [done|cbn; lia|]. intros [= ->]. by vm_compute in Hhi.
Qed.

Lemma parse_string_chunks n cs r :
  Forall (fun c => match c with Rune e => is_rune e | Invalid _ => True end) cs ->
  (length cs < n)%nat ->
  parse_string n (flat escape_chunk cs ++ Byte.x22 :: r) = Ret (Some (flat encode cs, r)).
Proof.
  intros Hcs. revert n. induction Hcs as [|c cs Hc _ IH]; intros [|n] Hn; cbn [length] in Hn; try lia; [done|].
  rewrite !flat_cons, <- app_assoc. destruct (parse_char_escape c (flat escape_chunk cs ++ Byte.x22 :: r) Hc) as [Hp Hq].
  cbn [parse_string]. destruct (escape_chunk c) as [|x l] eqn:Hx; [done|]. cbn [app] in *.
  rewrite decide_False by done. rewrite Hp. rewrite IH by lia. done.
Qed.

(** Closed decidable facts. *)
Ltac by_decision := refine (bool_decide_unpack _ _); vm_compute; exact I.

(** A number token, and what may follow a value in printed text. *)
Definition num_ok (t : bytes) : Prop := scan_number t = Some (t, []).
Definition delimiter (r : bytes) : Prop :=
  match r with [] => True | b :: _ => b ∈ [Byte.x2c; Byte.x5d; Byte.x7d] end.

(** A scanner that stops at delimiters: more text after one does not matter. *)
Definition stops (f : bytes -> option (bytes * bytes)) : Prop :=
  forall l t m r, delimiter r -> f l = Some (t, m) -> f (l ++ r) = Some (t, m ++ r).

Lemma delimiter_head r : delimiter r ->
  match r with
  | [] => True
  | b :: _ => is_digit b = false /\ b <> Byte.x2e /\ b <> Byte.x65 /\ b <> Byte.x45 /\
      b <> Byte.x2b /\ b <> Byte.x2d /\ is_space b = false
  end.
Proof.
  destruct r as [|b r]; [done|]. unfold delimiter. rewrite !elem_of_cons.
  intros [->|[->|[->|H]]]; [by vm_compute..|]. by apply not_elem_of_nil in H.
Qed.

Lemma span_digits_stop l r :
  delimiter r -> span_digits (l ++ r) = ((span_digits l).1, (span_digits l).2 ++ r).
Proof.
  intros Hr%delimiter_head. induction l as [|b l IH].
  - destruct r as [|b r]; [done|]. cbn [app span_digits]. by destruct Hr as [-> _].
  - cbn [app span_digits]. cbv zeta. rewrite IH. by destruct (is_digit b).
Qed.

Lemma eat_app b l r : l <> [] -> eat b (l ++ r) = (.++ r) <$> eat b l.
Proof. destruct l as [|x l]; [done|]. intros _. cbn. by case_decide. Qed.

Lemma eat_delimiter b r :
  delimiter r -> b ∉ [Byte.x2c; Byte.x5d; Byte.x7d] -> eat b r = None.
Proof. destruct r as [|x r]; [done|]. intros Hd Hb. apply eat_ne. intros ->. by apply Hb. Qed.

Lemma number_frac_stops : stops number_frac.
Proof.
  intros l t m r Hr. unfold number_frac. destruct (decide (l = [])) as [->|Hl].
  - cbn. intros [= <- <-]. rewrite eat_delimiter; [done|done|by_decision].
  - rewrite eat_app by done. destruct (eat Byte.x2e l) as [l'|]; cbn -[span_digits decide].
    + rewrite span_digits_stop by done. cbn [fst snd].
      destruct (decide ((span_digits l').1 = [])); [done|]. by intros [= <- <-].
    + by intros [= <- <-].
Qed.

Lemma number_int_stops : stops number_int.
Proof.
  intros l t m r Hr. unfold number_int. destruct (decide (l = [])) as [->|Hl]; [done|].
  rewrite eat_app by done. destruct (eat Byte.x30 l) as [l'|]; cbn -[span_digits decide].
  - by intros [= <- <-].
  - rewrite span_digits_stop by done. cbn [fst snd].
    destruct (decide ((span_digits l).1 = [])); [done|]. intros [= Hs]. by rewrite Hs.
Qed.

Lemma number_exp_stops : stops number_exp.
Proof.
  intros l t m r Hr. pose proof (delimiter_head r Hr) as Hd. unfold number_exp. destruct l as [|b l]; cbn [app].
  - intros [= <- <-]. destruct r as [|x r]; [done|]. rewrite bool_decide_false; [done|].
    rewrite !elem_of_cons. intros [->|[->|Hn]]; [naive_solver..|]. by apply not_elem_of_nil in Hn.
  - destruct (bool_decide (b ∈ [Byte.x65; Byte.x45])); [|by intros [= <- <-]].
    set (sr := match l with [] => _ | _ => _ end). set (sr' := match l ++ r with [] => _ | _ => _ end).
    assert (sr' = (sr.1, sr.2 ++ r)) as ->.
    { unfold sr, sr'. destruct l as [|s l]; cbn [app].
      - destruct r as [|x r]; [done|]. rewrite bool_decide_false; [done|].
        rewrite !elem_of_cons. intros [->|[->|Hn]]; [naive_solver..|]. by apply not_elem_of_nil in Hn.
      - by destruct (bool_decide _). }
    cbv zeta. cbn [fst snd]. rewrite span_digits_stop by done. cbn [fst snd].
    destruct (decide ((span_digits sr.2).1 = [])); [done|]. by intros [= <- <-].
Qed.

Lemma scan_number_stops : stops scan_number.
Proof.
  intros l t m r Hr. unfold scan_number.
  set (sr := match eat Byte.x2d l with Some _ => _ | None => _ end).
  set (sr' := match eat Byte.x2d (l ++ r) with Some _ => _ | None => _ end).
  assert (sr' = (sr.1, sr.2 ++ r)) as ->.
  { unfold sr, sr'. destruct (decide (l = [])) as [->|Hl].
    - cbn. rewrite eat_delimiter; [done|done|by_decision].
    - rewrite eat_app by done. by destruct (eat Byte.x2d l). }
  clearbody sr. cbn [fst snd]. destruct (number_int sr.2) as [[i r1]|] eqn:Hi; [|done].
  rewrite (number_int_stops _ _ _ _ Hr Hi). cbn -[number_frac number_exp].
  destruct (number_frac r1) as [[f r2]|] eqn:Hf; [|done].
  rewrite (number_frac_stops _ _ _ _ Hr Hf). cbn -[number_exp].
  destruct (number_exp r2) as [[e r3]|] eqn:He; [|done].
  rewrite (number_exp_stops _ _ _ _ Hr He). cbn. by intros [= <- <-].
Qed.

Section Induction.
Context (P : json -> Prop).
Context (Hnull : P JNull) (Hbool : forall b, P (JBool b)) (Hnum : forall t, P (JNum t))
  (Hstr : forall s, P (JStr s)) (Harr : forall l, Forall P l -> P (JArr l))
  (Hobj : forall l, Forall (fun kv => P kv.2) l -> P (JObj l)).

Fixpoint json_ind' (j : json) : P j :=
  match j with
  | JNull => Hnull
  | JBool b => Hbool b
  | JNum t => Hnum t
  | JStr s => Hstr s
  | JArr l => Harr l ((fix go l := match l return Forall P l with
                                   | [] => List.Forall_nil _
                                   | v :: l => List.Forall_cons _ _ _ (json_ind' v) (go l)
                                   end) l)
  | JObj l => Hobj l ((fix go l := match l return Forall (fun kv => P kv.2) l with
                                   | [] => List.Forall_nil _
                                   | kv :: l => List.Forall_cons _ _ _ (json_ind' kv.2) (go l)
                                   end) l)
  end.
End Induction.

(** Values whose number tokens are numbers, and the values read back. *)
Fixpoint json_ok (j : json) : Prop :=
  match j with
  | JNum t => num_ok t
  | JArr l => fold_right (fun v p => json_ok v /\ p) True l
  | JObj l => fold_right (fun kv p => json_ok kv.2 /\ p) True l
  | _ => True
  end.

Fixpoint norm (j : json) : json :=
  match j with
  | JStr s => JStr (coerce s)
  | JArr l => JArr (map norm l)
  | JObj l => JObj (map (fun kv => (coerce kv.1, norm kv.2)) l)
  | j => j
  end.

Lemma scan_number_head x t r : scan_number (x :: t) = Some r -> x = Byte.x2d \/ is_digit x = true.
Proof.
  unfold scan_number. cbn [eat]. case_decide as Hd; [by left|]. cbn [snd fst]. unfold number_int. cbn [eat].
  case_decide as Hz; [by subst; right|]. cbn [span_digits]. destruct (is_digit x); [by right|]. by cbn.
Qed.

Lemma print_head j :
  json_ok j -> exists b l, print j = b :: l /\ is_space b = false /\ b <> Byte.x5d.
Proof.
  destruct j as [|[]|t|s|l|l]; intros Hok; cbn; try by eexists _, _.
  destruct t as [|x t]; [done|]. exists x, t. split; [done|].
  destruct (scan_number_head _ _ _ Hok) as [->|Hx]; [done|]. by destruct x.
Qed.

Lemma skip_ws_print j r : json_ok j -> skip_ws (print j ++ r) = print j ++ r.
Proof. intros (b & l & -> & Hb & _)%print_head. cbn. by rewrite Hb. Qed.

Lemma skip_ws_cons b r : is_space b = false -> skip_ws (b :: r) = b :: r.
Proof. intros Hb. cbn. by rewrite Hb. Qed.

Lemma escape_length cs : Forall (fun c => match c with Rune e => is_rune e | Invalid _ => True end) cs ->
  (length cs <= length (flat escape_chunk cs))%nat.
Proof.
  induction 1 as [|c cs Hc _ IH]; [done|]. rewrite flat_cons, length_app. cbn.
  destruct (parse_char_escape c [] Hc) as [_ Hx]. destruct (escape_chunk c); [done|]. cbn. lia.
Qed.

Lemma chunks_ok s : Forall (fun c => match c with Rune e => is_rune e | Invalid _ => True end) (chunks s).
Proof. eapply Forall_impl; [exact (chunks_are_runes s)|by intros [e|b]]. Qed.

Lemma parse_string_quote n s r :
  (length (quote s ++ r) <= n)%nat ->
  exists q, quote s ++ r = Byte.x22 :: q /\ parse_string n q = Ret (Some (coerce s, r)).
Proof.
  intros Hn. unfold quote in *. rewrite <- !app_assoc in *. cbn [app] in *. eexists. split; [done|].
  apply parse_string_chunks; [apply chunks_ok|]. pose proof (escape_length _ (chunks_ok s)).
  cbn [length] in Hn. rewrite length_app in Hn. cbn in Hn. lia.
Qed.

Definition print_member (kv : bytes * json) : bytes := quote kv.1 ++ lit ":" ++ print kv.2.

Definition reads (j : json) : Prop :=
  json_ok j -> forall n r, delimiter r -> (2 * length (print j ++ r) < n)%nat ->
  parse_value n (print j ++ r) = Ret (Some (norm j, r)).

Lemma parse_elems_print l r n :
  l <> [] -> Forall reads l -> fold_right (fun v p => json_ok v /\ p) True l ->
  (2 * length (join (lit ",") (map print l) ++ Byte.x5d :: r) + 1 < n)%nat ->
  parse_elems n (join (lit ",") (map print l) ++ Byte.x5d :: r) = Ret (Some (map norm l, r)).
Proof.
  intros Hne Hl. revert n. induction Hl as [|v l Hv Hl IH]; intros n Hok Hn; [done|].
  destruct n as [|n]; [lia|]. destruct Hok as [Hokv Hok]. cbn [parse_elems].
  destruct l as [|w l].
  - cbn [map join] in *. rewrite (Hv Hokv); [|cbn; by_decision|lia]. cbn [then_ mbind outcome_bind].
    rewrite skip_ws_cons, eat_eq by done. done.
  - change (join (lit ",") (map print (v :: w :: l))) with
      (print v ++ [Byte.x2c] ++ join (lit ",") (map print (w :: l))) in *.
    rewrite <- !app_assoc in *. set (rest := join _ _ ++ _) in *.
    change ([Byte.x2c] ++ rest) with (Byte.x2c :: rest) in *. rewrite length_app in Hn. cbn [length] in Hn.
    rewrite (Hv Hokv); [|cbn; by_decision|rewrite length_app; cbn [length]; lia].
    cbn [then_ mbind outcome_bind]. rewrite skip_ws_cons, eat_ne, eat_eq by done.
    unfold rest. rewrite IH; [done|done|done|]. fold rest. lia.
Qed.

Lemma parse_members_print l r n :
  l <> [] -> Forall (fun kv => reads kv.2) l -> fold_right (fun kv p => json_ok kv.2 /\ p) True l ->
  (2 * length (join (lit ",") (map print_member l) ++ Byte.x7d :: r) + 1 < n)%nat ->
  parse_members n (join (lit ",") (map print_member l) ++ Byte.x7d :: r) =
  Ret (Some (map (fun kv => (coerce kv.1, norm kv.2)) l, r)).
Proof.
  intros Hne Hl. revert n. induction Hl as [|[k v] l Hv Hl IH]; intros n Hok Hn; [done|].
  destruct n as [|n]; [lia|]. destruct Hok as [Hokv Hok]. cbn [parse_members snd] in *.
  assert (forall tail, (2 * length (print_member (k, v) ++ tail) + 1 < S n)%nat -> delimiter tail ->
    exists q q', skip_ws (print_member (k, v) ++ tail) = Byte.x22 :: q /\
      parse_string n q = Ret (Some (coerce k, Byte.x3a :: q')) /\
      parse_value n q' = Ret (Some (norm v, tail))) as Hm.
  { intros tail Ht Hd. unfold print_member in *. cbn [fst snd] in *. rewrite <- !app_assoc in *.
    change (lit ":" ++ ?x) with (Byte.x3a :: x) in *.
    destruct (parse_string_quote n k (Byte.x3a :: print v ++ tail)) as (q & Hq & Hp); [lia|].
    exists q, (print v ++ tail). rewrite Hq. split; [done|]. split; [done|].
    apply (Hv Hokv); [done|]. rewrite length_app in Ht. cbn [length] in Ht. lia. }
  destruct l as [|w l].
  - cbn [map join] in *. destruct (Hm (Byte.x7d :: r)) as (q & q' & -> & Hs & Hp); [lia|cbn; by_decision|].
    rewrite eat_eq, Hs. cbn [then_ mbind outcome_bind]. rewrite skip_ws_cons, eat_eq, Hp by done.
    cbn [then_ mbind outcome_bind]. rewrite skip_ws_cons, eat_eq by done. done.
  - change (join (lit ",") (map print_member ((k, v) :: w :: l))) with
      (print_member (k, v) ++ [Byte.x2c] ++ join (lit ",") (map print_member (w :: l))) in *.
    rewrite <- !app_assoc in *. set (rest := join _ _ ++ _) in *.
    change ([Byte.x2c] ++ rest) with (Byte.x2c :: rest) in *.
    destruct (Hm (Byte.x2c :: rest)) as (q & q' & -> & Hs & Hp); [lia|cbn; by_decision|].
    rewrite eat_eq, Hs. cbn [then_ mbind outcome_bind]. rewrite skip_ws_cons, eat_eq, Hp by done.
    cbn [then_ mbind outcome_bind]. rewrite skip_ws_cons, eat_ne, eat_eq by done.
    unfold rest. rewrite IH; [done|done|done|]. fold rest.
    rewrite length_app in Hn. cbn [length] in Hn. lia.
Qed.

Lemma reads_json j : reads j.
Proof.
  induction j as [|b|t|s|l IH|l IH] using json_ind'; intros Hok [|n] r Hr Hn; try lia;
    cbn [parse_value]; rewrite skip_ws_print by done.
  - unfold print. cbn [app lit bytes_of_string String.list_byte_of_string]. cbn. done.
  - destruct b; done.
  - cbn [print json_ok norm] in *. destruct t as [|x t]; [done|].
    pose proof (scan_number_head _ _ _ Hok) as Hx. cbn [app].
    assert (x <> Byte.x22 /\ x <> Byte.x7b /\ x <> Byte.x5b /\ x <> Byte.x74 /\ x <> Byte.x66 /\ x <> Byte.x6e)
      as (? & ? & ? & ? & ? & ?).
    { destruct Hx as [->|Hx]; [done|]. by split_and!; intros ->. }
    rewrite !decide_False by done. change (x :: t ++ r) with ((x :: t) ++ r).
    by rewrite (scan_number_stops _ _ _ _ Hr Hok).
  - cbn [print norm] in *. destruct (parse_string_quote n s r) as (q & -> & Hq); [lia|].
    rewrite decide_True by done. by rewrite Hq.
  - cbn [print norm json_ok] in *. rewrite <- !app_assoc in *. change (lit "[" ++ ?x) with (Byte.x5b :: x) in *.
    change (lit "]" ++ r) with (Byte.x5d :: r) in *. cbv beta iota. rewrite decide_False, decide_False, decide_True by done.
    destruct l as [|v l].
    + cbn [map join app]. rewrite skip_ws_cons, eat_eq by done. done.
    + rewrite parse_elems_print; [|done|done|done|cbn [length] in Hn; lia].
      assert (exists b q, join (lit ",") (map print (v :: l)) = b :: q /\ is_space b = false /\ b <> Byte.x5d)
        as (b & q & -> & Hb & Hb').
      { destruct Hok as [Hv _]. destruct (print_head v Hv) as (b & q & Hp & Hb). cbn [map].
        destruct l as [|w l]; cbn [join map]; rewrite Hp; eauto. }
      cbn [app]. rewrite skip_ws_cons, eat_ne by done. done.
  - cbn [print norm json_ok] in *. rewrite <- !app_assoc in *. change (lit "{" ++ ?x) with (Byte.x7b :: x) in *.
    change (lit "}" ++ r) with (Byte.x7d :: r) in *. cbv beta iota. rewrite decide_False, decide_True by done.
    change (map (fun kv : bytes * json => quote kv.1 ++ lit ":" ++ print kv.2) l) with (map print_member l) in *.
    destruct l as [|kv l].
    + cbn [map join app]. rewrite skip_ws_cons, eat_eq by done. done.
    + rewrite parse_members_print; [|done|done|done|cbn [length] in Hn; lia].
      assert (exists q, join (lit ",") (map print_member (kv :: l)) = Byte.x22 :: q) as (q & ->).
      { cbn [map]. destruct l as [|w l]; cbn [join map]; unfold print_member, quote; cbn [app]; eauto. }
      cbn [app]. rewrite skip_ws_cons, eat_ne by done. done.
Qed.

(** Printed text is parsed back to the value, its strings coerced. *)
Lemma parse_print j : json_ok j -> parse (print j) = Ret (Some (norm j)).
Proof.
  intros Hok. unfold parse. pose proof (reads_json j Hok (2 + 2 * length (print j))%nat [] I) as Hp.
  rewrite app_nil_r in Hp. rewrite Hp by lia. done.
Qed.

(** ** Integers are number tokens *)

Lemma pretty_N_go_digits (x : N) s :
  (0 < x)%N -> exists d ds, bytes_of_string (pretty_N_go x s) = d :: ds ++ bytes_of_string s /\
    d <> Byte.x30 /\ Forall (fun b => is_digit b = true) (d :: ds).
Proof.
  revert s. induction (N.lt_wf_0 x) as [x _ IH]; intros s Hx.
  pose proof (N.mod_lt x 10 ltac:(done)) as Hm. rewrite pretty_N_go_step by done.
  assert (forall y, (y < 10)%N -> is_digit (Ascii.byte_of_ascii (pretty_N_char y)) = true /\
    (y <> 0%N -> Ascii.byte_of_ascii (pretty_N_char y) <> Byte.x30)) as Hc.
  { intros y Hy. assert (y = 0 \/ y = 1 \/ y = 2 \/ y = 3 \/ y = 4 \/ y = 5 \/ y = 6 \/ y = 7 \/ y = 8 \/ y = 9)%N
      as H by lia. by repeat destruct H as [->|H]; [..|subst]. }
  destruct (Hc _ Hm) as [Hd Hnz]. destruct (decide (x / 10 = 0)%N) as [H0|H0].
  - rewrite H0, pretty_N_go_0. exists (Ascii.byte_of_ascii (pretty_N_char (x mod 10))), [].
    split_and!; [done| |by repeat constructor]. apply Hnz. intros Hm0.
    pose proof (N.div_mod x 10 ltac:(done)). lia.
  - destruct (IH (x / 10)%N ltac:(apply N.div_lt; lia) (String (pretty_N_char (x mod 10)) s)) as (d & ds & -> & Hdz & Hds);
      [by apply N.neq_0_lt_0|].
    exists d, (ds ++ [Ascii.byte_of_ascii (pretty_N_char (x mod 10))]). rewrite <- app_assoc.
    split_and!; [done|done|]. inversion Hds; subst. constructor; [done|]. apply Forall_app. by repeat constructor.
Qed.

Lemma span_digits_all l : Forall (fun b => is_digit b = true) l -> span_digits l = (l, []).
Proof. induction 1 as [|b l Hb _ IH]; [done|]. cbn [span_digits]. by rewrite Hb, IH. Qed.

Lemma number_int_pretty (x : N) : number_int (bytes_of_string (pretty x)) = Some (bytes_of_string (pretty x), []).
Proof.
  unfold pretty, pretty_N. case_decide; [done|].
  destruct (pretty_N_go_digits x "" ltac:(lia)) as (d & ds & -> & Hd & Hds). cbn [bytes_of_string]. 
  change (bytes_of_string "") with (@nil byte). rewrite app_nil_r. unfold number_int.
  rewrite eat_ne, span_digits_all by done. by rewrite decide_False.
Qed.

Lemma pretty_N_minus (x : N) : eat Byte.x2d (bytes_of_string (pretty x)) = None.
Proof.
  unfold pretty, pretty_N. case_decide; [done|].
  destruct (pretty_N_go_digits x "" ltac:(lia)) as (d & ds & -> & _ & Hds). apply eat_ne. intros ->.
  by inversion Hds.
Qed.

Lemma num_ok_Itoa z : num_ok (bytes_of_string (Itoa z)).
Proof.
  unfold num_ok, Itoa, pretty, pretty_Z. destruct z as [|p|p]; [done|..].
  - unfold scan_number. change (bytes_of_string (pretty p)) with (bytes_of_string (pretty (Npos p))).
    rewrite pretty_N_minus. cbn [fst snd]. rewrite number_int_pretty. cbn. by rewrite app_nil_r.
  - change (bytes_of_string ("-" +:+ pretty p)) with (Byte.x2d :: bytes_of_string (pretty (Npos p))).
    unfold scan_number. rewrite eat_eq. cbn [fst snd]. rewrite number_int_pretty. cbn. by rewrite app_nil_r.
Qed.

Lemma Itoa_chars z :
  exists b l, bytes_of_string (Itoa z) = b :: l /\ Forall (fun b => b = Byte.x2d \/ is_digit b = true) (b :: l).
Proof.
  assert (Hp : forall x : N, exists b l, bytes_of_string (pretty x) = b :: l /\
    Forall (fun b => b = Byte.x2d \/ is_digit b = true) (b :: l)).
  { intros x. unfold pretty, pretty_N. case_decide; [exists Byte.x30, []; split; [done|repeat constructor; by right]|].
    destruct (pretty_N_go_digits x "" ltac:(lia)) as (d & ds & -> & _ & Hds).
    exists d, (ds ++ []). split; [done|]. rewrite app_nil_r. eapply Forall_impl; [exact Hds|]. by right. }
  unfold Itoa, pretty, pretty_Z. destruct z as [|p|p].
  - exact (Hp 0%N).
  - exact (Hp (Npos p)).
  - destruct (Hp (Npos p)) as (b & l & He & Hl). exists Byte.x2d, (b :: l). split.
    + change (bytes_of_string ("-" +:+ pretty p)) with (Byte.x2d :: bytes_of_string (pretty (Npos p))). by rewrite He.
    + constructor; [by left|done].
Qed.
