(* ===== verification/LValue.v ===== *)
(** * Lingo values (internal/domain/types/lingo)

    The data types of the Lingo language as the server holds them, their
    serialisation [GetBytes], their printed form [String], and the accessors the
    protocol handlers use. Parsing is in LExtract.v.

    A Go [LValue] is an interface holding a pointer; a field of interface type
    can be nil (the coordinates of an [LPoint] whose parse stopped early), which
    is [None] here and makes every method call on it a panic. Floats are their
    IEEE bit patterns. *)

From Stdlib Require Import ZArith Lia.
From stdpp Require Import base list strings option.
From S2P Require Import Prelude GoFmt.

Open Scope Z_scope.

(** ** Type tags *)

Definition VtVoid : Z := 0.
Definition VtInteger : Z := 1.
Definition VtSymbol : Z := 2.
Definition VtString : Z := 3.
Definition VtPicture : Z := 5.
Definition VtFloat : Z := 6.
Definition VtList : Z := 7.
Definition VtPoint : Z := 8.
Definition VtRect : Z := 9.
Definition VtPropList : Z := 10.
Definition VtColor : Z := 18.
Definition VtDate : Z := 19.
Definition VtMedia : Z := 20.
Definition Vt3dVector : Z := 22.
Definition Vt3dTransform : Z := 23.

Inductive LValue : Type :=
| LVoid
| LInteger (Value : Z)
| LSymbol (Value : string)
| LString (Value : string)
| LPicture (Data : bytes)
| LFloat (Value : Z)
| LList (Values : list LValue)
| LPoint (LocH LocV : option LValue)
| LRect (Left Top Right Bottom : option LValue)
| LPropList (Properties Values : list LValue)
| LColor (Red Green Blue : byte)
| LDate (Data : bytes)
| LMedia (Data : bytes)
| L3dVector (X Y Z' : Z)
| L3dTransform (Matrix : list Z).

(** ** Induction through the nested lists and optional fields *)

Definition opt_all (P : LValue -> Prop) (o : option LValue) : Prop :=
  match o with Some v => P v | None => True end.

Section LValueInd.
Variable P : LValue -> Prop.
Hypothesis Hvoid : P LVoid.
Hypothesis Hint : forall z, P (LInteger z).
Hypothesis Hsym : forall s, P (LSymbol s).
Hypothesis Hstr : forall s, P (LString s).
Hypothesis Hpic : forall d, P (LPicture d).
Hypothesis Hfloat : forall f, P (LFloat f).
Hypothesis Hlist : forall vs, Forall P vs -> P (LList vs).
Hypothesis Hpoint : forall h v, opt_all P h -> opt_all P v -> P (LPoint h v).
Hypothesis Hrect : forall l t r b,
  opt_all P l -> opt_all P t -> opt_all P r -> opt_all P b -> P (LRect l t r b).
Hypothesis Hprop : forall ps vs, Forall P ps -> Forall P vs -> P (LPropList ps vs).
Hypothesis Hcolor : forall r g b, P (LColor r g b).
Hypothesis Hdate : forall d, P (LDate d).
Hypothesis Hmedia : forall d, P (LMedia d).
Hypothesis Hvec : forall x y z, P (L3dVector x y z).
Hypothesis Htrans : forall m, P (L3dTransform m).

Fixpoint LValue_rect' (v : LValue) : P v :=
  let all := fix all (l : list LValue) : Forall P l :=
    match l with
    | [] => Forall_nil_2 P
    | x :: l => Forall_cons_2 P x l (LValue_rect' x) (all l)
    end in
  let opt (o : option LValue) : opt_all P o :=
    match o with Some v => LValue_rect' v | None => I end in
  match v with
  | LVoid => Hvoid
  | LInteger z => Hint z
  | LSymbol s => Hsym s
  | LString s => Hstr s
  | LPicture d => Hpic d
  | LFloat f => Hfloat f
  | LList vs => Hlist vs (all vs)
  | LPoint h v => Hpoint h v (opt h) (opt v)
  | LRect l t r b => Hrect l t r b (opt l) (opt t) (opt r) (opt b)
  | LPropList ps vs => Hprop ps vs (all ps) (all vs)
  | LColor r g b => Hcolor r g b
  | LDate d => Hdate d
  | LMedia d => Hmedia d
  | L3dVector x y z => Hvec x y z
  | L3dTransform m => Htrans m
  end.
End LValueInd.

(** ** Methods *)

(** [GetType] returns the [ValueType] every constructor stamps. *)
Definition GetType (v : LValue) : Z :=
  match v with
  | LVoid => VtVoid
  | LInteger _ => VtInteger
  | LSymbol _ => VtSymbol
  | LString _ => VtString
  | LPicture _ => VtPicture
  | LFloat _ => VtFloat
  | LList _ => VtList
  | LPoint _ _ => VtPoint
  | LRect _ _ _ _ => VtRect
  | LPropList _ _ => VtPropList
  | LColor _ _ _ => VtColor
  | LDate _ => VtDate
  | LMedia _ => VtMedia
  | L3dVector _ _ _ => Vt3dVector
  | L3dTransform _ => Vt3dTransform
  end.

Definition ToInteger (v : LValue) : Z :=
  match v with LInteger z => z | _ => 0 end.

Definition ToDouble (v : LValue) : Z :=
  match v with LFloat f => f | _ => 0 end.

Definition ToBytes (v : LValue) : bytes :=
  match v with
  | LPicture d | LDate d | LMedia d => d
  | _ => []
  end.

(** *** GetBytes

    Each kind writes its tag and its payload. [LMedia] has no [GetBytes] of its
    own and inherits [BaseLValue]'s, which is empty. *)

(** A length-prefixed byte string padded to an even length. *)
Definition padded (l : bytes) : bytes :=
  PutUint32 (uint32 (zlen l)) ++ l ++ (if Z.odd (zlen l) then [Byte.x00] else []).

Definition LVoid_GetBytes : bytes := PutUint16 VtVoid.
Definition LInteger_GetBytes (z : Z) : bytes := PutUint16 VtInteger ++ PutUint32 (uint32 z).
Definition LSymbol_GetBytes (s : string) : bytes := PutUint16 VtSymbol ++ padded (bytes_of_string s).
Definition LString_GetBytes (s : string) : bytes := PutUint16 VtString ++ padded (bytes_of_string s).
Definition LPicture_GetBytes (d : bytes) : bytes :=
  PutUint16 VtPicture ++ PutUint32 (uint32 (zlen d)) ++ d.
Definition LFloat_GetBytes (f : Z) : bytes := PutUint16 VtFloat ++ PutUint64 f.
Definition LColor_GetBytes (r g b : byte) : bytes := PutUint16 VtColor ++ [r; g; b; Byte.x00].
Definition LDate_GetBytes (d : bytes) : bytes := PutUint16 VtDate ++ d.
Definition L3dVector_GetBytes (x y z : Z) : bytes :=
  PutUint16 Vt3dVector ++ PutUint32 x ++ PutUint32 y ++ PutUint32 z.
Definition L3dTransform_GetBytes (m : list Z) : bytes :=
  PutUint16 Vt3dTransform ++ concat (PutUint32 <$> m).
Definition BaseLValue_GetBytes : bytes := [].

Definition LList_GetBytes (vs : list bytes) : bytes :=
  PutUint16 VtList ++ PutUint32 (uint32 (zlen vs)) ++ concat vs.
Definition LPropList_GetBytes (kvs : list (bytes * bytes)) : bytes :=
  PutUint16 VtPropList ++ PutUint32 (uint32 (zlen kvs)) ++
  concat ((fun kv => kv.1 ++ kv.2) <$> kvs).
Definition LPoint_GetBytes (h v : bytes) : bytes := PutUint16 VtPoint ++ h ++ v.
Definition LRect_GetBytes (l t r b : bytes) : bytes :=
  PutUint16 VtRect ++ l ++ t ++ r ++ b.

(** A method call through an interface field: nil is a panic. *)
Definition call {A} (f : LValue -> outcome A) (o : option LValue) : outcome A :=
  match o with Some v => f v | None => Panic end.

Fixpoint GetBytes (v : LValue) : outcome bytes :=
  let callb (o : option LValue) :=
    match o with Some v => GetBytes v | None => Panic end in
  match v with
  | LVoid => Ret LVoid_GetBytes
  | LInteger z => Ret (LInteger_GetBytes z)
  | LSymbol s => Ret (LSymbol_GetBytes s)
  | LString s => Ret (LString_GetBytes s)
  | LPicture d => Ret (LPicture_GetBytes d)
  | LFloat f => Ret (LFloat_GetBytes f)
  | LList vs => bs ← mapM_outcome GetBytes vs; Ret (LList_GetBytes bs)
  | LPoint h v => hb ← callb h; vb ← callb v; Ret (LPoint_GetBytes hb vb)
  | LRect l t r b =>
      lb ← callb l; tb ← callb t; rb ← callb r; bb ← callb b;
      Ret (LRect_GetBytes lb tb rb bb)
  | LPropList ps vs => kvs ← zipM_outcome GetBytes ps vs; Ret (LPropList_GetBytes kvs)
  | LColor r g b => Ret (LColor_GetBytes r g b)
  | LDate d => Ret (LDate_GetBytes d)
  | LMedia _ => Ret BaseLValue_GetBytes
  | L3dVector x y z => Ret (L3dVector_GetBytes x y z)
  | L3dTransform m => Ret (L3dTransform_GetBytes m)
  end.

(** *** String *)

Definition BaseLValue_String (vt : Z) : string :=
  ("{LValue type " +:+ Itoa vt +:+ "}")%string.
Definition LString_String (s : string) : string :=
  String (Ascii.ascii_of_nat 34) (s +:+ String (Ascii.ascii_of_nat 34) EmptyString).
Definition LPicture_String (d : bytes) : string :=
  ("<picture " +:+ Itoa (zlen d) +:+ " bytes>")%string.
Definition LColor_String (r g b : byte) : string :=
  ("color(" +:+ Itoa (Z_of_byte r) +:+ ", " +:+ Itoa (Z_of_byte g) +:+ ", "
    +:+ Itoa (Z_of_byte b) +:+ ")")%string.
Definition LDate_String (d : bytes) : string := ("<date " +:+ hex d +:+ ">")%string.
Definition L3dVector_String (x y z : Z) : string :=
  ("vector(" +:+ fmt_f32 x +:+ ", " +:+ fmt_f32 y +:+ ", " +:+ fmt_f32 z +:+ ")")%string.
Definition L3dTransform_String (m : list Z) : string :=
  ("transform([" +:+ String.concat ", " (fmt_f32 <$> m) +:+ "])")%string.
Definition LPoint_String (h v : string) : string :=
  ("point(" +:+ h +:+ ", " +:+ v +:+ ")")%string.
Definition LRect_String (l t r b : string) : string :=
  ("rect(" +:+ l +:+ ", " +:+ t +:+ ", " +:+ r +:+ ", " +:+ b +:+ ")")%string.
Definition LPropList_String (kvs : list (string * string)) : string :=
  ("[" +:+ String.concat ", " ((fun kv => kv.1 +:+ ": " +:+ kv.2) <$> kvs) +:+ "]")%string.

(** [LList] and [LMedia] have no [String] of their own. *)
Fixpoint String_ (v : LValue) : outcome string :=
  let calls (o : option LValue) :=
    match o with Some v => String_ v | None => Panic end in
  match v with
  | LVoid | LList _ | LMedia _ => Ret (BaseLValue_String (GetType v))
  | LInteger z => Ret (Itoa z)
  | LSymbol s => Ret s
  | LString s => Ret (LString_String s)
  | LPicture d => Ret (LPicture_String d)
  | LFloat f => Ret (fmt_f64 f)
  | LPoint h v => hs ← calls h; vs ← calls v; Ret (LPoint_String hs vs)
  | LRect l t r b =>
      ls ← calls l; ts ← calls t; rs ← calls r; bs ← calls b;
      Ret (LRect_String ls ts rs bs)
  | LPropList ps vs => kvs ← zipM_outcome String_ ps vs; Ret (LPropList_String kvs)
  | LColor r g b => Ret (LColor_String r g b)
  | LDate d => Ret (LDate_String d)
  | L3dVector x y z => Ret (L3dVector_String x y z)
  | L3dTransform m => Ret (L3dTransform_String m)
  end.

(** ** Accessors *)

(** [StringValue]: the raw text of an [LString], the printed form of the rest. *)
Definition StringValue (v : LValue) : outcome string :=
  match v with LString s => Ret s | _ => String_ v end.

(** [ExtractString]: a string argument; [None] is the error return. *)
Fixpoint ExtractString (v : LValue) : option string :=
  match v with
  | LString s | LSymbol s => Some s
  | LList (e :: _) => ExtractString e
  | _ => None
  end.

(** The dynamic types [GetLValue] switches on. *)
Inductive go_any : Type :=
| AnyInt (z : Z)
| AnyInt32 (z : Z)
| AnyString (s : string)
| AnyFloat64 (f : Z)
| AnyFloat32 (f : Z)
| AnyBytes (d : bytes)
| AnyOther.

Definition GetLValue (val : go_any) : LValue :=
  match val with
  | AnyInt z => LInteger (int32 z)
  | AnyInt32 z => LInteger z
  | AnyString s => LString s
  | AnyFloat64 f => LFloat f
  | AnyFloat32 f => LFloat (float64_of_float32 f)
  | AnyBytes d => LMedia d
  | AnyOther => LVoid
  end.

(** ** Property lists *)

Definition NewLPropList : LValue := LPropList [] [].
Definition NewLList : LValue := LList [].

(** The receiver is an [*LPropList]: its two slices. *)
Definition AddElement (ps vs : list LValue) (property value : LValue) : LValue :=
  LPropList (ps ++ [property]) (vs ++ [value]).

Definition Count (ps : list LValue) : Z := zlen ps.

Definition GetElementAt (ps vs : list LValue) (pos : Z) : outcome LValue :=
  if (pos <? 0) || (Count ps <=? pos) then Ret LVoid else index vs pos.

Definition GetPropAt (ps : list LValue) (pos : Z) : outcome LValue :=
  if (pos <? 0) || (Count ps <=? pos) then Ret LVoid else index ps pos.

Definition bang : Ascii.ascii := Ascii.ascii_of_nat 33.

Definition nameWithBang (propName : string) : string :=
  match propName with
  | EmptyString => propName
  | String c _ => if decide (c = bang) then propName else String bang propName
  end.

Definition nameWithoutBang (propName : string) : string :=
  match propName with
  | EmptyString => propName
  | String c r => if decide (c = bang) then r else propName
  end.

(** A property matches a lookup with or without the conventional bang. *)
Definition prop_matches (propName s : string) : bool :=
  bool_decide (s = nameWithBang propName) || bool_decide (s = nameWithoutBang propName)
  || bool_decide (s = propName).

(** The scan over [v.Properties]; [i] is the loop index, used on [v.Values]. *)
Fixpoint GetElement_loop (propName : string) (i : Z) (ps vs : list LValue) :
    outcome (option LValue) :=
  match ps with
  | [] => Ret None
  | p :: ps =>
      s ← String_ p;
      if prop_matches propName s then v ← index vs i; Ret (Some v)
      else GetElement_loop propName (i + 1) ps vs
  end.

(** [GetElement]: [Some v] on a hit, [None] for the "property not found" error
    (the code then returns an [LVoid] beside the error). *)
Definition GetElement (ps vs : list LValue) (propName : string) : outcome (option LValue) :=
  GetElement_loop propName 0 ps vs.
