(* ===== verification/LExtract.v ===== *)
(** * Parsing Lingo values from the wire (lingo/l_*.go ExtractFromBytes, FromRawBytes)

    [ExtractFromBytes] mutates its receiver and returns the number of payload
    bytes it consumed; it is modelled as a function from the receiver's current
    value to its new value and that count. This matters: the containers call
    [FromRawBytes], which already extracts the element, and then call
    [ExtractFromBytes] on that same element once more to learn its size.

    Recursion goes through the nesting of containers, so [extract] recurses on a
    depth fuel, and the element loops carry a loop fuel of their own; FromRawBytes
    runs them with the length of the buffer, and [extract_total] shows that this
    always suffices and that no index panic is possible. *)

From Stdlib Require Import ZArith Lia.
From stdpp Require Import base list strings option.
From S2P Require Import Prelude GoFmt LValue.

Open Scope Z_scope.

(** ** Leaf kinds: the whole method *)

Definition LInteger_ExtractFromBytes (v : LValue) (raw : bytes) (off : Z) : outcome (LValue * Z) :=
  if off + 4 <=? zlen raw then
    w ← be_uint 4 raw off; Ret (LInteger (int32 w), 4)
  else Ret (v, 0).

Definition LFloat_ExtractFromBytes (v : LValue) (raw : bytes) (off : Z) : outcome (LValue * Z) :=
  if off + 8 <=? zlen raw then
    bits ← be_uint 8 raw off; Ret (LFloat bits, 8)
  else Ret (v, 0).

(** The shared shape of LString and LSymbol: a length, the bytes, and a padding
    byte counted after an odd length. *)
Definition extract_text (mk : string -> LValue) (v : LValue) (raw : bytes) (off : Z) :
    outcome (LValue * Z) :=
  if zlen raw <? off + 4 then Ret (v, 0)
  else
    len ← be_uint 4 raw off;
    if zlen raw <? off + 4 + len then Ret (v, 0)
    else
      s ← slice raw (off + 4) (off + 4 + len);
      Ret (mk (string_of_bytes s), 4 + (if Z.odd len then len + 1 else len)).

Definition LString_ExtractFromBytes := extract_text LString.
Definition LSymbol_ExtractFromBytes := extract_text LSymbol.

Definition LPicture_ExtractFromBytes (v : LValue) (raw : bytes) (off : Z) : outcome (LValue * Z) :=
  if zlen raw <? off + 4 then Ret (v, 0)
  else
    len ← be_uint 4 raw off;
    if zlen raw <? off + 4 + len then Ret (v, 0)
    else
      d ← slice raw (off + 4) (off + 4 + len);
      Ret (LPicture d, 4 + len).

Definition LColor_ExtractFromBytes (v : LValue) (raw : bytes) (off : Z) : outcome (LValue * Z) :=
  if zlen raw <? off + 4 then Ret (v, 0)
  else
    r ← index raw off; g ← index raw (off + 1); b ← index raw (off + 2);
    Ret (LColor r g b, 4).

Definition LDate_ExtractFromBytes (v : LValue) (raw : bytes) (off : Z) : outcome (LValue * Z) :=
  if zlen raw <? off + 8 then Ret (v, 0)
  else d ← slice raw off (off + 8); Ret (LDate d, 8).

Definition L3dVector_ExtractFromBytes (v : LValue) (raw : bytes) (off : Z) : outcome (LValue * Z) :=
  if zlen raw <? off + 12 then Ret (v, 0)
  else
    x ← be_uint 4 raw off; y ← be_uint 4 raw (off + 4); z ← be_uint 4 raw (off + 8);
    Ret (L3dVector x y z, 12).

Definition L3dTransform_ExtractFromBytes (v : LValue) (raw : bytes) (off : Z) :
    outcome (LValue * Z) :=
  if zlen raw <? off + 64 then Ret (v, 0)
  else
    m ← mapM_outcome (fun i => be_uint 4 raw (off + Z.of_nat i * 4)) (seq 0 16);
    Ret (L3dTransform m, 64).

(** ** The value [FromRawBytes] allocates for a tag, before extraction *)

Definition zero_value (elemType : Z) : LValue :=
  if elemType =? VtVoid then LVoid
  else if elemType =? VtInteger then LInteger 0
  else if elemType =? VtSymbol then LSymbol ""
  else if elemType =? VtString then LString ""
  else if elemType =? VtFloat then LFloat 0
  else if elemType =? VtList then LList []
  else if elemType =? VtPicture then LPicture []
  else if elemType =? VtMedia then LMedia []
  else if elemType =? VtPoint then LPoint None None
  else if elemType =? VtRect then LRect None None None None
  else if elemType =? VtPropList then LPropList [] []
  else if elemType =? VtColor then LColor Byte.x00 Byte.x00 Byte.x00
  else if elemType =? VtDate then LDate (replicate 8 Byte.x00)
  else if elemType =? Vt3dVector then L3dVector 0 0 0
  else if elemType =? Vt3dTransform then L3dTransform (replicate 16 0)
  else LVoid.

(** ** Container kinds, over the recursive call [ext] *)

Section Containers.
Variable ext : LValue -> bytes -> Z -> outcome (LValue * Z).

(** The body of [FromRawBytes]. *)
Definition from_raw_with (raw : bytes) (off : Z) : outcome LValue :=
  if zlen raw <? off + 2 then Ret LVoid
  else
    w ← be_uint 2 raw off;
    r ← ext (zero_value (int16 w)) raw (off + 2);
    Ret r.1.

(** [FromRawBytes] followed by the second [ExtractFromBytes] of the container
    loops: the element and the size of its payload. *)
Definition parse_elem (raw : bytes) (off : Z) : outcome (LValue * Z) :=
  elem ← from_raw_with raw off;
  ext elem raw (off + 2).

Fixpoint LList_loop (fuel : nat) (i count : Z) (raw : bytes) (cur : Z)
    (vals : list LValue) : outcome (list LValue * Z) :=
  if i <? count then
    match fuel with
    | O => OutOfFuel
    | S fuel =>
        r ← parse_elem raw cur;
        LList_loop fuel (i + 1) count raw (cur + 2 + r.2) (vals ++ [r.1])
    end
  else Ret (vals, cur).

Definition LList_ExtractFromBytes (v : LValue) (raw : bytes) (off : Z) :
    outcome (LValue * Z) :=
  if zlen raw <? off + 4 then Ret (v, 0)
  else
    count ← be_uint 4 raw off;
    if (zlen raw - off - 4) / 2 <? count then Ret (v, 0)
    else
      r ← LList_loop (length raw) 0 count raw (off + 4) [];
      Ret (LList r.1, r.2 - off).

Fixpoint LPropList_loop (fuel : nat) (i numElements : Z) (raw : bytes) (off chunkSize : Z)
    (ps vs : list LValue) : outcome (list LValue * list LValue * Z) :=
  if i <? numElements then
    if zlen raw <? off + chunkSize + 2 then Ret (ps, vs, chunkSize)
    else
      match fuel with
      | O => OutOfFuel
      | S fuel =>
          p ← parse_elem raw (off + chunkSize);
          let nextChunk := chunkSize + 2 + p.2 in
          if zlen raw <? off + nextChunk + 2 then Ret (ps, vs, chunkSize)
          else
            e ← parse_elem raw (off + nextChunk);
            LPropList_loop fuel (i + 1) numElements raw off (nextChunk + 2 + e.2)
              (ps ++ [p.1]) (vs ++ [e.1])
      end
  else Ret (ps, vs, chunkSize).

(** The receiver's slices [ps] and [vs] are appended to, not reset. *)
Definition LPropList_ExtractFromBytes (ps vs : list LValue) (raw : bytes) (off : Z) :
    outcome (LValue * Z) :=
  if zlen raw <? off + 4 then Ret (LPropList ps vs, 0)
  else
    n ← be_uint 4 raw off;
    r ← LPropList_loop (length raw) 0 n raw off 4 ps vs;
    Ret (LPropList r.1.1 r.1.2, r.2).

Definition LPoint_ExtractFromBytes (h v : option LValue) (raw : bytes) (off : Z) :
    outcome (LValue * Z) :=
  if zlen raw <? off + 2 then Ret (LPoint h v, 0)
  else
    rh ← parse_elem raw off;
    let consumedH := 2 + rh.2 in
    if zlen raw <? off + consumedH + 2 then Ret (LPoint (Some rh.1) v, 0)
    else
      rv ← parse_elem raw (off + consumedH);
      Ret (LPoint (Some rh.1) (Some rv.1), consumedH + (2 + rv.2)).

(** The loop over the four field pointers; the fields set so far stay set
    when a later one is truncated. *)
Fixpoint LRect_loop (fields : list (option LValue)) (raw : bytes) (off consumed : Z)
    (done : list (option LValue)) : outcome (list (option LValue) * Z) :=
  match fields with
  | [] => Ret (done, consumed)
  | f :: rest =>
      if zlen raw <? off + consumed + 2 then Ret (done ++ fields, 0)
      else
        r ← parse_elem raw (off + consumed);
        LRect_loop rest raw off (consumed + (2 + r.2)) (done ++ [Some r.1])
  end.

Definition LRect_ExtractFromBytes (l t r b : option LValue) (raw : bytes) (off : Z) :
    outcome (LValue * Z) :=
  p ← LRect_loop [l; t; r; b] raw off 0 [];
  match p.1 with
  | [l'; t'; r'; b'] => Ret (LRect l' t' r' b', p.2)
  | _ => Panic
  end.
End Containers.

(** ** ExtractFromBytes: dynamic dispatch on the receiver *)

Fixpoint extract (fuel : nat) (v : LValue) (raw : bytes) (off : Z) : outcome (LValue * Z) :=
  match fuel with
  | O => OutOfFuel
  | S fuel =>
      match v with
      | LVoid | LMedia _ => Ret (v, 0)
      | LInteger _ => LInteger_ExtractFromBytes v raw off
      | LSymbol _ => LSymbol_ExtractFromBytes v raw off
      | LString _ => LString_ExtractFromBytes v raw off
      | LPicture _ => LPicture_ExtractFromBytes v raw off
      | LFloat _ => LFloat_ExtractFromBytes v raw off
      | LList _ => LList_ExtractFromBytes (extract fuel) v raw off
      | LPoint h w => LPoint_ExtractFromBytes (extract fuel) h w raw off
      | LRect l t r b => LRect_ExtractFromBytes (extract fuel) l t r b raw off
      | LPropList ps vs => LPropList_ExtractFromBytes (extract fuel) ps vs raw off
      | LColor _ _ _ => LColor_ExtractFromBytes v raw off
      | LDate _ => LDate_ExtractFromBytes v raw off
      | L3dVector _ _ _ => L3dVector_ExtractFromBytes v raw off
      | L3dTransform _ => L3dTransform_ExtractFromBytes v raw off
      end
  end.

(** Enough fuel for any buffer: nesting goes two bytes deeper per level. *)
Definition parse_fuel (raw : bytes) : nat := S (S (length raw)).

Definition ExtractFromBytes (v : LValue) (raw : bytes) (off : Z) : outcome (LValue * Z) :=
  extract (parse_fuel raw) v raw off.

Definition FromRawBytes (raw : bytes) (off : Z) : outcome LValue :=
  from_raw_with (extract (parse_fuel raw)) raw off.
