(* ===== verification/LParse.v ===== *)
(** * Safety of the Lingo parser

    [extract_total] and [FromRawBytes_total]: on every byte sequence, however
    malformed, parsing terminates, does not index out of range, reports a
    non-negative size, and yields a well-formed value: numbers within their
    machine width, fixed-size arrays of their size, and property lists whose two
    slices have the same length. [GetBytes_returns]: serialising panics exactly on
    values with an unset coordinate, which truncated points and rectangles
    contain. *)

From Stdlib Require Import ZArith Lia.
From stdpp Require Import base list strings option.
From S2P Require Import Prelude GoFmt LValue LExtract.

Open Scope Z_scope.

(** ** Well-formed values: what the Go types and the parser guarantee *)

Definition opt_allb (p : LValue -> bool) (o : option LValue) : bool :=
  match o with Some v => p v | None => true end.

Fixpoint wf (v : LValue) : bool :=
  let o (x : option LValue) := match x with Some v => wf v | None => true end in
  match v with
  | LInteger z => (-2147483648 <=? z) && (z <? 2147483648)
  | LFloat f => (0 <=? f) && (f <? two64)
  | LList vs => forallb wf vs
  | LPoint h w => o h && o w
  | LRect l t r b => o l && o t && o r && o b
  | LPropList ps vs => bool_decide (length ps = length vs) && forallb wf ps && forallb wf vs
  | LDate d => bool_decide (length d = 8%nat)
  | L3dVector x y z =>
      forallb (fun w => (0 <=? w) && (w <? two32)) [x; y; z]
  | L3dTransform m =>
      bool_decide (length m = 16%nat) && forallb (fun w => (0 <=? w) && (w <? two32)) m
  | _ => true
  end.

Lemma wf_zero_value t : wf (zero_value t) = true.
Proof. unfold zero_value. repeat case_match; reflexivity. Qed.

Lemma wf_app l k : forallb wf l = true -> forallb wf k = true -> forallb wf (l ++ k) = true.
Proof. intros. rewrite forallb_app. by apply andb_true_intro. Qed.

Lemma wf_word w : 0 <= w < 256 ^ 4 -> (0 <=? w) && (w <? two32) = true.
Proof. intros. apply andb_true_intro. unfold two32. split; [apply Z.leb_le|apply Z.ltb_lt]; lia. Qed.

(** What a call of [ExtractFromBytes] must deliver. *)
Definition good (m : outcome (LValue * Z)) : Prop :=
  exists v c, m = Ret (v, c) /\ 0 <= c /\ wf v = true.

Lemma good_intro v c : 0 <= c -> wf v = true -> good (Ret (v, c)).
Proof. intros. by exists v, c. Qed.

#[export] Hint Resolve good_intro wf_zero_value wf_app : go.

(** Run the next big-endian read of the goal, with its range. *)
Ltac be_step w Hw :=
  match goal with
  | |- context [be_uint ?n ?raw ?off] =>
      let E := fresh "E" in
      destruct (be_uint_ret n raw off ltac:(lia) ltac:(lia)) as (w & E & Hw);
      rewrite E; clear E; cbn [mbind outcome_bind]; simpl Z.of_nat in Hw
  end.

(** ** Leaf kinds *)

Section Leaves.
Context (raw : bytes) (off : Z) (v : LValue).
Hypothesis Hoff : 0 <= off.
Hypothesis Hv : wf v = true.

Lemma LInteger_good : good (LInteger_ExtractFromBytes v raw off).
Proof.
  unfold LInteger_ExtractFromBytes. zcase; [|auto with go lia].
  be_step w Hw. apply good_intro; [lia|]. simpl.
  pose proof (int32_range w) as []. apply andb_true_intro.
  split; [by apply Z.leb_le|by apply Z.ltb_lt].
Qed.

Lemma LFloat_good : good (LFloat_ExtractFromBytes v raw off).
Proof.
  unfold LFloat_ExtractFromBytes. zcase; [|auto with go lia].
  be_step w Hw. apply good_intro; [lia|]. simpl. apply andb_true_intro.
  unfold two64. split; [apply Z.leb_le|apply Z.ltb_lt]; lia.
Qed.

Lemma extract_text_good mk :
  (forall s, wf (mk s) = true) -> good (extract_text mk v raw off).
Proof.
  intros Hmk. unfold extract_text. zcase; [auto with go lia|].
  be_step w Hw. zcase; [auto with go lia|].
  rewrite slice_ret by lia. cbn [mbind outcome_bind]. apply good_intro; [|auto].
  destruct (Z.odd w); lia.
Qed.

Lemma LPicture_good : good (LPicture_ExtractFromBytes v raw off).
Proof.
  unfold LPicture_ExtractFromBytes. zcase; [auto with go lia|].
  be_step w Hw. zcase; [auto with go lia|].
  rewrite slice_ret by lia. apply good_intro; [lia|done].
Qed.

Lemma LColor_good : good (LColor_ExtractFromBytes v raw off).
Proof.
  unfold LColor_ExtractFromBytes. zcase; [auto with go lia|].
  destruct (index_ret raw off) as [r ->]; [lia|].
  destruct (index_ret raw (off + 1)) as [g ->]; [lia|].
  destruct (index_ret raw (off + 2)) as [b ->]; [lia|].
  by apply good_intro; [lia|].
Qed.

Lemma LDate_good : good (LDate_ExtractFromBytes v raw off).
Proof.
  unfold LDate_ExtractFromBytes. zcase; [auto with go lia|].
  rewrite slice_ret by lia. apply good_intro; [lia|]. simpl.
  apply bool_decide_eq_true. rewrite length_take, length_drop. unfold zlen in *. lia.
Qed.

Lemma L3dVector_good : good (L3dVector_ExtractFromBytes v raw off).
Proof.
  unfold L3dVector_ExtractFromBytes. zcase; [auto with go lia|].
  be_step x Hx. be_step y Hy. be_step z Hz.
  apply good_intro; [lia|]. cbn [wf forallb]. by rewrite !wf_word by lia.
Qed.

Lemma L3dTransform_good : good (L3dTransform_ExtractFromBytes v raw off).
Proof.
  unfold L3dTransform_ExtractFromBytes. zcase; [auto with go lia|].
  assert (exists m,
    mapM_outcome (fun i : nat => be_uint 4 raw (off + Z.of_nat i * 4)) (seq 0 16) = Ret m /\
    length m = length (seq 0 16) /\
    forallb (fun w => (0 <=? w) && (w <? two32)) m = true) as (m & -> & Hl & Hm).
  { assert (forall k, (k ∈ seq 0 16)%nat -> (k < 16)%nat) as Hk.
    { intros k [? ?]%elem_of_seq. lia. }
    induction (seq 0 16) as [|k l IH]; [by exists []|].
    destruct IH as (m & Hm1 & Hm2 & Hm3); [intros; apply Hk; by right|].
    assert (k < 16)%nat by (apply Hk; left). simpl.
    be_step w Hw. rewrite Hm1. exists (w :: m).
    cbn [length forallb mbind outcome_bind]. by rewrite wf_word, Hm2, Hm3. }
  apply good_intro; [lia|]. cbn [wf]. rewrite Hm, andb_true_r.
  by apply bool_decide_eq_true.
Qed.
End Leaves.

(** ** Container kinds, given the recursive call *)

Section ContainersGood.
Variable ext : LValue -> bytes -> Z -> outcome (LValue * Z).
Context (raw : bytes) (off : Z).
Hypothesis Hoff : 0 <= off.
Hypothesis Hext : off + 2 <= zlen raw ->
  forall v o, wf v = true -> off + 2 <= o -> good (ext v raw o).

Lemma parse_elem_good o :
  off + 2 <= zlen raw -> off <= o -> good (parse_elem ext raw o).
Proof.
  intros Hlen Ho. unfold parse_elem, from_raw_with. zcase.
  - apply Hext; [done|done|lia].
  - be_step w Hw.
    destruct (Hext Hlen (zero_value (int16 w)) (o + 2)) as (v & c & -> & Hc & Hv);
      [auto with go|lia|].
    apply Hext; [done|done|lia].
Qed.

Lemma LList_loop_good fuel i count cur vals :
  off + 2 <= zlen raw -> off <= cur -> count - i <= Z.of_nat fuel ->
  forallb wf vals = true ->
  exists vs cur', LList_loop ext fuel i count raw cur vals = Ret (vs, cur') /\
    cur <= cur' /\ forallb wf vs = true /\
    zlen vs = zlen vals + Z.max 0 (count - i).
Proof.
  intros Hlen. revert i cur vals. induction fuel as [|fuel IH]; intros i cur vals Hcur Hn Hv;
    simpl; zcase; try (eexists _, _; split; [done|]; repeat split; [lia|done|lia]); [lia|].
  destruct (parse_elem_good cur) as (v & c & -> & Hc & Hvw); [lia..|].
  cbn [mbind outcome_bind fst snd].
  destruct (IH (i + 1) (cur + 2 + c) (vals ++ [v])) as (vs & cur' & -> & ? & ? & Hz);
    [lia..|apply wf_app; [done|]; simpl; by rewrite Hvw|].
  eexists _, _. split; [done|]. repeat split; [lia|done|]. rewrite Hz, zlen_app. zl.
Qed.

Lemma LList_good v : wf v = true -> good (LList_ExtractFromBytes ext v raw off).
Proof.
  intros Hv. unfold LList_ExtractFromBytes. zcase; [auto with go lia|].
  be_step n Hn. zcase; [auto with go lia|].
  destruct (LList_loop_good (length raw) 0 n (off + 4) []) as (vs & cur & -> & ? & ? & _);
    [lia..| |done|].
  { pose proof (Z.div_le_upper_bound (zlen raw - off - 4) 2 (zlen raw - off - 4)
                  ltac:(lia) ltac:(lia)). unfold zlen in *. lia. }
  apply good_intro; [simpl; lia|done].
Qed.

Lemma LPropList_loop_good fuel i n chunk ps vs :
  off + 2 <= zlen raw -> 0 <= chunk ->
  zlen raw - (off + chunk) <= Z.of_nat fuel ->
  length ps = length vs -> forallb wf ps = true -> forallb wf vs = true ->
  exists ps' vs' chunk', LPropList_loop ext fuel i n raw off chunk ps vs = Ret (ps', vs', chunk') /\
    chunk <= chunk' /\ length ps' = length vs' /\ forallb wf ps' = true /\ forallb wf vs' = true.
Proof.
  intros Hlen. revert i chunk ps vs.
  induction fuel as [|fuel IH]; intros i chunk ps vs Hc Hf Hl Hp Hv; simpl; zcase;
    try (eexists _, _, _; split; [done|]; repeat split; first [done|lia]); [lia|].
  destruct (parse_elem_good (off + chunk)) as (p & cp & -> & Hcp & Hpw); [lia..|].
  cbn [mbind outcome_bind fst snd]. zcase.
  { eexists _, _, _. split; [done|]. repeat split; first [done|lia]. }
  destruct (parse_elem_good (off + (chunk + 2 + cp))) as (e & ce & -> & Hce & Hew); [lia..|].
  cbn [mbind outcome_bind fst snd].
  destruct (IH (i + 1) (chunk + 2 + cp + 2 + ce) (ps ++ [p]) (vs ++ [e]))
    as (ps' & vs' & chunk' & -> & ? & ? & ? & ?);
    [lia|lia|rewrite !length_app; simpl; lia| | |].
  1, 2: apply wf_app; [done|]; simpl; by rewrite ?Hpw, ?Hew.
  eexists _, _, _. split; [done|]. repeat split; first [done|lia].
Qed.

Lemma LPropList_good ps vs :
  wf (LPropList ps vs) = true -> good (LPropList_ExtractFromBytes ext ps vs raw off).
Proof.
  intros Hw. unfold LPropList_ExtractFromBytes. zcase; [auto with go lia|].
  cbn [wf] in Hw. apply andb_prop in Hw as [Hw Hvs]. apply andb_prop in Hw as [Hl Hps].
  apply bool_decide_eq_true in Hl. be_step n Hn.
  destruct (LPropList_loop_good (length raw) 0 n 4 ps vs)
    as (ps' & vs' & c & -> & Hc & Hl' & Hps' & Hvs'); [lia|lia|unfold zlen in *; lia|done..|].
  apply good_intro; [simpl; lia|]. cbn [wf fst snd].
  rewrite Hps', Hvs', !andb_true_r. by apply bool_decide_eq_true.
Qed.

Lemma LPoint_good h v :
  wf (LPoint h v) = true -> good (LPoint_ExtractFromBytes ext h v raw off).
Proof.
  intros Hw. unfold LPoint_ExtractFromBytes. zcase; [auto with go lia|].
  cbn [wf] in Hw. apply andb_prop in Hw as [Hh Hv].
  destruct (parse_elem_good off) as (x & cx & -> & Hcx & Hx); [lia..|].
  cbn [mbind outcome_bind fst snd]. zcase.
  { apply good_intro; [lia|]. cbn [wf]. by rewrite Hx. }
  destruct (parse_elem_good (off + (2 + cx))) as (y & cy & -> & Hcy & Hy); [lia..|].
  apply good_intro; [simpl; lia|]. cbn [wf fst snd]. by rewrite Hx, Hy.
Qed.

Lemma LRect_loop_good fields consumed done :
  0 <= consumed ->
  Forall (fun o => opt_allb wf o = true) fields ->
  Forall (fun o => opt_allb wf o = true) done ->
  exists fs c, LRect_loop ext fields raw off consumed done = Ret (fs, c) /\ 0 <= c /\
    length fs = (length done + length fields)%nat /\
    Forall (fun o => opt_allb wf o = true) fs.
Proof.
  intros Hc Hf. revert consumed done Hc.
  induction Hf as [|f fields Hfw Hf IH]; intros consumed done Hc Hd; simpl.
  { eexists _, _. split; [reflexivity|]. repeat split; [done|lia|done]. }
  zcase.
  { eexists _, _. split; [reflexivity|]. repeat split; [lia| |].
    - rewrite length_app. simpl. lia.
    - apply Forall_app. split; [done|by constructor]. }
  destruct (parse_elem_good (off + consumed)) as (x & cx & -> & Hcx & Hx); [lia..|].
  cbn [mbind outcome_bind fst snd].
  destruct (IH (consumed + (2 + cx)) (done ++ [Some x])) as (fs & c & -> & ? & Hl & ?);
    [lia|apply Forall_app; by repeat constructor|].
  eexists _, _. split; [reflexivity|]. repeat split; [lia| |done].
  rewrite Hl, length_app. simpl. lia.
Qed.

Lemma LRect_good l t r b :
  wf (LRect l t r b) = true -> good (LRect_ExtractFromBytes ext l t r b raw off).
Proof.
  intros Hw. unfold LRect_ExtractFromBytes. cbn [wf] in Hw.
  repeat (apply andb_prop in Hw as [Hw ?]).
  destruct (LRect_loop_good [l; t; r; b] 0 []) as (fs & c & -> & Hc & Hl & Hfs);
    [lia|by repeat constructor|constructor|].
  cbn [mbind outcome_bind fst snd]. destruct fs as [|a [|d [|e [|g [|]]]]]; try done.
  apply good_intro; [done|]. cbn [wf].
  rewrite !Forall_cons_iff in Hfs. destruct Hfs as (Ha & Hd & He & Hg & _).
  unfold opt_allb in *. by rewrite Ha, Hd, He, Hg.
Qed.
End ContainersGood.

(** ** Totality of the parser *)

Lemma extract_total fuel v raw off :
  wf v = true -> 0 <= off -> Z.max 0 (zlen raw - off) < Z.of_nat fuel ->
  good (extract fuel v raw off).
Proof.
  revert v off. induction fuel as [|fuel IH]; intros v off Hv Hoff Hf; [lia|].
  assert (off + 2 <= zlen raw ->
    forall v o, wf v = true -> off + 2 <= o -> good (extract fuel v raw o)) as Hext.
  { intros Hl w o Hw Ho. apply IH; [done|lia|lia]. }
  destruct v; cbn [extract];
    auto using LInteger_good, LFloat_good, extract_text_good, LPicture_good, LColor_good,
      LDate_good, L3dVector_good, L3dTransform_good, LList_good, LPropList_good,
      LPoint_good, LRect_good, good_intro with lia;
    apply extract_text_good; auto.
Qed.

Lemma FromRawBytes_good raw off :
  0 <= off -> exists v, FromRawBytes raw off = Ret v /\ wf v = true.
Proof.
  intros Hoff. unfold FromRawBytes, from_raw_with, parse_fuel. zcase; [by eexists|].
  be_step w Hw.
  destruct (extract_total (S (S (length raw))) (zero_value (int16 w)) raw (off + 2))
    as (v & c & E & _ & Hv); [auto with go|lia|unfold zlen in *; lia|].
  rewrite E. by exists v.
Qed.

(** ** When serialising can fail *)

(** No unset coordinate anywhere in the value. *)
Fixpoint nil_free (v : LValue) : bool :=
  let o (x : option LValue) := match x with Some v => nil_free v | None => false end in
  match v with
  | LList vs => forallb nil_free vs
  | LPoint h w => o h && o w
  | LRect l t r b => o l && o t && o r && o b
  | LPropList ps vs => forallb nil_free ps && forallb nil_free vs
  | _ => true
  end.

Lemma Forall_returns_iff (f : LValue -> outcome bytes) (p q : LValue -> bool) vs :
  Forall (fun v => q v = true -> (returns (f v) <-> p v = true)) vs ->
  forallb q vs = true ->
  (Forall (fun v => returns (f v)) vs <-> forallb p vs = true).
Proof.
  induction 1 as [|v vs Hv _ IH]; cbn [forallb]; intros Hq.
  { split; [done|constructor]. }
  apply andb_prop in Hq as [Hqv Hq].
  rewrite Forall_cons_iff, andb_true_iff, Hv, IH by done. done.
Qed.

Lemma returns_bind_iff {A B} (m : outcome A) (f : A -> outcome B) :
  (forall a, returns (f a)) -> (returns (m ≫= f) <-> returns m).
Proof.
  intros Hf. split.
  - intros [b H]. apply bind_Ret_inv in H as (a & -> & _). apply returns_Ret.
  - intros [a ->]. apply Hf.
Qed.

Lemma returns_seq {A B} (m : outcome A) (f : A -> outcome B) (P : Prop) :
  (forall a, m = Ret a -> (returns (f a) <-> P)) -> (returns (m ≫= f) <-> returns m /\ P).
Proof.
  intros Hf. split.
  - intros [b H]. apply bind_Ret_inv in H as (a & Hm & Hb). split; [by exists a|].
    apply (Hf a Hm). by exists b.
  - intros [[a Hm] HP]. pose proof Hm as Hm'. rewrite Hm. by apply (Hf a Hm').
Qed.

Lemma opt_returns (o : option LValue) :
  opt_all (fun v => wf v = true -> (returns (GetBytes v) <-> nil_free v = true)) o ->
  match o with Some v => wf v | None => true end = true ->
  (returns (match o with Some v => GetBytes v | None => Panic end) <->
   match o with Some v => nil_free v | None => false end = true).
Proof. destruct o; simpl; [by auto|]. intros _ _. split; [by intros [? ?]|done]. Qed.

Lemma and_assoc_4 (A B C D : Prop) : ((A /\ B) /\ C) /\ D <-> A /\ B /\ C /\ D.
Proof. tauto. Qed.

Lemma GetBytes_returns v : wf v = true -> (returns (GetBytes v) <-> nil_free v = true).
Proof.
  induction v as [| | | | | |vs IH|h w IHh IHw|l t r b IHl IHt IHr IHb|ps vs IHp IHv| | | | |]
    using LValue_rect'; intros Hwf; try (split; [done|intros _; apply returns_Ret]);
    cbn [wf] in Hwf; cbn [GetBytes nil_free].
  - rewrite returns_bind_iff by auto with go. rewrite mapM_outcome_returns.
    by apply (Forall_returns_iff _ _ wf).
  - apply andb_prop in Hwf as [Hh Hw]. rewrite andb_true_iff.
    rewrite <- (opt_returns h), <- (opt_returns w) by done.
    apply returns_seq. intros a _. apply returns_bind_iff. auto with go.
  - repeat (apply andb_prop in Hwf as [Hwf ?]). rewrite !andb_true_iff.
    rewrite <- (opt_returns l), <- (opt_returns t), <- (opt_returns r), <- (opt_returns b) by done.
    etransitivity; [|symmetry; apply and_assoc_4].
    do 3 (apply returns_seq; intros ? _). apply returns_bind_iff. auto with go.
  - apply andb_prop in Hwf as [Hwf Hv]. apply andb_prop in Hwf as [Hl Hp].
    apply bool_decide_eq_true in Hl. rewrite returns_bind_iff by auto with go.
    rewrite zipM_outcome_returns, andb_true_iff by done.
    by rewrite !(Forall_returns_iff _ nil_free wf).
Qed.

(** ** Properties *)

(** C31. Parsing is total and memory-safe on arbitrary input: for every byte
    sequence and non-negative offset [FromRawBytes] terminates within its fuel,
    never indexes out of range, and returns a well-formed value, in particular
    one whose property lists have as many values as properties at every level. *)
Theorem FromRawBytes_total (raw : bytes) (off : Z) :
  0 <= off -> exists v, FromRawBytes raw off = Ret v /\ wf v = true.
Proof. apply FromRawBytes_good. Qed.

(** The theorem at a property list that ends inside its second entry. *)
Lemma FromRawBytes_total_witness :
  exists v, FromRawBytes (PutUint16 10 ++ PutUint32 2 ++ PutUint16 0 ++ PutUint16 0 ++ PutUint16 1) 0 = Ret v
    /\ wf v = true.
Proof. apply (FromRawBytes_total _ 0). lia. Defined.

(** Serialising a well-formed value panics exactly when some coordinate of a
    point or rectangle in it was never set; no other value makes [GetBytes]
    fail. *)
Theorem GetBytes_panics_iff (v : LValue) :
  wf v = true -> (returns (GetBytes v) <-> nil_free v = true).
Proof. apply GetBytes_returns. Qed.

Lemma GetBytes_panics_iff_witness :
  wf (LList [LPoint (Some LVoid) None]) = true /\
  ~ returns (GetBytes (LList [LPoint (Some LVoid) None])).
Proof.
  split; [reflexivity|]. intros H.
  apply (GetBytes_panics_iff (LList [LPoint (Some LVoid) None]) eq_refl) in H.
  discriminate H.
Defined.

(** A point that is cut off right after its tag is accepted by the parser
    with both coordinates unset, and serialising or printing the result
    panics: such a value cannot be echoed, stored or logged. *)
Theorem truncated_point_panics (pre post : bytes) :
  zlen post < 2 ->
  FromRawBytes (pre ++ PutUint16 VtPoint ++ post) (zlen pre) = Ret (LPoint None None) /\
  GetBytes (LPoint None None) = Panic /\ String_ (LPoint None None) = Panic.
Proof.
  intros Hp. repeat split. unfold FromRawBytes, from_raw_with, PutUint16.
  rewrite (proj2 (Z.ltb_ge _ _)) by zl. rewrite be_uint_put by done.
  cbn [mbind outcome_bind]. change (int16 _) with VtPoint.
  unfold parse_fuel. cbn [extract zero_value Z.eqb VtPoint].
  change (zero_value VtPoint) with (LPoint None None). cbn [extract].
  unfold LPoint_ExtractFromBytes. rewrite (proj2 (Z.ltb_lt _ _)) by zl. reflexivity.
Qed.

Lemma truncated_point_panics_witness :
  zlen [Byte.x01] < 2 /\
  FromRawBytes ([] ++ PutUint16 VtPoint ++ [Byte.x01]) 0 = Ret (LPoint None None).
Proof.
  split; [reflexivity|]. apply (truncated_point_panics [] [Byte.x01]). reflexivity.
Defined.

(** ** No method needs fuel

    The methods on values recurse structurally: they return or panic. *)

Lemma fueled_index {A} (l : list A) i : fueled (index l i).
Proof. unfold index. destruct (0 <=? i); [|done]. by destruct (l !! _). Qed.

Lemma fueled_slice {A} (l : list A) a b : fueled (slice l a b).
Proof. unfold slice. by destruct (_ && _). Qed.

Lemma fueled_mapM {A B} (f : A -> outcome B) l :
  Forall (fun x => fueled (f x)) l -> fueled (mapM_outcome f l).
Proof. induction 1; cbn [mapM_outcome]; auto with fuel. Qed.

Lemma fueled_zipM {A B} (f : A -> outcome B) l k :
  Forall (fun x => fueled (f x)) l -> Forall (fun x => fueled (f x)) k -> fueled (zipM_outcome f l k).
Proof.
  unfold zipM_outcome. intros Hl. revert k.
  induction Hl as [|x l Hx _ IH]; intros k Hk; [done|]. destruct Hk as [|y k Hy Hk]; [done|].
  cbn [map zip_calls]. apply fueled_bind; [done|]. intros a _. apply fueled_bind; [done|]. intros b _.
  apply fueled_bind; [by apply IH|]. done.
Qed.

Lemma fueled_opt {A} (f : LValue -> outcome A) (o : option LValue) :
  opt_all (fun v => fueled (f v)) o -> fueled (match o with Some v => f v | None => Panic end).
Proof. by destruct o. Qed.

Lemma fueled_GetBytes v : fueled (GetBytes v).
Proof.
  induction v using LValue_rect'; cbn [GetBytes]; auto with fuel.
  - apply fueled_bind; [by apply fueled_mapM|done].
  - apply fueled_bind; [by apply fueled_opt|]. intros. apply fueled_bind; [by apply fueled_opt|done].
  - repeat (apply fueled_bind; [by apply fueled_opt|intros]). done.
  - apply fueled_bind; [by apply fueled_zipM|done].
Qed.

Lemma fueled_String v : fueled (String_ v).
Proof.
  induction v using LValue_rect'; cbn [String_]; auto with fuel.
  - apply fueled_bind; [by apply fueled_opt|]. intros. apply fueled_bind; [by apply fueled_opt|done].
  - repeat (apply fueled_bind; [by apply fueled_opt|intros]). done.
  - apply fueled_bind; [by apply fueled_zipM|done].
Qed.

Lemma fueled_StringValue v : fueled (StringValue v).
Proof. destruct v; cbn [StringValue]; auto using fueled_String with fuel. Qed.

Lemma fueled_GetElement ps vs n : fueled (GetElement ps vs n).
Proof.
  unfold GetElement. generalize 0. induction ps as [|p ps IH]; intros i; cbn [GetElement_loop]; [done|].
  apply fueled_bind; [apply fueled_String|]. intros s _. destruct (prop_matches n s); [|apply IH].
  apply fueled_bind; [apply fueled_index|done].
Qed.

#[export] Hint Resolve fueled_index fueled_slice fueled_GetBytes fueled_String fueled_StringValue
  fueled_GetElement : fuel.

Lemma fueled_call {A} (f : LValue -> outcome A) o : (forall v, fueled (f v)) -> fueled (call f o).
Proof. intros Hf. destruct o; [apply Hf|done]. Qed.

#[export] Hint Resolve fueled_call : fuel.
