(* ===== verification/LRoundtrip.v ===== *)
(** * Serialising and reparsing Lingo values

    [payload] and [wire] are the reference format: a two-byte tag and a payload
    per value. [GetBytes_wire] shows that [GetBytes] writes it, and
    [FromRawBytes_wire] what the parser makes of it, for every encodable value:
    [parsed_top v]. The parser extracts the elements of a container twice, and a
    property list appends on each extraction, so a property list inside another
    container comes back with its entries doubled; [roundtrip_iff] says that
    these values are the only ones that do not survive the round trip. *)

From Stdlib Require Import ZArith Lia.
From stdpp Require Import base list strings option.
From S2P Require Import Prelude GoFmt LValue LExtract LParse.

Open Scope Z_scope.

(** ** Values the format can carry *)

Definition enc_opt (p : LValue -> bool) (o : option LValue) : bool :=
  match o with Some v => p v | None => false end.

(** No media (it has no wire form), no unset coordinate, lengths that fit their
    32-bit prefix, and otherwise well-formed. *)
Fixpoint encodable (v : LValue) : bool :=
  let o (x : option LValue) := match x with Some v => encodable v | None => false end in
  match v with
  | LSymbol s | LString s => slen s <? two32
  | LPicture d => zlen d <? two32
  | LList vs => (zlen vs <? two32) && forallb encodable vs
  | LPoint h w => o h && o w
  | LRect l t r b => o l && o t && o r && o b
  | LPropList ps vs =>
      bool_decide (length ps = length vs) && (zlen ps <? two32) &&
      forallb encodable ps && forallb encodable vs
  | LMedia _ => false
  | _ => wf v
  end.

(** ** The reference format *)

Definition opt_bytes (f : LValue -> bytes) (o : option LValue) : bytes :=
  match o with Some v => f v | None => [] end.

Fixpoint payload (v : LValue) : bytes :=
  let w (v : LValue) := PutUint16 (GetType v) ++ payload v in
  let ow (o : option LValue) :=
    match o with Some v => PutUint16 (GetType v) ++ payload v | None => [] end in
  match v with
  | LVoid | LMedia _ => []
  | LInteger z => PutUint32 (uint32 z)
  | LSymbol s | LString s => padded (bytes_of_string s)
  | LPicture d => PutUint32 (uint32 (zlen d)) ++ d
  | LFloat f => PutUint64 f
  | LList vs => PutUint32 (uint32 (zlen vs)) ++ concat (map w vs)
  | LPoint h v => ow h ++ ow v
  | LRect l t r b => ow l ++ ow t ++ ow r ++ ow b
  | LPropList ps vs =>
      PutUint32 (uint32 (zlen ps)) ++ concat (zip_with app (map w ps) (map w vs))
  | LColor r g b => [r; g; b; Byte.x00]
  | LDate d => d
  | L3dVector x y z => PutUint32 x ++ PutUint32 y ++ PutUint32 z
  | L3dTransform m => concat (PutUint32 <$> m)
  end.

Definition wire (v : LValue) : bytes := PutUint16 (GetType v) ++ payload v.

#[local] Arguments wire : simpl never.

(** ** What the parser makes of it *)

(** A value inside a container: extracted twice over the same receiver. *)
Fixpoint parsed_elem (v : LValue) : LValue :=
  let o (x : option LValue) := match x with Some v => Some (parsed_elem v) | None => None end in
  match v with
  | LList vs => LList (map parsed_elem vs)
  | LPoint h w => LPoint (o h) (o w)
  | LRect l t r b => LRect (o l) (o t) (o r) (o b)
  | LPropList ps vs =>
      LPropList (map parsed_elem ps ++ map parsed_elem ps)
                (map parsed_elem vs ++ map parsed_elem vs)
  | _ => v
  end.

(** A value at the top of a message: extracted once. *)
Definition parsed_top (v : LValue) : LValue :=
  match v with
  | LPropList ps vs => LPropList (map parsed_elem ps) (map parsed_elem vs)
  | _ => parsed_elem v
  end.

(** Extracting [v]'s payload over a receiver [w] of the same kind. *)
Definition reextract (w v : LValue) : LValue :=
  match w, v with
  | LPropList ps0 vs0, LPropList ps vs =>
      LPropList (ps0 ++ map parsed_elem ps) (vs0 ++ map parsed_elem vs)
  | _, _ => parsed_elem v
  end.

Lemma reextract_zero v : reextract (zero_value (GetType v)) v = parsed_top v.
Proof. destruct v; reflexivity. Qed.

Lemma reextract_top v : reextract (parsed_top v) v = parsed_elem v.
Proof. destruct v; reflexivity. Qed.

Lemma GetType_zero v : GetType (zero_value (GetType v)) = GetType v.
Proof. destruct v; reflexivity. Qed.

Lemma GetType_top v : GetType (parsed_top v) = GetType v.
Proof. destruct v; reflexivity. Qed.

Lemma GetType_tag v : int16 (GetType v mod 256 ^ 2) = GetType v.
Proof. destruct v; reflexivity. Qed.

Lemma zlen_wire v : zlen (wire v) = 2 + zlen (payload v).
Proof. unfold wire, PutUint16. zl. Qed.

Lemma uint32_small z : 0 <= z < two32 -> uint32 z mod 256 ^ 4 = z.
Proof.
  intros. change (256 ^ 4) with two32. unfold uint32.
  by rewrite Zmod_mod, Z.mod_small.
Qed.

(** ** Reading back a leaf *)

Section ReadBack.
Context (pre post : bytes) (w : LValue).

Lemma read_LInteger z :
  in_int32 z ->
  LInteger_ExtractFromBytes w (pre ++ PutUint32 (uint32 z) ++ post) (zlen pre) =
  Ret (LInteger z, 4).
Proof.
  intros Hz. unfold LInteger_ExtractFromBytes, PutUint32.
  rewrite (proj2 (Z.leb_le _ _)) by zl. rewrite be_uint_put by done.
  cbn [mbind outcome_bind]. change (256 ^ Z.of_nat 4) with two32.
  change (uint32 z mod two32) with (uint32 (uint32 z)).
  by rewrite int32_uint32, int32_uint32, int32_id.
Qed.

Lemma read_LFloat f :
  0 <= f < two64 ->
  LFloat_ExtractFromBytes w (pre ++ PutUint64 f ++ post) (zlen pre) = Ret (LFloat f, 8).
Proof.
  intros Hf. unfold LFloat_ExtractFromBytes, PutUint64.
  rewrite (proj2 (Z.leb_le _ _)) by zl. rewrite be_uint_put by done.
  cbn [mbind outcome_bind]. unfold two64 in Hf. by rewrite Z.mod_small by (simpl; lia).
Qed.

Lemma read_text mk s :
  slen s < two32 ->
  extract_text mk w (pre ++ padded (bytes_of_string s) ++ post) (zlen pre) =
  Ret (mk s, zlen (padded (bytes_of_string s))).
Proof.
  unfold slen. intros Hs. unfold extract_text, padded, PutUint32.
  set (b := bytes_of_string s) in *. set (pad := if Z.odd (zlen b) then _ else _).
  assert (zlen pad = if Z.odd (zlen b) then 1 else 0) as Hpad by (unfold pad; by case_match).
  rewrite <- !app_assoc. rewrite (proj2 (Z.ltb_ge _ _)) by zl.
  rewrite be_uint_put by done. cbn [mbind outcome_bind]. simpl Z.of_nat.
  rewrite uint32_small by (split; [apply zlen_nonneg|done]).
  rewrite (proj2 (Z.ltb_ge _ _)) by zl.
  rewrite (app_assoc pre).
  rewrite slice_app by zl. cbn [mbind outcome_bind].
  unfold b. rewrite string_of_bytes_of_string. do 2 f_equal.
  fold b. autorewrite with zlen. rewrite Hpad. simpl Z.of_nat. case_match; lia.
Qed.

Lemma read_LPicture d :
  zlen d < two32 ->
  LPicture_ExtractFromBytes w (pre ++ (PutUint32 (uint32 (zlen d)) ++ d) ++ post) (zlen pre) =
  Ret (LPicture d, 4 + zlen d).
Proof.
  intros Hd. unfold LPicture_ExtractFromBytes, PutUint32. rewrite <- !app_assoc.
  rewrite (proj2 (Z.ltb_ge _ _)) by zl. rewrite be_uint_put by done.
  cbn [mbind outcome_bind]. simpl Z.of_nat.
  rewrite uint32_small by (split; [apply zlen_nonneg|done]).
  rewrite (proj2 (Z.ltb_ge _ _)) by zl.
  rewrite (app_assoc pre). rewrite slice_app by zl. reflexivity.
Qed.

Lemma read_LColor r g b :
  LColor_ExtractFromBytes w (pre ++ [r; g; b; Byte.x00] ++ post) (zlen pre) =
  Ret (LColor r g b, 4).
Proof.
  unfold LColor_ExtractFromBytes. rewrite (proj2 (Z.ltb_ge _ _)) by (simpl; zl).
  change ([r; g; b; Byte.x00] ++ post) with (r :: g :: b :: Byte.x00 :: post).
  rewrite (index_app pre r _ (zlen pre)) by done. rewrite (cons_middle r), app_assoc.
  rewrite (index_app (pre ++ [r]) g _ (zlen pre + 1)) by zl. rewrite (cons_middle g), app_assoc.
  by rewrite (index_app ((pre ++ [r]) ++ [g]) b _ (zlen pre + 2)) by zl.
Qed.

Lemma read_LDate d :
  length d = 8%nat ->
  LDate_ExtractFromBytes w (pre ++ d ++ post) (zlen pre) = Ret (LDate d, 8).
Proof.
  intros Hd. assert (zlen d = 8) by (unfold zlen; lia). unfold LDate_ExtractFromBytes.
  rewrite (proj2 (Z.ltb_ge _ _)) by zl. by rewrite slice_app by lia.
Qed.

Lemma read_word z k l :
  k = zlen pre -> in_uint32 z -> be_uint 4 (pre ++ PutUint32 z ++ l) k = Ret z.
Proof.
  intros -> Hz. unfold PutUint32. rewrite be_uint_put by done.
  change (256 ^ Z.of_nat 4) with two32. by rewrite Z.mod_small.
Qed.
End ReadBack.

Lemma read_L3dVector pre post w x y z :
  in_uint32 x -> in_uint32 y -> in_uint32 z ->
  L3dVector_ExtractFromBytes w
    (pre ++ (PutUint32 x ++ PutUint32 y ++ PutUint32 z) ++ post) (zlen pre) =
  Ret (L3dVector x y z, 12).
Proof.
  intros Hx Hy Hz. unfold L3dVector_ExtractFromBytes. rewrite <- !app_assoc.
  rewrite (proj2 (Z.ltb_ge _ _)) by (unfold PutUint32; zl).
  rewrite (read_word pre x (zlen pre)) by done. cbn [mbind outcome_bind].
  rewrite (app_assoc pre), (read_word _ y (zlen pre + 4)); [|unfold PutUint32; zl|done].
  cbn [mbind outcome_bind].
  rewrite (app_assoc (pre ++ _)), (read_word _ z (zlen pre + 8)); [done|unfold PutUint32; zl|done].
Qed.

Lemma read_words pre post m i :
  Forall in_uint32 m ->
  mapM_outcome (fun k : nat => be_uint 4 (pre ++ concat (PutUint32 <$> m) ++ post)
      (zlen pre - Z.of_nat i * 4 + Z.of_nat k * 4)) (seq i (length m)) = Ret m.
Proof.
  intros Hm. revert pre i. induction Hm as [|z m Hz Hm IH]; intros pre i; [done|].
  cbn [length seq mapM_outcome fmap list_fmap concat]. rewrite <- app_assoc.
  rewrite read_word by (done || lia). cbn [mbind outcome_bind].
  rewrite (app_assoc pre). specialize (IH (pre ++ PutUint32 z) (S i)).
  assert (zlen (pre ++ PutUint32 z) - Z.of_nat (S i) * 4 = zlen pre - Z.of_nat i * 4) as E
    by (unfold PutUint32; zl).
  rewrite E in IH. by rewrite IH.
Qed.

Lemma zlen_words m : zlen (concat (PutUint32 <$> m)) = 4 * zlen m.
Proof.
  induction m as [|z m IH]; [done|]. cbn [fmap list_fmap concat].
  unfold PutUint32 at 1. zl.
Qed.

Lemma read_L3dTransform pre post w m :
  length m = 16%nat -> Forall in_uint32 m ->
  L3dTransform_ExtractFromBytes w (pre ++ concat (PutUint32 <$> m) ++ post) (zlen pre) =
  Ret (L3dTransform m, 64).
Proof.
  intros Hl Hm. unfold L3dTransform_ExtractFromBytes.
  assert (zlen m = 16) by (unfold zlen; lia). pose proof (zlen_words m).
  rewrite (proj2 (Z.ltb_ge _ _)) by zl.
  pose proof (read_words pre post m 0 Hm) as E. rewrite Hl in E.
  replace (zlen pre - Z.of_nat 0 * 4) with (zlen pre) in E by lia. by rewrite E.
Qed.

(** ** Reading back the elements of a container *)

(** [v]'s payload is read back, over any receiver of its kind, by a parser with
    [n] levels left. *)
Definition reads (n : nat) (v : LValue) : Prop :=
  forall w pre post, GetType w = GetType v ->
    extract n w (pre ++ payload v ++ post) (zlen pre) =
    Ret (reextract w v, zlen (payload v)).

Section ReadContainers.
Context (n : nat).

Lemma parse_elem_wire v pre post k :
  reads n v -> k = zlen pre ->
  parse_elem (extract n) (pre ++ wire v ++ post) k = Ret (parsed_elem v, zlen (payload v)).
Proof.
  intros Hv ->. unfold parse_elem, from_raw_with.
  assert (0 <= zlen (payload v)) by apply zlen_nonneg.
  rewrite (proj2 (Z.ltb_ge _ _)) by (rewrite !zlen_app, zlen_wire; zl).
  unfold wire, PutUint16. rewrite <- !app_assoc.
  rewrite be_uint_put by done. cbn [mbind outcome_bind].
  simpl Z.of_nat. rewrite GetType_tag.
  rewrite (app_assoc pre). assert (zlen pre + 2 = zlen (pre ++ be_put 2 (GetType v))) as -> by zl.
  rewrite Hv by apply GetType_zero. cbn [mbind outcome_bind fst].
  rewrite reextract_zero, Hv by apply GetType_top. by rewrite reextract_top.
Qed.

Lemma LList_loop_step fuel i count raw cur vals :
  i < count ->
  LList_loop (extract n) (S fuel) i count raw cur vals =
  (r ← parse_elem (extract n) raw cur;
   LList_loop (extract n) fuel (i + 1) count raw (cur + 2 + r.2) (vals ++ [r.1])).
Proof. intros H. cbn [LList_loop]. by rewrite (proj2 (Z.ltb_lt _ _)). Qed.

Lemma LList_loop_wire vs i count fuel pre post cur acc :
  Forall (reads n) vs -> count = i + zlen vs -> (length vs <= fuel)%nat -> cur = zlen pre ->
  LList_loop (extract n) fuel i count (pre ++ concat (map wire vs) ++ post) cur acc =
  Ret (acc ++ map parsed_elem vs, cur + zlen (concat (map wire vs))).
Proof.
  intros Hvs. revert i fuel pre cur acc.
  induction Hvs as [|v vs Hv _ IH]; intros i fuel pre cur acc Hc Hf Hcur.
  - rewrite zlen_nil in Hc. destruct fuel; simpl; rewrite (proj2 (Z.ltb_ge _ _)) by lia;
      by rewrite app_nil_r, zlen_nil, Z.add_0_r.
  - pose proof (zlen_nonneg vs). rewrite zlen_cons in Hc.
    destruct fuel as [|fuel]; [simpl in Hf; lia|]. cbn [LList_loop map concat].
    rewrite (proj2 (Z.ltb_lt _ _)) by lia. rewrite <- app_assoc.
    rewrite parse_elem_wire by done. cbn [mbind outcome_bind fst snd].
    rewrite (app_assoc pre). rewrite IH; [|lia|simpl in Hf; lia|rewrite zlen_app, zlen_wire; lia].
    rewrite <- app_assoc, zlen_app, zlen_wire. cbn [app]. do 2 f_equal. lia.
Qed.

Lemma LPropList_loop_wire ps vs i count fuel pre post off chunk accp accv :
  Forall (reads n) ps -> Forall (reads n) vs -> length ps = length vs ->
  count = i + zlen ps -> (length ps <= fuel)%nat -> off + chunk = zlen pre ->
  LPropList_loop (extract n) fuel i count
    (pre ++ concat (zip_with app (map wire ps) (map wire vs)) ++ post) off chunk accp accv =
  Ret (accp ++ map parsed_elem ps, accv ++ map parsed_elem vs,
       chunk + zlen (concat (zip_with app (map wire ps) (map wire vs)))).
Proof.
  intros Hps. revert vs i fuel pre chunk accp accv.
  induction Hps as [|p ps Hp _ IH]; intros [|v vs] i fuel pre chunk accp accv Hvs Hl Hc Hf Hoff;
    try discriminate Hl; cbn [map zip_with concat] in *.
  - destruct fuel; cbn [LPropList_loop]; rewrite (proj2 (Z.ltb_ge _ _)) by (rewrite zlen_nil in Hc; lia);
      by rewrite !app_nil_r, zlen_nil, Z.add_0_r.
  - injection Hl as Hl. cbn [length] in Hf.
    apply Forall_cons_iff in Hvs as [Hv Hvs]. pose proof (zlen_nonneg ps).
    pose proof (zlen_nonneg (payload p)). pose proof (zlen_nonneg (payload v)).
    pose proof (zlen_nonneg post).
    set (tl := concat (zip_with app (map wire ps) (map wire vs))) in *.
    pose proof (zlen_nonneg tl).
    rewrite zlen_cons in Hc. destruct fuel as [|fuel]; [lia|]. cbn [LPropList_loop].
    rewrite (proj2 (Z.ltb_lt _ _)) by lia. rewrite <- !app_assoc.
    rewrite (proj2 (Z.ltb_ge _ _)) by (rewrite !zlen_app, !zlen_wire; lia).
    rewrite parse_elem_wire by done. cbn [mbind outcome_bind fst snd].
    rewrite (proj2 (Z.ltb_ge _ _)) by (rewrite !zlen_app, !zlen_wire; lia).
    rewrite (app_assoc pre).
    rewrite parse_elem_wire; [|done|rewrite zlen_app, zlen_wire; lia].
    cbn [mbind outcome_bind fst snd]. rewrite (app_assoc (pre ++ wire p)).
    unfold tl. rewrite IH; [|done|done|lia|lia|rewrite !zlen_app, !zlen_wire; lia].
    rewrite <- !app_assoc, !zlen_app, !zlen_wire. cbn [app]. do 2 f_equal. lia.
Qed.

Lemma LRect_loop_wire vs fields pre post off consumed done :
  Forall (reads n) vs -> length fields = length vs -> off + consumed = zlen pre ->
  LRect_loop (extract n) fields (pre ++ concat (map wire vs) ++ post) off consumed done =
  Ret (done ++ map (fun v => Some (parsed_elem v)) vs, consumed + zlen (concat (map wire vs))).
Proof.
  intros Hvs. revert fields pre consumed done.
  induction Hvs as [|v vs Hv _ IH]; intros [|f fields] pre consumed done Hl Hoff;
    try discriminate Hl; cbn [map concat LRect_loop].
  - by rewrite app_nil_r, zlen_nil, Z.add_0_r.
  - injection Hl as Hl. pose proof (zlen_nonneg (payload v)).
    pose proof (zlen_nonneg (concat (map wire vs))).
    pose proof (zlen_nonneg post). rewrite <- app_assoc.
    rewrite (proj2 (Z.ltb_ge _ _)) by (rewrite !zlen_app, zlen_wire; lia).
    rewrite parse_elem_wire by (exact Hv || lia). cbn [mbind outcome_bind fst snd].
    rewrite (app_assoc pre). rewrite IH; [|exact Hl|rewrite zlen_app, zlen_wire; lia].
    rewrite <- app_assoc, zlen_app, zlen_wire. cbn [app]. do 2 f_equal. lia.
Qed.
End ReadContainers.

(** Each element takes at least its two tag bytes, so the counts stay within the
    bounds the parser checks. *)
Lemma zlen_wires vs : 2 * zlen vs <= zlen (concat (map wire vs)).
Proof.
  induction vs as [|v vs IH]; [done|]. cbn [map concat].
  rewrite zlen_cons, zlen_app, zlen_wire. pose proof (zlen_nonneg (payload v)). lia.
Qed.

Lemma zlen_wires2 ps vs :
  length ps = length vs ->
  4 * zlen ps <= zlen (concat (zip_with app (map wire ps) (map wire vs))).
Proof.
  revert vs. induction ps as [|p ps IH]; intros [|v vs] Hl; try discriminate Hl; [done|].
  injection Hl as Hl. cbn [map zip_with concat].
  specialize (IH vs Hl). rewrite zlen_cons, !zlen_app, !zlen_wire.
  pose proof (zlen_nonneg (payload v)). pose proof (zlen_nonneg (payload p)). lia.
Qed.

Lemma zlen_wire_in vs v : v ∈ vs -> zlen (wire v) <= zlen (concat (map wire vs)).
Proof.
  induction 1 as [v vs|v w vs _ IH]; cbn [map concat]; rewrite zlen_app.
  - pose proof (zlen_nonneg (concat (map wire vs))). lia.
  - pose proof (zlen_nonneg (wire w)). lia.
Qed.

Lemma zlen_wire_in2 ps vs v :
  length ps = length vs -> v ∈ ps \/ v ∈ vs ->
  zlen (wire v) <= zlen (concat (zip_with app (map wire ps) (map wire vs))).
Proof.
  revert vs. induction ps as [|p ps IH]; intros [|w vs] Hl Hv; try discriminate Hl.
  { destruct Hv as [Hv|Hv]; inversion Hv. }
  injection Hl as Hl. cbn [map zip_with concat].
  rewrite !zlen_app. pose proof (zlen_nonneg (wire p)). pose proof (zlen_nonneg (wire w)).
  pose proof (zlen_nonneg (concat (zip_with app (map wire ps) (map wire vs)))).
  rewrite !elem_of_cons in Hv. destruct Hv as [[->|Hv]|[->|Hv]]; [lia| |lia|].
  all: specialize (IH vs Hl ltac:(tauto)); lia.
Qed.

(** ** The whole format *)

Lemma forallb_Forall_impl (p : LValue -> bool) (P : LValue -> Prop) vs :
  Forall (fun v => p v = true -> P v) vs -> forallb p vs = true -> Forall P vs.
Proof.
  induction 1 as [|v vs Hv _ IH]; simpl; intros Hp; [constructor|].
  apply andb_prop in Hp as [? ?]. constructor; auto.
Qed.

Lemma GetBytes_wire v : encodable v = true -> GetBytes v = Ret (wire v).
Proof.
  induction v as [| | | | | |vs IH|h w IHh IHw|l t r b IHl IHt IHr IHb|ps vs IHp IHv| | | | |]
    using LValue_rect'; intros He; try reflexivity; try discriminate He.
  - cbn [encodable] in He. apply andb_prop in He as [_ He].
    cbn [GetBytes]. rewrite (mapM_outcome_Ret _ wire).
    + cbn [mbind outcome_bind]. unfold LList_GetBytes. by rewrite zlen_fmap.
    + by apply (forallb_Forall_impl encodable).
  - destruct h as [h|], w as [w|]; try discriminate He.
    all: cbn [encodable] in He; apply andb_prop in He as [Hh Hw]; try discriminate.
    cbn [GetBytes]. by rewrite IHh, IHw.
  - cbn [encodable] in He. repeat (apply andb_prop in He as [He ?]).
    destruct l as [l|], t as [t|], r as [r|], b as [b|]; try discriminate.
    cbn [GetBytes]. by rewrite IHl, IHt, IHr, IHb.
  - cbn [encodable] in He. apply andb_prop in He as [He Hvs]. apply andb_prop in He as [He Hps].
    apply andb_prop in He as [Hl _]. apply bool_decide_eq_true in Hl.
    cbn [GetBytes].
    rewrite (zipM_outcome_Ret _ wire); [|done|by apply (forallb_Forall_impl encodable)..].
    cbn [mbind outcome_bind]. unfold LPropList_GetBytes, wire. do 2 f_equal.
    cbn [payload]. fold wire. f_equal.
    + do 2 f_equal. unfold zlen. rewrite length_zip_with, !length_fmap. lia.
    + f_equal. clear. revert vs. induction ps as [|p ps IH]; intros [|v vs]; try done.
      cbn [fmap list_fmap zip_with map]. f_equal. apply IH.
Qed.

Section ReadsAll.
Context (n : nat).

Lemma reads_LList vs :
  zlen vs < two32 -> Forall (reads n) vs -> reads (S n) (LList vs).
Proof.
  intros Hz Hvs w pre post Hw. destruct w; try discriminate Hw. cbn [extract].
  change (payload (LList vs)) with (PutUint32 (uint32 (zlen vs)) ++ concat (map wire vs)).
  unfold LList_ExtractFromBytes, PutUint32. pose proof (zlen_wires vs).
  pose proof (zlen_nonneg vs). pose proof (zlen_nonneg post).
  assert (0 <= zlen pre) by apply zlen_nonneg.
  rewrite (proj2 (Z.ltb_ge _ _)) by zl. rewrite <- app_assoc.
  rewrite be_uint_put by done. cbn [mbind outcome_bind]. simpl Z.of_nat.
  rewrite uint32_small by done.
  rewrite (proj2 (Z.ltb_ge _ _)) by (apply Z.div_le_lower_bound; [lia|zl]).
  rewrite (app_assoc pre).
  rewrite LList_loop_wire; [|done|lia|rewrite !length_app; unfold zlen in *; lia|zl].
  cbn [mbind outcome_bind fst snd reextract app parsed_elem]. do 2 f_equal. zl.
Qed.

Lemma reads_LPropList ps vs :
  zlen ps < two32 -> length ps = length vs ->
  Forall (reads n) ps -> Forall (reads n) vs -> reads (S n) (LPropList ps vs).
Proof.
  intros Hz Hl Hps Hvs w pre post Hw. destruct w as [| | | | | | | | |ps0 vs0| | | | |];
    try discriminate Hw. cbn [extract].
  change (payload (LPropList ps vs))
    with (PutUint32 (uint32 (zlen ps)) ++ concat (zip_with app (map wire ps) (map wire vs))).
  unfold LPropList_ExtractFromBytes, PutUint32. pose proof (zlen_wires2 ps vs Hl).
  pose proof (zlen_nonneg ps). pose proof (zlen_nonneg post).
  rewrite (proj2 (Z.ltb_ge _ _)) by zl. rewrite <- app_assoc.
  rewrite be_uint_put by done. cbn [mbind outcome_bind]. simpl Z.of_nat.
  rewrite uint32_small by done. rewrite (app_assoc pre).
  rewrite LPropList_loop_wire;
    [|done|done|done|lia|rewrite !length_app; unfold zlen in *; lia|zl].
  cbn [mbind outcome_bind fst snd reextract]. do 2 f_equal. zl.
Qed.

Lemma reads_LPoint h v :
  reads n h -> reads n v -> reads (S n) (LPoint (Some h) (Some v)).
Proof.
  intros Hh Hv w pre post Hw. destruct w; try discriminate Hw. cbn [extract].
  change (payload (LPoint (Some h) (Some v))) with (wire h ++ wire v).
  unfold LPoint_ExtractFromBytes. pose proof (zlen_nonneg post).
  pose proof (zlen_nonneg (payload h)). pose proof (zlen_nonneg (payload v)).
  rewrite (proj2 (Z.ltb_ge _ _)) by (rewrite !zlen_app, !zlen_wire; lia).
  rewrite <- app_assoc, parse_elem_wire by done. cbn [mbind outcome_bind fst snd].
  rewrite (proj2 (Z.ltb_ge _ _)) by (rewrite !zlen_app, !zlen_wire; lia).
  rewrite (app_assoc pre), parse_elem_wire; [|done|rewrite zlen_app, zlen_wire; lia].
  cbn [mbind outcome_bind fst snd reextract parsed_elem].
  by rewrite zlen_app, !zlen_wire.
Qed.

Lemma reads_LRect l t r b :
  reads n l -> reads n t -> reads n r -> reads n b ->
  reads (S n) (LRect (Some l) (Some t) (Some r) (Some b)).
Proof.
  intros Hl Ht Hr Hb w pre post Hw. destruct w; try discriminate Hw. cbn [extract].
  change (payload (LRect (Some l) (Some t) (Some r) (Some b)))
    with (wire l ++ wire t ++ wire r ++ wire b).
  replace (wire l ++ wire t ++ wire r ++ wire b) with (concat (map wire [l; t; r; b]))
    by (cbn [map concat]; by rewrite app_nil_r).
  unfold LRect_ExtractFromBytes.
  rewrite LRect_loop_wire; [done|by repeat constructor|done|lia].
Qed.
End ReadsAll.

Lemma wf_range z lo hi : (lo <=? z) && (z <? hi) = true -> lo <= z < hi.
Proof. intros [H1 H2]%andb_prop. apply Z.leb_le in H1. apply Z.ltb_lt in H2. done. Qed.

Lemma wf_words m :
  forallb (fun w => (0 <=? w) && (w <? two32)) m = true -> Forall in_uint32 m.
Proof.
  intros H. apply Forall_forall. intros z Hz. apply wf_range.
  exact (proj1 (forallb_forall _ m) H z Hz).
Qed.

(** The kinds without elements. *)
Definition is_leaf (v : LValue) : bool :=
  match v with
  | LList _ | LPoint _ _ | LRect _ _ _ _ | LPropList _ _ => false
  | _ => true
  end.

Lemma reads_leaf v n : is_leaf v = true -> encodable v = true -> reads (S n) v.
Proof.
  intros Hleaf He w pre post Hw.
  destruct v; try discriminate Hleaf; destruct w; try discriminate Hw;
    cbn [extract payload reextract parsed_elem].
  - done.
  - rewrite read_LInteger; [done|by apply wf_range].
  - apply Z.ltb_lt in He. by apply read_text.
  - apply Z.ltb_lt in He. by apply read_text.
  - apply Z.ltb_lt in He. rewrite read_LPicture by done. do 2 f_equal. unfold PutUint32. zl.
  - rewrite read_LFloat; [done|by apply wf_range].
  - by rewrite read_LColor.
  - apply bool_decide_eq_true in He. rewrite read_LDate by done. by unfold zlen; rewrite He.
  - discriminate He.
  - cbn [encodable wf] in He. apply wf_words in He.
    rewrite !Forall_cons_iff in He. destruct He as (? & ? & ? & _).
    by rewrite read_L3dVector.
  - cbn [encodable wf] in He. apply andb_prop in He as [Hl Hm].
    apply bool_decide_eq_true in Hl. apply wf_words in Hm.
    rewrite read_L3dTransform by done. do 2 f_equal. rewrite zlen_words. unfold zlen. lia.
Qed.

(** Elements are strictly smaller than their container. *)
Lemma reads_elems (vs : list LValue) (bound n : Z) :
  Forall (fun v => forall m, encodable v = true -> zlen (payload v) < Z.of_nat m -> reads m v) vs ->
  forallb encodable vs = true ->
  (forall v, v ∈ vs -> zlen (wire v) <= bound) -> bound <= n ->
  Forall (reads (Z.to_nat n)) vs.
Proof.
  intros IH He Hb Hn. apply Forall_forall. intros v Hv.
  rewrite Forall_forall in IH. apply IH; [done| |].
  - exact (proj1 (forallb_forall _ vs) He v Hv).
  - specialize (Hb v (proj2 (list_elem_of_In _ _) Hv)). rewrite zlen_wire in Hb. pose proof (zlen_nonneg (payload v)). lia.
Qed.

Lemma reads_encodable v n :
  encodable v = true -> zlen (payload v) < Z.of_nat n -> reads n v.
Proof.
  revert n.
  induction v as [|z|s|s|d|f|vs IH|h w IHh IHw|l t r b IHl IHt IHr IHb|ps vs IHp IHv|r g b|d|d
    |x y z|m] using LValue_rect'; intros n He Hn;
    (destruct n as [|n]; [exfalso; revert Hn; apply Z.le_ngt, zlen_nonneg|]).
  7: { cbn [encodable] in He. apply andb_prop in He as [Hz He]. apply Z.ltb_lt in Hz.
    apply reads_LList; [done|]. rewrite <- (Nat2Z.id n).
    change (payload (LList vs)) with (PutUint32 (uint32 (zlen vs)) ++ concat (map wire vs)) in Hn.
    apply (reads_elems vs (zlen (concat (map wire vs)))); auto using zlen_wire_in.
    unfold PutUint32 in Hn. zl. }
  7: { cbn [encodable] in He. apply andb_prop in He as [Hh Hw].
    destruct h as [h|], w as [w|]; try discriminate.
    change (payload (LPoint (Some h) (Some w))) with (wire h ++ wire w) in Hn.
    rewrite zlen_app, !zlen_wire in Hn.
    pose proof (zlen_nonneg (payload h)). pose proof (zlen_nonneg (payload w)).
    apply reads_LPoint; [apply IHh|apply IHw]; first [done|lia]. }
  7: { cbn [encodable] in He. repeat (apply andb_prop in He as [He ?]).
    destruct l as [l|], t as [t|], r as [r|], b as [b|]; try discriminate.
    change (payload (LRect (Some l) (Some t) (Some r) (Some b)))
      with (wire l ++ wire t ++ wire r ++ wire b) in Hn.
    rewrite !zlen_app, !zlen_wire in Hn.
    pose proof (zlen_nonneg (payload l)). pose proof (zlen_nonneg (payload t)).
    pose proof (zlen_nonneg (payload r)). pose proof (zlen_nonneg (payload b)).
    apply reads_LRect; [apply IHl|apply IHt|apply IHr|apply IHb]; first [done|lia]. }
  7: { cbn [encodable] in He. apply andb_prop in He as [He Hvs]. apply andb_prop in He as [He Hps].
    apply andb_prop in He as [Hl Hz]. apply bool_decide_eq_true in Hl. apply Z.ltb_lt in Hz.
    change (payload (LPropList ps vs))
      with (PutUint32 (uint32 (zlen ps)) ++ concat (zip_with app (map wire ps) (map wire vs))) in Hn.
    set (tl := concat (zip_with app (map wire ps) (map wire vs))) in *.
    apply reads_LPropList; [done|done| |]; rewrite <- (Nat2Z.id n);
      (apply (reads_elems _ (zlen tl));
       [done|done|intros v Hv; apply zlen_wire_in2; auto|unfold PutUint32 in Hn; zl]). }
  all: by apply reads_leaf.
Qed.

(** [parsed_top] and [parsed_elem] are the identity exactly on values without
    the doubling. *)
Fixpoint no_props (v : LValue) : bool :=
  let o (x : option LValue) := match x with Some v => no_props v | None => true end in
  match v with
  | LList vs => forallb no_props vs
  | LPoint h w => o h && o w
  | LRect l t r b => o l && o t && o r && o b
  | LPropList ps vs => bool_decide (length ps = 0%nat) && bool_decide (length vs = 0%nat)
  | _ => true
  end.

(** No non-empty property list below the top of the value. *)
Definition flat_props (v : LValue) : bool :=
  match v with
  | LPropList ps vs => forallb no_props ps && forallb no_props vs
  | _ => no_props v
  end.

Lemma map_fixed (f : LValue -> LValue) (p : LValue -> bool) vs :
  Forall (fun v => f v = v <-> p v = true) vs -> (map f vs = vs <-> forallb p vs = true).
Proof.
  induction 1 as [|v vs Hv _ IH]; [done|]. cbn [map forallb].
  rewrite andb_true_iff, <- Hv, <- IH. split; [by intros [= H1 H2]|by intros [-> ->]].
Qed.

Lemma doubled_fixed (f : LValue -> LValue) vs : map f vs ++ map f vs = vs <-> length vs = 0%nat.
Proof.
  split; [|by destruct vs].
  intros H%(f_equal length). rewrite length_app, !length_map in H. lia.
Qed.

Lemma opt_fixed (o : option LValue) :
  opt_all (fun v => parsed_elem v = v <-> no_props v = true) o ->
  (match o with Some v => Some (parsed_elem v) | None => None end = o <->
   match o with Some v => no_props v | None => true end = true).
Proof. destruct o; simpl; [|done]. intros <-. split; [by intros [=]|by intros ->]. Qed.

Lemma parsed_elem_fixed v : parsed_elem v = v <-> no_props v = true.
Proof.
  induction v using LValue_rect'; try done; cbn [parsed_elem no_props].
  - rewrite <- (map_fixed parsed_elem no_props) by done. split; [by intros [=]|by intros ->].
  - rewrite andb_true_iff, <- !opt_fixed by done.
    split; [by intros [=]|by intros [-> ->]].
  - rewrite !andb_true_iff, <- !opt_fixed by done.
    split; [by intros [=]|by intros [[[-> ->] ->] ->]].
  - rewrite andb_true_iff, !bool_decide_eq_true, <- !(doubled_fixed parsed_elem).
    split; [by intros [=]|by intros [-> ->]].
Qed.

Lemma parsed_top_fixed v : parsed_top v = v <-> flat_props v = true.
Proof.
  destruct v; try apply parsed_elem_fixed. cbn [parsed_top flat_props].
  rewrite andb_true_iff, <- !(map_fixed parsed_elem no_props)
    by (apply Forall_forall; intros; apply parsed_elem_fixed).
  split; [by intros [=]|by intros [-> ->]].
Qed.

Lemma FromRawBytes_at v pre post :
  encodable v = true ->
  FromRawBytes (pre ++ wire v ++ post) (zlen pre) = Ret (parsed_top v).
Proof.
  intros He. unfold FromRawBytes, from_raw_with.
  pose proof (zlen_nonneg (payload v)). pose proof (zlen_nonneg post).
  rewrite (proj2 (Z.ltb_ge _ _)) by (rewrite !zlen_app, zlen_wire; lia).
  set (n := parse_fuel _).
  assert (zlen (payload v) < Z.of_nat n) as Hn.
  { unfold n, parse_fuel. rewrite !length_app. pose proof (zlen_wire v). unfold zlen in *. lia. }
  unfold wire, PutUint16. rewrite <- !app_assoc, be_uint_put by done.
  cbn [mbind outcome_bind]. simpl Z.of_nat. rewrite GetType_tag, (app_assoc pre).
  assert (zlen pre + 2 = zlen (pre ++ be_put 2 (GetType v))) as -> by zl.
  rewrite (reads_encodable v n He Hn) by apply GetType_zero.
  cbn [mbind outcome_bind fst]. by rewrite reextract_zero.
Qed.

(** ** Properties *)

(** [GetBytes] writes the reference format of every encodable value, and
    parsing that format anywhere inside a buffer yields [parsed_top] of the
    value: the complete functional description of the codec. *)
Theorem wire_parse (v : LValue) :
  encodable v = true ->
  GetBytes v = Ret (wire v) /\
  forall pre post, FromRawBytes (pre ++ wire v ++ post) (zlen pre) = Ret (parsed_top v).
Proof. intros He. split; [by apply GetBytes_wire|]. intros. by apply FromRawBytes_at. Qed.

(** A value that nests all the container kinds. *)
Definition sample_value : LValue :=
  LPropList [LSymbol "pos"; LString "who"]
    [LList [LPoint (Some (LInteger (-3))) (Some (LFloat 4607182418800017408)); LColor Byte.x01 Byte.x02 Byte.xff];
     LRect (Some LVoid) (Some (LPicture [Byte.x07])) (Some (LString "odd")) (Some (LDate (replicate 8 Byte.x09)))].

Lemma wire_parse_witness :
  encodable sample_value = true /\ FromRawBytes ([Byte.x00] ++ wire sample_value ++ [Byte.x00]) 1 = Ret sample_value.
Proof.
  split; [reflexivity|].
  exact (proj2 (wire_parse sample_value eq_refl) [Byte.x00] [Byte.x00]).
Defined.

(** C32. Round trip: an encodable value survives serialising and parsing exactly
    when it has no non-empty property list below its top level. *)
Theorem roundtrip_iff (v : LValue) :
  encodable v = true ->
  ((bs ← GetBytes v; FromRawBytes bs 0) = Ret v <-> flat_props v = true).
Proof.
  intros He. rewrite GetBytes_wire by done. cbn [mbind outcome_bind].
  pose proof (FromRawBytes_at v [] [] He) as H. rewrite app_nil_r in H. cbn [app] in H.
  change (zlen []) with 0 in H. rewrite H, <- parsed_top_fixed.
  split; [by intros [=]|by intros ->].
Qed.

Lemma roundtrip_iff_witness :
  encodable sample_value = true /\ (bs ← GetBytes sample_value; FromRawBytes bs 0) = Ret sample_value.
Proof. split; [reflexivity|]. by apply (roundtrip_iff sample_value). Defined.

(** A property list inside a list comes back with every entry twice: the
    element is extracted once by [FromRawBytes] and again by the list loop, and
    the second extraction appends to the first. *)
Theorem nested_proplist_doubled (k : string) (v : LValue) :
  slen k < two32 -> encodable v = true -> no_props v = true ->
  (bs ← GetBytes (LList [LPropList [LSymbol k] [v]]); FromRawBytes bs 0) =
  Ret (LList [LPropList [LSymbol k; LSymbol k] [v; v]]).
Proof.
  intros Hk He Hn. set (x := LList _).
  assert (encodable x = true) as Hx.
  { cbn [x encodable forallb]. rewrite He, (proj2 (Z.ltb_lt (slen k) _)) by done. reflexivity. }
  rewrite GetBytes_wire by done. cbn [mbind outcome_bind].
  pose proof (FromRawBytes_at x [] [] Hx) as H. rewrite app_nil_r in H. cbn [app] in H.
  change (zlen []) with 0 in H. rewrite H. cbn [x parsed_top parsed_elem map app].
  by rewrite (proj2 (parsed_elem_fixed v) Hn).
Qed.

Lemma nested_proplist_doubled_witness :
  (bs ← GetBytes (LList [LPropList [LSymbol "hp"] [LInteger 7]]); FromRawBytes bs 0) =
  Ret (LList [LPropList [LSymbol "hp"; LSymbol "hp"] [LInteger 7; LInteger 7]]).
Proof. by apply (nested_proplist_doubled "hp" (LInteger 7)). Defined.

(** Media values have no wire form: [LMedia] inherits an empty [GetBytes],
    so a media value is read back as void, and inside a list it vanishes,
    shifting the elements after it and leaving a void at the end. *)
Theorem media_lost_on_wire (d : bytes) (z : Z) :
  in_int32 z ->
  (bs ← GetBytes (LMedia d); FromRawBytes bs 0) = Ret LVoid /\
  (bs ← GetBytes (LList [LMedia d; LInteger z]); FromRawBytes bs 0) = Ret (LList [LInteger z; LVoid]).
Proof.
  intros Hz. split; [reflexivity|]. cbn [GetBytes mapM_outcome mbind outcome_bind].
  unfold LList_GetBytes, LInteger_GetBytes, BaseLValue_GetBytes.
  change (uint32 (zlen _)) with 2. cbn [concat app]. rewrite app_nil_r.
  unfold FromRawBytes, from_raw_with, parse_fuel, PutUint16.
  set (raw := be_put 2 VtList ++ _).
  assert (zlen raw = 12) as Hr by (unfold raw, PutUint32; zl).
  rewrite (proj2 (Z.ltb_ge _ _)) by lia.
  assert (be_uint 2 raw 0 = Ret VtList) as -> by apply (be_uint_put 2 VtList [] _ 0 eq_refl).
  assert (be_uint 4 raw 2 = Ret 2) as E by apply (be_uint_put 4 2 (be_put 2 VtList) _ 2 eq_refl).
  cbn [mbind outcome_bind].
  change (extract (S (S (length raw))) (zero_value (int16 VtList)) raw (0 + 2))
    with (LList_ExtractFromBytes (extract (S (length raw))) (LList []) raw 2).
  unfold LList_ExtractFromBytes. rewrite (proj2 (Z.ltb_ge _ _)) by lia.
  rewrite E. cbn [mbind outcome_bind]. rewrite Hr. change (_ <? 2) with false. cbv iota.
  assert (forall n, parse_elem (extract (S n)) raw (2 + 4) = Ret (LInteger z, 4)) as Hp.
  { intros n. replace raw with ((be_put 2 VtList ++ PutUint32 2) ++ wire (LInteger z) ++ [])
      by (unfold raw, wire, PutUint16; by rewrite app_nil_r, <- app_assoc).
    apply parse_elem_wire; [apply reads_leaf; [done|]|done].
    cbn [encodable wf]. destruct Hz. apply andb_true_intro.
    split; [by apply Z.leb_le|by apply Z.ltb_lt]. }
  assert (exists f, length raw = S (S (S f))) as [f Hf].
  { exists 9%nat. unfold zlen in Hr. lia. }
  rewrite Hf, LList_loop_step, Hp by lia. cbn [mbind outcome_bind fst snd app].
  rewrite LList_loop_step by lia. unfold parse_elem, from_raw_with.
  rewrite (proj2 (Z.ltb_lt _ _)) by (rewrite Hr; cbn; lia). reflexivity.
Qed.

Lemma media_lost_on_wire_witness :
  (bs ← GetBytes (LList [LMedia [Byte.x2a]; LInteger 5]); FromRawBytes bs 0) =
  Ret (LList [LInteger 5; LVoid]).
Proof. apply (media_lost_on_wire [Byte.x2a] 5). unfold in_int32. lia. Defined.
