(* ===== verification/Smus.v ===== *)
(** * The SMUS envelope (internal/domain/types/smus)

    Header strings, recipient lists and messages: parsing, serialising, the
    encrypted variants (an encrypted Logon body, and the mode in which the whole
    packet is encrypted), and the interface a cipher offers to the parser. *)

From Stdlib Require Import ZArith Lia.
From stdpp Require Import base list strings option.
From S2P Require Import Prelude GoFmt LValue LExtract LParse LRoundtrip.

Open Scope Z_scope.

(** ** Error codes (mus_error_code.go) *)

Definition ErrNoError : Z := 0.
Definition ErrUnknown : Z := -0x7FFBEB5F.
Definition ErrInvalidUserID : Z := -0x7FFBEB5D.
Definition ErrInvalidPassword : Z := -0x7FFBEB5C.
Definition ErrConnectionRefused : Z := -0x7FFBEB51.
Definition ErrInvalidMessageFormat : Z := -0x7FFBEB4F.
Definition ErrServerInternalError : Z := -0x7FFBEB45.
Definition ErrInvalidServerCommand : Z := -0x7FFBEB41.
Definition ErrDatabaseUserIDNotFound : Z := -0x7FFBEB3B.
Definition ErrDatabaseDataNotFound : Z := -0x7FFBEB34.

(** ** Data *)

Record MUSMsgHeaderString := mkHeaderString {
  hs_Length : Z;
  hs_Value : string
}.

Record MUSMsgHeaderStringList := mkHeaderStringList {
  hl_Count : Z;
  hl_Strings : list MUSMsgHeaderString
}.

Record MUSMessage := mkMUSMessage {
  ContentSize : Z;
  ErrCode : Z;
  TimeStamp : Z;
  Subject : MUSMsgHeaderString;
  SenderID : MUSMsgHeaderString;
  RecptID : MUSMsgHeaderStringList;
  RawContents : bytes;
  DecryptedContents : bytes;
  MsgContent : option LValue
}.

(** The port [Cipher] (ports/cipher.go), and what the protocol relies on. *)
Record Cipher := mkCipher {
  Encrypt : bytes -> bytes;
  Decrypt : bytes -> bytes
}.

Class CipherLaws (c : Cipher) : Prop := {
  Decrypt_Encrypt : forall x, Decrypt c (Encrypt c x) = x;
  Decrypt_zlen : forall x, zlen (Decrypt c x) = zlen x;
  Encrypt_zlen : forall x, zlen (Encrypt c x) = zlen x
}.

(** ** Errors as values *)

Inductive header_error := InsufficientLength | InsufficientContent | CountExceedsData.

Inductive parse_error :=
| MessageTooShort
| InvalidHeader
| InvalidHeaderAfterDecryption
| InvalidContentSize
| BadSubject (e : header_error)
| BadSenderID (e : header_error)
| BadRecipients (e : header_error).

(** [or_fail wrap m k]: the [if err != nil { return ..., wrap(err) }] idiom. *)
Definition or_fail {E F A B} (wrap : E -> F) (m : outcome (E + A))
    (k : A -> outcome (F + B)) : outcome (F + B) :=
  r ← m; match r with inl e => Ret (inl (wrap e)) | inr a => k a end.

(** ** Header strings *)

Definition ExtractMUSMsgHeaderString (data : bytes) (offset : Z) :
    outcome (header_error + (MUSMsgHeaderString * Z)) :=
  if zlen data <? offset + 4 then Ret (inl InsufficientLength)
  else
    length ← be_uint 4 data offset;
    if (length <? 0) || (zlen data <? offset + 4 + length) then Ret (inl InsufficientContent)
    else
      s ← slice data (offset + 4) (offset + 4 + length);
      Ret (inr (mkHeaderString length (string_of_bytes s),
                4 + length + (if Z.odd length then 1 else 0))).

Definition HeaderString_WriteBytes (m : MUSMsgHeaderString) : bytes :=
  PutUint32 (uint32 (int32 (slen (hs_Value m)))) ++ bytes_of_string (hs_Value m) ++
  (if Z.odd (slen (hs_Value m)) then [Byte.x00] else []).

(** ** Recipient lists *)

Fixpoint ExtractList_loop (fuel : nat) (i count : Z) (data : bytes) (currentOffset consumed : Z)
    (strings : list MUSMsgHeaderString) :
    outcome (header_error + (list MUSMsgHeaderString * Z)) :=
  if i <? count then
    match fuel with
    | O => OutOfFuel
    | S fuel =>
        or_fail id (ExtractMUSMsgHeaderString data currentOffset) (fun r =>
          ExtractList_loop fuel (i + 1) count data (currentOffset + r.2) (consumed + r.2)
            (strings ++ [r.1]))
    end
  else Ret (inr (strings, consumed)).

Definition ExtractMUSMsgHeaderStringList (data : bytes) (offset : Z) :
    outcome (header_error + (MUSMsgHeaderStringList * Z)) :=
  if zlen data <? offset + 4 then Ret (inl InsufficientLength)
  else
    count ← be_uint 4 data offset;
    if (zlen data - offset - 4) / 4 <? count then Ret (inl CountExceedsData)
    else
      or_fail id (ExtractList_loop (length data) 0 count data (offset + 4) 4 []) (fun r =>
        Ret (inr (mkHeaderStringList count r.1, r.2))).

Definition HeaderStringList_WriteBytes (m : MUSMsgHeaderStringList) : bytes :=
  PutUint32 (uint32 (int32 (zlen (hl_Strings m)))) ++
  concat (HeaderString_WriteBytes <$> hl_Strings m).

(** ** Messages *)

Definition MUSHeader : bytes := [Byte.x72; Byte.x00].

Definition has_header (raw : bytes) : outcome bool :=
  b0 ← index raw 0; b1 ← index raw 1;
  Ret (bool_decide (b0 = Byte.x72) && bool_decide (b1 = Byte.x00)).

(** The fields after the content size has been checked (mus_message.go:65-104). *)
Definition parse_fields (rawmsg : bytes) (contentSize : Z) (decrypt : option Cipher) :
    outcome (parse_error + MUSMessage) :=
  ec ← be_uint 4 rawmsg 6;
  ts ← be_uint 4 rawmsg 10;
  or_fail BadSubject (ExtractMUSMsgHeaderString rawmsg 14) (fun subj =>
  or_fail BadSenderID (ExtractMUSMsgHeaderString rawmsg (14 + subj.2)) (fun snd_ =>
  or_fail BadRecipients (ExtractMUSMsgHeaderStringList rawmsg (14 + subj.2 + snd_.2)) (fun rcp =>
    let readPtr := 14 + subj.2 + snd_.2 + rcp.2 in
    let msg := mkMUSMessage contentSize (int32 ec) (int32 ts) subj.1 snd_.1 rcp.1 in
    if readPtr <? zlen rawmsg then
      remaining ← slice_from rawmsg readPtr;
      let content :=
        match decrypt with
        | Some c => if decide (hs_Value subj.1 = "Logon"%string) then Decrypt c remaining
                    else remaining
        | None => remaining
        end in
      v ← FromRawBytes content 0;
      Ret (inr (msg remaining content (Some v)))
    else Ret (inr (msg [] [] None))))).

(** The body after the header has been verified (mus_message.go:50-104). *)
Definition parse_body (rawmsg : bytes) (decrypt : option Cipher) :
    outcome (parse_error + MUSMessage) :=
  size ← be_uint 4 rawmsg 2;
  let contentSize := int32 size in
  if (contentSize <? 0) || (zlen rawmsg <? 6 + contentSize) then Ret (inl InvalidContentSize)
  else parse_fields rawmsg contentSize decrypt.

Definition ParseMUSMessageWithDecryption (rawmsg : bytes) (decrypt : option Cipher) :
    outcome (parse_error + MUSMessage) :=
  if zlen rawmsg <? 14 then Ret (inl MessageTooShort)
  else
    ok ← has_header rawmsg;
    if (ok : bool) then parse_body rawmsg decrypt
    else
      match decrypt with
      | Some c =>
          let rawmsg := Decrypt c rawmsg in
          if zlen rawmsg <? 14 then
            (* the error message formats [rawmsg[:2]] *)
            _ ← slice rawmsg 0 2; Ret (inl InvalidHeaderAfterDecryption)
          else
            ok ← has_header rawmsg;
            if (ok : bool) then parse_body rawmsg decrypt
            else Ret (inl InvalidHeaderAfterDecryption)
      | None => Ret (inl InvalidHeader)
      end.

Definition ParseMUSMessage (rawmsg : bytes) : outcome (parse_error + MUSMessage) :=
  ParseMUSMessageWithDecryption rawmsg None.

(** The bytes [GetBytes] writes before the content. *)
Definition header_payload (msg : MUSMessage) : bytes :=
  PutUint32 (uint32 (ErrCode msg)) ++ PutUint32 (uint32 (TimeStamp msg)) ++
  HeaderString_WriteBytes (Subject msg) ++ HeaderString_WriteBytes (SenderID msg) ++
  HeaderStringList_WriteBytes (RecptID msg).

Definition envelope (payload : bytes) : bytes :=
  MUSHeader ++ PutUint32 (uint32 (int32 (zlen payload))) ++ payload.

Definition MUSMessage_GetBytes (msg : MUSMessage) : outcome bytes :=
  content ← (match MsgContent msg with Some v => GetBytes v | None => Ret [] end);
  Ret (envelope (header_payload msg ++ content)).

(** [NewResponse] (mus/response.go); [now] is [time.Now().Unix()]. *)
Definition header_string (s : string) : MUSMsgHeaderString := mkHeaderString (slen s) s.

Definition NewResponse (now : Z) (subject senderID : string) (recipients : list string)
    (errCode : Z) (content : option LValue) : MUSMessage :=
  mkMUSMessage 0 errCode (int32 now) (header_string subject) (header_string senderID)
    (mkHeaderStringList (zlen recipients) (header_string <$> recipients)) [] [] content.

(** ** Safety of the envelope parser *)

(** A computation returns, and what it returns satisfies [P] unless it is an
    error. *)
Definition delivers {E A} (m : outcome (E + A)) (P : A -> Prop) : Prop :=
  exists r, m = Ret r /\ match r with inl _ => True | inr a => P a end.

Lemma delivers_err {E A} (e : E) (P : A -> Prop) : delivers (Ret (inl e)) P.
Proof. by exists (inl e). Qed.

Lemma delivers_ok {E A} (a : A) (P : A -> Prop) : P a -> @delivers E A (Ret (inr a)) P.
Proof. by exists (inr a). Qed.

Lemma delivers_or_fail {E F A B} (w : E -> F) (m : outcome (E + A)) (k : A -> outcome (F + B))
    (P : A -> Prop) (Q : B -> Prop) :
  delivers m P -> (forall a, P a -> delivers (k a) Q) -> delivers (or_fail w m k) Q.
Proof. intros ([e|a] & -> & Ha) Hk; [apply delivers_err|by apply Hk]. Qed.

#[local] Hint Resolve delivers_err delivers_ok : go.

(** A header string as parsed: its recorded length is the length of its text. *)
Definition hs_ok (s : MUSMsgHeaderString) : Prop := hs_Length s = slen (hs_Value s).

Lemma ExtractMUSMsgHeaderString_delivers data off :
  0 <= off ->
  delivers (ExtractMUSMsgHeaderString data off) (fun r => hs_ok r.1 /\ 4 <= r.2).
Proof.
  intros Hoff. unfold ExtractMUSMsgHeaderString. zcase; [auto with go|].
  be_step n Hn. rewrite (proj2 (Z.ltb_ge n 0)) by lia. cbn [orb]. zcase; [auto with go|].
  destruct (slice data (off + 4) (off + 4 + n)) as [s| |] eqn:Es;
    try (rewrite slice_ret in Es by lia; discriminate).
  apply delivers_ok. cbn [fst snd]. split; [|case_match; lia].
  apply slice_zlen in Es. unfold hs_ok, slen. cbn [hs_Length hs_Value]. rewrite bytes_of_string_of_bytes. lia.
Qed.

Lemma ExtractList_loop_delivers fuel i count data off consumed acc :
  0 <= off -> 0 <= consumed -> count - i <= Z.of_nat fuel -> i <= count ->
  Forall hs_ok acc -> zlen acc = i ->
  delivers (ExtractList_loop fuel i count data off consumed acc)
    (fun r => zlen r.1 = count /\ Forall hs_ok r.1 /\ 0 <= r.2).
Proof.
  revert i off consumed acc.
  induction fuel as [|fuel IH]; intros i off consumed acc Ho Hc Hf Hi Ha Hz; cbn [ExtractList_loop];
    zcase; try (apply delivers_ok; cbn [fst snd]; split; [lia|done]); [lia|].
  eapply delivers_or_fail; [by apply ExtractMUSMsgHeaderString_delivers|].
  intros [s c] [Hs Hc4]. cbn [fst snd] in *.
  apply IH; [lia..| |zl]. apply Forall_app. split; [done|by repeat constructor].
Qed.

(** A recipient list as parsed: [Count] is the number of strings. *)
Definition hl_ok (l : MUSMsgHeaderStringList) : Prop :=
  hl_Count l = zlen (hl_Strings l) /\ Forall hs_ok (hl_Strings l).

Lemma ExtractMUSMsgHeaderStringList_delivers data off :
  0 <= off ->
  delivers (ExtractMUSMsgHeaderStringList data off) (fun r => hl_ok r.1 /\ 0 <= r.2).
Proof.
  intros Hoff. unfold ExtractMUSMsgHeaderStringList. zcase; [auto with go|].
  be_step n Hn. zcase; [auto with go|].
  eapply delivers_or_fail.
  - apply ExtractList_loop_delivers; [lia|lia| |lia|constructor|done].
    pose proof (Z.div_le_upper_bound (zlen data - off - 4) 4 (zlen data - off - 4)
                  ltac:(lia) ltac:(lia)). unfold zlen in *. lia.
  - intros [ss c] (Hz & Hs & Hc). apply delivers_ok. cbn in *. by repeat split.
Qed.

(** What holds of every message the parser accepts. *)
Definition msg_ok (rawmsg : bytes) (m : MUSMessage) : Prop :=
  0 <= ContentSize m /\ 6 + ContentSize m <= zlen rawmsg /\
  in_int32 (ErrCode m) /\ in_int32 (TimeStamp m) /\
  hs_ok (Subject m) /\ hs_ok (SenderID m) /\ hl_ok (RecptID m) /\
  opt_allb wf (MsgContent m) = true.

(** The read at the head of the computation. *)
Ltac be_head w Hw :=
  match goal with
  | |- delivers (be_uint ?n ?raw ?off ≫= _) _ =>
      let E := fresh "E" in
      destruct (be_uint_ret n raw off ltac:(lia) ltac:(lia)) as (w & E & Hw);
      rewrite E; clear E; rewrite bind_Ret; simpl Z.of_nat in Hw
  end.

Lemma parse_body_delivers rawmsg decrypt :
  14 <= zlen rawmsg -> delivers (parse_body rawmsg decrypt) (msg_ok rawmsg).
Proof.
  intros Hlen. unfold parse_body. be_head sz Hsz. cbv zeta.
  destruct (_ || _) eqn:E; [auto with go|].
  apply orb_false_elim in E as [E1 E2]. apply Z.ltb_ge in E1, E2.
  unfold parse_fields. be_head ec Hec. be_head ts Hts.
  eapply delivers_or_fail; [by apply ExtractMUSMsgHeaderString_delivers|]. intros [s1 c1] [Hs1 Hc1].
  eapply delivers_or_fail; [apply ExtractMUSMsgHeaderString_delivers; cbn in *; lia|].
  intros [s2 c2] [Hs2 Hc2].
  eapply delivers_or_fail; [apply ExtractMUSMsgHeaderStringList_delivers; cbn in *; lia|].
  intros [l c3] [Hl Hc3]. cbn [fst snd] in *. zcase.
  - unfold slice_from. rewrite slice_ret by lia. cbn [mbind outcome_bind].
    match goal with |- context [FromRawBytes ?c 0] =>
      destruct (FromRawBytes_good c 0) as (v & -> & Hv); [lia|] end.
    apply delivers_ok. unfold msg_ok. cbn. auto 10 using int32_range.
  - apply delivers_ok. unfold msg_ok. cbn. auto 10 using int32_range.
Qed.

Lemma has_header_returns raw : 2 <= zlen raw -> returns (has_header raw).
Proof.
  intros H. unfold has_header.
  destruct (index_ret raw 0) as [b0 ->]; [lia|]. destruct (index_ret raw 1) as [b1 ->]; [lia|].
  apply returns_Ret.
Qed.

(** C30. Parsing a packet is total: with no cipher, or with one that preserves
    length, every byte sequence is either rejected with an error value or parsed
    into a message whose content size fits the packet, whose header strings
    carry their true lengths, whose recipient count is the number of recipients,
    and whose content is well-formed. No input makes the parser panic. *)
Theorem ParseMUSMessage_total (rawmsg : bytes) (decrypt : option Cipher) :
  (forall c x, decrypt = Some c -> zlen (Decrypt c x) = zlen x) ->
  exists r, ParseMUSMessageWithDecryption rawmsg decrypt = Ret r /\
    match r with inl _ => True | inr m => msg_ok rawmsg m end.
Proof.
  intros Hc. change (delivers (ParseMUSMessageWithDecryption rawmsg decrypt) (msg_ok rawmsg)).
  unfold ParseMUSMessageWithDecryption. zcase; [apply delivers_err|].
  destruct (has_header_returns rawmsg) as [[] ->]; [lia|by apply parse_body_delivers|].
  rewrite bind_Ret. destruct decrypt as [c|]; [|apply delivers_err].
  pose proof (Hc c rawmsg eq_refl) as Hz. cbv zeta. rewrite Hz. zcase; [lia|].
  destruct (has_header_returns (Decrypt c rawmsg)) as [[] ->];
    [lia| |rewrite bind_Ret; apply delivers_err].
  rewrite bind_Ret.
  destruct (parse_body_delivers (Decrypt c rawmsg) (Some c)) as (r & -> & Hr); [lia|].
  exists r. split; [done|]. destruct r; [done|]. unfold msg_ok in *. by rewrite Hz in Hr.
Qed.

Lemma ParseMUSMessage_total_witness :
  exists r, ParseMUSMessageWithDecryption (replicate 20 Byte.x72) (Some (mkCipher id id)) = Ret r /\
    match r with inl _ => True | inr m => msg_ok (replicate 20 Byte.x72) m end.
Proof.
  apply (ParseMUSMessage_total (replicate 20 Byte.x72) (Some (mkCipher id id))).
  intros c x [= <-]. reflexivity.
Defined.

(** ** Reading back what [GetBytes] writes *)

Definition int31 : Z := 2147483648.

Lemma int32_read z : 0 <= z < int31 -> uint32 (int32 z) mod 256 ^ Z.of_nat 4 = z.
Proof.
  unfold int31. intros H. rewrite int32_id by (unfold in_int32; lia).
  apply uint32_small. unfold two32. lia.
Qed.

Lemma zlen_HeaderString s : slen (hs_Value s) + 4 <= zlen (HeaderString_WriteBytes s).
Proof. unfold HeaderString_WriteBytes, PutUint32, slen. zl. Qed.

Lemma ExtractMUSMsgHeaderString_wire s pre post off :
  hs_ok s -> slen (hs_Value s) < int31 -> off = zlen pre ->
  ExtractMUSMsgHeaderString (pre ++ HeaderString_WriteBytes s ++ post) off =
  Ret (inr (s, zlen (HeaderString_WriteBytes s))).
Proof.
  unfold hs_ok, slen. intros Hok Hlt ->. unfold ExtractMUSMsgHeaderString, HeaderString_WriteBytes, slen.
  set (b := bytes_of_string (hs_Value s)) in *. set (pad := if Z.odd (zlen b) then _ else _).
  assert (zlen pad = if Z.odd (zlen b) then 1 else 0) as Hpad by (unfold pad; by case_match).
  unfold PutUint32. rewrite <- !app_assoc. pose proof (zlen_nonneg b).
  rewrite (proj2 (Z.ltb_ge _ _)) by zl. rewrite be_uint_put by done. rewrite bind_Ret, int32_read by done.
  rewrite (proj2 (Z.ltb_ge (zlen b) 0)) by lia. rewrite (proj2 (Z.ltb_ge _ _)) by zl. cbn [orb].
  rewrite (app_assoc pre), slice_app by zl. rewrite bind_Ret.
  unfold b at 2. rewrite string_of_bytes_of_string. fold b. rewrite <- Hok. destruct s as [n v].
  cbn [hs_Length hs_Value] in *. do 3 f_equal. autorewrite with zlen. rewrite Hpad, <- Hok. simpl. lia.
Qed.

Lemma zlen_strings ss :
  4 * zlen ss <= zlen (concat (HeaderString_WriteBytes <$> ss)).
Proof.
  induction ss as [|s ss IH]; [done|]. rewrite fmap_cons. cbn [concat].
  rewrite zlen_app, zlen_cons.
  pose proof (zlen_HeaderString s). pose proof (slen_nonneg (hs_Value s)). lia.
Qed.

Lemma ExtractList_loop_wire ss i count fuel pre post off consumed acc :
  Forall hs_ok ss -> zlen (concat (HeaderString_WriteBytes <$> ss)) < int31 ->
  count = i + zlen ss -> (length ss <= fuel)%nat -> off = zlen pre ->
  ExtractList_loop fuel i count (pre ++ concat (HeaderString_WriteBytes <$> ss) ++ post) off consumed acc =
  Ret (inr (acc ++ ss, consumed + zlen (concat (HeaderString_WriteBytes <$> ss)))).
Proof.
  intros Hss. revert i fuel pre off consumed acc.
  induction Hss as [|s ss Hs _ IH]; intros i fuel pre off consumed acc Hb Hc Hf Ho;
    rewrite ?fmap_nil, ?fmap_cons in *; cbn [concat] in *.
  - rewrite zlen_nil in Hc. destruct fuel; cbn [ExtractList_loop];
      rewrite (proj2 (Z.ltb_ge _ _)) by lia; by rewrite app_nil_r, zlen_nil, Z.add_0_r.
  - rewrite zlen_app in Hb. rewrite zlen_cons in Hc. pose proof (zlen_nonneg ss).
    pose proof (zlen_HeaderString s). pose proof (slen_nonneg (hs_Value s)).
    set (tl := concat _) in *. pose proof (zlen_nonneg tl).
    destruct fuel as [|fuel]; [simpl in Hf; lia|]. cbn [ExtractList_loop].
    rewrite (proj2 (Z.ltb_lt _ _)) by lia. rewrite <- app_assoc.
    rewrite ExtractMUSMsgHeaderString_wire by (done || lia). cbn [or_fail mbind outcome_bind fst snd].
    rewrite (app_assoc pre). unfold tl.
    rewrite IH by (try (simpl in Hf; lia); try (fold tl; lia); rewrite ?zlen_app; lia).
    rewrite <- app_assoc, zlen_app. cbn [app]. do 3 f_equal. fold tl. lia.
Qed.

Lemma ExtractMUSMsgHeaderStringList_wire l pre post off :
  hl_ok l -> zlen (HeaderStringList_WriteBytes l) < int31 -> off = zlen pre ->
  ExtractMUSMsgHeaderStringList (pre ++ HeaderStringList_WriteBytes l ++ post) off =
  Ret (inr (l, zlen (HeaderStringList_WriteBytes l))).
Proof.
  intros [Hcount Hss] Hb ->. destruct l as [n ss]. cbn [hl_Count hl_Strings] in *.
  unfold ExtractMUSMsgHeaderStringList, HeaderStringList_WriteBytes, PutUint32 in *.
  cbn [hl_Strings] in *. pose proof (zlen_strings ss). pose proof (zlen_nonneg ss).
  pose proof (zlen_nonneg post). rewrite zlen_app, zlen_be_put in Hb. simpl Z.of_nat in Hb.
  rewrite <- app_assoc. rewrite (proj2 (Z.ltb_ge _ _)) by zl.
  rewrite be_uint_put by done. rewrite bind_Ret, int32_read by lia.
  rewrite (proj2 (Z.ltb_ge _ _)) by (apply Z.div_le_lower_bound; [lia|zl]).
  rewrite (app_assoc pre).
  rewrite ExtractList_loop_wire;
    [|done|lia|lia|rewrite !length_app; unfold zlen in *; lia|zl].
  cbn [or_fail mbind outcome_bind fst snd app]. subst n. do 3 f_equal. zl.
Qed.

(** A message the server builds: consistent header fields and 32-bit codes. *)
Definition msg_built (m : MUSMessage) : Prop :=
  in_int32 (ErrCode m) /\ in_int32 (TimeStamp m) /\
  hs_ok (Subject m) /\ hs_ok (SenderID m) /\ hl_ok (RecptID m).

(** The message a receiver reconstructs from [m]'s header, the content bytes it
    saw, their decryption and the parsed content. *)
Definition received (m : MUSMessage) (size : Z) (raw dec : bytes) (v : option LValue) : MUSMessage :=
  mkMUSMessage size (ErrCode m) (TimeStamp m) (Subject m) (SenderID m) (RecptID m) raw dec v.

Definition opened (decrypt : option Cipher) (m : MUSMessage) (tail : bytes) : bytes :=
  match decrypt with
  | Some c => if decide (hs_Value (Subject m) = "Logon"%string) then Decrypt c tail else tail
  | None => tail
  end.

Lemma parse_fields_wire m decrypt tail h6 sz :
  msg_built m -> zlen h6 = 6 -> zlen (header_payload m ++ tail) < int31 ->
  parse_fields (h6 ++ header_payload m ++ tail) sz decrypt =
  if 0 <? zlen tail then
    v ← FromRawBytes (opened decrypt m tail) 0;
    Ret (inr (received m sz tail (opened decrypt m tail) (Some v)))
  else Ret (inr (received m sz [] [] None)).
Proof.
  intros (Hec & Hts & Hsub & Hsnd & Hrcp) Hh6 Hlt. unfold parse_fields.
  set (raw := h6 ++ header_payload m ++ tail). pose proof (zlen_nonneg tail).
  assert (raw = h6 ++ header_payload m ++ tail) as Hraw by done. clearbody raw.
  unfold header_payload, PutUint32 in *. rewrite !zlen_app, !zlen_be_put in Hlt. simpl Z.of_nat in Hlt.
  set (A := HeaderString_WriteBytes (Subject m)) in *.
  set (B := HeaderString_WriteBytes (SenderID m)) in *.
  set (C := HeaderStringList_WriteBytes (RecptID m)) in *.
  pose proof (zlen_nonneg A). pose proof (zlen_nonneg B). pose proof (zlen_nonneg C).
  rewrite <- !app_assoc in Hraw.
  assert (be_uint 4 raw 6 = Ret (uint32 (ErrCode m))) as ->.
  { rewrite Hraw, be_uint_put by done. f_equal. apply Z.mod_small, uint32_range. }
  assert (be_uint 4 raw 10 = Ret (uint32 (TimeStamp m))) as ->.
  { rewrite Hraw, (app_assoc h6), be_uint_put by zl. f_equal. apply Z.mod_small, uint32_range. }
  rewrite !bind_Ret, !int32_uint32, !int32_id by done.
  set (h14 := h6 ++ be_put 4 (uint32 (ErrCode m)) ++ be_put 4 (uint32 (TimeStamp m))).
  assert (zlen h14 = 14) as Hh14 by (unfold h14; rewrite !zlen_app, !zlen_be_put; simpl; lia).
  assert (raw = h14 ++ A ++ B ++ C ++ tail) as Hraw' by (rewrite Hraw; unfold h14; by rewrite <- !app_assoc).
  clearbody h14. clear Hraw.
  pose proof (zlen_HeaderString (Subject m)) as HA. pose proof (zlen_HeaderString (SenderID m)) as HB.
  fold A in HA. fold B in HB.
  assert (ExtractMUSMsgHeaderString raw 14 = Ret (inr (Subject m, zlen A))) as ->.
  { rewrite Hraw'. apply ExtractMUSMsgHeaderString_wire; done || lia. }
  cbn [or_fail mbind outcome_bind fst snd].
  assert (ExtractMUSMsgHeaderString raw (14 + zlen A) = Ret (inr (SenderID m, zlen B))) as ->.
  { rewrite Hraw', (app_assoc h14). apply ExtractMUSMsgHeaderString_wire; done || zl. }
  cbn [or_fail mbind outcome_bind fst snd].
  assert (ExtractMUSMsgHeaderStringList raw (14 + zlen A + zlen B) = Ret (inr (RecptID m, zlen C))) as ->.
  { rewrite Hraw', (app_assoc h14), (app_assoc (h14 ++ A)).
    apply ExtractMUSMsgHeaderStringList_wire; [done|fold C; lia|zl]. }
  cbn [or_fail mbind outcome_bind fst snd]. unfold slice_from.
  assert (zlen raw = 14 + zlen A + zlen B + zlen C + zlen tail) as Hz by (rewrite Hraw'; zl).
  rewrite Hz. zcase; try lia; [|done].
  assert (slice raw (14 + zlen A + zlen B + zlen C)
    (14 + zlen A + zlen B + zlen C + zlen tail) = Ret tail) as ->; [|done].
  replace raw with (((h14 ++ A) ++ B ++ C) ++ tail ++ []) by (rewrite Hraw', app_nil_r; by rewrite <- !app_assoc).
  apply slice_app; zl.
Qed.

Lemma parse_body_wire m decrypt tail :
  msg_built m -> zlen (header_payload m ++ tail) < int31 ->
  parse_body (envelope (header_payload m ++ tail)) decrypt =
  if 0 <? zlen tail then
    v ← FromRawBytes (opened decrypt m tail) 0;
    Ret (inr (received m (zlen (header_payload m ++ tail)) tail (opened decrypt m tail) (Some v)))
  else Ret (inr (received m (zlen (header_payload m ++ tail)) [] [] None)).
Proof.
  intros Hm Hlt. unfold parse_body, envelope.
  set (P := header_payload m ++ tail) in *. assert (0 <= zlen P) by apply zlen_nonneg.
  unfold PutUint32. rewrite be_uint_put by done. rewrite bind_Ret, int32_read by done. cbv zeta.
  rewrite int32_id by (unfold in_int32, int31 in *; lia).
  rewrite (proj2 (Z.ltb_ge (zlen P) 0)) by lia.
  rewrite (proj2 (Z.ltb_ge _ _)) by (unfold MUSHeader; zl). cbn [orb].
  rewrite app_assoc. apply parse_fields_wire; [done|unfold MUSHeader; zl|done].
Qed.

Lemma zlen_envelope P : zlen (envelope P) = 6 + zlen P.
Proof. unfold envelope, MUSHeader, PutUint32. zl. Qed.

Lemma zlen_header_payload m : 20 <= zlen (header_payload m).
Proof.
  unfold header_payload, HeaderStringList_WriteBytes, PutUint32.
  pose proof (zlen_HeaderString (Subject m)). pose proof (zlen_HeaderString (SenderID m)).
  pose proof (slen_nonneg (hs_Value (Subject m))). pose proof (slen_nonneg (hs_Value (SenderID m))).
  pose proof (zlen_nonneg (concat (HeaderString_WriteBytes <$> hl_Strings (RecptID m)))). zl.
Qed.

Lemma has_header_envelope P : has_header (envelope P) = Ret true.
Proof. reflexivity. Qed.

(** Parsing a plain packet. *)
Lemma parse_envelope m decrypt tail :
  msg_built m -> zlen (header_payload m ++ tail) < int31 ->
  ParseMUSMessageWithDecryption (envelope (header_payload m ++ tail)) decrypt =
  parse_body (envelope (header_payload m ++ tail)) decrypt.
Proof.
  intros Hm Hlt. unfold ParseMUSMessageWithDecryption.
  pose proof (zlen_header_payload m). pose proof (zlen_nonneg tail).
  rewrite (proj2 (Z.ltb_ge _ _)) by (rewrite zlen_envelope, zlen_app; lia).
  by rewrite has_header_envelope.
Qed.

Lemma NewResponse_built now subject sender recipients code content :
  in_int32 code -> msg_built (NewResponse now subject sender recipients code content).
Proof.
  intros Hc. unfold msg_built, hl_ok, NewResponse.
  cbn [ErrCode TimeStamp Subject SenderID RecptID hl_Count hl_Strings].
  split; [done|]. split; [apply int32_range|]. do 3 (split; [done || by rewrite zlen_fmap|]).
  by apply Forall_fmap, Forall_true.
Qed.

Lemma zlen_wire_pos v : 0 < zlen (wire v).
Proof. rewrite zlen_wire. pose proof (zlen_nonneg (payload v)). lia. Qed.

(** ** Properties *)

(** C33. Message round trip: a message with consistent header fields and an
    encodable content of total size below 2^31 is serialised without panic, and
    parsing the packet gives back its codes, subject, sender and recipients, its
    content bytes, and the content as [parsed_top] reconstructs it: that is the
    content itself exactly when no non-empty property list is nested in it. *)
Theorem message_roundtrip (m : MUSMessage) (v : LValue) :
  msg_built m -> MsgContent m = Some v -> encodable v = true ->
  zlen (header_payload m ++ wire v) < int31 ->
  exists bs, MUSMessage_GetBytes m = Ret bs /\
    ParseMUSMessage bs =
      Ret (inr (received m (zlen bs - 6) (wire v) (wire v) (Some (parsed_top v)))) /\
    (parsed_top v = v <-> flat_props v = true).
Proof.
  intros Hm Hc He Hlt. unfold MUSMessage_GetBytes. rewrite Hc, GetBytes_wire, bind_Ret by done.
  eexists. split; [done|]. unfold ParseMUSMessage. rewrite parse_envelope, parse_body_wire by done.
  rewrite (proj2 (Z.ltb_lt _ _)) by apply zlen_wire_pos. cbn [opened].
  pose proof (FromRawBytes_at v [] [] He) as H. rewrite app_nil_r in H. cbn [app] in H.
  change (zlen []) with 0 in H. rewrite H, bind_Ret, zlen_envelope.
  split; [|apply parsed_top_fixed]. do 3 f_equal. lia.
Qed.

Definition sample_response : MUSMessage :=
  NewResponse 1700000000 "system.group.join" "System" ["alice"; "@AllUsers"] ErrNoError (Some sample_value).

Lemma message_roundtrip_witness :
  exists bs, MUSMessage_GetBytes sample_response = Ret bs /\
    ParseMUSMessage bs =
      Ret (inr (received sample_response (zlen bs - 6) (wire sample_value) (wire sample_value)
        (Some sample_value))).
Proof.
  destruct (message_roundtrip sample_response sample_value) as (bs & H1 & H2 & H3).
  - apply NewResponse_built. unfold in_int32, ErrNoError. lia.
  - reflexivity.
  - reflexivity.
  - vm_compute. reflexivity.
  - exists bs. split; [exact H1|]. rewrite H2, (proj2 H3) by reflexivity. reflexivity.
Defined.

(** Encrypted logon: with a lawful cipher, a Logon message whose content
    bytes were encrypted is parsed to the plain content; the encrypted bytes
    stay available as the raw contents. *)
Theorem logon_body_decrypted (c : Cipher) (m : MUSMessage) (v : LValue) :
  CipherLaws c -> msg_built m -> hs_Value (Subject m) = "Logon"%string ->
  encodable v = true -> zlen (header_payload m ++ wire v) < int31 ->
  ParseMUSMessageWithDecryption (envelope (header_payload m ++ Encrypt c (wire v))) (Some c) =
    Ret (inr (received m (zlen (header_payload m ++ wire v)) (Encrypt c (wire v)) (wire v)
      (Some (parsed_top v)))).
Proof.
  intros Hl Hm Hs He Hlt.
  assert (zlen (header_payload m ++ Encrypt c (wire v)) = zlen (header_payload m ++ wire v)) as Hz
    by (rewrite !zlen_app, Encrypt_zlen; done).
  rewrite parse_envelope, parse_body_wire by (exact Hm || (rewrite Hz; exact Hlt)).
  rewrite (proj2 (Z.ltb_lt _ _)) by (rewrite Encrypt_zlen; apply zlen_wire_pos).
  cbn [opened]. rewrite decide_True, Decrypt_Encrypt by done.
  pose proof (FromRawBytes_at v [] [] He) as H. rewrite app_nil_r in H. cbn [app] in H.
  change (zlen []) with 0 in H. by rewrite H, bind_Ret, Hz.
Qed.

(** A toy involutive cipher for the witnesses. *)
Definition flip_byte (b : byte) : byte := byte_of_Z (255 - Z_of_byte b).
Definition flip_cipher : Cipher := mkCipher (fmap flip_byte) (fmap flip_byte).

Lemma flip_byte_twice b : flip_byte (flip_byte b) = b.
Proof.
  apply Z_of_byte_inj. unfold flip_byte. rewrite !Z_of_byte_of_Z.
  pose proof (Z_of_byte_range b).
  rewrite (Z.mod_small (255 - Z_of_byte b)), Z.mod_small by lia. lia.
Qed.

Lemma flip_cipher_laws : CipherLaws flip_cipher.
Proof.
  constructor; intros x; [|apply zlen_fmap..]. unfold flip_cipher, Decrypt, Encrypt.
  induction x as [|b x IH]; [done|]. rewrite !fmap_cons, flip_byte_twice. by f_equal.
Qed.

Lemma logon_body_decrypted_witness :
  let m := NewResponse 5 "Logon" "bob" ["System"] 0 None in
  let v := LList [LString "faria"; LString "bob"; LString "pw"] in
  ParseMUSMessageWithDecryption (envelope (header_payload m ++ Encrypt flip_cipher (wire v)))
    (Some flip_cipher) =
    Ret (inr (received m (zlen (header_payload m ++ wire v)) (Encrypt flip_cipher (wire v)) (wire v)
      (Some (parsed_top v)))).
Proof.
  apply logon_body_decrypted.
  - apply flip_cipher_laws.
  - apply NewResponse_built. unfold in_int32. lia.
  - reflexivity.
  - reflexivity.
  - vm_compute. reflexivity.
Defined.

(** Whole-packet encryption: a packet encrypted with a lawful cipher parses
    exactly like the plain packet, as long as its ciphertext does not happen to
    begin with the plain header. *)
Theorem encrypted_packet_parse (c : Cipher) (P : bytes) :
  CipherLaws c -> 8 <= zlen P -> has_header (Encrypt c (envelope P)) = Ret false ->
  ParseMUSMessageWithDecryption (Encrypt c (envelope P)) (Some c) =
  ParseMUSMessageWithDecryption (envelope P) (Some c).
Proof.
  intros Hl HP Hh. unfold ParseMUSMessageWithDecryption.
  rewrite Encrypt_zlen, zlen_envelope. rewrite !(proj2 (Z.ltb_ge _ _)) by lia.
  rewrite Hh, has_header_envelope, !bind_Ret. cbv zeta. rewrite Decrypt_Encrypt, zlen_envelope.
  rewrite (proj2 (Z.ltb_ge _ _)) by lia. by rewrite has_header_envelope.
Qed.

Lemma encrypted_packet_parse_witness :
  let P := header_payload (NewResponse 5 "x" "bob" ["System"] 0 None) in
  ParseMUSMessageWithDecryption (Encrypt flip_cipher (envelope P)) (Some flip_cipher) =
  ParseMUSMessageWithDecryption (envelope P) (Some flip_cipher).
Proof.
  apply encrypted_packet_parse; [apply flip_cipher_laws|vm_compute; discriminate|reflexivity].
Defined.

(** ** No fuel is needed for a packet *)

Lemma fueled_delivers {E A} (m : outcome (E + A)) P : delivers m P -> fueled m.
Proof. by intros (r & -> & _). Qed.

Lemma fueled_has_header raw : fueled (has_header raw).
Proof. unfold has_header. auto with fuel. Qed.

Lemma fueled_Parse raw c : fueled (ParseMUSMessageWithDecryption raw c).
Proof.
  unfold ParseMUSMessageWithDecryption. zcase; [done|]. apply fueled_bind; [apply fueled_has_header|].
  intros [] _; [by eapply fueled_delivers, parse_body_delivers|]. destruct c as [c|]; [|done].
  cbv zeta. zcase; [auto with fuel|]. apply fueled_bind; [apply fueled_has_header|].
  intros [] _; [by eapply fueled_delivers, parse_body_delivers|done].
Qed.

Lemma fueled_MUSMessage_GetBytes m : fueled (MUSMessage_GetBytes m).
Proof. unfold MUSMessage_GetBytes. destruct (MsgContent m); auto with fuel. Qed.

#[export] Hint Resolve fueled_Parse fueled_MUSMessage_GetBytes : fuel.
