(* ===== verification/Paths.v ===== *)
(** * File paths (package path/filepath on Unix)

    [Clean], [Join], [IsAbs] and [Abs] as lexical operations on the elements of
    a path, which is all the script engine uses to confine what clients name.
    The working directory [Abs] starts from is an argument. *)

From Stdlib Require Import ZArith Lia String Ascii.
From stdpp Require Import base list strings option sets.
From S2P Require Import Prelude.

Definition slash : ascii := "/"%char.

(** The elements between slashes: one more than there are slashes. *)
Fixpoint split_path (s : string) : list string :=
  match s with
  | EmptyString => [EmptyString]
  | String c s =>
      if decide (c = slash) then EmptyString :: split_path s
      else match split_path s with
           | e :: l => String c e :: l
           | [] => [String c EmptyString]
           end
  end.

Fixpoint join_path (l : list string) : string :=
  match l with
  | [] => EmptyString
  | [e] => e
  | e :: l => e +:+ String slash (join_path l)
  end.

Definition IsAbs (path : string) : bool :=
  match path with String c _ => bool_decide (c = slash) | EmptyString => false end.

(** The loop of [Clean] over the elements: what has been written so far is
    [out], last element first. *)
Fixpoint clean_loop (rooted : bool) (out : list string) (l : list string) : list string :=
  match l with
  | [] => out
  | e :: l =>
      if decide (e = ""%string) then clean_loop rooted out l
      else if decide (e = "."%string) then clean_loop rooted out l
      else if decide (e = ".."%string) then
        match out with
        | top :: out' => if decide (top = ".."%string) then clean_loop rooted (e :: out) l else clean_loop rooted out' l
        | [] => clean_loop rooted (if rooted then [] else [e]) l
        end
      else clean_loop rooted (e :: out) l
  end.

(** The elements of a cleaned path. *)
Definition clean_elements (path : string) : list string := rev (clean_loop (IsAbs path) [] (split_path path)).

Definition Clean (path : string) : string :=
  if IsAbs path then String slash (join_path (clean_elements path))
  else match clean_elements path with
       | [] => "."%string
       | l => join_path l
       end.

(** [Join] of two elements; empty elements in front are skipped. *)
Definition Join2 (a b : string) : string :=
  if decide (a = ""%string) then if decide (b = ""%string) then ""%string else Clean b
  else Clean (a +:+ String slash b).

(** [Abs]: the working directory may be unavailable. *)
Definition Abs (wd : option string) (path : string) : option string :=
  if IsAbs path then Some (Clean path) else (fun wd => Join2 wd path) <$> wd.

(** ** Splitting and joining *)

Lemma path_app_assoc (a b c : string) : (a +:+ b) +:+ c = a +:+ b +:+ c.
Proof. induction a as [|x a IH]; [done|]. exact (f_equal (String x) IH). Qed.

Definition no_slash (e : string) : Prop := slash ∉ String.list_ascii_of_string e.

(** A name: an element that is none of the special ones. *)
Definition name (e : string) : Prop := e <> ""%string /\ e <> "."%string /\ e <> ".."%string /\ no_slash e.

Lemma split_path_cons s : exists e l, split_path s = e :: l.
Proof.
  destruct s as [|c s]; cbn; [eauto|]. case_decide; [eauto|]. destruct (split_path s); eauto.
Qed.

Lemma split_path_no_slash s : Forall no_slash (split_path s).
Proof.
  induction s as [|c s IH]; cbn; [by apply Forall_singleton, not_elem_of_nil|]. case_decide as Hc.
  - constructor; [apply not_elem_of_nil|done].
  - destruct (split_path s) as [|e l]; [apply Forall_singleton|inversion IH; subst; constructor; [|done]];
      intros [Hx|Hx]%elem_of_cons; try done; (by apply not_elem_of_nil in Hx) || (by apply H1 in Hx).
Qed.

Lemma split_path_app e s : no_slash e -> split_path (e +:+ String slash s) = e :: split_path s.
Proof.
  induction e as [|c e IH]; intros He; [done|].
  change (String c e +:+ String slash s) with (String c (e +:+ String slash s)). cbn [split_path]. rewrite decide_False.
  - rewrite IH; [done|]. intros H. apply He. by right.
  - intros ->. apply He. left.
Qed.

Lemma split_path_plain e : no_slash e -> split_path e = [e].
Proof.
  induction e as [|c e IH]; intros He; cbn; [done|]. rewrite decide_False.
  - rewrite IH; [done|]. intros H. apply He. by right.
  - intros ->. apply He. left.
Qed.

Lemma split_join l : l <> [] -> Forall no_slash l -> split_path (join_path l) = l.
Proof.
  intros Hl H. induction H as [|e l He Hf IH]; [done|]. destruct l as [|e' l]; [by apply split_path_plain|].
  change (join_path (e :: e' :: l)) with (e +:+ String slash (join_path (e' :: l))).
  rewrite split_path_app by done. by rewrite IH.
Qed.

Lemma split_path_slash_app a b : split_path (a +:+ String slash b) = split_path a ++ split_path b.
Proof.
  induction a as [|c a IH]; [done|]. change (String c a +:+ String slash b) with (String c (a +:+ String slash b)).
  cbn [split_path]. rewrite IH. case_decide; [done|]. by destruct (split_path_cons a) as (e & l & ->).
Qed.

(** ** Cleaning *)

Lemma clean_loop_app r out l k : clean_loop r out (l ++ k) = clean_loop r (clean_loop r out l) k.
Proof.
  revert out. induction l as [|e l IH]; intros out; [done|]. cbn [app clean_loop].
  repeat case_decide; try apply IH. destruct out as [|top out']; [apply IH|]. case_decide; apply IH.
Qed.

Lemma clean_loop_push r out e : name e -> clean_loop r out [e] = e :: out.
Proof. intros (H1 & H2 & H3 & _). cbn. by rewrite !decide_False. Qed.

Lemma clean_loop_names r out l : Forall name l -> clean_loop r out l = rev l ++ out.
Proof.
  intros H. revert out. induction H as [|e l He _ IH]; intros out; [done|].
  change (e :: l) with ([e] ++ l). rewrite clean_loop_app, clean_loop_push by done. rewrite IH. cbn.
  by rewrite <- app_assoc.
Qed.

(** Below the root there are only names. *)
Lemma clean_loop_rooted out l : Forall name out -> Forall no_slash l -> Forall name (clean_loop true out l).
Proof.
  intros Ho Hl. revert out Ho. induction Hl as [|e l He _ IH]; intros out Ho; [done|]. cbn.
  repeat case_decide; try (by apply IH).
  - destruct Ho as [|top out' Ht Ho]; [by apply IH|]. case_decide; [by destruct Ht as (_ & _ & ? & _)|by apply IH].
  - apply IH. by constructor.
Qed.

Lemma clean_elements_names p : IsAbs p = true -> Forall name (clean_elements p).
Proof.
  intros Hp. unfold clean_elements. rewrite Hp. apply Forall_rev. apply clean_loop_rooted; [done|apply split_path_no_slash].
Qed.

Lemma name_no_slash e : name e -> no_slash e.
Proof. by intros (_ & _ & _ & ?). Qed.

Lemma names_no_slash l : Forall name l -> Forall no_slash l.
Proof. induction 1; constructor; auto using name_no_slash. Qed.

Lemma split_rooted l : Forall name l -> exists pre, split_path (String slash (join_path l)) = pre ++ l /\ clean_loop true [] pre = [].
Proof.
  intros H. change (String slash (join_path l)) with (""%string +:+ String slash (join_path l)).
  rewrite split_path_app by apply not_elem_of_nil. destruct l as [|e l]; [by exists [""; ""]%string|].
  exists [""%string]. rewrite split_join; [done|done|]. by apply names_no_slash.
Qed.

(** The elements of a rooted path written out. *)
Lemma clean_elements_rooted l : Forall name l -> clean_elements (String slash (join_path l)) = l.
Proof.
  intros H. unfold clean_elements. cbn [IsAbs]. rewrite bool_decide_eq_true_2 by done.
  destruct (split_rooted l H) as (pre & -> & Hpre). rewrite clean_loop_app, Hpre, clean_loop_names by done.
  by rewrite app_nil_r, rev_involutive.
Qed.

Lemma IsAbs_Clean p : IsAbs p = true -> IsAbs (Clean p) = true.
Proof. intros Hp. unfold Clean. rewrite Hp. done. Qed.

Lemma clean_elements_Clean p : IsAbs p = true -> clean_elements (Clean p) = clean_elements p.
Proof. intros Hp. unfold Clean. rewrite Hp. by apply clean_elements_rooted, clean_elements_names. Qed.

(** A relative path means the same before and after cleaning. *)
Definition stacked (e : string) : Prop := name e \/ e = ".."%string.

Lemma clean_relative out st l :
  Forall name out -> Forall stacked st -> Forall no_slash l ->
  clean_loop true out (rev (clean_loop false st l)) = clean_loop true (clean_loop true out (rev st)) l.
Proof.
  intros Ho Hs Hl. revert st Hs. induction Hl as [|e l He Hl IH]; intros st Hs; [done|].
  assert (forall x, clean_loop true (clean_loop true out (rev st)) [x] = clean_loop true out (rev (x :: st))) as Hpush
    by (intros x; cbn [rev]; by rewrite clean_loop_app).
  change (e :: l) with ([e] ++ l) at 2. rewrite clean_loop_app. cbn [clean_loop app].
  destruct (decide (e = ""%string)) as [->|Hempty]; [by apply IH|].
  destruct (decide (e = "."%string)) as [->|Hdot]; [by apply IH|].
  destruct (decide (e = ".."%string)) as [->|Hdotdot].
  - destruct st as [|top st].
    + rewrite IH by (apply Forall_singleton; by right). by rewrite <- Hpush.
    + inversion Hs as [|? ? Ht Hs']; subst. destruct (decide (top = ".."%string)) as [->|Hne].
      * rewrite IH by (constructor; [by right|done]). by rewrite <- Hpush.
      * destruct Ht as [Ht|]; [|done]. rewrite IH by done. cbn [rev]. rewrite clean_loop_app, clean_loop_push by done.
        by rewrite decide_False.
  - rewrite IH by (constructor; [by left|done]). rewrite <- Hpush, clean_loop_push by done. done.
Qed.

Lemma clean_loop_stacked st l : Forall stacked st -> Forall no_slash l -> Forall stacked (clean_loop false st l).
Proof.
  intros Hs Hl. revert st Hs. induction Hl as [|e l He _ IH]; intros st Hs; [done|]. cbn.
  repeat case_decide; try (by apply IH).
  - destruct Hs as [|top st Ht Hs]; [apply IH, Forall_singleton; by right|].
    case_decide; apply IH; [constructor; [by right|by constructor]|done].
  - apply IH. constructor; [by left|done].
Qed.

Lemma stacked_no_slash e : stacked e -> no_slash e.
Proof. intros [H| ->]; [by apply name_no_slash|]. unfold no_slash. cbn. set_solver. Qed.

Lemma relative_elements p : Forall stacked (rev (clean_loop false [] (split_path p))).
Proof. apply Forall_rev, clean_loop_stacked; [done|apply split_path_no_slash]. Qed.

Lemma split_Clean out p :
  IsAbs p = false -> Forall name out -> clean_loop true out (split_path (Clean p)) = clean_loop true out (split_path p).
Proof.
  intros Hp Ho. unfold Clean. rewrite Hp. unfold clean_elements. rewrite Hp.
  pose proof (clean_relative out [] (split_path p) Ho (Forall_nil_2 _) (split_path_no_slash p)) as Hr. cbn [rev] in Hr.
  pose proof (relative_elements p) as Hst. destruct (rev (clean_loop false [] (split_path p))) as [|e l] eqn:E.
  - exact Hr.
  - rewrite split_join; [exact Hr|done|]. clear -Hst. induction Hst; constructor; auto using stacked_no_slash.
Qed.

Lemma IsAbs_Clean_relative p : IsAbs p = false -> IsAbs (Clean p) = false.
Proof.
  intros Hp. unfold Clean. rewrite Hp. unfold clean_elements. rewrite Hp. pose proof (relative_elements p) as Hst.
  destruct (rev _) as [|e l]; [done|]. inversion Hst as [|? ? He _]; subst.
  destruct e as [|c e]; [by destruct He as [[? _]|?]|]. apply stacked_no_slash in He.
  assert (c <> slash) by (intros ->; apply He; left). destruct l as [|e' l]; exact (bool_decide_eq_false_2 _ H).
Qed.

(** What an absolute path stands for, whether it was given or completed. *)
Definition base (wd path : string) : list string := if IsAbs path then [] else clean_loop true [] (split_path wd).

Lemma base_names wd path : Forall name (base wd path).
Proof. unfold base. destruct (IsAbs path); [done|]. apply clean_loop_rooted; [done|apply split_path_no_slash]. Qed.

Lemma IsAbs_app a b : a <> ""%string -> IsAbs (a +:+ b) = IsAbs a.
Proof. by destruct a. Qed.

Lemma Abs_elements wd p a :
  IsAbs wd = true -> Abs (Some wd) p = Some a ->
  IsAbs a = true /\ clean_elements a = rev (clean_loop true (base wd p) (split_path p)).
Proof.
  intros Hwd. assert (wd <> ""%string) as Hne by (by intros ->). unfold Abs, base.
  destruct (IsAbs p) eqn:Hp; cbn; intros [= <-].
  - split; [by apply IsAbs_Clean|]. rewrite clean_elements_Clean by done. unfold clean_elements. by rewrite Hp.
  - unfold Join2. rewrite decide_False by done.
    assert (IsAbs (wd +:+ String slash p) = true) as Ha by (by rewrite IsAbs_app).
    split; [by apply IsAbs_Clean|]. rewrite clean_elements_Clean by done. unfold clean_elements. rewrite Ha.
    by rewrite split_path_slash_app, clean_loop_app.
Qed.

(** A file below a directory. *)
Lemma Abs_Join2 wd dir f d a :
  IsAbs wd = true -> dir <> ""%string ->
  Abs (Some wd) dir = Some d -> Abs (Some wd) (Join2 dir f) = Some a ->
  clean_elements a = rev (clean_loop true (rev (clean_elements d)) (split_path f)).
Proof.
  intros Hwd Hdir Hd Ha. apply Abs_elements in Hd as [_ ->]; [|done]. apply Abs_elements in Ha as [_ ->]; [|done].
  rewrite rev_involutive. unfold Join2. rewrite decide_False by done. unfold base.
  assert (IsAbs (dir +:+ String slash f) = IsAbs dir) as E by (by rewrite IsAbs_app). destruct (IsAbs dir) eqn:Hab.
  - rewrite IsAbs_Clean by done. unfold Clean. rewrite E. pose proof (clean_elements_names _ E) as Hn.
    destruct (split_rooted _ Hn) as (pre & -> & Hpre). rewrite clean_loop_app, Hpre, clean_loop_names, app_nil_r by done.
    unfold clean_elements. rewrite E, rev_involutive. by rewrite split_path_slash_app, clean_loop_app.
  - rewrite IsAbs_Clean_relative by done. pose proof (base_names wd dir) as Hb. unfold base in Hb. rewrite Hab in Hb.
    rewrite split_Clean by done. by rewrite split_path_slash_app, clean_loop_app.
Qed.

(** ** Containment *)

(** [strings.Contains] *)
Fixpoint Contains (s sub : string) : bool :=
  HasPrefix s sub || match s with String _ s => Contains s sub | EmptyString => false end.

Lemma Contains_spec s sub : Contains s sub = true <-> exists a b, s = a +:+ sub +:+ b.
Proof.
  split.
  - induction s as [|c s IH]; cbn [Contains]; rewrite orb_true_iff, HasPrefix_spec; intros [[r ->]|H]; try (by exists ""%string, r); [done|].
    destruct (IH H) as (a & b & ->). by exists (String c a), b.
  - intros (a & b & ->). induction a as [|c a IH].
    + change ("" +:+ sub +:+ b) with (sub +:+ b). pose proof (HasPrefix_app sub b) as H.
      destruct (sub +:+ b); cbn [Contains]; by rewrite H.
    + change (String c a +:+ sub +:+ b) with (String c (a +:+ sub +:+ b)). cbn [Contains]. by rewrite IH, orb_true_r.
Qed.

Definition containsDotDot (path : string) : bool := Contains path "..".

Definition isSubpath (parent child : string) : bool :=
  HasPrefix (Clean child) (Clean parent +:+ String slash EmptyString).

(** A subpath lies strictly below its parent. *)
Lemma isSubpath_spec parent child :
  IsAbs parent = true -> IsAbs child = true ->
  isSubpath parent child = true <->
  clean_elements parent <> [] /\ exists rest, rest <> [] /\ clean_elements child = clean_elements parent ++ rest.
Proof.
  intros Hp Hc. unfold isSubpath, Clean. rewrite Hp, Hc.
  pose proof (clean_elements_names _ Hp) as Hnp. pose proof (clean_elements_names _ Hc) as Hnc.
  set (lp := clean_elements parent) in *. set (lc := clean_elements child) in *.
  rewrite HasPrefix_spec. split.
  - intros [r E]. rewrite path_app_assoc in E. injection E as E.
    assert (join_path lc = join_path lp +:+ String slash r) as E' by exact E.
    clear E. destruct lc as [|e lc']; [destruct (join_path lp); discriminate|]. apply (f_equal split_path) in E'.
    rewrite split_join, split_path_slash_app in E' by (done || by apply names_no_slash). destruct lp as [|e' lp'].
    + exfalso. cbn in E'. injection E' as -> _. by inversion Hnc as [|? ? [? _] _].
    + rewrite split_join in E' by (done || by apply names_no_slash). split; [done|]. exists (split_path r).
      split; [|exact E']. by destruct (split_path_cons r) as (x & y & ->).
  - intros (Hne & rest & Hr & ->). exists (join_path rest). rewrite path_app_assoc.
    apply (f_equal (String slash)). change (String slash "" +:+ ?y) with (String slash y). clear -Hne Hr.
    induction lp as [|e lp IH]; [done|]. destruct lp as [|e' lp]; [by destruct rest|].
    change (e +:+ String slash (join_path ((e' :: lp) ++ rest)) = (e +:+ String slash (join_path (e' :: lp))) +:+ String slash (join_path rest)).
    rewrite IH by done. by rewrite path_app_assoc.
Qed.
