(* ===== verification/ScriptPath.v ===== *)
(** * Which files scripts come from (outbound/lua_script_engine.go,
    lua_sandboxed_loader.go)

    The subject of a message, chosen by a client, names the script to run; scripts
    name modules, files and sandboxed chunks. This file is the part of the engine
    that turns such names into paths. The file system is a pair of arguments:
    which paths exist ([os.Stat]) and what symbolic links resolve to
    ([filepath.EvalSymlinks]).

    [script_contained]: whatever the name, a path that is opened lies strictly
    below the scripts directory, and every harmless name is accepted.
    [script_longest_prefix]: a subject runs the script of its longest dash-prefix
    that has one; the search always ends. [sandboxed_contained]: a sandboxed chunk
    lies strictly below its directory, also through symbolic links. *)

From Stdlib Require Import ZArith Lia String Ascii.
From stdpp Require Import base list strings option sets.
From S2P Require Import Prelude Paths.

Record LuaScriptEngine := mkLuaScriptEngine {
  e_scriptsDir : string;
  e_sandboxedDir : string
}.

Section Engine.
Context (e : LuaScriptEngine) (wd : option string) (exists_file : string -> bool).

(** A name relative to the scripts directory, resolved and checked. *)
Definition below_scripts (rel : string) : option string :=
  let path := Join2 (e_scriptsDir e) rel in
  match Abs wd path with
  | None => None
  | Some absPath =>
      let absScriptsDir := default ""%string (Abs wd (e_scriptsDir e)) in
      if isSubpath absScriptsDir absPath then Some path else None
  end.

Definition resolveScriptPath (subject : string) : option string :=
  if bool_decide (subject = ""%string) || IsAbs subject || containsDotDot subject then None
  else below_scripts (subject +:+ ".lua").

(** The path of [require(modName)] and of [dofile(name)]. *)
Definition require_path (modName : string) : option string :=
  if IsAbs modName || containsDotDot modName then None
  else match below_scripts (modName +:+ ".lua") with
       | Some path => if exists_file path then Some path else None
       | None => None
       end.

Definition dofile_path (name : string) : option string :=
  if IsAbs name || containsDotDot name then None else below_scripts name.

(** [candidate[:strings.LastIndex(candidate, "-")]], unless the index is not
    positive. *)
Fixpoint cut_last_dash (s : string) : option string :=
  match s with
  | EmptyString => None
  | String c s =>
      match cut_last_dash s with
      | Some p => Some (String c p)
      | None => if decide (c = "-"%char) then Some EmptyString else None
      end
  end.

Fixpoint resolve_loop (fuel : nat) (candidate : string) : outcome (option string) :=
  match fuel with
  | O => OutOfFuel
  | S fuel =>
      let next :=
        match cut_last_dash candidate with
        | None | Some EmptyString => Ret None
        | Some candidate => resolve_loop fuel candidate
        end in
      match resolveScriptPath candidate with
      | Some path => if exists_file path then Ret (Some path) else next
      | None => next
      end
  end.

Definition resolveScript (subject : string) : outcome (option string) := resolve_loop (S (String.length subject)) subject.

Definition HasScript (subject : string) : outcome bool :=
  r ← resolveScript subject; Ret (bool_decide (is_Some r)).

(** ** Sandboxed chunks *)

Context (EvalSymlinks : string -> option string).

Definition chunk_char (c : ascii) : bool :=
  let n := N_of_ascii c in
  (((65 <=? n) && (n <=? 90)) || ((97 <=? n) && (n <=? 122)) || ((48 <=? n) && (n <=? 57)) || (n =? 95) || (n =? 45))%N.

(** The regular expression [^[A-Za-z0-9_-]+$]. *)
Definition sandboxedChunkID (id : string) : bool :=
  negb (bool_decide (id = ""%string)) && forallb chunk_char (String.list_ascii_of_string id).

Definition resolveRealPath (path : string) : option string := real ← EvalSymlinks path; Abs wd real.

(** The file [mus.loadSandboxed(id)] loads. *)
Definition sandboxed_path (id : string) : option string :=
  if negb (sandboxedChunkID id) then None
  else
    realScriptsDir ← resolveRealPath (e_scriptsDir e);
    realChunkDir ← resolveRealPath (Join2 (e_scriptsDir e) (e_sandboxedDir e));
    if negb (isSubpath realScriptsDir realChunkDir) then None
    else
      realChunk ← resolveRealPath (Join2 realChunkDir (id +:+ ".lua"));
      if negb (isSubpath realChunkDir realChunk) then None else Some realChunk.
End Engine.

(** ** Containment *)

(** [path] lies strictly below [dir]: its elements are those of [dir] and at
    least one name more. *)
Definition strictly_below (wd dir path : string) : Prop :=
  exists d a names, Abs (Some wd) dir = Some d /\ Abs (Some wd) path = Some a /\ names <> [] /\ Forall name names /\
    clean_elements a = clean_elements d ++ names.

Lemma below_scripts_sound e wd rel path :
  IsAbs wd = true -> below_scripts e (Some wd) rel = Some path -> strictly_below wd (e_scriptsDir e) path.
Proof.
  intros Hwd. unfold below_scripts. destruct (Abs (Some wd) (Join2 _ rel)) as [a|] eqn:Ha; [|done].
  assert (exists d, Abs (Some wd) (e_scriptsDir e) = Some d) as [d Hd] by (unfold Abs; cbn; destruct (IsAbs (e_scriptsDir e)); eexists; reflexivity).
  rewrite Hd. cbn [from_option id]. destruct (isSubpath d a) eqn:Hs; [|done]. intros [= <-].
  destruct (Abs_elements _ _ _ Hwd Ha) as [Haa _]. destruct (Abs_elements _ _ _ Hwd Hd) as [Hda _].
  apply isSubpath_spec in Hs as (_ & rest & Hr & E); [|done..]. exists d, a, rest. split_and!; try done.
  pose proof (clean_elements_names _ Haa) as Hn. rewrite E in Hn. by apply Forall_app in Hn as [_ ?].
Qed.

(** An element of a path is a piece of it. *)
Lemma split_path_piece s x : x ∈ split_path s -> exists a b, s = a +:+ x +:+ b.
Proof.
  revert x. induction s as [|c s IH]; cbn; intros x.
  - intros ->%list_elem_of_singleton. by exists ""%string, ""%string.
  - case_decide as Hc.
    + intros [->|Hx]%elem_of_cons; [by exists ""%string, (String c s)|].
      destruct (IH _ Hx) as (a & b & ->). by exists (String c a), b.
    + assert (exists b, s = hd ""%string (split_path s) +:+ b) as [b Hb].
      { clear. induction s as [|c s [b IH]]; [by exists ""%string|]. cbn. case_decide; [by eexists|].
        destruct (split_path_cons s) as (h & t & E). rewrite E in *. cbn in *. exists b. exact (f_equal (String c) IH). }
      destruct (split_path_cons s) as (h & t & E). rewrite E in *. cbn in Hb. intros [->|Hx]%elem_of_cons.
      * exists ""%string, b. exact (f_equal (String c) Hb).
      * destruct (IH x) as (a & b' & Hs); [by right|]. exists (String c a), b'. exact (f_equal (String c) Hs).
Qed.

Lemma clean_loop_no_dotdot r out l :
  Forall (fun x => x <> ".."%string) l ->
  clean_loop r out l = rev (filter (fun x => x <> ""%string /\ x <> "."%string) l) ++ out.
Proof.
  intros H. revert out. induction H as [|x l Hx _ IH]; intros out; [done|]. cbn [clean_loop].
  destruct (decide (x = ""%string)) as [->|H1]; [rewrite filter_cons_False by naive_solver; apply IH|].
  destruct (decide (x = "."%string)) as [->|H2]; [rewrite filter_cons_False by naive_solver; apply IH|].
  rewrite decide_False by done. rewrite filter_cons_True by done. rewrite IH. cbn. by rewrite <- app_assoc.
Qed.

Lemma split_path_suffix s x :
  no_slash x -> exists l y, split_path s = l ++ [y] /\ split_path (s +:+ x) = l ++ [y +:+ x].
Proof.
  intros Hx. induction s as [|c s (l & y & H1 & H2)].
  - exists [], ""%string. split; [done|]. by apply split_path_plain.
  - change (String c s +:+ x) with (String c (s +:+ x)). cbn [split_path]. rewrite H1, H2. case_decide.
    + by exists ("" :: l)%string, y.
    + destruct l as [|h l]; [by exists [], (String c y)|]. by exists (String c h :: l), y.
Qed.

Lemma below_scripts_complete e wd subject d :
  IsAbs wd = true -> e_scriptsDir e <> ""%string -> containsDotDot subject = false ->
  Abs (Some wd) (e_scriptsDir e) = Some d -> clean_elements d <> [] ->
  below_scripts e (Some wd) (subject +:+ ".lua") = Some (Join2 (e_scriptsDir e) (subject +:+ ".lua")).
Proof.
  intros Hwd Hdir Hdot Hd Hne. unfold below_scripts. rewrite Hd. cbn [from_option id].
  assert (exists a, Abs (Some wd) (Join2 (e_scriptsDir e) (subject +:+ ".lua")) = Some a) as [a Ha]
    by (unfold Abs; cbn; destruct (IsAbs (Join2 _ _)); eexists; reflexivity).
  rewrite Ha. destruct (Abs_elements _ _ _ Hwd Ha) as [Haa _]. destruct (Abs_elements _ _ _ Hwd Hd) as [Hda _].
  rewrite (proj2 (isSubpath_spec d a Hda Haa)); [done|]. split; [done|].
  rewrite (Abs_Join2 _ _ _ _ _ Hwd Hdir Hd Ha).
  destruct (split_path_suffix subject ".lua") as (l & y & Hl & ->); [unfold no_slash; cbn; set_solver|].
  assert (Forall (fun x => x <> ".."%string) (l ++ [y +:+ ".lua"])) as Hdd.
  { apply Forall_app. split.
    - apply Forall_forall. intros x Hx ->. destruct (split_path_piece subject "..") as (p & q & E).
      { rewrite Hl. apply elem_of_app. by left. }
      assert (containsDotDot subject = true); [|congruence]. apply Contains_spec. eauto.
    - apply Forall_singleton. intros E. by destruct y as [|? [|? [|? y]]]. }
  rewrite clean_loop_no_dotdot by done. eexists. split; [|by rewrite rev_app_distr, !rev_involutive].
  rewrite filter_app, filter_cons_True; [by destruct (filter _ l)|]. split; intros E; by destruct y as [|? [|? y]].
Qed.

(** C6. The scripts directory is a jail for names: the file a message subject, a
    [require] or a [dofile] leads to lies strictly below the directory, its path
    continuing that of the directory by names only, whatever bytes the name
    contains. And the jail refuses nothing else: every non-empty relative subject
    without ".." is resolved to its file below the directory. *)
Theorem script_contained e wd exists_file :
  IsAbs wd = true -> e_scriptsDir e <> ""%string ->
  (forall subject path, resolveScriptPath e (Some wd) subject = Some path -> strictly_below wd (e_scriptsDir e) path) /\
  (forall modName path, require_path e (Some wd) exists_file modName = Some path -> strictly_below wd (e_scriptsDir e) path) /\
  (forall file path, dofile_path e (Some wd) file = Some path -> strictly_below wd (e_scriptsDir e) path) /\
  (forall subject d, subject <> ""%string -> IsAbs subject = false -> containsDotDot subject = false ->
     Abs (Some wd) (e_scriptsDir e) = Some d -> clean_elements d <> [] ->
     resolveScriptPath e (Some wd) subject = Some (Join2 (e_scriptsDir e) (subject +:+ ".lua"))).
Proof.
  intros Hwd Hdir. split_and!.
  - intros subject path. unfold resolveScriptPath. case_match; [done|]. by apply below_scripts_sound.
  - intros m path. unfold require_path. case_match; [done|]. destruct (below_scripts _ _ _) as [p|] eqn:E; [|done].
    destruct (exists_file p); [|done]. intros [= <-]. by eapply below_scripts_sound.
  - intros f path. unfold dofile_path. case_match; [done|]. by apply below_scripts_sound.
  - intros subject d Hs Ha Hc Hd Hne. unfold resolveScriptPath. rewrite bool_decide_eq_false_2, Ha, Hc by done.
    by apply (below_scripts_complete _ _ _ d).
Qed.

(** ** Prefix subjects *)

Definition dash_after (c s : string) : Prop := exists r, s = c +:+ String "-" r.

(** The subjects a subject falls back to: itself, or what precedes one of its
    dashes. *)
Definition dash_prefix (c s : string) : Prop := c = s \/ (c <> ""%string /\ dash_after c s).

Lemma cut_last_dash_spec s :
  match cut_last_dash s with
  | Some p => dash_after p s /\ forall c, dash_after c s -> c = p \/ dash_after c p
  | None => forall c, ~ dash_after c s
  end.
Proof.
  induction s as [|x s IH]; cbn; [intros [] [r [=]]|].
  destruct (cut_last_dash s) as [p|].
  - destruct IH as [[r ->] IH]. split; [by exists r|]. intros c [q Hq]. destruct c as [|y c].
    + right. injection Hq as -> _. by exists p.
    + injection Hq as <- Hq. destruct (IH c) as [->|[t ->]]; [by exists q|by left|]. right. by exists t.
  - case_decide as Hx.
    + subst. split; [by exists s|]. intros c [q Hq]. destruct c as [|y c]; [by left|]. injection Hq as _ Hq.
      exfalso. apply (IH c). by exists q.
    + intros c [q Hq]. destruct c as [|y c]; injection Hq as Hq1 Hq2; [congruence|]. apply (IH c). by exists q.
Qed.

Lemma dash_after_length c s : dash_after c s -> (String.length c < String.length s)%nat.
Proof.
  intros [r ->]. induction c as [|x c IH]; [change (0 < S (String.length r))%nat; lia|].
  change (S (String.length c) < S (String.length (c +:+ String "-" r)))%nat. lia.
Qed.

Section Search.
Context (e : LuaScriptEngine) (wd : option string) (exists_file : string -> bool).

Definition has_file (c path : string) : Prop := resolveScriptPath e wd c = Some path /\ exists_file path = true.

Lemma has_file_dec c : (exists path, has_file c path) \/ forall path, ~ has_file c path.
Proof.
  unfold has_file. destruct (resolveScriptPath e wd c) as [p|]; [|right; naive_solver].
  destruct (exists_file p) eqn:E; [left; eauto|right]. intros q [[= <-] H]. congruence.
Qed.

(** A subject runs the script of its longest prefix that has one, among
    itself and what precedes one of its dashes; it has no script exactly when
    none of them has, and the search always ends. *)
Theorem script_longest_prefix subject :
  exists found, resolveScript e wd exists_file subject = Ret found /\
    match found with
    | Some path => exists c, dash_prefix c subject /\ has_file c path /\
        forall c' path', dash_prefix c' subject -> (String.length c < String.length c')%nat -> ~ has_file c' path'
    | None => forall c path, dash_prefix c subject -> ~ has_file c path
    end.
Proof.
  unfold resolveScript. assert (String.length subject < S (String.length subject))%nat as Hlen by lia. revert Hlen.
  generalize (S (String.length subject)) as fuel. intros fuel. revert subject.
  induction fuel as [|fuel IH]; intros s Hlen; [lia|].
  destruct (has_file_dec s) as [[path [Hp He]]|Hno].
  { cbn [resolve_loop]. rewrite Hp, He. exists (Some path). split; [done|]. exists s. split; [by left|]. split; [done|].
    intros c' p [->|[_ Hc]] Hl; [lia|]. apply dash_after_length in Hc. lia. }
  assert (resolve_loop e wd exists_file (S fuel) s =
    match cut_last_dash s with None | Some EmptyString => Ret None | Some c => resolve_loop e wd exists_file fuel c end) as ->.
  { cbn [resolve_loop]. destruct (resolveScriptPath e wd s) as [p|] eqn:Hp; [|done].
    destruct (exists_file p) eqn:He; [|done]. by destruct (Hno p). }
  pose proof (cut_last_dash_spec s) as Hcut. destruct (cut_last_dash s) as [p|].
  2:{ exists None. split; [done|]. intros c q [->|[_ Hc]]; [apply Hno|by destruct (Hcut c)]. }
  destruct Hcut as [Hps Hall]. assert (forall c, dash_prefix c s -> c = s \/ dash_prefix c p /\ c <> ""%string) as Hsplit.
  { intros c [->|[Hne Hc]]; [by left|right]. split; [|done]. destruct (Hall c Hc) as [->|?]; [by left|by right]. }
  destruct p as [|x p].
  { exists None. split; [done|]. intros c q Hc. destruct (Hsplit c Hc) as [->|[[->|[_ Hx]] Hne]]; [apply Hno|done|].
    destruct Hx as [t Hx]. by destruct c. }
  destruct (IH (String x p)) as (found & -> & Hf); [apply dash_after_length in Hps; lia|]. exists found. split; [done|].
  destruct found as [path|].
  - destruct Hf as (c & Hc & Hhas & Hbest). exists c. split; [|split; [done|]].
    + right. destruct Hc as [->|[Hne [t Hc]]]; [done|]. split; [done|]. destruct Hps as [u ->]. rewrite Hc.
      exists (t +:+ String "-" u). by rewrite path_app_assoc.
    + intros c' path' Hc' Hl. destruct (Hsplit c' Hc') as [->|[Hc'' _]]; [apply Hno|by apply Hbest].
  - intros c path Hc. destruct (Hsplit c Hc) as [->|[Hc' _]]; [apply Hno|by apply Hf].
Qed.
End Search.

(** What [mus.loadSandboxed] loads: the real path of a file strictly below the
    real chunk directory, which is itself strictly below the real scripts
    directory, whatever the symbolic links point to. *)
Theorem sandboxed_contained e wd EvalSymlinks id path :
  IsAbs wd = true -> sandboxed_path e (Some wd) EvalSymlinks id = Some path ->
  exists scripts chunks inner file,
    resolveRealPath (Some wd) EvalSymlinks (e_scriptsDir e) = Some scripts /\
    resolveRealPath (Some wd) EvalSymlinks (Join2 (e_scriptsDir e) (e_sandboxedDir e)) = Some chunks /\
    clean_elements chunks = clean_elements scripts ++ inner /\ inner <> [] /\
    clean_elements path = clean_elements chunks ++ file /\ file <> [] /\ Forall name (inner ++ file).
Proof.
  intros Hwd. unfold sandboxed_path. case_match; [done|].
  destruct (resolveRealPath _ _ (e_scriptsDir e)) as [s|] eqn:Hs; [|done].
  destruct (resolveRealPath _ _ (Join2 (e_scriptsDir e) _)) as [c|] eqn:Hc; [|done]. cbn [mbind option_bind].
  destruct (isSubpath s c) eqn:H1; [|done]. cbn [negb].
  destruct (resolveRealPath _ _ (Join2 c _)) as [f|] eqn:Hf; [|done]. cbn [mbind option_bind].
  destruct (isSubpath c f) eqn:H2; [|done]. intros [= <-].
  assert (forall p q, resolveRealPath (Some wd) EvalSymlinks p = Some q -> IsAbs q = true) as Habs.
  { intros p q. unfold resolveRealPath. destruct (EvalSymlinks p) as [rp|]; [|done]. intros Hq. by apply (Abs_elements wd rp q). }
  apply isSubpath_spec in H1 as (_ & inner & Hi & E1); [|by eapply Habs..].
  apply isSubpath_spec in H2 as (_ & file & Hfi & E2); [|by eapply Habs..].
  exists s, c, inner, file. split_and!; try done. pose proof (clean_elements_names _ (Habs _ _ Hf)) as Hn.
  rewrite E2, E1, <- app_assoc in Hn. by apply Forall_app in Hn as [_ ?].
Qed.

(** ** Concrete directories *)

Definition example_engine : LuaScriptEngine := mkLuaScriptEngine "external/scripts" "chunks".

Lemma script_contained_witness :
  resolveScriptPath example_engine (Some "/srv/musgo") "users/../../secret" = None /\
  resolveScriptPath example_engine (Some "/srv/musgo") "users/onLogon" = Some "external/scripts/users/onLogon.lua"%string /\
  strictly_below "/srv/musgo" "external/scripts" "external/scripts/users/onLogon.lua".
Proof.
  split; [vm_compute; reflexivity|]. split; [vm_compute; reflexivity|].
  apply (script_contained example_engine "/srv/musgo" (fun _ => true) eq_refl ltac:(discriminate)) with (subject := "users/onLogon"%string).
  vm_compute. reflexivity.
Defined.

Lemma sandboxed_contained_witness :
  exists inner file,
    clean_elements "/srv/musgo/external/scripts/chunks/c-1.lua" =
    clean_elements "/srv/musgo/external/scripts" ++ inner ++ file /\ inner <> [] /\ file <> [].
Proof.
  destruct (sandboxed_contained example_engine "/srv/musgo" Some "c-1" "/srv/musgo/external/scripts/chunks/c-1.lua" eq_refl)
    as (s & c & inner & file & Hs & Hc & E1 & Hi & E2 & Hf & _); [vm_compute; reflexivity|].
  exists inner, file. split; [|split; [exact Hi|exact Hf]]. rewrite E2, E1, <- app_assoc. f_equal.
  vm_compute in Hs. injection Hs as <-. vm_compute. reflexivity.
Defined.
