(* ===== verification/LuaValue.v ===== *)
(** * Lua values and their conversion (internal/domain/types/lingo/lua_convert.go)

    Scripts run in gopher-lua. Its tables are mutable objects that a script may
    share or nest into themselves, so a Lua value holds a table by its location
    and the tables live in a heap. The table itself is third-party code: a
    class with the operations the server calls and their documented effect,
    with a small instance for the witnesses.

    [LValueToLua] builds tables in the heap, [LuaToLValue] reads them back and
    recurses through them, which takes fuel here: on a table that contains
    itself the Go function does not return. *)

From Stdlib Require Import ZArith Lia.
From stdpp Require Import base list strings option gmap sorting.
From S2P Require Import Prelude GoFmt LValue.

Open Scope Z_scope.

(** ** Numbers

    Lua numbers are float64, held as bit patterns. *)

(** [float64(z)] for an integer [z]: round to nearest, ties to even. A mantissa
    that rounds up to the next power of two carries into the exponent. *)
Definition round_even (m s : Z) : Z :=
  let q := m / 2 ^ s in
  let r := m mod 2 ^ s in
  if 2 * r <? 2 ^ s then q
  else if 2 ^ s <? 2 * r then q + 1
  else if Z.even q then q else q + 1.

Definition float64_of_int (z : Z) : Z :=
  if z =? 0 then 0
  else
    let m := Z.abs z in
    let k := Z.log2 m in
    (if z <? 0 then 2 ^ 63 else 0) + (k + 1023) * 2 ^ 52 +
    ((if k <=? 52 then m * 2 ^ (52 - k) else round_even m (k - 52)) - 2 ^ 52).

(** The integer a float64 stands for, when it stands for one: [f == Trunc(f)]
    and [f] finite. *)
Definition float_int (bits : Z) : option Z :=
  let e := (bits / 2 ^ 52) mod 2048 in
  let man := bits mod 2 ^ 52 in
  let sgn (m : Z) := if Z.odd (bits / 2 ^ 63) then - m else m in
  if e =? 2047 then None
  else if e =? 0 then (if man =? 0 then Some 0 else None)
  else
    let sig := 2 ^ 52 + man in
    if 1075 <=? e then Some (sgn (sig * 2 ^ (e - 1075)))
    else if sig mod 2 ^ (1075 - e) =? 0 then Some (sgn (sig / 2 ^ (1075 - e)))
    else None.

Example float_of_3 : float64_of_int 3 = 0x4008000000000000.
Proof. reflexivity. Qed.
Example float_of_m2 : float64_of_int (-2) = 0xC000000000000000.
Proof. reflexivity. Qed.
Example float_of_big : float64_of_int (2 ^ 53 + 3) = 0x4340000000000002.
Proof. reflexivity. Qed.
Example float_of_carry : float64_of_int (2 ^ 54 - 1) = 0x4350000000000000.
Proof. reflexivity. Qed.
Example float_int_half : float_int 0x3FE0000000000000 = None.
Proof. reflexivity. Qed.

(** Bit fields of the sum form. *)
Lemma fields_of_sum s e m :
  0 <= s <= 1 -> 0 <= e < 2048 -> 0 <= m < 2 ^ 52 ->
  (s * 2 ^ 63 + e * 2 ^ 52 + m) / 2 ^ 63 = s /\
  ((s * 2 ^ 63 + e * 2 ^ 52 + m) / 2 ^ 52) mod 2048 = e /\
  (s * 2 ^ 63 + e * 2 ^ 52 + m) mod 2 ^ 52 = m.
Proof.
  intros Hs He Hm.
  assert (Hd : (s * 2 ^ 63 + e * 2 ^ 52 + m) / 2 ^ 52 = s * 2048 + e).
  { replace (s * 2 ^ 63 + e * 2 ^ 52 + m) with (m + (s * 2048 + e) * 2 ^ 52) by lia.
    rewrite Z.div_add, Z.div_small by lia. lia. }
  split_and!.
  - replace (s * 2 ^ 63 + e * 2 ^ 52 + m) with ((e * 2 ^ 52 + m) + s * 2 ^ 63) by lia.
    rewrite Z.div_add by lia. rewrite Z.div_small by lia. lia.
  - rewrite Hd. rewrite Z.add_comm, Z.mod_add by lia. by apply Z.mod_small.
  - replace (s * 2 ^ 63 + e * 2 ^ 52 + m) with (m + (s * 2048 + e) * 2 ^ 52) by lia.
    rewrite Z.mod_add by lia. by apply Z.mod_small.
Qed.

(** Integers of up to 53 bits are exact. *)
Lemma float_int_of_int z : Z.abs z < 2 ^ 53 -> float_int (float64_of_int z) = Some z.
Proof.
  intros Hz. unfold float64_of_int. destruct (Z.eqb_spec z 0) as [->|Hnz]; [done|].
  set (m := Z.abs z). set (k := Z.log2 m).
  assert (Hm : 0 < m) by (unfold m; lia).
  pose proof (Z.log2_spec m Hm) as Hk. fold k in Hk.
  assert (H0k : 0 <= k) by apply Z.log2_nonneg.
  assert (Hk52 : k <= 52).
  { assert (k < 53); [|lia]. apply Z.log2_lt_pow2; [done|]. exact Hz. }
  rewrite (proj2 (Z.leb_le _ _)) by done.
  assert (Hpow : 2 ^ k * 2 ^ (52 - k) = 2 ^ 52) by (rewrite <- Z.pow_add_r by lia; f_equal; lia).
  assert (Hpos : 0 < 2 ^ (52 - k)) by (apply Z.pow_pos_nonneg; lia).
  rewrite Z.pow_succ_r in Hk by lia.
  assert (Hman : 0 <= m * 2 ^ (52 - k) - 2 ^ 52 < 2 ^ 52) by nia.
  set (s := if z <? 0 then 1 else 0).
  assert (Hs : 0 <= s <= 1) by (unfold s; destruct (z <? 0); lia).
  replace ((if z <? 0 then 2 ^ 63 else 0) + (k + 1023) * 2 ^ 52 + (m * 2 ^ (52 - k) - 2 ^ 52))
    with (s * 2 ^ 63 + (k + 1023) * 2 ^ 52 + (m * 2 ^ (52 - k) - 2 ^ 52))
    by (unfold s; destruct (z <? 0); lia).
  destruct (fields_of_sum s (k + 1023) (m * 2 ^ (52 - k) - 2 ^ 52)) as (Ha & Hb & Hc); [lia..|].
  unfold float_int. rewrite Ha, Hb, Hc.
  rewrite !(proj2 (Z.eqb_neq (k + 1023) _)) by lia.
  replace (2 ^ 52 + (m * 2 ^ (52 - k) - 2 ^ 52)) with (m * 2 ^ (52 - k)) by lia.
  assert (Hsgn : (if Z.odd s then - m else m) = z).
  { unfold s, m. destruct (Z.ltb_spec z 0); simpl; lia. }
  destruct (Z.leb_spec 1075 (k + 1023)) as [Hge|Hlt].
  - assert (k = 52) by lia. clear Hpow. replace (k + 1023 - 1075) with 0 by lia.
    replace (52 - k) with 0 by lia. rewrite !Z.mul_1_r. by f_equal.
  - replace (1075 - (k + 1023)) with (52 - k) by lia.
    rewrite Z.mod_mul, Z.eqb_refl, Z.div_mul by lia. by f_equal.
Qed.

(** ** Values, keys, tables *)

Inductive luav : Type :=
| LNil
| LBool (b : bool)
| LNumber (f : Z)
| LStr (s : string)
| LTbl (l : nat)
| LUser (u : nat)
| LOther (n : nat).

(** [LUser]: user data, by identity; [LOther]: functions, threads, channels. *)

Inductive luakey : Type :=
| KStr (s : string)
| KNum (f : Z)
| KOther (n : nat).

#[export] Instance luav_eq_dec : EqDecision luav.
Proof. solve_decision. Defined.
#[export] Instance luakey_eq_dec : EqDecision luakey.
Proof. solve_decision. Defined.

Definition string_key (kv : luakey * luav) : option string :=
  match kv.1 with KStr s => Some s | _ => None end.

(** gopher-lua's [LTable], the methods the server uses:
    - assigning nil removes a field, appending nil does nothing;
    - [Append] adds at [MaxN + 1];
    - [ForEach] visits every entry whose value is not nil, once, in no
      particular order. *)
Class LuaTables (T : Type) := {
  NewTable : T;
  RawGetString : T -> string -> luav;
  RawSetString : string -> luav -> T -> T;
  RawGetInt : T -> Z -> luav;
  Append : luav -> T -> T;
  MaxN : T -> Z;
  ForEach : T -> list (luakey * luav);

  new_string k : RawGetString NewTable k = LNil;
  new_int i : RawGetInt NewTable i = LNil;
  new_maxn : MaxN NewTable = 0;
  new_entries : ForEach NewTable = [];
  set_string k v t k' :
    RawGetString (RawSetString k v t) k' = if decide (k' = k) then v else RawGetString t k';
  set_maxn k v t : MaxN (RawSetString k v t) = MaxN t;
  append_nil t : Append LNil t = t;
  append_string v t k : RawGetString (Append v t) k = RawGetString t k;
  append_int v t i : v <> LNil ->
    RawGetInt (Append v t) i = if decide (i = MaxN t + 1) then v else RawGetInt t i;
  append_maxn v t : v <> LNil -> MaxN (Append v t) = MaxN t + 1;
  append_entries v t : v <> LNil -> RawGetInt t (MaxN t + 1) = LNil ->
    ForEach (Append v t) ≡ₚ (KNum (float64_of_int (MaxN t + 1)), v) :: ForEach t;
  entries_string t k v :
    (KStr k, v) ∈ ForEach t <-> RawGetString t k = v /\ v <> LNil;
  entries_once t : NoDup (omap string_key (ForEach t));
  maxn_nonneg t : 0 <= MaxN t;
}.

(** ** Go code that allocates and fills tables *)

Definition LM (T A : Type) : Type := gmap nat T -> outcome (A * gmap nat T).

#[export] Instance LM_ret T : MRet (LM T) := fun A a h => Ret (a, h).
#[export] Instance LM_bind T : MBind (LM T) := fun A B f m h =>
  match m h with
  | Ret (a, h') => f a h'
  | Panic => Panic
  | OutOfFuel => OutOfFuel
  end.

Definition str_le (a b : string) : Prop := String.leb a b = true.
#[export] Instance str_le_dec : RelDecision str_le.
Proof. intros a b. unfold str_le. apply _. Defined.
#[export] Instance str_le_total : Total str_le.
Proof. intros a b. apply String.leb_total. Qed.

Section Convert.
Context {T : Type} `{!LuaTables T}.

Abbreviation heap := (gmap nat T).
Abbreviation LM := (LM T).

Definition lift_outcome {A} (o : outcome A) : LM A := fun h =>
  match o with Ret a => Ret (a, h) | Panic => Panic | OutOfFuel => OutOfFuel end.

(** [L.NewTable()]: a table at a fresh location. *)
Definition new_table : LM nat := fun h =>
  let l := fresh (dom h) in Ret (l, <[l := NewTable]> h).

(** A method that changes the table at [l]. *)
Definition on_table (l : nat) (f : T -> T) : LM unit := fun h =>
  Ret (tt, alter f l h).

(** ** From Lingo to Lua *)

Definition lingoTagKey : string := "__lingo".
Definition lingoTagMedia : string := "media".
Definition lingoTagPicture : string := "picture".

Definition binaryToLua (tag : string) (data : bytes) : LM luav :=
  l ← new_table;
  _ ← on_table l (RawSetString lingoTagKey (LStr tag));
  _ ← on_table l (RawSetString "data" (LStr (string_of_bytes data)));
  mret (LTbl l).

(** [for _, elem := range ...] with [Append] of the converted element. *)
Fixpoint append_loop (l : nat) (elems : list (LM luav)) : LM unit :=
  match elems with
  | [] => mret tt
  | c :: elems => v ← c; _ ← on_table l (Append v); append_loop l elems
  end.

(** One [RawSetString] per field. *)
Fixpoint set_fields (l : nat) (fields : list (string * LM luav)) : LM unit :=
  match fields with
  | [] => mret tt
  | (k, c) :: fields => v ← c; _ ← on_table l (RawSetString k v); set_fields l fields
  end.

(** The loop over [v.Properties]: the key is the property's [String], the value
    is read from the other slice at the same index. *)
Fixpoint props_loop (l : nat) (ps : list LValue) (vs : list (LM luav)) : LM unit :=
  match ps with
  | [] => mret tt
  | p :: ps =>
      key ← lift_outcome (String_ p);
      match vs with
      | [] => lift_outcome Panic
      | c :: vs => v ← c; _ ← on_table l (RawSetString key v); props_loop l ps vs
      end
  end.

Definition fields_table (fields : list (string * LM luav)) : LM luav :=
  l ← new_table; _ ← set_fields l fields; mret (LTbl l).

Definition number (f : Z) : LM luav := mret (LNumber f).

Fixpoint LValueToLua (val : LValue) : LM luav :=
  let field (o : option LValue) : LM luav :=
    match o with Some v => LValueToLua v | None => mret LNil end in
  match val with
  | LInteger z => mret (LNumber (float64_of_int z))
  | LFloat f => mret (LNumber f)
  | LString s | LSymbol s => mret (LStr s)
  | LList vs => l ← new_table; _ ← append_loop l (LValueToLua <$> vs); mret (LTbl l)
  | LPropList ps vs => l ← new_table; _ ← props_loop l ps (LValueToLua <$> vs); mret (LTbl l)
  | LPoint h v => fields_table [("locH"%string, field h); ("locV"%string, field v)]
  | LRect l t r b =>
      fields_table [("left"%string, field l); ("top"%string, field t);
                    ("right"%string, field r); ("bottom"%string, field b)]
  | LColor r g b =>
      fields_table [("red"%string, number (float64_of_int (Z_of_byte r)));
                    ("green"%string, number (float64_of_int (Z_of_byte g)));
                    ("blue"%string, number (float64_of_int (Z_of_byte b)))]
  | LDate d => mret (LStr (string_of_bytes d))
  | L3dVector x y z =>
      fields_table [("x"%string, number (float64_of_float32 x));
                    ("y"%string, number (float64_of_float32 y));
                    ("z"%string, number (float64_of_float32 z))]
  | L3dTransform m =>
      l ← new_table;
      _ ← append_loop l ((fun i => f ← lift_outcome (index m i); number (float64_of_float32 f))
                           <$> seqZ 0 16);
      mret (LTbl l)
  | LPicture d => binaryToLua lingoTagPicture d
  | LMedia d => binaryToLua lingoTagMedia d
  | LVoid => mret LNil
  end.

(** ** From Lua to Lingo *)

(** A failed type assertion leaves the zero value. *)
Definition str_or_empty (v : luav) : string :=
  match v with LStr s => s | _ => EmptyString end.

Definition binaryFromLuaTable (tbl : T) : option LValue :=
  match RawGetString tbl lingoTagKey with
  | LStr tag =>
      let data := bytes_of_string (str_or_empty (RawGetString tbl "data")) in
      if decide (tag = lingoTagMedia) then Some (LMedia data)
      else if decide (tag = lingoTagPicture) then Some (LPicture data)
      else None
  | _ => None
  end.

Definition isSequentialArray (tbl : T) (maxN : Z) : bool := zlen (ForEach tbl) =? maxN.

(** The string keys, sorted ([sort.Strings]). *)
Definition sorted_keys (tbl : T) : list string :=
  merge_sort str_le (omap string_key (ForEach tbl)).

Definition luaTableToLValue (conv : luav -> outcome LValue) (tbl : T) : outcome LValue :=
  match binaryFromLuaTable tbl with
  | Some bin => Ret bin
  | None =>
      let maxN := MaxN tbl in
      if (0 <? maxN) && isSequentialArray tbl maxN then
        vs ← mapM_outcome conv ((fun i => RawGetInt tbl i) <$> seqZ 1 maxN);
        Ret (LList vs)
      else
        let keys := sorted_keys tbl in
        vs ← mapM_outcome conv ((fun key => RawGetString tbl key) <$> keys);
        Ret (LPropList (LSymbol <$> keys) vs)
  end.

Definition LuaNumber_to (f : Z) : LValue :=
  match float_int f with
  | Some z => if (- 2 ^ 31 <=? z) && (z <=? 2 ^ 31 - 1) then LInteger z else LFloat f
  | None => LFloat f
  end.

(** Every level of nesting is a call of the Go function, one unit of fuel. A
    location without a table does not occur in a heap. *)
Fixpoint LuaToLValue (fuel : nat) (h : heap) (lv : luav) : outcome LValue :=
  match lv with
  | LBool b => Ret (LInteger (if b then 1 else 0))
  | LNumber f => Ret (LuaNumber_to f)
  | LStr s => Ret (LString s)
  | LTbl l =>
      match fuel, h !! l with
      | O, _ => OutOfFuel
      | S fuel, Some tbl => luaTableToLValue (LuaToLValue fuel h) tbl
      | S _, None => Panic
      end
  | LNil | LUser _ | LOther _ => Ret LVoid
  end.
End Convert.

(** ** A table for the witnesses: an array part and string fields *)

Record mini_table := mkTable { elements_of : list luav; fields_of : gmap string luav }.

Definition mini_entries (t : mini_table) : list (luakey * luav) :=
  imap (fun i v => (KNum (float64_of_int (Z.of_nat i + 1)), v)) (elements_of t) ++
  ((fun kv => (KStr kv.1, kv.2)) <$> map_to_list (filter (fun kv => kv.2 <> LNil) (fields_of t))).

Lemma mini_string_keys t :
  omap string_key (mini_entries t) = (map_to_list (filter (fun kv => kv.2 <> LNil) (fields_of t))).*1.
Proof.
  unfold mini_entries. rewrite omap_app.
  assert (Hi : forall l n, omap string_key
    (imap (fun i v => (KNum (float64_of_int (Z.of_nat (n + i) + 1)), v)) l) = []).
  { induction l as [|v l IH]; intros n; [done|]. cbn [imap omap list_omap]. cbn.
    rewrite <- (IH (S n)). f_equal. apply imap_ext. intros i x _. cbn. by rewrite Nat.add_succ_r. }
  rewrite (Hi _ O). cbn [app]. generalize (map_to_list (filter (fun kv => kv.2 <> LNil) (fields_of t))).
  intros l. induction l as [|[k v] l IH]; [done|]. cbn. by rewrite IH.
Qed.

#[export, refine] Instance mini_tables : LuaTables mini_table := {
  NewTable := mkTable [] ∅;
  RawGetString t k := default LNil (fields_of t !! k);
  RawSetString k v t := mkTable (elements_of t) (<[k := v]> (fields_of t));
  RawGetInt t i := if 1 <=? i then default LNil (elements_of t !! Z.to_nat (i - 1)) else LNil;
  Append v t := match v with LNil => t | _ => mkTable (elements_of t ++ [v]) (fields_of t) end;
  MaxN t := zlen (elements_of t);
  ForEach := mini_entries;
}.
Proof.
  - done.
  - intros i. cbn. by destruct (1 <=? i).
  - done.
  - done.
  - intros k v t k'. cbn. case_decide; [subst; by rewrite lookup_insert_eq|by rewrite lookup_insert_ne].
  - done.
  - done.
  - intros v t k. by destruct v.
  - intros v t i Hv.
    assert (E : elements_of (match v with LNil => t | _ => mkTable (elements_of t ++ [v]) (fields_of t) end)
      = elements_of t ++ [v]) by (by destruct v). rewrite E. unfold zlen.
    case_decide as Hi.
    + subst i. rewrite (proj2 (Z.leb_le _ _)) by lia.
      replace (Z.to_nat _) with (length (elements_of t)) by lia.
      by rewrite lookup_app_r, Nat.sub_diag by lia.
    + destruct (Z.leb_spec 1 i); [|done]. destruct (decide (i <= Z.of_nat (length (elements_of t)))).
      * by rewrite lookup_app_l by lia.
      * rewrite !lookup_ge_None_2; rewrite ?length_app; cbn; try lia. done.
  - intros v t Hv. unfold zlen. destruct v; [done|..]; cbn; rewrite length_app; cbn; lia.
  - intros v t Hv _.
    assert (E : match v with LNil => t | _ => mkTable (elements_of t ++ [v]) (fields_of t) end
      = mkTable (elements_of t ++ [v]) (fields_of t)) by (by destruct v). rewrite E.
    unfold mini_entries. cbn [elements_of fields_of]. rewrite imap_app. cbn. unfold zlen.
    rewrite Nat.add_0_r. rewrite <- (assoc_L (++)). cbn [app].
    by rewrite <- Permutation_middle.
  - intros t k v. cbn. unfold mini_entries. rewrite elem_of_app, list_elem_of_fmap. split.
    + intros [(i & x & [=] & _)%elem_of_lookup_imap|([k' v'] & [= -> ->] & Hin)].
      apply elem_of_map_to_list, map_lookup_filter_Some in Hin as [Hk Hv]. by rewrite Hk.
    + intros [<- Hv]. right. exists (k, default LNil (fields_of t !! k)). split; [done|].
      apply elem_of_map_to_list, map_lookup_filter_Some. split; [|done]. by destruct (fields_of t !! k).
  - intros t. cbn. rewrite mini_string_keys. apply NoDup_fst_map_to_list.
  - intros t. cbn. unfold zlen. lia.
Defined.
