(* ===== verification/LuaFill.v ===== *)
(** * Filling Lua tables from Go

    Two converters build Lua tables from Go values: the one for Lingo values
    (types/lingo/lua_convert.go) and the one for JSON
    (outbound/lua_json_module.go). Both allocate a table and fill it in a loop,
    appending elements or setting fields. The lemmas here are about such loops, for
    any reading [stands h v x] of what a Lua value [v] stands for that is kept when
    the heap grows. *)

From Stdlib Require Import ZArith Lia Sorted.
From stdpp Require Import base list strings gmap option sets fin_maps sorting.
From S2P Require Import Prelude GoFmt LuaValue.

Open Scope Z_scope.

(** ** Sorting strings *)

Lemma str_leb_spec a b :
  str_le a b <-> a = b \/ String.compare a b = Lt.
Proof.
  unfold str_le, String.leb. destruct (String.compare a b) eqn:E; split; intros H; try done; auto.
  - left. by apply String.compare_eq_iff.
  - destruct H as [->|H]; [|done].
    assert (Hs : String.compare b b = Eq); [|congruence]. clear. induction b as [|c b IH]; [done|].
    cbn. unfold Ascii.compare. by rewrite N.compare_refl.
Qed.

Lemma str_compare_lt_trans a b c :
  String.compare a b = Lt -> String.compare b c = Lt -> String.compare a c = Lt.
Proof.
  revert b c. induction a as [|x a IH]; intros [|y b] [|z c]; cbn; try done.
  unfold Ascii.compare.
  destruct (N.compare_spec (Ascii.N_of_ascii x) (Ascii.N_of_ascii y)) as [Hxy|Hxy|Hxy]; [| |done];
    destruct (N.compare_spec (Ascii.N_of_ascii y) (Ascii.N_of_ascii z)) as [Hyz|Hyz|Hyz]; try done;
    intros H1 H2.
  - rewrite Hxy, Hyz, N.compare_refl. by eapply IH.
  - by rewrite Hxy, (proj2 (N.compare_lt_iff _ _)).
  - by rewrite <- Hyz, (proj2 (N.compare_lt_iff _ _)).
  - rewrite (proj2 (N.compare_lt_iff _ _)); [done|lia].
Qed.

#[export] Instance str_le_trans : Transitive str_le.
Proof.
  intros a b c. rewrite !str_leb_spec. intros [->|H1] [->|H2]; auto. right.
  by eapply str_compare_lt_trans.
Qed.

#[export] Instance str_le_antisymm : AntiSymm eq str_le.
Proof. intros a b. apply String.leb_antisym. Qed.

Lemma merge_sort_perm (l k : list string) :
  l ≡ₚ k -> merge_sort str_le l = merge_sort str_le k.
Proof.
  intros H. apply (Sorted_unique str_le).
  - apply (Sorted_merge_sort str_le).
  - apply (Sorted_merge_sort str_le).
  - by rewrite !merge_sort_Permutation.
Qed.

Section Fill.
Context {T : Type} `{!LuaTables T}.

Abbreviation heap := (gmap nat T).
Abbreviation LM := (LM T).

Definition appends (vs : list luav) (t : T) : T := foldl (fun t v => Append v t) t vs.

Definition sets (ks : list string) (vs : list luav) (t : T) : T :=
  foldl (fun t kv => RawSetString kv.1 kv.2 t) t (zip ks vs).

(** ** Tables made of elements *)

Definition not_nil (v : luav) : bool := match v with LNil => false | _ => true end.

Definition seq_table (t : T) (ws : list luav) : Prop :=
  MaxN t = zlen ws /\
  (forall i, RawGetInt t i = if 1 <=? i then default LNil (ws !! Z.to_nat (i - 1)) else LNil) /\
  (forall k, RawGetString t k = LNil) /\
  length (ForEach t) = length ws.

Lemma seq_table_new : seq_table NewTable [].
Proof.
  split_and!; [by rewrite new_maxn|intros i|intros k; apply new_string|by rewrite new_entries].
  rewrite new_int. by destruct (1 <=? i).
Qed.

Lemma seq_table_append t ws v :
  seq_table t ws -> v <> LNil -> seq_table (Append v t) (ws ++ [v]).
Proof.
  intros (Hn & Hi & Hk & He) Hv. split_and!.
  - rewrite append_maxn, Hn by done. unfold zlen. rewrite length_app. cbn. lia.
  - intros i. rewrite append_int by done. case_decide as Hd.
    + subst i. rewrite Hn. unfold zlen. rewrite (proj2 (Z.leb_le _ _)) by lia.
      replace (Z.to_nat _) with (length ws) by lia. by rewrite lookup_app_r, Nat.sub_diag by lia.
    + rewrite Hi. destruct (Z.leb_spec 1 i); [|done].
      destruct (decide (i <= zlen ws)) as [Hle|Hgt]; unfold zlen in *.
      * by rewrite lookup_app_l by lia.
      * rewrite !lookup_ge_None_2; rewrite ?length_app; cbn; try lia. done.
  - intros k. by rewrite append_string.
  - rewrite append_entries; [cbn; rewrite length_app; cbn; lia|done|].
    rewrite Hi, Hn. unfold zlen. rewrite (proj2 (Z.leb_le _ _)) by lia.
    by rewrite lookup_ge_None_2 by lia.
Qed.

Lemma seq_table_appends vs t ws :
  seq_table t ws -> seq_table (appends vs t) (ws ++ filter not_nil vs).
Proof.
  revert t ws. induction vs as [|v vs IH]; intros t ws Ht.
  - cbn. by rewrite app_nil_r.
  - change (appends (v :: vs) t) with (appends vs (Append v t)).
    destruct (decide (v = LNil)) as [->|Hv].
    + rewrite append_nil, filter_cons_False by naive_solver. by apply IH.
    + rewrite filter_cons_True by (by destruct v).
      rewrite cons_middle, (assoc_L (++)). by apply IH, seq_table_append.
Qed.

Lemma seq_table_elements t ws :
  seq_table t ws -> (fun i => RawGetInt t i) <$> seqZ 1 (MaxN t) = ws.
Proof.
  intros (Hn & Hi & _). apply list_eq. intros i. rewrite list_lookup_fmap, Hn.
  destruct (decide (Z.of_nat i < zlen ws)) as [Hlt|Hge].
  - rewrite lookup_seqZ_lt by done. cbn. rewrite Hi, (proj2 (Z.leb_le _ _)) by lia.
    replace (Z.to_nat (1 + Z.of_nat i - 1)) with i by lia.
    destruct (lookup_lt_is_Some_2 ws i) as [w ->]; [unfold zlen in *; lia|done].
  - rewrite lookup_seqZ_ge by lia. symmetry. apply lookup_ge_None_2. unfold zlen in *. lia.
Qed.

Lemma no_string_keys t : (forall k, RawGetString t k = LNil) -> omap string_key (ForEach t) = [].
Proof.
  intros Hk. destruct (omap string_key (ForEach t)) as [|k ks] eqn:E; [done|].
  assert (Hin : k ∈ omap string_key (ForEach t)) by (rewrite E; left).
  apply list_elem_of_omap in Hin as ([[k'| |] v] & Hin & [= ->]).
  apply entries_string in Hin as [H1 H2]. by rewrite Hk in H1.
Qed.

(** ** Computations that build tables *)

Section Reading.
Context {X : Type} (stands : heap -> luav -> X -> Prop).
Context (stands_mono : forall h h' v x, h ⊆ h' -> stands h v x -> stands h' v x).

(** A computation that adds tables of its own to the heap and returns a value
    for [x] that lives in them. *)
Definition delivers (c : LM luav) (x : X) : Prop :=
  forall h, exists v δ, c h = Ret (v, δ ∪ h) /\ δ ##ₘ h /\ stands δ v x.

Lemma delivers_pure v x : (forall h, stands h v x) -> delivers (mret v) x.
Proof. intros H h. exists v, ∅. rewrite (left_id_L ∅ (∪)). split_and!; [done|apply map_disjoint_empty_l|done]. Qed.

(** ** Loops that fill one table *)

Section Loops.
Context (l : nat).

(** The table at [l] after the loop, beside the tables of the elements. *)
Definition fills (p : LM unit) (step : list luav -> T -> T) (xs : list X) : Prop :=
  forall h t, h !! l = None -> exists vs δ,
    p (<[l := t]> h) = Ret (tt, <[l := step vs t]> (δ ∪ h)) /\
    δ ##ₘ h /\ δ !! l = None /\ Forall2 (stands δ) vs xs.

Lemma fills_nil step : (forall t, step [] t = t) -> fills (mret tt) step [].
Proof.
  intros Hs h t Hl. exists [], ∅. rewrite (left_id_L ∅ (∪)), Hs.
  split_and!; [done|apply map_disjoint_empty_l|done|constructor].
Qed.

(** One more element: it is converted, then the table is changed. *)
Lemma fills_cons c x p f step step' xs :
  delivers c x -> fills p step xs ->
  (forall v vs t, step' (v :: vs) t = step vs (f v t)) ->
  fills (v ← c; _ ← on_table l (f v); p) step' (x :: xs).
Proof.
  intros Hc Hp Hs h t Hl.
  destruct (Hc (<[l := t]> h)) as (v & δ1 & E1 & D1 & S1).
  apply map_disjoint_insert_r in D1 as [Hl1 D1].
  destruct (Hp (δ1 ∪ h) (f v t)) as (vs & δ2 & E2 & D2 & Hl2 & S2).
  { by rewrite lookup_union_None. }
  apply map_disjoint_union_r in D2 as [D21 D2h].
  exists (v :: vs), (δ2 ∪ δ1). split_and!.
  - unfold mbind, LM_bind. rewrite E1. unfold on_table.
    rewrite <- insert_union_r by done. rewrite alter_insert_eq. cbn. rewrite E2, Hs.
    by rewrite (assoc_L (∪)).
  - by apply map_disjoint_union_l.
  - by rewrite lookup_union_None.
  - constructor.
    + eapply stands_mono; [|done]. by apply map_union_subseteq_r.
    + eapply Forall2_impl; [done|]. intros. eapply stands_mono; [|done]. apply map_union_subseteq_l.
Qed.

Lemma append_loop_fills cs xs : Forall2 delivers cs xs -> fills (append_loop l cs) appends xs.
Proof.
  induction 1 as [|c x cs xs Hc _ IH]; cbn [append_loop]; [by apply fills_nil|].
  by apply fills_cons with (step := appends).
Qed.

Lemma set_fields_fills fs ks xs :
  fs.*1 = ks -> Forall2 delivers fs.*2 xs -> fills (set_fields l fs) (sets ks) xs.
Proof.
  intros <-. revert xs. induction fs as [|[k c] fs IH]; intros xs Hxs.
  - apply Forall2_nil_inv_l in Hxs as ->. by apply fills_nil.
  - cbn in Hxs. apply Forall2_cons_inv_l in Hxs as (x & xs' & Hc & Hxs & ->).
    cbn [set_fields]. by apply fills_cons with (step := sets fs.*1); [done|apply IH|].
Qed.
End Loops.

(** A fresh table, filled and returned. *)
Lemma delivers_table (fill : nat -> LM unit) step xs y :
  (forall l, fills l (fill l) step xs) ->
  (forall h l vs, h !! l = Some (step vs NewTable) -> Forall2 (stands h) vs xs -> stands h (LTbl l) y) ->
  delivers (l ← new_table; _ ← fill l; mret (LTbl l)) y.
Proof.
  intros Hf Hr h. set (l := fresh (dom h)).
  assert (Hl : h !! l = None) by (apply not_elem_of_dom, is_fresh).
  destruct (Hf l h NewTable Hl) as (vs & δ & E & D & Hlδ & S1).
  exists (LTbl l), (<[l := step vs NewTable]> δ). split_and!.
  - unfold mbind, LM_bind, new_table. fold l. cbn. rewrite E. cbn. by rewrite insert_union_l.
  - by apply map_disjoint_insert_l.
  - apply Hr with vs; [apply lookup_insert_eq|]. eapply Forall2_impl; [done|].
    intros. eapply stands_mono; [|done]. by apply insert_subseteq.
Qed.
End Reading.
End Fill.
