(* ===== verification/LuaRound.v ===== *)
(** * What a Lingo value becomes on its way through a script

    A script that stores, echoes or forwards what it was sent turns the value
    into Lua and back. [through_lua] is the value that comes out, as a function
    on Lingo values alone, and the theorems of this file say that the code of
    lua_convert.go computes exactly that, and on which tables it returns at
    all. *)

From Stdlib Require Import ZArith Lia.
From stdpp Require Import base list strings option gmap sorting.
From S2P Require Import Prelude GoFmt LValue LuaValue LuaFill.

Open Scope Z_scope.

(** ** The result, without tables *)

(** Assigning a field; assigning nil removes it. *)
Definition assign (m : gmap string LValue) (kv : string * LValue) : gmap string LValue :=
  match kv.2 with LVoid => delete kv.1 m | v => <[kv.1 := v]> m end.

Definition assign_all (kvs : list (string * LValue)) : gmap string LValue := foldl assign ∅ kvs.

Definition sorted_props (m : gmap string LValue) : LValue :=
  let ks := merge_sort str_le (map_to_list m).*1 in
  LPropList (LSymbol <$> ks) ((fun k => default LVoid (m !! k)) <$> ks).

Definition text_or_empty (v : option LValue) : string :=
  match v with Some (LString s) => s | _ => EmptyString end.

(** The value a table with these fields is read back as. *)
Definition table_value (m : gmap string LValue) : LValue :=
  match m !! lingoTagKey with
  | Some (LString tag) =>
      let data := bytes_of_string (text_or_empty (m !! "data"%string)) in
      if decide (tag = lingoTagMedia) then LMedia data
      else if decide (tag = lingoTagPicture) then LPicture data
      else sorted_props m
  | _ => sorted_props m
  end.

Definition not_void (v : LValue) : bool := match v with LVoid => false | _ => true end.

(** Void elements do not make it into the table, and a table without elements
    is a property list. *)
Definition list_value (vs : list LValue) : LValue :=
  match filter not_void vs with [] => LPropList [] [] | ws => LList ws end.

Definition name_of (p : LValue) : string :=
  match String_ p with Ret s => s | _ => EmptyString end.

Definition f32_value (f : Z) : LValue := LuaNumber_to (float64_of_float32 f).

Fixpoint through_lua (v : LValue) : LValue :=
  let field (o : option LValue) := match o with Some v => through_lua v | None => LVoid end in
  match v with
  | LVoid => LVoid
  | LInteger z => LuaNumber_to (float64_of_int z)
  | LFloat f => LuaNumber_to f
  | LString s | LSymbol s => LString s
  | LDate d => LString (string_of_bytes d)
  | LPicture _ | LMedia _ => v
  | LList vs => list_value (through_lua <$> vs)
  | LPropList ps vs => table_value (assign_all (zip (name_of <$> ps) (through_lua <$> vs)))
  | LPoint h v => table_value (assign_all [("locH"%string, field h); ("locV"%string, field v)])
  | LRect l t r b =>
      table_value (assign_all [("left"%string, field l); ("top"%string, field t);
                               ("right"%string, field r); ("bottom"%string, field b)])
  | LColor r g b =>
      table_value (assign_all [("red"%string, LInteger (Z_of_byte r));
                               ("green"%string, LInteger (Z_of_byte g));
                               ("blue"%string, LInteger (Z_of_byte b))])
  | L3dVector x y z =>
      table_value (assign_all [("x"%string, f32_value x); ("y"%string, f32_value y);
                               ("z"%string, f32_value z)])
  | L3dTransform m => list_value (f32_value <$> m)
  end.

(** The conversion does not panic: property names print, the two slices of a
    property list have one length, a transform has sixteen numbers. *)
Definition prints (p : LValue) : bool := match String_ p with Ret _ => true | _ => false end.

Fixpoint convertible (v : LValue) : bool :=
  let field (o : option LValue) := match o with Some v => convertible v | None => true end in
  match v with
  | LList vs => forallb convertible vs
  | LPropList ps vs =>
      forallb prints ps && bool_decide (length ps = length vs) && forallb convertible vs
  | LPoint h v => field h && field v
  | LRect l t r b => field l && field t && field r && field b
  | L3dTransform m => bool_decide (length m = 16%nat)
  | _ => true
  end.

Section Round.
Context {T : Type} `{!LuaTables T}.

Abbreviation heap := (gmap nat T).
Abbreviation LM := (LM T).

(** ** Reading back *)

(** [v] in the tables of [h] is read back as [x]. *)
Definition reads (h : heap) (v : luav) (x : LValue) : Prop :=
  exists n, LuaToLValue n h v = Ret x.

Lemma mapM_outcome_mono {A B} (f g : A -> outcome B) l ys :
  (forall x y, f x = Ret y -> g x = Ret y) ->
  mapM_outcome f l = Ret ys -> mapM_outcome g l = Ret ys.
Proof.
  intros Hfg. revert ys. induction l as [|x l IH]; intros ys; cbn; [done|].
  intros (y & Hy & Hr)%bind_Ret_inv. apply bind_Ret_inv in Hr as (zs & Hz & Hr).
  rewrite (Hfg _ _ Hy). cbn. by rewrite (IH _ Hz).
Qed.

Lemma LuaToLValue_mono n m h h' v x :
  (n <= m)%nat -> h ⊆ h' -> LuaToLValue n h v = Ret x -> LuaToLValue m h' v = Ret x.
Proof.
  intros Hnm Hh. revert m v x Hnm. induction n as [|n IH]; intros m v x Hnm;
    destruct v as [| | | |l| |]; destruct m as [|m]; try done; cbn; try lia.
  destruct (h !! l) as [t|] eqn:Hl; [|done]. rewrite (lookup_weaken _ _ _ _ Hl Hh).
  unfold luaTableToLValue. destruct (binaryFromLuaTable t); [done|].
  assert (Hs : forall v x, LuaToLValue n h v = Ret x -> LuaToLValue m h' v = Ret x)
    by (intros; apply IH; auto; lia).
  destruct (_ && _); intros (vs & Hvs & Hr)%bind_Ret_inv;
    by rewrite (mapM_outcome_mono _ _ _ _ Hs Hvs).
Qed.

Lemma reads_mono h h' v x : h ⊆ h' -> reads h v x -> reads h' v x.
Proof. intros Hh [n Hn]. exists n. by eapply LuaToLValue_mono. Qed.

Lemma reads_all h vs xs :
  Forall2 (reads h) vs xs -> exists n, mapM_outcome (LuaToLValue n h) vs = Ret xs.
Proof.
  induction 1 as [|v x vs xs [n Hn] _ [m Hm]]; [by exists O|]. exists (n + m)%nat. cbn.
  rewrite (LuaToLValue_mono n (n + m) h h v x) by (done || lia). cbn.
  erewrite mapM_outcome_mono; [done| |exact Hm]. intros. eapply LuaToLValue_mono; [|done|done]. lia.
Qed.

(** The Lua value that stands for [x]: nil for void only, a string for strings
    only. *)
Definition stands (h : heap) (v : luav) (x : LValue) : Prop :=
  reads h v x /\ (v = LNil <-> x = LVoid) /\ (forall s, v = LStr s <-> x = LString s).

Lemma stands_mono h h' v x : h ⊆ h' -> stands h v x -> stands h' v x.
Proof. intros Hh (Hr & Hrest). split; [by eapply reads_mono|done]. Qed.

Abbreviation delivers := (LuaFill.delivers stands).
Abbreviation fills := (LuaFill.fills stands).

Lemma stands_str h s : stands h (LStr s) (LString s).
Proof. split; [by exists O|]. split; [done|]. intros s'. split; congruence. Qed.

Lemma stands_nil h : stands h LNil LVoid.
Proof. split; [by exists O|]. split; [done|]. intros s'. split; discriminate. Qed.

Lemma LuaNumber_to_cases f : (exists z, LuaNumber_to f = LInteger z) \/ LuaNumber_to f = LFloat f.
Proof. unfold LuaNumber_to. destruct (float_int f); [|auto]. destruct (_ && _); eauto. Qed.

Lemma stands_number h f : stands h (LNumber f) (LuaNumber_to f).
Proof.
  split; [by exists O|]. destruct (LuaNumber_to_cases f) as [[z ->]| ->]; split; try split; discriminate.
Qed.

Section Props.
Context (l : nat).

Lemma props_loop_set_fields ps cs h :
  forallb prints ps = true -> length ps = length cs ->
  props_loop l ps cs h = set_fields l (zip (name_of <$> ps) cs) h.
Proof.
  revert cs h. induction ps as [|p ps IH]; intros [|c cs] h; try done. cbn.
  rewrite andb_true_iff. intros [Hp Hps] [= Hlen].
  unfold prints in Hp. destruct (String_ p) as [s| |] eqn:E; [|done..].
  assert (name_of p = s) as -> by (unfold name_of; by rewrite E).
  unfold mbind, LM_bind. cbn. destruct (c h) as [[v h']| |]; [|done..]. cbn. by apply IH.
Qed.
End Props.

Lemma Forall2_stands_filter h vs xs :
  Forall2 (stands h) vs xs -> Forall2 (stands h) (filter not_nil vs) (filter not_void xs).
Proof.
  induction 1 as [|v x vs xs Hs _ IH]; [constructor|].
  pose proof Hs as (_ & Hn & _). rewrite !filter_cons.
  destruct (decide (v = LNil)) as [Hv|Hv].
  - rewrite (proj1 Hn Hv), Hv. done.
  - assert (Hx : x <> LVoid) by (intros Hx; by apply Hv, Hn).
    rewrite decide_True by (by destruct v). rewrite decide_True by (by destruct x).
    by constructor.
Qed.

Lemma seq_table_reads h l t vs xs :
  h !! l = Some t -> t = appends vs NewTable -> Forall2 (stands h) vs xs ->
  reads h (LTbl l) (list_value xs).
Proof.
  intros Hl -> Hs. pose proof (seq_table_appends vs NewTable [] seq_table_new) as Ht.
  cbn [app] in Ht. set (t := appends vs NewTable) in *. apply Forall2_stands_filter in Hs.
  set (ws := filter not_nil vs) in *. unfold list_value. set (ys := filter not_void xs) in *.
  destruct (reads_all h ws ys) as [n Hn].
  { eapply Forall2_impl; [done|]. by intros ? ? []. }
  exists (S n). cbn. rewrite Hl. unfold luaTableToLValue, binaryFromLuaTable.
  pose proof Ht as (Hm & _ & Hk & He). rewrite Hk. unfold isSequentialArray, zlen.
  rewrite He. replace (Z.of_nat (length ws) =? MaxN t) with true by (symmetry; by apply Z.eqb_eq).
  rewrite andb_true_r. pose proof (Forall2_length _ _ _ Hs) as Hlen.
  destruct ys as [|y ys].
  - destruct ws as [|w ws]; [|done]. rewrite Hm. cbn.
    unfold sorted_keys. by rewrite no_string_keys.
  - rewrite (proj2 (Z.ltb_lt _ _)) by (rewrite Hm; unfold zlen; rewrite Hlen; cbn; lia).
    rewrite (seq_table_elements t ws) by done. by rewrite Hn.
Qed.
(** ** Tables made of fields *)

Definition field_table (h : heap) (t : T) (m : gmap string LValue) : Prop :=
  MaxN t = 0 /\ forall k, m !! k <> Some LVoid /\ stands h (RawGetString t k) (default LVoid (m !! k)).

Lemma field_table_new h : field_table h NewTable ∅.
Proof.
  split; [apply new_maxn|]. intros k. rewrite lookup_empty, new_string. split; [done|apply stands_nil].
Qed.

Lemma assign_lookup m k x k' :
  default LVoid (assign m (k, x) !! k') = (if decide (k' = k) then x else default LVoid (m !! k')) /\
  (m !! k' <> Some LVoid -> assign m (k, x) !! k' <> Some LVoid).
Proof.
  unfold assign. cbn. case_decide as Hd; [subst k'|].
  - destruct x; rewrite ?lookup_insert_eq, ?lookup_delete_eq; split; congruence || done.
  - destruct x; rewrite ?lookup_insert_ne, ?lookup_delete_ne by done; done.
Qed.

Lemma field_table_set h t m k v x :
  field_table h t m -> stands h v x -> field_table h (RawSetString k v t) (assign m (k, x)).
Proof.
  intros [Hn Hm] Hv. split; [by rewrite set_maxn|]. intros k'. destruct (Hm k') as [Hne Hs].
  destruct (assign_lookup m k x k') as [E1 E2]. split; [by apply E2|].
  rewrite E1, set_string. by case_decide.
Qed.

Lemma field_table_sets h ks vs xs t m :
  Forall2 (stands h) vs xs -> field_table h t m ->
  field_table h (sets ks vs t) (foldl assign m (zip ks xs)).
Proof.
  intros Hs. revert ks t m. induction Hs as [|v x vs xs Hv _ IH]; intros [|k ks] t m Ht; try done.
  cbn. apply IH. by apply field_table_set.
Qed.

Lemma field_table_keys h t m :
  field_table h t m -> sorted_keys t = merge_sort str_le (map_to_list m).*1.
Proof.
  intros [_ Hm]. apply merge_sort_perm, NoDup_Permutation.
  - apply entries_once.
  - apply NoDup_fst_map_to_list.
  - intros k. destruct (Hm k) as [Hne (_ & Hn & _)].
    rewrite list_elem_of_omap, list_elem_of_fmap. split.
    + intros ([[k'| |] v] & Hin & [= ->]). apply entries_string in Hin as [Hv Hnil].
      destruct (m !! k) as [x|] eqn:Ek; [|by rewrite <- Hv in Hnil; destruct Hnil; apply Hn].
      exists (k, x). by rewrite elem_of_map_to_list.
    + intros ([k' x] & -> & Hx%elem_of_map_to_list). cbn in *. rewrite Hx in Hn, Hne.
      exists (KStr k', RawGetString t k'). split; [|done]. apply entries_string. split; [done|].
      intros E. by apply Hn in E; cbn in E; subst.
Qed.

Lemma table_value_tag h t m :
  field_table h t m ->
  table_value m = match binaryFromLuaTable t with Some b => b | None => sorted_props m end.
Proof.
  intros [_ Hm]. unfold table_value, binaryFromLuaTable.
  destruct (Hm lingoTagKey) as [_ (_ & _ & Hk)]. destruct (Hm "data"%string) as [_ (_ & _ & Hd)].
  assert (Hdata : str_or_empty (RawGetString t "data") = text_or_empty (m !! "data"%string)).
  { destruct (RawGetString t "data") as [| | |s| | |]; cbn.
    4:{ pose proof (proj1 (Hd s) eq_refl) as Hs. by destruct (m !! "data"%string); cbn in Hs; subst. }
    all: destruct (m !! "data"%string) as [[]|]; cbn; try done; discriminate (proj2 (Hd _) eq_refl). }
  rewrite Hdata. destruct (RawGetString t lingoTagKey) as [| | |s| | |].
  4:{ pose proof (proj1 (Hk s) eq_refl) as Hs.
      destruct (m !! lingoTagKey); cbn in Hs; subst; [|done]. by repeat case_decide. }
  all: destruct (m !! lingoTagKey) as [[]|]; cbn; try done; discriminate (proj2 (Hk _) eq_refl).
Qed.

Lemma field_table_reads h l t m :
  h !! l = Some t -> field_table h t m -> reads h (LTbl l) (table_value m).
Proof.
  intros Hl Ht. rewrite (table_value_tag _ _ _ Ht).
  destruct (reads_all h (RawGetString t <$> sorted_keys t)
    ((fun k => default LVoid (m !! k)) <$> sorted_keys t)) as [n Hn].
  { apply Forall2_fmap, Forall_Forall2_diag, Forall_true. intros k. by destruct (proj2 Ht k) as [_ []]. }
  exists (S n). cbn [LuaToLValue]. rewrite Hl. unfold luaTableToLValue.
  destruct (binaryFromLuaTable t); [done|]. rewrite (proj1 Ht). change (0 <? 0) with false.
  cbn [andb]. change (fun key => RawGetString t key) with (RawGetString t). rewrite Hn, bind_Ret.
  unfold sorted_props. by rewrite (field_table_keys _ _ _ Ht).
Qed.

(** ** Every conversion delivers [through_lua] *)

Lemma list_value_shape vs : (forall s, list_value vs <> LString s) /\ list_value vs <> LVoid.
Proof. unfold list_value. by destruct (filter not_void vs). Qed.

Lemma table_value_shape m : (forall s, table_value m <> LString s) /\ table_value m <> LVoid.
Proof.
  unfold table_value. destruct (m !! lingoTagKey) as [[]|]; try done. by repeat case_decide.
Qed.

Lemma stands_table h l y :
  (forall s, y <> LString s) /\ y <> LVoid -> reads h (LTbl l) y -> stands h (LTbl l) y.
Proof. intros [Hs Hv] Hr. split; [done|]. split; [done|]. intros s. by split; [|intros ?%Hs]. Qed.

Lemma delivers_fields fs kxs :
  fs.*1 = kxs.*1 -> Forall2 delivers fs.*2 kxs.*2 ->
  delivers (fields_table fs) (table_value (assign_all kxs)).
Proof.
  intros E H. apply (delivers_table stands stands_mono (fun l => set_fields l fs) (sets fs.*1) kxs.*2).
  - intros l. by apply set_fields_fills; [apply stands_mono|..].
  - intros h l vs Hl Hs. apply stands_table; [apply table_value_shape|]. eapply field_table_reads; [done|]. rewrite E.
    assert (Hz : assign_all kxs = assign_all (zip kxs.*1 kxs.*2)) by (by rewrite zip_fst_snd).
    rewrite Hz. apply field_table_sets; [done|apply field_table_new].
Qed.

Lemma delivers_elements cs xs :
  Forall2 delivers cs xs ->
  delivers (l ← new_table; _ ← append_loop l cs; mret (LTbl l)) (list_value xs).
Proof.
  intros H. apply (delivers_table stands stands_mono (fun l => append_loop l cs) appends xs).
  - intros l. by apply append_loop_fills; [apply stands_mono|].
  - intros h l vs Hl Hs. apply stands_table; [apply list_value_shape|]. by eapply seq_table_reads.
Qed.

Lemma delivers_number f : delivers (number f) (LuaNumber_to f).
Proof. apply delivers_pure. intros. apply stands_number. Qed.

Lemma tagged_value tag d :
  table_value (assign_all [(lingoTagKey, LString tag); ("data"%string, LString (string_of_bytes d))]) =
  if decide (tag = lingoTagMedia) then LMedia d
  else if decide (tag = lingoTagPicture) then LPicture d
  else sorted_props (assign_all [(lingoTagKey, LString tag); ("data"%string, LString (string_of_bytes d))]).
Proof.
  unfold table_value, assign_all. cbn [foldl]. unfold assign. cbn [fst snd].
  rewrite lookup_insert_ne, !lookup_insert_eq by done. cbn [text_or_empty].
  by rewrite bytes_of_string_of_bytes.
Qed.

Lemma delivers_binary tag d x :
  table_value (assign_all [(lingoTagKey, LString tag); ("data"%string, LString (string_of_bytes d))]) = x ->
  delivers (binaryToLua tag d) x.
Proof.
  intros <- h.
  set (fs := [(lingoTagKey, mret (LStr tag)); ("data"%string, mret (LStr (string_of_bytes d)))]
    : list (string * LM luav)).
  assert (E : binaryToLua tag d h = fields_table fs h) by reflexivity. rewrite E.
  apply delivers_fields; [done|].
  repeat constructor; apply delivers_pure; intros; apply stands_str.
Qed.

Lemma LuaNumber_to_int z : - 2 ^ 31 <= z <= 2 ^ 31 - 1 -> LuaNumber_to (float64_of_int z) = LInteger z.
Proof.
  intros Hz. unfold LuaNumber_to. rewrite float_int_of_int by lia.
  by rewrite !(proj2 (Z.leb_le _ _)) by lia.
Qed.

Lemma Forall_delivers (vs : list LValue) :
  Forall (fun v => convertible v = true -> delivers (LValueToLua v) (through_lua v)) vs ->
  forallb convertible vs = true ->
  Forall2 delivers (LValueToLua <$> vs) (through_lua <$> vs).
Proof.
  induction 1 as [|v vs Hv _ IH]; cbn; [constructor|]. rewrite andb_true_iff. intros [H1 H2].
  constructor; auto.
Qed.
Lemma delivers_field o :
  opt_all (fun v => convertible v = true -> delivers (LValueToLua v) (through_lua v)) o ->
  match o with Some v => convertible v | None => true end = true ->
  delivers (match o with Some v => LValueToLua v | None => mret LNil end)
    (match o with Some v => through_lua v | None => LVoid end).
Proof.
  destruct o as [v|]; cbn; [auto|]. intros _ _. apply delivers_pure. intros. apply stands_nil.
Qed.

Lemma delivers_matrix m :
  length m = 16%nat ->
  Forall2 delivers
    ((fun i => f ← lift_outcome (index m i); number (float64_of_float32 f)) <$> seqZ 0 16)
    (f32_value <$> m).
Proof.
  intros Hm. do 16 (destruct m as [|? m]; [done|]). destruct m; [|done]. clear.
  repeat constructor; apply delivers_number.
Qed.

Lemma delivers_byte b : delivers (number (float64_of_int (Z_of_byte b))) (LInteger (Z_of_byte b)).
Proof.
  rewrite <- (LuaNumber_to_int (Z_of_byte b)); [apply delivers_number|].
  pose proof (Z_of_byte_range b). lia.
Qed.

Lemma LValueToLua_delivers v :
  convertible v = true -> delivers (LValueToLua v) (through_lua v).
Proof.
  induction v using LValue_rect'; cbn [LValueToLua through_lua convertible]; intros Hc;
    rewrite ?andb_true_iff in Hc.
  - apply delivers_pure. intros. apply stands_nil.
  - apply delivers_number.
  - apply delivers_pure. intros. apply stands_str.
  - apply delivers_pure. intros. apply stands_str.
  - apply delivers_binary. by rewrite tagged_value.
  - apply delivers_number.
  - apply delivers_elements. by apply Forall_delivers.
  - apply delivers_fields; [done|]. repeat constructor; cbn; apply delivers_field; tauto.
  - apply delivers_fields; [done|]. repeat constructor; cbn; apply delivers_field; tauto.
  - destruct Hc as [[Hp Hlen] Hc]. apply bool_decide_eq_true in Hlen.
    apply (delivers_table stands stands_mono _ (sets (name_of <$> ps)) (through_lua <$> vs)).
    + intros l h t Hl. rewrite props_loop_set_fields by (by rewrite ?length_fmap).
      apply set_fields_fills; [apply stands_mono| | |done].
      * apply fst_zip. by rewrite !length_fmap, Hlen.
      * rewrite snd_zip by (by rewrite !length_fmap, Hlen). by apply Forall_delivers.
    + intros h l vs' Hl Hs. apply stands_table; [apply table_value_shape|]. eapply field_table_reads; [done|].
      apply field_table_sets; [done|apply field_table_new].
  - apply delivers_fields; [done|]. repeat constructor; apply delivers_byte.
  - apply delivers_pure. intros. apply stands_str.
  - apply delivers_binary. by rewrite tagged_value.
  - apply delivers_fields; [done|]. repeat constructor; apply delivers_number.
  - apply delivers_elements, delivers_matrix. by apply bool_decide_eq_true in Hc.
Qed.
End Round.

(** ** The values that come back unchanged *)

Definition fits_int32 (z : Z) : bool := (- 2 ^ 31 <=? z) && (z <=? 2 ^ 31 - 1).

Definition symbol_name (p : LValue) : option string :=
  match p with LSymbol s => Some s | _ => None end.

(** Symbols in strictly increasing order. *)
Fixpoint ordered_symbols (ps : list LValue) : bool :=
  match ps with
  | [] => true
  | p :: ps =>
      match symbol_name p with
      | Some a =>
          forallb (fun q => match symbol_name q with
                            | Some b => bool_decide (str_le a b /\ a <> b)
                            | None => false
                            end) ps && ordered_symbols ps
      | None => false
      end
  end.

(** A field [__lingo] with the name of a binary kind: such a property list would
    be taken for a picture or media. *)
Definition tagged_field (p v : LValue) : bool :=
  match p, v with
  | LSymbol k, LString tag =>
      bool_decide (k = lingoTagKey) && (bool_decide (tag = lingoTagMedia) || bool_decide (tag = lingoTagPicture))
  | _, _ => false
  end.

Fixpoint survives (v : LValue) : bool :=
  match v with
  | LVoid | LString _ | LPicture _ | LMedia _ => true
  | LInteger z => fits_int32 z
  | LFloat f => match float_int f with Some z => negb (fits_int32 z) | None => true end
  | LList vs =>
      match vs with [] => false | _ => true end && forallb (fun v => not_void v && survives v) vs
  | LPropList ps vs =>
      ordered_symbols ps && bool_decide (length ps = length vs) &&
      forallb (fun v => not_void v && survives v) vs &&
      negb (existsb (fun pv => tagged_field pv.1 pv.2) (zip ps vs))
  | _ => false
  end.

Lemma number_unchanged v f :
  LuaNumber_to f = v ->
  match v with LInteger z => float_int f = Some z /\ fits_int32 z = true
             | LFloat g => g = f /\ match float_int f with Some z => fits_int32 z = false | None => True end
             | _ => False
             end.
Proof.
  intros <-. unfold LuaNumber_to, fits_int32. destruct (float_int f) as [z|]; [|done].
  by destruct (_ && _) eqn:E.
Qed.

Lemma ordered_symbols_spec ps :
  ordered_symbols ps = true <->
  exists ks, ps = LSymbol <$> ks /\ StronglySorted str_le ks /\ NoDup ks.
Proof.
  induction ps as [|p ps IH]; cbn.
  - split; [|done]. intros _. exists []. split_and!; [done|constructor..].
  - destruct p; cbn; try (split; [done|intros ([|k ks] & [=] & _)]).
    rewrite andb_true_iff, IH, forallb_forall. split.
    + intros (Hall & ks & -> & Hs & Hn). exists (Value :: ks). split; [done|].
      assert (Hk : forall k, k ∈ ks -> str_le Value k /\ Value <> k).
      { intros k Hk. specialize (Hall (LSymbol k)). cbn in Hall.
        eapply bool_decide_eq_true_1, Hall, list_elem_of_In, list_elem_of_fmap. by exists k. }
      split; constructor; try done.
      * apply Forall_forall. intros k Hin. by apply Hk.
      * intros Hin. by apply Hk in Hin as [_ []].
    + intros ([|k ks] & [= -> ->] & Hs & Hn). apply StronglySorted_inv in Hs as [Hs Hf].
      apply NoDup_cons in Hn as [Hk Hn]. split; [|by exists ks].
      intros q Hq%list_elem_of_In. apply list_elem_of_fmap in Hq as (b & -> & Hb). cbn.
      apply bool_decide_eq_true_2. split; [|by intros ->].
      rewrite Forall_forall in Hf. by apply Hf.
Qed.

Lemma filter_all (xs : list LValue) :
  length (filter not_void xs) = length xs <-> forallb not_void xs = true.
Proof.
  induction xs as [|x xs IH]; [done|]. pose proof (length_filter not_void xs) as Hle.
  cbn [forallb]. destruct (decide (not_void x)) as [Hx|Hx].
  - rewrite filter_cons_True, (Is_true_true_1 _ Hx) by done. cbn. rewrite <- IH. lia.
  - rewrite filter_cons_False by done. apply Is_true_false_1 in Hx as ->. cbn. split; [lia|done].
Qed.

Lemma filter_same (xs : list LValue) : forallb not_void xs = true -> filter not_void xs = xs.
Proof.
  induction xs as [|x xs IH]; [done|]. cbn [forallb]. rewrite andb_true_iff. intros [Hx Hxs].
  rewrite filter_cons_True by (by apply Is_true_true). f_equal. by apply IH.
Qed.

Lemma list_unchanged vs :
  Forall (fun v => through_lua v = v <-> survives v = true) vs ->
  (list_value (through_lua <$> vs) = LList vs <-> survives (LList vs) = true).
Proof.
  intros Hvs. cbn [survives]. unfold list_value.
  assert (Hids : forallb (fun v => not_void v && survives v) vs = true <->
    filter not_void (through_lua <$> vs) = vs).
  { split.
    - intros Hs. assert (E : through_lua <$> vs = vs).
      { induction Hvs as [|v vs Hv _ IH]; [done|]. cbn in Hs |- *.
        rewrite !andb_true_iff in Hs. destruct Hs as [[_ H1] H2]. f_equal; [by apply Hv|by apply IH]. }
      rewrite E. apply filter_same. clear -Hs. induction vs as [|v vs IH]; [done|]. cbn in *.
      rewrite !andb_true_iff in Hs. destruct Hs as [[-> _] Hs]. by apply IH.
    - intros E. assert (Hlen : length (filter not_void (through_lua <$> vs)) = length (through_lua <$> vs))
        by (by rewrite E, length_fmap).
      assert (Hall : forallb not_void (through_lua <$> vs) = true) by (by apply filter_all).
      rewrite filter_same in E by done. clear Hlen.
      induction Hvs as [|v vs Hv _ IH]; [done|]. cbn in *. injection E as E1 E2.
      rewrite andb_true_iff in Hall. destruct Hall as [H1 H2]. rewrite E1 in H1.
      rewrite H1, (proj1 Hv E1). by apply IH. }
  rewrite andb_true_iff, Hids. destruct (filter not_void (through_lua <$> vs)) as [|w ws] eqn:E.
  - split; [done|]. by intros [H <-].
  - split; [intros [= <-]; done|]. by intros [_ <-].
Qed.

Lemma assigned_other m ks xs k : k ∉ ks -> foldl assign m (zip ks xs) !! k = m !! k.
Proof.
  revert m xs. induction ks as [|k' ks IH]; intros m [|x xs]; try done. intros Hk.
  apply not_elem_of_cons in Hk as [Hne Hk]. cbn. rewrite IH by done.
  unfold assign. cbn. destruct x; rewrite ?lookup_insert_ne, ?lookup_delete_ne; done.
Qed.

Lemma assigned_at m ks xs i k x :
  NoDup ks -> ks !! i = Some k -> xs !! i = Some x ->
  default LVoid (foldl assign m (zip ks xs) !! k) = x.
Proof.
  revert m xs i. induction ks as [|k' ks IH]; intros m [|x' xs] i Hn Hk Hx; try done.
  apply NoDup_cons in Hn as [Hk' Hn]. destruct i as [|i]; cbn in *.
  - injection Hk as ->. injection Hx as ->. rewrite assigned_other by done.
    destruct (assign_lookup m k x k) as [-> _]. by rewrite decide_True.
  - by apply (IH _ _ i).
Qed.

Lemma assigned_not_void l k : assign_all l !! k <> Some LVoid.
Proof.
  unfold assign_all. assert (H : forall k, (∅ : gmap string LValue) !! k <> Some LVoid)
    by (intros k'; by rewrite lookup_empty).
  revert H. generalize (∅ : gmap string LValue). induction l as [|[k' x] l IH]; intros m Hm; [apply Hm|].
  cbn. apply IH. intros k0. by apply assign_lookup.
Qed.

Definition tag_free (m : gmap string LValue) : Prop :=
  forall tag, m !! lingoTagKey = Some (LString tag) -> tag <> lingoTagMedia /\ tag <> lingoTagPicture.

Lemma table_value_props m ps vs :
  table_value m = LPropList ps vs <-> tag_free m /\ sorted_props m = LPropList ps vs.
Proof.
  unfold table_value, tag_free. destruct (m !! lingoTagKey) as [[]|] eqn:E; try naive_solver.
  repeat case_decide; naive_solver.
Qed.

Lemma name_of_symbols (ks : list string) : name_of <$> (LSymbol <$> ks) = ks.
Proof. induction ks as [|k ks IH]; [done|]. cbn. by f_equal. Qed.

Lemma forallb_survives vs :
  Forall (fun v => through_lua v = v <-> survives v = true) vs ->
  (forallb (fun v => not_void v && survives v) vs = true <->
   (through_lua <$> vs = vs /\ Forall (fun v => v <> LVoid) vs)).
Proof.
  induction 1 as [|v vs Hv _ IH]; [done|]. cbn [forallb fmap list_fmap].
  rewrite !andb_true_iff, IH, <- Hv, Forall_cons.
  assert (Hnv : not_void v = true <-> v <> LVoid) by (by destruct v). rewrite Hnv. split.
  - intros [[H1 H2] [H3 H4]]. split; [by f_equal|done].
  - intros [E [H1 H2]]. injection E as E1 E2. done.
Qed.

Lemma existsb_tagged (ks : list string) (vs : list LValue) :
  length ks = length vs ->
  (negb (existsb (fun pv => tagged_field pv.1 pv.2) (zip (LSymbol <$> ks) vs)) = true <->
   forall i tag, ks !! i = Some lingoTagKey -> vs !! i = Some (LString tag) ->
     tag <> lingoTagMedia /\ tag <> lingoTagPicture).
Proof.
  revert vs. induction ks as [|k ks IH]; intros [|v vs] Hlen; try done.
  cbn in Hlen. injection Hlen as Hlen. cbn [fmap list_fmap zip zip_with existsb fst snd].
  rewrite negb_orb, andb_true_iff, (IH _ Hlen). split.
  - intros [H1 H2] [|i] tag; [|apply H2]. cbn. intros [= ->] [= ->]. cbn in H1.
    rewrite bool_decide_true in H1 by done. cbn in H1. rewrite negb_true_iff, orb_false_iff in H1.
    by rewrite !bool_decide_eq_false in H1.
  - intros H. split; [|intros i; by apply (H (S i))]. apply negb_true_iff. destruct v; try done.
    cbn. destruct (decide (k = lingoTagKey)) as [->|Hk]; [|by rewrite bool_decide_false].
    destruct (H O Value) as [H1 H2]; [done..|]. by rewrite !(bool_decide_false (Value = _)).
Qed.

(** The fields in the order of their names. *)
Lemma sorted_props_shape m : exists ks,
  sorted_props m = LPropList (LSymbol <$> ks) ((fun k => default LVoid (m !! k)) <$> ks) /\
  StronglySorted str_le ks /\ NoDup ks /\ forall k, k ∈ ks <-> is_Some (m !! k).
Proof.
  exists (merge_sort str_le (map_to_list m).*1). split; [done|].
  pose proof (merge_sort_Permutation str_le (map_to_list m).*1) as Hp. split_and!.
  - apply Sorted_StronglySorted; [apply _|]. apply (Sorted_merge_sort str_le).
  - rewrite Hp. apply NoDup_fst_map_to_list.
  - intros k. rewrite Hp, list_elem_of_fmap. split.
    + intros ([k' x] & -> & Hx%elem_of_map_to_list). by exists x.
    + intros [x Hx]. exists (k, x). by rewrite elem_of_map_to_list.
Qed.

Lemma sorted_props_eq m ks vs :
  StronglySorted str_le ks -> NoDup ks -> length ks = length vs ->
  (forall k v, m !! k = Some v <-> exists i, ks !! i = Some k /\ vs !! i = Some v) ->
  sorted_props m = LPropList (LSymbol <$> ks) vs.
Proof.
  intros Hs Hn Hlen Hat. destruct (sorted_props_shape m) as (ks' & -> & Hs' & Hn' & Hin).
  assert (ks' = ks) as ->.
  { apply (StronglySorted_unique str_le); [done..|]. apply NoDup_Permutation; [done..|].
    intros k. rewrite Hin. split.
    - intros [v (i & Hi & _)%Hat]. by eapply list_elem_of_lookup_2.
    - intros [i Hi]%list_elem_of_lookup_1.
      destruct (lookup_lt_is_Some_2 vs i) as [v Hv]; [rewrite <- Hlen; by eapply lookup_lt_Some|].
      exists v. apply Hat. by exists i. }
  f_equal. apply list_eq. intros i. rewrite list_lookup_fmap. destruct (ks !! i) as [k|] eqn:Hk; cbn.
  - destruct (lookup_lt_is_Some_2 vs i) as [v Hv]; [rewrite <- Hlen; by eapply lookup_lt_Some|].
    by rewrite (proj2 (Hat k v)) by (by exists i).
  - symmetry. apply lookup_ge_None_2. rewrite <- Hlen. by apply lookup_ge_None_1.
Qed.

(** Distinct names, no void value: the table holds each field. *)
Lemma assigned_fields ks vs k v :
  NoDup ks -> length ks = length vs -> Forall (fun v => v <> LVoid) vs ->
  (assign_all (zip ks vs) !! k = Some v <-> exists i, ks !! i = Some k /\ vs !! i = Some v).
Proof.
  intros Hn Hlen Hnv. unfold assign_all. split.
  - intros Hk. destruct (decide (k ∈ ks)) as [[i Hi]%list_elem_of_lookup_1|Hni].
    + destruct (lookup_lt_is_Some_2 vs i) as [v' Hv']; [rewrite <- Hlen; by eapply lookup_lt_Some|].
      exists i. split; [done|]. pose proof (assigned_at ∅ ks vs i k v' Hn Hi Hv') as Ha.
      rewrite Hk in Ha. cbn in Ha. by subst.
    + by rewrite assigned_other in Hk.
  - intros (i & Hi & Hv). pose proof (assigned_at ∅ ks vs i k v Hn Hi Hv) as Ha.
    destruct (foldl assign ∅ (zip ks vs) !! k) as [x|]; cbn in Ha; [by subst|].
    rewrite Forall_lookup in Hnv. subst v. by apply Hnv in Hv.
Qed.

(** A property list that comes back as it was: its names are symbols in order,
    its values are not void and come back as they were. *)
Lemma props_fixed ps vs :
  sorted_props (assign_all (zip (name_of <$> ps) (through_lua <$> vs))) = LPropList ps vs ->
  exists ks, ps = LSymbol <$> ks /\ StronglySorted str_le ks /\ NoDup ks /\ length ks = length vs /\
    through_lua <$> vs = vs /\ Forall (fun v => v <> LVoid) vs.
Proof.
  set (m := assign_all _). destruct (sorted_props_shape m) as (ks & -> & Hs & Hn & Hin).
  intros [= <- Evs]. exists ks.
  assert (Hlen : length ks = length vs) by (by rewrite <- Evs, length_fmap).
  assert (Hv : forall i v, vs !! i = Some v -> v <> LVoid /\ through_lua v = v).
  { intros i v Hv. pose proof Hv as Hf. rewrite <- Evs, list_lookup_fmap in Hf.
    destruct (ks !! i) as [k|] eqn:Hk; [|done]. cbn in Hf. injection Hf as Hf.
    destruct (proj1 (Hin k)) as [x Hx]; [by eapply list_elem_of_lookup_2|].
    rewrite Hx in Hf. cbn in Hf. subst x. split; [intros ->; by apply assigned_not_void in Hx|].
    unfold m, assign_all in Hx. rewrite name_of_symbols in Hx.
    pose proof (assigned_at ∅ ks (through_lua <$> vs) i k (through_lua v) Hn Hk) as Ha.
    rewrite list_lookup_fmap, Hv, Hx in Ha. symmetry. by apply Ha. }
  split_and!; try done.
  - apply list_eq. intros i. rewrite list_lookup_fmap. destruct (vs !! i) as [v|] eqn:Ev; [|done].
    cbn. by rewrite (proj2 (Hv _ _ Ev)).
  - apply Forall_lookup. intros i v Ev. by destruct (Hv _ _ Ev).
Qed.

Lemma props_unchanged ps vs :
  Forall (fun v => through_lua v = v <-> survives v = true) vs ->
  (through_lua (LPropList ps vs) = LPropList ps vs <-> survives (LPropList ps vs) = true).
Proof.
  intros Hvs. cbn [through_lua survives]. rewrite table_value_props.
  rewrite !andb_true_iff, ordered_symbols_spec, forallb_survives, bool_decide_eq_true by done. split.
  - intros [Ht E]. apply props_fixed in E as (ks & -> & Hs & Hn & Hlen & Hid & Hnv).
    rewrite Hid, name_of_symbols in Ht. rewrite existsb_tagged by done.
    split_and!; [by exists ks|by rewrite length_fmap|done|done|].
    intros i tag Hk Hv. apply Ht, assigned_fields; [done..|]. by exists i.
  - intros [[[(ks & -> & Hs & Hn) Hlen] [Hid Hnv]] Htag]. rewrite Hid, name_of_symbols.
    rewrite length_fmap in Hlen. rewrite existsb_tagged in Htag by done. split.
    + intros tag Hm. apply assigned_fields in Hm as (i & Hi & Hv); [|done..]. by apply (Htag i).
    + apply sorted_props_eq; [done..|]. intros k v. by apply assigned_fields.
Qed.

Lemma table_value_shapes m :
  match table_value m with LPropList _ _ | LMedia _ | LPicture _ => True | _ => False end.
Proof.
  unfold table_value. destruct (m !! lingoTagKey) as [[]|]; try done. by repeat case_decide.
Qed.

Lemma through_lua_fixed v : through_lua v = v <-> survives v = true.
Proof.
  induction v using LValue_rect';
    try (cbn [through_lua survives]; split; [|discriminate]; intros E;
         match type of E with table_value ?m = _ => by pose proof (table_value_shapes m) as Hs; rewrite E in Hs end);
    try (by apply list_unchanged); try (by apply props_unchanged); cbn [through_lua survives]; try done.
  - split.
    + intros E. by apply number_unchanged in E as [_ E].
    + intros E. apply LuaNumber_to_int. unfold fits_int32 in E. rewrite andb_true_iff in E.
      rewrite !Z.leb_le in E. lia.
  - split.
    + intros [_ E]%number_unchanged. destruct (float_int f) as [z|]; [by rewrite E|done].
    + intros E. unfold LuaNumber_to. destruct (float_int f) as [z|]; [|done].
      fold (fits_int32 z). by apply negb_true_iff in E as ->.
  - split; [|done]. intros E. exfalso. revert E. unfold list_value. by destruct (filter _ _).
Qed.

Section Results.
Context {T : Type} `{!LuaTables T}.

(** C34. Through a script and back. Handing a Lingo value to a script always
    succeeds (when its property names print and its slices fit), leaves the
    tables that exist alone, and reading the result back, with the recursion
    depth it needs, gives exactly [through_lua]; the value is unchanged exactly
    when it [survives]: integers, floats that are not 32-bit integers, strings,
    pictures and media, lists of such values that are not empty, property lists
    whose names are symbols in increasing order. Symbols come back as strings,
    integral floats as integers, empty lists as property lists, voids are
    dropped, points, rects, colours, dates and transforms lose their kind. *)
Theorem script_roundtrip (x : LValue) (h : gmap nat T) :
  convertible x = true ->
  (exists v δ, LValueToLua x h = Ret (v, δ ∪ h) /\ δ ##ₘ h /\
     exists n, forall fuel, (n <= fuel)%nat ->
       LuaToLValue fuel (δ ∪ h) v = Ret (through_lua x)) /\
  (through_lua x = x <-> survives x = true).
Proof.
  intros Hc. split; [|apply through_lua_fixed].
  destruct (LValueToLua_delivers (T := T) x Hc h) as (v & δ & E & D & (n & Hn) & _).
  exists v, δ. split_and!; [done..|]. exists n. intros fuel Hf.
  eapply LuaToLValue_mono; [exact Hf| |done]. apply map_union_subseteq_l.
Qed.

(** ** Which tables can be read back *)

(** The values read when the table at a location is converted. *)
Definition nested (t : T) : list luav :=
  match binaryFromLuaTable t with
  | Some _ => []
  | None =>
      if (0 <? MaxN t) && isSequentialArray t (MaxN t)
      then (fun i => RawGetInt t i) <$> seqZ 1 (MaxN t)
      else (fun k => RawGetString t k) <$> sorted_keys t
  end.

Definition inside (h : gmap nat T) (w v : luav) : Prop :=
  exists l t, v = LTbl l /\ h !! l = Some t /\ w ∈ nested t.

(** Every table a value names is in the heap. *)
Definition is_linked (h : gmap nat T) (v : luav) : Prop :=
  forall l, v = LTbl l -> is_Some (h !! l).
Definition linked (h : gmap nat T) : Prop :=
  forall l t, h !! l = Some t -> Forall (is_linked h) (nested t).

Lemma table_step n (h : gmap nat T) l t :
  h !! l = Some t ->
  (returns (LuaToLValue (S n) h (LTbl l)) <-> Forall (fun w => returns (LuaToLValue n h w)) (nested t)).
Proof.
  intros Hl. cbn [LuaToLValue]. rewrite Hl. unfold luaTableToLValue, nested.
  destruct (binaryFromLuaTable t); [split; [constructor|intros; apply returns_Ret]|].
  destruct (_ && _); rewrite <- mapM_outcome_returns; split.
  1,3: by intros [x (vs & Hvs & _)%bind_Ret_inv]; exists vs.
  all: intros [vs Hvs]; rewrite Hvs; apply returns_Ret.
Qed.

(** When a script's value can be converted. [LuaToLValue] returns exactly
    on the values from which no endless descent into nested tables exists: a
    table that contains itself, directly or through others, is never converted,
    whatever the recursion depth allowed. *)
Theorem conversion_terminates (h : gmap nat T) (v : luav) :
  linked h -> is_linked h v ->
  ((exists n x, LuaToLValue n h v = Ret x) <-> Acc (inside h) v).
Proof.
  intros Hh Hv. split.
  - intros (n & x & Hn). revert v x Hv Hn. induction n as [|n IH]; intros v x Hv Hn; constructor;
      intros w (l & t & -> & Hl & Hw); [done|].
    assert (Hr : returns (LuaToLValue (S n) h (LTbl l))) by (by exists x).
    apply (table_step n h l t Hl) in Hr. rewrite Forall_forall in Hr.
    destruct (Hr w Hw) as [y Hy]. eapply IH; [|done].
    pose proof (Hh l t Hl) as Hall. rewrite Forall_forall in Hall. by apply Hall.
  - intros Hacc. revert Hv. induction Hacc as [v _ IH]. intros Hv.
    destruct v as [| | | |l| |]; try (by exists O; eexists).
    destruct (Hv l eq_refl) as [t Hl]. pose proof (Hh l t Hl) as Hall.
    assert (Hn : exists n, Forall (fun w => returns (LuaToLValue n h w)) (nested t)).
    { assert (Hin : forall w, w ∈ nested t -> exists n x, LuaToLValue n h w = Ret x).
      { intros w Hw. apply IH; [by exists l, t|]. rewrite Forall_forall in Hall. by apply Hall. }
      clear -Hin. revert Hin. generalize (nested t). intros ws. induction ws as [|w ws IHw]; intros Hin.
      - exists O. constructor.
      - destruct (Hin w) as (n & x & Hx); [left|].
        destruct IHw as [m Hm]; [intros; apply Hin; by right|]. exists (n + m)%nat. constructor.
        + exists x. eapply LuaToLValue_mono; [|done|done]. lia.
        + eapply Forall_impl; [exact Hm|]. intros y [z Hz]. exists z.
          eapply LuaToLValue_mono; [|done|done]. lia. }
    destruct Hn as [n Hn]. apply (table_step n h l t Hl) in Hn as [x Hx]. by exists (S n), x.
Qed.
End Results.

Definition a_list : LValue := LList [LInteger 7; LPropList [LSymbol "a"] [LString "x"]; LMedia [Byte.x01]].

Lemma script_roundtrip_witness :
  convertible a_list = true /\
  (exists v δ, LValueToLua (T := mini_table) a_list ∅ = Ret (v, δ ∪ ∅) /\ δ ##ₘ ∅ /\
     exists n, forall fuel, (n <= fuel)%nat -> LuaToLValue fuel (δ ∪ ∅) v = Ret (through_lua a_list)) /\
  through_lua a_list = a_list.
Proof.
  assert (Hc : convertible a_list = true) by reflexivity.
  destruct (script_roundtrip (T := mini_table) a_list ∅ Hc) as [H1 H2].
  split_and!; [done|exact H1|]. apply H2. vm_compute. reflexivity.
Defined.

(** [t = {}; t.self = t] *)
Definition self_heap : gmap nat mini_table := {[ 0%nat := mkTable [] {[ "self"%string := LTbl 0 ]} ]}.

Lemma conversion_terminates_witness :
  linked self_heap /\ is_linked self_heap (LTbl 0) /\ (forall n x, LuaToLValue n self_heap (LTbl 0) <> Ret x).
Proof.
  assert (Hl : linked self_heap).
  { intros l t Hl. unfold self_heap in Hl. apply lookup_singleton_Some in Hl as [<- <-].
    apply Forall_forall. intros w Hw. vm_compute in Hw. apply list_elem_of_singleton in Hw as ->.
    intros l [= <-]. by eexists. }
  assert (Hv : is_linked self_heap (LTbl 0)) by (intros l [= <-]; by eexists).
  split; [exact Hl|split; [exact Hv|]]. intros n x Hn.
  assert (Hacc : Acc (inside self_heap) (LTbl 0))
    by (apply (conversion_terminates self_heap (LTbl 0) Hl Hv); by exists n, x).
  assert (Hi : inside self_heap (LTbl 0) (LTbl 0)).
  { exists 0%nat, (mkTable [] {[ "self"%string := LTbl 0 ]}). split_and!; [done|done|]. vm_compute. left. }
  clear -Hacc Hi. remember (LTbl 0) as v eqn:E. induction Hacc as [v _ IH]. subst. by apply (IH (LTbl 0)).
Defined.
