(* ===== verification/Blowfish.v ===== *)
(** * The Blowfish stream cipher (outbound/blowfish.go, factory/cipher.go)

    The cipher object with its boxes and running state, the key schedule, the
    block function, and the byte stream: a block function iterated on its own
    output whose bytes are xored onto the data. Encryption and decryption start
    from a cleared state and run the same stream, so each undoes the other
    whatever happened to the shared object in between; that is what discharges
    the cipher interface of the message parser.

    The block function is called with [kEncrypt], which is 0 and therefore runs
    its else branch (subkeys from last to first), both for the key schedule and
    for the stream. *)

From Stdlib Require Import ZArith Lia.
From stdpp Require Import base list strings option.
From S2P Require Import Prelude GoFmt LValue LExtract LParse LRoundtrip Smus BlowfishTables.

Open Scope Z_scope.

Record Boxes := mkBoxes { boxP : list Z; boxS : list Z }.

Definition initBoxes : Boxes := mkBoxes init_P init_S.

Definition kEncrypt : Z := 0.
Definition kDecrypt : Z := 1.
Definition kNoCrypt : Z := 2.
Definition BlowfishRounds : Z := 16.

Record Blowfish := mkBlowfish {
  bf_key : bytes;
  bf_boxes : Boxes;
  bf_state : Z;
  bf_lastOperation : Z;
  bf_stateOffset : Z
}.

Definition NewBlowfish (keyStr : string) : Blowfish :=
  mkBlowfish (bytes_of_string keyStr) initBoxes 0 kNoCrypt 0.

(** ** The block function *)

(** A read of one of the fixed-size arrays: every index the code forms is a
    constant or masked to the array's size. *)
Definition word (l : list Z) (i : Z) : Z := nth (Z.to_nat i) l 0.

(** The round function on [R]: four S-box words, with 32-bit additions. *)
Definition round_f (S : list Z) (R : Z) : Z :=
  Z.land
    (uint32 (Z.lxor (uint32 (word S (Z.shiftr R 24) +
                             word S (0x0100 + Z.land (Z.shiftr R 16) 0xff)))
                    (word S (0x0200 + Z.land (Z.shiftr R 8) 0xff)) +
             word S (0x0300 + Z.land R 0xff)))
    0xffffffff.

(** [blowfishEncode(&LL, R, S, P)] *)
Definition blowfishEncode (LL R : Z) (S : list Z) (P : Z) : Z :=
  Z.lxor (Z.lxor LL P) (round_f S R).

(** Sixteen rounds, alternating between the halves, with the subkeys listed. *)
Fixpoint rounds (S : list Z) (ks : list Z) (l r : Z) : Z * Z :=
  match ks with
  | k1 :: k2 :: ks =>
      let r := blowfishEncode r l S k1 in
      let l := blowfishEncode l r S k2 in
      rounds S ks l r
  | _ => (l, r)
  end.

(** The subkeys p[1], ..., p[16] in round order. *)
Definition subkeys (P : list Z) : list Z := (fun i => word P (Z.of_nat i)) <$> seq 1 16.

Definition DoCrypto (b : Boxes) (data : Z * Z) (encrypt : Z) : Z * Z :=
  let p := boxP b in
  let s := boxS b in
  let l := data.1 in
  let r := data.2 in
  if negb (encrypt =? 0) then
    let l := Z.lxor l (word p 0) in
    let lr := rounds s (subkeys p) l r in
    (Z.lxor lr.2 (word p (BlowfishRounds + 1)), lr.1)
  else
    let l := Z.lxor l (word p (BlowfishRounds + 1)) in
    let lr := rounds s (rev (subkeys p)) l r in
    (Z.lxor lr.2 (word p 0), lr.1).

(** ** The key schedule *)

Definition set_word (l : list Z) (i : nat) (z : Z) : list Z := <[i := z]> l.

(** Four key bytes, cycling, as one word, and the next cursor. *)
Definition key_word (key : bytes) (keyLen d : Z) : outcome (Z * Z) :=
  let next d := Z.rem (d + 1) keyLen in
  b0 ← index key d;
  b1 ← index key (next d);
  b2 ← index key (next (next d));
  b3 ← index key (next (next (next d)));
  Ret (Z.lor (Z.lor (Z.lor (Z.shiftl (Z_of_byte b0) 24) (Z.shiftl (Z_of_byte b1) 16))
                    (Z.shiftl (Z_of_byte b2) 8)) (Z_of_byte b3),
       next (next (next (next d)))).

(** The first loop of [SetKey]: [p[i] ^= ri] for the subkeys [idx]. *)
Fixpoint xor_key (key : bytes) (keyLen : Z) (idx : list nat) (p : list Z) (d : Z) : outcome (list Z) :=
  match idx with
  | [] => Ret p
  | i :: idx =>
      kw ← key_word key keyLen d;
      xor_key key keyLen idx (set_word p i (Z.lxor (word p (Z.of_nat i)) kw.1)) kw.2
  end.

(** The other two loops: encipher the running block and store its halves. *)
Fixpoint fill_P (idx : list nat) (b : Boxes) (inp : Z * Z) : Boxes * (Z * Z) :=
  match idx with
  | [] => (b, inp)
  | i :: idx =>
      let inp := DoCrypto b inp kEncrypt in
      fill_P idx (mkBoxes (set_word (set_word (boxP b) i inp.1) (S i) inp.2) (boxS b)) inp
  end.

Fixpoint fill_S (idx : list nat) (b : Boxes) (inp : Z * Z) : Boxes * (Z * Z) :=
  match idx with
  | [] => (b, inp)
  | i :: idx =>
      let inp := DoCrypto b inp kEncrypt in
      fill_S idx (mkBoxes (boxP b) (set_word (set_word (boxS b) i inp.1) (S i) inp.2)) inp
  end.

Definition evens (n : nat) : list nat := (fun i => (2 * i)%nat) <$> seq 0 n.

Definition clearState (b : Blowfish) : Blowfish :=
  mkBlowfish (bf_key b) (bf_boxes b) 0 (bf_lastOperation b) 0.

Definition SetKey (b : Blowfish) : outcome Blowfish :=
  let keyLen := Z.min (zlen (bf_key b)) ((BlowfishRounds + 2) * 4) in
  let key := take (Z.to_nat keyLen) (bf_key b) in
  p ← xor_key key keyLen (seq 0 18) (boxP (bf_boxes b)) 0;
  let r1 := fill_P (evens 9) (mkBoxes p (boxS (bf_boxes b))) (0, 0) in
  let r2 := fill_S (evens 512) r1.1 r1.2 in
  Ret (clearState (mkBlowfish (bf_key b) r2.1 (bf_state b) (bf_lastOperation b) (bf_stateOffset b))).

(** ** The stream *)

Definition block_bytes (ti : Z * Z) : bytes := PutUint32 (uint32 ti.1) ++ PutUint32 (uint32 ti.2).

Definition xor_byte (a b : byte) : byte := byte_of_Z (Z.lxor (Z_of_byte a) (Z_of_byte b)).

(** The loop of [mungeData] over the input: the running block [ti], its bytes
    [d], the offset in the block, and whether a block was produced. *)
Fixpoint munge_loop (b : Boxes) (inBuffer : bytes) (cur : Z) (ti : Z * Z) (d : bytes) (save : bool) :
    bytes * (Z * (Z * Z) * bool) :=
  match inBuffer with
  | [] => ([], (cur, ti, save))
  | x :: rest =>
      let ti' := if cur =? 0 then DoCrypto b ti kEncrypt else ti in
      let d' := if cur =? 0 then block_bytes ti' else d in
      let save' := if cur =? 0 then true else save in
      let r := munge_loop b rest (Z.land (cur + 1) 7) ti' d' save' in
      (xor_byte x (nth (Z.to_nat cur) d' Byte.x00) :: r.1, r.2)
  end.

Definition mungeData (b : Blowfish) (inBuffer : bytes) (operation : Z) : Blowfish * bytes :=
  let ti := (bf_state b, 0) in
  let r := munge_loop (bf_boxes b) inBuffer (bf_stateOffset b) ti (block_bytes ti) false in
  let '(cur, ti', save) := r.2 in
  (mkBlowfish (bf_key b) (bf_boxes b) (if (save : bool) then ti'.1 else bf_state b)
     (bf_lastOperation b) cur, r.1).

Definition set_operation (b : Blowfish) (op : Z) : Blowfish :=
  mkBlowfish (bf_key b) (bf_boxes b) (bf_state b) op (bf_stateOffset b).

Definition bf_Encrypt (b : Blowfish) (inBuffer : bytes) : Blowfish * bytes :=
  mungeData (set_operation (clearState b) kEncrypt) inBuffer kEncrypt.

Definition bf_Decrypt (b : Blowfish) (inBuffer : bytes) : Blowfish * bytes :=
  mungeData (set_operation (clearState b) kDecrypt) inBuffer kDecrypt.

(** The port [Cipher] a Blowfish object implements. *)
Definition blowfish_cipher (b : Blowfish) : Cipher :=
  mkCipher (fun x => (bf_Encrypt b x).2) (fun x => (bf_Decrypt b x).2).

(** ** The factory *)

Definition smusDefaultKey : string := "IPAddress resolution".

(** [None] is the "unsupported cipher type" error. *)
Definition NewCipher (cipherType key : string) : outcome (option Blowfish) :=
  if decide (cipherType = "blowfish"%string) then
    let key := if slen key <? 20 then (key +:+ smusDefaultKey)%string else key in
    b ← SetKey (NewBlowfish key);
    Ret (Some b)
  else Ret None.

(** ** The block function is a permutation *)

Lemma lxor_cancel a b : Z.lxor (Z.lxor a b) b = a.
Proof. by rewrite Z.lxor_assoc, Z.lxor_nilpotent, Z.lxor_0_r. Qed.

Lemma blowfishEncode_cancel x R S k : blowfishEncode (blowfishEncode x R S k) R S k = x.
Proof.
  unfold blowfishEncode. generalize (round_f S R) as f. intros f.
  rewrite (Z.lxor_assoc (Z.lxor x k) f k), (Z.lxor_comm f k), <- Z.lxor_assoc.
  by rewrite !lxor_cancel.
Qed.

(** A round undone: the halves of a finished pair of rounds, fed back with the
    two subkeys swapped. *)
Lemma rounds_app S ks1 ks2 l r :
  Nat.Even (length ks1) ->
  rounds S (ks1 ++ ks2) l r = let lr := rounds S ks1 l r in rounds S ks2 lr.1 lr.2.
Proof.
  revert l r. induction ks1 as [ks1 IH] using (induction_ltof1 _ (@length Z)).
  unfold ltof in IH. intros l r Hev. destruct ks1 as [|k1 [|k2 ks1]]; [done| |].
  - destruct Hev as [n Hn]. simpl in Hn. lia.
  - cbn [rounds app]. cbv zeta. rewrite IH; [done|simpl; lia|].
    destruct Hev as [n Hn]. exists (n - 1)%nat. simpl in Hn. lia.
Qed.

Lemma rounds_rev S ks l r l' r' :
  Nat.Even (length ks) ->
  rounds S ks l r = (l', r') -> rounds S (rev ks) r' l' = (r, l).
Proof.
  revert l r l' r'. induction ks as [ks IH] using (induction_ltof1 _ (@length Z)).
  unfold ltof in IH. intros l r l' r' Hev H. destruct ks as [|k1 [|k2 ks]].
  - simpl in H. by simplify_eq.
  - destruct Hev as [n Hn]. simpl in Hn. lia.
  - assert (Nat.Even (length ks)) as Hev'
      by (destruct Hev as [n Hn]; exists (n - 1)%nat; simpl in Hn; lia).
    cbn [rounds] in H. cbv zeta in H. apply IH in H; [|simpl; lia|done].
    replace (rev (k1 :: k2 :: ks)) with (rev ks ++ [k2; k1])
      by (cbn [rev]; by rewrite <- app_assoc).
    rewrite rounds_app by (by rewrite length_rev). cbv zeta. rewrite H.
    cbn [rounds fst snd]. cbv zeta. by rewrite !blowfishEncode_cancel.
Qed.

Lemma subkeys_even P : Nat.Even (length (subkeys P)).
Proof. exists 8%nat. unfold subkeys. by rewrite length_fmap, length_seq. Qed.

(** The two directions of [DoCrypto] are inverse permutations of a block,
    for any contents of the P and S boxes: enciphering with the subkeys in one
    order is undone by the run with the subkeys in the other order, and
    conversely. *)
Theorem DoCrypto_inverse b data :
  DoCrypto b (DoCrypto b data kDecrypt) kEncrypt = data /\
  DoCrypto b (DoCrypto b data kEncrypt) kDecrypt = data.
Proof.
  destruct data as [l r]. unfold DoCrypto, kDecrypt, kEncrypt.
  cbn [Z.eqb negb fst snd]. cbv zeta. split.
  - destruct (rounds _ (subkeys _) _ r) as [l' r'] eqn:E. cbn [fst snd].
    apply rounds_rev in E; [|apply subkeys_even].
    rewrite lxor_cancel, E. cbn [fst snd]. by rewrite lxor_cancel.
  - destruct (rounds _ (rev _) _ r) as [l' r'] eqn:E. cbn [fst snd].
    apply rounds_rev in E; [|rewrite length_rev; apply subkeys_even].
    rewrite rev_involutive in E. rewrite lxor_cancel, E. cbn [fst snd]. by rewrite lxor_cancel.
Qed.

(** ** Widths: every word the cipher handles stays a uint32 *)

Lemma u32_land z : in_uint32 z <-> Z.land z (Z.ones 32) = z.
Proof.
  rewrite Z.land_ones by lia. change (2 ^ 32) with two32. unfold in_uint32. split.
  - intros H. by apply Z.mod_small.
  - intros <-. by apply Z.mod_pos_bound.
Qed.

Lemma land_lxor_distr a b m : Z.land (Z.lxor a b) m = Z.lxor (Z.land a m) (Z.land b m).
Proof.
  apply Z.bits_inj'. intros n Hn. rewrite !Z.land_spec, !Z.lxor_spec, !Z.land_spec.
  by destruct (Z.testbit a n), (Z.testbit b n), (Z.testbit m n).
Qed.

Lemma lxor_u32 a b : in_uint32 a -> in_uint32 b -> in_uint32 (Z.lxor a b).
Proof. rewrite !u32_land, land_lxor_distr. by intros -> ->. Qed.

Lemma lor_u32 a b : in_uint32 a -> in_uint32 b -> in_uint32 (Z.lor a b).
Proof. rewrite !u32_land, Z.land_lor_distr_l. by intros -> ->. Qed.

Lemma round_f_u32 S R : in_uint32 (round_f S R).
Proof.
  unfold round_f. change 0xffffffff with (Z.ones 32). rewrite Z.land_ones by lia.
  by apply Z.mod_pos_bound.
Qed.

#[local] Hint Resolve lxor_u32 lor_u32 round_f_u32 : go.

Definition boxes_wf (b : Boxes) : Prop :=
  length (boxP b) = 18%nat /\ length (boxS b) = 1024%nat /\
  Forall in_uint32 (boxP b) /\ Forall in_uint32 (boxS b).

Definition block_wf (d : Z * Z) : Prop := in_uint32 d.1 /\ in_uint32 d.2.

Lemma word_u32 l i : Forall in_uint32 l -> in_uint32 (word l i).
Proof.
  intros H. unfold word. destruct (nth_in_or_default (Z.to_nat i) l 0) as [Hin| ->].
  - rewrite Forall_forall in H. by apply H.
  - unfold in_uint32, two32. lia.
Qed.

Lemma rounds_u32 S ks l r :
  Forall in_uint32 ks -> in_uint32 l -> in_uint32 r -> block_wf (rounds S ks l r).
Proof.
  revert l r. induction ks as [ks IH] using (induction_ltof1 _ (@length Z)).
  unfold ltof in IH. intros l r Hks Hl Hr. destruct ks as [|k1 [|k2 ks]]; [done|done|].
  apply Forall_cons_iff in Hks as [H1 Hks]. apply Forall_cons_iff in Hks as [H2 Hks].
  cbn [rounds]. cbv zeta. unfold blowfishEncode. apply IH; [simpl; lia|done| |];
    auto 6 with go.
Qed.

Lemma subkeys_u32 P : Forall in_uint32 P -> Forall in_uint32 (subkeys P).
Proof.
  intros H. unfold subkeys. apply Forall_fmap, Forall_forall. intros i _. by apply word_u32.
Qed.

Lemma DoCrypto_u32 b d e : boxes_wf b -> block_wf d -> block_wf (DoCrypto b d e).
Proof.
  intros (_ & _ & HP & _) [Hl Hr]. unfold DoCrypto. cbv zeta.
  pose proof (subkeys_u32 _ HP). pose proof (fun i => word_u32 _ i HP) as Hw.
  assert (forall ks i j, Forall in_uint32 ks ->
    let lr := rounds (boxS b) ks (Z.lxor d.1 (word (boxP b) i)) d.2 in
    block_wf (Z.lxor lr.2 (word (boxP b) j), lr.1)) as Hbr.
  { intros ks i j Hks. cbv zeta.
    destruct (rounds_u32 (boxS b) ks (Z.lxor d.1 (word (boxP b) i)) d.2 Hks) as [? ?]; auto with go.
    by split; [apply lxor_u32|]. }
  destruct (negb _); apply Hbr; [done|by apply Forall_rev].
Qed.

Lemma set_word_wf l i z n :
  length l = n -> Forall in_uint32 l -> in_uint32 z ->
  length (set_word l i z) = n /\ Forall in_uint32 (set_word l i z).
Proof.
  intros Hn Hl Hz. unfold set_word. rewrite length_insert. split; [done|].
  by apply Forall_insert.
Qed.

Lemma fill_P_wf idx b d :
  boxes_wf b -> block_wf d -> boxes_wf (fill_P idx b d).1 /\ block_wf (fill_P idx b d).2.
Proof.
  revert b d. induction idx as [|i idx IH]; intros b d Hb Hd; [done|].
  cbn [fill_P]. cbv zeta. pose proof (DoCrypto_u32 _ _ kEncrypt Hb Hd) as Hd'.
  apply IH; [|done]. destruct Hb as (HnP & HnS & HP & HS), Hd' as [H1 H2].
  destruct (set_word_wf _ i _ _ HnP HP H1) as [Hn Hf].
  destruct (set_word_wf _ (S i) _ _ Hn Hf H2). by repeat split.
Qed.

Lemma fill_S_wf idx b d :
  boxes_wf b -> block_wf d -> boxes_wf (fill_S idx b d).1 /\ block_wf (fill_S idx b d).2.
Proof.
  revert b d. induction idx as [|i idx IH]; intros b d Hb Hd; [done|].
  cbn [fill_S]. cbv zeta. pose proof (DoCrypto_u32 _ _ kEncrypt Hb Hd) as Hd'.
  apply IH; [|done]. destruct Hb as (HnP & HnS & HP & HS), Hd' as [H1 H2].
  destruct (set_word_wf _ i _ _ HnS HS H1) as [Hn Hf].
  destruct (set_word_wf _ (S i) _ _ Hn Hf H2). by repeat split.
Qed.

Lemma byte_shift_u32 x k : 0 <= k <= 24 -> in_uint32 (Z.shiftl (Z_of_byte x) k).
Proof.
  intros Hk. pose proof (Z_of_byte_range x). unfold in_uint32, two32.
  rewrite Z.shiftl_mul_pow2 by lia. pose proof (Z.pow_le_mono_r 2 k 24 ltac:(lia) ltac:(lia)).
  pose proof (Z.pow_pos_nonneg 2 k ltac:(lia) ltac:(lia)). change (2 ^ 24) with 16777216 in *. nia.
Qed.

Lemma key_word_ret key keyLen d :
  keyLen = zlen key -> 0 <= d < keyLen ->
  exists w d', key_word key keyLen d = Ret (w, d') /\ in_uint32 w /\ 0 <= d' < keyLen.
Proof.
  intros -> Hd. unfold key_word.
  assert (forall d, 0 <= d < zlen key -> 0 <= Z.rem (d + 1) (zlen key) < zlen key) as Hnext
    by (intros; apply Z.rem_bound_pos; lia).
  cbv zeta. set (next := fun d => Z.rem (d + 1) (zlen key)) in *.
  change (forall d, 0 <= d < zlen key -> 0 <= next d < zlen key) in Hnext.
  change (Z.rem (d + 1) (zlen key)) with (next d).
  pose proof (Hnext _ Hd) as H1. pose proof (Hnext _ H1) as H2. pose proof (Hnext _ H2) as H3.
  destruct (index_ret key d Hd) as [b0 ->], (index_ret _ _ H1) as [b1 E1],
    (index_ret _ _ H2) as [b2 E2], (index_ret _ _ H3) as [b3 E3].
  unfold next in *. cbn [mbind outcome_bind]. rewrite E1. cbn [mbind outcome_bind].
  rewrite E2. cbn [mbind outcome_bind]. rewrite E3. cbn [mbind outcome_bind].
  eexists _, _. split; [reflexivity|]. split; [|apply Hnext, H3].
  repeat apply lor_u32; try (apply byte_shift_u32; lia).
  pose proof (Z_of_byte_range b3). unfold in_uint32, two32. lia.
Qed.

Lemma xor_key_ret key keyLen idx p d :
  keyLen = zlen key -> 0 <= d < keyLen -> length p = 18%nat -> Forall in_uint32 p ->
  exists p', xor_key key keyLen idx p d = Ret p' /\ length p' = 18%nat /\ Forall in_uint32 p'.
Proof.
  intros Hlen. revert p d. induction idx as [|i idx IH]; intros p d Hd Hn Hp; [by exists p|].
  cbn [xor_key]. destruct (key_word_ret _ _ _ Hlen Hd) as (w & d' & -> & Hw & Hd').
  cbn [mbind outcome_bind fst snd].
  destruct (set_word_wf p i (Z.lxor (word p (Z.of_nat i)) w) 18 Hn Hp) as [Hn' Hp'].
  { apply lxor_u32; [by apply word_u32|done]. }
  by apply IH.
Qed.

(** ** The key schedule *)

Lemma initBoxes_wf : boxes_wf initBoxes.
Proof.
  assert (forall l : list Z, forallb (fun z => (0 <=? z) && (z <? two32)) l = true ->
    Forall in_uint32 l) as Hall.
  { intros l H. apply Forall_forall. intros z Hz. rewrite forallb_forall in H.
    apply H, andb_prop in Hz as [? ?]. unfold in_uint32. lia. }
  split; [by vm_compute|]. split; [by vm_compute|].
  split; apply Hall; by vm_compute.
Qed.

(** The key bytes the schedule uses. *)
Definition effective_key (key : bytes) : bytes := take 72 key.

Lemma SetKey_key b :
  SetKey b = (p ← xor_key (effective_key (bf_key b)) (zlen (effective_key (bf_key b)))
                    (seq 0 18) (boxP (bf_boxes b)) 0;
              let r1 := fill_P (evens 9) (mkBoxes p (boxS (bf_boxes b))) (0, 0) in
              let r2 := fill_S (evens 512) r1.1 r1.2 in
              Ret (mkBlowfish (bf_key b) r2.1 0 (bf_lastOperation b) 0)).
Proof.
  unfold SetKey, effective_key. change ((BlowfishRounds + 2) * 4) with 72.
  assert (take (Z.to_nat (Z.min (zlen (bf_key b)) 72)) (bf_key b) = take 72 (bf_key b)) as ->.
  { unfold zlen. destruct (Z.min_spec (Z.of_nat (length (bf_key b))) 72) as [[? ->]|[? ->]].
    - rewrite Nat2Z.id, !take_ge by lia. done.
    - done. }
  assert (Z.min (zlen (bf_key b)) 72 = zlen (take 72 (bf_key b))) as ->; [|done].
  unfold zlen. rewrite length_take. lia.
Qed.

Lemma SetKey_ret b :
  bf_key b <> [] -> boxes_wf (bf_boxes b) ->
  exists b', SetKey b = Ret b' /\ boxes_wf (bf_boxes b') /\ bf_key b' = bf_key b /\
    bf_state b' = 0 /\ bf_stateOffset b' = 0.
Proof.
  intros Hkey Hb. rewrite SetKey_key.
  destruct (xor_key_ret (effective_key (bf_key b)) _ (seq 0 18) (boxP (bf_boxes b)) 0 eq_refl)
    as (p & -> & Hn & Hp); [|apply Hb|apply Hb|].
  { unfold effective_key, zlen. rewrite length_take. destruct (bf_key b); [done|simpl length; lia]. }
  cbn [mbind outcome_bind]. cbv zeta. eexists. split; [reflexivity|].
  cbn [bf_boxes bf_key bf_state bf_stateOffset].
  destruct Hb as (_ & HnS & _ & HS).
  destruct (fill_P_wf (evens 9) (mkBoxes p (boxS (bf_boxes b))) (0, 0)) as [Hb1 Hd1];
    [done|by split|].
  by destruct (fill_S_wf (evens 512) _ _ Hb1 Hd1).
Qed.

(** The key schedule. [SetKey] on a fresh object panics exactly on the
    empty key (its first read is out of range); on any other key it returns an
    object whose 18 subkeys and 1024 box words are all uint32 values, with a
    cleared stream state, and whose boxes depend on the first 72 key bytes
    only. *)
Theorem SetKey_schedule key :
  (SetKey (NewBlowfish key) = Panic <-> key = ""%string) /\
  (key <> ""%string -> exists b, SetKey (NewBlowfish key) = Ret b /\ boxes_wf (bf_boxes b) /\
     bf_state b = 0 /\ bf_stateOffset b = 0) /\
  (forall key', effective_key (bytes_of_string key) = effective_key (bytes_of_string key') ->
     (bf_boxes <$> SetKey (NewBlowfish key)) = (bf_boxes <$> SetKey (NewBlowfish key'))).
Proof.
  assert (key <> ""%string -> bf_key (NewBlowfish key) <> []) as Hne.
  { intros H1 H2. apply H1. rewrite <- (string_of_bytes_of_string key).
    change (bytes_of_string key = []) in H2. by rewrite H2. }
  repeat split.
  - intros HP. destruct (decide (key = ""%string)) as [->|Hk]; [done|].
    destruct (SetKey_ret (NewBlowfish key) (Hne Hk) initBoxes_wf) as (b & Hb & _). congruence.
  - intros ->. rewrite SetKey_key. reflexivity.
  - intros Hk. destruct (SetKey_ret (NewBlowfish key) (Hne Hk) initBoxes_wf)
      as (b & Hb & Hw & _ & Hs & Ho). eauto.
  - intros key' Heff. rewrite !SetKey_key. cbn [NewBlowfish bf_key bf_boxes]. rewrite Heff.
    generalize (xor_key (effective_key (bytes_of_string key')) (zlen (effective_key (bytes_of_string key')))
      (seq 0 18) (boxP initBoxes) 0). intros [p| |]; cbv zeta;
      cbn [mbind outcome_bind fmap outcome_fmap bf_boxes]; reflexivity.
Qed.

(** ** The stream is its own inverse *)

Lemma xor_byte_cancel a b : xor_byte (xor_byte a b) b = a.
Proof.
  unfold xor_byte. apply Z_of_byte_inj. rewrite !Z_of_byte_of_Z.
  assert (Z.lxor (Z_of_byte a) (Z_of_byte b) mod 256 = Z.lxor (Z_of_byte a) (Z_of_byte b)) as ->.
  { change 256 with (2 ^ 8). rewrite <- !Z.land_ones by lia. rewrite land_lxor_distr.
    rewrite !Z.land_ones by lia. change (2 ^ 8) with 256.
    by rewrite !Z.mod_small by apply Z_of_byte_range. }
  rewrite lxor_cancel. apply Z.mod_small, Z_of_byte_range.
Qed.

Lemma munge_loop_inverse b x cur ti d save :
  munge_loop b (munge_loop b x cur ti d save).1 cur ti d save =
  (x, (munge_loop b x cur ti d save).2).
Proof.
  revert cur ti d save. induction x as [|a x IH]; intros cur ti d save; [done|].
  cbn [munge_loop fst snd]. by rewrite IH, xor_byte_cancel.
Qed.

Lemma munge_loop_zlen b x cur ti d save : zlen (munge_loop b x cur ti d save).1 = zlen x.
Proof.
  revert cur ti d save. induction x as [|a x IH]; intros cur ti d save; [done|].
  cbn [munge_loop fst]. by rewrite !zlen_cons, IH.
Qed.

(** The bytes of a call are a function of the boxes alone. *)
Definition stream (b : Boxes) (x : bytes) : bytes :=
  (munge_loop b x 0 (0, 0) (block_bytes (0, 0)) false).1.

Lemma mungeData_boxes b x op : bf_boxes (mungeData b x op).1 = bf_boxes b.
Proof. unfold mungeData. by destruct (munge_loop _ _ _ _ _ _) as [? [[? ?] ?]]. Qed.

Lemma bf_Encrypt_stream b x : (bf_Encrypt b x).2 = stream (bf_boxes b) x.
Proof.
  unfold bf_Encrypt, mungeData, stream. cbn [set_operation clearState bf_state bf_boxes bf_stateOffset].
  by destruct (munge_loop _ _ _ _ _ _) as [? [[? ?] ?]].
Qed.

Lemma bf_Decrypt_stream b x : (bf_Decrypt b x).2 = stream (bf_boxes b) x.
Proof.
  unfold bf_Decrypt, mungeData, stream. cbn [set_operation clearState bf_state bf_boxes bf_stateOffset].
  by destruct (munge_loop _ _ _ _ _ _) as [? [[? ?] ?]].
Qed.

Lemma stream_inverse b x : stream b (stream b x) = x.
Proof. unfold stream. by rewrite munge_loop_inverse. Qed.

(** The interface the message parser relies on, discharged. *)
#[export] Instance blowfish_laws b : CipherLaws (blowfish_cipher b).
Proof.
  split; cbn [blowfish_cipher Encrypt Decrypt]; intros x;
    rewrite ?bf_Decrypt_stream, ?bf_Encrypt_stream.
  - apply stream_inverse.
  - apply munge_loop_zlen.
  - apply munge_loop_zlen.
Qed.

(** The calls other connections make on the one shared object; the object's
    mutex makes each of them atomic. *)
Inductive cipher_call := CallEncrypt (x : bytes) | CallDecrypt (x : bytes).

Definition run_call (b : Blowfish) (c : cipher_call) : Blowfish :=
  match c with
  | CallEncrypt x => (bf_Encrypt b x).1
  | CallDecrypt x => (bf_Decrypt b x).1
  end.

Lemma run_calls_boxes cs b : bf_boxes (fold_left run_call cs b) = bf_boxes b.
Proof.
  revert b. induction cs as [|c cs IH]; intros b; [done|]. simpl fold_left. rewrite IH.
  destruct c; unfold run_call, bf_Encrypt, bf_Decrypt; by rewrite mungeData_boxes.
Qed.

(** C36. One Blowfish object serves every connection: whatever calls were made
    on it before an encryption and between that encryption and the decryption,
    the decryption gives the plaintext back, and the ciphertext itself does not
    depend on the calls made before it. *)
Theorem shared_cipher_roundtrip b before between x :
  let b1 := fold_left run_call before b in
  let c := bf_Encrypt b1 x in
  let b2 := fold_left run_call between c.1 in
  (bf_Decrypt b2 c.2).2 = x /\ c.2 = (bf_Encrypt b x).2 /\ zlen c.2 = zlen x.
Proof.
  cbv zeta. rewrite bf_Decrypt_stream, !bf_Encrypt_stream, !run_calls_boxes.
  unfold bf_Encrypt. rewrite mungeData_boxes. cbn [set_operation clearState bf_boxes].
  rewrite run_calls_boxes, stream_inverse. repeat split. apply munge_loop_zlen.
Qed.

(** The cipher factory is total: every key, the empty one included, is
    padded to a non-empty key, so building the "blowfish" cipher never panics
    and gives an object with well-formed boxes; any other type name is refused. *)
Theorem NewCipher_total cipherType key :
  exists r, NewCipher cipherType key = Ret r /\
    (r = None <-> cipherType <> "blowfish"%string) /\
    (forall b, r = Some b -> boxes_wf (bf_boxes b) /\
       bf_key b = bytes_of_string (if slen key <? 20 then key +:+ smusDefaultKey else key)).
Proof.
  unfold NewCipher. case_decide as Hc; [|by exists None]. cbv zeta.
  set (k := if slen key <? 20 then _ else _).
  assert (bf_key (NewBlowfish k) <> []) as Hne.
  { cbn [NewBlowfish bf_key]. intros H0. assert (slen k = 0) as Hk by (unfold slen; by rewrite H0).
    unfold k in Hk. destruct (Z.ltb_spec (slen key) 20); [|lia].
    rewrite slen_app in Hk. pose proof (slen_nonneg key).
    change (slen smusDefaultKey) with 20 in Hk. lia. }
  destruct (SetKey_ret (NewBlowfish k) Hne initBoxes_wf) as (b & -> & Hw & Hkey & _).
  exists (Some b). split; [done|]. split; [by split|]. intros ? [= <-]. by split.
Qed.
