(* ===== verification/Effects.v ===== *)
(** * Effectful Go code as programs over its ports

    The services and protocol handlers talk to the rest of the system through
    interfaces (session store, database, connection pool, clock, ...). A handler
    is modelled as a [prog]: a tree whose nodes are calls on those interfaces and
    whose leaves are outcomes. One tree has several readings:

    - [run] executes it against an implementation of the ports over a state;
      theorems that quantify over the implementation hold for every behaviour of
      the database, of the session store, and so on, failures included;
    - [pstep] interleaves the programs of several goroutines, one call at a time
      (each port method is atomic: it runs under its component's mutex);
    - [invoked] says which calls a program may make, whatever it is answered.

    [defer_] is Go's [defer]: the deferred program runs after a return and after
    a panic alike. *)

From Stdlib Require Import ZArith Lia.
From stdpp Require Import base list option relations.
From S2P Require Import Prelude.

Section Prog.
Context {E : Type -> Type}.

Inductive prog (A : Type) : Type :=
| Done (o : outcome A)
| Call {X : Type} (e : E X) (k : X -> prog A).

Arguments Done {A} o.
Arguments Call {A X} e k.

Fixpoint prog_bind_ {A B} (f : A -> prog B) (p : prog A) : prog B :=
  match p with
  | Done (Ret a) => f a
  | Done Panic => Done Panic
  | Done OutOfFuel => Done OutOfFuel
  | Call e k => Call e (fun x => prog_bind_ f (k x))
  end.

(** Run [t] when [p] is over, however it ended; the outcome is that of [p]
    unless [t] itself panics. *)
Fixpoint defer_ {A} (t : prog unit) (p : prog A) : prog A :=
  match p with
  | Done o => prog_bind_ (fun _ => Done o) t
  | Call e k => Call e (fun x => defer_ t (k x))
  end.

(** [recover]: a panic becomes the given result. *)
Fixpoint recover_ {A} (a : A) (p : prog A) : prog A :=
  match p with
  | Done Panic => Done (Ret a)
  | Done o => Done o
  | Call e k => Call e (fun x => recover_ a (k x))
  end.

(** ** Execution against an implementation of the ports *)

Section Run.
Context {W : Type} (h : forall X, E X -> W -> X * W).

Fixpoint run {A} (p : prog A) (w : W) : outcome A * W :=
  match p with
  | Done o => (o, w)
  | Call e k => let r := h _ e w in run (k r.1) r.2
  end.

Definition run_then {A B} (r : outcome A * W) (f : A -> W -> outcome B * W) : outcome B * W :=
  match r.1 with
  | Ret a => f a r.2
  | Panic => (Panic, r.2)
  | OutOfFuel => (OutOfFuel, r.2)
  end.

Lemma run_bind {A B} (f : A -> prog B) (p : prog A) w :
  run (prog_bind_ f p) w = run_then (run p w) (fun a w' => run (f a) w').
Proof.
  revert w. induction p as [[a| |]|X e k IH]; intros w; simpl; auto.
Qed.

Lemma run_defer {A} (t : prog unit) (p : prog A) w :
  run (defer_ t p) w =
  let r := run p w in run_then (run t r.2) (fun _ w' => (r.1, w')).
Proof.
  revert w. induction p as [o|X e k IH]; intros w; simpl; [|apply IH].
  rewrite run_bind. unfold run_then. by destruct (run t w) as [[u| |] w'].
Qed.

Lemma run_recover {A} (a : A) (p : prog A) w :
  run (recover_ a p) w =
  let r := run p w in (match r.1 with Panic => Ret a | o => o end, r.2).
Proof.
  revert w. induction p as [[b| |]|X e k IH]; intros w; simpl; auto.
Qed.
End Run.

(** ** Which calls a program may make

    [invoked P p]: whatever it is answered, [p] only makes calls in [P], and its
    model does not run out of fuel. *)

Fixpoint invoked {A} (P : forall X, E X -> Prop) (p : prog A) : Prop :=
  match p with
  | Done o => o <> OutOfFuel
  | Call e k => P _ e /\ forall x, invoked P (k x)
  end.

Lemma invoked_mono {A} (P Q : forall X, E X -> Prop) (p : prog A) :
  (forall X e, P X e -> Q X e) -> invoked P p -> invoked Q p.
Proof. intros HPQ. induction p as [|X e k IH]; simpl; naive_solver. Qed.

Lemma invoked_bind {A B} (P : forall X, E X -> Prop) (f : A -> prog B) (p : prog A) :
  invoked P p -> (forall a, invoked P (f a)) -> invoked P (prog_bind_ f p).
Proof.
  intros Hp Hf. induction p as [[a| |]|X e k IH]; simpl in *; [apply Hf|done|done|].
  destruct Hp as [He Hk]. split; [done|]. intros x. by apply IH.
Qed.

(** A state predicate kept by every call a program may make is kept by its
    runs. *)
Lemma run_invariant {A W} (h : forall X, E X -> W -> X * W) (P : forall X, E X -> Prop)
    (I : W -> Prop) (p : prog A) w :
  (forall X (e : E X) w, P X e -> I w -> I (h X e w).2) ->
  invoked P p -> I w -> I (run h p w).2.
Proof.
  intros Hh. revert w. induction p as [o|X e k IH]; intros w Hp Hw; simpl in *; [done|].
  destruct Hp as [He Hk]. apply IH; [apply Hk|by apply Hh].
Qed.

Lemma run_invoked {A W} (h : forall X, E X -> W -> X * W) (P : forall X, E X -> Prop)
    (p : prog A) w : invoked P p -> (run h p w).1 <> OutOfFuel.
Proof. revert w. induction p as [o|X e k IH]; intros w Hp; simpl in *; [done|]. apply IH, Hp. Qed.

(** ** Interleaving: a pool of programs, one atomic call per step *)

Section Concurrent.
Context {W A : Type} (h : forall X, E X -> W -> X * W).

Inductive pstep : list (prog A) * W -> list (prog A) * W -> Prop :=
| PStep i X (e : E X) k ps w :
    ps !! i = Some (Call e k) ->
    pstep (ps, w) (<[i := k (h X e w).1]> ps, (h X e w).2).

Definition preachable : list (prog A) * W -> list (prog A) * W -> Prop := rtc pstep.
End Concurrent.
End Prog.

Arguments prog : clear implicits.
Arguments Done {E A} o.
Arguments Call {E A X} e k.
Arguments pstep {E W A} h.
Arguments preachable {E W A} h.

(** One goroutine running to its end while the others wait is an interleaving. *)
Lemma run_alone {E W A} (h : forall X, E X -> W -> X * W) i (p : prog E A) ps w :
  ps !! i = Some p ->
  preachable h (ps, w) (<[i := Done (run h p w).1]> ps, (run h p w).2).
Proof.
  revert ps w. induction p as [o|X e k IH]; intros ps w Hi; simpl.
  - rewrite list_insert_id by done. apply rtc_refl.
  - eapply rtc_l; [by apply (PStep h i X e k)|].
    specialize (IH (h X e w).1 (<[i := k (h X e w).1]> ps) (h X e w).2).
    rewrite list_insert_insert_eq in IH. apply IH.
    apply list_lookup_insert_eq. by eapply lookup_lt_Some.
Qed.

(** Executing a schedule: at each turn the named goroutine makes its next call. *)
Fixpoint interleave {E W A} (h : forall X, E X -> W -> X * W) (sched : list nat)
    (c : list (prog E A) * W) : list (prog E A) * W :=
  match sched with
  | [] => c
  | i :: sched =>
      interleave h sched
        (match c.1 !! i with
         | Some (Call e k) => (<[i := k (h _ e c.2).1]> c.1, (h _ e c.2).2)
         | _ => c
         end)
  end.

Lemma interleave_reachable {E W A} (h : forall X, E X -> W -> X * W) sched (c : list (prog E A) * W) :
  preachable h c (interleave h sched c).
Proof.
  revert c. induction sched as [|i sched IH]; intros [ps w]; [apply rtc_refl|]. cbn [interleave fst snd].
  destruct (ps !! i) as [[o|X e k]|] eqn:Hi; [apply IH| |apply IH].
  eapply rtc_l; [by apply (PStep h i X e k)|]. apply IH.
Qed.

#[export] Instance prog_ret E : MRet (prog E) := fun A a => Done (Ret a).
#[export] Instance prog_bind E : MBind (prog E) := fun A B f p => prog_bind_ f p.

(** One call, answered. *)
Definition call_ {E X} (e : E X) : prog E X := Call e (fun x => Done (Ret x)).

(** A pure computation that may panic. *)
Definition lift {E A} (o : outcome A) : prog E A := Done o.

Lemma run_mbind {E A B W} (h : forall X, E X -> W -> X * W) (f : A -> prog E B) (p : prog E A) w :
  run h (p ≫= f) w = run_then (run h p w) (fun a w' => run h (f a) w').
Proof. apply run_bind. Qed.

Lemma run_call {E X W} (h : forall X, E X -> W -> X * W) (e : E X) w :
  run h (call_ e) w = (Ret (h X e w).1, (h X e w).2).
Proof. reflexivity. Qed.

Lemma run_lift {E A W} (h : forall X, E X -> W -> X * W) (o : outcome A) w :
  run h (lift o) w = (o, w).
Proof. reflexivity. Qed.

Lemma run_ret {E A W} (h : forall X, E X -> W -> X * W) (a : A) w :
  run h (mret a) w = (Ret a, w).
Proof. reflexivity. Qed.

Lemma run_then_Ret {W A B} (a : A) (w : W) (f : A -> W -> outcome B * W) :
  run_then (Ret a, w) f = f a w.
Proof. reflexivity. Qed.

Lemma run_then_Panic {W A B} (w : W) (f : A -> W -> outcome B * W) :
  run_then (Panic, w) f = (Panic, w).
Proof. reflexivity. Qed.

Lemma run_then_OutOfFuel {W A B} (w : W) (f : A -> W -> outcome B * W) :
  run_then (OutOfFuel, w) f = (OutOfFuel, w).
Proof. reflexivity. Qed.

Lemma run_if {E A W} (h : forall X, E X -> W -> X * W) (b : bool) (p q : prog E A) w :
  run h (if b then p else q) w = if b then run h p w else run h q w.
Proof. by destruct b. Qed.

Lemma invoked_mbind {E A B} (P : forall X, E X -> Prop) (f : A -> prog E B) (p : prog E A) :
  invoked P p -> (forall a, invoked P (f a)) -> invoked P (p ≫= f).
Proof. apply invoked_bind. Qed.

Lemma invoked_call {E X} (P : forall X, E X -> Prop) (e : E X) : P X e -> invoked P (call_ e).
Proof. by split. Qed.

Lemma invoked_lift {E A} (P : forall X, E X -> Prop) (o : outcome A) :
  fueled o -> invoked P (lift o).
Proof. done. Qed.

Lemma invoked_lift_bind {E A B} (P : forall X, E X -> Prop) (a : A) (f : A -> prog E B) :
  invoked P (f a) -> invoked P (lift (Ret a) ≫= f).
Proof. done. Qed.

Lemma invoked_ret {E A} (P : forall X, E X -> Prop) (a : A) : invoked P (mret a : prog E A).
Proof. done. Qed.

(** [results Q p]: whatever it is answered, what [p] returns satisfies [Q]. *)
Fixpoint results {E A} (Q : A -> Prop) (p : prog E A) : Prop :=
  match p with
  | Done (Ret a) => Q a
  | Done _ => True
  | Call e k => forall x, results Q (k x)
  end.

Lemma results_mbind {E A B} (Q : A -> Prop) (R : B -> Prop) (f : A -> prog E B) (p : prog E A) :
  results Q p -> (forall a, Q a -> results R (f a)) -> results R (p ≫= f).
Proof.
  intros Hp Hf. induction p as [[a| |]|X e k IH]; cbn in *; auto. intros x. apply IH, Hp.
Qed.

Lemma results_call {E X} (Q : X -> Prop) (e : E X) : (forall x, Q x) -> results Q (call_ e).
Proof. intros H. unfold call_. cbn. apply H. Qed.

Lemma results_mono {E A} (Q R : A -> Prop) (p : prog E A) :
  (forall a, Q a -> R a) -> results Q p -> results R p.
Proof. intros H. induction p as [[a| |]|X e k IH]; cbn; auto. Qed.

Lemma run_results {E A W} (h : forall X, E X -> W -> X * W) (Q : A -> Prop) (p : prog E A) w a :
  results Q p -> (run h p w).1 = Ret a -> Q a.
Proof.
  revert w. induction p as [[b| |]|X e k IH]; intros w Hq Hr; cbn in *; simplify_eq; auto. by eapply IH.
Qed.

Lemma invoked_mbind_post {E A B} (P : forall X, E X -> Prop) (Q : A -> Prop) (f : A -> prog E B) (p : prog E A) :
  invoked P p -> results Q p -> (forall a, Q a -> invoked P (f a)) -> invoked P (p ≫= f).
Proof.
  intros Hp Hq Hf. induction p as [[a| |]|X e k IH]; cbn in *; [auto|done|done|].
  destruct Hp as [He Hk]. split; [done|]. intros x. by apply IH.
Qed.

(** Execute the next call of a program; the answers stay as terms. *)
Ltac prun := repeat first
  [ rewrite run_mbind | rewrite run_call | rewrite run_lift | rewrite run_ret
  | rewrite run_then_Ret | rewrite run_then_Panic | rewrite run_then_OutOfFuel
  | rewrite run_if ]; cbv beta.

#[global] Opaque call_ lift.
