(* ===== verification/Protocol.v ===== *)
(** * Protocols of calls

    Which calls a program may make at which point, and how it ends: [obeys] reads
    a program against a protocol, a state that every call and its answer move on.
    It is used for the order of the start-up and for what constructors open and
    close. [embed] runs a program over some of the ports inside one over more. *)

From stdpp Require Import base list option.
From S2P Require Import Prelude Effects.

(** A program over some of the ports. *)
Fixpoint embed {E F : Type -> Type} (f : forall X, E X -> F X) {A} (p : prog E A) : prog F A :=
  match p with
  | Done o => Done o
  | Call e k => Call (f _ e) (fun x => embed f (k x))
  end.

(** ** Call protocols

    [obeys final m p]: whatever it is answered, [p] started in protocol state [m]
    only makes calls the protocol allows at that point, and ends as [final]
    says. *)

Section Protocol.
Context {E : Type -> Type} {M : Type}.

Fixpoint obeys {A} (allow : forall X, E X -> M -> Prop) (next : forall X, E X -> X -> M -> M)
    (final : outcome A -> M -> Prop) (m : M) (p : prog E A) : Prop :=
  match p with
  | Done o => final o m
  | Call e k => allow _ e m /\ forall x, obeys allow next final (next _ e x m) (k x)
  end.

Context (allow : forall X, E X -> M -> Prop) (next : forall X, E X -> X -> M -> M).

Definition then_obeys {A B} (final : outcome B -> M -> Prop) (f : A -> prog E B) (o : outcome A) (m : M) : Prop :=
  match o with
  | Ret a => obeys allow next final m (f a)
  | Panic => final Panic m
  | OutOfFuel => final OutOfFuel m
  end.

Lemma obeys_bind {A B} (final : outcome B -> M -> Prop) m (p : prog E A) (f : A -> prog E B) :
  obeys allow next (then_obeys final f) m p -> obeys allow next final m (p ≫= f).
Proof.
  revert m. induction p as [[a| |]|X e k IH]; intros m; [done..|].
  intros [He Hk]. split; [done|]. intros x. apply IH, Hk.
Qed.

Lemma obeys_call {A X} (final : outcome A -> M -> Prop) m (e : E X) (f : X -> prog E A) :
  allow X e m -> (forall x, obeys allow next final (next X e x m) (f x)) -> obeys allow next final m (call_ e ≫= f).
Proof. intros He Hf. apply obeys_bind. by split. Qed.

Lemma obeys_last {X} (final : outcome X -> M -> Prop) m (e : E X) :
  allow X e m -> (forall x, final (Ret x) (next X e x m)) -> obeys allow next final m (call_ e).
Proof. by split. Qed.

Lemma obeys_lift {A} (final : outcome A -> M -> Prop) m o : final o m -> obeys allow next final m (lift o).
Proof. done. Qed.
End Protocol.

Lemma obeys_embed {E F : Type -> Type} {M A} (g : forall X, F X -> E X) (allow : forall X, E X -> M -> Prop)
    (next : forall X, E X -> X -> M -> M) (final : outcome A -> M -> Prop) m (p : prog F A) :
  obeys (fun X e => allow X (g X e)) (fun X e => next X (g X e)) final m p ->
  obeys allow next final m (embed g p).
Proof.
  revert m. induction p as [o|X e k IH]; intros m; [done|].
  intros [He Hk]. split; [done|]. intros x. apply IH, Hk.
Qed.
