(* ===== verification/Ports.v ===== *)
(** * The ports of the domain (internal/domain/ports)

    Error values, the records that cross the interfaces, and one constructor per
    interface method the services and handlers call. The constructors are typed
    by what the method returns: [error + A] for Go's [(A, error)], [option error]
    for a lone [error]. A method that answers a pointer that may be nil answers
    an [option]. *)

From Stdlib Require Import ZArith Lia.
From stdpp Require Import base list strings option.
From S2P Require Import Prelude GoFmt LValue LExtract LParse LRoundtrip Smus Effects.

Open Scope Z_scope.

(** ** Errors

    The sentinel values the code compares against, the error of [strconv], and
    [fmt.Errorf] with its message, alone or wrapping an error with [%w]. *)

Inductive error : Type :=
| ErrUserNotFound
| ErrBanNotFound
| ErrInvalidCredentials
| ErrTokenInvalid
| errCrossUserDenied
| ErrNoRows
| ErrTxDone
| ErrQueueClosed
| NumError (num : bytes) (reason : num_error)
| Errorf (msg : string)
| Wrapf (msg : string) (wrapped : error).

#[export] Instance num_error_eq_dec : EqDecision num_error.
Proof. solve_decision. Defined.
#[export] Instance error_eq_dec : EqDecision error.
Proof. solve_decision. Defined.

(** [errors.Is]: the target is found along the wrapping chain. *)
Fixpoint errors_Is (err target : error) : bool :=
  bool_decide (err = target) ||
  match err with
  | Wrapf _ w => errors_Is w target
  | _ => false
  end.

(** ** Records *)

Record ConnectionInfo := mkConnectionInfo {
  ci_ClientID : string;
  ci_IP : string;
  ci_ConnectedAt : Z;
  ci_LastActivityAt : Z
}.

Record User := mkUser {
  u_ID : Z;
  u_UUID : string;
  u_Username : string;
  u_PasswordHash : string;
  u_UserLevel : Z;
  u_CreatedAt : Z
}.

Record Ban := mkBan {
  ban_ID : Z;
  ban_UUID : string;
  ban_UserID : option Z;
  ban_IPAddress : option string;
  ban_Reason : string;
  ban_ExpiresAt : option Z;
  ban_RevokedAt : option Z;
  ban_CreatedAt : Z
}.

Record TokenPayload := mkTokenPayload {
  tp_CharacterName : string;
  tp_UserLevel : Z;
  tp_AccountID : Z
}.

Record EmailMessage := mkEmailMessage {
  em_From : string;
  em_To : string;
  em_Subject : string;
  em_SMTPHost : string;
  em_Body : string
}.

Record ScriptMessage := mkScriptMessage {
  sm_Subject : string;
  sm_SenderID : string;
  sm_Content : option LValue
}.

(** ** Methods *)

(** [SessionStore] (ports/session_store.go). [now] is the clock reading the
    implementation takes inside the call. *)
Inductive ss_op : Type -> Type :=
| RegisterConnection (clientID ip : string) (now : Z) : ss_op unit
| UnregisterConnection (clientID : string) : ss_op unit
| GetConnection (clientID : string) : ss_op (option ConnectionInfo)
| GetAllConnections : ss_op (list ConnectionInfo)
| IsConnected (clientID : string) : ss_op bool
| UpdateLastActivity (clientID : string) (now : Z) : ss_op unit
| SetUserAttribute (clientID attrName : string) (value : LValue) : ss_op unit
| GetUserAttribute (clientID attrName : string) : ss_op LValue
| GetUserAttributeNames (clientID : string) : ss_op (list string)
| DeleteUserAttribute (clientID attrName : string) : ss_op unit
| JoinRoom (roomName clientID : string) : ss_op unit
| LeaveRoom (roomName clientID : string) : ss_op unit
| GetRoomMembers (roomName : string) : ss_op (list string)
| GetClientRooms (clientID : string) : ss_op (list string)
| LeaveAllRooms (clientID : string) : ss_op unit.

(** The part of [DBAdapter] (ports/database.go) the services use. *)
Inductive db_op : Type -> Type :=
| CreateApplication (appName : string) : db_op unit
| DeleteApplication (appName : string) : db_op unit
| SetApplicationAttribute (appName attrName : string) (value : LValue) : db_op unit
| GetApplicationAttribute (appName attrName : string) : db_op LValue
| GetApplicationAttributeNames (appName : string) : db_op (list string)
| DeleteApplicationAttribute (appName attrName : string) : db_op unit
| SetPlayerAttribute (appName userID attrName : string) (value : LValue) : db_op unit
| GetPlayerAttribute (appName userID attrName : string) : db_op LValue
| GetPlayerAttributeNames (appName userID : string) : db_op (list string)
| DeletePlayerAttribute (appName userID attrName : string) : db_op unit
| CreateUser (username passwordHash : string) (userLevel : Z) : db_op unit
| GetUser (username : string) : db_op User
| DeleteUser (username : string) : db_op unit
| CreateBan (userID : option Z) (ipAddress : option string) (reason : string)
    (expiresAt : option Z) : db_op unit
| GetActiveBanByUserID (userID : Z) : db_op (option Ban)
| GetActiveBanByIP (ipAddress : string) : db_op (option Ban)
| RevokeBan (banID : Z) : db_op unit.

(** Connections are pointers, compared by identity. *)
Definition conn : Type := nat.

(** [ConnPool] (inbound/conn_pool.go), which is also the [ConnectionWriter], and
    [conn.Close()] on a connection. *)
Inductive pool_op : Type -> Type :=
| Register (c : conn) (clientID : string) : pool_op unit
| Unregister (c : conn) : pool_op string
| CurrentID (c : conn) : pool_op string
| WriteToClient (clientID : string) (data : bytes) : pool_op (option error)
| RemapClientID (oldID newID : string) : pool_op bool
| DisconnectClient (clientID : string) : pool_op (option error)
| CloseConn (c : conn) : pool_op unit.

(** The in-memory movie table of [MovieManager] with its [Movie] and [Group]
    objects (mus/movie.go, mus/group.go); objects are referred to by location. *)
Definition loc : Type := nat.

Inductive movie_op : Type -> Type :=
| GetOrCreateMovie (movieID : string) : movie_op loc
| GetMovie (movieID : string) : movie_op (option loc)
| GetMovies : movie_op (list string)
| DeleteMovie (movieID : string) : movie_op unit
| AddGroup (movie : loc) (name : string) (group : loc) : movie_op unit
| RemoveGroup (movie : loc) (name : string) : movie_op unit
| GetGroup (movie : loc) (name : string) : movie_op (option loc)
| GetGroupNames (movie : loc) : movie_op (list string)
| GetGroupCount (movie : loc) : movie_op Z
| AllocGroup (name movieID : string) (persistent : bool) : movie_op loc
| Group_GetAttribute (group : loc) (name : string) : movie_op LValue
| Group_SetAttribute (group : loc) (name : string) (value : LValue) : movie_op unit
| Group_DeleteAttribute (group : loc) (name : string) : movie_op unit
| Group_GetAttributeNames (group : loc) : movie_op (list string).

(** [TimerManager] (ports/timer.go). *)
Inductive timer_op : Type :=
| SetServerKillTimer (minutes : Z)
| CancelServerKillTimer
| SetUserKillTimer (clientID : string) (minutes : Z)
| CancelUserKillTimer (clientID : string).

(** All the calls a handler makes. The password hashing library, the token
    store, the script engine, the mailer and the rate limiter are ports too. *)
Inductive port : Type -> Type :=
| Sess {X} (op : ss_op X) : port (error + X)
| Db {X} (op : db_op X) : port (error + X)
| Pool {X} (op : pool_op X) : port (option X)
| Mov {X} (op : movie_op X) : port X
| Timer (op : timer_op) : port unit
| SendEmail (m : EmailMessage) : port (option error)
| ValidateToken (token : string) : port (error + TokenPayload)
| CompareHashAndPassword (hash password : string) : port (option error)
| GenerateFromPassword (password : string) : port (error + string)
| HasScript (subject : string) : port bool
| Execute (m : ScriptMessage) : port (error + option LValue)
| Allow (key : string) : port bool
| IsIPBanned (host : string) : port bool
| Now : port Z.

(** Programs over the ports. *)
Abbreviation M := (prog port).

(** Calls, and the [if err != nil] idiom on their answers. *)
Definition sess {X} (op : ss_op X) : M (error + X) := call_ (Sess op).
Definition db {X} (op : db_op X) : M (error + X) := call_ (Db op).
(** A pool method may panic (a write without a mutex entry dereferences nil):
    it then has no answer. *)
Definition pool {X} (op : pool_op X) : M X :=
  o ← call_ (Pool op); lift (match o with Some x => Ret x | None => Panic end).
Definition mov {X} (op : movie_op X) : M X := call_ (Mov op).

(** [err_of r]: the error component of an answer. *)
Definition err_of {A} (r : error + A) : option error :=
  match r with inl e => Some e | inr _ => None end.
