(* ===== verification/Codec.v ===== *)
(** * Stored values (lingo/codec.go)

    How attributes are kept in the database and in Redis: [MarshalLValue] writes
    a value as a JSON object with its type and its value, integers, floats and
    strings as JSON values and everything else as the base64 text of its wire
    form; [UnmarshalLValue] reads it back. *)

From Stdlib Require Import ZArith Lia.
From Stdlib Require Import Strings.Byte.
From stdpp Require Import base list strings option.
From S2P Require Import Prelude GoFmt Utf8 Json LValue LExtract LParse LRoundtrip Smus Effects Ports.

Open Scope Z_scope.

(** ** Base64 (encoding/base64, [StdEncoding]), the JSON form of a byte slice *)

Definition b64_char (z : Z) : byte :=
  byte_of_Z (if z <? 26 then 65 + z else if z <? 52 then 71 + z else if z <? 62 then z - 4
             else if z =? 62 then 43 else 47).

Definition b64_value (b : byte) : option Z :=
  let z := Z_of_byte b in
  if (65 <=? z) && (z <=? 90) then Some (z - 65)
  else if (97 <=? z) && (z <=? 122) then Some (z - 71)
  else if (48 <=? z) && (z <=? 57) then Some (z + 4)
  else if z =? 43 then Some 62 else if z =? 47 then Some 63 else None.

Definition pad : byte := Byte.x3d.

Fixpoint b64_encode (l : bytes) : bytes :=
  match l with
  | [] => []
  | [a] =>
      let a := Z_of_byte a in [b64_char (a / 4); b64_char (a mod 4 * 16); pad; pad]
  | [a; b] =>
      let a := Z_of_byte a in let b := Z_of_byte b in
      [b64_char (a / 4); b64_char (a mod 4 * 16 + b / 16); b64_char (b mod 16 * 4); pad]
  | a :: b :: c :: l =>
      let a := Z_of_byte a in let b := Z_of_byte b in let c := Z_of_byte c in
      b64_char (a / 4) :: b64_char (a mod 4 * 16 + b / 16) :: b64_char (b mod 16 * 4 + c / 64)
        :: b64_char (c mod 64) :: b64_encode l
  end.

(** Groups of four; padding only in the last one. *)
Fixpoint b64_groups (l : bytes) : option bytes :=
  match l with
  | [] => Some []
  | a :: b :: c :: d :: l =>
      a ← b64_value a; b ← b64_value b;
      let x := byte_of_Z (a * 4 + b / 16) in
      if decide (c = pad) then
        if decide (d = pad /\ l = []) then Some [x] else None
      else
        c ← b64_value c;
        let y := byte_of_Z (b * 16 + c / 4) in
        if decide (d = pad) then if decide (l = []) then Some [x; y] else None
        else
          d ← b64_value d;
          r ← b64_groups l;
          Some (x :: y :: byte_of_Z (c * 64 + d) :: r)
  | _ => None
  end.

(** Line breaks are skipped. *)
Definition b64_decode (l : bytes) : option bytes :=
  b64_groups (filter (fun b => b <> Byte.x0a /\ b <> Byte.x0d) l).

(** ** Reading JSON into Go types

    The texts of the package's errors are not modelled. *)

Definition json_error : error := Errorf "json".

Definition or_error {A} (o : option A) : error + A := match o with Some a => inr a | None => inl json_error end.

Definition unmarshal_int (lo hi : Z) (j : json) : error + Z :=
  match j with
  | JNull => inr 0
  | JNum t => match ParseInt t with
              | inr z => if (lo <=? z) && (z <=? hi) then inr z else inl json_error
              | inl _ => inl json_error
              end
  | _ => inl json_error
  end.

Definition unmarshal_string (j : json) : error + bytes :=
  match j with JNull => inr [] | JStr s => inr s | _ => inl json_error end.

Definition unmarshal_byte (j : json) : option byte :=
  match j with
  | JNull => Some Byte.x00
  | JNum t => match parse_uint t with
              | inr z => if z <? 256 then Some (byte_of_Z z) else None
              | inl _ => None
              end
  | _ => None
  end.

(** A byte slice is base64 text, or an array of numbers. *)
Definition unmarshal_bytes (j : json) : error + bytes :=
  match j with
  | JNull => inr []
  | JStr s => or_error (b64_decode s)
  | JArr l => or_error (mapM unmarshal_byte l)
  | _ => inl json_error
  end.

(** Struct fields are matched by name, or else without regard to case: ASCII
    letters, and the two other characters that fold to one. *)
Definition fold_chunk (c : chunk) : bytes :=
  match encode c with
  | [b] => [if between 97 122 b then byte_of_Z (Z_of_byte b - 32) else b]
  | e => if decide (e = [Byte.xc5; Byte.xbf]) then lit "S"
         else if decide (e = [Byte.xe2; Byte.x84; Byte.xaa]) then lit "K" else e
  end.

Definition field_is (name : string) (key : bytes) : bool :=
  bool_decide (flat fold_chunk (chunks key) = flat fold_chunk (chunks (lit name))).

(** Decoding an object into a struct: the members in order, the first error is
    remembered and the rest still decoded; [null] leaves the struct alone. *)
Definition unmarshal_struct {A} (zero : A) (set : A -> bytes -> json -> error + A) (j : json) : error + A :=
  match j with
  | JNull => inr zero
  | JObj l =>
      let r := fold_left (fun (st : option error * A) kv =>
                 match set st.2 kv.1 kv.2 with
                 | inr a => (st.1, a)
                 | inl e => (match st.1 with Some e0 => Some e0 | None => Some e end, st.2)
                 end) l (None, zero) in
      match r.1 with Some e => inl e | None => inr r.2 end
  | _ => inl json_error
  end.

(** A field that [null] does not change. *)
Definition field {A B} (a : A) (j : json) (read : json -> error + B) (put : B -> A) : error + A :=
  match j with
  | JNull => inr a
  | _ => match read j with inr b => inr (put b) | inl e => inl e end
  end.

(** [json.Unmarshal(data, &v)] with the given reader. *)
Definition Unmarshal {A} (data : bytes) (read : json -> error + A) : outcome (error + A) :=
  o ← parse data; Ret (match o with Some j => read j | None => inl json_error end).

(** ** The codec

    [FormatFloat] writes the shortest decimal that reads back as the same
    number, [ParseFloat] reads a number token; both take and give bit
    patterns. *)

Record StoredLValue := mkStored {
  sv_Type : bytes;
  sv_Value : option json
}.

Definition set_stored (sv : StoredLValue) (key : bytes) (j : json) : error + StoredLValue :=
  if field_is "type" key then field sv j unmarshal_string (fun t => mkStored t (sv_Value sv))
  else if field_is "value" key then inr (mkStored (sv_Type sv) (Some j))
  else inr sv.

Definition is_finite (bits : Z) : bool := negb (Z.land (Z.shiftr bits 52) 2047 =? 2047).

Section Codec.
Context (FormatFloat : Z -> bytes) (ParseFloat : bytes -> option Z).

Definition stored_text (type : string) (value : option json) : bytes :=
  print (JObj ((lit "type", JStr (lit type)) :: match value with Some j => [(lit "value", j)] | None => [] end)).

Definition marshal_binary (type : string) (v : LValue) : outcome (error + bytes) :=
  b ← GetBytes v; Ret (inr (stored_text type (Some (JStr (b64_encode b))))).

Definition MarshalLValue (v : LValue) : outcome (error + bytes) :=
  match v with
  | LInteger z => Ret (inr (stored_text "integer" (Some (JNum (lit (Itoa z))))))
  | LFloat f =>
      if is_finite f then Ret (inr (stored_text "float" (Some (JNum (FormatFloat f))))) else Ret (inl json_error)
  | LString s => Ret (inr (stored_text "string" (Some (JStr (lit s)))))
  | LSymbol s => Ret (inr (stored_text "symbol" (Some (JStr (lit s)))))
  | LPropList _ _ => marshal_binary "proplist" v
  | LList _ => marshal_binary "list" v
  | LPoint _ _ => marshal_binary "point" v
  | LRect _ _ _ _ => marshal_binary "rect" v
  | LColor _ _ _ => marshal_binary "color" v
  | LDate _ => marshal_binary "date" v
  | L3dVector _ _ _ => marshal_binary "3dvector" v
  | L3dTransform _ => marshal_binary "3dtransform" v
  | LPicture _ => marshal_binary "picture" v
  | LMedia _ => marshal_binary "media" v
  | LVoid => Ret (inr (stored_text "void" None))
  end.

Definition unmarshal_float (j : json) : error + Z :=
  match j with JNull => inr 0 | JNum t => or_error (ParseFloat t) | _ => inl json_error end.

(** [json.Unmarshal(sv.Value, ...)]: an absent value is no JSON text. *)
Definition value_of {A} (sv : StoredLValue) (read : json -> error + A) : error + A :=
  match sv_Value sv with Some j => read j | None => inl json_error end.

Definition binary_types : list string :=
  ["proplist"; "list"; "point"; "rect"; "color"; "date"; "3dvector"; "3dtransform"; "picture"; "media"].

Definition UnmarshalLValue (data : bytes) : outcome (error + LValue) :=
  r ← Unmarshal data (unmarshal_struct (mkStored [] None) set_stored);
  match r with
  | inl e => Ret (inl e)
  | inr sv =>
      let typed {A} (read : json -> error + A) (make : A -> LValue) : outcome (error + LValue) :=
        Ret (match value_of sv read with inr a => inr (make a) | inl e => inl e end) in
      let t := string_of_bytes (sv_Type sv) in
      if decide (t = "integer"%string) then typed (unmarshal_int (-2147483648) 2147483647) LInteger
      else if decide (t = "float"%string) then typed unmarshal_float LFloat
      else if decide (t = "string"%string) then typed unmarshal_string (fun s => LString (string_of_bytes s))
      else if decide (t = "symbol"%string) then typed unmarshal_string (fun s => LSymbol (string_of_bytes s))
      else if decide (t ∈ binary_types) then
        match value_of sv unmarshal_bytes with
        | inl e => Ret (inl e)
        | inr b => v ← FromRawBytes b 0; Ret (inr v)
        end
      else Ret (inr LVoid)
  end.
End Codec.

(** Both directions always come to an end; reading always returns. *)
Lemma fueled_MarshalLValue FormatFloat v : fueled (MarshalLValue FormatFloat v).
Proof.
  destruct v; cbn [MarshalLValue]; try apply fueled_Ret; try (apply fueled_bind; [apply fueled_GetBytes|intros; apply fueled_Ret]).
  by destruct (is_finite _).
Qed.

Lemma UnmarshalLValue_returns ParseFloat data : returns (UnmarshalLValue ParseFloat data).
Proof.
  unfold UnmarshalLValue. apply returns_bind.
  - apply returns_bind; [apply parse_returns|]. intros. apply returns_Ret.
  - intros [e|sv] _; [apply returns_Ret|]. cbv zeta. repeat case_decide; try apply returns_Ret.
    destruct (value_of _ _) as [e|b]; [apply returns_Ret|].
    destruct (FromRawBytes_good b 0 ltac:(lia)) as (v & -> & _). apply returns_Ret.
Qed.

Example stored_int :
  match MarshalLValue (fun _ => []) (LInteger (-7)) with
  | Ret (inr b) => UnmarshalLValue (fun _ => None) b
  | _ => Panic
  end = Ret (inr (LInteger (-7))).
Proof. vm_compute. reflexivity. Qed.

(** ** Base64 round trip *)

Lemma b64_char_value z :
  0 <= z < 64 -> b64_value (b64_char z) = Some z /\ b64_char z <> pad /\ b64_char z <> Byte.x0a /\ b64_char z <> Byte.x0d.
Proof.
  intros Hz. pose (ok z := bool_decide (b64_value (b64_char z) = Some z) && bool_decide (b64_char z <> pad) &&
    bool_decide (b64_char z <> Byte.x0a) && bool_decide (b64_char z <> Byte.x0d)).
  assert (forallb ok (seqZ 0 64) = true) as Hall by (vm_compute; reflexivity).
  rewrite forallb_forall in Hall. specialize (Hall z). rewrite <- list_elem_of_In, elem_of_seqZ in Hall.
  specialize (Hall ltac:(lia)). unfold ok in Hall. rewrite !andb_true_iff, !bool_decide_eq_true in Hall. tauto.
Qed.

Lemma byte_of_Z_mod z : byte_of_Z z = byte_of_Z (z mod 256).
Proof. apply Z_of_byte_inj. rewrite !Z_of_byte_of_Z. symmetry. apply Z.mod_mod. lia. Qed.

Lemma byte_is (z : Z) (b : byte) : z mod 256 = Z_of_byte b -> byte_of_Z z = b.
Proof. intros H. by rewrite byte_of_Z_mod, H, byte_of_Z_of_byte. Qed.

Lemma list_ind3 {A} (P : list A -> Prop) :
  P [] -> (forall a, P [a]) -> (forall a b, P [a; b]) -> (forall a b c l, P l -> P (a :: b :: c :: l)) ->
  forall l, P l.
Proof.
  intros H0 H1 H2 H3. fix IH 1. intros [|a [|b [|c l]]]; [apply H0|apply H1|apply H2|apply H3, IH].
Qed.

(** The four sextets of three bytes, and the bytes back. *)
Lemma sextets a b c :
  let a := Z_of_byte a in let b := Z_of_byte b in let c := Z_of_byte c in
  let s2 := a mod 4 * 16 + b / 16 in let s3 := b mod 16 * 4 + c / 64 in
  (0 <= a / 4 < 64 /\ 0 <= s2 < 64 /\ 0 <= s3 < 64 /\ 0 <= c mod 64 < 64) /\
  (a / 4 * 4 + s2 / 16) mod 256 = a /\ (s2 * 16 + s3 / 4) mod 256 = b /\ (s3 * 64 + c mod 64) mod 256 = c.
Proof.
  pose proof (Z_of_byte_range a). pose proof (Z_of_byte_range b). pose proof (Z_of_byte_range c). cbv zeta.
  Z.to_euclidean_division_equations; lia.
Qed.

Lemma b64_groups_encode l : b64_groups (b64_encode l) = Some l.
Proof.
  induction l as [|a|a b|a b c l IH] using list_ind3; [done|..].
  - destruct (sextets a Byte.x00 Byte.x00) as ((R1 & R2 & _) & E1 & _). cbn [b64_encode b64_groups].
    change (Z_of_byte Byte.x00) with 0 in *. change (0 / 16) with 0 in *. rewrite Z.add_0_r in *.
    destruct (b64_char_value _ R1) as (-> & _). destruct (b64_char_value _ R2) as (-> & _).
    cbn [mbind option_bind]. rewrite !decide_True by done. by rewrite (byte_is _ a).
  - destruct (sextets a b Byte.x00) as ((R1 & R2 & R3 & _) & E1 & E2 & _). cbn [b64_encode b64_groups].
    change (Z_of_byte Byte.x00) with 0 in *. change (0 / 64) with 0 in *. rewrite Z.add_0_r in *.
    destruct (b64_char_value _ R1) as (-> & _). destruct (b64_char_value _ R2) as (-> & _).
    destruct (b64_char_value _ R3) as (-> & Hp & _).
    cbn [mbind option_bind]. rewrite decide_False, !decide_True by done.
    by rewrite (byte_is _ a E1), (byte_is _ b E2).
  - destruct (sextets a b c) as ((R1 & R2 & R3 & R4) & E1 & E2 & E3). cbn [b64_encode b64_groups].
    destruct (b64_char_value _ R1) as (-> & _). destruct (b64_char_value _ R2) as (-> & _).
    destruct (b64_char_value _ R3) as (-> & Hp & _). destruct (b64_char_value _ R4) as (-> & Hp' & _).
    cbn [mbind option_bind]. rewrite !decide_False by done. rewrite IH. cbn [mbind option_bind].
    by rewrite (byte_is _ a E1), (byte_is _ b E2), (byte_is _ c E3).
Qed.

Definition b64_plain (x : byte) : Prop := between 0 127 x = true /\ x <> Byte.x0a /\ x <> Byte.x0d.

Lemma b64_char_plain z : 0 <= z < 64 -> b64_plain (b64_char z).
Proof.
  intros Hz. destruct (b64_char_value z Hz) as (Hv & _ & Hn & Hr). split; [|done].
  unfold b64_value in Hv. unfold between. pose proof (Z_of_byte_range (b64_char z)).
  apply andb_true_intro. rewrite !Z.leb_le. repeat case_match; simplify_eq;
    rewrite ?andb_true_iff, ?Z.leb_le, ?Z.eqb_eq in *; lia.
Qed.

Lemma b64_encode_plain l : Forall b64_plain (b64_encode l).
Proof.
  assert (b64_plain pad) by done.
  induction l as [|a|a b|a b c l IH] using list_ind3; cbn [b64_encode]; [constructor|..].
  - destruct (sextets a Byte.x00 Byte.x00) as ((R1 & R2 & _) & _).
    change (Z_of_byte Byte.x00 / 16) with 0 in *. rewrite Z.add_0_r in *.
    repeat constructor; try done; by apply b64_char_plain.
  - destruct (sextets a b Byte.x00) as ((R1 & R2 & R3 & _) & _).
    change (Z_of_byte Byte.x00 / 64) with 0 in *. rewrite Z.add_0_r in *.
    repeat constructor; try done; by apply b64_char_plain.
  - destruct (sextets a b c) as ((R1 & R2 & R3 & R4) & _).
    repeat (constructor; [by apply b64_char_plain|]). done.
Qed.

Lemma b64_roundtrip l : b64_decode (b64_encode l) = Some l.
Proof.
  unfold b64_decode. rewrite <- (b64_groups_encode l). f_equal.
  induction (b64_encode_plain l) as [|x r [_ Hx] _ IH]; [done|]. by rewrite filter_cons_True, IH.
Qed.

Lemma coerce_b64 l : coerce (b64_encode l) = b64_encode l.
Proof. apply coerce_valid, valid_ascii. eapply Forall_impl; [|exact (b64_encode_plain l)]. by intros x [? _]. Qed.

(** ** Stored values come back *)

(** The bit pattern of a finite number. *)
Definition finite_bits (f : Z) : bool := (0 <=? f) && (f <? two64) && is_finite f.

Section Roundtrip.
Context (FormatFloat : Z -> bytes) (ParseFloat : bytes -> option Z).

(** The documented behaviour of the two float conversions on finite numbers. *)
Hypothesis format_float_number : forall f, finite_bits f = true -> num_ok (FormatFloat f).
Hypothesis parse_format_float : forall f, finite_bits f = true -> ParseFloat (FormatFloat f) = Some f.

(** What a stored value is read back as. *)
Definition stored (v : LValue) : LValue :=
  match v with
  | LString s => LString (string_of_bytes (coerce (lit s)))
  | LSymbol s => LSymbol (string_of_bytes (coerce (lit s)))
  | LMedia _ => LVoid
  | _ => parsed_top v
  end.

(** Values the database can hold: strings of any length, any media (it is lost),
    finite floats; otherwise what the wire can carry. *)
Definition storable (v : LValue) : bool :=
  match v with
  | LString _ | LSymbol _ | LMedia _ => true
  | LFloat f => finite_bits f
  | _ => encodable v
  end.

Lemma Unmarshal_stored type o :
  match o with Some j => json_ok j | None => True end ->
  Unmarshal (stored_text type o) (unmarshal_struct (mkStored [] None) set_stored) =
  Ret (inr (mkStored (coerce (lit type)) (norm <$> o))).
Proof.
  intros Hok. unfold Unmarshal, stored_text. rewrite parse_print by (destruct o; cbn; tauto).
  cbn [mbind outcome_bind norm]. destruct o as [j|]; reflexivity.
Qed.

Lemma binary_stored type v :
  type ∈ binary_types -> encodable v = true ->
  exists bs, marshal_binary type v = Ret (inr bs) /\
    UnmarshalLValue ParseFloat bs = Ret (inr (parsed_top v)).
Proof.
  intros Ht He. eexists. unfold marshal_binary. rewrite GetBytes_wire by done. split; [reflexivity|].
  unfold UnmarshalLValue. rewrite Unmarshal_stored by done. cbn [mbind outcome_bind sv_Type fmap option_fmap option_map norm].
  rewrite coerce_b64. rewrite list_elem_of_In in Ht. cbn [binary_types In] in Ht.
  pose proof (FromRawBytes_at v [] [] He) as Hr. rewrite app_nil_r in Hr. cbn [app] in Hr. change (zlen []) with 0 in Hr.
  assert (value_of (mkStored (coerce (lit type)) (Some (JStr (b64_encode (wire v))))) unmarshal_bytes = inr (wire v)) as Hv.
  { unfold value_of. cbn [sv_Value unmarshal_bytes]. by rewrite b64_roundtrip. }
  rewrite Hv, Hr. repeat destruct Ht as [<-|Ht]; [..|done]; reflexivity.
Qed.

Lemma stored_value v :
  storable v = true ->
  exists bs, MarshalLValue FormatFloat v = Ret (inr bs) /\ UnmarshalLValue ParseFloat bs = Ret (inr (stored v)).
Proof.
  intros Hs. destruct v; try (apply binary_stored; [by_decision|done]);
    cbn [MarshalLValue stored parsed_top parsed_elem].
  - eexists. split; [reflexivity|]. unfold UnmarshalLValue. by rewrite Unmarshal_stored.
  - eexists. split; [reflexivity|]. unfold UnmarshalLValue. rewrite Unmarshal_stored by apply num_ok_Itoa.
    cbn -[ParseInt]. cbn in Hs. apply andb_true_iff in Hs as [H1%Z.leb_le H2%Z.ltb_lt].
    rewrite ParseInt_Itoa by (unfold in_int64, max_int64; lia).
    rewrite (proj2 (Z.leb_le _ _)), (proj2 (Z.leb_le _ _)) by lia. done.
  - eexists. split; [reflexivity|]. unfold UnmarshalLValue. by rewrite Unmarshal_stored.
  - eexists. split; [reflexivity|]. unfold UnmarshalLValue. by rewrite Unmarshal_stored.
  - cbn [storable] in Hs. pose proof Hs as [_ Hf]%andb_true_iff. rewrite Hf.
    eexists. split; [reflexivity|]. unfold UnmarshalLValue. rewrite Unmarshal_stored by by apply format_float_number. cbn. by rewrite parse_format_float.
  - eexists. split; [reflexivity|]. reflexivity.
Qed.

(** C40. What the database gives back. Every storable value is written without
    error and read back as [stored v]: unchanged exactly when its text is valid
    UTF-8 (for strings and symbols), it is no media value, and no non-empty
    property list is nested in it. A Latin-1 string attribute therefore loses
    its accented letters, although the same string inside a list keeps them. *)
Theorem stored_roundtrip v :
  storable v = true ->
  (exists bs, MarshalLValue FormatFloat v = Ret (inr bs) /\
     UnmarshalLValue ParseFloat bs = Ret (inr (stored v))) /\
  (stored v = v <->
     match v with
     | LString s | LSymbol s => valid (lit s) = true
     | LMedia _ => False
     | _ => flat_props v = true
     end).
Proof.
  intros Hs. split; [by apply stored_value|]. destruct v; try apply parsed_top_fixed; cbn [stored]; [..|done];
    rewrite <- coerce_fixed; (split; [intros H'; injection H' as H'|intros ->]).
  all: try (by rewrite string_of_bytes_of_string).
  all: unfold lit in *; rewrite <- H' at 2; by rewrite bytes_of_string_of_bytes.
Qed.
End Roundtrip.

(** A stored text and the value it is read as; a row against an entry of an
    abstract store. *)
Definition reads (ParseFloat : bytes -> option Z) (txt : string) (v : LValue) : Prop :=
  UnmarshalLValue ParseFloat (lit txt) = Ret (inr v).

Definition row_holds (ParseFloat : bytes -> option Z) (row : option string) (entry : option LValue) : Prop :=
  match row, entry with
  | Some txt, Some v => reads ParseFloat txt v
  | None, None => True
  | _, _ => False
  end.

Lemma row_holds_is_Some ParseFloat row entry : row_holds ParseFloat row entry -> is_Some row <-> is_Some entry.
Proof. destruct row, entry; cbn; try done; intros _; split; intros [? [=]]; eauto. Qed.

(** A concrete pair of conversions (the bit pattern in decimal), and a string
    attribute in Latin-1. *)
Definition decimal_bits (f : Z) : bytes := lit (Itoa f).
Definition read_bits (t : bytes) : option Z := match parse_uint t with inr z => Some z | inl _ => None end.

Lemma read_decimal_bits f : finite_bits f = true -> read_bits (decimal_bits f) = Some f.
Proof.
  unfold finite_bits. rewrite !andb_true_iff, Z.leb_le, Z.ltb_lt. intros [[H0 H1] _].
  unfold read_bits, decimal_bits, lit. destruct (parse_uint_pretty (Z.to_N f)) as (b & l & Hb & _ & _ & Hp); [lia|].
  replace (bytes_of_string (Itoa f)) with (b :: l); [rewrite Hp; f_equal; lia|].
  rewrite <- Hb. f_equal. unfold Itoa. destruct f; [done|done|lia].
Qed.

Definition cafe : LValue := LString (string_of_bytes [Byte.x63; Byte.x61; Byte.x66; Byte.xe9]).

Lemma stored_roundtrip_witness :
  (exists bs, MarshalLValue decimal_bits cafe = Ret (inr bs) /\
     UnmarshalLValue read_bits bs = Ret (inr (stored cafe))) /\ stored cafe <> cafe.
Proof.
  destruct (stored_roundtrip decimal_bits read_bits (fun f _ => num_ok_Itoa f) read_decimal_bits cafe eq_refl)
    as [H1 H2].
  split; [exact H1|]. rewrite H2. vm_compute. discriminate.
Defined.
