(* ===== verification/SessionStore.v ===== *)
(** * The in-memory session store (outbound/memory_session_store.go)

    The four maps of the store and its methods; the invariant that ties the
    room table to the per-client index; and the abstract specification of the
    session store: who is connected, which attributes each client carries and
    which client is in which room. The methods refine it, whatever order Go
    iterates its maps in. *)

From Stdlib Require Import ZArith Lia.
From stdpp Require Import base list strings gmap option sets.
From S2P Require Import Prelude GoFmt LValue LExtract LParse LRoundtrip Smus Effects Ports.

Open Scope Z_scope.

(** ** Map iteration

    [for k := range m] visits the keys of [m] once each in an order the language
    leaves open. The order is a parameter with that one law. *)
Class MapOrder := {
  range : gset string -> list string;
  range_perm X : range X ≡ₚ elements X
}.

(** The lexicographic order of the library, for concrete runs. *)
#[export] Instance elements_order : MapOrder | 100 := {| range := elements; range_perm X := reflexivity _ |}.

Record MemorySessionStore := mkStore {
  connections : gmap string ConnectionInfo;
  attributes : gmap string (gmap string LValue);
  rooms : gmap string (gset string);
  clientRooms : gmap string (gset string)
}.

Definition NewMemorySessionStore : MemorySessionStore := mkStore ∅ ∅ ∅ ∅.

(** [delete(members, clientID)] and the removal of a room left empty, under
    [if members, ok := m.rooms[room]; ok]. *)
Definition drop_member (rs : gmap string (gset string)) (room clientID : string) :
    gmap string (gset string) :=
  match rs !! room with
  | Some members =>
      let members := members ∖ {[clientID]} in
      if decide (size members = 0%nat) then delete room rs else <[room := members]> rs
  | None => rs
  end.

Section Methods.
Context `{MapOrder}.

Definition ms_RegisterConnection (m : MemorySessionStore) (clientID ip : string) (now : Z) :
    MemorySessionStore :=
  mkStore (<[clientID := mkConnectionInfo clientID ip now now]> (connections m))
    (attributes m) (rooms m) (clientRooms m).

(** The loop over the client's rooms, shared by the two methods that run it. *)
Definition leave_rooms (m : MemorySessionStore) (clientID : string) : MemorySessionStore :=
  match clientRooms m !! clientID with
  | Some rs =>
      mkStore (connections m) (attributes m)
        (fold_left (fun t room => drop_member t room clientID) (range rs) (rooms m))
        (delete clientID (clientRooms m))
  | None => m
  end.

Definition ms_UnregisterConnection (m : MemorySessionStore) (clientID : string) :
    MemorySessionStore :=
  leave_rooms
    (mkStore (delete clientID (connections m)) (delete clientID (attributes m))
       (rooms m) (clientRooms m)) clientID.

Definition ms_GetConnection (m : MemorySessionStore) (clientID : string) : option ConnectionInfo :=
  connections m !! clientID.

(** The range over [m.connections], in key order [range]. *)
Definition ms_GetAllConnections (m : MemorySessionStore) : list ConnectionInfo :=
  omap (fun k => connections m !! k) (range (dom (connections m))).

Definition ms_UpdateLastActivity (m : MemorySessionStore) (clientID : string) (now : Z) :
    MemorySessionStore :=
  match connections m !! clientID with
  | Some c =>
      mkStore (<[clientID := mkConnectionInfo (ci_ClientID c) (ci_IP c) (ci_ConnectedAt c) now]>
                 (connections m)) (attributes m) (rooms m) (clientRooms m)
  | None => m
  end.

Definition ms_IsConnected (m : MemorySessionStore) (clientID : string) : bool :=
  bool_decide (is_Some (connections m !! clientID)).

Definition ms_SetUserAttribute (m : MemorySessionStore) (clientID attrName : string)
    (value : LValue) : MemorySessionStore :=
  mkStore (connections m)
    (<[clientID := <[attrName := value]> (default ∅ (attributes m !! clientID))]> (attributes m))
    (rooms m) (clientRooms m).

Definition ms_GetUserAttribute (m : MemorySessionStore) (clientID attrName : string) : LValue :=
  match attributes m !! clientID with
  | None => LVoid
  | Some attrs => match attrs !! attrName with None => LVoid | Some v => v end
  end.

Definition ms_GetUserAttributeNames (m : MemorySessionStore) (clientID : string) : list string :=
  match attributes m !! clientID with
  | None => []
  | Some attrs => range (dom attrs)
  end.

Definition ms_DeleteUserAttribute (m : MemorySessionStore) (clientID attrName : string) :
    MemorySessionStore :=
  match attributes m !! clientID with
  | Some attrs =>
      mkStore (connections m) (<[clientID := delete attrName attrs]> (attributes m))
        (rooms m) (clientRooms m)
  | None => m
  end.

Definition ms_JoinRoom (m : MemorySessionStore) (roomName clientID : string) : MemorySessionStore :=
  mkStore (connections m) (attributes m)
    (<[roomName := {[clientID]} ∪ default ∅ (rooms m !! roomName)]> (rooms m))
    (<[clientID := {[roomName]} ∪ default ∅ (clientRooms m !! clientID)]> (clientRooms m)).

Definition ms_LeaveRoom (m : MemorySessionStore) (roomName clientID : string) : MemorySessionStore :=
  mkStore (connections m) (attributes m)
    (drop_member (rooms m) roomName clientID)
    (match clientRooms m !! clientID with
     | Some rs => <[clientID := rs ∖ {[roomName]}]> (clientRooms m)
     | None => clientRooms m
     end).

Definition ms_GetRoomMembers (m : MemorySessionStore) (roomName : string) : list string :=
  match rooms m !! roomName with
  | None => []
  | Some members => range members
  end.

Definition ms_GetClientRooms (m : MemorySessionStore) (clientID : string) : list string :=
  match clientRooms m !! clientID with
  | None => []
  | Some rs => range rs
  end.

Definition ms_LeaveAllRooms (m : MemorySessionStore) (clientID : string) : MemorySessionStore :=
  leave_rooms m clientID.

(** The store behind the interface: no method returns an error. *)
Definition mem_step {X} (op : ss_op X) (m : MemorySessionStore) : X * MemorySessionStore :=
  match op in ss_op X return X * MemorySessionStore with
  | RegisterConnection c ip now => (tt, ms_RegisterConnection m c ip now)
  | UnregisterConnection c => (tt, ms_UnregisterConnection m c)
  | GetConnection c => (ms_GetConnection m c, m)
  | GetAllConnections => (ms_GetAllConnections m, m)
  | IsConnected c => (ms_IsConnected m c, m)
  | UpdateLastActivity c now => (tt, ms_UpdateLastActivity m c now)
  | SetUserAttribute c a v => (tt, ms_SetUserAttribute m c a v)
  | GetUserAttribute c a => (ms_GetUserAttribute m c a, m)
  | GetUserAttributeNames c => (ms_GetUserAttributeNames m c, m)
  | DeleteUserAttribute c a => (tt, ms_DeleteUserAttribute m c a)
  | JoinRoom r c => (tt, ms_JoinRoom m r c)
  | LeaveRoom r c => (tt, ms_LeaveRoom m r c)
  | GetRoomMembers r => (ms_GetRoomMembers m r, m)
  | GetClientRooms c => (ms_GetClientRooms m c, m)
  | LeaveAllRooms c => (tt, ms_LeaveAllRooms m c)
  end.
End Methods.

(** ** The abstract specification *)

(** What a session store keeps, independently of how it is indexed. *)
Record Sessions := mkSessions {
  s_conns : gmap string ConnectionInfo;
  s_attrs : gmap (string * string) LValue;
  s_members : gset (string * string)
}.

Definition NewSessions : Sessions := mkSessions ∅ ∅ ∅.

Definition without_client (c : string) (s : gset (string * string)) : gset (string * string) :=
  filter (fun rc => rc.2 <> c) s.

Definition spec_next {X} (op : ss_op X) (a : Sessions) : Sessions :=
  match op with
  | RegisterConnection c ip now =>
      mkSessions (<[c := mkConnectionInfo c ip now now]> (s_conns a)) (s_attrs a) (s_members a)
  | UnregisterConnection c =>
      mkSessions (delete c (s_conns a)) (filter (fun kv => kv.1.1 <> c) (s_attrs a))
        (without_client c (s_members a))
  | UpdateLastActivity c now =>
      mkSessions (alter (fun i => mkConnectionInfo (ci_ClientID i) (ci_IP i) (ci_ConnectedAt i) now)
                    c (s_conns a)) (s_attrs a) (s_members a)
  | SetUserAttribute c n v => mkSessions (s_conns a) (<[(c, n) := v]> (s_attrs a)) (s_members a)
  | DeleteUserAttribute c n => mkSessions (s_conns a) (delete (c, n) (s_attrs a)) (s_members a)
  | JoinRoom r c => mkSessions (s_conns a) (s_attrs a) ({[(r, c)]} ∪ s_members a)
  | LeaveRoom r c => mkSessions (s_conns a) (s_attrs a) (s_members a ∖ {[(r, c)]})
  | LeaveAllRooms c => mkSessions (s_conns a) (s_attrs a) (without_client c (s_members a))
  | GetConnection _ | GetAllConnections | IsConnected _ | GetUserAttribute _ _
  | GetUserAttributeNames _ | GetRoomMembers _ | GetClientRooms _ => a
  end.

(** A listing answers each element once, in any order. *)
Definition lists {A} (l : list A) (P : A -> Prop) : Prop := NoDup l /\ forall x, x ∈ l <-> P x.

Definition spec_reply {X} (op : ss_op X) (a : Sessions) : X -> Prop :=
  match op in ss_op X return X -> Prop with
  | RegisterConnection _ _ _ | UnregisterConnection _ | UpdateLastActivity _ _
  | SetUserAttribute _ _ _ | DeleteUserAttribute _ _ | JoinRoom _ _ | LeaveRoom _ _
  | LeaveAllRooms _ => fun _ => True
  | GetConnection c => fun x => x = s_conns a !! c
  | GetAllConnections => fun x => x ≡ₚ (map_to_list (s_conns a)).*2
  | IsConnected c => fun x => x = bool_decide (is_Some (s_conns a !! c))
  | GetUserAttribute c n => fun x => x = default LVoid (s_attrs a !! (c, n))
  | GetUserAttributeNames c => fun x => lists x (fun n => is_Some (s_attrs a !! (c, n)))
  | GetRoomMembers r => fun x => lists x (fun c => (r, c) ∈ s_members a)
  | GetClientRooms c => fun x => lists x (fun r => (r, c) ∈ s_members a)
  end.

(** ** The abstraction function and the representation invariant *)

Definition in_room (m : MemorySessionStore) (r c : string) : Prop :=
  exists s, rooms m !! r = Some s /\ c ∈ s.

Definition in_index (m : MemorySessionStore) (r c : string) : Prop :=
  exists s, clientRooms m !! c = Some s /\ r ∈ s.

(** The two room tables agree and no room is kept empty. *)
Definition store_inv (m : MemorySessionStore) : Prop :=
  (forall r c, in_room m r c <-> in_index m r c) /\
  (forall r s, rooms m !! r = Some s -> s <> ∅).

(** The entries of a two-level map, keyed by the pair. *)
Definition flatten {A} (m : gmap string (gmap string A)) : gmap (string * string) A :=
  map_uncurry (M1 := gmap string) (M2 := gmap string) (M12 := gmap (string * string)) m.

Lemma lookup_flatten {A} (m : gmap string (gmap string A)) i j :
  flatten m !! (i, j) = m !! i ≫= (.!! j).
Proof. apply lookup_map_uncurry. Qed.

Definition view (m : MemorySessionStore) : Sessions :=
  mkSessions (connections m) (flatten (attributes m))
    (dom (flatten ((fun s => gset_to_gmap tt s) <$> rooms m))).

Lemma view_member m r c : (r, c) ∈ s_members (view m) <-> in_room m r c.
Proof.
  unfold view, in_room. cbn [s_members]. rewrite elem_of_dom, lookup_flatten, lookup_fmap.
  destruct (rooms m !! r) as [s|]; simpl.
  - split.
    + intros [x Hx]. apply lookup_gset_to_gmap_Some in Hx as [Hc _]. by exists s.
    + intros (s' & [= <-] & Hc). exists tt. by apply lookup_gset_to_gmap_Some.
  - split; [by intros [x Hx]|naive_solver].
Qed.

Lemma view_attr m c n : s_attrs (view m) !! (c, n) = attributes m !! c ≫= (.!! n).
Proof. unfold view. cbn [s_attrs]. by rewrite lookup_flatten. Qed.

(** Two abstract states are equal when they answer alike. *)
Lemma sessions_eq a b :
  s_conns a = s_conns b ->
  (forall c n, s_attrs a !! (c, n) = s_attrs b !! (c, n)) ->
  (forall r c, (r, c) ∈ s_members a <-> (r, c) ∈ s_members b) -> a = b.
Proof.
  destruct a as [c1 a1 m1], b as [c2 a2 m2]. cbn. intros -> Ha Hm. f_equal.
  - apply map_eq. intros [c n]. apply Ha.
  - apply set_eq. intros [r c]. apply Hm.
Qed.

Lemma range_lists `{MapOrder} X : lists (range X) (fun x => x ∈ X).
Proof.
  split.
  - rewrite range_perm. apply NoDup_elements.
  - intros x. rewrite range_perm. apply elem_of_elements.
Qed.

Lemma lists_nil {A} (P : A -> Prop) : (forall x, ~ P x) -> lists [] P.
Proof. intros HP. split; [constructor|]. intros x. split; [by intros ?%not_elem_of_nil|by intros ?%HP]. Qed.

Lemma lists_iff {A} (l : list A) (P Q : A -> Prop) :
  (forall x, P x <-> Q x) -> lists l P -> lists l Q.
Proof. intros HPQ [Hd Hl]. split; [done|]. intros x. by rewrite Hl. Qed.

(** ** Leaving rooms *)

Lemma drop_member_in rs room c r d :
  (exists s, drop_member rs room c !! r = Some s /\ d ∈ s) <->
  (exists s, rs !! r = Some s /\ d ∈ s) /\ ~ (r = room /\ d = c).
Proof.
  unfold drop_member. destruct (rs !! room) as [ms|] eqn:E.
  2:{ split; [|naive_solver]. intros (s & Hs & Hd). split; [eauto|]. intros [-> ->]. congruence. }
  cbv zeta. case_decide as Hsz.
  - apply size_empty_inv in Hsz. destruct (decide (r = room)) as [->|Hr].
    + rewrite lookup_delete_eq. split; [naive_solver|]. intros [(s & Hs & Hd) Hn].
      simplify_eq. exfalso. set_solver.
    + rewrite lookup_delete_ne by done. naive_solver.
  - destruct (decide (r = room)) as [->|Hr].
    + rewrite lookup_insert_eq. split.
      * intros (s & [= <-] & Hd). split; [exists ms; set_solver|]. set_solver.
      * intros [(s & Hs & Hd) Hn]. simplify_eq. eexists. split; [done|]. set_solver.
    + rewrite lookup_insert_ne by done. naive_solver.
Qed.

Lemma drop_member_nonempty rs room c :
  (forall r s, rs !! r = Some s -> s <> ∅) ->
  forall r s, drop_member rs room c !! r = Some s -> s <> ∅.
Proof.
  intros Hne r s. unfold drop_member. destruct (rs !! room) as [ms|] eqn:E; [|apply Hne].
  cbv zeta. case_decide as Hsz.
  - rewrite lookup_delete_Some. intros [_ H]. by eapply Hne.
  - rewrite lookup_insert_Some. intros [[_ <-]|[_ H]]; [|by eapply Hne].
    intros Hs. apply Hsz. by rewrite Hs, size_empty.
Qed.

Lemma drop_members_in c l rs r d :
  (exists s, fold_left (fun t room => drop_member t room c) l rs !! r = Some s /\ d ∈ s) <->
  (exists s, rs !! r = Some s /\ d ∈ s) /\ ~ (r ∈ l /\ d = c).
Proof.
  revert rs. induction l as [|room l IH]; intros rs; simpl.
  - split; [|naive_solver]. intros Hs. split; [done|]. intros [?%not_elem_of_nil ?]. done.
  - rewrite IH, drop_member_in. rewrite elem_of_cons. naive_solver.
Qed.

Lemma drop_members_nonempty c l rs :
  (forall r s, rs !! r = Some s -> s <> ∅) ->
  forall r s, fold_left (fun t room => drop_member t room c) l rs !! r = Some s -> s <> ∅.
Proof.
  revert rs. induction l as [|room l IH]; intros rs Hne; simpl; [done|].
  apply IH, drop_member_nonempty, Hne.
Qed.

Lemma leave_rooms_in `{MapOrder} m c r d :
  store_inv m -> in_room (leave_rooms m c) r d <-> in_room m r d /\ d <> c.
Proof.
  intros [Hidx _]. unfold leave_rooms. destruct (clientRooms m !! c) as [rs|] eqn:E.
  - unfold in_room. cbn [rooms]. rewrite drop_members_in. destruct (range_lists rs) as [_ Hr].
    rewrite Hr. split; [|naive_solver].
    intros [Hin Hn]. split; [done|]. intros ->. apply Hn. split; [|done].
    apply Hidx in Hin as (s & Hs & Hin). by simplify_eq.
  - split; [|naive_solver]. intros Hin. split; [done|]. intros ->.
    apply Hidx in Hin as (s & Hs & _). congruence.
Qed.

Lemma leave_rooms_inv `{MapOrder} m c : store_inv m -> store_inv (leave_rooms m c).
Proof.
  intros Hinv. split.
  - intros r d. rewrite leave_rooms_in by done. destruct Hinv as [Hidx _]. rewrite Hidx.
    unfold leave_rooms, in_index. destruct (clientRooms m !! c) as [rs|] eqn:E.
    + cbn [clientRooms]. destruct (decide (d = c)) as [->|Hd].
      * rewrite lookup_delete_eq. naive_solver.
      * rewrite lookup_delete_ne by done. naive_solver.
    + split; [naive_solver|]. intros (s & Hs & Hr). split; [eauto|congruence].
  - destruct Hinv as [_ Hne]. unfold leave_rooms. destruct (clientRooms m !! c); [|done].
    by apply drop_members_nonempty.
Qed.

(** Steps that leave the room tables alone keep the invariant. *)
Lemma same_rooms_inv m m' :
  rooms m' = rooms m -> clientRooms m' = clientRooms m -> store_inv m -> store_inv m'.
Proof. intros Hr Hc. unfold store_inv, in_room, in_index. by rewrite Hr, Hc. Qed.

Lemma join_in m r c r' c' :
  in_room (ms_JoinRoom m r c) r' c' <-> in_room m r' c' \/ (r' = r /\ c' = c).
Proof.
  unfold in_room, ms_JoinRoom. cbn [rooms]. destruct (decide (r' = r)) as [->|Hr].
  - rewrite lookup_insert_eq. destruct (rooms m !! r) as [s|]; simpl; split.
    + intros (s' & [= <-] & [->%elem_of_singleton|Hc]%elem_of_union); [by right|]. left. eauto.
    + intros [(s' & [= <-] & Hc)|[_ ->]]; eexists; (split; [done|]); set_solver.
    + intros (s' & [= <-] & Hc). right. set_solver.
    + intros [(s' & [=] & Hc)|[_ ->]]. eexists. split; [done|]. set_solver.
  - rewrite lookup_insert_ne by done. naive_solver.
Qed.

Lemma join_idx m r c r' c' :
  in_index (ms_JoinRoom m r c) r' c' <-> in_index m r' c' \/ (r' = r /\ c' = c).
Proof.
  unfold in_index, ms_JoinRoom. cbn [clientRooms]. destruct (decide (c' = c)) as [->|Hc].
  - rewrite lookup_insert_eq. destruct (clientRooms m !! c) as [s|]; simpl; split.
    + intros (s' & [= <-] & [->%elem_of_singleton|Hr]%elem_of_union); [by right|]. left. eauto.
    + intros [(s' & [= <-] & Hr)|[-> _]]; eexists; (split; [done|]); set_solver.
    + intros (s' & [= <-] & Hr). right. set_solver.
    + intros [(s' & [=] & Hr)|[-> _]]. eexists. split; [done|]. set_solver.
  - rewrite lookup_insert_ne by done. naive_solver.
Qed.

Lemma leave_in m r c r' c' :
  in_room (ms_LeaveRoom m r c) r' c' <-> in_room m r' c' /\ ~ (r' = r /\ c' = c).
Proof. apply drop_member_in. Qed.

Lemma leave_idx m r c r' c' :
  in_index (ms_LeaveRoom m r c) r' c' <-> in_index m r' c' /\ ~ (r' = r /\ c' = c).
Proof.
  unfold in_index, ms_LeaveRoom. cbn [clientRooms].
  destruct (clientRooms m !! c) as [s|] eqn:E.
  - destruct (decide (c' = c)) as [->|Hc].
    + rewrite lookup_insert_eq. split.
      * intros (s' & [= <-] & Hr). split; [exists s; set_solver|set_solver].
      * intros [(s' & Hs & Hr) Hn]. simplify_eq. eexists. split; [done|]. set_solver.
    + rewrite lookup_insert_ne by done. naive_solver.
  - split; [|naive_solver]. intros (s' & Hs & Hr). split; [eauto|]. intros [-> ->]. congruence.
Qed.

Lemma ms_JoinRoom_inv m r c : store_inv m -> store_inv (ms_JoinRoom m r c).
Proof.
  intros [Hidx Hne]. split.
  - intros r' c'. by rewrite join_in, join_idx, Hidx.
  - intros r' s. cbn [ms_JoinRoom rooms]. rewrite lookup_insert_Some.
    intros [[_ <-]|[_ Hs]]; [set_solver|by eapply Hne].
Qed.

Lemma ms_LeaveRoom_inv m r c : store_inv m -> store_inv (ms_LeaveRoom m r c).
Proof.
  intros [Hidx Hne]. split.
  - intros r' c'. by rewrite leave_in, leave_idx, Hidx.
  - cbn [ms_LeaveRoom rooms]. by apply drop_member_nonempty.
Qed.

Lemma mem_step_inv `{MapOrder} {X} (op : ss_op X) m : store_inv m -> store_inv (mem_step op m).2.
Proof.
  intros Hinv. destruct op; cbn [mem_step snd]; try done;
    try (by apply (same_rooms_inv m)).
  - apply leave_rooms_inv. by apply (same_rooms_inv m).
  - unfold ms_UpdateLastActivity. case_match; [by apply (same_rooms_inv m)|done].
  - unfold ms_DeleteUserAttribute. case_match; [by apply (same_rooms_inv m)|done].
  - by apply ms_JoinRoom_inv.
  - by apply ms_LeaveRoom_inv.
  - by apply leave_rooms_inv.
Qed.

Lemma leave_rooms_view `{MapOrder} m c :
  store_inv m ->
  view (leave_rooms m c) =
  mkSessions (connections m) (flatten (attributes m)) (without_client c (s_members (view m))).
Proof.
  intros Hinv. apply sessions_eq.
  - unfold leave_rooms. by case_match.
  - intros d n. unfold leave_rooms. by case_match.
  - intros r d. rewrite view_member, leave_rooms_in by done.
    unfold without_client. cbn [s_members]. rewrite elem_of_filter, view_member. naive_solver.
Qed.

(** ** Refinement *)

Lemma unregister_view `{MapOrder} m c :
  store_inv m ->
  view (ms_UnregisterConnection m c) = spec_next (UnregisterConnection c) (view m).
Proof.
  intros Hinv. unfold ms_UnregisterConnection.
  rewrite leave_rooms_view by (by apply (same_rooms_inv m)).
  apply sessions_eq; [done| |done]. intros d n. cbn [s_attrs attributes spec_next].
  rewrite lookup_flatten. destruct (decide (d = c)) as [->|Hd].
  - rewrite lookup_delete_eq. symmetry. apply map_lookup_filter_None. right. naive_solver.
  - rewrite lookup_delete_ne by done. rewrite <- view_attr.
    destruct (s_attrs (view m) !! (d, n)) as [v|] eqn:E; symmetry.
    + by apply map_lookup_filter_Some.
    + apply map_lookup_filter_None. by left.
Qed.

Lemma activity_view m c now :
  view (ms_UpdateLastActivity m c now) = spec_next (UpdateLastActivity c now) (view m).
Proof.
  unfold ms_UpdateLastActivity. apply sessions_eq; [|by case_match|by case_match].
  cbn [s_conns view spec_next]. apply map_eq. intros d. destruct (decide (d = c)) as [->|Hd].
  - rewrite lookup_alter_eq. destruct (connections m !! c) as [i|] eqn:E; cbn [connections].
    + by rewrite lookup_insert_eq.
    + by rewrite E.
  - rewrite lookup_alter_ne by done. destruct (connections m !! c); cbn [connections]; [|done].
    by rewrite lookup_insert_ne.
Qed.

Lemma set_attribute_view m c a v :
  view (ms_SetUserAttribute m c a v) = spec_next (SetUserAttribute c a v) (view m).
Proof.
  apply sessions_eq; [done| |done]. intros d n. cbn [s_attrs spec_next].
  rewrite view_attr. cbn [attributes ms_SetUserAttribute].
  destruct (decide (d = c)) as [->|Hd].
  - rewrite lookup_insert_eq. simpl. destruct (decide (n = a)) as [->|Hn].
    + by rewrite !lookup_insert_eq.
    + rewrite !lookup_insert_ne by congruence. rewrite lookup_flatten.
      by destruct (attributes m !! c).
  - rewrite !lookup_insert_ne by congruence. by rewrite view_attr.
Qed.

Lemma delete_attribute_view m c a :
  view (ms_DeleteUserAttribute m c a) = spec_next (DeleteUserAttribute c a) (view m).
Proof.
  unfold ms_DeleteUserAttribute. apply sessions_eq; [by case_match| |by case_match].
  intros d n. rewrite view_attr. cbn [s_attrs spec_next].
  destruct (decide ((d, n) = (c, a))) as [[= -> ->]|Hne].
  - rewrite lookup_delete_eq. destruct (attributes m !! c) as [s|] eqn:E; cbn [attributes].
    + rewrite lookup_insert_eq. simpl. by rewrite lookup_delete_eq.
    + by rewrite E.
  - rewrite lookup_delete_ne by congruence. rewrite view_attr.
    destruct (attributes m !! c) as [s|] eqn:E; cbn [attributes]; [|done].
    destruct (decide (d = c)) as [->|Hd].
    + rewrite lookup_insert_eq, E. simpl. rewrite lookup_delete_ne; [done|congruence].
    + by rewrite lookup_insert_ne.
Qed.

Lemma mem_step_view `{MapOrder} {X} (op : ss_op X) m :
  store_inv m -> view (mem_step op m).2 = spec_next op (view m).
Proof.
  intros Hinv. destruct op; cbn [mem_step snd]; try done.
  - by apply unregister_view.
  - apply activity_view.
  - apply set_attribute_view.
  - apply delete_attribute_view.
  - apply sessions_eq; [done|done|]. intros r c. rewrite view_member, join_in.
    cbn [s_members spec_next]. rewrite elem_of_union, elem_of_singleton, view_member. naive_solver.
  - apply sessions_eq; [done|done|]. intros r c. rewrite view_member, leave_in.
    cbn [s_members spec_next]. rewrite elem_of_difference, elem_of_singleton, view_member. naive_solver.
  - unfold ms_LeaveAllRooms. by rewrite leave_rooms_view.
Qed.

Lemma elements_dom_perm (m : gmap string ConnectionInfo) :
  elements (dom m) ≡ₚ (map_to_list m).*1.
Proof.
  apply NoDup_Permutation; [apply NoDup_elements|apply NoDup_fst_map_to_list|].
  intros k. rewrite elem_of_elements, elem_of_dom, list_elem_of_fmap. split.
  - intros [i Hi]. exists (k, i). split; [done|]. by apply elem_of_map_to_list.
  - intros ([k' i] & -> & Hi). exists i. by apply elem_of_map_to_list.
Qed.

Lemma omap_keys (m : gmap string ConnectionInfo) l :
  (forall k i, (k, i) ∈ l -> m !! k = Some i) -> omap (fun k => m !! k) l.*1 = l.*2.
Proof.
  induction l as [|[k i] l IH]; intros Hl; [done|]. csimpl.
  rewrite (Hl k i) by apply list_elem_of_here. f_equal. apply IH. intros k' i' Hin.
  apply Hl. by apply list_elem_of_further.
Qed.

Lemma all_connections_perm `{MapOrder} m :
  ms_GetAllConnections m ≡ₚ (map_to_list (connections m)).*2.
Proof.
  unfold ms_GetAllConnections. rewrite range_perm, elements_dom_perm, omap_keys; [done|].
  intros k i. apply elem_of_map_to_list.
Qed.

Lemma mem_step_reply `{MapOrder} {X} (op : ss_op X) m :
  store_inv m -> spec_reply op (view m) (mem_step op m).1.
Proof.
  intros [Hidx _]. destruct op; cbn [mem_step fst spec_reply]; try done.
  - apply all_connections_perm.
  - rewrite view_attr. unfold ms_GetUserAttribute.
    destruct (attributes m !! clientID) as [s|]; simpl; [by destruct (s !! attrName)|done].
  - unfold ms_GetUserAttributeNames. destruct (attributes m !! clientID) as [s|] eqn:E.
    + eapply lists_iff; [|apply range_lists]. intros n. by rewrite elem_of_dom, view_attr, E.
    + apply lists_nil. intros n. rewrite view_attr, E. by intros [? ?].
  - unfold ms_GetRoomMembers. destruct (rooms m !! roomName) as [s|] eqn:E.
    + eapply lists_iff; [|apply range_lists]. intros c. rewrite view_member.
      unfold in_room. rewrite E. naive_solver.
    + apply lists_nil. intros c. rewrite view_member. unfold in_room. rewrite E. naive_solver.
  - unfold ms_GetClientRooms. destruct (clientRooms m !! clientID) as [s|] eqn:E.
    + eapply lists_iff; [|apply range_lists]. intros r. rewrite view_member, Hidx.
      unfold in_index. rewrite E. naive_solver.
    + apply lists_nil. intros r. rewrite view_member, Hidx. unfold in_index. rewrite E. naive_solver.
Qed.

(** ** Sequences of calls *)

(** A call with its result type hidden, so that histories are lists. *)
Inductive ss_call : Type :=
| SsCall {X : Type} (op : ss_op X).

Definition mem_call `{MapOrder} (m : MemorySessionStore) (c : ss_call) : MemorySessionStore :=
  match c with SsCall op => (mem_step op m).2 end.

Definition spec_call (a : Sessions) (c : ss_call) : Sessions :=
  match c with SsCall op => spec_next op a end.

Lemma NewMemorySessionStore_inv : store_inv NewMemorySessionStore.
Proof.
  unfold store_inv, in_room, in_index. cbn [NewMemorySessionStore rooms clientRooms].
  setoid_rewrite lookup_empty. naive_solver.
Qed.

Lemma mem_calls `{MapOrder} cs m :
  store_inv m ->
  store_inv (fold_left mem_call cs m) /\ view (fold_left mem_call cs m) = fold_left spec_call cs (view m).
Proof.
  revert m. induction cs as [|[X op] cs IH]; intros m Hm; [done|]. cbn [fold_left mem_call spec_call].
  rewrite <- (mem_step_view op m Hm). apply IH. by apply mem_step_inv.
Qed.

(** C26. The memory session store implements its abstract specification: after
    any sequence of calls on a new store, its contents (connections, attributes,
    room memberships) are those of the specification run on the same calls, and
    the answer to any further call is one the specification allows. Listings
    give every element exactly once, in an order that may vary. *)
Theorem session_store_refines `{MapOrder} cs {X} (op : ss_op X) :
  let m := fold_left mem_call cs NewMemorySessionStore in
  let a := fold_left spec_call cs NewSessions in
  view m = a /\ spec_reply op a (mem_step op m).1 /\ view (mem_step op m).2 = spec_next op a.
Proof.
  cbv zeta. destruct (mem_calls cs NewMemorySessionStore NewMemorySessionStore_inv) as [Hinv Hv].
  change (view NewMemorySessionStore) with NewSessions in Hv. rewrite <- Hv.
  split; [done|]. split; [by apply mem_step_reply|by apply mem_step_view].
Qed.

(** In every state the store can reach, the room table and the per-client
    index list the same memberships, and a room that is present has a member:
    rooms left empty are gone. *)
Theorem session_store_invariant `{MapOrder} cs r c :
  let m := fold_left mem_call cs NewMemorySessionStore in
  (c ∈ default ∅ (rooms m !! r) <-> r ∈ default ∅ (clientRooms m !! c)) /\
  rooms m !! r <> Some ∅.
Proof.
  cbv zeta. destruct (mem_calls cs NewMemorySessionStore NewMemorySessionStore_inv) as [[Hidx Hne] _].
  set (m := fold_left mem_call cs NewMemorySessionStore) in *. split.
  - specialize (Hidx r c). unfold in_room, in_index in Hidx.
    destruct (rooms m !! r), (clientRooms m !! c); simpl; set_solver.
  - intros Hr. by apply (Hne _ _ Hr).
Qed.

(** Disconnecting a client removes every trace of it: it is not connected,
    has no attribute, is a member of no room and is listed in no room, while the
    sessions of the other clients are what they were. *)
Theorem unregister_clears `{MapOrder} cs c :
  let m := fold_left mem_call cs NewMemorySessionStore in
  let m' := ms_UnregisterConnection m c in
  ms_IsConnected m' c = false /\
  (forall n, ms_GetUserAttribute m' c n = LVoid) /\
  ms_GetClientRooms m' c = [] /\
  (forall r, c ∉ ms_GetRoomMembers m' r) /\
  (forall d, d <> c -> ms_GetConnection m' d = ms_GetConnection m d /\
     (forall n, ms_GetUserAttribute m' d n = ms_GetUserAttribute m d n) /\
     (forall r, d ∈ ms_GetRoomMembers m' r <-> d ∈ ms_GetRoomMembers m r)).
Proof.
  cbv zeta. destruct (mem_calls cs NewMemorySessionStore NewMemorySessionStore_inv) as [Hinv _].
  set (m := fold_left mem_call cs NewMemorySessionStore) in *.
  pose proof (mem_step_inv (UnregisterConnection c) m Hinv) as Hinv'. cbn [mem_step snd] in Hinv'.
  pose proof (unregister_view m c Hinv) as Hv.
  set (m' := ms_UnregisterConnection m c) in *.
  assert (forall d n, ms_GetUserAttribute m' d n =
    if decide (d = c) then LVoid else ms_GetUserAttribute m d n) as Hattr.
  { intros d n. pose proof (mem_step_reply (GetUserAttribute d n) m' Hinv') as Hr.
    pose proof (mem_step_reply (GetUserAttribute d n) m Hinv) as Hr0.
    cbn [mem_step fst spec_reply] in Hr, Hr0. rewrite Hr, Hr0, Hv. cbn [spec_next s_attrs].
    case_decide as Hd.
    - rewrite (proj2 (map_lookup_filter_None _ _ _)); [done|]. right. naive_solver.
    - f_equal. destruct (s_attrs (view m) !! (d, n)) eqn:E.
      + by apply map_lookup_filter_Some.
      + apply map_lookup_filter_None. by left. }
  assert (forall r d, d ∈ ms_GetRoomMembers m' r <-> d ∈ ms_GetRoomMembers m r /\ d <> c) as Hmem.
  { intros r d. destruct (mem_step_reply (GetRoomMembers r) m' Hinv') as [_ ->].
    destruct (mem_step_reply (GetRoomMembers r) m Hinv) as [_ ->]. rewrite Hv.
    cbn [spec_next s_members]. unfold without_client. rewrite elem_of_filter. naive_solver. }
  repeat split.
  - apply bool_decide_eq_false_2. change (connections m') with (s_conns (view m')). rewrite Hv.
    cbn [spec_next s_conns]. rewrite lookup_delete_eq. by intros [? ?].
  - intros n. rewrite Hattr. by case_decide.
  - destruct (ms_GetClientRooms m' c) as [|r l] eqn:E; [done|]. exfalso.
    destruct (mem_step_reply (GetClientRooms c) m' Hinv') as [_ Hr].
    cbn [mem_step fst] in Hr. rewrite E, Hv in Hr.
    assert ((r, c) ∈ without_client c (s_members (view m))) as Hin
      by (apply Hr, list_elem_of_here).
    unfold without_client in Hin. rewrite elem_of_filter in Hin. naive_solver.
  - intros r. rewrite Hmem. naive_solver.
  - unfold ms_GetConnection. change (connections m') with (s_conns (view m')). rewrite Hv.
    cbn [spec_next s_conns]. by rewrite lookup_delete_ne.
  - intros n. rewrite Hattr. by case_decide.
  - apply Hmem.
  - intros Hin. by apply Hmem.
Qed.
