(* ===== verification/Rfc3339.v ===== *)
(** * Times as RFC 3339 text (package time of the standard library)

    [Time.UTC().Format(time.RFC3339)] and [time.Parse(time.RFC3339, _)], which
    the Redis session store uses to keep instants in hash fields. An instant is
    a number of nanoseconds since the epoch. The calendar is the proleptic
    Gregorian one, counted from March 1 of year 0 in eras of 400 years.

    [Parse] is the strict RFC 3339 path of the library; what that path refuses is
    an error here. The layout has whole seconds: reading back what was written
    gives the instant of the second, for the years 0 to 9999. *)

From Stdlib Require Import ZArith Lia.
From Stdlib Require Import Strings.Byte.
From stdpp Require Import base list strings option.
From S2P Require Import Prelude GoFmt.

Open Scope Z_scope.

(** ** The calendar *)

Definition days_per_era : Z := 146097.

(** Days from March 1 of year 0 to January 1, 1970. *)
Definition epoch_day : Z := 719468.

Definition is_leap (y : Z) : bool := (y mod 4 =? 0) && (negb (y mod 100 =? 0) || (y mod 400 =? 0)).

Definition days_in (month year : Z) : Z :=
  if month =? 2 then (if is_leap year then 29 else 28)
  else if (month =? 4) || (month =? 6) || (month =? 9) || (month =? 11) then 30
  else 31.

(** Year, month and day within an era: the year starts in March. *)
Definition era_date (doe : Z) : Z * Z * Z :=
  let yoe := (doe - doe / 1460 + doe / 36524 - doe / 146096) / 365 in
  let doy := doe - (365 * yoe + yoe / 4 - yoe / 100) in
  let mp := (5 * doy + 2) / 153 in
  (yoe, mp, doy - (153 * mp + 2) / 5 + 1).

Definition era_day (yoe mp d : Z) : Z :=
  365 * yoe + yoe / 4 - yoe / 100 + (153 * mp + 2) / 5 + d - 1.

Definition date_of_day (z : Z) : Z * Z * Z :=
  let '(yoe, mp, d) := era_date (z mod days_per_era) in
  let m := if mp <? 10 then mp + 3 else mp - 9 in
  (yoe + 400 * (z / days_per_era) + (if m <=? 2 then 1 else 0), m, d).

Definition day_of_date (y m d : Z) : Z :=
  let y := if m <=? 2 then y - 1 else y in
  era_day (y mod 400) (if 2 <? m then m - 3 else m + 9) d + days_per_era * (y / 400).

(** ** Formatting *)

Definition digit (z : Z) : byte := byte_of_Z (48 + z).

Definition pad2 (z : Z) : bytes := [digit (z / 10); digit (z mod 10)].

(** [appendInt(b, year, 4)]: at least four digits, a sign in front. *)
Definition pad4 (z : Z) : bytes :=
  (if z <? 0 then [Byte.x2d] else []) ++
  let a := Z.abs z in
  if a <? 10000 then [digit (a / 1000); digit (a / 100 mod 10); digit (a / 10 mod 10); digit (a mod 10)]
  else bytes_of_string (Itoa a).

(** The zero [time.Time], in nanoseconds from the epoch. *)
Definition zero_time : Z := -62135596800000000000.

Definition second_ns : Z := 1000000000.
Definition seconds_per_day : Z := 86400.

Definition Format (t : Z) : bytes :=
  let s := t / second_ns in
  let '(y, m, d) := date_of_day (s / seconds_per_day + epoch_day) in
  let sod := s mod seconds_per_day in
  pad4 y ++ [Byte.x2d] ++ pad2 m ++ [Byte.x2d] ++ pad2 d ++ [Byte.x54] ++
  pad2 (sod / 3600) ++ [Byte.x3a] ++ pad2 (sod / 60 mod 60) ++ [Byte.x3a] ++ pad2 (sod mod 60) ++ [Byte.x5a].

(** ** Parsing *)

(** [parseUint(s, min, max)]: digits only, within bounds. *)
Fixpoint digits (acc : Z) (l : bytes) : option Z :=
  match l with
  | [] => Some acc
  | b :: l => match digit_value b with Some v => digits (acc * 10 + v) l | None => None end
  end.

Definition bounded (lo hi : Z) (l : bytes) : option Z :=
  v ← digits 0 l; if (lo <=? v) && (v <=? hi) then Some v else None.

Fixpoint take_digits (l : bytes) : bytes * bytes :=
  match l with
  | b :: r => match digit_value b with Some _ => let p := take_digits r in (b :: p.1, p.2) | None => ([], l) end
  | [] => ([], [])
  end.

(** Nanoseconds of a fraction: at most nine digits count. *)
Definition fraction (l : bytes) : Z :=
  let ds := take 9 l in default 0 (digits 0 ds) * 10 ^ (9 - zlen ds).

(** The zone after the seconds: [Z], or an offset in hours and minutes. *)
Definition zone (l : bytes) : option Z :=
  match l with
  | [Byte.x5a] => Some 0
  | [s; h1; h2; c; m1; m2] =>
      hr ← bounded 0 23 [h1; h2]; mm ← bounded 0 59 [m1; m2];
      if Byte.eqb c Byte.x3a then
        if Byte.eqb s Byte.x2b then Some (hr * 3600 + mm * 60)
        else if Byte.eqb s Byte.x2d then Some (- (hr * 3600 + mm * 60)) else None
      else None
  | _ => None
  end.

Definition Parse (l : bytes) : option Z :=
  match l with
  | y1 :: y2 :: y3 :: y4 :: s1 :: mo1 :: mo2 :: s2 :: d1 :: d2 :: s3 :: h1 :: h2 :: s4 :: mi1 :: mi2 :: s5 :: se1 :: se2 :: rest =>
      y ← bounded 0 9999 [y1; y2; y3; y4];
      m ← bounded 1 12 [mo1; mo2];
      d ← bounded 1 (days_in m y) [d1; d2];
      hh ← bounded 0 23 [h1; h2];
      mi ← bounded 0 59 [mi1; mi2];
      ss ← bounded 0 59 [se1; se2];
      if Byte.eqb s1 Byte.x2d && Byte.eqb s2 Byte.x2d && Byte.eqb s3 Byte.x54 && Byte.eqb s4 Byte.x3a && Byte.eqb s5 Byte.x3a then
        let fr := match rest with
                  | Byte.x2e :: r => let p := take_digits r in if zlen p.1 =? 0 then (0, rest) else (fraction p.1, p.2)
                  | _ => (0, rest)
                  end in
        offset ← zone fr.2;
        Some (((day_of_date y m d - epoch_day) * seconds_per_day + hh * 3600 + mi * 60 + ss - offset) * second_ns + fr.1)
      else None
  | _ => None
  end.

(** ** Round trip *)

(** What is to be checked of a day of an era. *)
Definition era_ok (doe : Z) : Prop :=
  let '(yoe, mp, d) := era_date doe in
  let m := if mp <? 10 then mp + 3 else mp - 9 in
  let y := yoe + (if m <=? 2 then 1 else 0) in
  era_day yoe mp d = doe /\ 0 <= yoe < 400 /\ 0 <= mp < 12 /\ 1 <= d <= days_in m y.

Definition all_below (f : Z -> bool) (n : Z) : bool :=
  snd (N.iter (Z.to_N n) (fun p => (p.1 + 1, p.2 && f p.1)) (0, true)).

Lemma all_below_spec f n : all_below f n = true -> forall i, 0 <= i < n -> f i = true.
Proof.
  unfold all_below. intros H i Hi.
  assert (forall k, let p := N.iter k (fun p : Z * bool => (p.1 + 1, p.2 && f p.1)) (0, true) in
    p.1 = Z.of_N k /\ (p.2 = true -> forall i, 0 <= i < Z.of_N k -> f i = true)) as Hk.
  { intros k. induction k as [|k IH] using N.peano_ind; [split; [done|]; intros; lia|].
    rewrite N.iter_succ. cbv zeta in *. destruct IH as [IH1 IH2]. cbn [fst snd]. split; [lia|].
    intros [H1 H2]%andb_true_iff j Hj. destruct (decide (j = Z.of_N k)) as [->|]; [by rewrite IH1 in H2|].
    apply IH2; [done|lia]. }
  destruct (Hk (Z.to_N n)) as [_ H2]. apply H2; [done|lia].
Qed.

(** The year of a day: the years of an era by their first and last days, days in
    between because the year does not decrease. *)
Definition era_year (doe : Z) : Z := (doe - doe / 1460 + doe / 36524 - doe / 146096) / 365.
Definition year_start (y : Z) : Z := 365 * y + y / 4 - y / 100.

Definition year_length (y : Z) : Z := if is_leap (y + 1) then 366 else 365.

Lemma era_year_mono a b : 0 <= a <= b -> b < 146096 -> era_year a <= era_year b.
Proof.
  intros Ha Hb. unfold era_year. rewrite !(Z.div_small _ 146096) by lia. apply Z.div_le_mono; [lia|].
  Z.to_euclidean_division_equations. lia.
Qed.

Definition year_ok (y : Z) : bool :=
  (era_year (year_start y) =? y) && (era_year (year_start y + year_length y - 1) =? y) &&
  ((year_start (y + 1) =? year_start y + year_length y) || (y =? 399)).

Lemma year_checked y : 0 <= y < 400 -> year_ok y = true.
Proof. apply all_below_spec. vm_compute. reflexivity. Qed.

(** Every day lies in the year computed for it. *)
Lemma era_year_spec doe :
  0 <= doe < days_per_era ->
  0 <= era_year doe < 400 /\ 0 <= doe - year_start (era_year doe) < year_length (era_year doe).
Proof.
  intros Hd. unfold days_per_era in Hd.
  assert (exists y, 0 <= y < 400 /\ year_start y <= doe < year_start y + year_length y) as (y & Hy & Hin).
  { assert (forall n : nat, Z.of_nat n <= 399 -> doe < year_start (Z.of_nat n) + year_length (Z.of_nat n) ->
      exists y, 0 <= y < 400 /\ year_start y <= doe < year_start y + year_length y) as Hn.
    { induction n as [|n IH]; intros Hn Hlt.
      - exists 0. split; [lia|]. split; [|done]. change (year_start 0) with 0. lia.
      - destruct (decide (year_start (Z.of_nat (S n)) <= doe)); [exists (Z.of_nat (S n)); lia|].
        apply IH; [lia|]. pose proof (year_checked (Z.of_nat n) ltac:(lia)) as Hc. unfold year_ok in Hc.
        apply andb_true_iff in Hc as [_ [Hc|Hc]%orb_true_iff]; apply Z.eqb_eq in Hc; [|lia].
        replace (Z.of_nat (S n)) with (Z.of_nat n + 1) in * by lia. lia. }
    apply (Hn 399%nat); [done|]. change (doe < 146097). lia. }
  pose proof (year_checked y Hy) as Hc. unfold year_ok in Hc.
  apply andb_true_iff in Hc as [[Hc1 Hc2]%andb_true_iff _]. apply Z.eqb_eq in Hc1, Hc2.
  assert (era_year doe = y) as ->; [|lia].
  assert (0 <= year_start y) by (unfold year_start; Z.to_euclidean_division_equations; lia).
  destruct (decide (y = 399)) as [->|].
  - destruct (decide (doe = 146096)) as [->|]; [done|]. apply Z.le_antisymm.
    + change 399 with (era_year 146095). apply era_year_mono; lia.
    + rewrite <- Hc1 at 1. apply era_year_mono; lia.
  - assert (Hl := all_below_spec (fun y => year_start y + year_length y <? 146000) 399 ltac:(vm_compute; reflexivity) y ltac:(lia)).
    apply Z.ltb_lt in Hl. apply Z.le_antisymm.
    + rewrite <- Hc2. apply era_year_mono; lia.
    + rewrite <- Hc1 at 1. apply era_year_mono; lia.
Qed.

(** Month and day within the year. *)
Definition month_ok (doy : Z) : bool :=
  let mp := (5 * doy + 2) / 153 in
  let d := doy - (153 * mp + 2) / 5 + 1 in
  let m := if mp <? 10 then mp + 3 else mp - 9 in
  (0 <=? mp) && (mp <? 12) && (1 <=? d) && (d <=? (if doy =? 365 then 29 else days_in m 1)).

Lemma month_checked doy : 0 <= doy < 366 -> month_ok doy = true.
Proof. apply all_below_spec. vm_compute. reflexivity. Qed.

Lemma era_checked doe : 0 <= doe < days_per_era -> era_ok doe.
Proof.
  intros Hd. destruct (era_year_spec doe Hd) as [Hy Hdoy]. unfold era_ok, era_date.
  fold (era_year doe). set (y := era_year doe) in *. cbv zeta.
  replace (365 * y + y / 4 - y / 100) with (year_start y) by done. set (doy := doe - year_start y) in *.
  assert (doy < 366) by (unfold year_length in Hdoy; destruct (is_leap _); lia).
  pose proof (month_checked doy ltac:(lia)) as Hc. unfold month_ok in Hc. cbv zeta in Hc.
  set (mp := (5 * doy + 2) / 153) in *. set (d := doy - (153 * mp + 2) / 5 + 1) in *.
  apply andb_true_iff in Hc as [[[H1 H2]%andb_true_iff H3]%andb_true_iff H4].
  apply Z.leb_le in H1, H3, H4. apply Z.ltb_lt in H2. split_and!; try lia.
  - unfold era_day. fold (year_start y). unfold d. unfold doy. lia.
  - etransitivity; [exact H4|]. destruct (Z.eqb_spec doy 365) as [E|].
    + unfold year_length in Hdoy. destruct (is_leap (y + 1)) eqn:El; [|lia].
      replace mp with 11 by (unfold mp; by rewrite E).
      change (29 <= days_in 2 (y + 1)). unfold days_in. by rewrite El.
    + unfold days_in. destruct (_ =? 2); [|done]. change (is_leap 1) with false. destruct (is_leap _); lia.
Qed.

Lemma is_leap_era y e : is_leap (y + 400 * e) = is_leap y.
Proof.
  unfold is_leap.
  replace ((y + 400 * e) mod 4) with (y mod 4) by (rewrite <- (Z_mod_plus_full y (100 * e) 4); f_equal; lia).
  replace ((y + 400 * e) mod 100) with (y mod 100) by (rewrite <- (Z_mod_plus_full y (4 * e) 100); f_equal; lia).
  by replace ((y + 400 * e) mod 400) with (y mod 400) by (rewrite <- (Z_mod_plus_full y e 400); f_equal; lia).
Qed.

Lemma date_of_day_ok z :
  let '(y, m, d) := date_of_day z in
  day_of_date y m d = z /\ 1 <= m <= 12 /\ 1 <= d <= days_in m y.
Proof.
  unfold date_of_day. pose proof (era_checked _ (Z.mod_pos_bound z days_per_era eq_refl)) as Hc.
  unfold era_ok in Hc. destruct (era_date (z mod days_per_era)) as [[yoe mp] d]. destruct Hc as (Hc & ? & ? & ? & ?).
  set (m := if mp <? 10 then mp + 3 else mp - 9) in *. cbv zeta.
  assert (Hm : 1 <= m <= 12 /\ (if 2 <? m then m - 3 else m + 9) = mp).
  { unfold m. destruct (Z.ltb_spec mp 10); [destruct (Z.ltb_spec 2 (mp + 3))|destruct (Z.ltb_spec 2 (mp - 9))]; lia. }
  destruct Hm as [Hm Hmp]. split_and!; try lia.
  - unfold day_of_date. rewrite Hmp.
    replace (if m <=? 2 then yoe + 400 * (z / days_per_era) + (if m <=? 2 then 1 else 0) - 1
             else yoe + 400 * (z / days_per_era) + (if m <=? 2 then 1 else 0))
      with (yoe + (z / days_per_era) * 400) by (destruct (m <=? 2); lia).
    rewrite Z_mod_plus_full, Z.mod_small, Z.div_add, Z.div_small by lia. rewrite Hc.
    pose proof (Z.div_mod z days_per_era). unfold days_per_era in *. lia.
  - match goal with H : d <= _ |- _ => etransitivity; [exact H|] end. unfold days_in.
    replace (is_leap (yoe + _ + _)) with (is_leap (yoe + (if m <=? 2 then 1 else 0))); [done|].
    rewrite <- (is_leap_era (yoe + _) (z / days_per_era)). f_equal. lia.
Qed.

Definition is_number (o : option Z) (z : Z) : bool := match o with Some v => v =? z | None => false end.

Lemma is_number_eq o z : is_number o z = true -> o = Some z.
Proof. destruct o as [v|]; cbn; [by intros ->%Z.eqb_eq|done]. Qed.

Lemma pad2_read lo hi z : 0 <= z < 100 -> lo <= z <= hi -> bounded lo hi (pad2 z) = Some z.
Proof.
  intros Hz Hb.
  assert (digits 0 (pad2 z) = Some z) as Hd.
  { assert (H := all_below_spec (fun z => is_number (digits 0 (pad2 z)) z) 100 ltac:(vm_compute; reflexivity) z Hz).
    by apply is_number_eq. }
  unfold bounded. rewrite Hd. cbn.
  by rewrite (proj2 (Z.leb_le lo z)), (proj2 (Z.leb_le z hi)) by lia.
Qed.

Lemma pad4_read z : 0 <= z <= 9999 ->
  exists a b c d, pad4 z = [a; b; c; d] /\ bounded 0 9999 [a; b; c; d] = Some z.
Proof.
  intros Hz. unfold pad4. rewrite (proj2 (Z.ltb_ge z 0)), Z.abs_eq, (proj2 (Z.ltb_lt z 10000)) by lia.
  do 4 eexists. split; [reflexivity|].
  assert (H := all_below_spec (fun z => is_number (bounded 0 9999 [digit (z / 1000); digit (z / 100 mod 10); digit (z / 10 mod 10); digit (z mod 10)]) z) 10000 ltac:(vm_compute; reflexivity) z ltac:(lia)).
  by apply is_number_eq.
Qed.

(** The years the layout can hold. *)
Definition year_of (t : Z) : Z := (date_of_day (t / second_ns / seconds_per_day + epoch_day)).1.1.
Definition representable (t : Z) : Prop := 0 <= year_of t <= 9999.

(** The instant of the second. *)
Definition whole_second (t : Z) : Z := t / second_ns * second_ns.

Lemma parse_format t : representable t -> Parse (Format t) = Some (whole_second t).
Proof.
  unfold representable, year_of, Format, whole_second. set (s := t / second_ns).
  pose proof (date_of_day_ok (s / seconds_per_day + epoch_day)) as Hd.
  destruct (date_of_day _) as [[y m] d]. cbn [fst]. intros Hy. destruct Hd as (Hz & Hm & Hd).
  destruct (pad4_read y Hy) as (a & b & c & e & -> & Hr). unfold pad2. cbn [app Parse].
  fold (pad2 m) (pad2 d). fold (pad2 (s mod seconds_per_day / 3600)) (pad2 (s mod seconds_per_day / 60 mod 60))
    (pad2 (s mod seconds_per_day mod 60)).
  pose proof (Z.mod_pos_bound s seconds_per_day eq_refl) as Hs. set (sod := s mod seconds_per_day) in *.
  assert (0 <= sod / 3600 <= 23) by (unfold seconds_per_day in Hs; split; [apply Z.div_pos; lia|apply Z.lt_succ_r, Z.div_lt_upper_bound; lia]).
  pose proof (Z.mod_pos_bound (sod / 60) 60 eq_refl). pose proof (Z.mod_pos_bound sod 60 eq_refl).
  assert (days_in m y <= 31) by (unfold days_in; repeat case_match; lia).
  rewrite Hr. cbn [mbind option_bind]. rewrite !pad2_read by lia. cbn [mbind option_bind]. rewrite !pad2_read by lia.
  cbn. f_equal. rewrite Hz.
  assert (sod = sod / 3600 * 3600 + sod / 60 mod 60 * 60 + sod mod 60) as E.
  { pose proof (Z.div_mod sod 60). pose proof (Z.div_mod (sod / 60) 60).
    replace (sod / 3600) with (sod / 60 / 60) by (by rewrite Z.div_div by lia). lia. }
  pose proof (Z.div_mod s seconds_per_day). unfold sod in *. unfold seconds_per_day in *. lia.
Qed.

Lemma parse_empty : Parse [] = None.
Proof. done. Qed.

Lemma whole_second_idem t : whole_second (whole_second t) = whole_second t.
Proof. unfold whole_second, second_ns. by rewrite Z.div_mul. Qed.

Lemma Format_whole t : Format (whole_second t) = Format t.
Proof. unfold Format, whole_second, second_ns. by rewrite Z.div_mul. Qed.

Lemma representable_whole t : representable (whole_second t) <-> representable t.
Proof. unfold representable, year_of, whole_second, second_ns. by rewrite Z.div_mul. Qed.
