(* ===== verification/Redis.v ===== *)
(** * A Redis server, as its documentation describes it

    The commands the Redis adapters send, and what the documentation says of them
    on a keyspace of hashes and sets: a command on a key of the other type fails
    and changes nothing, a collection that becomes empty is removed, a key with a
    time to live may vanish at any moment and takes its time to live along when it
    is deleted, while writing a field keeps it. The server is a class: any state
    that behaves this way on the calls of the client library. A pipeline is a
    sequence of commands with one reply each; its error is the first one.

    [lapsed] counts the keys whose time was up, so that a theorem can speak of the
    runs in which none was. *)

From Stdlib Require Import ZArith Lia.
From stdpp Require Import base list strings gmap option sets.
From S2P Require Import Prelude GoFmt LValue LExtract LParse LRoundtrip Smus Effects Ports SessionStore.

Open Scope Z_scope.

(** ** Commands *)

Inductive redis_cmd : Type -> Type :=
| HSet (key : string) (fields : list (string * string)) : redis_cmd unit
| HGet (key field : string) : redis_cmd (option string)
| HGetAll (key : string) : redis_cmd (gmap string string)
| HKeys (key : string) : redis_cmd (list string)
| HDel (key field : string) : redis_cmd unit
| SAdd (key member : string) : redis_cmd unit
| SRem (key member : string) : redis_cmd unit
| SMembers (key : string) : redis_cmd (list string)
| SIsMember (key member : string) : redis_cmd bool
| Del (key : string) : redis_cmd unit
| Expire (key : string) (ttl : Z) : redis_cmd unit.

(** The calls of the client library: one command, or a pipeline of commands with
    the same type of reply. [redis.Nil] is the [None] of [HGet]. *)
Inductive redis_port : Type -> Type :=
| Do {X} (c : redis_cmd X) : redis_port (error + X)
| Pipe {X} (cs : list (redis_cmd X)) : redis_port (option error * list (error + X)).

Abbreviation RedisM := (prog redis_port).

(** ** The keyspace *)

Inductive rvalue :=
| RHash (m : gmap string string)
| RSet (s : gset string).

Abbreviation Keyspace := (gmap string rvalue).

(** The hash or set of a key: empty when the key is absent, [None] when the key
    holds a value of the other type. *)
Definition hash_at (ks : Keyspace) (k : string) : option (gmap string string) :=
  match ks !! k with None => Some ∅ | Some (RHash m) => Some m | Some _ => None end.
Definition set_at (ks : Keyspace) (k : string) : option (gset string) :=
  match ks !! k with None => Some ∅ | Some (RSet s) => Some s | Some _ => None end.

Definition put_hash (ks : Keyspace) (k : string) (m : gmap string string) : Keyspace :=
  if decide (m = ∅) then delete k ks else <[k := RHash m]> ks.
Definition put_set (ks : Keyspace) (k : string) (s : gset string) : Keyspace :=
  if decide (s = ∅) then delete k ks else <[k := RSet s]> ks.

Definition on_hash (ks : Keyspace) (k : string) (f : gmap string string -> gmap string string) : Keyspace :=
  match hash_at ks k with Some m => put_hash ks k (f m) | None => ks end.
Definition on_set (ks : Keyspace) (k : string) (f : gset string -> gset string) : Keyspace :=
  match set_at ks k with Some s => put_set ks k (f s) | None => ks end.

Definition set_fields (fields : list (string * string)) (m : gmap string string) : gmap string string :=
  fold_left (fun m kv => <[kv.1 := kv.2]> m) fields m.

(** ** What a command does and answers *)

Definition redis_next {X} (c : redis_cmd X) (ks : Keyspace) : Keyspace :=
  match c with
  | HSet k fields => on_hash ks k (set_fields fields)
  | HDel k f => on_hash ks k (delete f)
  | SAdd k m => on_set ks k (fun s => {[m]} ∪ s)
  | SRem k m => on_set ks k (fun s => s ∖ {[m]})
  | Del k => delete k ks
  | Expire k ttl => if ttl <=? 0 then delete k ks else ks
  | HGet _ _ | HGetAll _ | HKeys _ | SMembers _ | SIsMember _ _ => ks
  end.

(** An answer on a value of the right type, an error otherwise. *)
Definition typed {A X} (v : option A) (P : A -> X -> Prop) (r : error + X) : Prop :=
  match v with
  | Some a => exists x, r = inr x /\ P a x
  | None => exists e, r = inl e
  end.

Definition redis_reply {X} (c : redis_cmd X) (ks : Keyspace) : error + X -> Prop :=
  match c in redis_cmd X return error + X -> Prop with
  | HSet k _ | HDel k _ => typed (hash_at ks k) (fun _ _ => True)
  | SAdd k _ | SRem k _ => typed (set_at ks k) (fun _ _ => True)
  | HGet k f => typed (hash_at ks k) (fun m x => x = m !! f)
  | HGetAll k => typed (hash_at ks k) (fun m x => x = m)
  | HKeys k => typed (hash_at ks k) (fun m x => lists x (fun f => is_Some (m !! f)))
  | SMembers k => typed (set_at ks k) (fun s x => lists x (fun y => y ∈ s))
  | SIsMember k y => typed (set_at ks k) (fun s x => x = bool_decide (y ∈ s))
  | Del _ | Expire _ _ => fun r => r = inr tt
  end.

(** Keys with a time to live after a command. *)
Definition volatile_next {X} (c : redis_cmd X) (v : gset string) : gset string :=
  match c with
  | Expire k _ => {[k]} ∪ v
  | Del k => v ∖ {[k]}
  | _ => v
  end.

(** ** The server *)

Record Server := mkServer {
  keyspace : Keyspace;
  volatile : gset string;
  lapsed : nat
}.

(** Some keys whose time is up are gone before the command runs. *)
Definition cmd_step {X} (c : redis_cmd X) (s : Server) (r : error + X) (s' : Server) : Prop :=
  exists gone : gset string,
    gone ⊆ volatile s ∩ dom (keyspace s) /\
    let ks := filter (fun kv => kv.1 ∉ gone) (keyspace s) in
    redis_reply c ks r /\
    s' = mkServer (redis_next c ks) (volatile_next c (volatile s ∖ gone) ∩ dom (redis_next c ks))
           (lapsed s + size gone)%nat.

Inductive pipe_steps {X} : list (redis_cmd X) -> Server -> list (error + X) -> Server -> Prop :=
| pipe_nil s : pipe_steps [] s [] s
| pipe_cons c cs s r s1 rs s2 :
    cmd_step c s r s1 -> pipe_steps cs s1 rs s2 -> pipe_steps (c :: cs) s (r :: rs) s2.

Fixpoint first_error {X} (rs : list (error + X)) : option error :=
  match rs with
  | [] => None
  | inl e :: _ => Some e
  | inr _ :: rs => first_error rs
  end.

Class RedisEngine {W} (h : forall X, redis_port X -> W -> X * W) := {
  server : W -> Server;
  redis_do X (c : redis_cmd X) w :
    cmd_step c (server w) (h _ (Do c) w).1 (server (h _ (Do c) w).2);
  redis_pipe X (cs : list (redis_cmd X)) w :
    exists rs, pipe_steps cs (server w) rs (server (h _ (Pipe cs) w).2) /\
      (h _ (Pipe cs) w).1 = (first_error rs, rs)
}.

(** ** Runs in which no key's time is up *)

Lemma filter_nothing (gone : gset string) (ks : Keyspace) : gone = ∅ -> filter (fun kv => kv.1 ∉ gone) ks = ks.
Proof. intros ->. apply map_filter_id. intros k v _. cbn. set_solver. Qed.

Lemma cmd_step_lapsed {X} (c : redis_cmd X) s r s' : cmd_step c s r s' -> (lapsed s <= lapsed s')%nat.
Proof. intros (gone & _ & _ & ->). cbn. lia. Qed.

Lemma cmd_step_quiet {X} (c : redis_cmd X) s r s' :
  cmd_step c s r s' -> lapsed s' = lapsed s ->
  redis_reply c (keyspace s) r /\ keyspace s' = redis_next c (keyspace s).
Proof.
  intros (gone & _ & Hr & ->) Hl. cbn [lapsed] in Hl.
  assert (gone = ∅) as Hg by (apply leibniz_equiv, size_empty_inv; lia).
  rewrite filter_nothing in Hr by done. cbn [keyspace]. by rewrite filter_nothing.
Qed.

Lemma pipe_steps_lapsed {X} (cs : list (redis_cmd X)) s rs s' : pipe_steps cs s rs s' -> (lapsed s <= lapsed s')%nat.
Proof. induction 1 as [|c cs s r s1 rs s2 H1 _ IH]; [done|]. apply cmd_step_lapsed in H1. lia. Qed.

(** The effect and the answers of a pipeline. *)
Definition pipe_next {X} (cs : list (redis_cmd X)) (ks : Keyspace) : Keyspace :=
  fold_left (fun ks c => redis_next c ks) cs ks.

Lemma pipe_next_cons {X} (c : redis_cmd X) cs ks : pipe_next (c :: cs) ks = pipe_next cs (redis_next c ks).
Proof. done. Qed.

Lemma pipe_next_app {X} (cs ds : list (redis_cmd X)) ks : pipe_next (cs ++ ds) ks = pipe_next ds (pipe_next cs ks).
Proof. apply fold_left_app. Qed.

Fixpoint pipe_reply {X} (cs : list (redis_cmd X)) (ks : Keyspace) (rs : list (error + X)) : Prop :=
  match cs, rs with
  | [], [] => True
  | c :: cs, r :: rs => redis_reply c ks r /\ pipe_reply cs (redis_next c ks) rs
  | _, _ => False
  end.

(** Commands that meet the type they expect succeed. *)
Definition cmd_typed {X} (c : redis_cmd X) (ks : Keyspace) : Prop :=
  match c with
  | HSet k _ | HGet k _ | HGetAll k | HKeys k | HDel k _ => is_Some (hash_at ks k)
  | SAdd k _ | SRem k _ | SMembers k | SIsMember k _ => is_Some (set_at ks k)
  | Del _ | Expire _ _ => True
  end.

Fixpoint pipe_typed {X} (cs : list (redis_cmd X)) (ks : Keyspace) : Prop :=
  match cs with
  | [] => True
  | c :: cs => cmd_typed c ks /\ pipe_typed cs (redis_next c ks)
  end.

Lemma redis_reply_typed {X} (c : redis_cmd X) ks x : redis_reply c ks x -> cmd_typed c ks -> exists y, x = inr y.
Proof. destruct c; cbn; try (by eauto); intros H [v Hv]; rewrite Hv in H; destruct H as (y & -> & _); eauto. Qed.

Lemma pipe_reply_typed {X} (cs : list (redis_cmd X)) ks rs :
  pipe_reply cs ks rs -> pipe_typed cs ks -> first_error rs = None.
Proof.
  revert ks rs. induction cs as [|c cs IH]; intros ks [|x rs]; try done. intros [H1 H2] [T1 T2].
  destruct (redis_reply_typed _ _ _ H1 T1) as [y ->]. cbn. by eapply IH.
Qed.

Lemma pipe_steps_quiet {X} (cs : list (redis_cmd X)) s rs s' :
  pipe_steps cs s rs s' -> lapsed s' = lapsed s ->
  pipe_reply cs (keyspace s) rs /\ keyspace s' = pipe_next cs (keyspace s).
Proof.
  induction 1 as [|c cs s r s1 rs s2 H1 H2 IH]; intros Hl; [done|].
  pose proof (cmd_step_lapsed _ _ _ _ H1). pose proof (pipe_steps_lapsed _ _ _ _ H2).
  apply cmd_step_quiet in H1 as [Hr Hk]; [|lia]. destruct IH as [IH1 IH2]; [lia|].
  rewrite Hk in IH1, IH2. done.
Qed.

(** Keys without a time to live stay. *)
Definition sets_ttl {X} (c : redis_cmd X) : bool := match c with Expire _ _ => true | _ => false end.

Lemma cmd_step_persistent {X} (c : redis_cmd X) s r s' :
  cmd_step c s r s' -> sets_ttl c = false -> volatile s = ∅ -> lapsed s' = lapsed s /\ volatile s' = ∅.
Proof.
  intros (gone & Hg & _ & ->) He Hv. rewrite Hv in *. assert (gone = ∅) as -> by set_solver. cbn.
  rewrite size_empty. split; [lia|]. destruct c; cbn in *; set_solver.
Qed.

Lemma pipe_steps_persistent {X} (cs : list (redis_cmd X)) s rs s' :
  pipe_steps cs s rs s' -> Forall (fun c => sets_ttl c = false) cs -> volatile s = ∅ ->
  lapsed s' = lapsed s /\ volatile s' = ∅.
Proof.
  induction 1 as [|c cs s r s1 rs s2 H1 _ IH]; intros Hc Hv; [done|]. inversion Hc; subst.
  apply cmd_step_persistent in H1 as [Hl Hv1]; [|done..]. destruct (IH ltac:(done) Hv1). split; [lia|done].
Qed.

(** ** Reading after writing *)

Lemma hash_at_put ks k m k' :
  hash_at (put_hash ks k m) k' = if decide (k' = k) then Some m else hash_at ks k'.
Proof.
  unfold put_hash, hash_at. destruct (decide (m = ∅)) as [->|]; case_decide as Hk;
    [subst; by rewrite lookup_delete_eq|by rewrite lookup_delete_ne|subst; by rewrite lookup_insert_eq|by rewrite lookup_insert_ne].
Qed.

Lemma set_at_put ks k s k' :
  set_at (put_set ks k s) k' = if decide (k' = k) then Some s else set_at ks k'.
Proof.
  unfold put_set, set_at. destruct (decide (s = ∅)) as [->|]; case_decide as Hk;
    [subst; by rewrite lookup_delete_eq|by rewrite lookup_delete_ne|subst; by rewrite lookup_insert_eq|by rewrite lookup_insert_ne].
Qed.

Lemma put_hash_other ks k m k' : k' <> k -> put_hash ks k m !! k' = ks !! k'.
Proof. intros. unfold put_hash. case_decide; [by rewrite lookup_delete_ne|by rewrite lookup_insert_ne]. Qed.

Lemma put_set_other ks k s k' : k' <> k -> put_set ks k s !! k' = ks !! k'.
Proof. intros. unfold put_set. case_decide; [by rewrite lookup_delete_ne|by rewrite lookup_insert_ne]. Qed.

Lemma on_hash_other ks k f k' : k' <> k -> on_hash ks k f !! k' = ks !! k'.
Proof. intros. unfold on_hash. destruct (hash_at ks k); [by apply put_hash_other|done]. Qed.

Lemma on_set_other ks k f k' : k' <> k -> on_set ks k f !! k' = ks !! k'.
Proof. intros. unfold on_set. destruct (set_at ks k); [by apply put_set_other|done]. Qed.

(** The key a command works on; it leaves every other key alone. *)
Definition cmd_key {X} (c : redis_cmd X) : string :=
  match c with
  | HSet k _ | HGet k _ | HGetAll k | HKeys k | HDel k _ | SAdd k _ | SRem k _ | SMembers k
  | SIsMember k _ | Del k | Expire k _ => k
  end.

Lemma redis_next_other {X} (c : redis_cmd X) ks k : k <> cmd_key c -> redis_next c ks !! k = ks !! k.
Proof.
  intros Hk. destruct c; cbn [redis_next cmd_key] in *; try done;
    [by apply on_hash_other|by apply on_hash_other|by apply on_set_other|by apply on_set_other|..].
  - by rewrite lookup_delete_ne.
  - case_match; [by rewrite lookup_delete_ne|done].
Qed.

Lemma pipe_next_other {X} (cs : list (redis_cmd X)) ks k :
  Forall (fun c => k <> cmd_key c) cs -> pipe_next cs ks !! k = ks !! k.
Proof.
  unfold pipe_next. intros H. revert ks. induction H as [|c cs Hc _ IH]; intros ks; [done|].
  cbn [fold_left]. rewrite IH. by apply redis_next_other.
Qed.

Lemma hash_at_ext ks ks' k : ks !! k = ks' !! k -> hash_at ks k = hash_at ks' k.
Proof. unfold hash_at. by intros ->. Qed.
Lemma set_at_ext ks ks' k : ks !! k = ks' !! k -> set_at ks k = set_at ks' k.
Proof. unfold set_at. by intros ->. Qed.

(** ** A concrete server *)

Definition first_typed {A X} (v : option A) (f : A -> X) : error + X :=
  match v with Some a => inr (f a) | None => inl (Errorf "WRONGTYPE Operation against a key holding the wrong kind of value") end.

Definition mini_reply {X} (c : redis_cmd X) (ks : Keyspace) : error + X :=
  match c in redis_cmd X return error + X with
  | HSet k _ | HDel k _ => first_typed (hash_at ks k) (fun _ => tt)
  | SAdd k _ | SRem k _ => first_typed (set_at ks k) (fun _ => tt)
  | HGet k f => first_typed (hash_at ks k) (fun m => m !! f)
  | HGetAll k => first_typed (hash_at ks k) id
  | HKeys k => first_typed (hash_at ks k) (fun m => elements (dom m))
  | SMembers k => first_typed (set_at ks k) elements
  | SIsMember k y => first_typed (set_at ks k) (fun s => bool_decide (y ∈ s))
  | Del _ | Expire _ _ => inr tt
  end.

Definition mini_cmd {X} (c : redis_cmd X) (s : Server) : (error + X) * Server :=
  let ks := redis_next c (keyspace s) in
  (mini_reply c (keyspace s), mkServer ks (volatile_next c (volatile s) ∩ dom ks) (lapsed s)).

Fixpoint mini_pipe {X} (cs : list (redis_cmd X)) (s : Server) : list (error + X) * Server :=
  match cs with
  | [] => ([], s)
  | c :: cs => let r := mini_cmd c s in let rs := mini_pipe cs r.2 in (r.1 :: rs.1, rs.2)
  end.

Definition mini_redis X (e : redis_port X) (s : Server) : X * Server :=
  match e in redis_port X return X * Server with
  | Do c => mini_cmd c s
  | Pipe cs => let r := mini_pipe cs s in ((first_error r.1, r.1), r.2)
  end.

Lemma mini_reply_ok {X} (c : redis_cmd X) ks : redis_reply c ks (mini_reply c ks).
Proof.
  destruct c; cbn [redis_reply mini_reply]; try done;
    try (destruct (hash_at ks key) as [m|]; cbn; [|by eauto]); try (destruct (set_at ks key) as [s|]; cbn; [|by eauto]);
    try by eauto.
  - eexists. split; [reflexivity|]. split; [apply NoDup_elements|]. intros f. by rewrite elem_of_elements, elem_of_dom.
  - eexists. split; [reflexivity|]. split; [apply NoDup_elements|]. intros f. by rewrite elem_of_elements.
Qed.

Lemma mini_cmd_ok {X} (c : redis_cmd X) s : cmd_step c s (mini_cmd c s).1 (mini_cmd c s).2.
Proof.
  exists ∅. rewrite filter_nothing by done. split; [set_solver|]. split; [apply mini_reply_ok|].
  cbn. by rewrite size_empty, Nat.add_0_r, difference_empty_L.
Qed.

Lemma mini_pipe_ok {X} (cs : list (redis_cmd X)) s : pipe_steps cs s (mini_pipe cs s).1 (mini_pipe cs s).2.
Proof.
  revert s. induction cs as [|c cs IH]; intros s; cbn; [constructor|]. econstructor; [apply mini_cmd_ok|apply IH].
Qed.

#[export, refine] Instance mini_engine : RedisEngine mini_redis := {| server s := s |}.
Proof.
  - intros X c s. apply mini_cmd_ok.
  - intros X cs s. exists (mini_pipe cs s).1. split; [apply mini_pipe_ok|done].
Defined.
