(* ===== verification/RedisSession.v ===== *)
(** * The Redis session store (outbound/redis_session_store.go)

    Sessions as hashes and sets of a Redis server: one hash per connection and per
    client's attributes, one set of connected clients, and rooms kept in two sets,
    by room and by client. Instants are kept as RFC 3339 text, attribute values as
    their JSON text. Each method is a program over the client library.

    [redis_store_refines]: as long as no record's time to live is up, the store
    answers and acts as the abstract session store of SessionStore.v does, on
    times of whole seconds and values as their encoding keeps them, but for the
    hollow records of clients that had activity while not registered.
    [lapsed_session_hollow]: when a record's time is up while its connection
    lives on, the next message makes it a session without an address that never
    expires. *)

From Stdlib Require Import ZArith Lia.
From stdpp Require Import base list strings gmap option sets.
From S2P Require Import Prelude GoFmt Utf8 Json LValue LExtract LParse LRoundtrip Smus Effects Ports.
From S2P Require Import Codec SessionStore Rfc3339 Redis.

Open Scope Z_scope.

Record RedisSessionStore := mkRedisStore {
  rs_keyPrefix : string;
  rs_connTTL : Z
}.

(** [connTTL] is given in seconds; the product is an int64. *)
Definition NewRedisSessionStoreWithClient (keyPrefix : string) (connTTL : Z) : RedisSessionStore :=
  mkRedisStore keyPrefix (int64 (connTTL * second_ns)).

(** ** Keys *)

Definition connKey (r : RedisSessionStore) (clientID : string) : string := rs_keyPrefix r +:+ ":conn:" +:+ clientID.
Definition connsKey (r : RedisSessionStore) : string := rs_keyPrefix r +:+ ":conns".
Definition attrKey (r : RedisSessionStore) (clientID : string) : string := rs_keyPrefix r +:+ ":attr:" +:+ clientID.
Definition roomKey (r : RedisSessionStore) (roomName : string) : string := rs_keyPrefix r +:+ ":room:" +:+ roomName.
Definition clientRoomsKey (r : RedisSessionStore) (clientID : string) : string :=
  rs_keyPrefix r +:+ ":rooms:" +:+ clientID.

(** ** Methods *)

Definition time_text (t : Z) : string := string_of_bytes (Format t).

(** [time.Parse] with its error ignored: the zero time. *)
Definition read_time (m : gmap string string) (field : string) : Z :=
  default zero_time (Parse (bytes_of_string (default ""%string (m !! field)))).

Definition err_only (e : option error) : error + unit := match e with Some e => inl e | None => inr tt end.

(** A pipeline whose replies are not looked at. *)
Definition pipe_exec (cs : list (redis_cmd unit)) : RedisM (error + unit) :=
  r ← call_ (Pipe cs); mret (err_only (fst r)).

Section Methods.
Context (FormatFloat : Z -> bytes) (ParseFloat : bytes -> option Z) (r : RedisSessionStore).

Definition rs_RegisterConnection (clientID ip : string) (now : Z) : RedisM (error + unit) :=
  let now := time_text now in
  pipe_exec ([HSet (connKey r clientID) [("ip", ip); ("connected_at", now); ("last_activity", now)]]%string ++
             (if 0 <? rs_connTTL r then [Expire (connKey r clientID) (rs_connTTL r)] else []) ++
             [SAdd (connsKey r) clientID]).

Definition rs_UnregisterConnection (clientID : string) : RedisM (error + unit) :=
  q ← call_ (Do (SMembers (clientRoomsKey r clientID)));
  match q with
  | inl e => mret (inl (Wrapf ("failed to get rooms for client " +:+ clientID) e))
  | inr rooms =>
      pipe_exec ([Del (connKey r clientID); Del (attrKey r clientID); Del (clientRoomsKey r clientID);
                  SRem (connsKey r) clientID] ++
                 ((fun room => SRem (roomKey r room) clientID) <$> rooms))
  end.

(** The connection read from the fields of its record. *)
Definition connection_info (clientID : string) (m : gmap string string) : ConnectionInfo :=
  mkConnectionInfo clientID (default ""%string (m !! "ip"%string)) (read_time m "connected_at") (read_time m "last_activity").

Definition rs_GetConnection (clientID : string) : RedisM (error + option ConnectionInfo) :=
  q ← call_ (Do (HGetAll (connKey r clientID)));
  mret (match q with
        | inl e => inl e
        | inr m => inr (if decide (m = ∅) then None else Some (connection_info clientID m))
        end).

(** The loop over the replies of the pipeline, next to the ids they were asked for. *)
Fixpoint collect (clientIDs : list string) (cmds : list (error + gmap string string)) : outcome (error + list ConnectionInfo) :=
  match clientIDs, cmds with
  | [], _ => Ret (inr [])
  | id :: ids, inl e :: _ => Ret (inl e)
  | id :: ids, inr m :: cmds =>
      rest ← collect ids cmds;
      Ret (match rest with
           | inl e => inl e
           | inr conns => inr (if decide (m = ∅) then conns else connection_info id m :: conns)
           end)
  | _ :: _, [] => Panic
  end.

Definition rs_GetAllConnections : RedisM (error + list ConnectionInfo) :=
  q ← call_ (Do (SMembers (connsKey r)));
  match q with
  | inl e => mret (inl e)
  | inr [] => mret (inr [])
  | inr clientIDs =>
      q ← call_ (Pipe ((fun id => HGetAll (connKey r id)) <$> clientIDs));
      match fst q with
      | Some e => mret (inl e)
      | None => lift (collect clientIDs (snd q))
      end
  end.

Definition rs_UpdateLastActivity (clientID : string) (now : Z) : RedisM (error + unit) :=
  call_ (Do (HSet (connKey r clientID) [("last_activity"%string, time_text now)])).

Definition rs_IsConnected (clientID : string) : RedisM (error + bool) := call_ (Do (SIsMember (connsKey r) clientID)).

Definition rs_SetUserAttribute (clientID attrName : string) (value : LValue) : RedisM (error + unit) :=
  data ← lift (MarshalLValue FormatFloat value);
  match data with
  | inl e => mret (inl e)
  | inr data => call_ (Do (HSet (attrKey r clientID) [(attrName, string_of_bytes data)]))
  end.

Definition rs_GetUserAttribute (clientID attrName : string) : RedisM (error + LValue) :=
  q ← call_ (Do (HGet (attrKey r clientID) attrName));
  match q with
  | inr None => mret (inr LVoid)
  | inl e => mret (inl e)
  | inr (Some raw) => lift (UnmarshalLValue ParseFloat (bytes_of_string raw))
  end.

Definition rs_GetUserAttributeNames (clientID : string) : RedisM (error + list string) :=
  call_ (Do (HKeys (attrKey r clientID))).

Definition rs_DeleteUserAttribute (clientID attrName : string) : RedisM (error + unit) :=
  call_ (Do (HDel (attrKey r clientID) attrName)).

Definition rs_JoinRoom (roomName clientID : string) : RedisM (error + unit) :=
  pipe_exec [SAdd (roomKey r roomName) clientID; SAdd (clientRoomsKey r clientID) roomName].

Definition rs_LeaveRoom (roomName clientID : string) : RedisM (error + unit) :=
  pipe_exec [SRem (roomKey r roomName) clientID; SRem (clientRoomsKey r clientID) roomName].

Definition rs_GetRoomMembers (roomName : string) : RedisM (error + list string) := call_ (Do (SMembers (roomKey r roomName))).

Definition rs_GetClientRooms (clientID : string) : RedisM (error + list string) :=
  call_ (Do (SMembers (clientRoomsKey r clientID))).

Definition rs_LeaveAllRooms (clientID : string) : RedisM (error + unit) :=
  q ← call_ (Do (SMembers (clientRoomsKey r clientID)));
  match q with
  | inl e => mret (inl e)
  | inr rooms => pipe_exec (((fun room => SRem (roomKey r room) clientID) <$> rooms) ++ [Del (clientRoomsKey r clientID)])
  end.

(** The store behind the interface. *)
Definition rs_run {X} (op : ss_op X) : RedisM (error + X) :=
  match op in ss_op X return RedisM (error + X) with
  | RegisterConnection c ip now => rs_RegisterConnection c ip now
  | UnregisterConnection c => rs_UnregisterConnection c
  | GetConnection c => rs_GetConnection c
  | GetAllConnections => rs_GetAllConnections
  | IsConnected c => rs_IsConnected c
  | UpdateLastActivity c now => rs_UpdateLastActivity c now
  | SetUserAttribute c a v => rs_SetUserAttribute c a v
  | GetUserAttribute c a => rs_GetUserAttribute c a
  | GetUserAttributeNames c => rs_GetUserAttributeNames c
  | DeleteUserAttribute c a => rs_DeleteUserAttribute c a
  | JoinRoom rm c => rs_JoinRoom rm c
  | LeaveRoom rm c => rs_LeaveRoom rm c
  | GetRoomMembers rm => rs_GetRoomMembers rm
  | GetClientRooms c => rs_GetClientRooms c
  | LeaveAllRooms c => rs_LeaveAllRooms c
  end.
End Methods.

(** ** The keys of the store are pairwise different *)

Inductive store_key := KConn (c : string) | KConns | KAttr (c : string) | KRoom (rm : string) | KRooms (c : string).

Definition key_of (r : RedisSessionStore) (k : store_key) : string :=
  match k with
  | KConn c => connKey r c | KConns => connsKey r | KAttr c => attrKey r c
  | KRoom rm => roomKey r rm | KRooms c => clientRoomsKey r c
  end.

Lemma key_of_inj r j k : key_of r j = key_of r k -> j = k.
Proof.
  destruct j, k; cbn [key_of]; unfold connKey, connsKey, attrKey, roomKey, clientRoomsKey;
    intros H%string_app_inj_l; cbn in H; by simplify_eq.
Qed.

Lemma key_of_ne r j k : j <> k -> key_of r j <> key_of r k.
Proof. by intros H ?%key_of_inj. Qed.

#[export] Instance store_key_eq_dec : EqDecision store_key.
Proof. solve_decision. Defined.

(** ** What the keyspace says about the sessions *)

Section Refinement.
Context (FormatFloat : Z -> bytes) (ParseFloat : bytes -> option Z).
Hypothesis format_float_number : forall f, finite_bits f = true -> num_ok (FormatFloat f).
Hypothesis parse_format_float : forall f, finite_bits f = true -> ParseFloat (FormatFloat f) = Some f.
Context (r : RedisSessionStore).

Definition hkey (ks : Keyspace) (k : store_key) := hash_at ks (key_of r k).
Definition skey (ks : Keyspace) (k : store_key) := set_at ks (key_of r k).

(** The record of a connection: nothing for a client that is not connected. The
    store also writes the activity of such a client; what that leaves is a hollow
    record, of an instant only. *)
Definition info_fields (o : option ConnectionInfo) : gmap string string :=
  match o with
  | Some i => set_fields [("ip", ci_IP i); ("connected_at", time_text (ci_ConnectedAt i));
                          ("last_activity", time_text (ci_LastActivityAt i))]%string ∅
  | None => ∅
  end.

Definition record_fields (o : option ConnectionInfo) (t : option Z) : gmap string string :=
  match o, t with
  | None, Some t => {["last_activity"%string := time_text t]}
  | _, _ => info_fields o
  end.

(** An instant the store can keep. *)
Definition kept_time (t : Z) : Prop := representable t /\ whole_second t = t.

(** The hollow records by the clients they are of, with their instants. *)
Record conns_shown (ks : Keyspace) (conns : gmap string ConnectionInfo) (hollow : gmap string Z) : Prop := {
  sh_conns : skey ks KConns = Some (dom conns);
  sh_conn c : hkey ks (KConn c) = Some (record_fields (conns !! c) (hollow !! c));
  sh_info c i : conns !! c = Some i ->
    ci_ClientID i = c /\ kept_time (ci_ConnectedAt i) /\ kept_time (ci_LastActivityAt i);
  sh_hollow c t : hollow !! c = Some t -> kept_time t
}.

Definition attrs_shown (ks : Keyspace) (attrs : gmap (string * string) LValue) : Prop :=
  forall c, exists m, hkey ks (KAttr c) = Some m /\ forall n, row_holds ParseFloat (m !! n) (attrs !! (c, n)).

Record rooms_shown (ks : Keyspace) (members : gset (string * string)) : Prop := {
  sh_room rm : exists s, skey ks (KRoom rm) = Some s /\ forall c, c ∈ s <-> (rm, c) ∈ members;
  sh_rooms c : exists s, skey ks (KRooms c) = Some s /\ forall rm, rm ∈ s <-> (rm, c) ∈ members
}.

Definition shows (ks : Keyspace) (a : Sessions) (hollow : gmap string Z) : Prop :=
  conns_shown ks (s_conns a) hollow /\ attrs_shown ks (s_attrs a) /\ rooms_shown ks (s_members a).

(** Each part looks at its own keys only. *)
Definition conn_key (k : store_key) : bool := match k with KConn _ | KConns => true | _ => false end.
Definition attr_key (k : store_key) : bool := match k with KAttr _ => true | _ => false end.
Definition room_key (k : store_key) : bool := match k with KRoom _ | KRooms _ => true | _ => false end.

Definition agree (P : store_key -> bool) (ks ks' : Keyspace) : Prop :=
  forall k, P k = true -> ks' !! key_of r k = ks !! key_of r k.

Lemma hash_agree P ks ks' k : agree P ks ks' -> P k = true -> hkey ks' k = hkey ks k.
Proof. intros H Hk. apply hash_at_ext. by apply H. Qed.
Lemma set_agree P ks ks' k : agree P ks ks' -> P k = true -> skey ks' k = skey ks k.
Proof. intros H Hk. apply set_at_ext. by apply H. Qed.

Lemma conns_frame ks ks' m hw : agree conn_key ks ks' -> conns_shown ks m hw -> conns_shown ks' m hw.
Proof.
  intros Ha [H1 H2 H3 H4]. split; [|intros c|done..].
  - by rewrite (set_agree _ _ _ _ Ha).
  - by rewrite (hash_agree _ _ _ _ Ha).
Qed.

Lemma attrs_frame ks ks' m : agree attr_key ks ks' -> attrs_shown ks m -> attrs_shown ks' m.
Proof. intros Ha H c. rewrite (hash_agree _ _ _ _ Ha) by done. apply H. Qed.

Lemma rooms_frame ks ks' m : agree room_key ks ks' -> rooms_shown ks m -> rooms_shown ks' m.
Proof.
  intros Ha [H1 H2]. split; intros x; rewrite (set_agree _ _ _ _ Ha) by done; [apply H1|apply H2].
Qed.

Lemma agree_pipe (P : store_key -> bool) {X} (cs : list (redis_cmd X)) ks :
  (forall k, P k = true -> Forall (fun c => key_of r k <> cmd_key c) cs) -> agree P ks (pipe_next cs ks).
Proof. intros H k Hk. by apply pipe_next_other, H. Qed.

Lemma agree_next (P : store_key -> bool) {X} (c : redis_cmd X) ks :
  (forall k, P k = true -> key_of r k <> cmd_key c) -> agree P ks (redis_next c ks).
Proof. intros H k Hk. by apply redis_next_other, H. Qed.

(** One command at a key of the store. *)
Lemma hash_on_hash ks k f m k' :
  hkey ks k = Some m -> hkey (on_hash ks (key_of r k) f) k' = if decide (k' = k) then Some (f m) else hkey ks k'.
Proof.
  intros H. unfold hkey, on_hash in *. rewrite H, hash_at_put. repeat case_decide; try done; [|by subst].
  by apply key_of_inj in H0.
Qed.

Lemma set_on_set ks k f s k' :
  skey ks k = Some s -> skey (on_set ks (key_of r k) f) k' = if decide (k' = k) then Some (f s) else skey ks k'.
Proof.
  intros H. unfold skey, on_set in *. rewrite H, set_at_put. repeat case_decide; try done; [|by subst].
  by apply key_of_inj in H0.
Qed.

Lemma hash_on_set ks k f k' : k' <> k -> hkey (on_set ks (key_of r k) f) k' = hkey ks k'.
Proof. intros H. apply hash_at_ext, on_set_other, key_of_ne, H. Qed.

Lemma set_on_hash ks k f k' : k' <> k -> skey (on_hash ks (key_of r k) f) k' = skey ks k'.
Proof. intros H. apply set_at_ext, on_hash_other, key_of_ne, H. Qed.

Lemma hash_delete ks k k' : hkey (delete (key_of r k) ks) k' = if decide (k' = k) then Some ∅ else hkey ks k'.
Proof.
  unfold hkey, hash_at. case_decide as H; [subst; by rewrite lookup_delete_eq|].
  rewrite lookup_delete_ne; [done|]. by apply not_eq_sym, key_of_ne.
Qed.

Lemma set_delete ks k k' : skey (delete (key_of r k) ks) k' = if decide (k' = k) then Some ∅ else skey ks k'.
Proof.
  unfold skey, set_at. case_decide as H; [subst; by rewrite lookup_delete_eq|].
  rewrite lookup_delete_ne; [done|]. by apply not_eq_sym, key_of_ne.
Qed.

(** Leaving rooms one after the other. *)
Lemma leave_loop ks c rooms :
  (forall rm, is_Some (skey ks (KRoom rm))) ->
  let ks' := pipe_next ((fun room => SRem (roomKey r room) c) <$> rooms) ks in
  (forall rm, skey ks' (KRoom rm) =
     (fun s => if decide (rm ∈ rooms) then s ∖ {[c]} else s) <$> skey ks (KRoom rm)) /\
  forall k, (forall rm, k <> KRoom rm) -> ks' !! key_of r k = ks !! key_of r k.
Proof.
  intros Ht. cbv zeta. split.
  2:{ intros k Hk. apply pipe_next_other. apply Forall_fmap, Forall_true. intros rm. cbn.
      by apply (key_of_ne r k (KRoom rm)). }
  revert ks Ht. induction rooms as [|room rooms IH]; intros ks Ht rm.
  - cbn. destruct (skey ks (KRoom rm)); cbn; [|done]. by rewrite decide_False by apply not_elem_of_nil.
  - rewrite fmap_cons, pipe_next_cons. cbn [redis_next].
    destruct (Ht room) as [s Hs].
    assert (forall k', skey (on_set ks (roomKey r room) (fun s => s ∖ {[c]})) k' =
       if decide (k' = KRoom room) then Some (s ∖ {[c]}) else skey ks k') as Hn by (intros k'; exact (set_on_set ks (KRoom room) (fun s => s ∖ {[c]}) s k' Hs)).
    rewrite IH, Hn.
    2:{ intros rm'. rewrite Hn. case_decide; [eauto|apply Ht]. }
    destruct (decide (rm = room)) as [->|Hne].
    + rewrite decide_True by done. rewrite Hs. cbn. rewrite (decide_True (P := room ∈ room :: rooms)) by left.
      case_decide; f_equal; set_solver.
    + rewrite decide_False by congruence. destruct (skey ks (KRoom rm)) as [s'|]; cbn; [|done]. f_equal.
      destruct (decide (rm ∈ rooms)); [rewrite decide_True by by right|rewrite decide_False by set_solver]; done.
Qed.

(** Every key of the store holds a value of its type, or nothing. *)
Definition is_hash_key (k : store_key) : bool := match k with KConn _ | KAttr _ => true | _ => false end.

Definition well_typed (ks : Keyspace) : Prop :=
  forall k, if is_hash_key k then is_Some (hkey ks k) else is_Some (skey ks k).

Definition proper {X} (c : redis_cmd X) : Prop :=
  match c with
  | HSet k _ | HGet k _ | HGetAll k | HKeys k | HDel k _ => exists j, is_hash_key j = true /\ k = key_of r j
  | SAdd k _ | SRem k _ | SMembers k | SIsMember k _ => exists j, is_hash_key j = false /\ k = key_of r j
  | Del k | Expire k _ => exists j, k = key_of r j
  end.

Lemma proper_typed {X} (c : redis_cmd X) ks : well_typed ks -> proper c -> cmd_typed c ks.
Proof.
  intros Hw. destruct c; cbn; try done; intros (j & Hj & ->); specialize (Hw j); by rewrite Hj in Hw.
Qed.

Lemma well_typed_delete ks j : well_typed ks -> well_typed (delete (key_of r j) ks).
Proof.
  intros Hw k. specialize (Hw k). rewrite hash_delete, set_delete. case_decide; [|done]. by destruct (is_hash_key k).
Qed.

Lemma proper_next {X} (c : redis_cmd X) ks : well_typed ks -> proper c -> well_typed (redis_next c ks).
Proof.
  intros Hw Hp. destruct c; cbn [redis_next proper] in *; try done.
  1, 2: destruct Hp as (j & Hj & ->); pose proof (Hw j) as Hs; rewrite Hj in Hs; destruct Hs as [m Hm];
    intros k; specialize (Hw k); rewrite (hash_on_hash _ _ _ _ _ Hm);
    destruct (decide (k = j)) as [->|Hn]; [by rewrite Hj|by rewrite set_on_hash].
  1, 2: destruct Hp as (j & Hj & ->); pose proof (Hw j) as Hs; rewrite Hj in Hs; destruct Hs as [m Hm];
    intros k; specialize (Hw k); rewrite (set_on_set _ _ _ _ _ Hm);
    destruct (decide (k = j)) as [->|Hn]; [by rewrite Hj|by rewrite hash_on_set].
  - destruct Hp as [j ->]. by apply well_typed_delete.
  - destruct Hp as [j ->]. case_match; [by apply well_typed_delete|done].
Qed.

Lemma proper_pipe {X} (cs : list (redis_cmd X)) ks : well_typed ks -> Forall proper cs -> pipe_typed cs ks.
Proof.
  intros Hw Hp. revert ks Hw. induction Hp as [|c cs Hc _ IH]; intros ks Hw; [done|]. split.
  - by apply proper_typed.
  - by apply IH, proper_next.
Qed.

Lemma shows_typed ks a hw : shows ks a hw -> well_typed ks.
Proof.
  intros ([H1 H2 _ _] & H3 & [H4 H5]) [c| |c|rm|c]; cbn.
  - by rewrite H2.
  - by rewrite H1.
  - destruct (H3 c) as (m & -> & _). done.
  - destruct (H4 rm) as (m & -> & _). done.
  - destruct (H5 c) as (m & -> & _). done.
Qed.

(** ** The effect of each method on what is shown *)

(** What a call stores: instants of whole seconds, values as their encoding
    keeps them. *)
Definition stored_op {X} (op : ss_op X) : ss_op X :=
  match op in ss_op X return ss_op X with
  | RegisterConnection c ip now => RegisterConnection c ip (whole_second now)
  | UpdateLastActivity c now => UpdateLastActivity c (whole_second now)
  | SetUserAttribute c n v => SetUserAttribute c n (stored v)
  | op => op
  end.

Lemma kept_whole t : representable t -> kept_time (whole_second t).
Proof. intros H. split; [by apply representable_whole|apply whole_second_idem]. Qed.

Lemma time_text_whole t : time_text (whole_second t) = time_text t.
Proof. unfold time_text. by rewrite Format_whole. Qed.

(** A part of the sessions whose keys the commands do not name. *)
Ltac other_keys := let k := fresh "k" in let Hk := fresh "Hk" in intros k Hk;
  rewrite ?on_set_other, ?on_hash_other, ?lookup_delete_ne; [done|..]; try apply not_eq_sym; apply key_of_ne; by destruct k.

Lemma fields_over old t0 c ip t :
  set_fields [("ip", ip); ("connected_at", time_text t); ("last_activity", time_text t)]%string (record_fields old t0) =
  info_fields (Some (mkConnectionInfo c ip t t)).
Proof.
  apply map_eq. intros f. destruct old as [i|]; [|destruct t0 as [t0|]; [|done]]; unfold record_fields, info_fields, set_fields;
    rewrite <- ?insert_empty; cbn [fold_left fst snd ci_IP ci_ConnectedAt ci_LastActivityAt];
    rewrite !lookup_insert; by repeat case_decide.
Qed.

Lemma activity_over i t :
  set_fields [("last_activity"%string, time_text t)] (info_fields (Some i)) =
  info_fields (Some (mkConnectionInfo (ci_ClientID i) (ci_IP i) (ci_ConnectedAt i) t)).
Proof.
  apply map_eq. intros f. unfold info_fields, set_fields. cbn [fold_left fst snd ci_IP ci_ConnectedAt ci_LastActivityAt].
  rewrite !lookup_insert. by repeat case_decide.
Qed.

Definition register_cmds (c ip : string) (now : Z) : list (redis_cmd unit) :=
  [HSet (connKey r c) [("ip", ip); ("connected_at", time_text now); ("last_activity", time_text now)]]%string ++
  (if 0 <? rs_connTTL r then [Expire (connKey r c) (rs_connTTL r)] else []) ++ [SAdd (connsKey r) c].

Lemma register_next c ip now ks :
  pipe_next (register_cmds c ip now) ks =
  on_set (on_hash ks (key_of r (KConn c))
    (set_fields [("ip", ip); ("connected_at", time_text now); ("last_activity", time_text now)]%string))
    (key_of r KConns) (fun s => {[c]} ∪ s).
Proof.
  unfold register_cmds. rewrite !pipe_next_app, !pipe_next_cons. destruct (Z.ltb_spec 0 (rs_connTTL r)) as [H|H]; [|done].
  rewrite pipe_next_cons. cbn [redis_next]. rewrite (proj2 (Z.leb_gt _ 0)) by lia. done.
Qed.

(** What a call does to the hollow records. *)
Definition hollow_next {X} (op : ss_op X) (a : Sessions) (hollow : gmap string Z) : gmap string Z :=
  match op with
  | RegisterConnection c _ _ | UnregisterConnection c => delete c hollow
  | UpdateLastActivity c now => if s_conns a !! c then hollow else <[c := now]> hollow
  | _ => hollow
  end.

Lemma register_shows c ip now ks a hw :
  representable now -> shows ks a hw ->
  shows (pipe_next (register_cmds c ip now) ks) (spec_next (stored_op (RegisterConnection c ip now)) a) (delete c hw).
Proof.
  intros Hn (Hc & Ha & Hr). rewrite register_next. cbn [stored_op spec_next]. split_and!; cbn [s_conns s_attrs s_members].
  - destruct Hc as [H1 H2 H3 H4].
    assert (forall k, k <> KConn c -> skey (on_hash ks (key_of r (KConn c))
      (set_fields [("ip", ip); ("connected_at", time_text now); ("last_activity", time_text now)]%string)) k = skey ks k) as Hf
      by (intros; by apply set_on_hash).
    split.
    + rewrite (set_on_set _ _ _ (dom (s_conns a))), decide_True by (try done; by rewrite Hf). by rewrite dom_insert_L.
    + intros c'. rewrite hash_on_set by done. rewrite (hash_on_hash _ _ _ _ _ (H2 c)), lookup_insert.
      destruct (decide (c' = c)) as [->|Hne].
      * rewrite !decide_True by done. unfold record_fields at 2.
        by rewrite <- fields_over with (old := s_conns a !! c) (t0 := hw !! c), time_text_whole.
      * rewrite !decide_False by congruence. rewrite lookup_delete_ne by done. apply H2.
    + intros c' i. rewrite lookup_insert_Some. intros [[<- <-]|[_ Hi]]; [|by apply H3].
      cbn. split_and!; [done|by apply kept_whole..].
    + intros c' t [_ Ht]%lookup_delete_Some. by eapply H4.
  - eapply attrs_frame; [|exact Ha]. other_keys.
  - eapply rooms_frame; [|exact Hr]. other_keys.
Qed.

Lemma activity_shows c now ks a hw :
  representable now -> shows ks a hw ->
  shows (redis_next (HSet (connKey r c) [("last_activity"%string, time_text now)]) ks)
    (spec_next (stored_op (UpdateLastActivity c now)) a) (hollow_next (stored_op (UpdateLastActivity c now)) a hw).
Proof.
  intros Hn (Hc & Ha & Hr). cbn [stored_op spec_next hollow_next redis_next]. change (connKey r c) with (key_of r (KConn c)).
  split_and!; cbn [s_conns s_attrs s_members].
  - destruct Hc as [H1 H2 H3 H4]. split.
    + rewrite set_on_hash by done. by rewrite dom_alter_L.
    + intros c'. rewrite (hash_on_hash _ _ _ _ _ (H2 c)). destruct (decide (c' = c)) as [->|Hne].
      * rewrite !decide_True, lookup_alter_eq by done. destruct (s_conns a !! c) as [i|]; cbn [fmap option_fmap option_map record_fields].
        { by rewrite <- activity_over, time_text_whole. }
        rewrite lookup_insert_eq, time_text_whole. f_equal. destruct (hw !! c); unfold set_fields; cbn [fold_left fst snd info_fields];
          [by rewrite insert_singleton_eq|by rewrite insert_empty].
      * rewrite decide_False by congruence. rewrite lookup_alter_ne by done. rewrite H2. do 2 f_equal.
        destruct (s_conns a !! c); [done|]. by rewrite lookup_insert_ne.
    + intros c' j. rewrite lookup_alter_Some. intros [(<- & j' & Hj & ->)|[_ Hj]]; [|by apply H3].
      cbn. destruct (H3 _ _ Hj) as (? & ? & ?). split_and!; [done..|by apply kept_whole].
    + intros c' t. destruct (s_conns a !! c); [apply H4|]. rewrite lookup_insert_Some.
      intros [[<- <-]|[_ Ht]]; [by apply kept_whole|by eapply H4].
  - eapply attrs_frame; [|exact Ha]. other_keys.
  - eapply rooms_frame; [|exact Hr]. other_keys.
Qed.

Lemma set_attr_shows c n v txt ks a hw :
  reads ParseFloat txt (stored v) -> shows ks a hw ->
  shows (redis_next (HSet (attrKey r c) [(n, txt)]) ks) (spec_next (stored_op (SetUserAttribute c n v)) a) hw.
Proof.
  intros Hv (Hc & Ha & Hr). cbn [stored_op spec_next redis_next]. change (attrKey r c) with (key_of r (KAttr c)).
  split_and!; cbn [s_conns s_attrs s_members]; [eapply conns_frame; [|exact Hc]; other_keys| |eapply rooms_frame; [|exact Hr]; other_keys].
  intros c'. destruct (Ha c) as (m & Hm & Hrows). rewrite (hash_on_hash _ _ _ _ _ Hm).
  destruct (decide (c' = c)) as [->|Hne].
  - rewrite decide_True by done. eexists. split; [reflexivity|]. intros n'. unfold set_fields. cbn [fold_left fst snd].
    rewrite !lookup_insert. repeat case_decide; try done; congruence.
  - rewrite decide_False by congruence. destruct (Ha c') as (m' & Hm' & Hrows'). exists m'. split; [done|]. intros n'.
    rewrite lookup_insert_ne by congruence. apply Hrows'.
Qed.

Lemma delete_attr_shows c n ks a hw :
  shows ks a hw -> shows (redis_next (HDel (attrKey r c) n) ks) (spec_next (DeleteUserAttribute c n) a) hw.
Proof.
  intros (Hc & Ha & Hr). cbn [spec_next redis_next]. change (attrKey r c) with (key_of r (KAttr c)).
  split_and!; cbn [s_conns s_attrs s_members]; [eapply conns_frame; [|exact Hc]; other_keys| |eapply rooms_frame; [|exact Hr]; other_keys].
  intros c'. destruct (Ha c) as (m & Hm & Hrows). rewrite (hash_on_hash _ _ _ _ _ Hm).
  destruct (decide (c' = c)) as [->|Hne].
  - rewrite decide_True by done. eexists. split; [reflexivity|]. intros n'.
    rewrite !lookup_delete. repeat case_decide; try done; congruence.
  - rewrite decide_False by congruence. destruct (Ha c') as (m' & Hm' & Hrows'). exists m'. split; [done|]. intros n'.
    rewrite lookup_delete_ne by congruence. apply Hrows'.
Qed.

(** Both sets of a room and a client, changed alike. *)
Lemma room_pair_shows rm c (f : string -> gset string -> gset string) ks members members' :
  (forall x s y, y ∈ f x s <-> (y ∈ s /\ y <> x) \/ (y = x /\ (rm, c) ∈ members')) ->
  (forall rm' c', (rm', c') <> (rm, c) -> (rm', c') ∈ members' <-> (rm', c') ∈ members) ->
  rooms_shown ks members ->
  rooms_shown (on_set (on_set ks (key_of r (KRoom rm)) (f c)) (key_of r (KRooms c)) (f rm)) members'.
Proof.
  intros Hf Hm [H1 H2]. destruct (H1 rm) as (s & Hs & Hin). destruct (H2 c) as (t & Ht & Hin').
  assert (forall k, skey (on_set ks (key_of r (KRoom rm)) (f c)) k = if decide (k = KRoom rm) then Some (f c s) else skey ks k)
    as E1 by (intros; by apply set_on_set).
  assert (forall k, skey (on_set (on_set ks (key_of r (KRoom rm)) (f c)) (key_of r (KRooms c)) (f rm)) k =
    if decide (k = KRooms c) then Some (f rm t) else if decide (k = KRoom rm) then Some (f c s) else skey ks k) as E2.
  { intros k. rewrite (set_on_set _ _ _ t), E1; [done|]. by rewrite E1. }
  split; intros x; rewrite E2.
  - destruct (decide (x = rm)) as [->|Hne].
    + rewrite decide_False, decide_True by done. eexists. split; [reflexivity|]. intros c'. rewrite Hf, Hin.
      destruct (decide (c' = c)) as [->|]; [naive_solver|]. rewrite (Hm rm c') by congruence. naive_solver.
    + rewrite !decide_False by congruence. destruct (H1 x) as (s' & Hs' & Hin2). exists s'. split; [done|]. intros c'.
      rewrite Hin2, Hm; [done|congruence].
  - destruct (decide (x = c)) as [->|Hne].
    + rewrite decide_True by done. eexists. split; [reflexivity|]. intros rm'. rewrite Hf, Hin'.
      destruct (decide (rm' = rm)) as [->|]; [naive_solver|]. rewrite (Hm rm' c) by congruence. naive_solver.
    + rewrite !decide_False by congruence. destruct (H2 x) as (s' & Hs' & Hin2). exists s'. split; [done|]. intros rm'.
      rewrite Hin2, Hm; [done|congruence].
Qed.

Lemma join_shows rm c ks a hw :
  shows ks a hw ->
  shows (pipe_next [SAdd (roomKey r rm) c; SAdd (clientRoomsKey r c) rm] ks) (spec_next (JoinRoom rm c) a) hw.
Proof.
  intros (Hc & Ha & Hr). cbn [spec_next pipe_next fold_left redis_next].
  change (roomKey r rm) with (key_of r (KRoom rm)). change (clientRoomsKey r c) with (key_of r (KRooms c)).
  split_and!; cbn [s_conns s_attrs s_members]; [eapply conns_frame; [|exact Hc]; other_keys|eapply attrs_frame; [|exact Ha]; other_keys|].
  apply (room_pair_shows rm c (fun x s => {[x]} ∪ s) _ (s_members a)); [|set_solver|done].
  intros x s y. destruct (decide (y = x)); set_solver.
Qed.

Lemma leave_shows rm c ks a hw :
  shows ks a hw ->
  shows (pipe_next [SRem (roomKey r rm) c; SRem (clientRoomsKey r c) rm] ks) (spec_next (LeaveRoom rm c) a) hw.
Proof.
  intros (Hc & Ha & Hr). cbn [spec_next pipe_next fold_left redis_next].
  change (roomKey r rm) with (key_of r (KRoom rm)). change (clientRoomsKey r c) with (key_of r (KRooms c)).
  split_and!; cbn [s_conns s_attrs s_members]; [eapply conns_frame; [|exact Hc]; other_keys|eapply attrs_frame; [|exact Ha]; other_keys|].
  apply (room_pair_shows rm c (fun x s => s ∖ {[x]}) _ (s_members a)); [|set_solver|done].
  intros x s y. set_solver.
Qed.

(** Out of every room: the loop over the client's rooms and the removal of its
    index, in either order. *)
Lemma evicted ks ks' members c (rooms : list string) :
  rooms_shown ks members -> (forall rm, rm ∈ rooms <-> (rm, c) ∈ members) ->
  (forall rm, skey ks' (KRoom rm) = (fun s => if decide (rm ∈ rooms) then s ∖ {[c]} else s) <$> skey ks (KRoom rm)) ->
  (forall c', skey ks' (KRooms c') = if decide (c' = c) then Some ∅ else skey ks (KRooms c')) ->
  rooms_shown ks' (without_client c members).
Proof.
  intros [H1 H2] Hrooms E1 E2. unfold without_client. split.
  - intros rm. rewrite E1. destruct (H1 rm) as (s & -> & Hin). cbn. eexists. split; [reflexivity|]. intros c'.
    rewrite elem_of_filter. cbn. rewrite <- Hin. case_decide as Hd; [set_solver|]. split; [|naive_solver].
    intros Hc'. split; [|done]. intros ->. apply Hd, Hrooms, Hin, Hc'.
  - intros c'. rewrite E2. case_decide as Hd.
    + subst. exists ∅. split; [done|]. intros rm. rewrite elem_of_filter. cbn. set_solver.
    + destruct (H2 c') as (s & -> & Hin). exists s. split; [done|]. intros rm. rewrite elem_of_filter, Hin. cbn. naive_solver.
Qed.

Definition unregister_cmds (c : string) (rooms : list string) : list (redis_cmd unit) :=
  [Del (connKey r c); Del (attrKey r c); Del (clientRoomsKey r c); SRem (connsKey r) c] ++
  ((fun room => SRem (roomKey r room) c) <$> rooms).

Lemma unregister_shows c rooms ks a hw :
  shows ks a hw -> (forall rm, rm ∈ rooms <-> (rm, c) ∈ s_members a) ->
  shows (pipe_next (unregister_cmds c rooms) ks) (spec_next (UnregisterConnection c) a) (delete c hw).
Proof.
  intros Hs Hrooms. pose proof (shows_typed _ _ _ Hs) as Hw. destruct Hs as (Hc & Ha & Hr).
  unfold unregister_cmds. rewrite pipe_next_app.
  set (ks1 := delete (key_of r (KRooms c)) (delete (key_of r (KAttr c)) (delete (key_of r (KConn c)) ks))).
  set (ks2 := on_set ks1 (key_of r KConns) (fun s => s ∖ {[c]})).
  change (pipe_next [Del (connKey r c); Del (attrKey r c); Del (clientRoomsKey r c); SRem (connsKey r) c] ks) with ks2.
  assert (skey ks1 KConns = Some (dom (s_conns a))) as E1.
  { unfold ks1. rewrite !set_delete, !decide_False by done. apply (sh_conns _ _ _ Hc). }
  assert (forall k, skey ks2 k = if decide (k = KConns) then Some (dom (s_conns a) ∖ {[c]}) else skey ks1 k) as E2
    by (intros k; exact (set_on_set _ _ (fun s => s ∖ {[c]}) _ _ E1)).
  assert (forall rm, skey ks2 (KRoom rm) = skey ks (KRoom rm)) as E3.
  { intros rm. rewrite E2, decide_False by done. unfold ks1. by rewrite !set_delete, !decide_False by done. }
  destruct (leave_loop ks2 c rooms) as [L1 L2].
  { intros rm. rewrite E3. exact (Hw (KRoom rm)). }
  set (ks' := pipe_next _ ks2) in *. cbn [spec_next]. split_and!; cbn [s_conns s_attrs s_members].
  - destruct Hc as [H1 H2 H3 H4]. apply (conns_frame ks2); [intros k Hk; apply L2; by destruct k|]. split.
    + rewrite E2, decide_True by done. by rewrite dom_delete_L.
    + intros c'. unfold ks2. rewrite hash_on_set by done. unfold ks1. rewrite !hash_delete.
      rewrite (decide_False (P := KConn c' = KRooms c)), (decide_False (P := KConn c' = KAttr c)) by done.
      rewrite !lookup_delete, H2. repeat case_decide; try done; congruence.
    + intros c' i [_ Hi]%lookup_delete_Some. by apply H3.
    + intros c' t [_ Ht]%lookup_delete_Some. by eapply H4.
  - apply (attrs_frame ks2); [intros k Hk; apply L2; by destruct k|]. intros c'.
    unfold ks2. rewrite hash_on_set by done. unfold ks1. rewrite !hash_delete.
    rewrite (decide_False (P := KAttr c' = KRooms c)), (decide_False (P := KAttr c' = KConn c)) by done.
    destruct (Ha c') as (m & Hm & Hrows). destruct (decide (c' = c)) as [->|Hne].
    + rewrite decide_True by done. exists ∅. split; [done|]. intros n. rewrite lookup_empty.
      rewrite (proj2 (map_lookup_filter_None _ _ _)); [done|]. right. intros x _. cbn. by intros [].
    + rewrite decide_False by congruence. exists m. split; [done|]. intros n. specialize (Hrows n).
      destruct (s_attrs a !! (c', n)) as [v|] eqn:Hv.
      * by rewrite (proj2 (map_lookup_filter_Some _ _ _ v)).
      * by rewrite (proj2 (map_lookup_filter_None _ _ _)) by (by left).
  - apply (evicted ks _ _ _ rooms); [done|done| |].
    + intros rm. by rewrite L1, E3.
    + intros c'. assert (skey ks' (KRooms c') = skey ks2 (KRooms c')) as -> by (apply set_at_ext; by apply L2).
      rewrite E2, decide_False by done. unfold ks1. rewrite !set_delete.
      rewrite (decide_False (P := KRooms c' = KAttr c)), (decide_False (P := KRooms c' = KConn c)) by done.
      repeat case_decide; try done; congruence.
Qed.

Definition leave_all_cmds (c : string) (rooms : list string) : list (redis_cmd unit) :=
  ((fun room => SRem (roomKey r room) c) <$> rooms) ++ [Del (clientRoomsKey r c)].

Lemma leave_all_shows c rooms ks a hw :
  shows ks a hw -> (forall rm, rm ∈ rooms <-> (rm, c) ∈ s_members a) ->
  shows (pipe_next (leave_all_cmds c rooms) ks) (spec_next (LeaveAllRooms c) a) hw.
Proof.
  intros Hs Hrooms. pose proof (shows_typed _ _ _ Hs) as Hw. destruct Hs as (Hc & Ha & Hr).
  unfold leave_all_cmds. rewrite pipe_next_app, pipe_next_cons. cbn [redis_next].
  change (clientRoomsKey r c) with (key_of r (KRooms c)).
  destruct (leave_loop ks c rooms) as [L1 L2]; [intros rm; exact (Hw (KRoom rm))|].
  set (ks1 := pipe_next _ ks) in *. change (pipe_next [] ?k) with k. cbn [spec_next].
  assert (forall k, k <> KRooms c -> (forall rm, k <> KRoom rm) -> delete (key_of r (KRooms c)) ks1 !! key_of r k = ks !! key_of r k) as E.
  { intros k H1 H2. rewrite lookup_delete_ne by (by apply key_of_ne, not_eq_sym). by apply L2. }
  split_and!; cbn [s_conns s_attrs s_members].
  - eapply conns_frame; [|exact Hc]. intros k Hk. apply E; by destruct k.
  - eapply attrs_frame; [|exact Ha]. intros k Hk. apply E; by destruct k.
  - apply (evicted ks _ _ _ rooms); [done|done| |].
    + intros rm. rewrite set_delete, decide_False by done. apply L1.
    + intros c'. rewrite set_delete. repeat case_decide; try done; try congruence. apply set_at_ext. by apply L2.
Qed.

(** ** Answers *)

Lemma read_time_kept (m : gmap string string) f t :
  m !! f = Some (time_text t) -> kept_time t -> read_time m f = t.
Proof.
  intros Hf [Hr Hw]. unfold read_time. rewrite Hf. cbn [from_option id]. unfold time_text, id.
  by rewrite bytes_of_string_of_bytes, parse_format, Hw.
Qed.

Lemma connection_read conns hw ks c i :
  conns_shown ks conns hw -> conns !! c = Some i -> connection_info c (info_fields (Some i)) = i.
Proof.
  intros Hc Hi. destruct (sh_info _ _ _ Hc _ _ Hi) as (Hid & H1 & H2). unfold connection_info.
  rewrite (read_time_kept _ _ (ci_ConnectedAt i)), (read_time_kept _ _ (ci_LastActivityAt i)) by (try done; reflexivity).
  destruct i; cbn in *. by subst.
Qed.

(** A hollow record is read as a connection without an address. *)
Definition hollow_info (c : string) (t : Z) : ConnectionInfo := mkConnectionInfo c "" zero_time t.

Lemma hollow_read c t : kept_time t -> connection_info c {["last_activity"%string := time_text t]} = hollow_info c t.
Proof.
  intros Ht. unfold connection_info, hollow_info. f_equal.
  rewrite (read_time_kept _ _ t); [done|by rewrite lookup_singleton_eq|done].
Qed.

Lemma record_fields_hollow t : record_fields None (Some t) = {["last_activity"%string := time_text t]}.
Proof. done. Qed.

Lemma record_fields_full i t : record_fields (Some i) t = info_fields (Some i).
Proof. done. Qed.

Lemma info_fields_full i : info_fields (Some i) <> ∅.
Proof. unfold info_fields, set_fields. cbn [fold_left fst snd]. apply insert_non_empty. Qed.

Lemma record_fields_empty o t : record_fields o t = ∅ <-> o = None /\ t = None.
Proof.
  split; [|by intros [-> ->]]. destruct o as [i|]; [|destruct t as [t|]; [|done]].
  - change (record_fields (Some i) t) with (info_fields (Some i)). intros H. by apply info_fields_full in H.
  - rewrite record_fields_hollow. intros H. by apply map_non_empty_singleton in H.
Qed.

(** What [GetConnection] makes of a record. *)
Lemma record_read conns hw ks c :
  conns_shown ks conns hw ->
  (if decide (record_fields (conns !! c) (hw !! c) = ∅) then None
   else Some (connection_info c (record_fields (conns !! c) (hw !! c)))) =
  match conns !! c with Some i => Some i | None => hollow_info c <$> hw !! c end.
Proof.
  intros Hc. case_decide as He; [by apply record_fields_empty in He as [-> ->]|].
  destruct (conns !! c) as [i|] eqn:Hi.
  - rewrite record_fields_full. f_equal. exact (connection_read conns hw ks c i Hc Hi).
  - destruct (hw !! c) as [t|] eqn:Ht; [|by destruct He].
    rewrite record_fields_hollow, hollow_read by exact (sh_hollow _ _ _ Hc c t Ht). done.
Qed.

Lemma collect_shown conns hw ks ids :
  conns_shown ks conns hw -> Forall (fun id => is_Some (conns !! id)) ids ->
  collect ids ((fun id => inr (record_fields (conns !! id) (hw !! id))) <$> ids) = Ret (inr (omap (fun id => conns !! id) ids)).
Proof.
  intros Hc. induction 1 as [|id ids [i Hi] _ IH]; [done|]. rewrite fmap_cons. cbn [collect]. rewrite IH. cbn [mbind outcome_bind omap list_omap].
  rewrite Hi. cbn [record_fields]. rewrite decide_False.
  - by rewrite (connection_read conns hw ks).
  - intros E. apply (record_fields_empty (Some i) None) in E as [? _]. done.
Qed.

Lemma pipe_reply_hashes conns hw ks ids rs :
  conns_shown ks conns hw -> pipe_reply ((fun id => HGetAll (connKey r id)) <$> ids) ks rs ->
  rs = (fun id => inr (record_fields (conns !! id) (hw !! id))) <$> ids.
Proof.
  intros Hc. revert rs. induction ids as [|id ids IH]; intros [|x rs]; try done. rewrite !fmap_cons. intros [H1 H2].
  cbn [redis_reply] in H1. pose proof (sh_conn _ _ _ Hc id) as Hs. unfold hkey in Hs. cbn [key_of] in Hs.
  rewrite Hs in H1. destruct H1 as (m & -> & ->). f_equal. by apply IH.
Qed.

(** ** The store over a server *)

Section Server.
Context {W : Type} (h : forall X, redis_port X -> W -> X * W) `{!RedisEngine h}.

Abbreviation now_keys w := (keyspace (server w)).

(** No key's time was up between two states. *)
Definition quiet (w w' : W) : Prop := lapsed (server w') = lapsed (server w).

Lemma port_lapsed X (e : redis_port X) w : (lapsed (server w) <= lapsed (server (h _ e w).2))%nat.
Proof.
  destruct e as [X c|X cs].
  - exact (cmd_step_lapsed _ _ _ _ (redis_do X c w)).
  - destruct (redis_pipe X cs w) as (rs & H & _). exact (pipe_steps_lapsed _ _ _ _ H).
Qed.

Lemma run_lapsed {A} (p : RedisM A) w : (lapsed (server w) <= lapsed (server (run h p w).2))%nat.
Proof.
  revert w. induction p as [o|X e k IH]; intros w; [done|]. cbn [run]. cbv zeta.
  etransitivity; [apply (port_lapsed _ e w)|apply IH].
Qed.

Lemma do_quiet {X} (c : redis_cmd X) w :
  quiet w (h _ (Do c) w).2 ->
  redis_reply c (now_keys w) (h _ (Do c) w).1 /\ now_keys (h _ (Do c) w).2 = redis_next c (now_keys w).
Proof. apply cmd_step_quiet, redis_do. Qed.

Lemma pipe_quiet {X} (cs : list (redis_cmd X)) w :
  quiet w (h _ (Pipe cs) w).2 ->
  exists rs, (h _ (Pipe cs) w).1 = (first_error rs, rs) /\ pipe_reply cs (now_keys w) rs /\
    now_keys (h _ (Pipe cs) w).2 = pipe_next cs (now_keys w).
Proof.
  intros Hq. destruct (redis_pipe X cs w) as (rs & H & E). exists rs. split; [done|]. by apply pipe_steps_quiet.
Qed.

(** A method: when nothing lapsed during it, it answers [x] and leaves the
    keyspace as [Q] says. *)
Definition does {A} (p : RedisM (error + A)) (w : W) (Q : A -> Keyspace -> Prop) : Prop :=
  let '(o, w') := run h p w in quiet w w' -> exists x, o = Ret (inr x) /\ Q x (now_keys w').

Lemma does_do {A} (c : redis_cmd A) w (Q : A -> Keyspace -> Prop) :
  (forall x, redis_reply c (now_keys w) x -> exists y, x = inr y /\ Q y (redis_next c (now_keys w))) ->
  does (call_ (Do c)) w Q.
Proof.
  intros H. unfold does. rewrite run_call. intros Hq. destruct (do_quiet c w Hq) as [Hr Hk].
  destruct (H _ Hr) as (y & -> & HQ). exists y. by rewrite Hk.
Qed.

Lemma does_pipe_exec cs w (Q : unit -> Keyspace -> Prop) :
  well_typed (now_keys w) -> Forall proper cs -> Q tt (pipe_next cs (now_keys w)) -> does (pipe_exec cs) w Q.
Proof.
  intros Hw Hp HQ. unfold does, pipe_exec. prun. intros Hq. destruct (pipe_quiet cs w Hq) as (rs & -> & Hr & Hk).
  exists tt. rewrite Hk. cbn. by rewrite (pipe_reply_typed _ _ _ Hr) by (by apply proper_pipe).
Qed.

Lemma does_do_bind {A B} (c : redis_cmd B) (k : error + B -> RedisM (error + A)) w (Q : A -> Keyspace -> Prop) :
  cmd_typed c (now_keys w) ->
  (forall y w1, redis_reply c (now_keys w) (inr y) -> now_keys w1 = redis_next c (now_keys w) -> does (k (inr y)) w1 Q) ->
  does (call_ (Do c) ≫= k) w Q.
Proof.
  intros Ht H. unfold does. rewrite run_mbind, run_call, run_then_Ret. destruct (run h (k _) _) as [o w'] eqn:E. intros Hq.
  pose proof (port_lapsed _ (Do c) w) as L1. pose proof (run_lapsed (k (h _ (Do c) w).1) (h _ (Do c) w).2) as L2.
  rewrite E in L2. cbn [snd] in L2. unfold quiet in Hq. destruct (do_quiet c w) as [Hr Hk]; [unfold quiet; lia|].
  destruct (redis_reply_typed _ _ _ Hr Ht) as [y Hy]. rewrite Hy in *. specialize (H y _ Hr Hk). unfold does in H. rewrite E in H.
  apply H. unfold quiet. lia.
Qed.

(** ** The methods *)

(** What a call may ask: instants in the years RFC 3339 can write, values the
    encoding accepts. *)
Definition in_contract {X} (op : ss_op X) : Prop :=
  match op with
  | RegisterConnection _ _ now => representable now
  | UpdateLastActivity _ now => representable now
  | SetUserAttribute _ _ v => storable v = true
  | _ => True
  end.

(** The answer of the specification; but a client with a hollow record that is
    not registered is answered with that. *)
Definition shown_reply {X} (op : ss_op X) (a : Sessions) (hollow : gmap string Z) : X -> Prop :=
  match op in ss_op X return X -> Prop with
  | GetConnection c => fun x => x = match s_conns a !! c with Some i => Some i | None => hollow_info c <$> hollow !! c end
  | op => spec_reply op a
  end.

Definition simulates {X} (op : ss_op X) (a : Sessions) (hollow : gmap string Z) (x : X) (ks : Keyspace) : Prop :=
  shown_reply (stored_op op) a hollow x /\
  shows ks (spec_next (stored_op op) a) (hollow_next (stored_op op) a hollow).

Section Methods_do.
Context (w : W) (a : Sessions) (hw : gmap string Z) (Hs : shows (now_keys w) a hw).

Local Definition typed_keys : well_typed (now_keys w) := shows_typed _ _ _ Hs.

Lemma room_members_reply k (P : string -> Prop) s x :
  skey (now_keys w) k = Some s -> (forall y, y ∈ s <-> P y) -> redis_reply (SMembers (key_of r k)) (now_keys w) x ->
  exists l, x = inr l /\ lists l P.
Proof.
  unfold skey. intros Hk HP. cbn [redis_reply]. rewrite Hk. intros (l & -> & Hl). exists l. split; [done|].
  by apply (lists_iff _ _ _ HP).
Qed.

Lemma client_rooms_reply c x :
  redis_reply (SMembers (clientRoomsKey r c)) (now_keys w) x -> exists l, x = inr l /\ lists l (fun rm => (rm, c) ∈ s_members a).
Proof.
  destruct Hs as (_ & _ & [_ H2]). destruct (H2 c) as (s & Hk & Hin). by apply (room_members_reply (KRooms c) _ s).
Qed.

Lemma do_Register c ip now :
  representable now -> does (rs_RegisterConnection r c ip now) w (simulates (RegisterConnection c ip now) a hw).
Proof.
  intros Hn. apply does_pipe_exec; [apply typed_keys| |split; [done|by apply register_shows]].
  repeat apply Forall_app_2; [apply Forall_singleton; by exists (KConn c)| |apply Forall_singleton; by exists KConns].
  destruct (0 <? rs_connTTL r); [apply Forall_singleton; by exists (KConn c)|constructor].
Qed.

Lemma proper_leaves c rooms : Forall proper ((fun room => SRem (roomKey r room) c) <$> rooms).
Proof. apply Forall_fmap, Forall_true. intros rm. by exists (KRoom rm). Qed.

Lemma do_Unregister c : does (rs_UnregisterConnection r c) w (simulates (UnregisterConnection c) a hw).
Proof.
  apply does_do_bind; [exact (typed_keys (KRooms c))|]. intros rooms w1 Hr Hk.
  destruct (client_rooms_reply c _ Hr) as (l & [= <-] & _ & Hl). cbn [redis_next] in Hk.
  apply does_pipe_exec; rewrite ?Hk; [apply typed_keys| |split; [done|by apply unregister_shows]].
  apply Forall_app_2; [|apply proper_leaves].
  repeat (apply Forall_cons_2); [by exists (KConn c)|by exists (KAttr c)|by exists (KRooms c)|by exists KConns|constructor].
Qed.

Lemma do_LeaveAll c : does (rs_LeaveAllRooms r c) w (simulates (LeaveAllRooms c) a hw).
Proof.
  apply does_do_bind; [exact (typed_keys (KRooms c))|]. intros rooms w1 Hr Hk.
  destruct (client_rooms_reply c _ Hr) as (l & [= <-] & _ & Hl). cbn [redis_next] in Hk.
  apply does_pipe_exec; rewrite ?Hk; [apply typed_keys| |split; [done|by apply leave_all_shows]].
  apply Forall_app_2; [apply proper_leaves|]. apply Forall_singleton. by exists (KRooms c).
Qed.

Lemma does_reply {A} (x : A) w1 (Q : A -> Keyspace -> Prop) : Q x (now_keys w1) -> does (mret (inr x)) w1 Q.
Proof. intros HQ. unfold does. prun. eauto. Qed.

Lemma do_GetConnection c : does (rs_GetConnection r c) w (simulates (GetConnection c) a hw).
Proof.
  apply does_do_bind; [exact (typed_keys (KConn c))|]. intros m w1 Hr Hk. apply does_reply. split; [|by rewrite Hk].
  destruct Hs as (Hc & _). pose proof (sh_conn _ _ _ Hc c) as Hm. unfold hkey in Hm. cbn [key_of] in Hm.
  cbn [redis_reply] in Hr. rewrite Hm in Hr. destruct Hr as (? & [= <-] & ->). exact (record_read _ _ _ c Hc).
Qed.

(** The pipeline that reads the records. *)
Lemma do_fetch (l : list string) w1 (Q : list ConnectionInfo -> Keyspace -> Prop) :
  Forall (fun id => is_Some (s_conns a !! id)) l -> now_keys w1 = now_keys w -> Q (omap (fun id => s_conns a !! id) l) (now_keys w) ->
  does (q ← call_ (Pipe ((fun id => HGetAll (connKey r id)) <$> l));
        match fst q with
        | Some e => mret (inl e)
        | None => lift (collect l (snd q))
        end) w1 Q.
Proof.
  intros Hl Hk HQ. destruct Hs as (Hc & _). unfold does. rewrite run_mbind, run_call, run_then_Ret.
  assert (first_error ((fun id => inr (record_fields (s_conns a !! id) (hw !! id))) <$> l : list (error + gmap string string)) = None) as Hno
    by (clear; induction l as [|? ? IH]; [done|exact IH]).
  assert (forall ks, pipe_next ((fun id => HGetAll (connKey r id)) <$> l) ks = ks) as Hks
    by (clear; induction l as [|? ? IH]; [done|exact IH]).
  destruct (run h _ _) as [o w'] eqn:E. intros Hq.
  match type of E with run h ?p ?w2 = _ => pose proof (run_lapsed p w2) as L2 end. rewrite E in L2. cbn [snd] in L2.
  pose proof (port_lapsed _ (Pipe ((fun id => HGetAll (connKey r id)) <$> l)) w1) as L1.
  unfold quiet in Hq. destruct (pipe_quiet ((fun id => HGetAll (connKey r id)) <$> l) w1) as (rs & Hrs & Hrep & Hk2); [unfold quiet; lia|].
  rewrite Hk in Hrep, Hk2. rewrite (pipe_reply_hashes (s_conns a) hw (now_keys w) l rs) in Hrs by done.
  rewrite Hno in Hrs. rewrite Hrs in E. cbn [fst snd] in E. rewrite run_lift, (collect_shown _ _ (now_keys w)) in E by done.
  injection E as <- <-. eexists. split; [reflexivity|]. by rewrite Hk2, Hks.
Qed.

Lemma do_GetAll : does (rs_GetAllConnections r) w (simulates GetAllConnections a hw).
Proof.
  apply does_do_bind; [exact (typed_keys KConns)|]. intros ids w1 Hr Hk. cbn [redis_next] in Hk.
  pose proof (proj1 Hs) as Hc. destruct (room_members_reply KConns (fun c => c ∈ dom (s_conns a)) _ _ (sh_conns _ _ _ Hc) (fun _ => iff_refl _) Hr)
    as (? & [= <-] & Hnd & Hin).
  assert (omap (fun id => s_conns a !! id) ids ≡ₚ (map_to_list (s_conns a)).*2) as Hperm.
  { assert (ids ≡ₚ elements (dom (s_conns a))) as ->.
    { apply NoDup_Permutation; [done|apply NoDup_elements|]. intros x. by rewrite Hin, elem_of_elements. }
    rewrite elements_dom_perm, omap_keys; [done|]. intros k i. apply elem_of_map_to_list. }
  destruct ids as [|id ids]; [apply does_reply; split; [exact Hperm|by rewrite Hk]|].
  apply do_fetch; [|done..]. apply Forall_forall. intros x Hx%Hin. by apply elem_of_dom.
Qed.

Lemma do_SetAttribute c n v :
  storable v = true -> does (rs_SetUserAttribute FormatFloat r c n v) w (simulates (SetUserAttribute c n v) a hw).
Proof.
  intros Hv. destruct (stored_value FormatFloat ParseFloat format_float_number parse_format_float v Hv) as (bs & Hm & Hu).
  unfold rs_SetUserAttribute. rewrite Hm. apply does_do. intros x Hr.
  destruct (redis_reply_typed _ _ _ Hr (typed_keys (KAttr c))) as [[] ->]. exists tt. split; [done|]. split; [done|].
  apply set_attr_shows; [|exact Hs]. unfold reads, lit. by rewrite bytes_of_string_of_bytes.
Qed.

Lemma do_GetAttribute c n : does (rs_GetUserAttribute ParseFloat r c n) w (simulates (GetUserAttribute c n) a hw).
Proof.
  apply does_do_bind; [exact (typed_keys (KAttr c))|]. intros m w1 Hr Hk. cbn [redis_next] in Hk.
  destruct Hs as (_ & Ha & _). destruct (Ha c) as (fields & Hf & Hrows). specialize (Hrows n). unfold hkey in Hf. cbn [key_of] in Hf.
  cbn [redis_reply] in Hr. rewrite Hf in Hr. destruct Hr as (? & [= <-] & ->).
  destruct (fields !! n) as [txt|], (s_attrs a !! (c, n)) as [v|] eqn:Hv; try done.
  - unfold does. rewrite run_lift. intros _. cbn in Hrows. unfold reads, lit in Hrows. rewrite Hrows. eexists. split; [reflexivity|].
    split; [cbn; by rewrite Hv|by rewrite Hk].
  - apply does_reply. split; [cbn; by rewrite Hv|by rewrite Hk].
Qed.

Lemma do_AttributeNames c : does (rs_GetUserAttributeNames r c) w (simulates (GetUserAttributeNames c) a hw).
Proof.
  apply does_do. intros x Hr. pose proof Hs as (_ & Ha & _). destruct (Ha c) as (fields & Hf & Hrows). unfold hkey in Hf. cbn [key_of] in Hf.
  cbn [redis_reply] in Hr. rewrite Hf in Hr. destruct Hr as (l & -> & Hl). exists l. split; [done|]. split; [|exact Hs].
  cbn [stored_op shown_reply spec_reply]. apply (lists_iff _ _ _ (fun n => row_holds_is_Some _ _ _ (Hrows n)) Hl).
Qed.

(** A command whose answer is only an error. *)
Lemma does_write (c : redis_cmd unit) (Q : unit -> Keyspace -> Prop) :
  proper c -> Q tt (redis_next c (now_keys w)) -> does (call_ (Do c)) w Q.
Proof.
  intros Hp HQ. apply does_do. intros x Hr. destruct (redis_reply_typed _ _ _ Hr) as [[] ->]; [|by exists tt].
  apply proper_typed; [apply typed_keys|done].
Qed.
End Methods_do.

(** ** Records without a time to live *)

Definition no_ttl X (e : redis_port X) : Prop :=
  match e with
  | Do c => sets_ttl c = false
  | Pipe cs => Forall (fun c => sets_ttl c = false) cs
  end.

Lemma collect_fueled ids cmds : fueled (collect ids cmds).
Proof.
  revert cmds. induction ids as [|id ids IH]; intros [|[e|m] cmds]; cbn; try done.
  apply fueled_bind; [apply IH|]. intros [e|l]; done.
Qed.

Lemma rs_run_no_ttl {X} (op : ss_op X) :
  rs_connTTL r <= 0 -> invoked no_ttl (rs_run FormatFloat ParseFloat r op).
Proof.
  intros Ht.
  assert (forall c (rooms : list string), Forall (fun cmd : redis_cmd unit => sets_ttl cmd = false) ((fun room => SRem (roomKey r room) c) <$> rooms)) as Hl
    by (intros; by apply Forall_fmap, Forall_true).
  destruct op; cbn [rs_run]; try (apply invoked_call; reflexivity).
  - unfold rs_RegisterConnection. rewrite (proj2 (Z.ltb_ge _ _)) by lia. split; [|done]. by repeat constructor.
  - split; [done|]. intros [e|rooms]; [done|]. split; [|done]. apply Forall_app_2; [by repeat constructor|apply Hl].
  - split; [done|]. by intros [e|m].
  - split; [done|]. intros [e|[|id ids]]; [done..|]. split; [by apply Forall_fmap, Forall_true|].
    intros [[e|] l]; [done|]. apply invoked_lift, collect_fueled.
  - unfold rs_SetUserAttribute. apply invoked_mbind; [apply invoked_lift, fueled_MarshalLValue|]. by intros [e|bs].
  - split; [done|]. intros [e|[raw|]]; [done| |done]. apply invoked_lift.
    destruct (UnmarshalLValue_returns ParseFloat (bytes_of_string raw)) as [y ->]. done.
  - split; [|done]. by repeat constructor.
  - split; [|done]. by repeat constructor.
  - split; [done|]. intros [e|rooms]; [done|]. split; [|done]. apply Forall_app_2; [apply Hl|by repeat constructor].
Qed.

Lemma persistent_quiet {X} (op : ss_op X) w :
  rs_connTTL r <= 0 -> volatile (server w) = ∅ ->
  let w' := (run h (rs_run FormatFloat ParseFloat r op) w).2 in quiet w w' /\ volatile (server w') = ∅.
Proof.
  intros Ht Hv. apply (run_invariant h no_ttl (fun w' => quiet w w' /\ volatile (server w') = ∅)); [|by apply rs_run_no_ttl|done].
  intros Y [Z c|Z cs] w1 He [Hq Hv1]; cbn [no_ttl] in He.
  - destruct (cmd_step_persistent _ _ _ _ (redis_do Z c w1) He Hv1) as [L ?]. split; [|done]. unfold quiet in *. lia.
  - destruct (redis_pipe Z cs w1) as (rs & Hp & _). destruct (pipe_steps_persistent _ _ _ _ Hp He Hv1) as [L ?].
    split; [|done]. unfold quiet in *. lia.
Qed.

(** C27. The Redis session store implements the abstract session store, for
    instants RFC 3339 can write and attribute values the encoding accepts
    ([in_contract]): as long as no record's time to live is up during the call
    (which holds throughout when connections are given none), every method
    succeeds, answers as the specification does on whole seconds and encoded
    values, and leaves the keyspace showing the sessions the specification is left
    with. One difference is kept track of, in the map [hollow] of the clients that
    had activity recorded while they were not registered (the server does that with the
    old id of a connection that has just logged on): [GetConnection] of such a
    client answers with a hollow record until the client is registered or
    unregistered, where the specification has none. Everything else, the other
    clients and the list of connections included, is as specified. *)
Theorem redis_store_refines {X} (op : ss_op X) w a hollow :
  shows (now_keys w) a hollow -> in_contract op ->
  let '(o, w') := run h (rs_run FormatFloat ParseFloat r op) w in
  quiet w w' \/ (rs_connTTL r <= 0 /\ volatile (server w) = ∅) ->
  exists x, o = Ret (inr x) /\
    match op in ss_op X return X -> Prop with
    | GetConnection c => fun x => x = match s_conns a !! c with Some i => Some i | None => hollow_info c <$> hollow !! c end
    | op => spec_reply (stored_op op) a
    end x /\
    shows (now_keys w') (spec_next (stored_op op) a)
      match op with
      | RegisterConnection c _ _ | UnregisterConnection c => delete c hollow
      | UpdateLastActivity c now => if s_conns a !! c then hollow else <[c := whole_second now]> hollow
      | _ => hollow
      end.
Proof.
  intros Hs Hc.
  assert (does (rs_run FormatFloat ParseFloat r op) w (simulates op a hollow)) as Hd.
  { destruct op; cbn [rs_run in_contract] in *.
    - by apply do_Register.
    - by apply do_Unregister.
    - by apply do_GetConnection.
    - by apply do_GetAll.
    - apply does_do. intros x Hr. pose proof (sh_conns _ _ _ (proj1 Hs)) as Hk. unfold skey in Hk. cbn [key_of] in Hk.
      cbn [redis_reply] in Hr. rewrite Hk in Hr. destruct Hr as (b & -> & ->). eexists. split; [reflexivity|]. split; [|done].
      cbn. apply bool_decide_ext. by rewrite elem_of_dom.
    - apply (does_write _ a hollow Hs); [by exists (KConn clientID)|]. split; [done|]. by apply activity_shows.
    - by apply do_SetAttribute.
    - by apply do_GetAttribute.
    - by apply do_AttributeNames.
    - apply (does_write _ a hollow Hs); [by exists (KAttr clientID)|]. split; [done|]. by apply delete_attr_shows.
    - apply does_pipe_exec; [by eapply shows_typed| |split; [done|by apply join_shows]].
      repeat apply Forall_cons_2; [by exists (KRoom roomName)|by exists (KRooms clientID)|constructor].
    - apply does_pipe_exec; [by eapply shows_typed| |split; [done|by apply leave_shows]].
      repeat apply Forall_cons_2; [by exists (KRoom roomName)|by exists (KRooms clientID)|constructor].
    - apply does_do. intros x Hr. pose proof Hs as (_ & _ & [H1 _]). destruct (H1 roomName) as (s & Hk & Hin).
      destruct (room_members_reply w (KRoom roomName) _ s x Hk Hin Hr) as (l & -> & Hl). eexists. by split.
    - apply does_do. intros x Hr. destruct (client_rooms_reply w a hollow Hs _ _ Hr) as (l & -> & Hl). eexists. by split.
    - by apply do_LeaveAll. }
  unfold does in Hd. pose proof (persistent_quiet op w) as Hp. destruct (run h _ w) as [o w'].
  intros Hq. assert (exists x, o = Ret (inr x) /\ simulates op a hollow x (now_keys w')) as (x & -> & Hx & Hs')
    by (destruct Hq as [Hq|[Ht Hv]]; [by apply Hd|by apply Hd, Hp]).
  exists x. split; [done|]. by destruct op.
Qed.

(** When a record's time to live is up while its connection lives on (the
    store never renews it), the next message of the client writes a record with
    the instant of its last activity only: the client then has a session without
    an address, connected at the zero time, and this record never expires. *)
Theorem lapsed_session_hollow c now w :
  representable now ->
  hash_at (now_keys w) (connKey r c) = Some ∅ -> connKey r c ∉ volatile (server w) ->
  let w1 := (run h (rs_UpdateLastActivity r c now) w).2 in
  let '(o, w2) := run h (rs_GetConnection r c) w1 in
  quiet w w2 ->
  o = Ret (inr (Some (mkConnectionInfo c "" zero_time (whole_second now)))) /\ connKey r c ∉ volatile (server w2).
Proof.
  clear format_float_number parse_format_float FormatFloat ParseFloat.
  intros Hn Hk Hv. unfold rs_UpdateLastActivity. rewrite run_call. cbn [snd]. unfold rs_GetConnection. prun.
  set (c1 := HSet _ _). set (w1 := (h _ (Do c1) w).2). set (c2 := HGetAll _). intros Hq.
  pose proof (port_lapsed _ (Do c1) w) as L1. pose proof (port_lapsed _ (Do c2) w1) as L2. fold w1 in L1. unfold quiet in Hq.
  destruct (do_quiet c1 w) as [_ Hk1]; [unfold quiet; fold w1; lia|]. fold w1 in Hk1.
  destruct (do_quiet c2 w1) as [Hr _]; [unfold quiet; lia|].
  assert (hash_at (now_keys w1) (connKey r c) = Some {["last_activity"%string := time_text now]}) as Hf.
  { rewrite Hk1. unfold c1. cbn [redis_next]. unfold on_hash. by rewrite Hk, hash_at_put, decide_True. }
  unfold c2 in Hr at 1. cbn [redis_reply] in Hr. rewrite Hf in Hr. destruct Hr as (m & -> & ->).
  rewrite decide_False by (intros E; apply (f_equal (lookup "last_activity"%string)) in E; by rewrite lookup_singleton_eq in E).
  split.
  - do 3 f_equal. unfold connection_info. f_equal. unfold read_time. rewrite lookup_singleton_eq. cbn [from_option id].
    unfold time_text, id. by rewrite bytes_of_string_of_bytes, parse_format.
  - destruct (redis_do _ c2 w1) as (g2 & _ & _ & ->). destruct (redis_do _ c1 w) as (g1 & _ & _ & E1).
    unfold w1. rewrite E1. unfold c1, c2. cbn. set_solver.
Qed.
End Server.
End Refinement.

(** ** Concrete runs *)

Lemma empty_shows ParseFloat r ks :
  (forall k, ks !! key_of r k = None) -> shows ParseFloat r ks NewSessions ∅.
Proof.
  intros H. unfold shows, NewSessions. cbn [s_conns s_attrs s_members].
  assert (forall k, hkey r ks k = Some ∅) as Hh by (intros k; unfold hkey, hash_at; by rewrite H).
  assert (forall k, skey r ks k = Some ∅) as Hk by (intros k; unfold skey, set_at; by rewrite H).
  split_and!.
  - split; [rewrite Hk; by rewrite dom_empty_L|intros c; by rewrite Hh, !lookup_empty|intros c i; by rewrite lookup_empty..].
  - intros c. exists ∅. split; [done|]. intros n. by rewrite !lookup_empty.
  - split; intros x; exists ∅; (split; [done|]); set_solver.
Qed.

Definition musgo : RedisSessionStore := NewRedisSessionStoreWithClient "musgo" 3600.
Definition fresh_server : Server := mkServer ∅ ∅ 0.

(** A registration at a fraction of a second, read back. *)
Lemma redis_store_refines_witness :
  let w1 := (run mini_redis (rs_run decimal_bits read_bits musgo (RegisterConnection "alice" "10.0.0.1" 1700000000123456789)) fresh_server).2 in
  (run mini_redis (rs_run decimal_bits read_bits musgo (GetConnection "alice")) w1).1 =
  Ret (inr (Some (mkConnectionInfo "alice" "10.0.0.1" 1700000000000000000 1700000000000000000))).
Proof.
  set (op1 := RegisterConnection "alice" "10.0.0.1" 1700000000123456789).
  pose proof (redis_store_refines decimal_bits read_bits (fun f _ => num_ok_Itoa f) read_decimal_bits musgo mini_redis op1 fresh_server NewSessions ∅) as H1.
  destruct H1 as (x1 & _ & _ & H1).
  { apply empty_shows. intros k. apply lookup_empty. }
  { split; vm_compute; discriminate. }
  { left. vm_compute. reflexivity. }
  set (w1 := (run mini_redis _ fresh_server).2).
  pose proof (redis_store_refines decimal_bits read_bits (fun f _ => num_ok_Itoa f) read_decimal_bits musgo mini_redis (GetConnection "alice") w1 _ _ H1 I) as H2.
  destruct H2 as (x2 & E2 & -> & _); [left; vm_compute; reflexivity|]. exact E2.
Defined.

(** A logon: the connection's first id is unregistered, and the activity of the
    message that did it is recorded under that id (tcp_server.go reads the id
    before the message is handled). The record stays, without a time to live. *)
Example logon_leaves_hollow :
  let do {X} (op : ss_op X) w := (run mini_redis (rs_run decimal_bits read_bits musgo op) w).2 in
  let w := do (UpdateLastActivity "10.0.0.1:4000" 1700000001000000000)
             (do (UnregisterConnection "10.0.0.1:4000")
               (do (RegisterConnection "10.0.0.1:4000" "10.0.0.1" 1700000000000000000) fresh_server)) in
  (run mini_redis (rs_run decimal_bits read_bits musgo (GetConnection "10.0.0.1:4000")) w).1 =
    Ret (inr (Some (hollow_info "10.0.0.1:4000" 1700000001000000000))) /\
  (run mini_redis (rs_run decimal_bits read_bits musgo (IsConnected "10.0.0.1:4000")) w).1 = Ret (inr false) /\
  volatile w = ∅.
Proof. vm_compute. repeat split. Qed.

(** The record of a client whose hour is up. *)
Definition lapsed_server : Server := mkServer {["musgo:conns"%string := RSet {["alice"%string]}]} ∅ 1.

Lemma lapsed_session_hollow_witness :
  let w1 := (run mini_redis (rs_UpdateLastActivity musgo "alice" 1700003700000000000) lapsed_server).2 in
  (run mini_redis (rs_GetConnection musgo "alice") w1).1 =
  Ret (inr (Some (mkConnectionInfo "alice" "" zero_time 1700003700000000000))).
Proof.
  assert (representable 1700003700000000000) as Hr by (split; vm_compute; discriminate).
  pose proof (lapsed_session_hollow musgo mini_redis "alice" 1700003700000000000 lapsed_server Hr eq_refl) as H.
  destruct H as [E _]; [set_solver|vm_compute; reflexivity|exact E].
Defined.
