(* ===== verification/Cache.v ===== *)
(** * The in-memory cache (outbound/memory_cache.go)

    Byte values with an optional expiry, string sets, and the periodic sweep that
    removes expired entries. Every method runs under the cache's mutex and reads
    the clock, so a call is modelled as one step at a time [now]. The abstract
    specification keeps every value ever set and compares expiries on reading;
    the cache refines it, which says that sweeping is invisible. *)

From Stdlib Require Import ZArith Lia Sorted.
From stdpp Require Import base list strings gmap option sets.
From S2P Require Import Prelude GoFmt LValue LExtract LParse LRoundtrip Smus Effects Ports SessionStore.

Open Scope Z_scope.

(** ** Data *)

Record cacheEntry := mkEntry {
  e_value : bytes;
  e_expiresAt : option Z
}.

(** A zero [expiresAt] is [None]. *)
Definition expired (now : Z) (e : cacheEntry) : bool :=
  match e_expiresAt e with
  | None => false
  | Some t => t <? now
  end.

(** The maps are nil after [Close]: reading a nil map is as reading an empty
    one, writing to it panics, deleting from it does nothing. *)
Record MemoryCache := mkCache {
  c_entries : option (gmap string cacheEntry);
  c_sets : option (gmap string (gset string));
  c_closed : bool;
  c_writeCount : Z;
  c_sweepInterval : Z
}.

Definition NewMemoryCache : MemoryCache := mkCache (Some ∅) (Some ∅) false 0 1000.

Definition with_entries (c : MemoryCache) (e : option (gmap string cacheEntry)) : MemoryCache :=
  mkCache e (c_sets c) (c_closed c) (c_writeCount c) (c_sweepInterval c).
Definition with_sets (c : MemoryCache) (s : option (gmap string (gset string))) : MemoryCache :=
  mkCache (c_entries c) s (c_closed c) (c_writeCount c) (c_sweepInterval c).
Definition with_count (c : MemoryCache) (n : Z) : MemoryCache :=
  mkCache (c_entries c) (c_sets c) (c_closed c) n (c_sweepInterval c).

(** [m[k]] and [m[k] = v] on a map that may be nil. *)
Definition map_get {A} (m : option (gmap string A)) (k : string) : option A := m ≫= (.!! k).
Definition map_set {A} (m : option (gmap string A)) (k : string) (v : A) :
    outcome (option (gmap string A)) :=
  match m with Some m => Ret (Some (<[k := v]> m)) | None => Panic end.

(** [ports.Cache], without the lock (CacheLock.v). *)
Inductive cache_op : Type -> Type :=
| CGet (key : string) : cache_op (option bytes)
| CSet (key : string) (value : bytes) (ttl : Z) : cache_op unit
| CIncrement (key : string) : cache_op Z
| CDelete (key : string) : cache_op unit
| CExists (key : string) : cache_op bool
| CSetAdd (key member : string) : cache_op unit
| CSetAddOnce (key member : string) : cache_op bool
| CSetRemove (key member : string) : cache_op unit
| CSetMembers (key : string) : cache_op (list string)
| CSetIsMember (key member : string) : cache_op bool
| CClose : cache_op unit.

(** ** Methods *)

Section Methods.
Context `{MapOrder}.

Definition mc_live (now : Z) (c : MemoryCache) (key : string) : option cacheEntry :=
  match map_get (c_entries c) key with
  | Some e => if expired now e then None else Some e
  | None => None
  end.

Definition mc_Get (now : Z) (c : MemoryCache) (key : string) : option bytes :=
  e_value <$> mc_live now c key.

Definition mc_sweep (now : Z) (c : MemoryCache) : MemoryCache :=
  with_entries c (filter (fun kv => expired now kv.2 = false) <$> c_entries c).

Definition mc_Set (now : Z) (c : MemoryCache) (key : string) (value : bytes) (ttl : Z) :
    outcome MemoryCache :=
  let entry := mkEntry value (if 0 <? ttl then Some (now + ttl) else None) in
  entries ← map_set (c_entries c) key entry;
  let c := with_count (with_entries c entries) (c_writeCount c + 1) in
  if c_sweepInterval c <=? c_writeCount c then Ret (mc_sweep now (with_count c 0)) else Ret c.

Definition mc_Increment (now : Z) (c : MemoryCache) (key : string) :
    outcome ((error + Z) * MemoryCache) :=
  match map_get (c_sets c) key with
  | Some _ => Ret (inl (Errorf "cache increment: key holds a set"), c)
  | None =>
      let entry := mc_live now c key in
      let parsed := match entry with
                    | None => inr 0
                    | Some e => match ParseInt (e_value e) with
                                | inl r => inl (Wrapf "cache increment" (NumError (e_value e) r))
                                | inr z => inr z
                                end
                    end in
      match parsed with
      | inl err => Ret (inl err, c)
      | inr value =>
          if value =? max_int64 then Ret (inl (Errorf "cache increment: integer overflow"), c)
          else
            let value := value + 1 in
            let entry := mkEntry (bytes_of_string (Itoa value)) (entry ≫= e_expiresAt) in
            entries ← map_set (c_entries c) key entry;
            Ret (inr value, with_entries c entries)
      end
  end.

Definition mc_Delete (c : MemoryCache) (key : string) : MemoryCache :=
  with_sets (with_entries c (delete key <$> c_entries c)) (delete key <$> c_sets c).

Definition mc_Exists (now : Z) (c : MemoryCache) (key : string) : bool :=
  match mc_live now c key with Some _ => true | None => false end.

(** The set is created and put in the map before the member is looked up. *)
Definition mc_SetAddOnce (c : MemoryCache) (key member : string) : outcome (bool * MemoryCache) :=
  c ← match map_get (c_sets c) key with
      | Some _ => Ret c
      | None => s ← map_set (c_sets c) key ∅; Ret (with_sets c s)
      end;
  let s := default ∅ (map_get (c_sets c) key) in
  if decide (member ∈ s) then Ret (false, c)
  else s' ← map_set (c_sets c) key ({[member]} ∪ s); Ret (true, with_sets c s').

Definition mc_SetAdd (c : MemoryCache) (key member : string) : outcome MemoryCache :=
  r ← mc_SetAddOnce c key member; Ret r.2.

Definition mc_SetRemove (c : MemoryCache) (key member : string) : outcome MemoryCache :=
  match map_get (c_sets c) key with
  | None => Ret c
  | Some s =>
      let s := s ∖ {[member]} in
      if decide (size s = 0%nat) then Ret (with_sets c (delete key <$> c_sets c))
      else sets ← map_set (c_sets c) key s; Ret (with_sets c sets)
  end.

Definition mc_SetMembers (c : MemoryCache) (key : string) : list string :=
  match map_get (c_sets c) key with None => [] | Some s => range s end.

Definition mc_SetIsMember (c : MemoryCache) (key member : string) : bool :=
  match map_get (c_sets c) key with None => false | Some s => bool_decide (member ∈ s) end.

Definition mc_Close (c : MemoryCache) : MemoryCache :=
  mkCache None None true (c_writeCount c) (c_sweepInterval c).

(** One call at time [now]: the answer, or a panic, and the cache after it. *)
Definition cache_step {X} (now : Z) (op : cache_op X) (c : MemoryCache) :
    outcome (error + X) * MemoryCache :=
  match op in cache_op X return outcome (error + X) * MemoryCache with
  | CGet k => (Ret (inr (mc_Get now c k)), c)
  | CSet k v ttl => match mc_Set now c k v ttl with Ret c' => (Ret (inr tt), c') | _ => (Panic, c) end
  | CIncrement k => match mc_Increment now c k with Ret r => (Ret r.1, r.2) | _ => (Panic, c) end
  | CDelete k => (Ret (inr tt), mc_Delete c k)
  | CExists k => (Ret (inr (mc_Exists now c k)), c)
  | CSetAdd k m => match mc_SetAdd c k m with Ret c' => (Ret (inr tt), c') | _ => (Panic, c) end
  | CSetAddOnce k m => match mc_SetAddOnce c k m with Ret r => (Ret (inr r.1), r.2) | _ => (Panic, c) end
  | CSetRemove k m => match mc_SetRemove c k m with Ret c' => (Ret (inr tt), c') | _ => (Panic, c) end
  | CSetMembers k => (Ret (inr (mc_SetMembers c k)), c)
  | CSetIsMember k m => (Ret (inr (mc_SetIsMember c k m)), c)
  | CClose => (Ret (inr tt), mc_Close c)
  end.
End Methods.

(** ** The abstract specification

    Values with their deadline, never swept; memberships as pairs; and whether
    the cache has been closed, after which it is empty and writing panics. *)

Record Cache := mkCacheSpec {
  s_vals : gmap string cacheEntry;
  s_mems : gset (string * string);
  s_open : bool
}.

Definition NewCache : Cache := mkCacheSpec ∅ ∅ true.

Definition s_live (now : Z) (a : Cache) (key : string) : option cacheEntry :=
  e ← s_vals a !! key; if expired now e then None else Some e.

Definition holds_set (a : Cache) (key : string) : bool :=
  bool_decide (filter (fun km => km.1 = key) (s_mems a) <> ∅).

(** The counter under a key: a missing or expired one counts from zero. *)
Definition s_counter (now : Z) (a : Cache) (key : string) : error + Z :=
  if holds_set a key then inl (Errorf "cache increment: key holds a set")
  else
    match s_live now a key with
    | None => inr 0
    | Some e =>
        match ParseInt (e_value e) with
        | inl r => inl (Wrapf "cache increment" (NumError (e_value e) r))
        | inr z => if z =? max_int64 then inl (Errorf "cache increment: integer overflow") else inr z
        end
    end.

Definition s_set_vals (a : Cache) (f : gmap string cacheEntry -> gmap string cacheEntry) : Cache :=
  mkCacheSpec (f (s_vals a)) (s_mems a) (s_open a).
Definition s_set_mems (a : Cache) (f : gset (string * string) -> gset (string * string)) : Cache :=
  mkCacheSpec (s_vals a) (f (s_mems a)) (s_open a).

Definition cache_next {X} (now : Z) (op : cache_op X) (a : Cache) : Cache :=
  match op with
  | CSet k v ttl =>
      if s_open a
      then s_set_vals a (<[k := mkEntry v (if 0 <? ttl then Some (now + ttl) else None)]>) else a
  | CIncrement k =>
      match s_counter now a k with
      | inr z =>
          if s_open a
          then s_set_vals a (<[k := mkEntry (bytes_of_string (Itoa (z + 1))) (s_live now a k ≫= e_expiresAt)]>)
          else a
      | inl _ => a
      end
  | CDelete k =>
      mkCacheSpec (delete k (s_vals a)) (filter (fun km => km.1 <> k) (s_mems a)) (s_open a)
  | CSetAdd k m | CSetAddOnce k m => if s_open a then s_set_mems a (fun s => {[(k, m)]} ∪ s) else a
  | CSetRemove k m => s_set_mems a (fun s => s ∖ {[(k, m)]})
  | CClose => mkCacheSpec ∅ ∅ false
  | CGet _ | CExists _ | CSetMembers _ | CSetIsMember _ _ => a
  end.

(** Allowed answers. *)
Definition cache_reply {X} (now : Z) (op : cache_op X) (a : Cache) : outcome (error + X) -> Prop :=
  match op in cache_op X return outcome (error + X) -> Prop with
  | CGet k => fun r => r = Ret (inr (e_value <$> s_live now a k))
  | CExists k => fun r => r = Ret (inr (bool_decide (is_Some (s_live now a k))))
  | CSet _ _ _ | CSetAdd _ _ => fun r => r = if s_open a then Ret (inr tt) else Panic
  | CIncrement k => fun r =>
      r = match s_counter now a k with
          | inl e => Ret (inl e)
          | inr z => if s_open a then Ret (inr (z + 1)) else Panic
          end
  | CSetAddOnce k m => fun r =>
      r = if s_open a then Ret (inr (bool_decide ((k, m) ∉ s_mems a))) else Panic
  | CDelete _ | CSetRemove _ _ | CClose => fun r => r = Ret (inr tt)
  | CSetMembers k => fun r => exists l, r = Ret (inr l) /\ lists l (fun m => (k, m) ∈ s_mems a)
  | CSetIsMember k m => fun r => r = Ret (inr (bool_decide ((k, m) ∈ s_mems a)))
  end.

(** ** The refinement

    [tracks now c a]: what the cache holds is what the specification holds, bar
    entries that had expired by [now]. *)

Definition vals_track (now : Z) (m : option (gmap string cacheEntry)) (s : gmap string cacheEntry) : Prop :=
  (forall k e, map_get m k = Some e -> s !! k = Some e) /\
  (forall k e, s !! k = Some e -> map_get m k = None -> expired now e = true).

Definition sets_track (m : option (gmap string (gset string))) (s : gset (string * string)) : Prop :=
  (forall k x, (k, x) ∈ s <-> x ∈ default ∅ (map_get m k)) /\ (forall k, map_get m k <> Some ∅).

Definition tracks (now : Z) (c : MemoryCache) (a : Cache) : Prop :=
  (if s_open a then is_Some (c_entries c) /\ is_Some (c_sets c)
   else c_entries c = None /\ c_sets c = None) /\
  vals_track now (c_entries c) (s_vals a) /\ sets_track (c_sets c) (s_mems a).

Lemma expired_later now now' e : now <= now' -> expired now e = true -> expired now' e = true.
Proof. unfold expired. case_match; [|done]. rewrite !Z.ltb_lt. lia. Qed.

Lemma tracks_later now now' c a : now <= now' -> tracks now c a -> tracks now' c a.
Proof.
  intros Hle (H1 & (H2 & H3) & H4). repeat split; auto; try apply H4.
  intros k e Ha Hc. eapply expired_later; eauto.
Qed.

Lemma tracks_live now c a k : tracks now c a -> mc_live now c k = s_live now a k.
Proof.
  intros (_ & (H3 & H4) & _). unfold mc_live, s_live.
  destruct (map_get (c_entries c) k) as [e|] eqn:Hc.
  - by rewrite (H3 _ _ Hc).
  - destruct (s_vals a !! k) as [e|] eqn:Ha; [|done]. simpl. by rewrite (H4 _ _ Ha Hc).
Qed.

(** Keys of the set table are exactly the keys with a member. *)
Lemma tracks_holds now c a k :
  tracks now c a -> holds_set a k = bool_decide (is_Some (map_get (c_sets c) k)).
Proof.
  intros (_ & _ & H5 & H6). unfold holds_set. apply bool_decide_ext. split.
  - intros Hne. apply set_choose_L in Hne as [[k' m] Hm]. apply elem_of_filter in Hm as [Hk Hm].
    cbn in Hk. subst. apply H5 in Hm. by destruct (map_get (c_sets c) k).
  - intros [s Hs] He. destruct (set_choose_or_empty s) as [[m Hm]|Hs0].
    + assert ((k, m) ∈ filter (fun km : string * string => km.1 = k) (s_mems a)) as Hin.
      { apply elem_of_filter. split; [done|]. apply H5. by rewrite Hs. }
      rewrite He in Hin. set_solver.
    + apply (H6 k). rewrite Hs. f_equal. by apply leibniz_equiv.
Qed.

Lemma NewCache_tracks now : tracks now NewMemoryCache NewCache.
Proof.
  unfold tracks, vals_track, sets_track, NewMemoryCache, NewCache, map_get. cbn.
  repeat split; eauto; intros; set_solver.
Qed.

Lemma map_get_set {A} (m : option (gmap string A)) k v k' :
  is_Some m -> map_get (insert k v <$> m) k' = if decide (k = k') then Some v else map_get m k'.
Proof. intros [m' ->]. unfold map_get. cbn. apply lookup_insert. Qed.

Lemma map_get_delete {A} (m : option (gmap string A)) k k' :
  map_get (delete k <$> m) k' = if decide (k = k') then None else map_get m k'.
Proof. destruct m; unfold map_get; cbn; [apply lookup_delete|by case_decide]. Qed.

Lemma map_set_some {A} (m : option (gmap string A)) k v :
  is_Some m -> map_set m k v = Ret (insert k v <$> m).
Proof. by intros [m' ->]. Qed.

Lemma vals_insert now m s k v :
  is_Some m -> vals_track now m s -> vals_track now (insert k v <$> m) (<[k := v]> s).
Proof.
  intros Hm [H1 H2]. split; intros k' e; rewrite map_get_set, lookup_insert by done;
    case_decide; naive_solver.
Qed.

Lemma vals_delete now m s k : vals_track now m s -> vals_track now (delete k <$> m) (delete k s).
Proof.
  intros [H1 H2]. split; intros k' e; rewrite map_get_delete, lookup_delete;
    case_decide; naive_solver.
Qed.

Lemma vals_sweep now m s :
  vals_track now m s ->
  vals_track now (filter (fun kv : string * cacheEntry => expired now kv.2 = false) <$> m) s.
Proof.
  intros [H1 H2]. destruct m as [m|]; [|done]. unfold vals_track, map_get in *. cbn in *. split; intros k e.
  - rewrite map_lookup_filter_Some. naive_solver.
  - intros Hs. rewrite map_lookup_filter_None. intros [Hn|Hn]; [eauto|].
    destruct (m !! k) as [e'|] eqn:He; [|eauto].
    assert (e' = e) as -> by (apply H1 in He; congruence).
    specialize (Hn e eq_refl). cbn in Hn. by destruct (expired now e).
Qed.

Lemma sets_add m s k x :
  is_Some m -> sets_track m s ->
  sets_track (insert k ({[x]} ∪ default ∅ (map_get m k)) <$> m) ({[(k, x)]} ∪ s).
Proof.
  intros Hm [H1 H2]. split.
  - intros k' y. rewrite map_get_set by done. rewrite elem_of_union, elem_of_singleton, H1.
    case_decide; subst; cbn; set_solver.
  - intros k'. rewrite map_get_set by done. case_decide; [|done]. intros [= He]. set_solver.
Qed.

(** Replacing a set by a non-empty one with one member less, or dropping it. *)
Lemma sets_remove m s k x s0 m' :
  sets_track m s -> map_get m k = Some s0 ->
  (forall k', map_get m' k' = if decide (k = k') then (if decide (size (s0 ∖ {[x]}) = 0%nat) then None
                                                   else Some (s0 ∖ {[x]})) else map_get m k') ->
  sets_track m' (s ∖ {[(k, x)]}).
Proof.
  intros [H1 H2] Hk Hm'. split.
  - intros k' y. rewrite Hm', elem_of_difference, H1, elem_of_singleton, pair_equal_spec.
    destruct (decide (k = k')) as [<-|Hne];
      [|split; [by intros [? _]|intros ?; split; [done|by intros [-> _]]]].
    rewrite Hk. cbn. case_decide as Hz; [apply size_empty_inv in Hz|]; cbn; set_solver.
  - intros k'. rewrite Hm'. destruct (decide (k = k')) as [<-|Hne]; [|apply H2].
    case_decide as Hz; [done|]. intros [= He]. by rewrite He, size_empty in Hz.
Qed.

Lemma sets_delete m s k :
  sets_track m s -> sets_track (delete k <$> m) (filter (fun kx : string * string => kx.1 <> k) s).
Proof.
  intros [H1 H2]. split.
  - intros k' y. rewrite elem_of_filter, map_get_delete, H1. cbn. case_decide; cbn; set_solver.
  - intros k'. rewrite map_get_delete. by case_decide.
Qed.

Lemma sets_track_absent m s k x : sets_track m s -> map_get m k = None -> (k, x) ∉ s.
Proof. intros [H1 _] Hk Hin. apply H1 in Hin. rewrite Hk in Hin. set_solver. Qed.

(** ** Every call refines the specification *)

Section Steps.
Context `{MapOrder}.

Lemma tracks_open now c a :
  tracks now c a -> s_open a = true -> is_Some (c_entries c) /\ is_Some (c_sets c).
Proof. intros [Ho _] H1. by rewrite H1 in Ho. Qed.

Lemma tracks_closed now c a :
  tracks now c a -> s_open a = false -> c_entries c = None /\ c_sets c = None.
Proof. intros [Ho _] H1. by rewrite H1 in Ho. Qed.

Lemma still_open {A B} (b : bool) (m : option A) (m' : option B) (f : A -> A) :
  (if b then is_Some m /\ is_Some m' else m = None /\ m' = None) ->
  if b then is_Some (f <$> m) /\ is_Some m' else f <$> m = None /\ m' = None.
Proof. destruct b; [by intros [? ?]; rewrite fmap_is_Some|by intros [-> ->]]. Qed.

Lemma still_open_sets {A B} (b : bool) (m : option A) (m' : option B) (f : B -> B) :
  (if b then is_Some m /\ is_Some m' else m = None /\ m' = None) ->
  if b then is_Some m /\ is_Some (f <$> m') else m = None /\ f <$> m' = None.
Proof. destruct b; [by intros [? ?]; rewrite fmap_is_Some|by intros [-> ->]]. Qed.

(** Storing an entry, with or without the sweep that follows. *)
Lemma tracks_insert now c a k e n :
  s_open a = true -> tracks now c a ->
  tracks now (with_count (with_entries c (insert k e <$> c_entries c)) n) (s_set_vals a (insert k e)).
Proof.
  intros Ho Ht. destruct (tracks_open _ _ _ Ht Ho) as [He Hs]. destruct Ht as (_ & Hv & Hm).
  split_and!; cbn [s_open s_vals s_mems s_set_vals c_entries c_sets with_count with_entries].
  - rewrite Ho. by rewrite fmap_is_Some.
  - by apply vals_insert.
  - done.
Qed.

Lemma tracks_sweep now c a : tracks now c a -> tracks now (mc_sweep now c) a.
Proof.
  intros (Ho & Hv & Hm). split_and!; [by apply still_open|by apply vals_sweep|done].
Qed.

Lemma Set_step now c a k v ttl :
  tracks now c a ->
  cache_reply now (CSet k v ttl) a (cache_step now (CSet k v ttl) c).1 /\
  tracks now (cache_step now (CSet k v ttl) c).2 (cache_next now (CSet k v ttl) a).
Proof.
  intros Ht. cbn [cache_step cache_reply cache_next]. unfold mc_Set.
  destruct (s_open a) eqn:Ho.
  - destruct (tracks_open _ _ _ Ht Ho) as [He _]. rewrite map_set_some by done. cbn.
    destruct (_ <=? _); cbn; (split; [done|]); [apply tracks_sweep|]; by apply (tracks_insert now c a).
  - destruct (tracks_closed _ _ _ Ht Ho) as [-> _]. by cbn.
Qed.

Lemma Increment_step now c a k :
  tracks now c a ->
  cache_reply now (CIncrement k) a (cache_step now (CIncrement k) c).1 /\
  tracks now (cache_step now (CIncrement k) c).2 (cache_next now (CIncrement k) a).
Proof.
  intros Ht. cbn [cache_step cache_reply cache_next]. unfold mc_Increment, s_counter.
  rewrite (tracks_holds _ _ _ k Ht), (tracks_live _ _ _ k Ht).
  destruct (map_get (c_sets c) k) as [s|]; [by rewrite bool_decide_true by eauto|].
  rewrite bool_decide_false by (by intros [? ?]).
  assert (forall e, map_set (c_entries c) k e = if s_open a then Ret (insert k e <$> c_entries c) else Panic)
    as Hset.
  { intros e. destruct (s_open a) eqn:Ho.
    - by apply map_set_some, (tracks_open _ _ _ Ht Ho).
    - by destruct (tracks_closed _ _ _ Ht Ho) as [-> _]. }
  assert (s_open a = true -> forall e, tracks now (with_entries c (insert k e <$> c_entries c))
            (s_set_vals a (insert k e))) as Hins.
  { intros Ho e. by apply (tracks_insert now c a k e (c_writeCount c)). }
  destruct (s_live now a k) as [e|]; [destruct (ParseInt (e_value e)) as [r|z]; [done|]|].
  - destruct (z =? max_int64); [done|]. cbv zeta. rewrite Hset. destruct (s_open a); cbn; auto.
  - cbv zeta. rewrite Hset. destruct (s_open a); cbn; auto.
Qed.

Lemma SetAddOnce_run now c a k m :
  tracks now c a ->
  match mc_SetAddOnce c k m with
  | Ret r => s_open a = true /\ r.1 = bool_decide ((k, m) ∉ s_mems a) /\
      tracks now r.2 (s_set_mems a (fun s => {[(k, m)]} ∪ s))
  | _ => s_open a = false
  end.
Proof.
  intros Ht. unfold mc_SetAddOnce. destruct (s_open a) eqn:Ho; cycle 1.
  { destruct (tracks_closed _ _ _ Ht Ho) as [_ ->]. done. }
  destruct (tracks_open _ _ _ Ht Ho) as [He Hs]. pose proof Ht as (_ & Hv & Hm).
  assert (m ∈ default ∅ (map_get (c_sets c) k) <-> (k, m) ∈ s_mems a) as Hin by (symmetry; apply Hm).
  assert (s_open (s_set_mems a (fun s => {[(k, m)]} ∪ s)) = true) as Ho' by done.
  destruct (map_get (c_sets c) k) as [s|] eqn:Hk; cbn -[decide].
  - rewrite Hk. cbn -[decide]. cbn in Hin. case_decide as Hd.
    + split_and!; [done|cbn; rewrite bool_decide_false; tauto|]. cbn. split_and!; [by rewrite Ho'|done|].
      cbn. replace ({[(k, m)]} ∪ s_mems a) with (s_mems a) by (apply leibniz_equiv; set_solver). done.
    + rewrite map_set_some by done. cbn. split_and!; [done|rewrite bool_decide_true; tauto|].
      split_and!; [rewrite Ho'; cbn; by rewrite fmap_is_Some|done|].
      cbn. pose proof (sets_add _ _ k m Hs Hm) as Ha. by rewrite Hk in Ha.
  - rewrite map_set_some by done. rewrite !bind_Ret.
    change (c_sets (with_sets c ?s)) with s. rewrite map_get_set by done. rewrite (decide_True (P := k = k)) by done.
    cbn -[decide]. rewrite decide_False by set_solver. rewrite map_set_some by (by rewrite fmap_is_Some). cbn.
    split_and!; [done|rewrite bool_decide_true; [done|]; rewrite <- Hin; set_solver|].
    split_and!; [rewrite Ho'; cbn; by rewrite !fmap_is_Some|done|]. cbn.
    pose proof (sets_add _ _ k m Hs Hm) as Ha. rewrite Hk in Ha. destruct Hs as [t Hs]. rewrite Hs in *.
    cbn in *. by rewrite insert_insert_eq.
Qed.

Lemma SetRemove_run now c a k m :
  tracks now c a -> exists c', mc_SetRemove c k m = Ret c' /\ tracks now c' (s_set_mems a (fun s => s ∖ {[(k, m)]})).
Proof.
  intros Ht. unfold mc_SetRemove. pose proof Ht as (Ho & Hv & Hm).
  destruct (map_get (c_sets c) k) as [s|] eqn:Hk.
  - assert (is_Some (c_sets c)) as Hs by (unfold map_get in Hk; destruct (c_sets c); eauto; done).
    rewrite map_set_some by done. pose proof (sets_remove (c_sets c) (s_mems a) k m s) as Hrem.
    case_decide as Hz; (eexists; split; [done|]); (split_and!; [|done|]).
    + by apply still_open_sets.
    + eapply (Hrem _ Hm Hk). intros k'. change (c_sets (with_sets c ?s)) with s. rewrite map_get_delete. by repeat case_decide.
    + by apply still_open_sets.
    + eapply (Hrem _ Hm Hk). intros k'. change (c_sets (with_sets c ?s)) with s. rewrite map_get_set by done. by repeat case_decide.
  - exists c. split; [done|]. split_and!; [done|done|]. cbn.
    replace (s_mems a ∖ {[(k, m)]}) with (s_mems a); [done|]. apply leibniz_equiv.
    pose proof (sets_track_absent _ _ _ m Hm Hk). set_solver.
Qed.

Lemma cache_step_tracks {X} now (op : cache_op X) c a :
  tracks now c a ->
  cache_reply now op a (cache_step now op c).1 /\ tracks now (cache_step now op c).2 (cache_next now op a).
Proof.
  intros Ht. pose proof Ht as (Ho & Hv & Hm).
  destruct op as [k|k v ttl|k|k|k|k m|k m|k m|k|k m|];
    try (split; [|exact Ht]); cbn [cache_step cache_reply cache_next fst snd].
  - unfold mc_Get. by rewrite (tracks_live _ _ _ k Ht).
  - by apply Set_step.
  - by apply Increment_step.
  - split; [done|]. split_and!; [by apply still_open_sets, still_open|by apply vals_delete|by apply sets_delete].
  - unfold mc_Exists. rewrite (tracks_live _ _ _ k Ht). do 2 f_equal. by destruct (s_live now a k).
  - pose proof (SetAddOnce_run now c a k m Ht) as Hr. unfold mc_SetAdd.
    destruct (mc_SetAddOnce c k m) as [r| |]; cbn; [destruct Hr as (-> & _ & ?)|by rewrite Hr..]; done.
  - pose proof (SetAddOnce_run now c a k m Ht) as Hr.
    destruct (mc_SetAddOnce c k m) as [r| |]; cbn; [destruct Hr as (-> & -> & ?)|by rewrite Hr..]; done.
  - destruct (SetRemove_run now c a k m Ht) as (c' & -> & Ht'). done.
  - exists (mc_SetMembers c k). split; [done|]. destruct Hm as [H1 _]. unfold mc_SetMembers, lists.
    setoid_rewrite H1. destruct (map_get (c_sets c) k) as [s|]; cbn.
    + rewrite range_perm. split; [apply NoDup_elements|]. intros x. by rewrite range_perm, elem_of_elements.
    + split; [constructor|set_solver].
  - destruct Hm as [H1 _]. unfold mc_SetIsMember. do 2 f_equal.
    destruct (map_get (c_sets c) k) as [s|] eqn:Hk; [apply bool_decide_ext|symmetry; apply bool_decide_false];
      rewrite H1, Hk; cbn; set_solver.
  - split; [done|]. split_and!; [done|done|]. split; [|done]. set_solver.
Qed.
End Steps.

(** ** Properties *)

(** A call at a time of the clock. *)
Definition timed_call : Type := Z * {X & cache_op X}.

Definition run_cache `{MapOrder} (c : MemoryCache) (tc : timed_call) : MemoryCache :=
  (cache_step tc.1 (projT2 tc.2) c).2.
Definition run_spec (a : Cache) (tc : timed_call) : Cache := cache_next tc.1 (projT2 tc.2) a.

Lemma run_cache_tracks `{MapOrder} cs now now' c a :
  tracks now c a -> Sorted Z.le (now :: cs.*1 ++ [now']) ->
  tracks now' (fold_left run_cache cs c) (fold_left run_spec cs a).
Proof.
  revert now c a. induction cs as [|[t [X op]] cs IH]; intros now c a Ht Hs; cbn in *.
  - inversion Hs as [|? ? _ Hhd]; subst. inversion Hhd; subst. by apply (tracks_later now).
  - inversion Hs as [|? ? Hs' Hhd]; subst. inversion Hhd; subst. apply (IH t); [|done].
    apply cache_step_tracks. by apply (tracks_later now).
Qed.

(** C28. The memory cache implements its specification, which never sweeps:
    after any calls at increasing times, every further call (also after
    [Close]) is answered as the specification says, panics included. In
    particular the sweep of expired entries cannot be observed, an expired value
    is never returned, and a counter keeps its expiry. *)
Theorem cache_refines `{MapOrder} cs now {X} (op : cache_op X) :
  Sorted Z.le (cs.*1 ++ [now]) ->
  cache_reply now op (fold_left run_spec cs NewCache)
    (cache_step now op (fold_left run_cache cs NewMemoryCache)).1.
Proof.
  intros Hs. apply cache_step_tracks. destruct cs as [|[t x] cs].
  - apply NewCache_tracks.
  - apply (run_cache_tracks _ t); [apply NewCache_tracks|]. cbn in *. constructor; [done|constructor; lia].
Qed.

(** A counter that expires and starts again. *)
Definition counter_calls : list timed_call :=
  [(1, @existT Type cache_op unit (CSet "hits" (bytes_of_string "41") 5)); (2, @existT Type cache_op Z (CIncrement "hits"))].

Lemma cache_refines_witness :
  (cache_step 9 (CIncrement "hits") (fold_left run_cache counter_calls NewMemoryCache)).1 = Ret (inr 1).
Proof.
  refine (cache_refines counter_calls 9 (CIncrement "hits") _).
  cbn. repeat (constructor; try lia).
Defined.
