(* ===== verification/RedisCache.v ===== *)
(** * The Redis cache (outbound/redis_cache.go)

    The cache as strings and sets of a Redis server, under a key prefix. The
    server is a class with the documented effect of the commands: each one runs at
    an instant of the server's clock, keys whose time is up are absent, a command
    on a key of the other type fails and changes nothing, [SET] replaces whatever
    the key held and its expiry, [INCR] keeps the expiry.

    [redis_cache_agrees]: on keys that are used either as values or as sets, the
    Redis cache answers as the specification the memory cache implements (up to
    the text of errors), but for the way Redis rounds expiries and reads counters,
    which is made exact. [adapters_disagree]: what differs when a key is used as
    both, and on such a counter. *)

From Stdlib Require Import ZArith Lia Sorted.
From stdpp Require Import base list strings gmap option sets.
From S2P Require Import Prelude GoFmt LValue LExtract LParse LRoundtrip Smus Effects Ports SessionStore Cache.

Open Scope Z_scope.

(** ** Commands *)

Inductive rc_cmd : Type -> Type :=
| RGet (key : string) : rc_cmd (option bytes)
| RSet (key : string) (v : bytes) (ttl : option Z) : rc_cmd unit
| RSetKeepTTL (key : string) (v : bytes) : rc_cmd unit
| RSetNX (key : string) (v : bytes) (ttl : Z) : rc_cmd bool
| RIncr (key : string) : rc_cmd Z
| RDel (key : string) : rc_cmd Z
| RExists (key : string) : rc_cmd Z
| RSAdd (key member : string) : rc_cmd Z
| RSRem (key member : string) : rc_cmd Z
| RSMembers (key : string) : rc_cmd (list string)
| RSIsMember (key member : string) : rc_cmd bool
(** the two scripts of redis_cache_lock.go *)
| REvalRelease (key : string) (token : bytes) : rc_cmd Z
| REvalRenew (key : string) (token : bytes) : rc_cmd Z.

Inductive rc_port : Type -> Type :=
| RC {X} (c : rc_cmd X) : rc_port (error + X).

(** ** The keyspace at an instant *)

Inductive rc_value := RString (v : bytes) | RMembers (s : gset string).

Record rc_entry := mkRc { rc_val : rc_value; rc_expiry : option Z }.

Abbreviation RcKeys := (gmap string rc_entry).

Definition rc_alive (t : Z) (e : rc_entry) : bool :=
  match rc_expiry e with None => true | Some d => negb (d <? t) end.

Definition rc_lookup (t : Z) (ks : RcKeys) (k : string) : option rc_entry :=
  e ← ks !! k; if rc_alive t e then Some e else None.

(** The string or the set of a key, [None] for a key of the other type. *)
Definition string_at (t : Z) (ks : RcKeys) (k : string) : option (option (bytes * option Z)) :=
  match rc_lookup t ks k with
  | None => Some None
  | Some (mkRc (RString v) d) => Some (Some (v, d))
  | Some (mkRc (RMembers _) _) => None
  end.
Definition members_at (t : Z) (ks : RcKeys) (k : string) : option (gset string) :=
  match rc_lookup t ks k with
  | None => Some ∅
  | Some (mkRc (RMembers s) _) => Some s
  | Some (mkRc (RString _) _) => None
  end.

Definition deadline (t : Z) (ttl : option Z) : option Z := (fun d => t + d) <$> ttl.

(** An integer as Redis reads it: the decimal form of a 64-bit number, without
    plus sign or leading zeros. *)
Definition redis_int (v : bytes) : option Z :=
  match ParseInt v with
  | inr z => if decide (v = bytes_of_string (Itoa z)) then Some z else None
  | inl _ => None
  end.

Definition put_members (ks : RcKeys) (t : Z) (k : string) (s : gset string) : RcKeys :=
  if decide (s = ∅) then delete k ks
  else <[k := mkRc (RMembers s) (rc_lookup t ks k ≫= rc_expiry)]> ks.

Definition lock_ttl : Z := 30 * 1000000000.

Definition owned (t : Z) (ks : RcKeys) (k : string) (token : bytes) : bool :=
  match string_at t ks k with Some (Some (v, _)) => bool_decide (v = token) | _ => false end.

Definition rc_next {X} (t : Z) (c : rc_cmd X) (ks : RcKeys) : RcKeys :=
  match c with
  | RSet k v ttl => <[k := mkRc (RString v) (deadline t ttl)]> ks
  | RSetKeepTTL k v => <[k := mkRc (RString v) (rc_lookup t ks k ≫= rc_expiry)]> ks
  | RSetNX k v ttl =>
      match rc_lookup t ks k with
      | None => <[k := mkRc (RString v) (Some (t + ttl))]> ks
      | Some _ => ks
      end
  | RIncr k =>
      match string_at t ks k with
      | Some None => <[k := mkRc (RString (bytes_of_string "1")) None]> ks
      | Some (Some (v, d)) =>
          match redis_int v with
          | Some z => if z =? max_int64 then ks else <[k := mkRc (RString (bytes_of_string (Itoa (z + 1)))) d]> ks
          | None => ks
          end
      | None => ks
      end
  | RDel k => delete k ks
  | RSAdd k m => match members_at t ks k with Some s => put_members ks t k ({[m]} ∪ s) | None => ks end
  | RSRem k m => match members_at t ks k with Some s => put_members ks t k (s ∖ {[m]}) | None => ks end
  | REvalRelease k token => if owned t ks k token then delete k ks else ks
  | REvalRenew k token =>
      if owned t ks k token then <[k := mkRc (RString token) (Some (t + lock_ttl))]> ks else ks
  | RGet _ | RExists _ | RSMembers _ | RSIsMember _ _ => ks
  end.

Definition answers {A X} (v : option A) (P : A -> X -> Prop) (r : error + X) : Prop :=
  match v with Some a => exists x, r = inr x /\ P a x | None => exists err, r = inl err end.

Definition one_if (b : bool) : Z := if b then 1 else 0.

Definition rc_reply {X} (t : Z) (c : rc_cmd X) (ks : RcKeys) : error + X -> Prop :=
  match c in rc_cmd X return error + X -> Prop with
  | RGet k => answers (string_at t ks k) (fun o x => x = fst <$> o)
  | RSet _ _ _ | RSetKeepTTL _ _ => fun r => r = inr tt
  | RSetNX k _ _ => fun r => r = inr (bool_decide (rc_lookup t ks k = None))
  | RIncr k => fun r =>
      match string_at t ks k with
      | Some None => r = inr 1
      | Some (Some (v, _)) =>
          match redis_int v with
          | Some z => if z =? max_int64 then exists err, r = inl err else r = inr (z + 1)
          | None => exists err, r = inl err
          end
      | None => exists err, r = inl err
      end
  | RDel k | RExists k => fun r => r = inr (one_if (bool_decide (is_Some (rc_lookup t ks k))))
  | RSAdd k m => answers (members_at t ks k) (fun s x => x = one_if (bool_decide (m ∉ s)))
  | RSRem k m => answers (members_at t ks k) (fun s x => x = one_if (bool_decide (m ∈ s)))
  | RSMembers k => answers (members_at t ks k) (fun s x => lists x (fun m => m ∈ s))
  | RSIsMember k m => answers (members_at t ks k) (fun s x => x = bool_decide (m ∈ s))
  | REvalRelease k token | REvalRenew k token => fun r => r = inr (one_if (owned t ks k token))
  end.

(** The server: a command runs at an instant between the readings of its clock
    before and after. Connection errors are left out: a failed call may or may
    not have run. *)
Class RcServer {W} (h : forall X, rc_port X -> W -> X * W) := {
  rc_keys : W -> RcKeys;
  rc_clock : W -> Z;
  rc_do X (c : rc_cmd X) w :
    exists t, rc_clock w <= t <= rc_clock (h _ (RC c) w).2 /\
      rc_reply t c (rc_keys w) (h _ (RC c) w).1 /\
      rc_keys (h _ (RC c) w).2 = rc_next t c (rc_keys w)
}.

(** ** The adapter *)

Record RedisCache := mkRedisCache { rc_keyPrefix : string }.

Definition rc_key (c : RedisCache) (k : string) : string := rc_keyPrefix c +:+ ":" +:+ k.

(** go-redis: a positive duration is rounded down to milliseconds, but never to
    zero; [-1] keeps the expiry; zero and other negative ones mean none. *)
Definition millisecond : Z := 1000000.

Definition client_set (key : string) (v : bytes) (ttl : Z) : rc_cmd unit :=
  if 0 <? ttl then RSet key v (Some (if ttl <? millisecond then millisecond else ttl / millisecond * millisecond))
  else if ttl =? -1 then RSetKeepTTL key v
  else RSet key v None.

Section Methods.
Context (c : RedisCache).

Abbreviation RcM := (prog rc_port).

Definition do_ {X} (cmd : rc_cmd X) : RcM (error + X) := call_ (RC cmd).

Definition answer_as {X Y} (f : X -> Y) (r : error + X) : error + Y :=
  match r with inl err => inl err | inr x => inr (f x) end.

Definition rc_Get (key : string) : RcM (error + option bytes) := do_ (RGet (rc_key c key)).
Definition rc_Set (key : string) (v : bytes) (ttl : Z) : RcM (error + unit) := do_ (client_set (rc_key c key) v ttl).
Definition rc_Delete (key : string) : RcM (error + unit) :=
  r ← do_ (RDel (rc_key c key)); mret (answer_as (fun _ => tt) r).
Definition rc_Increment (key : string) : RcM (error + Z) := do_ (RIncr (rc_key c key)).
Definition rc_Exists (key : string) : RcM (error + bool) :=
  r ← do_ (RExists (rc_key c key)); mret (answer_as (fun n => 0 <? n) r).
Definition rc_SetAdd (key member : string) : RcM (error + unit) :=
  r ← do_ (RSAdd (rc_key c key) member); mret (answer_as (fun _ => tt) r).
Definition rc_SetAddOnce (key member : string) : RcM (error + bool) :=
  r ← do_ (RSAdd (rc_key c key) member); mret (answer_as (fun n => 0 <? n) r).
Definition rc_SetRemove (key member : string) : RcM (error + unit) :=
  r ← do_ (RSRem (rc_key c key) member); mret (answer_as (fun _ => tt) r).
Definition rc_SetMembers (key : string) : RcM (error + list string) := do_ (RSMembers (rc_key c key)).
Definition rc_SetIsMember (key member : string) : RcM (error + bool) := do_ (RSIsMember (rc_key c key) member).
(** [closer] of a cache on a shared client does nothing. *)
Definition rc_Close : RcM (error + unit) := mret (inr tt).

Definition rc_run {X} (op : cache_op X) : RcM (error + X) :=
  match op in cache_op X return RcM (error + X) with
  | CGet k => rc_Get k
  | CSet k v ttl => rc_Set k v ttl
  | CIncrement k => rc_Increment k
  | CDelete k => rc_Delete k
  | CExists k => rc_Exists k
  | CSetAdd k m => rc_SetAdd k m
  | CSetAddOnce k m => rc_SetAddOnce k m
  | CSetRemove k m => rc_SetRemove k m
  | CSetMembers k => rc_SetMembers k
  | CSetIsMember k m => rc_SetIsMember k m
  | CClose => rc_Close
  end.
End Methods.

(** ** Against the specification *)

Section Agree.
Context (c : RedisCache).

Lemma rc_key_inj k k' : rc_key c k = rc_key c k' -> k = k'.
Proof.
  unfold rc_key. intros H. apply (inj (String.append (rc_keyPrefix c))) in H. by injection H.
Qed.

(** What the server holds under a key, next to the value and the members the
    specification holds under it. *)
Definition at_key (now : Z) (o : option rc_entry) (v : option cacheEntry) (M : string -> Prop) : Prop :=
  match o with
  | None => (forall m, ~ M m) /\ forall e, v = Some e -> expired now e = true
  | Some (mkRc (RString s) d) => v = Some (mkEntry s d) /\ forall m, ~ M m
  | Some (mkRc (RMembers s) d) => d = None /\ s <> ∅ /\ v = None /\ forall m, M m <-> m ∈ s
  end.

Definition rc_tracks (now : Z) (ks : RcKeys) (a : Cache) : Prop :=
  s_open a = true /\ forall k, at_key now (ks !! rc_key c k) (s_vals a !! k) (fun m => (k, m) ∈ s_mems a).

Lemma rc_expired_later now t e : now <= t -> expired now e = true -> expired t e = true.
Proof. unfold expired. destruct (e_expiresAt e); [|done]. rewrite !Z.ltb_lt. lia. Qed.

Lemma at_key_later now t o v M : now <= t -> at_key now o v M -> at_key t o v M.
Proof.
  intros Ht. destruct o as [[[]]|]; try done. intros [H1 H2]. split; [done|]. intros e He.
  by eapply rc_expired_later, H2.
Qed.

(** A step that works on one key. *)
Lemma rc_tracks_key now t ks ks' a a' k :
  rc_tracks now ks a -> now <= t -> s_open a' = true ->
  (forall k', k' <> k -> ks' !! rc_key c k' = ks !! rc_key c k' /\ s_vals a' !! k' = s_vals a !! k' /\
     forall m, (k', m) ∈ s_mems a' <-> (k', m) ∈ s_mems a) ->
  at_key t (ks' !! rc_key c k) (s_vals a' !! k) (fun m => (k, m) ∈ s_mems a') ->
  rc_tracks t ks' a'.
Proof.
  intros [_ H] Ht Ho Hother Hk. split; [done|]. intros k'. destruct (decide (k' = k)) as [->|Hne]; [done|].
  destruct (Hother k' Hne) as (-> & -> & HM). specialize (H k'). apply (at_key_later now t) in H; [|done].
  destruct (ks !! rc_key c k') as [[[] d]|]; cbn in *; naive_solver.
Qed.

(** The keys an operation uses as a value, or as a set, were never used the
    other way. *)
Definition separate {X} (op : cache_op X) (a : Cache) : Prop :=
  match op with
  | CGet k | CExists k | CSet k _ _ | CIncrement k => forall m, (k, m) ∉ s_mems a
  | CSetAdd k _ | CSetAddOnce k _ | CSetRemove k _ | CSetMembers k | CSetIsMember k _ => s_vals a !! k = None
  | CDelete _ | CClose => True
  end.

(** Where Redis differs from the memory cache. A positive expiry is rounded
    down to a millisecond, or up to the first one; the expiry -1 is the client's
    code for keeping the one there is; a counter whose text is not as Redis writes
    it ([007], [+5]) is not an integer; and closing a cache on a shared client
    closes nothing. *)
Definition client_ttl (ttl : Z) : Z :=
  if 0 <? ttl then (if ttl <? millisecond then millisecond else ttl / millisecond * millisecond) else ttl.

Definition unreadable (t : Z) (a : Cache) (k : string) : bool :=
  match s_live t a k with Some e => bool_decide (redis_int (e_value e) = None) | None => false end.

Definition redis_next {X} (t : Z) (op : cache_op X) (a : Cache) : Cache :=
  match op with
  | CSet k v ttl =>
      if ttl =? -1 then s_set_vals a (<[k := mkEntry v (s_live t a k ≫= e_expiresAt)]>)
      else cache_next t (CSet k v (client_ttl ttl)) a
  | CIncrement k => if unreadable t a k then a else cache_next t op a
  | CClose => a
  | op => cache_next t op a
  end.

Definition redis_reply {X} (t : Z) (op : cache_op X) (a : Cache) : outcome (error + X) -> Prop :=
  match op in cache_op X return outcome (error + X) -> Prop with
  | CIncrement k => fun r => if unreadable t a k then exists err, r = Ret (inl err) else cache_reply t (CIncrement k) a r
  | op => cache_reply t op a
  end.

(** Operations on which it does not differ. *)
Definition undivided {X} (op : cache_op X) (a : Cache) : Prop :=
  match op with
  | CSet _ _ ttl => ttl <> -1 /\ (0 < ttl -> ttl mod millisecond = 0)
  | CIncrement k => forall e z, s_vals a !! k = Some e -> ParseInt (e_value e) = inr z -> e_value e = bytes_of_string (Itoa z)
  | CClose => False
  | _ => True
  end.

(** The same answer, errors by their presence. *)
Definition same_answer {X} (r : error + X) (r' : outcome (error + X)) : Prop :=
  match r, r' with
  | inl _, Ret (inl _) => True
  | inr x, Ret (inr y) => x = y
  | _, _ => False
  end.

Lemma rc_alive_expired t s d : rc_alive t (mkRc (RString s) d) = negb (expired t (mkEntry s d)).
Proof. by destruct d. Qed.

Lemma value_key now t ks a k :
  rc_tracks now ks a -> now <= t -> (forall m, (k, m) ∉ s_mems a) ->
  rc_lookup t ks (rc_key c k) = (fun e => mkRc (RString (e_value e)) (e_expiresAt e)) <$> s_live t a k.
Proof.
  intros [_ H] Ht Hm. specialize (H k). apply (at_key_later now t) in H; [|done]. unfold rc_lookup, s_live.
  destruct (ks !! rc_key c k) as [[[s|s] d]|]; cbn in H |- *.
  - destruct H as [-> _]. cbn. rewrite rc_alive_expired. by destruct (expired t (mkEntry s d)).
  - destruct H as (_ & Hs & _ & HM). destruct Hs. apply leibniz_equiv. intros m. split; [|set_solver].
    intros Hin. by apply HM, Hm in Hin.
  - destruct H as [_ H]. destruct (s_vals a !! k) as [e|]; [|done]. cbn. by rewrite (H e).
Qed.

Lemma string_key_at now t ks a k :
  rc_tracks now ks a -> now <= t -> (forall m, (k, m) ∉ s_mems a) ->
  string_at t ks (rc_key c k) = Some ((fun e => (e_value e, e_expiresAt e)) <$> s_live t a k).
Proof. intros H Ht Hm. unfold string_at. rewrite (value_key now t ks a) by done. by destruct (s_live t a k). Qed.

Definition spec_members (a : Cache) (k : string) : gset string :=
  set_map (fun km : string * string => km.2) (filter (fun km => km.1 = k) (s_mems a)).

Lemma elem_of_spec_members a k m : m ∈ spec_members a k <-> (k, m) ∈ s_mems a.
Proof.
  unfold spec_members. rewrite elem_of_map. split.
  - intros ([k' m'] & -> & Hin%elem_of_filter). cbn in *. by destruct Hin as [-> ?].
  - intros Hin. exists (k, m). by rewrite elem_of_filter.
Qed.

Lemma set_key now t ks a k :
  rc_tracks now ks a -> now <= t -> s_vals a !! k = None ->
  members_at t ks (rc_key c k) = Some (spec_members a k) /\
  rc_lookup t ks (rc_key c k) = ks !! rc_key c k /\
  (rc_lookup t ks (rc_key c k) ≫= rc_expiry) = None.
Proof.
  intros [_ H] Ht Hv. specialize (H k). rewrite Hv in H. unfold members_at, rc_lookup.
  destruct (ks !! rc_key c k) as [[[s|s] d]|]; cbn in H |- *.
  - by destruct H.
  - destruct H as (-> & _ & _ & HM). cbn. split_and!; [|done|done]. f_equal. apply leibniz_equiv. intros m.
    by rewrite elem_of_spec_members, HM.
  - split_and!; [|done|done]. f_equal. apply leibniz_equiv. intros m. rewrite elem_of_spec_members.
    split; [set_solver|]. intros Hin. by apply H in Hin.
Qed.

(** One call: what the server answers and does, next to the specification. *)
Definition agrees {X Y} (now t : Z) (cmd : rc_cmd Y) (f : Y -> X) (op : cache_op X) (ks : RcKeys) (a : Cache) : Prop :=
  forall r, rc_reply t cmd ks r ->
    (exists r', redis_reply t op a r' /\ same_answer (answer_as f r) r') /\
    rc_tracks t (rc_next t cmd ks) (redis_next t op a).

Section Step.
Context (now t : Z) (ks : RcKeys) (a : Cache) (Htr : rc_tracks now ks a) (Ht : now <= t).

Lemma rc_tracks_later : rc_tracks t ks a.
Proof. destruct Htr as [Ho H]. split; [done|]. intros k. by apply (at_key_later now). Qed.

Lemma no_set k : (forall m, (k, m) ∉ s_mems a) -> holds_set a k = false.
Proof.
  intros Hm. unfold holds_set. apply bool_decide_eq_false. intros H. apply H. apply leibniz_equiv. intros [k' m].
  rewrite elem_of_filter. cbn. split; [|set_solver]. intros [-> Hin]. by apply Hm in Hin.
Qed.

(** Storing a string. *)
Lemma store_tracks k v d :
  (forall m, (k, m) ∉ s_mems a) ->
  rc_tracks t (<[rc_key c k := mkRc (RString v) d]> ks) (s_set_vals a (<[k := mkEntry v d]>)).
Proof.
  intros Hm. eapply rc_tracks_key with (k := k); [done|done|apply Htr| |].
  - intros k' Hne. cbn. rewrite !lookup_insert_ne by (done || (intros E; by apply rc_key_inj in E)). done.
  - cbn. rewrite !lookup_insert_eq. by split.
Qed.

Lemma agree_get k : separate (CGet k) a -> agrees now t (RGet (rc_key c k)) id (CGet k) ks a.
Proof.
  intros Hm r Hr. split; [|apply rc_tracks_later]. cbn in Hr. rewrite (string_key_at now t ks a k) in Hr by done.
  destruct Hr as (x & -> & ->). eexists. split; [reflexivity|]. cbn. by destruct (s_live t a k).
Qed.

Lemma agree_set k v ttl :
  separate (CSet k v ttl) a -> agrees now t (client_set (rc_key c k) v ttl) id (CSet k v ttl) ks a.
Proof.
  intros Hm r Hr. unfold client_set in *. cbn [redis_reply redis_next cache_reply].
  assert (Hret : r = inr tt -> exists r', (r' = if s_open a then Ret (inr tt) else Panic) /\ same_answer (answer_as id r) r')
    by (intros ->; rewrite (proj1 Htr); by eexists).
  destruct (Z.ltb_spec 0 ttl) as [Hpos|Hneg]; [|destruct (Z.eqb_spec ttl (-1)) as [->|Hne]];
    cbn [rc_reply] in Hr; (split; [by apply Hret|]); cbn [rc_next].
  - rewrite (proj2 (Z.eqb_neq _ _)) by lia. unfold client_ttl. rewrite (proj2 (Z.ltb_lt 0 ttl)) by lia.
    set (d := if ttl <? millisecond then _ else _).
    assert (0 < d) as Hd.
    { unfold d. destruct (Z.ltb_spec ttl millisecond) as [|Hms]; [done|].
      pose proof (Z.div_str_pos ttl millisecond (conj eq_refl Hms)). unfold millisecond in *. lia. }
    cbn [cache_next]. rewrite (proj1 Htr), (proj2 (Z.ltb_lt 0 d)) by done. by apply (store_tracks k v (Some (t + d))).
  - cbn [Z.eqb]. rewrite (value_key now t ks a k) by done.
    assert (E : (((fun e => mkRc (RString (e_value e)) (e_expiresAt e)) <$> s_live t a k) ≫= rc_expiry) = s_live t a k ≫= e_expiresAt)
      by (by destruct (s_live t a k)).
    rewrite E. by apply store_tracks.
  - unfold client_ttl. rewrite (proj2 (Z.ltb_ge 0 ttl)) by lia. cbn [cache_next].
    rewrite (proj1 Htr), (proj2 (Z.ltb_ge 0 ttl)) by lia. by apply (store_tracks k v None).
Qed.

Lemma agree_increment k : separate (CIncrement k) a -> agrees now t (RIncr (rc_key c k)) id (CIncrement k) ks a.
Proof.
  intros Hm r Hr. cbn [rc_reply rc_next redis_reply redis_next cache_reply cache_next] in *. unfold unreadable.
  rewrite (string_key_at now t ks a k) in Hr |- * by done. unfold s_counter. rewrite (no_set k) by done.
  destruct (s_live t a k) as [e|] eqn:El; cbn in Hr |- *; rewrite (proj1 Htr).
  - destruct (redis_int (e_value e)) as [z|] eqn:Ei.
    + rewrite bool_decide_eq_false_2 by done. assert (Ep : ParseInt (e_value e) = inr z).
      { unfold redis_int in Ei. destruct (ParseInt (e_value e)) as [|z']; [done|]. case_decide; [|done]. by injection Ei as ->. }
      rewrite Ep in *. destruct (z =? max_int64).
      * destruct Hr as [err' ->]. split; [by eexists|apply rc_tracks_later].
      * subst r. split; [by eexists|]. by apply store_tracks.
    + rewrite bool_decide_eq_true_2 by done. destruct Hr as [err ->]. split; [|apply rc_tracks_later].
      by exists (Ret (inl err)); split; [by eexists|].
  - subst r. split; [by eexists|]. by apply (store_tracks k (bytes_of_string "1") None).
Qed.

(** Where the operation is undivided, this is the specification itself. *)
Lemma live_stored k e : s_live t a k = Some e -> s_vals a !! k = Some e.
Proof. unfold s_live. destruct (s_vals a !! k) as [e'|]; [|done]. cbn. by destruct (expired t e'); intros [= ->]. Qed.

Lemma client_ttl_whole ttl : (0 < ttl -> ttl mod millisecond = 0) -> client_ttl ttl = ttl.
Proof.
  intros Hms. unfold client_ttl. destruct (Z.ltb_spec 0 ttl) as [Hpos|Hneg]; [|done]. specialize (Hms Hpos).
  assert (Hdiv : ttl = ttl / millisecond * millisecond) by (pose proof (Z.div_mod ttl millisecond ltac:(done)); lia).
  destruct (Z.ltb_spec ttl millisecond) as [Hlt|Hge]; [|by rewrite <- Hdiv]. rewrite Z.mod_small in Hms by lia. lia.
Qed.

Lemma undivided_same {X} (op : cache_op X) r :
  separate op a -> undivided op a -> redis_reply t op a r ->
  redis_next t op a = cache_next t op a /\ exists r', cache_reply t op a r' /\ (r' = r \/ exists e e', r = Ret (inl e) /\ r' = Ret (inl e')).
Proof.
  intros Hsep Hu Hr. destruct op; cbn [undivided redis_next redis_reply separate] in *; try by eauto.
  - destruct Hu as [Hne Hms]. rewrite (proj2 (Z.eqb_neq _ _)), client_ttl_whole by done. by eauto.
  - unfold unreadable in *. destruct (s_live t a key) as [e|] eqn:El; [|by eauto].
    case_bool_decide as Hi; [|by eauto]. destruct Hr as [err ->]. cbn [cache_reply cache_next].
    unfold s_counter. rewrite (no_set key), El by done.
    destruct (ParseInt (e_value e)) as [pe|z] eqn:Ep; [by eauto 8|].
    unfold redis_int in Hi. rewrite Ep, decide_True in Hi by (eapply Hu; [by eapply live_stored|done]). done.
Qed.

Lemma agree_delete k : agrees now t (RDel (rc_key c k)) (fun _ => tt) (CDelete k) ks a.
Proof.
  intros r Hr. cbn in Hr. subst r. split; [by eexists|].
  eapply rc_tracks_key with (k := k); [done|done|apply Htr| |].
  - intros k' Hne. cbn. rewrite !lookup_delete_ne by (done || (intros E; by apply rc_key_inj in E)).
    split_and!; [done|done|]. intros m. rewrite elem_of_filter. naive_solver.
  - cbn. rewrite !lookup_delete_eq. split; [|done]. intros m. rewrite elem_of_filter. cbn. naive_solver.
Qed.

Lemma agree_exists k : separate (CExists k) a -> agrees now t (RExists (rc_key c k)) (fun n => 0 <? n) (CExists k) ks a.
Proof.
  intros Hm r Hr. split; [|apply rc_tracks_later]. cbn in Hr. subst r.
  rewrite (value_key now t ks a k) by done. eexists. split; [reflexivity|]. by destruct (s_live t a k).
Qed.

(** Changing a set. *)
Lemma members_track (k : string) (s' : gset string) (M : gset (string * string)) :
  s_vals a !! k = None ->
  (forall k' m, k' <> k -> (k', m) ∈ M <-> (k', m) ∈ s_mems a) -> (forall m, (k, m) ∈ M <-> m ∈ s') ->
  rc_tracks t (put_members ks t (rc_key c k) s') (mkCacheSpec (s_vals a) M (s_open a)).
Proof.
  intros Hv Hother Hk. destruct (set_key now t ks a k Htr Ht Hv) as (_ & _ & He).
  eapply rc_tracks_key with (k := k); [done|done|apply Htr| |].
  - intros k' Hne. cbn. unfold put_members. split_and!; [|done|intros m; by apply Hother].
    assert (rc_key c k' <> rc_key c k) by (intros E; by apply rc_key_inj in E).
    case_decide; [by rewrite lookup_delete_ne|by rewrite lookup_insert_ne].
  - cbn. unfold put_members. rewrite He, Hv. case_decide as Hs.
    + rewrite lookup_delete_eq. split; [|done]. intros m. rewrite Hk, Hs. set_solver.
    + rewrite lookup_insert_eq. by split_and!.
Qed.

Lemma agree_add k m {X} (op : cache_op X) f :
  s_vals a !! k = None ->
  redis_next t op a = s_set_mems a (fun s => {[(k, m)]} ∪ s) ->
  (exists r', redis_reply t op a r' /\ same_answer (inr (f (one_if (bool_decide ((k, m) ∉ s_mems a))))) r') ->
  agrees now t (RSAdd (rc_key c k) m) f op ks a.
Proof.
  intros Hv Hn Hr r Hr'. cbn in Hr'. destruct (set_key now t ks a k Htr Ht Hv) as (Hm & _ & _).
  cbn [rc_next]. rewrite Hm in Hr' |- *. destruct Hr' as (x & -> & ->). rewrite Hn. split.
  - rewrite (bool_decide_ext _ ((k, m) ∉ s_mems a)) by (by rewrite elem_of_spec_members). exact Hr.
  - apply members_track; [done| |].
    + intros k' m' Hne. set_solver.
    + intros m'. rewrite !elem_of_union, elem_of_spec_members. set_solver.
Qed.

Lemma agree_remove k m :
  separate (CSetRemove k m) a -> agrees now t (RSRem (rc_key c k) m) (fun _ => tt) (CSetRemove k m) ks a.
Proof.
  intros Hv r Hr. cbn in Hr. destruct (set_key now t ks a k Htr Ht Hv) as (Hm & _ & _).
  cbn [rc_next]. rewrite Hm in Hr |- *. destruct Hr as (x & -> & _). split; [by eexists|].
  apply members_track; [done| |].
  - intros k' m' Hne. set_solver.
  - intros m'. rewrite !elem_of_difference, elem_of_spec_members. set_solver.
Qed.

Lemma agree_members k :
  separate (CSetMembers k) a -> agrees now t (RSMembers (rc_key c k)) id (CSetMembers k) ks a.
Proof.
  intros Hv r Hr. split; [|apply rc_tracks_later]. cbn in Hr. destruct (set_key now t ks a k Htr Ht Hv) as (Hm & _ & _).
  rewrite Hm in Hr. destruct Hr as (x & -> & Hl). exists (Ret (inr x)). split; [|done]. exists x. split; [done|].
  eapply lists_iff; [|exact Hl]. intros m. apply elem_of_spec_members.
Qed.

Lemma agree_is_member k m :
  separate (CSetIsMember k m) a -> agrees now t (RSIsMember (rc_key c k) m) id (CSetIsMember k m) ks a.
Proof.
  intros Hv r Hr. split; [|apply rc_tracks_later]. cbn in Hr. destruct (set_key now t ks a k Htr Ht Hv) as (Hm & _ & _).
  rewrite Hm in Hr. destruct Hr as (x & -> & ->). eexists. split; [reflexivity|]. cbn.
  apply bool_decide_ext. by rewrite elem_of_spec_members.
Qed.
End Step.
End Agree.

(** A method that is one command and a reading of its answer. *)
Lemma agree_run (c : RedisCache) {W} (h : forall X, rc_port X -> W -> X * W) `{!RcServer h}
    {X Y} (cmd : rc_cmd Y) (f : Y -> X) (op : cache_op X) (p : prog rc_port (error + X)) (w : W) (a : Cache) :
  run h p w = (Ret (answer_as f (h _ (RC cmd) w).1), (h _ (RC cmd) w).2) ->
  (forall t, rc_clock w <= t -> agrees c (rc_clock w) t cmd f op (rc_keys w) a) ->
  exists t x r', (run h p w).1 = Ret x /\ rc_clock w <= t <= rc_clock (run h p w).2 /\
    redis_reply t op a r' /\ same_answer x r' /\
    rc_tracks c (rc_clock (run h p w).2) (rc_keys (run h p w).2) (redis_next t op a).
Proof.
  intros E Hf. rewrite E. cbn [fst snd]. destruct (rc_do Y cmd w) as (t & Ht & Hr & Hk).
  destruct (Hf t (proj1 Ht) _ Hr) as [(r' & Hc & Hs) Hn].
  exists t, (answer_as f (h _ (RC cmd) w).1), r'. split; [done|]. split; [done|]. split; [done|]. split; [done|].
  rewrite Hk. apply (rc_tracks_later c t); [done|lia].
Qed.

Lemma answer_as_id {X} (r : error + X) : answer_as id r = r.
Proof. by destruct r. Qed.

Lemma rc_run_redis (c : RedisCache) {W} (h : forall X, rc_port X -> W -> X * W) `{!RcServer h}
    {X} (op : cache_op X) (w : W) (a : Cache) :
  rc_tracks c (rc_clock w) (rc_keys w) a -> separate op a ->
  let o := run h (rc_run c op) w in
  exists t x r', o.1 = Ret x /\ rc_clock w <= t <= rc_clock o.2 /\
    redis_reply t op a r' /\ same_answer x r' /\
    rc_tracks c (rc_clock o.2) (rc_keys o.2) (redis_next t op a).
Proof.
  intros Htr Hsep. cbv zeta. destruct op; cbn [rc_run].
  - apply (agree_run c h (RGet (rc_key c key)) id); [unfold rc_Get, do_; by rewrite run_call, answer_as_id|].
    intros t Ht. by apply agree_get.
  - apply (agree_run c h (client_set (rc_key c key) value ttl) id);
      [unfold rc_Set, do_; by rewrite run_call, answer_as_id|]. intros t Ht. by apply agree_set.
  - apply (agree_run c h (RIncr (rc_key c key)) id); [unfold rc_Increment, do_; by rewrite run_call, answer_as_id|].
    intros t Ht. by apply agree_increment.
  - eapply (agree_run c h); [unfold rc_Delete, do_; prun; done|]. intros t Ht. by apply agree_delete.
  - eapply (agree_run c h); [unfold rc_Exists, do_; prun; done|]. intros t Ht. by apply agree_exists.
  - eapply (agree_run c h); [unfold rc_SetAdd, do_; prun; done|]. intros t Ht. apply agree_add; [done..| |].
    + cbn. by rewrite (proj1 Htr).
    + cbn. rewrite (proj1 Htr). by eexists.
  - eapply (agree_run c h); [unfold rc_SetAddOnce, do_; prun; done|]. intros t Ht. apply agree_add; [done..| |].
    + cbn. by rewrite (proj1 Htr).
    + cbn. rewrite (proj1 Htr). eexists. split; [reflexivity|]. cbn. by destruct (bool_decide _).
  - eapply (agree_run c h); [unfold rc_SetRemove, do_; prun; done|]. intros t Ht. by apply agree_remove.
  - apply (agree_run c h (RSMembers (rc_key c key)) id); [unfold rc_SetMembers, do_; by rewrite run_call, answer_as_id|].
    intros t Ht. by apply agree_members.
  - apply (agree_run c h (RSIsMember (rc_key c key) member) id);
      [unfold rc_SetIsMember, do_; by rewrite run_call, answer_as_id|].
    intros t Ht. by apply agree_is_member.
  - exists (rc_clock w), (inr tt), (Ret (inr tt)). by split_and!.
Qed.


(** ** A concrete server, whose clock stands still *)

Definition rc_typed {A X} (v : option A) (f : A -> X) : error + X :=
  match v with Some x => inr (f x) | None => inl (Errorf "WRONGTYPE") end.

Definition mini_answer {X} (t : Z) (c : rc_cmd X) (ks : RcKeys) : error + X :=
  match c in rc_cmd X return error + X with
  | RGet k => rc_typed (string_at t ks k) (fun o => fst <$> o)
  | RSet _ _ _ | RSetKeepTTL _ _ => inr tt
  | RSetNX k _ _ => inr (bool_decide (rc_lookup t ks k = None))
  | RIncr k =>
      match string_at t ks k with
      | Some None => inr 1
      | Some (Some (v, _)) =>
          match redis_int v with
          | Some z => if z =? max_int64 then inl (Errorf "overflow") else inr (z + 1)
          | None => inl (Errorf "not an integer")
          end
      | None => inl (Errorf "WRONGTYPE")
      end
  | RDel k | RExists k => inr (one_if (bool_decide (is_Some (rc_lookup t ks k))))
  | RSAdd k m => rc_typed (members_at t ks k) (fun s => one_if (bool_decide (m ∉ s)))
  | RSRem k m => rc_typed (members_at t ks k) (fun s => one_if (bool_decide (m ∈ s)))
  | RSMembers k => rc_typed (members_at t ks k) elements
  | RSIsMember k m => rc_typed (members_at t ks k) (fun s => bool_decide (m ∈ s))
  | REvalRelease k token | REvalRenew k token => inr (one_if (owned t ks k token))
  end.

Definition rc_mini (X : Type) (e : rc_port X) (w : RcKeys * Z) : X * (RcKeys * Z) :=
  match e in rc_port X return X * (RcKeys * Z) with
  | RC c => (mini_answer w.2 c w.1, (rc_next w.2 c w.1, w.2))
  end.

Lemma rc_typed_answers {A X} (v : option A) (f : A -> X) (P : A -> X -> Prop) :
  (forall x, P x (f x)) -> answers v P (rc_typed v f).
Proof. intros H. destruct v; cbn; eauto. Qed.

#[export, refine] Instance rc_mini_server : RcServer rc_mini := {| rc_keys w := w.1; rc_clock w := w.2 |}.
Proof.
  intros X c w. exists w.2. split; [cbn; lia|]. split; [|done]. cbn [rc_mini fst].
  destruct c; cbn [rc_reply mini_answer]; try done; try (by apply rc_typed_answers).
  - destruct (string_at w.2 w.1 key) as [[[v d]|]|]; [|done|by eexists].
    destruct (redis_int v) as [z|]; [|by eexists]. by destruct (z =? max_int64); [eexists|].
  - apply rc_typed_answers. intros s. split; [apply NoDup_elements|]. intros m. by rewrite elem_of_elements.
Defined.

Definition on_redis : RedisCache := mkRedisCache "game".

Lemma new_tracks (now : Z) : rc_tracks on_redis now ∅ NewCache.
Proof. split; [done|]. intros k. rewrite lookup_empty. split; [intros m; apply not_elem_of_empty|done]. Qed.


(** The two caches differ on a key that holds a set: only Redis says that it
    exists; and on the counter [007]: only the memory cache counts on. *)
Lemma adapters_disagree :
  (cache_step 1 (CExists "room") (cache_step 1 (CSetAdd "room" "ann") NewMemoryCache).2).1 = Ret (inr false) /\
  (run rc_mini (_ ← rc_run on_redis (CSetAdd "room" "ann"); rc_run on_redis (CExists "room")) (∅, 1)).1 =
    Ret (inr true) /\
  (cache_step 1 (CIncrement "k") (cache_step 1 (CSet "k" (bytes_of_string "007") 0) NewMemoryCache).2).1 = Ret (inr 8) /\
  (run rc_mini (_ ← rc_run on_redis (CSet "k" (bytes_of_string "007") 0); rc_run on_redis (CIncrement "k")) (∅, 1)).1 =
    Ret (inl (Errorf "not an integer")).
Proof. vm_compute. repeat split. Qed.
