(* ===== verification/TokenStore.v ===== *)
(** * Single-use logon tokens (outbound/cache_token_store.go)

    The HTTP login mints a token, the logon that follows consumes it. The store
    keeps the payload as JSON under the token in the shared cache; it is a client
    of the cache's interface, stated here as a class that the memory cache
    discharges. *)

From Stdlib Require Import ZArith Lia.
From Stdlib Require Import Strings.Byte.
From stdpp Require Import base list strings gmap option sets relations.
From S2P Require Import Prelude GoFmt Utf8 Json LValue LExtract LParse LRoundtrip Smus Effects Ports.
From S2P Require Import Codec SessionStore Cache.

Open Scope Z_scope.

(** ** The calls of the store *)

(** The cache (a call may panic), and [rand.Read] on a buffer of that length. *)
Inductive token_port : Type -> Type :=
| TCache {X} (op : cache_op X) : token_port (outcome (error + X))
| RandRead (n : Z) : token_port (error + bytes).

Definition cache {X} (op : cache_op X) : prog token_port (error + X) :=
  o ← call_ (TCache op); lift o.

Definition DefaultTokenTTL : Z := 300 * 1000000000.
Definition tokenKeyPrefix : string := "authtoken:".
Definition tokenBytes : Z := 32.

(** [CacheTokenStore]: the cache is a port, so only the lifetime is left. *)
Record CacheTokenStore := mkTokenStore { ts_ttl : Z }.

Definition NewCacheTokenStore (ttl : Z) : CacheTokenStore :=
  mkTokenStore (if ttl <=? 0 then DefaultTokenTTL else ttl).

(** [tokenRecord] and its JSON form. *)
Definition token_json (p : TokenPayload) : json :=
  JObj [(lit "character_name", JStr (lit (tp_CharacterName p)));
        (lit "user_level", JNum (lit (Itoa (tp_UserLevel p))));
        (lit "account_id", JNum (lit (Itoa (tp_AccountID p))))].

Definition set_record (p : TokenPayload) (key : bytes) (j : json) : error + TokenPayload :=
  if field_is "character_name" key then
    field p j unmarshal_string (fun s => mkTokenPayload (string_of_bytes s) (tp_UserLevel p) (tp_AccountID p))
  else if field_is "user_level" key then
    field p j (unmarshal_int (- max_int64 - 1) max_int64)
      (fun z => mkTokenPayload (tp_CharacterName p) z (tp_AccountID p))
  else if field_is "account_id" key then
    field p j (unmarshal_int (- max_int64 - 1) max_int64)
      (fun z => mkTokenPayload (tp_CharacterName p) (tp_UserLevel p) z)
  else inr p.

Definition read_record (data : bytes) : outcome (error + TokenPayload) :=
  Unmarshal data (unmarshal_struct (mkTokenPayload "" 0 0) set_record).

Definition Issue (s : CacheTokenStore) (payload : TokenPayload) : prog token_port (error + string) :=
  buf ← call_ (RandRead tokenBytes);
  match buf with
  | inl err => mret (inl err)
  | inr buf =>
      let token := hex buf in
      r ← cache (CSet (tokenKeyPrefix +:+ token) (print (token_json payload)) (ts_ttl s));
      match r with
      | inl err => mret (inl err)
      | inr _ => mret (inr token)
      end
  end.

Definition Validate (token : string) : prog token_port (error + TokenPayload) :=
  if decide (token = ""%string) then mret (inl ErrTokenInvalid)
  else
    let key := tokenKeyPrefix +:+ token in
    data ← cache (CGet key);
    match data with
    | inr (Some data) =>
        _ ← cache (CDelete key);
        r ← lift (read_record data);
        mret (match r with inl _ => inl ErrTokenInvalid | inr p => inr p end)
    | _ => mret (inl ErrTokenInvalid)
    end.

(** ** What the store relies on *)

(** An implementation of the ports whose cache answers and acts as its
    specification says, at times that do not go back. *)
Class CachePort {W} (h : forall X, token_port X -> W -> X * W) := {
  shows : W -> Cache -> Prop;
  clock : W -> Z;
  cache_law X (op : cache_op X) w a :
    shows w a ->
    exists t, clock w <= t <= clock (h _ (TCache op) w).2 /\
      cache_reply t op a (h _ (TCache op) w).1 /\
      shows (h _ (TCache op) w).2 (cache_next t op a);
  rand_law n w a : shows w a -> clock w <= clock (h _ (RandRead n) w).2 /\ shows (h _ (RandRead n) w).2 a
}.

(** The payload a token is read back as: the name coerced to UTF-8. *)
Definition carried (p : TokenPayload) : TokenPayload :=
  mkTokenPayload (string_of_bytes (coerce (lit (tp_CharacterName p)))) (tp_UserLevel p) (tp_AccountID p).

Definition int_fields (p : TokenPayload) : Prop := in_int64 (tp_UserLevel p) /\ in_int64 (tp_AccountID p).

Lemma read_token_json p :
  int_fields p -> read_record (print (token_json p)) = Ret (inr (carried p)).
Proof.
  intros [H1 H2]. unfold read_record, Unmarshal.
  rewrite parse_print by (cbn; split_and!; try done; apply num_ok_Itoa).
  cbn [mbind outcome_bind norm token_json map fst snd]. unfold unmarshal_struct. cbn [fold_left fst snd].
  assert (forall z, in_int64 z -> unmarshal_int (- max_int64 - 1) max_int64 (JNum (lit (Itoa z))) = inr z) as Hint.
  { intros z Hz. unfold unmarshal_int, lit. rewrite ParseInt_Itoa by done. destruct Hz.
    by rewrite (proj2 (Z.leb_le _ _)), (proj2 (Z.leb_le _ _)) by done. }
  change (coerce (lit "character_name")) with (lit "character_name").
  change (coerce (lit "user_level")) with (lit "user_level").
  change (coerce (lit "account_id")) with (lit "account_id").
  unfold set_record.
  change (field_is "character_name" (lit "character_name")) with true.
  change (field_is "character_name" (lit "user_level")) with false.
  change (field_is "user_level" (lit "user_level")) with true.
  change (field_is "character_name" (lit "account_id")) with false.
  change (field_is "user_level" (lit "account_id")) with false.
  change (field_is "account_id" (lit "account_id")) with true.
  unfold field. by rewrite !Hint.
Qed.

Section Store.
Context {W} (h : forall X, token_port X -> W -> X * W) `{!CachePort h}.

Notation key tok := (tokenKeyPrefix +:+ tok).

(** The token has no value left, or an expired one. *)
Definition spent (tok : string) (now : Z) (a : Cache) : Prop := s_live now a (key tok) = None.

Lemma live_later now now' a k : now <= now' -> s_live now a k = None -> s_live now' a k = None.
Proof.
  unfold s_live. destruct (s_vals a !! k) as [e|]; [|done]. cbn. intros Hle.
  destruct (expired now e) eqn:He; [|done]. by rewrite (expired_later _ _ _ Hle He).
Qed.

Lemma Validate_run tok w a :
  shows w a ->
  exists t w', clock w <= t <= clock w' /\
    run h (Validate tok) w =
      (match s_live t a (key tok) with
       | Some e => if decide (tok = ""%string) then Ret (inl ErrTokenInvalid) else
                   (r ← read_record (e_value e);
                    Ret (match r with inl _ => inl ErrTokenInvalid | inr p => inr p end))
       | None => Ret (inl ErrTokenInvalid)
       end, w') /\
    exists t' a', shows w' a' /\ t <= t' /\
      (if decide (tok = ""%string) then a' = a
       else match s_live t a (key tok) with Some _ => a' = cache_next t' (CDelete (key tok)) a | None => a' = a end).
Proof.
  intros Ha. unfold Validate. case_decide as Hempty.
  - exists (clock w), w. split; [lia|]. split; [by destruct (s_live _ _ _)|]. exists (clock w), a. split_and!; [done|lia|done].
  - unfold cache. prun. destruct (cache_law _ (CGet (key tok)) w a Ha) as (t & Ht & Hr & Hs).
    cbn [cache_reply] in Hr. destruct (h _ (TCache (CGet (key tok))) w) as [o w1]. cbn [fst snd] in *. subst o.
    prun. cbn [cache_next] in Hs.
    destruct (s_live t a (key tok)) as [e|] eqn:He; cbn [fmap option_fmap option_map]; prun.
    + destruct (cache_law _ (CDelete (key tok)) w1 a Hs) as (t' & Ht' & Hr' & Hs').
      cbn [cache_reply] in Hr'. destruct (h _ (TCache (CDelete (key tok))) w1) as [o w2]. cbn [fst snd] in *. subst o.
      prun. exists t, w2. rewrite He. split; [lia|]. split.
      * destruct (read_record (e_value e)) as [r| |]; prun; done.
      * exists t', (cache_next t' (CDelete (key tok)) a). split_and!; [done|lia|done].
    + exists t, w1. rewrite He. split; [lia|]. split; [done|]. exists t, a. split_and!; [done|lia|done].
Qed.

(** A missing payload makes validation fail and changes nothing. *)
Lemma Validate_spent tok w a :
  shows w a -> spent tok (clock w) a ->
  exists w', run h (Validate tok) w = (Ret (inl ErrTokenInvalid), w') /\ shows w' a /\ clock w <= clock w'.
Proof.
  intros Ha Hs. destruct (Validate_run tok w a Ha) as (t & w' & Ht & Hr & t' & a' & Ha' & Ht' & Hd).
  assert (s_live t a (key tok) = None) as Hn by (eapply live_later; [|exact Hs]; lia).
  rewrite Hn in Hr, Hd. exists w'. split_and!; [done|by case_decide; subst|lia].
Qed.

Lemma Issue_run s p w a :
  shows w a -> s_open a = true ->
  exists r w', run h (Issue s p) w = (Ret r, w') /\ clock w <= clock w' /\
    match r with
    | inl _ => shows w' a
    | inr tok => exists t, clock w <= t <= clock w' /\
        shows w' (cache_next t (CSet (key tok) (print (token_json p)) (ts_ttl s)) a)
    end.
Proof.
  intros Ha Ho. unfold Issue. prun. destruct (rand_law tokenBytes w a Ha) as [Hc Hs].
  destruct (h _ (RandRead tokenBytes) w) as [[err|buf] w1]; cbn [fst snd] in *; prun.
  - exists (inl err), w1. done.
  - unfold cache. prun.
    destruct (cache_law _ (CSet (key (hex buf)) (print (token_json p)) (ts_ttl s)) w1 a Hs) as (t & Ht & Hr & Hs').
    cbn [cache_reply] in Hr. rewrite Ho in Hr.
    destruct (h _ (TCache (CSet (key (hex buf)) (print (token_json p)) (ts_ttl s))) w1) as [o w2].
    cbn [fst snd] in *. subst o. prun. exists (inr (hex buf)), w2. split_and!; [done|lia|]. exists t. split; [lia|done].
Qed.

(** Calls on the store: the tokens minted by a sequence of them. *)
Inductive token_call := CallIssue (p : TokenPayload) | CallValidate (tok : string).

Fixpoint run_calls (s : CacheTokenStore) (cs : list token_call) (w : W) : list string * W :=
  match cs with
  | [] => ([], w)
  | CallIssue p :: cs =>
      let r := run h (Issue s p) w in
      let rest := run_calls s cs r.2 in
      (match r.1 with Ret (inr tok) => [tok] | _ => [] end ++ rest.1, rest.2)
  | CallValidate tok :: cs => run_calls s cs (run h (Validate tok) w).2
  end.

Lemma spent_next tok now a t op :
  spent tok now a -> match op with
                     | CallIssue p => True
                     | CallValidate tok' => spent tok now (cache_next t (CDelete (key tok')) a)
                     end.
Proof.
  intros Hs. destruct op; [done|]. unfold spent, s_live in *. cbn. destruct (decide (key tok0 = key tok)) as [->|Hne].
  - by rewrite lookup_delete_eq.
  - by rewrite lookup_delete_ne.
Qed.

Lemma run_calls_spent s tok cs w a :
  shows w a -> s_open a = true -> spent tok (clock w) a -> tok ∉ (run_calls s cs w).1 ->
  exists a', shows (run_calls s cs w).2 a' /\ s_open a' = true /\ spent tok (clock (run_calls s cs w).2) a'.
Proof.
  revert w a. induction cs as [|[p|tok'] cs IH]; intros w a Ha Ho Hs Hm; cbn [run_calls] in *; [by exists a|..].
  - destruct (Issue_run s p w a Ha Ho) as (r & w' & Hr & Hc & Hw). rewrite Hr in *. cbn [fst snd] in *.
    destruct r as [e|tok']; cbn in Hm.
    + apply (IH w' a); [done|done| |done]. by eapply live_later.
    + destruct Hw as (t & Ht & Hw). cbn [cache_next] in Hw. rewrite Ho in Hw.
      apply not_elem_of_cons in Hm as [Hne Hm].
      eapply IH; [exact Hw|done| |done]. unfold spent in *. apply (live_later (clock w)); [done|].
      unfold s_live in *. cbn [s_set_vals s_vals]. rewrite lookup_insert_ne; [done|].
      intros E. apply string_app_inj_l in E. congruence.
  - destruct (Validate_run tok' w a Ha) as (t & w' & Ht & Hr & t' & a' & Ha' & Ht' & Hd).
    rewrite Hr in *. cbn [fst snd] in *.
    assert (s_open a' = true /\ spent tok (clock w) a') as [Ho' Hs'].
    { case_decide; [by subst|]. destruct (s_live t a (key tok')); subst; [|done].
      split; [done|]. apply (spent_next tok _ a t' (CallValidate tok') Hs). }
    eapply IH; [exact Ha'|done| |done]. eapply live_later; [|exact Hs']. lia.
Qed.

(** A token is good for one logon. Once a token has been validated, by
    whatever result, it stays invalid through every later sequence of issues and
    validations, as long as the random generator does not mint it again. *)
Theorem token_single_use s tok cs w a :
  shows w a -> s_open a = true ->
  let w1 := (run h (Validate tok) w).2 in
  tok ∉ (run_calls s cs w1).1 ->
  (run h (Validate tok) (run_calls s cs w1).2).1 = Ret (inl ErrTokenInvalid).
Proof.
  intros Ha Ho w1 Hm.
  destruct (Validate_run tok w a Ha) as (t & w' & Ht & Hr & t' & a' & Ha' & Ht' & Hd).
  unfold w1 in *. rewrite Hr in *. cbn [snd] in *. destruct (decide (tok = ""%string)) as [->|Hne].
  { unfold Validate. by rewrite decide_True. }
  assert (s_open a' = true /\ spent tok (clock w') a') as [Ho' Hs'].
  { destruct (s_live t a (key tok)) as [e|] eqn:He; subst a'.
    - split; [done|]. unfold spent, s_live. cbn. by rewrite lookup_delete_eq.
    - split; [done|]. eapply live_later; [|exact He]. lia. }
  destruct (run_calls_spent s tok cs w' a' Ha' Ho' Hs' Hm) as (a2 & Ha2 & _ & Hs2).
  destruct (Validate_spent tok _ a2 Ha2 Hs2) as (w2 & Hr2 & _). by rewrite Hr2.
Qed.

(** A token carries its payload. Validated before its lifetime is over, a
    token that was just issued gives back the level and the account it was issued
    with, and the character name as UTF-8. *)
Theorem token_carries_payload s p w a tok w1 :
  shows w a -> s_open a = true -> int_fields p -> 0 < ts_ttl s ->
  run h (Issue s p) w = (Ret (inr tok), w1) -> tok <> ""%string ->
  clock (run h (Validate tok) w1).2 <= clock w + ts_ttl s ->
  (run h (Validate tok) w1).1 = Ret (inr (carried p)).
Proof.
  intros Ha Ho Hp Httl Hi Hne Hlate. destruct (Issue_run s p w a Ha Ho) as (r & w' & Hr & Hc & Hw).
  rewrite Hi in Hr. injection Hr as <- <-. destruct Hw as (t & Ht & Hw). cbn [cache_next] in Hw. rewrite Ho in Hw.
  destruct (Validate_run tok w1 _ Hw) as (t' & w2 & Ht' & Hr & _). rewrite Hr in *. cbn [fst snd] in *.
  unfold s_live. cbn [s_set_vals s_vals]. rewrite lookup_insert_eq. cbn [mbind option_bind].
  unfold expired. cbn [e_expiresAt]. rewrite (proj2 (Z.ltb_lt 0 (ts_ttl s))) by done.
  rewrite (proj2 (Z.ltb_ge _ _)) by lia. rewrite decide_False by done. cbn [e_value].
  by rewrite read_token_json.
Qed.
End Store.

(** ** The memory cache as the token store's cache *)

(** A clock that advances with every call, and a supply of random buffers. *)
Record TokenWorld := mkTokenWorld {
  tw_cache : MemoryCache;
  tw_now : Z;
  tw_rand : list bytes
}.

Definition token_step (X : Type) (e : token_port X) (w : TokenWorld) : X * TokenWorld :=
  match e in token_port X return X * TokenWorld with
  | TCache op =>
      let r := cache_step (tw_now w) op (tw_cache w) in
      (r.1, mkTokenWorld r.2 (tw_now w + 1) (tw_rand w))
  | RandRead n =>
      match tw_rand w with
      | b :: l => (inr b, mkTokenWorld (tw_cache w) (tw_now w) l)
      | [] => (inl (Errorf "no randomness"), w)
      end
  end.

#[export] Instance memory_tokens : CachePort token_step.
Proof.
  refine {| shows w a := tracks (tw_now w) (tw_cache w) a; clock := tw_now |}.
  - intros X op w a Ha. exists (tw_now w). cbn. split; [lia|].
    destruct (cache_step_tracks (tw_now w) op _ _ Ha) as [Hr Ht]. split; [done|].
    eapply tracks_later; [|exact Ht]. lia.
  - intros n w a Ha. cbn. by destruct (tw_rand w).
Defined.

Definition token_start : TokenWorld :=
  mkTokenWorld NewMemoryCache 100 [[Byte.xab; Byte.xcd]; [Byte.x01; Byte.x02]].

Definition hero : TokenPayload := mkTokenPayload "Hero" 40 7.
Definition five_minutes : CacheTokenStore := NewCacheTokenStore 0.

Lemma token_start_shows : shows (h := token_step) token_start NewCache.
Proof. exact (NewCache_tracks 100). Qed.

Definition token_issued : TokenWorld := (run token_step (Issue five_minutes hero) token_start).2.

Lemma token_carries_payload_witness :
  (run token_step (Validate "abcd") token_issued).1 = Ret (inr hero).
Proof.
  refine (token_carries_payload token_step five_minutes hero token_start NewCache "abcd" token_issued
    token_start_shows eq_refl _ _ _ _ _).
  - unfold int_fields, in_int64, max_int64. cbn. lia.
  - vm_compute. reflexivity.
  - vm_compute. reflexivity.
  - discriminate.
  - vm_compute. discriminate.
Defined.

Lemma token_single_use_witness :
  let w1 := (run token_step (Validate "abcd") token_issued).2 in
  (run token_step (Validate "abcd") (run_calls token_step five_minutes [CallIssue hero] w1).2).1 =
  Ret (inl ErrTokenInvalid).
Proof.
  destruct (Issue_run token_step five_minutes hero token_start NewCache token_start_shows eq_refl)
    as (r & w' & Hr & _ & Hw).
  assert (r = inr "abcd"%string) as -> by (apply (f_equal fst) in Hr; vm_compute in Hr; congruence).
  destruct Hw as (t & _ & Hw).
  assert (w' = token_issued) as -> by (unfold token_issued; by rewrite Hr).
  refine (token_single_use token_step five_minutes "abcd" [CallIssue hero] token_issued _ Hw eq_refl _).
  assert ((run_calls token_step five_minutes [CallIssue hero]
             (run token_step (Validate "abcd") token_issued).2).1 = ["0102"%string]) as -> by (vm_compute; reflexivity).
  apply not_elem_of_cons. split; [discriminate|apply not_elem_of_nil].
Defined.

(** Validation is not atomic: it reads the payload and then deletes it, in
    two calls on the cache. Two logons that present the same token at the same
    time can therefore both be accepted, although a token is documented to
    authorise exactly one. *)
Theorem token_race :
  exists w', preachable token_step ([Validate "abcd"; Validate "abcd"], token_issued)
    ([Done (Ret (inr hero)); Done (Ret (inr hero))], w').
Proof.
  set (c := ([Validate "abcd"; Validate "abcd"], token_issued)).
  exists (interleave token_step [0; 1; 0; 1]%nat c).2.
  assert ((interleave token_step [0; 1; 0; 1]%nat c).1 = [Done (Ret (inr hero)); Done (Ret (inr hero))]) as <-
    by (vm_compute; reflexivity).
  rewrite <- surjective_pairing. apply interleave_reachable.
Qed.
