(* ===== verification/CacheLock.v ===== *)
(** * The keyed lock of the memory cache (outbound/memory_cache_lock.go)

    [AcquireLock] serialises the script executions that share a key. Lock objects
    are created on demand, counted and dropped from the table with their last
    user; a one-slot channel is the lock itself. Every call of [AcquireLock],
    with the [Release] of the lock it returns, is a process whose atomic steps
    are the critical sections and channel operations of the code, and the
    processes interleave arbitrarily. *)

From Stdlib Require Import ZArith Lia.
From stdpp Require Import base list strings gmap option relations.
From S2P Require Import Prelude.

(** [gate] holds the token while nobody has the lock. *)
Record cacheLock := mkLock {
  gate : bool;
  users : Z
}.

(** [locks] maps keys to lock objects, which are pointers. *)
Record Locks := mkLocks {
  locks : gmap string nat;
  objects : gmap nat cacheLock
}.

Definition NewLocks : Locks := mkLocks ∅ ∅.

(** A fresh lock object when the key has none; then one more user
    (memory_cache_lock.go:24-31). *)
Definition ref (s : Locks) (key : string) : nat * Locks :=
  match locks s !! key with
  | Some l =>
      (l, mkLocks (locks s) (alter (fun o => mkLock (gate o) (users o + 1)) l (objects s)))
  | None =>
      let l := fresh (dom (objects s)) in
      (l, mkLocks (<[key := l]> (locks s)) (<[l := mkLock true 1]> (objects s)))
  end.

(** [unref]: one user less, and the key is dropped with the last one. *)
Definition unref (s : Locks) (key : string) (l : nat) : Locks :=
  match objects s !! l with
  | Some o =>
      let o' := mkLock (gate o) (users o - 1) in
      mkLocks (if decide (users o' = 0%Z) then delete key (locks s) else locks s)
        (<[l := o']> (objects s))
  | None => s
  end.

(** [<-lock.gate] succeeds only with the token in the channel, [lock.gate <-]
    only with the channel empty; otherwise they block. *)
Definition receive (s : Locks) (l : nat) : option Locks :=
  match objects s !! l with
  | Some o => if gate o then Some (mkLocks (locks s) (<[l := mkLock false (users o)]> (objects s))) else None
  | None => None
  end.

Definition send (s : Locks) (l : nat) : option Locks :=
  match objects s !! l with
  | Some o => if gate o then None else Some (mkLocks (locks s) (<[l := mkLock true (users o)]> (objects s)))
  | None => None
  end.

(** Where a call of [AcquireLock] and its [Release] are. A context that is
    already over when the lock is obtained takes the release path at once. *)
Inductive phase :=
| Idle
| Waiting (key : string) (l : nat)
| Giving_up (key : string) (l : nat)
| Holding (key : string) (l : nat)
| Returned (key : string) (l : nat)
| Finished.

#[export] Instance phase_eq_dec : EqDecision phase.
Proof. solve_decision. Defined.

Definition at_lock (ph : phase) : option (string * nat) :=
  match ph with
  | Waiting k l | Giving_up k l | Holding k l | Returned k l => Some (k, l)
  | Idle | Finished => None
  end.

Definition holds (ph : phase) : option nat :=
  match ph with Holding _ l => Some l | _ => None end.

Record System := mkSystem {
  sys_locks : Locks;
  sys_procs : gmap nat phase
}.

Definition phase_of (s : System) (p : nat) : phase := default Idle (sys_procs s !! p).

Definition goes (s : System) (p : nat) (ph : phase) (l : Locks) : System :=
  mkSystem l (<[p := ph]> (sys_procs s)).

Inductive lock_step : System -> System -> Prop :=
| Refuse s p :
    phase_of s p = Idle -> lock_step s (goes s p Finished (sys_locks s))
| Enter s p key :
    phase_of s p = Idle ->
    lock_step s (goes s p (Waiting key (ref (sys_locks s) key).1) (ref (sys_locks s) key).2)
| Acquire s p key l s' :
    phase_of s p = Waiting key l -> receive (sys_locks s) l = Some s' ->
    lock_step s (goes s p (Holding key l) s')
| TimeOut s p key l :
    phase_of s p = Waiting key l -> lock_step s (goes s p (Giving_up key l) (sys_locks s))
| Release s p key l s' :
    phase_of s p = Holding key l -> send (sys_locks s) l = Some s' ->
    lock_step s (goes s p (Returned key l) s')
| Unref s p key l :
    phase_of s p = Giving_up key l \/ phase_of s p = Returned key l ->
    lock_step s (goes s p Finished (unref (sys_locks s) key l)).

Definition start : System := mkSystem NewLocks ∅.

(** ** Counting processes *)

Definition count (P : phase -> bool) (procs : gmap nat phase) : Z :=
  Z.of_nat (size (filter (fun kv => P kv.2 = true) procs)).

Definition uses (l : nat) (ph : phase) : bool :=
  match at_lock ph with Some (_, l') => bool_decide (l' = l) | None => false end.
Definition owns (l : nat) (ph : phase) : bool :=
  match holds ph with Some l' => bool_decide (l' = l) | None => false end.

Lemma count_insert (P : phase -> bool) procs p ph :
  P Idle = false ->
  count P (<[p := ph]> procs) =
  (count P procs - Z.b2z (P (default Idle (procs !! p))) + Z.b2z (P ph))%Z.
Proof.
  intros Hidle. unfold count. rewrite map_filter_insert. cbn.
  assert (Z.of_nat (size (delete p (filter (fun kv : nat * phase => P kv.2 = true) procs))) =
    (Z.of_nat (size (filter (fun kv : nat * phase => P kv.2 = true) procs)) -
     Z.b2z (P (default Idle (procs !! p))))%Z) as Hdel.
  { destruct (procs !! p) as [q|] eqn:Hp; cbn.
    - destruct (P q) eqn:HP; cbn.
      + rewrite map_size_delete_Some; [|exists q; by apply map_lookup_filter_Some].
        assert (size (filter (fun kv : nat * phase => P kv.2 = true) procs) <> 0%nat); [|lia].
        apply map_size_non_empty_iff. intros He.
        assert (filter (fun kv : nat * phase => P kv.2 = true) procs !! p = Some q) as Hq
          by by apply map_lookup_filter_Some.
        by rewrite He in Hq.
      + rewrite delete_id; [lia|]. apply map_lookup_filter_None. right. intros x Hx. cbn. congruence.
    - rewrite Hidle. rewrite delete_id; [cbn; lia|]. apply map_lookup_filter_None. by left. }
  destruct (P ph) eqn:HP.
  - rewrite decide_True by done. rewrite <- insert_delete_eq, map_size_insert_None by apply lookup_delete_eq.
    cbn. lia.
  - rewrite decide_False by done. rewrite map_filter_delete. cbn. lia.
Qed.

Lemma filter_phase (P : phase -> bool) (s : System) p :
  P Idle = false -> P (phase_of s p) = true ->
  exists ph, filter (fun kv => P kv.2 = true) (sys_procs s) !! p = Some ph.
Proof.
  unfold phase_of. intros Hidle HP. destruct (sys_procs s !! p) as [ph|] eqn:Hp; cbn in HP; [|congruence].
  exists ph. by apply map_lookup_filter_Some.
Qed.

Lemma count_nonneg P procs : (0 <= count P procs)%Z.
Proof. unfold count. lia. Qed.

Lemma count_pos (P : phase -> bool) (s : System) p :
  P Idle = false -> P (phase_of s p) = true -> (0 < count P (sys_procs s))%Z.
Proof.
  intros Hi HP. destruct (filter_phase _ _ _ Hi HP) as [ph Hp]. unfold count.
  assert (size (filter (fun kv => P kv.2 = true) (sys_procs s)) <> 0%nat); [|lia].
  apply map_size_non_empty_iff. intros He. by rewrite He in Hp.
Qed.

Lemma count_one (P : phase -> bool) (s : System) p q :
  P Idle = false -> (count P (sys_procs s) <= 1)%Z ->
  P (phase_of s p) = true -> P (phase_of s q) = true -> p = q.
Proof.
  intros Hi Hc Hp Hq. destruct (decide (p = q)) as [|Hne]; [done|]. exfalso.
  pose proof (count_insert P (sys_procs s) p Idle Hi) as Hins. rewrite Hi in Hins.
  change (default Idle (sys_procs s !! p)) with (phase_of s p) in Hins. rewrite Hp in Hins. cbn in Hins.
  assert (0 < count P (sys_procs (mkSystem (sys_locks s) (<[p := Idle]> (sys_procs s)))))%Z as Hpos.
  { apply (count_pos P _ q Hi). unfold phase_of. cbn. by rewrite lookup_insert_ne. }
  cbn in Hpos. lia.
Qed.

Lemma count_none (P : phase -> bool) (s : System) :
  (forall p, P (phase_of s p) = false) -> count P (sys_procs s) = 0%Z.
Proof.
  intros HP. unfold count. rewrite map_empty_filter_2; [by rewrite map_size_empty|].
  intros p ph Hp Hph. specialize (HP p). unfold phase_of in HP. rewrite Hp in HP. cbn in *. congruence.
Qed.

(** ** The invariant *)

Definition lock_inv (s : System) : Prop :=
  (forall p k l, at_lock (phase_of s p) = Some (k, l) -> locks (sys_locks s) !! k = Some l) /\
  (forall k l, locks (sys_locks s) !! k = Some l ->
     exists o, objects (sys_locks s) !! l = Some o /\ (0 < users o)%Z) /\
  (forall k1 k2 l, locks (sys_locks s) !! k1 = Some l -> locks (sys_locks s) !! k2 = Some l -> k1 = k2) /\
  (forall l o, objects (sys_locks s) !! l = Some o ->
     users o = count (uses l) (sys_procs s) /\ Z.b2z (negb (gate o)) = count (owns l) (sys_procs s)).

Lemma start_inv : lock_inv start.
Proof. split_and!; cbn; [done|..]; intros; set_solver. Qed.

Lemma uses_iff l ph : uses l ph = true <-> exists k, at_lock ph = Some (k, l).
Proof.
  unfold uses. destruct (at_lock ph) as [[k l']|]; [rewrite bool_decide_eq_true|]; naive_solver.
Qed.

(** A step of process [p] that does not touch the table or the use counts: the
    object of its lock gets the gate it should have. *)
Lemma goes_phase s p ph ls q : phase_of (goes s p ph ls) q = if decide (p = q) then ph else phase_of s q.
Proof. unfold phase_of. cbn. rewrite lookup_insert. by case_decide. Qed.

Lemma goes_count P s p ph ls :
  P Idle = false ->
  count P (sys_procs (goes s p ph ls)) = (count P (sys_procs s) - Z.b2z (P (phase_of s p)) + Z.b2z (P ph))%Z.
Proof. apply count_insert. Qed.

(** Steps that stay at the same lock: only the gate and the owner change. *)
Lemma move_inv s p ph k l o g :
  lock_inv s -> at_lock (phase_of s p) = Some (k, l) -> at_lock ph = Some (k, l) ->
  objects (sys_locks s) !! l = Some o ->
  (Z.b2z (negb g) = Z.b2z (negb (gate o)) - Z.b2z (owns l (phase_of s p)) + Z.b2z (owns l ph))%Z ->
  lock_inv (goes s p ph (mkLocks (locks (sys_locks s)) (<[l := mkLock g (users o)]> (objects (sys_locks s))))).
Proof.
  intros (H1 & H2 & H3 & H4) Hp Hph Ho Hg. split_and!; cbn [sys_locks goes locks objects].
  - intros q k' l'. rewrite goes_phase. case_decide; [|by apply H1]. subst. rewrite Hph. intros [= <- <-].
    by apply (H1 q).
  - intros k' l' Hk. destruct (H2 _ _ Hk) as (o' & Ho' & Hu). rewrite lookup_insert.
    case_decide; [|eauto]. subst. eexists. split; [done|]. cbn. congruence.
  - done.
  - intros l' o'. rewrite !goes_count by done. rewrite lookup_insert.
    assert (uses l' (phase_of s p) = uses l' ph) as -> by (unfold uses; by rewrite Hp, Hph).
    case_decide as Hl; intros Hl'.
    + subst. injection Hl' as <-. destruct (H4 _ _ Ho) as [Hu Hgate]. cbn. split; lia.
    + destruct (H4 _ _ Hl') as [Hu Hgate]. rewrite Hu, Hgate.
      assert (forall x, at_lock x = Some (k, l) -> owns l' x = false) as Hno.
      { intros x Hx. unfold owns. destruct x; try done. apply bool_decide_false. by injection Hx as -> ->. }
      rewrite !Hno by done. cbn. lia.
Qed.

Lemma refuse_inv s p : lock_inv s -> phase_of s p = Idle -> lock_inv (goes s p Finished (sys_locks s)).
Proof.
  intros (H1 & H2 & H3 & H4) Hp. split_and!; auto.
  - intros q k l. rewrite goes_phase. case_decide; [done|]. apply H1.
  - intros l o Ho. rewrite !goes_count, Hp by done. cbn. destruct (H4 _ _ Ho). split; lia.
Qed.

Lemma enter_inv s p key :
  lock_inv s -> phase_of s p = Idle ->
  lock_inv (goes s p (Waiting key (ref (sys_locks s) key).1) (ref (sys_locks s) key).2).
Proof.
  intros (H1 & H2 & H3 & H4) Hp. unfold ref.
  destruct (locks (sys_locks s) !! key) as [l|] eqn:Hk; cbn [fst snd].
  - destruct (H2 _ _ Hk) as (o & Ho & Hu). split_and!; cbn [sys_locks goes locks objects].
    + intros q k' l'. rewrite goes_phase. case_decide; [by intros [= <- <-]|apply H1].
    + intros k' l' Hk'. destruct (H2 _ _ Hk') as (o' & Ho' & Hu'). rewrite lookup_alter.
      case_decide as Hl; [subst l'|by eauto]. rewrite Ho'. eexists. split; [done|]. cbn [users]. lia.
    + done.
    + intros l' o'. rewrite !goes_count, Hp, lookup_alter by done.
      assert (uses l' (Waiting key l) = bool_decide (l = l')) as -> by done.
      assert (owns l' (Waiting key l) = false) as -> by done.
      case_decide as Hl; [subst l'; rewrite Ho|]; intros Ho'.
      * injection Ho' as <-. destruct (H4 _ _ Ho). rewrite bool_decide_true by done. cbn in *. split; lia.
      * destruct (H4 _ _ Ho'). rewrite bool_decide_false by done. cbn in *. split; lia.
  - set (l := fresh (dom (objects (sys_locks s)))).
    assert (objects (sys_locks s) !! l = None) as Hl by apply not_elem_of_dom, is_fresh.
    assert (forall k', locks (sys_locks s) !! k' <> Some l) as Hfree.
    { intros k' Hk'. destruct (H2 _ _ Hk') as (o & Ho & _). congruence. }
    assert (forall q k', at_lock (phase_of s q) <> Some (k', l)) as Hnone.
    { intros q k' Hq. by eapply Hfree, H1. }
    split_and!; cbn [sys_locks goes locks objects].
    + intros q k' l'. rewrite goes_phase. case_decide.
      * intros [= <- <-]. apply lookup_insert_eq.
      * intros Hq. rewrite lookup_insert_ne; [by apply (H1 q)|]. intros <-.
        specialize (H1 _ _ _ Hq). congruence.
    + intros k' l'. rewrite lookup_insert. case_decide.
      * intros [= <-]. rewrite lookup_insert_eq. by eexists.
      * intros Hk'. destruct (H2 _ _ Hk') as (o & Ho & Hu). rewrite lookup_insert_ne; [eauto|].
        intros <-. by apply (Hfree k').
    + intros k1 k2 l'. rewrite !lookup_insert. repeat case_decide; subst; try done.
      * intros [= <-] Hk2. by destruct (Hfree _ Hk2).
      * intros Hk1 [= <-]. by destruct (Hfree _ Hk1).
      * apply H3.
    + intros l' o. rewrite !goes_count, Hp by done. rewrite lookup_insert.
      assert (uses l' (Waiting key l) = bool_decide (l = l')) as -> by done.
      assert (owns l' (Waiting key l) = false) as -> by done.
      case_decide as Hd; [subst l'|]; intros Ho.
      * injection Ho as <-. rewrite bool_decide_true by done.
        rewrite !count_none; [done| |].
        -- intros q. unfold owns. destruct (phase_of s q) as [| | |k' l'| |] eqn:Eq; try done.
           apply bool_decide_false. intros ->. apply (Hnone q k'). by rewrite Eq.
        -- intros q. apply not_true_is_false. rewrite uses_iff. intros [k' Hq]. by apply (Hnone q k').
      * rewrite bool_decide_false by done. destruct (H4 _ _ Ho). cbn in *. split; lia.
Qed.

Lemma unref_inv s p key l :
  lock_inv s -> phase_of s p = Giving_up key l \/ phase_of s p = Returned key l ->
  lock_inv (goes s p Finished (unref (sys_locks s) key l)).
Proof.
  intros (H1 & H2 & H3 & H4) Hp.
  assert (at_lock (phase_of s p) = Some (key, l)) as Hat by (by destruct Hp as [-> | ->]).
  assert (uses l (phase_of s p) = true) as Huse by (apply uses_iff; eauto).
  assert (forall l', owns l' (phase_of s p) = false) as Hown by (by destruct Hp as [-> | ->]).
  pose proof (H1 _ _ _ Hat) as Hk. destruct (H2 _ _ Hk) as (o & Ho & Hu).
  destruct (H4 _ _ Ho) as [Hcu Hcg].
  unfold unref. rewrite Ho. cbv zeta. cbn [users].
  assert (forall q k' l', at_lock (phase_of s q) = Some (k', l') -> q <> p -> users o = 1%Z -> k' <> key) as Hlast.
  { intros q k' l' Hq Hne H0 ->. apply Hne. apply (count_one (uses l) s); [done|lia| |done].
    apply uses_iff. exists key. rewrite Hq. do 2 f_equal. specialize (H1 _ _ _ Hq). congruence. }
  split_and!; cbn [sys_locks goes locks objects].
  - intros q k' l'. rewrite goes_phase. case_decide as Hq; [done|]. intros Hat'.
    case_decide; [|by apply (H1 q)]. rewrite lookup_delete_ne; [by apply (H1 q)|].
    intros <-. eapply Hlast; eauto; lia.
  - intros k' l' Hk'. rewrite lookup_insert. destruct (decide (l = l')) as [<-|Hl].
    + eexists. split; [done|]. cbn. case_decide as H0; [|lia].
      apply lookup_delete_Some in Hk' as [Hne Hk']. by destruct (Hne (H3 _ _ _ Hk Hk')).
    + apply (H2 k'). case_decide; [by apply lookup_delete_Some in Hk' as [_ ?]|done].
  - intros k1 k2 l'. case_decide; [|apply H3]. rewrite !lookup_delete_Some. intros [_ ?] [_ ?]. by eapply H3.
  - intros l' o'. rewrite !goes_count, Hown by done. rewrite lookup_insert.
    destruct (decide (l = l')) as [<-|Hl]; intros Ho'.
    + injection Ho' as <-. rewrite Huse. cbn. cbn in Hcg. split; lia.
    + destruct (H4 _ _ Ho').
      assert (uses l' (phase_of s p) = false) as ->.
      { unfold uses. rewrite Hat. by apply bool_decide_false. }
      cbn in *. split; lia.
Qed.

Lemma lock_step_inv s s' : lock_step s s' -> lock_inv s -> lock_inv s'.
Proof.
  intros Hstep Hi. destruct Hstep as [s p Hp|s p key Hp|s p key l s' Hp Hr|s p key l Hp|s p key l s' Hp Hr|s p key l Hp].
  - by apply refuse_inv.
  - by apply enter_inv.
  - unfold receive in Hr. destruct (objects (sys_locks s) !! l) as [o|] eqn:Ho; [|done].
    destruct (gate o) eqn:Hg; [|done]. injection Hr as <-. eapply (move_inv s p _ key l o false); eauto.
    + by rewrite Hp.
    + rewrite Hp, Hg. cbn. unfold owns. cbn. by rewrite bool_decide_true.
  - destruct Hi as (H1 & H2 & H3 & H4).
    assert (is_Some (objects (sys_locks s) !! l)) as [o Ho].
    { destruct (H2 key l) as (o & Ho & _); [|eauto]. apply (H1 p). by rewrite Hp. }
    assert (sys_locks s = mkLocks (locks (sys_locks s))
      (<[l := mkLock (gate o) (users o)]> (objects (sys_locks s)))) as Heq.
    { destruct s as [[ls os] ps]. cbn in *. f_equal. symmetry. apply insert_id. by destruct o. }
    rewrite Heq. eapply (move_inv s p _ key l o); [done|by rewrite Hp|done|done|].
    rewrite Hp. cbn. lia.
  - unfold send in Hr. destruct (objects (sys_locks s) !! l) as [o|] eqn:Ho; [|done].
    destruct (gate o) eqn:Hg; [done|]. injection Hr as <-. eapply (move_inv s p _ key l o true); eauto.
    + by rewrite Hp.
    + rewrite Hp, Hg. cbn. unfold owns. cbn. by rewrite bool_decide_true.
  - by apply unref_inv.
Qed.

Lemma reachable_inv s : rtc lock_step start s -> lock_inv s.
Proof.
  intros Hr. pose proof start_inv as Hinv. induction Hr as [|s1 s2 s3 Hstep _ IH]; [done|].
  apply IH. by eapply lock_step_inv.
Qed.

(** ** Properties *)

(** C20. The keyed lock is correct under every interleaving of acquisitions,
    time-outs and releases. At most one process holds the lock of a key. A
    release never blocks. A process waiting for a key nobody holds can take its
    lock at once: no wake-up is lost. And the table has an entry for a key
    exactly while some process is using it, so idle keys leave nothing
    behind. *)
Theorem cache_lock_correct s :
  rtc lock_step start s ->
  (forall p q key l l', phase_of s p = Holding key l -> phase_of s q = Holding key l' -> p = q) /\
  (forall p key l, phase_of s p = Holding key l -> is_Some (send (sys_locks s) l)) /\
  (forall p key l, phase_of s p = Waiting key l ->
     (exists q, phase_of s q = Holding key l) \/ is_Some (receive (sys_locks s) l)) /\
  (forall key, is_Some (locks (sys_locks s) !! key) <->
     exists p l, at_lock (phase_of s p) = Some (key, l)).
Proof.
  intros Hr. apply reachable_inv in Hr as (H1 & H2 & H3 & H4).
  assert (forall p key l, at_lock (phase_of s p) = Some (key, l) ->
    exists o, objects (sys_locks s) !! l = Some o) as Hobj.
  { intros p key l Hp. destruct (H2 key l) as (o & Ho & _); eauto. }
  split_and!.
  - intros p q key l l' Hp Hq.
    assert (l' = l) as ->.
    { enough (Some l' = Some l) by congruence. rewrite <- (H1 q key l'), <- (H1 p key l); [done|..];
        by rewrite ?Hp, ?Hq. }
    destruct (Hobj p key l) as [o Ho]; [by rewrite Hp|]. destruct (H4 _ _ Ho) as [_ Hg].
    apply (count_one (owns l) s); [done| |by rewrite Hp; apply bool_decide_true..|].
    + rewrite <- Hg. destruct (gate o); cbn; lia.
    + rewrite Hq. by apply bool_decide_true.
  - intros p key l Hp. destruct (Hobj p key l) as [o Ho]; [by rewrite Hp|]. destruct (H4 _ _ Ho) as [_ Hg].
    unfold send. rewrite Ho. destruct (gate o); [|by eexists].
    pose proof (count_pos (owns l) s p eq_refl) as Hpos. cbn in Hg. rewrite Hp in Hpos.
    specialize (Hpos (bool_decide_true _ eq_refl)). lia.
  - intros p key l Hp. destruct (Hobj p key l) as [o Ho]; [by rewrite Hp|]. destruct (H4 _ _ Ho) as [_ Hg].
    unfold receive. rewrite Ho. destruct (gate o); [right; by eexists|left].
    destruct (decide (map_Exists (fun _ ph => owns l ph = true) (sys_procs s))) as [(q & ph & Hq & Hph)|Hno].
    + exists q. assert (phase_of s q = ph) as Hqp by (unfold phase_of; by rewrite Hq).
      destruct ph as [| | |k' l'| |]; try done. apply bool_decide_eq_true in Hph as ->.
      rewrite Hqp. f_equal. eapply H3; [apply (H1 q); by rewrite Hqp|apply (H1 p); by rewrite Hp].
    + rewrite count_none in Hg; [done|]. intros q. unfold phase_of.
      destruct (sys_procs s !! q) as [ph|] eqn:Hq; [|done]. cbn. destruct (owns l ph) eqn:He; [|done].
      destruct Hno. by exists q, ph.
  - intros key. split.
    + intros [l Hl]. destruct (H2 _ _ Hl) as (o & Ho & Hu). destruct (H4 _ _ Ho) as [Hc _].
      destruct (decide (map_Exists (fun _ ph => uses l ph = true) (sys_procs s))) as [(q & ph & Hq & Hph)|Hno].
      * exists q, l. assert (phase_of s q = ph) as Hqp by (unfold phase_of; by rewrite Hq).
        apply uses_iff in Hph as [k' Hk']. rewrite Hqp, Hk'. do 2 f_equal.
        eapply H3; [apply (H1 q); by rewrite Hqp|done].
      * rewrite count_none in Hc; [lia|]. intros q. unfold phase_of.
        destruct (sys_procs s !! q) as [ph|] eqn:Hq; [|done]. cbn. destruct (uses l ph) eqn:He; [|done].
        destruct Hno. by exists q, ph.
    + intros (p & l & Hp). rewrite (H1 _ _ _ Hp). by eexists.
Qed.

(** Process 1 holds the lock of a script, process 2 waits for it. *)
Definition entered (s : System) (p : nat) : System :=
  goes s p (Waiting "script" (ref (sys_locks s) "script").1) (ref (sys_locks s) "script").2.

Definition contended : System :=
  entered (goes (entered start 1) 1 (Holding "script" 0)
             (default NewLocks (receive (sys_locks (entered start 1)) 0))) 2.

Lemma contended_reachable : rtc lock_step start contended.
Proof.
  eapply rtc_l; [apply (Enter start 1 "script"); reflexivity|].
  eapply rtc_l; [eapply (Acquire _ 1 "script" 0); reflexivity|].
  eapply rtc_l; [apply (Enter _ 2 "script"); reflexivity|]. apply rtc_refl.
Qed.

Lemma cache_lock_correct_witness :
  is_Some (send (sys_locks contended) 0) /\ is_Some (locks (sys_locks contended) !! "script"%string).
Proof.
  destruct (cache_lock_correct contended contended_reachable) as (_ & H2 & _ & H4). split.
  - apply (H2 1%nat "script"%string). reflexivity.
  - apply H4. exists 2%nat, 0%nat. reflexivity.
Defined.
