(* ===== verification/RedisLock.v ===== *)
(** * The lease lock of the Redis cache (outbound/redis_cache_lock.go)

    [AcquireLock] first takes a lock of its own process (the memory cache's keyed
    lock, CacheLock.v), then a lease on the server: a key with a token of the
    caller that expires after thirty seconds unless a goroutine renews it. Release
    stops the goroutine, deletes the key if it still carries the token, and gives
    the process lock back.

    Any number of callers in any number of processes are a transition system
    whose steps are the commands on the server, each at some later instant of its
    clock, and the operations of the process lock; replies may get lost.
    [lease_lock_exclusive]: while a lease has not run out nobody else holds the
    lock, and a late release or renewal cannot hurt a later owner.
    [lease_lock_forged]: keys of locks and keys of cache entries share one name
    space. *)

From Stdlib Require Import ZArith Lia.
From stdpp Require Import base list strings gmap option relations.
From S2P Require Import Prelude GoFmt LValue LExtract LParse LRoundtrip Smus Effects Ports SessionStore Cache RedisCache.

Open Scope Z_scope.

(** ** The commands of a caller *)

Section Commands.
Context (c : RedisCache).

Definition lock_key (key : string) : string := rc_key c ("lock:" +:+ key).

Definition set_lease (key : string) (token : bytes) : rc_cmd bool := RSetNX (lock_key key) token lock_ttl.
Definition renewCacheLock (key : string) (token : bytes) : rc_cmd Z := REvalRenew (lock_key key) token.
Definition releaseCacheLock (key : string) (token : bytes) : rc_cmd Z := REvalRelease (lock_key key) token.
End Commands.

(** ** Callers *)

(** Where a call of [AcquireLock] and the lock it returned are. [until] is when
    the lease that was last set or renewed runs out; [lost] says that the
    operation's context has been cancelled by the renewal goroutine. *)
Inductive lphase :=
| LIdle
| LLocal
| LHeld (until : Z) (lost : bool)
| LStopped (until : Z) (lost : bool)
| LReleased
| LDone.

Record LockSystem := mkLockSystem {
  ls_keys : RcKeys;
  ls_clock : Z;
  ls_phase : gmap nat lphase;
  (** the process lock: its holder, by process *)
  ls_local : gmap nat nat
}.

Definition phase_at (s : LockSystem) (p : nat) : lphase := default LIdle (ls_phase s !! p).

(** The instant until which the caller may rely on its lease. *)
Definition lease (ph : lphase) : option Z :=
  match ph with LHeld d _ | LStopped d _ => Some d | _ => None end.

Definition prolonged (ph : lphase) (d : Z) : lphase :=
  match ph with LHeld _ lost => LHeld d lost | LStopped _ lost => LStopped d lost | _ => ph end.

Section System.
Context (c : RedisCache) (key : string).
(** The process a caller runs in, and its token ([uuid.NewString()]). *)
Context (process : nat -> nat) (token : nat -> bytes).

Definition to_phase (s : LockSystem) (t : Z) (ks : RcKeys) (p : nat) (ph : lphase) : LockSystem :=
  mkLockSystem ks t (<[p := ph]> (ls_phase s)) (ls_local s).

Definition with_local (s : LockSystem) (l : gmap nat nat) : LockSystem :=
  mkLockSystem (ls_keys s) (ls_clock s) (ls_phase s) l.

(** What the renewal goroutine does with the server's answer. *)
Definition renewed (s : LockSystem) (p : nat) (t : Z) (d : Z) (lost : bool) : lphase :=
  if owned t (ls_keys s) (lock_key c key) (token p) then LHeld (t + lock_ttl) lost else LHeld d true.

Definition late (t : Z) (p : nat) (ks ks' : RcKeys) : Prop :=
  ks' = rc_next t (set_lease c key (token p)) ks \/
  ks' = rc_next t (renewCacheLock c key (token p)) ks \/
  ks' = rc_next t (releaseCacheLock c key (token p)) ks.

Inductive lstep : LockSystem -> LockSystem -> Prop :=
(** the process lock *)
| LEnter s p :
    phase_at s p = LIdle -> ls_local s !! process p = None ->
    lstep s (with_local (to_phase s (ls_clock s) (ls_keys s) p LLocal) (<[process p := p]> (ls_local s)))
(** [SETNX] grants the lease, or finds the key taken *)
| LGranted s p t :
    phase_at s p = LLocal -> ls_clock s <= t -> rc_lookup t (ls_keys s) (lock_key c key) = None ->
    lstep s (to_phase s t (rc_next t (set_lease c key (token p)) (ls_keys s)) p (LHeld (t + lock_ttl) false))
| LRefused s p t :
    phase_at s p = LLocal -> ls_clock s <= t -> is_Some (rc_lookup t (ls_keys s) (lock_key c key)) ->
    lstep s (to_phase s t (rc_next t (set_lease c key (token p)) (ls_keys s)) p LLocal)
(** the deadline of the caller has passed, or the command failed *)
| LGiveUp s p :
    phase_at s p = LLocal -> lstep s (to_phase s (ls_clock s) (ls_keys s) p LReleased)
(** the renewal goroutine *)
| LRenew s p t d lost :
    phase_at s p = LHeld d lost -> ls_clock s <= t ->
    lstep s (to_phase s t (rc_next t (renewCacheLock c key (token p)) (ls_keys s)) p (renewed s p t d lost))
| LRenewFailed s p d lost :
    phase_at s p = LHeld d lost -> lstep s (to_phase s (ls_clock s) (ls_keys s) p (LHeld d true))
(** a renewal whose answer is lost or that arrives late, before or after the goroutine stopped *)
| LRenewLate s p t d ph :
    lease (phase_at s p) = Some d -> ls_clock s <= t ->
    ph = (if owned t (ls_keys s) (lock_key c key) (token p) then prolonged (phase_at s p) (t + lock_ttl)
          else phase_at s p) ->
    lstep s (to_phase s t (rc_next t (renewCacheLock c key (token p)) (ls_keys s)) p ph)
(** release: the goroutine is stopped, the key deleted, the process lock given back *)
| LStop s p d lost :
    phase_at s p = LHeld d lost -> lstep s (to_phase s (ls_clock s) (ls_keys s) p (LStopped d lost))
| LRelease s p t d lost :
    phase_at s p = LStopped d lost -> ls_clock s <= t ->
    lstep s (to_phase s t (rc_next t (releaseCacheLock c key (token p)) (ls_keys s)) p LReleased)
| LReleaseFailed s p d lost :
    phase_at s p = LStopped d lost -> lstep s (to_phase s (ls_clock s) (ls_keys s) p LReleased)
| LLeave s p :
    phase_at s p = LReleased ->
    lstep s (with_local (to_phase s (ls_clock s) (ls_keys s) p LDone) (delete (process p) (ls_local s)))
(** a command of a caller that has no lease (any more) or does not know of it: the
    client gave up on it or repeats it, the server runs it all the same *)
| LLate s p t ks :
    lease (phase_at s p) = None -> ls_clock s <= t -> late t p (ls_keys s) ks ->
    lstep s (mkLockSystem ks t (ls_phase s) (ls_local s))
(** everything else on the server, and time *)
| LOther s ks t :
    ls_clock s <= t -> ks !! lock_key c key = ls_keys s !! lock_key c key ->
    lstep s (mkLockSystem ks t (ls_phase s) (ls_local s)).

(** ** The invariant *)

(** The caller owns the process lock. *)
Definition inside_process (ph : lphase) : bool :=
  match ph with LLocal | LHeld _ _ | LStopped _ _ | LReleased => true | _ => false end.

(** Nothing on the key outlives a lease that is set now. *)
Definition bounded (t : Z) (ks : RcKeys) : Prop :=
  forall e, ks !! lock_key c key = Some e -> exists d, rc_expiry e = Some d /\ d <= t + lock_ttl.

Definition lease_inv (s : LockSystem) : Prop :=
  (forall p, inside_process (phase_at s p) = true <-> ls_local s !! process p = Some p) /\
  (forall p d, lease (phase_at s p) = Some d -> ls_clock s <= d ->
     ls_keys s !! lock_key c key = Some (mkRc (RString (token p)) (Some d))).

Definition lock_start (ks : RcKeys) (t : Z) : LockSystem := mkLockSystem ks t ∅ ∅.

Lemma lock_start_inv ks t : lease_inv (lock_start ks t).
Proof.
  split; intros p; unfold phase_at; cbn; rewrite lookup_empty; cbn; [|done].
  by rewrite lookup_empty.
Qed.

Lemma phase_to s t ks p ph q :
  phase_at (to_phase s t ks p ph) q = if decide (q = p) then ph else phase_at s q.
Proof.
  unfold phase_at, to_phase. cbn. case_decide as E; [subst; by rewrite lookup_insert_eq|by rewrite lookup_insert_ne].
Qed.

(** A step of [p] that keeps it inside its process. *)
Lemma local_kept s t ks p ph :
  (forall q, inside_process (phase_at s q) = true <-> ls_local s !! process q = Some q) ->
  inside_process (phase_at s p) = true -> inside_process ph = true ->
  forall q, inside_process (phase_at (to_phase s t ks p ph) q) = true <->
    ls_local (to_phase s t ks p ph) !! process q = Some q.
Proof.
  intros Hl Hp Hph q. rewrite phase_to. case_decide as E; [|apply Hl]. subst q. cbn. rewrite Hph.
  split; [|done]. intros _. by apply Hl.
Qed.

Lemma alive_lookup t (ks : RcKeys) k v d :
  ks !! k = Some (mkRc (RString v) (Some d)) -> t <= d -> rc_lookup t ks k = Some (mkRc (RString v) (Some d)).
Proof.
  intros Hk Ht. unfold rc_lookup. rewrite Hk. cbn. unfold rc_alive. cbn. by rewrite (proj2 (Z.ltb_ge _ _)) by lia.
Qed.

Lemma owned_alive t ks k v d tok :
  ks !! k = Some (mkRc (RString v) (Some d)) -> t <= d -> owned t ks k tok = bool_decide (v = tok).
Proof. intros Hk Ht. unfold owned, string_at. by rewrite (alive_lookup t ks k v d). Qed.

Context `{!Inj (=) (=) token}.

Abbreviation K := (lock_key c key).
Abbreviation entry_of := (fun p d => mkRc (RString (token p)) (Some d)).

(** The leases after a step of [p]: the others' are untouched as long as they
    run, its own is on the server. *)
Lemma leases_kept s t ks p ph :
  lease_inv s -> ls_clock s <= t ->
  (forall q d, q <> p -> t <= d -> ls_keys s !! K = Some (entry_of q d) -> ks !! K = Some (entry_of q d)) ->
  (forall d, lease ph = Some d -> t <= d -> ks !! K = Some (entry_of p d)) ->
  forall q d, lease (phase_at (to_phase s t ks p ph) q) = Some d -> t <= d -> ks !! K = Some (entry_of q d).
Proof.
  intros [_ Hk] Ht Hother Hown q d. rewrite phase_to. case_decide as E; [subst; apply Hown|].
  intros Hq Hd. apply Hother; [done..|]. apply Hk; [done|lia].
Qed.

(** The commands leave a running lease of another caller alone. *)
Lemma set_lease_other s t q d p :
  t <= d -> ls_keys s !! K = Some (entry_of q d) ->
  rc_next t (set_lease c key (token p)) (ls_keys s) !! K = Some (entry_of q d).
Proof. intros Hd Hk. cbn. by rewrite (alive_lookup t _ _ _ _ Hk Hd). Qed.

Lemma eval_other s t q d p :
  q <> p -> t <= d -> ls_keys s !! K = Some (entry_of q d) -> owned t (ls_keys s) K (token p) = false.
Proof.
  intros Hqp Hd Hk. rewrite (owned_alive t _ _ _ _ _ Hk Hd). apply bool_decide_eq_false. intros E.
  by apply Hqp, (inj token).
Qed.

Lemma own_lease_owned s t p d :
  lease_inv s -> lease (phase_at s p) = Some d -> ls_clock s <= t -> t <= d ->
  owned t (ls_keys s) K (token p) = true.
Proof.
  intros [_ Hk] Hp Hc Hd. assert (E : ls_keys s !! K = Some (entry_of p d)) by (apply Hk; [done|lia]).
  rewrite (owned_alive t _ _ _ _ _ E Hd). by apply bool_decide_eq_true.
Qed.

(** The process lock on entering and leaving. *)
Lemma local_entered s p ph :
  (forall q, inside_process (phase_at s q) = true <-> ls_local s !! process q = Some q) ->
  ls_local s !! process p = None -> inside_process ph = true ->
  forall q, inside_process (phase_at (to_phase s (ls_clock s) (ls_keys s) p ph) q) = true <->
    <[process p := p]> (ls_local s) !! process q = Some q.
Proof.
  intros Hl Hn Hph q. rewrite phase_to. case_decide as E; [subst; by rewrite lookup_insert_eq, Hph|].
  destruct (decide (process q = process p)) as [Eq|Ne]; [|by rewrite lookup_insert_ne].
  rewrite Eq, lookup_insert_eq. rewrite Hl, Eq, Hn. split; [done|]. intros [= ->]. done.
Qed.

Lemma local_left s p :
  (forall q, inside_process (phase_at s q) = true <-> ls_local s !! process q = Some q) ->
  inside_process (phase_at s p) = true ->
  forall q, inside_process (phase_at (to_phase s (ls_clock s) (ls_keys s) p LDone) q) = true <->
    delete (process p) (ls_local s) !! process q = Some q.
Proof.
  intros Hl Hp q. rewrite phase_to. apply Hl in Hp. case_decide as E; [subst; by rewrite lookup_delete_eq|].
  destruct (decide (process q = process p)) as [Eq|Ne]; [|by rewrite lookup_delete_ne].
  rewrite Eq, lookup_delete_eq. rewrite Hl, Eq, Hp. split; [intros [= ->]; done|done].
Qed.

(** A step of [p] inside its process. *)
Lemma inside_step s t ks p ph :
  lease_inv s -> inside_process (phase_at s p) = true -> inside_process ph = true -> ls_clock s <= t ->
  (forall q d, q <> p -> t <= d -> ls_keys s !! K = Some (entry_of q d) -> ks !! K = Some (entry_of q d)) ->
  (forall d, lease ph = Some d -> t <= d -> ks !! K = Some (entry_of p d)) ->
  lease_inv (to_phase s t ks p ph).
Proof.
  intros Hi Hp Hph Ht Hother Hown. split; [by apply local_kept; [apply Hi|..]|]. by apply leases_kept.
Qed.

Lemma late_other s t p ks q d :
  late t p (ls_keys s) ks -> lease (phase_at s p) = None -> lease (phase_at s q) = Some d -> t <= d ->
  ls_keys s !! K = Some (entry_of q d) -> ks !! K = Some (entry_of q d).
Proof.
  intros Hl Hp Hq Hd Hk. assert (q <> p) as Hqp by (intros ->; congruence).
  destruct Hl as [->|[->| ->]]; [by apply set_lease_other|cbn; by rewrite (eval_other s t q d)..].
Qed.

Lemma inside_lease ph d : lease ph = Some d -> inside_process ph = true.
Proof. by destruct ph. Qed.

Lemma lease_prolonged ph d : is_Some (lease ph) -> lease (prolonged ph d) = Some d.
Proof. by destruct ph; intros []. Qed.

Lemma renew_late_inv s p t d :
  lease_inv s -> lease (phase_at s p) = Some d -> ls_clock s <= t ->
  lease_inv (to_phase s t (rc_next t (renewCacheLock c key (token p)) (ls_keys s)) p
    (if owned t (ls_keys s) K (token p) then prolonged (phase_at s p) (t + lock_ttl) else phase_at s p)).
Proof.
  intros Hi Hp Ht. apply inside_step; try done.
  - by eapply inside_lease.
  - destruct (owned _ _ _ _); [|by eapply inside_lease]. eapply inside_lease, lease_prolonged. by eexists.
  - intros q d' Hqp Hd Hk. cbn. by rewrite (eval_other s t q d').
  - intros d' Hd' Hle. cbn. destruct (owned t (ls_keys s) K (token p)) eqn:E.
    + rewrite lease_prolonged in Hd' by (by eexists). injection Hd' as <-. by rewrite lookup_insert_eq.
    + rewrite Hp in Hd'. injection Hd' as <-. by rewrite (own_lease_owned s t p d) in E.
Qed.

Lemma lstep_inv s s' : lease_inv s -> lstep s s' -> lease_inv s'.
Proof.
  intros Hi Hs. destruct Hs as [s p Hp Hn|s p t Hp Ht Hk|s p t Hp Ht Hk|s p Hp|s p t d lost Hp Ht
    |s p d lost Hp|s p t d ph Hp Ht ->|s p d lost Hp|s p t d lost Hp Ht|s p d lost Hp|s p Hp
    |s p t ks Hp Ht Hl|s ks t Ht Hk].
  - split; [by apply local_entered; [apply Hi|..]|]. intros q d. cbn. intros Hq Hd.
    eapply (leases_kept s (ls_clock s) (ls_keys s) p LLocal); done.
  - apply inside_step; try done; [by rewrite Hp|intros q d _; apply set_lease_other|].
    intros d [= <-] _. cbn. by rewrite Hk, lookup_insert_eq.
  - apply inside_step; try done; [by rewrite Hp|intros q d _; apply set_lease_other].
  - apply inside_step; try done. by rewrite Hp.
  - apply inside_step; try done; [by rewrite Hp|unfold renewed; by destruct (owned _ _ _ _)| |].
    + intros q d' Hqp Hd Hk. cbn. by rewrite (eval_other s t q d').
    + intros d' Hd' Hle. unfold renewed in Hd'. cbn. destruct (owned t (ls_keys s) K (token p)) eqn:E.
      * injection Hd' as <-. by rewrite lookup_insert_eq.
      * injection Hd' as <-. rewrite (own_lease_owned s t p d) in E; try done. by rewrite Hp.
  - apply inside_step; try done; [by rewrite Hp|]. intros d' [= <-] Hd. apply Hi; [by rewrite Hp|done].
  - by eapply renew_late_inv.
  - apply inside_step; try done; [by rewrite Hp|]. intros d' [= <-] Hd. apply Hi; [by rewrite Hp|done].
  - apply inside_step; try done; [by rewrite Hp|].
    intros q d' Hqp Hd Hk. cbn. by rewrite (eval_other s t q d').
  - apply inside_step; try done. by rewrite Hp.
  - split; [by apply local_left; [apply Hi|rewrite Hp]|]. intros q d. cbn. intros Hq Hd.
    eapply (leases_kept s (ls_clock s) (ls_keys s) p LDone); done.
  - split; [apply Hi|]. intros q d. cbn. intros Hq Hd. eapply late_other; [done..|]. apply Hi; [done|lia].
  - split; [apply Hi|]. intros q d. cbn. intros Hq Hd. rewrite Hk. apply Hi; [done|lia].
Qed.

(** No step leaves more than one lease's time on the key. *)
Lemma bounded_later t t' ks : bounded t ks -> t <= t' -> bounded t' ks.
Proof. intros Hb Ht e He. destruct (Hb e He) as (d & Hd & Hle). exists d. split; [done|lia]. Qed.

Lemma bounded_insert t ks v : bounded t (<[K := mkRc v (Some (t + lock_ttl))]> ks).
Proof. intros e. rewrite lookup_insert_eq. intros [= <-]. eexists. split; [done|lia]. Qed.

Lemma late_bounded t p ks ks' : bounded t ks -> late t p ks ks' -> bounded t ks'.
Proof.
  intros Hb [->|[->| ->]]; cbn.
  - destruct (rc_lookup _ _ _); [done|apply bounded_insert].
  - destruct (owned _ _ _ _); [apply bounded_insert|done].
  - destruct (owned _ _ _ _); [|done]. intros e. by rewrite lookup_delete_eq.
Qed.

Lemma lstep_bounded s s' :
  bounded (ls_clock s) (ls_keys s) -> lstep s s' ->
  ls_clock s <= ls_clock s' /\ bounded (ls_clock s') (ls_keys s').
Proof.
  intros Hb Hs. destruct Hs; cbn; (split; [lia|]); try done;
    try (eapply late_bounded; [by eapply bounded_later|unfold late; eauto]; fail).
  intros e He. eapply bounded_later; [done|lia|congruence].
Qed.

Lemma lease_reachable_inv ks t s :
  ks !! K = None -> rtc lstep (lock_start ks t) s ->
  lease_inv s /\ bounded (ls_clock s) (ls_keys s).
Proof.
  intros Hn Hr. assert (lease_inv (lock_start ks t) /\ bounded t ks) as Hi.
  { split; [apply lock_start_inv|]. intros e. by rewrite Hn. }
  revert Hi. change t with (ls_clock (lock_start ks t)) at 2. change ks with (ls_keys (lock_start ks t)) at 3.
  induction Hr as [|s1 s2 s3 H1 _ IH]; [done|]. intros [Hi Hb]. apply IH. split; [by eapply lstep_inv|].
  by eapply lstep_bounded.
Qed.
End System.

(** C22. The lease lock is exclusive. From a server without the key, whatever any
    number of callers in any number of processes do and whichever of their
    commands fail, lose their answer or arrive late: at most one caller per process
    is between entering and leaving; of two callers that hold a lease at least one
    has overrun it; no step of anybody else takes a running lease from its caller.
    And it is not lost for good: once thirty seconds have passed on the server the
    next attempt of a waiting caller succeeds, whatever became of the last owner. *)
Theorem lease_lock_exclusive c key process (token : nat -> bytes) `{!Inj (=) (=) token} ks t s :
  ks !! lock_key c key = None ->
  rtc (lstep c key process token) (lock_start ks t) s ->
  (forall p q, p <> q -> process p = process q ->
     inside_process (phase_at s p) = true -> inside_process (phase_at s q) = false) /\
  (forall p q d d', p <> q -> lease (phase_at s p) = Some d -> lease (phase_at s q) = Some d' ->
     d < ls_clock s \/ d' < ls_clock s) /\
  (forall p d s', lease (phase_at s p) = Some d -> lstep c key process token s s' ->
     phase_at s' p = phase_at s p -> ls_clock s' <= d ->
     ls_keys s' !! lock_key c key = Some (mkRc (RString (token p)) (Some d))) /\
  (forall p t', phase_at s p = LLocal -> ls_clock s + lock_ttl < t' ->
     exists s', lstep c key process token s s' /\ phase_at s' p = LHeld (t' + lock_ttl) false).
Proof.
  intros Hn Hr. destruct (lease_reachable_inv c key process token ks t s Hn Hr) as [Hi Hb]. split_and!.
  - intros p q Hpq Hproc Hp. destruct (inside_process (phase_at s q)) eqn:Hq; [|done].
    apply Hi in Hp, Hq. congruence.
  - intros p q d d' Hpq Hp Hq. destruct (decide (d < ls_clock s)) as [|Hd]; [by left|]. right.
    apply Z.lt_nge. intros Hd'. apply Hi in Hp, Hq; [|lia..]. rewrite Hp in Hq. injection Hq as Htok _.
    by apply Hpq, (inj token).
  - intros p d s' Hp Hs Hph Hd. apply (lstep_inv c key process token) in Hs; [|done].
    apply Hs; [by rewrite Hph|done].
  - intros p t' Hp Ht. assert (0 < lock_ttl) by done. eexists. split.
    + apply (LGranted _ _ _ _ s p t'); [done|lia|]. unfold rc_lookup.
      destruct (ls_keys s !! lock_key c key) as [e|] eqn:He; [|done]. cbn.
      destruct (Hb e He) as (d & Hd & Hle). unfold rc_alive. rewrite Hd. by rewrite (proj2 (Z.ltb_lt _ _)) by lia.
    + rewrite phase_to. by rewrite decide_True.
Qed.

(** Two processes: the first owner stalls, its lease runs out, the second takes
    over, and the release that the first one sends then leaves the key alone. *)
Definition a_token (p : nat) : bytes := replicate p Byte.x61.

Definition overrun : LockSystem :=
  mkLockSystem {["k:lock:job" := mkRc (RString (a_token 1)) (Some (2 * lock_ttl + 1))]} (lock_ttl + 1)
    {[0%nat := LStopped lock_ttl false; 1%nat := LHeld (2 * lock_ttl + 1) false]} {[0%nat := 0%nat; 1%nat := 1%nat]}.

Instance a_token_inj : Inj (=) (=) a_token.
Proof. intros p q H. apply (f_equal length) in H. unfold a_token in H. by rewrite !length_replicate in H. Qed.

Lemma overrun_reached :
  rtc (lstep (mkRedisCache "k") "job" id a_token) (lock_start ∅ 0) overrun.
Proof.
  eapply rtc_l; [apply (LEnter _ _ _ _ _ 0%nat); vm_compute; reflexivity|].
  eapply rtc_l; [apply (LGranted _ _ _ _ _ 0%nat 0); [vm_compute; reflexivity|vm_compute; discriminate|vm_compute; reflexivity]|].
  eapply rtc_l; [apply (LStop _ _ _ _ _ 0%nat lock_ttl false); vm_compute; reflexivity|].
  eapply rtc_l; [apply (LEnter _ _ _ _ _ 1%nat); vm_compute; reflexivity|].
  eapply rtc_l; [apply (LGranted _ _ _ _ _ 1%nat (lock_ttl + 1)); [vm_compute; reflexivity|vm_compute; discriminate|vm_compute; reflexivity]|].
  match goal with |- rtc _ ?a ?b => replace a with b by (vm_compute; reflexivity) end. apply rtc_refl.
Qed.

Lemma lease_lock_exclusive_witness :
  lock_ttl < ls_clock overrun /\
  let s' := to_phase overrun (lock_ttl + 1)
              (rc_next (lock_ttl + 1) (releaseCacheLock (mkRedisCache "k") "job" (a_token 0)) (ls_keys overrun)) 0 LReleased in
  ls_keys s' !! lock_key (mkRedisCache "k") "job" = Some (mkRc (RString (a_token 1)) (Some (2 * lock_ttl + 1))).
Proof.
  destruct (lease_lock_exclusive (mkRedisCache "k") "job" id a_token ∅ 0 overrun) as (_ & H2 & H3 & _);
    [reflexivity|exact overrun_reached|]. split.
  - destruct (H2 0%nat 1%nat lock_ttl (2 * lock_ttl + 1)) as [H|H]; [lia|vm_compute; reflexivity..|exact H|].
    vm_compute in H. discriminate.
  - apply (H3 1%nat); [vm_compute; reflexivity| |vm_compute; reflexivity|vm_compute; discriminate].
    apply (LRelease _ _ _ _ overrun 0%nat (lock_ttl + 1) lock_ttl false); [vm_compute; reflexivity|vm_compute; discriminate].
Defined.

(** The key of a lock is also the key of a cache entry: [Delete("lock:job")]
    takes the lock of [job] from its owner, [Set] shuts everybody out, for good
    when it is given no expiry. *)
Lemma lease_lock_forged c key (ks : RcKeys) t tok tok' :
  ks !! lock_key c key = Some (mkRc (RString tok) (Some (t + lock_ttl))) ->
  rc_reply t (set_lease c key tok') ks (inr false) /\
  rc_reply t (set_lease c key tok') (rc_next t (RDel (rc_key c ("lock:" +:+ key))) ks) (inr true) /\
  forall t', t <= t' ->
    rc_reply t' (set_lease c key tok') (rc_next t (client_set (rc_key c ("lock:" +:+ key)) [] 0) ks) (inr false).
Proof.
  intros Hk. split_and!.
  - cbn. by rewrite (alive_lookup t ks _ _ _ Hk) by (unfold lock_ttl; lia).
  - cbn. unfold rc_lookup, lock_key. by rewrite lookup_delete_eq.
  - intros t' _. cbn. unfold rc_lookup, lock_key. by rewrite lookup_insert_eq.
Qed.
