(* ===== verification/BanCheck.v ===== *)
(** * The IP ban check (inbound/ban_checker.go)

    Every accepted connection and every datagram asks whether its address is
    banned; answers of the database are cached for thirty seconds.
    [ban_verdict_fresh]: over the memory cache, each answer is what the database
    said at most thirty seconds earlier. A call takes no time here; a database
    error counts as not banned, and is cached as that. *)

From Stdlib Require Import ZArith Lia.
From Stdlib Require Import Strings.Byte.
From stdpp Require Import base list strings gmap option sorting.
From S2P Require Import Prelude GoFmt Utf8 Json LValue LExtract LParse LRoundtrip Smus Effects Ports SessionStore.
From S2P Require Import Cache.

Open Scope Z_scope.

(** The cache (a write to a closed one panics: no answer) and the database. *)
Inductive ban_port : Type -> Type :=
| BCache {X} (op : cache_op X) : ban_port (outcome (error + X))
| BActiveBan (ip : string) : ban_port (error + option Ban).

Record BanChecker := mkBanChecker { bc_db : bool; bc_cache : bool }.

Definition ban_ttl : Z := 30 * 1000000000.
Definition ban_key (host : string) : string := "ban:ip:" +:+ host.

Definition is_banned (r : error + option Ban) : bool :=
  match r with inr (Some _) => true | _ => false end.

Definition yes : bytes := [Byte.x31].
Definition no : bytes := [Byte.x30].

(** The lookup in the cache: a usable answer, or none. *)
Definition cached_verdict (b : BanChecker) (host : string) : prog ban_port (option bool) :=
  if bc_cache b then
    o ← call_ (BCache (CGet (ban_key host)));
    r ← lift o;
    mret (match r with inr (Some val) => Some (bool_decide (val = yes)) | _ => None end)
  else mret None.

Definition IsIPBanned (b : BanChecker) (host : string) : prog ban_port bool :=
  if negb (bc_db b) then mret false
  else
    v ← cached_verdict b host;
    match v with
    | Some verdict => mret verdict
    | None =>
        r ← call_ (BActiveBan host);
        let banned := is_banned r in
        _ ← (if bc_cache b then
               o ← call_ (BCache (CSet (ban_key host) (if banned then yes else no) ban_ttl));
               _ ← lift o; mret tt
             else mret tt);
        mret banned
    end.

(** ** Over the memory cache *)

Section Fresh.
Context `{MapOrder} (db : Z -> string -> error + option Ban).

(** The ports at time [now]; the database changes with time. *)
Definition ban_step (now : Z) (X : Type) (e : ban_port X) (c : MemoryCache) : X * MemoryCache :=
  match e in ban_port X return X * MemoryCache with
  | BCache op => cache_step now op c
  | BActiveBan ip => (db now ip, c)
  end.

Definition ask (b : BanChecker) (st : list bool * MemoryCache) (q : Z * string) : list bool * MemoryCache :=
  let r := run (ban_step q.1) (IsIPBanned b q.2) st.2 in
  (st.1 ++ match r.1 with Ret v => [v] | _ => [] end, r.2).

(** Every cached verdict was the database's when it was written. *)
Definition backed (a : Cache) (now : Z) : Prop :=
  forall host e, s_vals a !! ban_key host = Some e ->
    exists t, t <= now /\ e = mkEntry (if is_banned (db t host) then yes else no) (Some (t + ban_ttl)).

Definition fresh_verdict (q : Z * string) (v : bool) : Prop :=
  exists t, q.1 - ban_ttl <= t <= q.1 /\ v = is_banned (db t q.2).

Lemma ban_key_inj a b : ban_key a = ban_key b -> a = b.
Proof. apply string_app_inj_l. Qed.

Lemma ask_fresh b now host c a :
  tracks now c a -> s_open a = true -> backed a now -> bc_db b = true ->
  exists v c' a', run (ban_step now) (IsIPBanned b host) c = (Ret v, c') /\ fresh_verdict (now, host) v /\
    tracks now c' a' /\ s_open a' = true /\ backed a' now.
Proof.
  intros Ht Ho Hb Hdb. unfold IsIPBanned, cached_verdict. rewrite Hdb. cbn [negb].
  assert (Hask : exists v c' a',
    run (ban_step now)
      (r ← call_ (BActiveBan host);
       _ ← (if bc_cache b then
               o ← call_ (BCache (CSet (ban_key host) (if is_banned r then yes else no) ban_ttl));
               _ ← lift o; mret tt
             else mret tt);
       mret (is_banned r)) c = (Ret v, c') /\ fresh_verdict (now, host) v /\
      tracks now c' a' /\ s_open a' = true /\ backed a' now).
  { prun. cbn [ban_step fst snd]. assert (Hf : fresh_verdict (now, host) (is_banned (db now host))).
    { exists now. cbn [fst snd]. split; [unfold ban_ttl; lia|done]. }
    destruct (bc_cache b); prun; [|by exists (is_banned (db now host)), c, a].
    cbn [ban_step].
    destruct (cache_step_tracks now (CSet (ban_key host) (if is_banned (db now host) then yes else no) ban_ttl) c a Ht)
      as [Hr Ht']. cbn [cache_reply] in Hr. rewrite Ho in Hr. rewrite Hr. prun.
    eexists _, _, _. split; [reflexivity|]. split; [done|]. split; [exact Ht'|]. cbn [cache_next]. rewrite Ho. split; [done|].
    intros host' e. cbn [s_set_vals s_vals]. rewrite lookup_insert_Some. intros [[Hk <-]|[_ He]].
    - apply ban_key_inj in Hk as <-. exists now. split; [lia|done].
    - by apply Hb. }
  destruct (bc_cache b) eqn:Hc; [|prun; rewrite ?run_mbind in Hask; exact Hask].
  prun. cbn [ban_step cache_step fst snd]. rewrite run_then_Ret. prun. unfold mc_Get. rewrite (tracks_live _ _ _ (ban_key host) Ht).
  unfold s_live. destruct (s_vals a !! ban_key host) as [e|] eqn:He; cbn [mbind option_bind]; [|exact Hask].
  destruct (Cache.expired now e) eqn:Hx; [exact Hask|]. cbn [fmap option_fmap option_map]. prun.
  destruct (Hb host e He) as (t & Htn & ->). cbn [Cache.expired e_expiresAt e_value] in *. apply Z.ltb_ge in Hx.
  exists (is_banned (db t host)), c, a. split; [by destruct (is_banned (db t host))|]. split; [|done].
  exists t. cbn [fst snd]. split; [lia|done].
Qed.

Lemma backed_later a now now' : now <= now' -> backed a now -> backed a now'.
Proof. intros Hn Hb host e He. destruct (Hb host e He) as (t & Ht & ->). exists t. split; [lia|done]. Qed.

Lemma asks_fresh b qs now c a vs :
  bc_db b = true -> tracks now c a -> s_open a = true -> backed a now -> Sorted Z.le (now :: qs.*1) ->
  exists vs' c', fold_left (ask b) qs (vs, c) = (vs ++ vs', c') /\ Forall2 fresh_verdict qs vs'.
Proof.
  intros Hdb. revert now c a vs. induction qs as [|[t host] qs IH]; intros now c a vs Ht Ho Hb Hs; cbn in Hs.
  - exists [], c. by rewrite app_nil_r.
  - inversion Hs as [|? ? Hs' Hhd]; subst. inversion Hhd; subst.
    assert (Hle : now <= t) by done. cbn [fold_left]. unfold ask at 2. cbn [fst snd].
    destruct (ask_fresh b t host c a) as (v & c' & a' & -> & Hf & Ht' & Ho' & Hb'); [by eapply tracks_later|done|by eapply backed_later|done|].
    cbn [fst snd]. destruct (IH t c' a' (vs ++ [v]) Ht' Ho' Hb' Hs') as (vs' & c'' & -> & Hall).
    exists (v :: vs'), c''. rewrite <- (assoc_L (++)). split; [done|]. by constructor.
Qed.

(** With a database and the memory cache, at any sequence of queries at
    increasing times, every query is answered, and with what the database said
    about that address at most thirty seconds before. *)
Theorem ban_verdict_fresh b qs :
  bc_db b = true -> Sorted Z.le qs.*1 ->
  Forall2 fresh_verdict qs (fold_left (ask b) qs ([], NewMemoryCache)).1.
Proof.
  intros Hdb Hs. destruct qs as [|q qs]; [constructor|].
  assert (Hb : backed NewCache q.1) by (intros host e He; cbn in He; by rewrite lookup_empty in He).
  assert (Hs' : Sorted Z.le (q.1 :: (q :: qs).*1)) by (cbn in *; constructor; [done|by constructor]).
  by destruct (asks_fresh b (q :: qs) q.1 NewMemoryCache NewCache [] Hdb (NewCache_tracks q.1) eq_refl Hb Hs')
    as (vs & c' & -> & Hall).
Qed.
End Fresh.

(** An address banned at time 10: the verdict changes within thirty seconds. *)
Definition banned_at_10 (now : Z) (ip : string) : error + option Ban :=
  if now <? 10 then inl ErrBanNotFound else inr (Some (mkBan 1 "" None (Some ip) "" None None 10)).

Lemma ban_verdict_fresh_witness :
  let qs := [(1, "10.0.0.9"); (12, "10.0.0.9"); (40000000000, "10.0.0.9")]%string in
  fold_left (ask banned_at_10 (mkBanChecker true true)) qs ([], NewMemoryCache) =
    ([false; false; true], (fold_left (ask banned_at_10 (mkBanChecker true true)) qs ([], NewMemoryCache)).2) /\
  Forall2 (fresh_verdict banned_at_10) qs [false; false; true].
Proof.
  intros qs.
  assert (Hv : (fold_left (ask banned_at_10 (mkBanChecker true true)) qs ([], NewMemoryCache)).1 = [false; false; true])
    by (vm_compute; reflexivity).
  split.
  - rewrite <- Hv. destruct (fold_left _ _ _); reflexivity.
  - rewrite <- Hv. apply ban_verdict_fresh; [reflexivity|]. subst qs. cbn. repeat constructor; lia.
Defined.
