(* ===== verification/SqlText.v ===== *)
(** * SQL text: identifiers, placeholders, dialects (outbound/sql_db.go,
    sql_dialect.go, sql_dialect_sqlite.go, sql_dialect_postgres.go)

    The pieces every statement is built from, and the calls on the database
    driver. All shared SQL is written with [?] placeholders; Postgres wants
    [$1 .. $n], which [RebindDollar] produces. *)

From Stdlib Require Import ZArith Lia.
From Stdlib Require Import Strings.Byte.
From stdpp Require Import base list strings gmap option pretty.
From S2P Require Import Prelude GoFmt Utf8 Json LValue LExtract LParse LRoundtrip Smus Effects Ports.
From S2P Require Import Codec SessionStore.

Open Scope Z_scope.

(** ** Identifiers *)

Definition ident_start (b : byte) : bool := between 97 122 b || between 65 90 b || bool_decide (b = Byte.x5f).
Definition ident_char (b : byte) : bool := ident_start b || between 48 57 b.

(** [^[a-zA-Z_][a-zA-Z0-9_]*$] *)
Definition validIdentifier (s : string) : bool :=
  match lit s with b :: r => ident_start b && forallb ident_char r | [] => false end.

Definition validateIdentifier (name : string) : option error :=
  if validIdentifier name then None else Some (Errorf "identifier must match [a-zA-Z_][a-zA-Z0-9_]*").

Definition validOnDelete (s : string) : bool :=
  bool_decide (s ∈ [""; "CASCADE"; "SET NULL"; "SET DEFAULT"; "RESTRICT"; "NO ACTION"]%string).

(** ** Values and driver calls *)

(** The dynamic types of the [interface{}] values that reach the driver. *)
Inductive value :=
| VNil
| VInt (z : Z)
| VFloat (bits : Z)
| VString (s : string)
| VTime (t : Z)
| VBytes (b : bytes).

#[export] Instance value_eq_dec : EqDecision value.
Proof. solve_decision. Defined.

(** The connection pool, or a transaction open on it. *)
Inductive executor := RootPool | InTx (t : nat).

(** Where [QueryRow(...).Scan] puts its one row. *)
Inductive scan : Type -> Type :=
| ScanInt : scan Z
| ScanString : scan string
| ScanUser : scan User
| ScanBan : scan Ban.

(** A result set as it is read: its column names, what each [Scan] gives, and
    the error after the last row. *)
Record Rows := mkRows {
  rows_Columns : error + list string;
  rows_scans : list (error + list value);
  rows_Err : option error
}.

(** [*sql.DB] and [*sql.Tx] (an [Exec] answers with its [RowsAffected]), the
    counter of savepoints, the clock and the source of UUIDs. *)
Inductive sql_port : Type -> Type :=
| Exec (ex : executor) (query : string) (args : list value) : sql_port (error + (error + Z))
| Query (ex : executor) (query : string) (args : list value) : sql_port (error + Rows)
| QueryRow {T} (dest : scan T) (ex : executor) (query : string) (args : list value) : sql_port (error + T)
| Begin : sql_port (error + nat)
| CommitTx (t : nat) : sql_port (option error)
| RollbackTx (t : nat) : sql_port (option error)
| NextSavepoint : sql_port Z
| NewUUID : sql_port string
| SqlNow : sql_port Z.

Abbreviation SQL := (prog sql_port).

(** ** Dialects *)

Inductive dialect := sqliteDialect | postgresDialect.

Inductive ColumnType := ColInteger | ColText | ColDatetime | ColJSONB.

(** The loop over the runes of the query. *)
Fixpoint rebind (n : Z) (inLiteral : bool) (cs : list chunk) : bytes :=
  match cs with
  | [] => []
  | c :: cs =>
      if decide (encode c = [Byte.x27]) then [Byte.x27] ++ rebind n (negb inLiteral) cs
      else if decide (encode c = [Byte.x3f] /\ inLiteral = false) then
        [Byte.x24] ++ lit (Itoa (n + 1)) ++ rebind (n + 1) inLiteral cs
      else encode c ++ rebind n inLiteral cs
  end.

Definition RebindDollar (query : string) : string := string_of_bytes (rebind 0 false (chunks (lit query))).

(** sql_dialect_sqlite.go *)
Definition sqlite_ColumnType (t : ColumnType) : string :=
  match t with ColInteger => "INTEGER" | ColText => "TEXT" | ColDatetime => "DATETIME" | ColJSONB => "TEXT" end.
Definition sqlite_NowExpr : string := "datetime('now')".
Definition sqlite_DefaultNowExpr : string := "(datetime('now'))".
Definition sqlite_DropTableSuffix : string := "".
Definition sqlite_AutoIncrPKSQL : string := "INTEGER PRIMARY KEY AUTOINCREMENT".
Definition sqlite_AddColumnClause : string := "ADD COLUMN ".
Definition sqlite_DropColumnClause : string := "DROP COLUMN ".
Definition sqlite_SupportsUniqueInAddColumn : bool := false.

(** sql_dialect_postgres.go *)
Definition postgres_ColumnType (t : ColumnType) : string :=
  match t with ColInteger => "BIGINT" | ColText => "TEXT" | ColDatetime => "TIMESTAMPTZ" | ColJSONB => "JSONB" end.
Definition postgres_NowExpr : string := "now()".
Definition postgres_DefaultNowExpr : string := "now()".
Definition postgres_DropTableSuffix : string := " CASCADE".
Definition postgres_AutoIncrPKSQL : string := "BIGSERIAL PRIMARY KEY".
Definition postgres_AddColumnClause : string := "ADD COLUMN IF NOT EXISTS ".
Definition postgres_DropColumnClause : string := "DROP COLUMN IF EXISTS ".
Definition postgres_SupportsUniqueInAddColumn : bool := true.

(** A call through the interface. *)
Definition Rebind (d : dialect) (query : string) : string :=
  match d with sqliteDialect => query | postgresDialect => RebindDollar query end.
Definition ColumnTypeSQL (d : dialect) (t : ColumnType) : string :=
  match d with sqliteDialect => sqlite_ColumnType t | postgresDialect => postgres_ColumnType t end.
Definition NowExpr (d : dialect) : string :=
  match d with sqliteDialect => sqlite_NowExpr | postgresDialect => postgres_NowExpr end.
Definition DefaultNowExpr (d : dialect) : string :=
  match d with sqliteDialect => sqlite_DefaultNowExpr | postgresDialect => postgres_DefaultNowExpr end.
Definition DropTableSuffix (d : dialect) : string :=
  match d with sqliteDialect => sqlite_DropTableSuffix | postgresDialect => postgres_DropTableSuffix end.
Definition AutoIncrPKSQL (d : dialect) : string :=
  match d with sqliteDialect => sqlite_AutoIncrPKSQL | postgresDialect => postgres_AutoIncrPKSQL end.
Definition AddColumnClause (d : dialect) : string :=
  match d with sqliteDialect => sqlite_AddColumnClause | postgresDialect => postgres_AddColumnClause end.
Definition DropColumnClause (d : dialect) : string :=
  match d with sqliteDialect => sqlite_DropColumnClause | postgresDialect => postgres_DropColumnClause end.
Definition SupportsUniqueInAddColumn (d : dialect) : bool :=
  match d with sqliteDialect => sqlite_SupportsUniqueInAddColumn | postgresDialect => postgres_SupportsUniqueInAddColumn end.

(** The names [PRAGMA table_info] lists, up to the column looked for. *)
Fixpoint table_has (column : string) (scans : list (error + list value)) (last : option error) : error + bool :=
  match scans with
  | [] => match last with Some e => inl e | None => inr false end
  | inl e :: _ => inl e
  | inr row :: scans =>
      if decide (row !! 1%nat = Some (VString column)) then inr true else table_has column scans last
  end.

Definition pragma_lists (ex : executor) (table column : string) : SQL (error + bool) :=
  r ← call_ (Query ex ("PRAGMA table_info(" +:+ table +:+ ")") []);
  match r with
  | inl e => mret (inl e)
  | inr rows => mret (table_has column (rows_scans rows) (rows_Err rows))
  end.

Definition SkipAddColumn (d : dialect) (ex : executor) (table column : string) : SQL (error + bool) :=
  match d with
  | sqliteDialect => pragma_lists ex table column
  | postgresDialect => mret (inr false)
  end.

Definition SkipDropColumn (d : dialect) (ex : executor) (table column : string) : SQL (error + bool) :=
  match d with
  | sqliteDialect =>
      r ← pragma_lists ex table column;
      mret (match r with inl e => inl e | inr found => inr (negb found) end)
  | postgresDialect => mret (inr false)
  end.

(** [Init]: pragmas, in order, until one fails. *)
Fixpoint exec_pragmas (ps : list string) : SQL (option error) :=
  match ps with
  | [] => mret None
  | p :: ps =>
      r ← call_ (Exec RootPool p []);
      match r with
      | inl e => mret (Some (Wrapf ("failed to set " +:+ p) e))
      | inr _ => exec_pragmas ps
      end
  end.

Definition Init (d : dialect) : SQL (option error) :=
  match d with
  | sqliteDialect => exec_pragmas ["PRAGMA foreign_keys = ON"; "PRAGMA journal_mode = WAL"]%string
  | postgresDialect => mret None
  end.

(** ** What [RebindDollar] does

    A statement as a list of segments: text without quotes or placeholders,
    string literals (with their quotes, doubled inside), and placeholders. *)

Inductive segment :=
| Text (l : bytes)
| Literal (l : bytes)
| Hole.

Definition seg_ok (s : segment) : Prop :=
  match s with
  | Text l => valid l = true /\ Byte.x27 ∉ l /\ Byte.x3f ∉ l
  | Literal l => valid l = true /\ Byte.x27 ∉ l
  | Hole => True
  end.

Definition question (s : segment) : bytes :=
  match s with Text l => l | Literal l => [Byte.x27] ++ l ++ [Byte.x27] | Hole => [Byte.x3f] end.

Fixpoint numbered (n : Z) (ss : list segment) : bytes :=
  match ss with
  | [] => []
  | Hole :: ss => [Byte.x24] ++ lit (Itoa (n + 1)) ++ numbered (n + 1) ss
  | s :: ss => question s ++ numbered n ss
  end.

Definition is_hole (s : segment) : bool := match s with Hole => true | _ => false end.
Definition holes (ss : list segment) : Z := zlen (filter (fun s => is_hole s = true) ss).

Lemma rebind_app n b cs cs' :
  Forall (fun c => encode c <> [Byte.x27] /\ (encode c = [Byte.x3f] -> b = true)) cs ->
  rebind n b (cs ++ cs') = flat encode cs ++ rebind n b cs'.
Proof.
  intros H. induction H as [|c cs [Hq Hh] _ IH]; [done|]. cbn [app rebind]. rewrite flat_cons.
  rewrite (decide_False (P := encode c = _)) by done. rewrite decide_False by (intros [He ->]; discriminate (Hh He)).
  by rewrite IH, (assoc_L (++)).
Qed.

(** Text that stays as it is, inside a literal or outside. *)
Lemma rebind_text n b l r :
  valid l = true -> Byte.x27 ∉ l -> (b = false -> Byte.x3f ∉ l) ->
  rebind n b (chunks (l ++ r)) = l ++ rebind n b (chunks r).
Proof.
  intros Hv Hq Hh. rewrite (chunks_valid_app l r) by done. rewrite rebind_app.
  - f_equal. exact (coerce_valid l Hv).
  - apply Forall_forall. intros c Hc.
    assert (Hin : forall x, x ∈ encode c -> x ∈ l).
    { intros x Hx. rewrite <- (coerce_valid l Hv). apply list_elem_of_In, in_concat.
      exists (encode c). split; apply list_elem_of_In; [|done]. apply list_elem_of_fmap. eauto. }
    split; intros He.
    + apply Hq, Hin. rewrite He. left.
    + destruct b; [done|]. exfalso. apply Hh; [done|]. apply Hin. rewrite He. left.
Qed.

Lemma rebind_quote n b r : rebind n b (chunks (Byte.x27 :: r)) = Byte.x27 :: rebind n (negb b) (chunks r).
Proof. change (Byte.x27 :: r) with ([Byte.x27] ++ r). by rewrite (chunks_rune [Byte.x27] r (ascii_is_rune Byte.x27 eq_refl)). Qed.

Lemma rebind_hole n r :
  rebind n false (chunks (Byte.x3f :: r)) = [Byte.x24] ++ lit (Itoa (n + 1)) ++ rebind (n + 1) false (chunks r).
Proof. change (Byte.x3f :: r) with ([Byte.x3f] ++ r). by rewrite (chunks_rune [Byte.x3f] r (ascii_is_rune Byte.x3f eq_refl)). Qed.

Lemma rebind_segments ss n :
  Forall seg_ok ss -> rebind n false (chunks (flat question ss)) = numbered n ss.
Proof.
  intros H. revert n. induction H as [|s ss Hs _ IH]; intros n; [done|]. rewrite flat_cons.
  destruct s as [l|l|]; cbn [question numbered seg_ok] in *.
  - destruct Hs as (Hv & Hq & Hh). by rewrite rebind_text, IH.
  - destruct Hs as [Hv Hq]. rewrite <- !(assoc_L (++)). cbn [app]. rewrite rebind_quote. cbn [negb].
    rewrite rebind_text by done. by rewrite rebind_quote, IH.
  - cbn [app]. by rewrite rebind_hole, IH.
Qed.

(** The text a dialect gives the driver for a statement made of segments. *)
Definition spelled (d : dialect) (ss : list segment) : bytes :=
  match d with sqliteDialect => flat question ss | postgresDialect => numbered 0 ss end.

Lemma Rebind_spelled d q ss : Forall seg_ok ss -> lit q = flat question ss -> lit (Rebind d q) = spelled d ss.
Proof.
  intros Hss Hq. destruct d; [done|]. cbn [Rebind spelled]. unfold RebindDollar, lit.
  rewrite bytes_of_string_of_bytes. fold (lit q). by rewrite Hq, rebind_segments.
Qed.
