(* ===== verification/SqlBuilder.v ===== *)
(** * The generic query builder (outbound/sql_query_builder.go,
    ports/query_builder.go)

    Scripts and services build statements from table and column names and bind
    the values. The theorems: whatever names a caller gives, every statement
    that reaches the driver is a word of identifiers and fixed keywords with one
    placeholder per bound value, spelled for the dialect, on the executor the
    builder is bound to, and invalid names reach no database
    ([builder_statements]); a savepoint is finalised at most
    once ([savepoint_once]). Error messages carry the offending name without the
    quoting of [%q]. *)

From Stdlib Require Import ZArith Lia.
From Stdlib Require Import Strings.Byte.
From stdpp Require Import base list strings gmap option pretty.
From S2P Require Import Prelude GoFmt Utf8 Json LValue LExtract LParse LRoundtrip Smus Effects Ports.
From S2P Require Import Codec SessionStore SqlText.

Open Scope Z_scope.

(** [strings.Join] *)
Fixpoint Join (elems : list string) (sep : string) : string :=
  match elems with
  | [] => ""
  | [x] => x
  | x :: l => x +:+ sep +:+ Join l sep
  end.

(** ** Builders and transactions *)

Record sqlQueryBuilder := mkBuilder { qb_exec : executor; qb_dialect : dialect }.

Record whereClause := mkWhere { wc_column : string; wc_operator : string; wc_value : value }.

Record sqlQuery := mkQuery {
  q_tableName : string;
  q_wheres : list whereClause;
  q_exec : executor;
  q_dialect : dialect
}.

Definition Table (qb : sqlQueryBuilder) (name : string) : sqlQuery :=
  mkQuery name [] (qb_exec qb) (qb_dialect qb).

(** A transaction of the driver, or a savepoint inside one. *)
Inductive Tx :=
| sqlTx (t : nat) (d : dialect)
| sqlSavepoint (t : nat) (name : string) (d : dialect) (done : bool).

Definition Tx_Table (x : Tx) (name : string) : sqlQuery :=
  match x with
  | sqlTx t d => mkQuery name [] (InTx t) d
  | sqlSavepoint t _ d _ => mkQuery name [] (InTx t) d
  end.

Definition beginSavepoint (t : nat) (d : dialect) : SQL (error + Tx) :=
  n ← call_ NextSavepoint;
  let name := "sp_" +:+ Itoa n in
  r ← call_ (Exec (InTx t) ("SAVEPOINT " +:+ name) []);
  match r with
  | inl e => mret (inl e)
  | inr _ => mret (inr (sqlSavepoint t name d false))
  end.

Definition qb_Begin (qb : sqlQueryBuilder) : SQL (error + Tx) :=
  match qb_exec qb with
  | RootPool =>
      r ← call_ Begin;
      match r with
      | inl e => mret (inl e)
      | inr t => mret (inr (sqlTx t (qb_dialect qb)))
      end
  | InTx t => beginSavepoint t (qb_dialect qb)
  end.

(** [Commit] and [Rollback] change the savepoint they are called on: they
    answer with its next state. *)
Definition Tx_Commit (x : Tx) : SQL (option error * Tx) :=
  match x with
  | sqlTx t d => r ← call_ (CommitTx t); mret (r, x)
  | sqlSavepoint t name d true => mret (Some ErrTxDone, x)
  | sqlSavepoint t name d false =>
      r ← call_ (Exec (InTx t) ("RELEASE SAVEPOINT " +:+ name) []);
      mret (err_of r, sqlSavepoint t name d true)
  end.

Definition Tx_Rollback (x : Tx) : SQL (option error * Tx) :=
  match x with
  | sqlTx t d => r ← call_ (RollbackTx t); mret (r, x)
  | sqlSavepoint t name d true => mret (Some ErrTxDone, x)
  | sqlSavepoint t name d false =>
      r ← call_ (Exec (InTx t) ("ROLLBACK TO SAVEPOINT " +:+ name) []);
      match r with
      | inl e => mret (Some e, sqlSavepoint t name d true)
      | inr _ =>
          r ← call_ (Exec (InTx t) ("RELEASE SAVEPOINT " +:+ name) []);
          mret (err_of r, sqlSavepoint t name d true)
      end
  end.

(** ** Queries *)

Definition where_ (q : sqlQuery) (column operator : string) (v : value) : sqlQuery :=
  mkQuery (q_tableName q) (q_wheres q ++ [mkWhere column operator v]) (q_exec q) (q_dialect q).

Definition Where (q : sqlQuery) (column : string) (v : value) : sqlQuery := where_ q column "=" v.
Definition WhereLessThan (q : sqlQuery) (column : string) (v : value) : sqlQuery := where_ q column "<" v.

Definition invalid_table (e : error) : error := Wrapf "invalid table name" e.
Definition invalid_column (column : string) (e : error) : error :=
  Wrapf ("invalid column name " +:+ column) e.

(** One condition and the value it binds. *)
Definition where_part (w : whereClause) : string * list value :=
  if decide (wc_value w = VNil /\ wc_operator w = "=")
  then (wc_column w +:+ " IS NULL", [])
  else (wc_column w +:+ " " +:+ wc_operator w +:+ " ?", [wc_value w]).

Fixpoint where_parts (ws : list whereClause) : error + (list string * list value) :=
  match ws with
  | [] => inr ([], [])
  | w :: ws =>
      match validateIdentifier (wc_column w) with
      | Some e => inl (invalid_column (wc_column w) e)
      | None =>
          match where_parts ws with
          | inl e => inl e
          | inr (parts, vals) => inr ((where_part w).1 :: parts, (where_part w).2 ++ vals)
          end
      end
  end.

Definition buildWhere (q : sqlQuery) : error + (string * list value) :=
  match q_wheres q with
  | [] => inr ("", [])
  | ws =>
      match where_parts ws with
      | inl e => inl e
      | inr (parts, vals) => inr (" WHERE " +:+ Join parts " AND ", vals)
      end
  end.

(** The columns of [data] in the order of the loop, or the first invalid one. *)
Fixpoint columns (data : gmap string value) (cols : list string) : error + list (string * value) :=
  match cols with
  | [] => inr []
  | col :: cols =>
      match validateIdentifier col with
      | Some e => inl (invalid_column col e)
      | None =>
          match columns data cols with
          | inl e => inl e
          | inr l => inr ((col, default VNil (data !! col)) :: l)
          end
      end
  end.

Definition rows_affected (r : error + (error + Z)) : error + Z :=
  match r with inl e => inl e | inr n => n end.

(** [rows.Columns], then every row as a map. Results read before an error come
    with it. *)
Abbreviation QueryResult := (gmap string value).

Definition row_map (cols : list string) (values : list value) : QueryResult :=
  foldl (fun m cv => <[cv.1 := cv.2]> m) ∅ (zip cols values).

Fixpoint scan_loop (cols : list string) (scans : list (error + list value)) (results : list QueryResult)
    (last : option error) : list QueryResult * option error :=
  match scans with
  | [] => (results, last)
  | inl e :: _ => ([], Some e)
  | inr values :: scans => scan_loop cols scans (results ++ [row_map cols values]) last
  end.

Definition scanRows (rows : Rows) : list QueryResult * option error :=
  match rows_Columns rows with
  | inl e => ([], Some e)
  | inr cols => scan_loop cols (rows_scans rows) [] (rows_Err rows)
  end.

Section Queries.
Context `{MapOrder}.

Definition Insert (q : sqlQuery) (data : gmap string value) : SQL (option error) :=
  match validateIdentifier (q_tableName q) with
  | Some e => mret (Some (invalid_table e))
  | None =>
      match columns data (range (dom data)) with
      | inl e => mret (Some e)
      | inr cvs =>
          let query := "INSERT INTO " +:+ q_tableName q +:+ " (" +:+ Join cvs.*1 ", " +:+ ") VALUES ("
                         +:+ Join ((fun _ => "?"%string) <$> cvs) ", " +:+ ")" in
          r ← call_ (Exec (q_exec q) (Rebind (q_dialect q) query) cvs.*2);
          mret (err_of r)
      end
  end.

Definition Update (q : sqlQuery) (data : gmap string value) : SQL (error + Z) :=
  match validateIdentifier (q_tableName q) with
  | Some e => mret (inl (invalid_table e))
  | None =>
      match columns data (range (dom data)) with
      | inl e => mret (inl e)
      | inr cvs =>
          match buildWhere q with
          | inl e => mret (inl e)
          | inr (whereSQL, whereVals) =>
              let query := "UPDATE " +:+ q_tableName q +:+ " SET "
                             +:+ Join ((fun cv => cv.1 +:+ " = ?") <$> cvs) ", " +:+ whereSQL in
              r ← call_ (Exec (q_exec q) (Rebind (q_dialect q) query) (cvs.*2 ++ whereVals));
              mret (rows_affected r)
          end
      end
  end.

Definition Increment (q : sqlQuery) (column : string) (delta : Z) : SQL (error + Z) :=
  match validateIdentifier (q_tableName q) with
  | Some e => mret (inl (invalid_table e))
  | None =>
      match validateIdentifier column with
      | Some e => mret (inl (invalid_column column e))
      | None =>
          match buildWhere q with
          | inl e => mret (inl e)
          | inr (whereSQL, whereVals) =>
              let query := "UPDATE " +:+ q_tableName q +:+ " SET " +:+ column +:+ " = " +:+ column
                             +:+ " + ?" +:+ whereSQL in
              r ← call_ (Exec (q_exec q) (Rebind (q_dialect q) query) (VInt delta :: whereVals));
              mret (rows_affected r)
          end
      end
  end.

(** The common start of the operations without data. *)
Definition with_where {A} (q : sqlQuery) (fail : error -> A) (k : string -> list value -> SQL A) : SQL A :=
  match validateIdentifier (q_tableName q) with
  | Some e => mret (fail (invalid_table e))
  | None =>
      match buildWhere q with
      | inl e => mret (fail e)
      | inr (whereSQL, vals) => k whereSQL vals
      end
  end.

Definition Delete (q : sqlQuery) : SQL (error + Z) :=
  with_where q inl (fun whereSQL vals =>
    r ← call_ (Exec (q_exec q) (Rebind (q_dialect q) ("DELETE FROM " +:+ q_tableName q +:+ whereSQL)) vals);
    mret (rows_affected r)).

Definition First (q : sqlQuery) : SQL (error + option QueryResult) :=
  with_where q inl (fun whereSQL vals =>
    r ← call_ (Query (q_exec q)
                 (Rebind (q_dialect q) ("SELECT * FROM " +:+ q_tableName q +:+ whereSQL +:+ " LIMIT 1")) vals);
    match r with
    | inl e => mret (inl e)
    | inr rows =>
        match scanRows rows with
        | (_, Some e) => mret (inl e)
        | (results, None) => mret (inr (head results))
        end
    end).

Definition Get (q : sqlQuery) : SQL (list QueryResult * option error) :=
  with_where q (fun e => ([], Some e)) (fun whereSQL vals =>
    r ← call_ (Query (q_exec q) (Rebind (q_dialect q) ("SELECT * FROM " +:+ q_tableName q +:+ whereSQL)) vals);
    match r with
    | inl e => mret ([], Some e)
    | inr rows => mret (scanRows rows)
    end).

Definition Count (q : sqlQuery) : SQL (error + Z) :=
  with_where q inl (fun whereSQL vals =>
    call_ (QueryRow ScanInt (q_exec q)
             (Rebind (q_dialect q) ("SELECT COUNT(*) FROM " +:+ q_tableName q +:+ whereSQL)) vals)).
End Queries.

(** The operations of [ports.Query], and the queries the builder makes. *)
Inductive query_op : Type -> Type :=
| QInsert (data : gmap string value) : query_op (option error)
| QUpdate (data : gmap string value) : query_op (error + Z)
| QIncrement (column : string) (delta : Z) : query_op (error + Z)
| QDelete : query_op (error + Z)
| QFirst : query_op (error + option QueryResult)
| QGet : query_op (list QueryResult * option error)
| QCount : query_op (error + Z).

Definition query_run `{MapOrder} (q : sqlQuery) {X} (op : query_op X) : SQL X :=
  match op with
  | QInsert data => Insert q data
  | QUpdate data => Update q data
  | QIncrement column delta => Increment q column delta
  | QDelete => Delete q
  | QFirst => First q
  | QGet => Get q
  | QCount => Count q
  end.

Inductive built (ex : executor) (d : dialect) : sqlQuery -> Prop :=
| built_Table name : built ex d (Table (mkBuilder ex d) name)
| built_Where q column v : built ex d q -> built ex d (Where q column v)
| built_WhereLessThan q column v : built ex d q -> built ex d (WhereLessThan q column v).

(** ** The statements

    The fixed fragments of the builder's statements; everything else in a
    statement is an identifier or a placeholder. *)
Definition fragments : list string :=
  ["INSERT INTO "; " ("; ", "; ") VALUES ("; ")"; "UPDATE "; " SET "; " = "; " + "; " WHERE "; " AND ";
   " IS NULL"; " < "; "DELETE FROM "; "SELECT * FROM "; " LIMIT 1"; "SELECT COUNT(*) FROM "]%string.

Definition builder_seg (s : segment) : Prop :=
  match s with
  | Text l => exists t, l = lit t /\ (t ∈ fragments \/ validIdentifier t = true)
  | Literal _ => False
  | Hole => True
  end.

(** A statement as the driver gets it: on the given executor, spelled for the
    dialect, with one placeholder for each argument. *)
Definition bound_text (d : dialect) (query : string) (args : list value) : Prop :=
  exists ss, Forall builder_seg ss /\ lit query = spelled d ss /\ holes ss = zlen args.

Definition bound_statement (ex : executor) (d : dialect) {X} (e : sql_port X) : Prop :=
  match e with
  | Exec ex' query args => ex' = ex /\ bound_text d query args
  | Query ex' query args => ex' = ex /\ bound_text d query args
  | QueryRow _ ex' query args => ex' = ex /\ bound_text d query args
  | _ => False
  end.

Lemma ident_char_ascii b : ident_char b = true -> between 0 127 b = true /\ b <> Byte.x27 /\ b <> Byte.x3f.
Proof. by destruct b; vm_compute. Qed.

Lemma text_ok l :
  Forall (fun b => between 0 127 b = true /\ b <> Byte.x27 /\ b <> Byte.x3f) l -> seg_ok (Text l).
Proof.
  intros H. split_and!.
  - apply valid_ascii. eapply Forall_impl; [exact H|]. by intros b [? _].
  - intros Hi. eapply Forall_forall in H; [|exact Hi]. by destruct H as (_ & ? & _).
  - intros Hi. eapply Forall_forall in H; [|exact Hi]. by destruct H as (_ & _ & ?).
Qed.

Lemma ident_chars s : validIdentifier s = true -> Forall (fun b => ident_char b = true) (lit s).
Proof.
  unfold validIdentifier. destruct (lit s) as [|b r]; [done|]. intros [Hb Hr]%andb_prop. constructor.
  - unfold ident_char. by rewrite Hb.
  - apply Forall_forall. intros x Hx. by eapply forallb_forall in Hr; [|apply list_elem_of_In].
Qed.

Definition text_byte (b : byte) : bool := between 0 127 b && bool_decide (b <> Byte.x27 /\ b <> Byte.x3f).

Lemma builder_seg_ok s : builder_seg s -> seg_ok s.
Proof.
  destruct s as [l|l|]; [|done|done]. intros (t & -> & Ht). apply text_ok. destruct Ht as [Ht|Ht].
  - assert (Hall : Forall (fun t => forallb text_byte (lit t) = true) fragments)
      by (repeat constructor; vm_compute; reflexivity).
    eapply Forall_forall in Hall; [|exact Ht]. apply Forall_forall. intros b Hb.
    eapply forallb_forall in Hall; [|by apply list_elem_of_In]. unfold text_byte in Hall.
    apply andb_prop in Hall as [? ?%bool_decide_eq_true]. done.
  - eapply Forall_impl; [by apply ident_chars|]. intros b. apply ident_char_ascii.
Qed.

(** [made_of s n]: builder text with [n] placeholders. *)
Definition made_of (s : string) (n : Z) : Prop :=
  exists ss, Forall builder_seg ss /\ lit s = flat question ss /\ holes ss = n.

Lemma bound_text_made d s n args : made_of s n -> n = zlen args -> bound_text d (Rebind d s) args.
Proof.
  intros (ss & Hss & Hs & <-) Hn. exists ss. split_and!; [done| |done].
  apply Rebind_spelled; [|done]. eapply Forall_impl; [exact Hss|]. intros s'. apply builder_seg_ok.
Qed.

Lemma lit_app s t : lit (s +:+ t) = lit s ++ lit t.
Proof.
  unfold lit, bytes_of_string, String.list_byte_of_string.
  induction s as [|c s IH]; simpl; [done|by f_equal].
Qed.

Lemma holes_app ss ss' : holes (ss ++ ss') = holes ss + holes ss'.
Proof. unfold holes. by rewrite filter_app, zlen_app. Qed.

Lemma made_app s t n m : made_of s n -> made_of t m -> made_of (s +:+ t) (n + m).
Proof.
  intros (ss & Hss & Hs & <-) (tt & Htt & Ht & <-). exists (ss ++ tt). split_and!.
  - by apply Forall_app.
  - by rewrite lit_app, flat_app, Hs, Ht.
  - apply holes_app.
Qed.

Lemma made_text t : t ∈ fragments \/ validIdentifier t = true -> made_of t 0.
Proof.
  intros Ht. exists [Text (lit t)]. split_and!; [|by rewrite flat_cons, app_nil_r|done].
  repeat constructor. by exists t.
Qed.

Lemma made_fragment t : bool_decide (t ∈ fragments) = true -> made_of t 0.
Proof. intros H%bool_decide_eq_true. apply made_text. by left. Qed.

Lemma made_ident t : validateIdentifier t = None -> made_of t 0.
Proof. unfold validateIdentifier. intros H. apply made_text. right. by destruct (validIdentifier t). Qed.

Lemma made_hole : made_of "?" 1.
Proof. exists [Hole]. split_and!; [by repeat constructor|done|done]. Qed.

Lemma made_nil : made_of "" 0.
Proof. exists []. split_and!; [constructor|done|done]. Qed.

Lemma made_eq s n m : made_of s n -> n = m -> made_of s m.
Proof. by intros ? <-. Qed.

Lemma made_Join sep l ns :
  made_of sep 0 -> Forall2 made_of l ns -> made_of (Join l sep) (foldr Z.add 0 ns).
Proof.
  intros Hsep H. induction H as [|s n l ns Hs Hl IH]; [apply made_nil|].
  destruct Hl as [|s' n' l ns Hs' Hl]; cbn [Join foldr].
  - rewrite Z.add_0_r. exact Hs.
  - eapply made_eq; [exact (made_app _ _ _ _ Hs (made_app _ _ _ _ Hsep IH))|]. cbn. lia.
Qed.

Lemma made_bound t : bool_decide (t ∈ fragments) = true -> made_of (t +:+ "?") 1.
Proof. intros H. exact (made_app _ _ 0 1 (made_fragment t H) made_hole). Qed.

Lemma made_equals : made_of " = ?" 1.
Proof. exact (made_bound " = " eq_refl). Qed.
Lemma made_less : made_of " < ?" 1.
Proof. exact (made_bound " < " eq_refl). Qed.
Lemma made_plus : made_of " + ?" 1.
Proof. exact (made_bound " + " eq_refl). Qed.

Create HintDb made.
#[export] Hint Resolve made_app made_nil made_hole made_equals made_less made_plus made_ident : made.
#[export] Hint Extern 5 (made_of _ 0) => (apply made_fragment; vm_compute; reflexivity) : made.
#[export] Hint Extern 6 (made_of _ ?n) => (is_evar n; apply made_fragment; vm_compute; reflexivity) : made.

(** A built query keeps its executor and its dialect, and its operators are the
    two of the builder. *)
Lemma built_spec ex d q :
  built ex d q ->
  q_exec q = ex /\ q_dialect q = d /\ Forall (fun w => wc_operator w ∈ ["="; "<"]%string) (q_wheres q).
Proof.
  induction 1 as [name|q c v _ (He & Hd & Hw)|q c v _ (He & Hd & Hw)]; [by repeat constructor| |];
    (split_and!; [done|done|]); cbn; apply Forall_app; (split; [done|]); repeat constructor.
Qed.

Lemma where_part_made w :
  validateIdentifier (wc_column w) = None -> wc_operator w ∈ ["="; "<"]%string ->
  made_of (where_part w).1 (zlen (where_part w).2).
Proof.
  intros Hc Ho. unfold where_part. destruct (decide _) as [[_ Heq]|_]; cbn [fst snd].
  - change (zlen (@nil value)) with (0 + 0). eauto with made.
  - change (zlen [wc_value w]) with (0 + 1).
    apply elem_of_cons in Ho as [->|[->|[]%elem_of_nil]%elem_of_cons]; apply made_app; eauto with made.
Qed.

Lemma where_parts_made ws parts vals :
  Forall (fun w => wc_operator w ∈ ["="; "<"]%string) ws ->
  where_parts ws = inr (parts, vals) ->
  exists ns, Forall2 made_of parts ns /\ foldr Z.add 0 ns = zlen vals.
Proof.
  intros Hw. revert parts vals. induction Hw as [|w ws Ho _ IH]; intros parts vals Hp; cbn in Hp.
  - simplify_eq. by exists [].
  - destruct (validateIdentifier (wc_column w)) eqn:Hc; [done|].
    destruct (where_parts ws) as [|[parts' vals']]; [done|]. simplify_eq.
    destruct (IH _ _ eq_refl) as (ns & Hns & Hsum). exists (zlen (where_part w).2 :: ns). split.
    + constructor; [by apply where_part_made|done].
    + cbn [foldr]. by rewrite Hsum, zlen_app.
Qed.

Lemma buildWhere_made ex d q s vals :
  built ex d q -> buildWhere q = inr (s, vals) -> made_of s (zlen vals).
Proof.
  intros (_ & _ & Hw)%built_spec Hb. unfold buildWhere in Hb. destruct (q_wheres q) as [|w ws].
  - simplify_eq. apply made_nil.
  - destruct (where_parts (w :: ws)) as [|[parts vs]] eqn:Hp; [done|]. simplify_eq.
    destruct (where_parts_made _ _ _ Hw Hp) as (ns & Hns & <-).
    rewrite <- (Z.add_0_l (foldr _ _ _)). apply made_app; [eauto with made|].
    apply made_Join; [eauto with made|done].
Qed.

Lemma columns_valid data cols cvs :
  columns data cols = inr cvs -> Forall (fun cv => validateIdentifier cv.1 = None) cvs.
Proof.
  revert cvs. induction cols as [|c cols IH]; intros cvs Hc; cbn in Hc; [by simplify_eq|].
  destruct (validateIdentifier c) eqn:Hv; [done|]. destruct (columns data cols) as [|l]; [done|].
  simplify_eq. constructor; auto.
Qed.

(** A list of parts, one per column, each with [k] placeholders. *)
Lemma made_columns (f : string * value -> string) (k : Z) cvs :
  Forall (fun cv => validateIdentifier cv.1 = None) cvs ->
  (forall cv, validateIdentifier cv.1 = None -> made_of (f cv) k) ->
  made_of (Join (f <$> cvs) ", ") (k * zlen cvs).
Proof.
  intros Hv Hf. eapply made_eq.
  - apply (made_Join _ _ ((fun _ => k) <$> cvs)); [eauto with made|].
    induction Hv as [|cv cvs Hc _ IH]; constructor; auto.
  - clear. induction cvs as [|cv cvs IH]; [cbn; unfold zlen; cbn; lia|].
    rewrite fmap_cons. cbn [foldr]. rewrite IH, zlen_cons. lia.
Qed.

Section Statements.
Context `{MapOrder} (ex : executor) (d : dialect).

Lemma with_where_bound {A} q (fail : error -> A) k :
  built ex d q ->
  (forall s vals, made_of s (zlen vals) -> made_of (q_tableName q) 0 ->
     invoked (@bound_statement ex d) (k s vals)) ->
  invoked (@bound_statement ex d) (with_where q fail k).
Proof.
  intros Hq Hk. unfold with_where. destruct (validateIdentifier (q_tableName q)) eqn:Ht; [done|].
  destruct (buildWhere q) as [|[s vals]] eqn:Hw; [done|].
  apply Hk; [by eapply buildWhere_made|by apply made_ident].
Qed.

Lemma exec_bound {A} q s args n (k : error + (error + Z) -> SQL A) :
  built ex d q -> made_of s n -> n = zlen args -> (forall r, invoked (@bound_statement ex d) (k r)) ->
  invoked (@bound_statement ex d) (r ← call_ (Exec (q_exec q) (Rebind (q_dialect q) s) args); k r).
Proof.
  intros (He & Hd & _)%built_spec Hs Hn Hk. rewrite He, Hd. apply invoked_mbind; [|done].
  apply invoked_call. split; [done|]. by eapply bound_text_made.
Qed.

Lemma query_bound {A} q s args n (k : error + Rows -> SQL A) :
  built ex d q -> made_of s n -> n = zlen args -> (forall r, invoked (@bound_statement ex d) (k r)) ->
  invoked (@bound_statement ex d) (r ← call_ (Query (q_exec q) (Rebind (q_dialect q) s) args); k r).
Proof.
  intros (He & Hd & _)%built_spec Hs Hn Hk. rewrite He, Hd. apply invoked_mbind; [|done].
  apply invoked_call. split; [done|]. by eapply bound_text_made.
Qed.

Lemma Insert_bound q data : built ex d q -> invoked (@bound_statement ex d) (Insert q data).
Proof.
  intros Hq. unfold Insert. destruct (validateIdentifier (q_tableName q)) eqn:Ht; [done|].
  destruct (columns data _) as [|cvs] eqn:Hc; [done|]. apply columns_valid in Hc.
  pose proof (made_columns fst 0 cvs Hc ltac:(intros; by apply made_ident)) as H1.
  pose proof (made_columns (fun _ => "?"%string) 1 cvs Hc ltac:(intros; apply made_hole)) as H2.
  eapply exec_bound; [done|eauto 20 with made| |done]. rewrite zlen_fmap. lia.
Qed.

Lemma Update_bound q data : built ex d q -> invoked (@bound_statement ex d) (Update q data).
Proof.
  intros Hq. unfold Update. destruct (validateIdentifier (q_tableName q)) eqn:Ht; [done|].
  destruct (columns data _) as [|cvs] eqn:Hc; [done|]. apply columns_valid in Hc.
  destruct (buildWhere q) as [|[s vals]] eqn:Hw; [done|]. apply (buildWhere_made ex d) in Hw; [|done].
  pose proof (made_columns (fun cv => cv.1 +:+ " = ?") 1 cvs Hc
    ltac:(intros cv Hv; exact (made_app _ _ 0 1 (made_ident _ Hv) made_equals))) as H1.
  eapply exec_bound; [done|eauto 20 with made| |done]. rewrite zlen_app, zlen_fmap. lia.
Qed.

Lemma Increment_bound q c n : built ex d q -> invoked (@bound_statement ex d) (Increment q c n).
Proof.
  intros Hq. unfold Increment. destruct (validateIdentifier (q_tableName q)) eqn:Ht; [done|].
  destruct (validateIdentifier c) eqn:Hc; [done|].
  destruct (buildWhere q) as [|[s vals]] eqn:Hw; [done|]. apply (buildWhere_made ex d) in Hw; [|done].
  eapply exec_bound; [done|eauto 20 with made| |done]. rewrite zlen_cons. lia.
Qed.

Lemma statements_bound q {X} (op : query_op X) :
  built ex d q -> invoked (@bound_statement ex d) (query_run q op).
Proof.
  intros Hq. destruct op; cbn [query_run]; [by apply Insert_bound|by apply Update_bound|by apply Increment_bound|..];
    apply with_where_bound; try done; intros s vals Hs Ht.
  - eapply exec_bound; [done|eauto 20 with made|lia|done].
  - eapply query_bound; [done|eauto 20 with made|lia|].
    intros [|rows]; [done|]. by destruct (scanRows rows) as [? [|]].
  - eapply query_bound; [done|eauto 20 with made|lia|]. by intros [].
  - destruct (built_spec ex d q Hq) as (He & Hd & _). rewrite He, Hd. apply invoked_call. split; [done|].
    eapply bound_text_made; [eauto 20 with made|lia].
Qed.
End Statements.

(** A value with quotes and a keyword in it stays a bound value. *)
Definition evil : value := VString "x'; DROP TABLE users; --".
Definition evil_query (d : dialect) : sqlQuery :=
  WhereLessThan (Where (Where (Table (mkBuilder (InTx 7) d) "users") "name" evil) "deleted_at" VNil) "level" (VInt 20).

Example evil_update :
  Update (evil_query postgresDialect) {["name" := evil]} =
  (r ← call_ (Exec (InTx 7) "UPDATE users SET name = $1 WHERE name = $2 AND deleted_at IS NULL AND level < $3"
                [evil; evil; VInt 20]); mret (rows_affected r)).
Proof. vm_compute. reflexivity. Qed.

Lemma evil_query_built d : built (InTx 7) d (evil_query d).
Proof. repeat constructor. Qed.

(** ** Rejected names *)

Definition op_columns {X} (op : query_op X) : gset string :=
  match op with
  | QInsert data => dom data
  | QUpdate data => dom data
  | QIncrement column _ => {[column]}
  | _ => ∅
  end.

(** An [Insert] has no conditions: those of its query are not looked at. *)
Definition uses_where {X} (op : query_op X) : bool := match op with QInsert _ => false | _ => true end.

Definition names_ok (q : sqlQuery) {X} (op : query_op X) : Prop :=
  validIdentifier (q_tableName q) = true /\
  (forall c, c ∈ op_columns op -> validIdentifier c = true) /\
  (uses_where op = true -> Forall (fun w => validIdentifier (wc_column w) = true) (q_wheres q)).

Definition failure {X} (op : query_op X) (e : error) : X :=
  match op in query_op X return X with
  | QInsert _ => Some e
  | QUpdate _ => inl e
  | QIncrement _ _ => inl e
  | QDelete => inl e
  | QFirst => inl e
  | QGet => ([], Some e)
  | QCount => inl e
  end.

Lemma validateIdentifier_None s : validateIdentifier s = None <-> validIdentifier s = true.
Proof. unfold validateIdentifier. by destruct (validIdentifier s). Qed.

Lemma where_parts_ok ws r :
  where_parts ws = inr r -> Forall (fun w => validIdentifier (wc_column w) = true) ws.
Proof.
  revert r. induction ws as [|w ws IH]; intros r Hp; [constructor|]. cbn in Hp.
  destruct (validateIdentifier (wc_column w)) eqn:Hc; [done|].
  destruct (where_parts ws) as [|[ps vs]]; [done|]. constructor; [by apply validateIdentifier_None|by eapply IH].
Qed.

Lemma buildWhere_ok q r :
  buildWhere q = inr r -> Forall (fun w => validIdentifier (wc_column w) = true) (q_wheres q).
Proof.
  unfold buildWhere. destruct (q_wheres q) as [|w ws]; [constructor|].
  destruct (where_parts (w :: ws)) as [|[ps vs]] eqn:Hp; [done|]. intros _. by eapply where_parts_ok.
Qed.

Lemma columns_ok `{MapOrder} data cvs :
  columns data (range (dom data)) = inr cvs -> forall c, c ∈ dom data -> validIdentifier c = true.
Proof.
  intros Hc c Hin. assert (Hr : c ∈ range (dom data)) by (rewrite range_perm; by apply elem_of_elements).
  revert cvs Hc. induction (range (dom data)) as [|c' cols IH]; intros cvs Hc; [by apply elem_of_nil in Hr|].
  cbn in Hc. destruct (validateIdentifier c') eqn:Hv; [done|].
  destruct (columns data cols) as [|l]; [done|].
  apply elem_of_cons in Hr as [->|Hr]; [by apply validateIdentifier_None|by eapply IH].
Qed.

(** Names that are no identifiers: no call is made. *)
Lemma names_rejected `{MapOrder} q {X} (op : query_op X) :
  ~ names_ok q op -> exists e, query_run q op = mret (failure op e).
Proof.
  intros Hn. destruct (validateIdentifier (q_tableName q)) as [e|] eqn:Ht.
  { exists (invalid_table e). destruct op; cbn [query_run failure]; unfold Insert, Update, Increment, Delete, First, Get, Count, with_where;
      by rewrite Ht. }
  pose proof (proj1 (validateIdentifier_None _) Ht) as Ht'.
  destruct op; cbn [query_run failure];
    unfold Insert, Update, Increment, Delete, First, Get, Count, with_where; rewrite Ht;
    try (destruct (columns data _) as [e|cvs] eqn:Hc; [by exists e|]);
    try (destruct (validateIdentifier column) as [e|] eqn:Hc; [by exists (invalid_column column e)|]);
    try (destruct (buildWhere q) as [e|[s vs]] eqn:Hw; [by exists e|]);
    exfalso; apply Hn; (split_and!; [done| |intros Hu; first [done|by eapply buildWhere_ok]]); cbn; intros c Hin;
    first [exact (columns_ok _ _ Hc c Hin) | apply elem_of_singleton in Hin as ->; by apply validateIdentifier_None
          | by apply elem_of_empty in Hin].
Qed.

(** C12. Whatever table and column names and values a caller gives, every
    statement of the query builder that reaches the driver is made of the
    builder's own fragments, of valid identifiers and of placeholders, one for
    each bound value (numbered from [$1] on Postgres), and runs on the executor
    the builder is bound to: no caller value becomes statement text. An
    operation with a name that is no identifier makes no call on the database at
    all and returns an error. *)
Theorem builder_statements `{MapOrder} ex d q {X} (op : query_op X) :
  built ex d q ->
  invoked (@bound_statement ex d) (query_run q op) /\
  (~ names_ok q op -> exists e, query_run q op = mret (failure op e)).
Proof. intros Hq. split; [by apply statements_bound|apply names_rejected]. Qed.

Lemma builder_statements_witness :
  invoked (@bound_statement (InTx 7) postgresDialect) (query_run (evil_query postgresDialect) (QUpdate {["name" := evil]})) /\
  exists e, query_run (evil_query postgresDialect) (QIncrement "level = 99 --" 1) = mret (inl e).
Proof.
  split.
  - apply (builder_statements (InTx 7) postgresDialect). apply evil_query_built.
  - apply (builder_statements (InTx 7) postgresDialect _ (QIncrement "level = 99 --" 1) (evil_query_built postgresDialect)).
    intros (_ & Hc & _). specialize (Hc "level = 99 --"%string ltac:(cbn; set_solver)). by vm_compute in Hc.
Defined.

(** ** Savepoints *)

(** A sequence of [Commit] ([true]) and [Rollback] calls on one transaction
    object, as from an explicit call followed by a deferred one. *)
Definition finish (commit : bool) (x : Tx) : SQL (option error * Tx) :=
  if commit then Tx_Commit x else Tx_Rollback x.

Fixpoint finish_all (calls : list bool) (x : Tx) : SQL (list (option error) * Tx) :=
  match calls with
  | [] => mret ([], x)
  | c :: calls =>
      r ← finish c x;
      rs ← finish_all calls r.2;
      mret (r.1 :: rs.1, rs.2)
  end.

(** Only statements about this savepoint, inside the enclosing transaction. *)
Definition savepoint_call (t : nat) (name : string) {X} (e : sql_port X) : Prop :=
  match e with
  | Exec ex q args =>
      ex = InTx t /\ args = [] /\ (q = "RELEASE SAVEPOINT " +:+ name \/ q = "ROLLBACK TO SAVEPOINT " +:+ name)
  | _ => False
  end.

Lemma finish_all_done calls t name d :
  finish_all calls (sqlSavepoint t name d true) =
  mret (replicate (length calls) (Some ErrTxDone), sqlSavepoint t name d true).
Proof. induction calls as [|[] calls IH]; [done| |]; cbn; by rewrite IH. Qed.

(** A finish of an open savepoint closes it, and speaks only of it. *)
Lemma finish_open {W} (h : forall X, sql_port X -> W -> X * W) c t name d w :
  exists e w', run h (finish c (sqlSavepoint t name d false)) w = (Ret (e, sqlSavepoint t name d true), w').
Proof.
  destruct c; cbn [finish Tx_Commit Tx_Rollback]; prun; [by repeat eexists|].
  destruct (h _ _ w).1; prun; by repeat eexists.
Qed.

Lemma finish_calls c t name d done :
  invoked (@savepoint_call t name) (finish c (sqlSavepoint t name d done)).
Proof.
  destruct c, done; cbn [finish Tx_Commit Tx_Rollback]; try apply invoked_ret;
    (apply invoked_mbind; [apply invoked_call; cbn; auto|]); [by intros|].
  intros [e|]; [apply invoked_ret|]. apply invoked_mbind; [apply invoked_call; cbn; auto|by intros].
Qed.

Lemma finish_closes c t name d done :
  results (fun r => r.2 = sqlSavepoint t name d true) (finish c (sqlSavepoint t name d done)).
Proof.
  destruct c, done; cbn [finish Tx_Commit Tx_Rollback]; try done;
    (apply (results_mbind (fun _ => True)); [by apply results_call|]); [done|].
  intros [e|] _; [done|]. apply (results_mbind (fun _ => True)); [by apply results_call|done].
Qed.

Lemma finish_all_calls calls t name d done :
  invoked (@savepoint_call t name) (finish_all calls (sqlSavepoint t name d done)).
Proof.
  revert done. induction calls as [|c calls IH]; intros done; cbn [finish_all]; [apply invoked_ret|].
  eapply invoked_mbind_post; [apply finish_calls|apply finish_closes|].
  intros [e x] Hx. cbn in Hx |- *. subst x. apply invoked_mbind; [apply IH|]. intros. apply invoked_ret.
Qed.

(** A savepoint is finalised at most once: of any sequence of [Commit] and
    [Rollback] calls on it, the first decides its answer and is the only one
    that touches the database; each later one answers [ErrTxDone]. Every
    statement stays inside the enclosing transaction, which is neither committed
    nor rolled back. *)
Theorem savepoint_once {W} (h : forall X, sql_port X -> W -> X * W) c calls t name d w :
  run h (finish_all (c :: calls) (sqlSavepoint t name d false)) w =
    run_then (run h (finish c (sqlSavepoint t name d false)) w)
      (fun r w' => (Ret (r.1 :: replicate (length calls) (Some ErrTxDone), sqlSavepoint t name d true), w')) /\
  invoked (@savepoint_call t name) (finish_all (c :: calls) (sqlSavepoint t name d false)).
Proof.
  split.
  - cbn [finish_all]. destruct (finish_open h c t name d w) as (e & w' & Hf). prun. rewrite Hf. prun.
    cbn [fst snd]. rewrite finish_all_done. by prun.
  - apply finish_all_calls.
Qed.
