(* ===== verification/SqlSchema.v ===== *)
(** * Schema definitions and DDL (ports/schema.go, the schema operations of
    outbound/sql_db.go, external/migrations/00000000000000_initial_schema.go)

    Table definitions come from migrations; their names and default values are
    turned into statement text, since DDL takes no bound values. [schema_text]
    reads every statement back with an SQL lexer: the string literals in it are
    exactly the default values and enumerations given, whatever bytes they
    contain, and the rest is the operations' own words, valid identifiers and
    numbers. *)

From Stdlib Require Import ZArith Lia.
From Stdlib Require Import Strings.Byte.
From stdpp Require Import base list strings gmap option pretty.
From S2P Require Import Prelude GoFmt Utf8 Json LValue LExtract LParse LRoundtrip Smus Effects Ports.
From S2P Require Import Codec SessionStore SqlText SqlBuilder.

Open Scope Z_scope.

(** ** ports/schema.go *)

Inductive DefaultType := DefaultNone | DefaultNow | DefaultLiteral.

#[export] Instance DefaultType_eq_dec : EqDecision DefaultType.
Proof. solve_decision. Defined.

Record Column := mkColumn {
  col_Name : string;
  col_Type : ColumnType;
  col_IsNotNull : bool;
  col_IsUnique : bool;
  col_IsPK : bool;
  col_IsAutoIncr : bool;
  col_DefType : DefaultType;
  col_DefaultVal : value
}.

Definition Col (name : string) (t : ColumnType) : Column :=
  mkColumn name t false false false false DefaultNone VNil.
Definition NotNull (c : Column) : Column :=
  mkColumn (col_Name c) (col_Type c) true (col_IsUnique c) (col_IsPK c) (col_IsAutoIncr c) (col_DefType c) (col_DefaultVal c).
Definition Unique (c : Column) : Column :=
  mkColumn (col_Name c) (col_Type c) (col_IsNotNull c) true (col_IsPK c) (col_IsAutoIncr c) (col_DefType c) (col_DefaultVal c).
Definition Default (c : Column) (v : value) : Column :=
  mkColumn (col_Name c) (col_Type c) (col_IsNotNull c) (col_IsUnique c) (col_IsPK c) (col_IsAutoIncr c) DefaultLiteral v.
Definition col_DefaultNow (c : Column) : Column :=
  mkColumn (col_Name c) (col_Type c) (col_IsNotNull c) (col_IsUnique c) (col_IsPK c) (col_IsAutoIncr c) DefaultNow (col_DefaultVal c).
Definition PrimaryKey (name : string) : Column := mkColumn name ColInteger true false true true DefaultNone VNil.
Definition UUID (name : string) : Column := mkColumn name ColText true true false false DefaultNone VNil.

Record ForeignKey := mkForeignKey { fk_Column : string; fk_RefTable : string; fk_RefCol : string; fk_OnDelete : string }.
Record RangeCheck := mkRangeCheck { rc_Column : string; rc_Min : Z; rc_Max : Z }.
Record InCheck := mkInCheck { ic_Column : string; ic_Values : list string }.

Record TableDef := mkTable {
  tb_Name : string;
  tb_Columns : list Column;
  tb_PrimaryKeys : list string;
  tb_ForeignKeys : list ForeignKey;
  tb_RequireOneOf : list string;
  tb_RangeChecks : list RangeCheck;
  tb_InChecks : list InCheck
}.

Record Index := mkIndex { ix_Name : string; ix_Table : string; ix_Columns : list string }.

(** ** The storage core

    [exec] is the root pool on the adapter itself, a transaction on the copy a
    migration gets. *)
Record sqlDB := mkSqlDB { d_exec : executor; d_dialect : dialect }.
Definition newSQLDB (d : dialect) : sqlDB := mkSqlDB RootPool d.

(** ** Validation *)

Definition fails_on (what name : string) (e : error) : error := Wrapf (what +:+ name) e.

(** The first invalid name of a list. *)
Fixpoint check_names (what : string) (names : list string) : option error :=
  match names with
  | [] => None
  | n :: names =>
      match validateIdentifier n with
      | Some e => Some (fails_on what n e)
      | None => check_names what names
      end
  end.

(** The first error of a list of checks, in order. *)
Fixpoint first_error (checks : list (option error)) : option error :=
  match checks with
  | [] => None
  | Some e :: _ => Some e
  | None :: checks => first_error checks
  end.

Definition check_fk (fk : ForeignKey) : option error :=
  match check_names "invalid identifier in foreign key: " [fk_Column fk; fk_RefTable fk; fk_RefCol fk] with
  | Some e => Some e
  | None => if validOnDelete (fk_OnDelete fk) then None
            else Some (Errorf ("invalid ON DELETE action " +:+ fk_OnDelete fk))
  end.

Definition check_range (rc : RangeCheck) : option error :=
  match validateIdentifier (rc_Column rc) with
  | Some e => Some (fails_on "invalid column in range_check: " (rc_Column rc) e)
  | None => if rc_Max rc <? rc_Min rc
            then Some (Errorf ("range_check on " +:+ rc_Column rc +:+ " has min " +:+ Itoa (rc_Min rc)
                                 +:+ " above max " +:+ Itoa (rc_Max rc)))
            else None
  end.

Definition check_in (ic : InCheck) : option error :=
  match validateIdentifier (ic_Column ic) with
  | Some e => Some (fails_on "invalid column in in_check: " (ic_Column ic) e)
  | None => match ic_Values ic with
            | [] => Some (Errorf ("in_check on " +:+ ic_Column ic +:+ " has no values"))
            | vs => check_names ("invalid value in in_check on " +:+ ic_Column ic +:+ ": ") vs
            end
  end.

Definition check_table (def : TableDef) : option error :=
  first_error
    (check_names "invalid table name " [tb_Name def]
     :: check_names "invalid column name " (col_Name <$> tb_Columns def)
     :: (check_fk <$> tb_ForeignKeys def)
     ++ check_names "invalid primary key column " (tb_PrimaryKeys def)
     :: check_names "invalid column in require_one_of: " (tb_RequireOneOf def)
     :: (check_range <$> tb_RangeChecks def) ++ (check_in <$> tb_InChecks def)).

(** ** Statements *)

(** [strings.ReplaceAll(v, "'", "''")] *)
Definition double_quotes (l : bytes) : bytes :=
  flat (fun b => if decide (b = Byte.x27) then [Byte.x27; Byte.x27] else [b]) l.

Definition quoted (v : bytes) : string := string_of_bytes ([Byte.x27] ++ double_quotes v ++ [Byte.x27]).

(** A newline and a tab, which the statement text uses for layout. *)
Definition NL : string := string_of_bytes [Byte.x0a].
Definition TAB : string := string_of_bytes [Byte.x09].

Section Ddl.
(** [fmt.Sprintf("%v", v)] of a default value that is neither a string nor an
    integer. *)
Context (sprint_v : value -> string).

Definition defaultSQL (d : sqlDB) (col : Column) : string :=
  match col_DefType col with
  | DefaultNow => DefaultNowExpr (d_dialect d)
  | DefaultLiteral =>
      match col_DefaultVal col with
      | VString v => quoted (lit v)
      | VInt z => Itoa z
      | v => sprint_v v
      end
  | DefaultNone => ""
  end.

Definition when (b : bool) (s : string) : string := if b then s else "".

Definition default_clause (d : sqlDB) (col : Column) : string :=
  when (bool_decide (col_DefType col <> DefaultNone)) (" DEFAULT " +:+ defaultSQL d col).

Definition column_sql (d : sqlDB) (composite : bool) (col : Column) : string :=
  TAB +:+ col_Name col +:+ " "
  +:+ (if col_IsPK col && col_IsAutoIncr col && negb composite then AutoIncrPKSQL (d_dialect d)
       else ColumnTypeSQL (d_dialect d) (col_Type col)
              +:+ when (col_IsPK col && negb composite) " PRIMARY KEY"
              +:+ when (col_IsNotNull col) " NOT NULL")
  +:+ when (col_IsUnique col) " UNIQUE"
  +:+ default_clause d col.

Definition fk_sql (fk : ForeignKey) : string :=
  "," +:+ NL +:+ TAB +:+ "FOREIGN KEY (" +:+ fk_Column fk +:+ ") REFERENCES " +:+ fk_RefTable fk
  +:+ "(" +:+ fk_RefCol fk +:+ ")"
  +:+ when (bool_decide (fk_OnDelete fk <> "")) (" ON DELETE " +:+ fk_OnDelete fk).

Definition range_sql (rc : RangeCheck) : string :=
  "," +:+ NL +:+ TAB +:+ "CHECK (" +:+ rc_Column rc +:+ " BETWEEN " +:+ Itoa (rc_Min rc)
  +:+ " AND " +:+ Itoa (rc_Max rc) +:+ ")".

Definition in_sql (ic : InCheck) : string :=
  "," +:+ NL +:+ TAB +:+ "CHECK (" +:+ ic_Column ic +:+ " IN ('" +:+ Join (ic_Values ic) "', '" +:+ "'))".

Definition concat_str (l : list string) : string := foldr String.append "" l.

Definition table_sql (d : sqlDB) (def : TableDef) : string :=
  let composite := negb (bool_decide (tb_PrimaryKeys def = [])) in
  "CREATE TABLE IF NOT EXISTS " +:+ tb_Name def +:+ " (" +:+ NL
  +:+ Join (column_sql d composite <$> tb_Columns def) ("," +:+ NL)
  +:+ when composite ("," +:+ NL +:+ TAB +:+ "PRIMARY KEY (" +:+ Join (tb_PrimaryKeys def) ", " +:+ ")")
  +:+ concat_str (fk_sql <$> tb_ForeignKeys def)
  +:+ when (negb (bool_decide (tb_RequireOneOf def = [])))
        ("," +:+ NL +:+ TAB +:+ "CHECK ("
           +:+ Join ((fun c => c +:+ " IS NOT NULL") <$> tb_RequireOneOf def) " OR " +:+ ")")
  +:+ concat_str (range_sql <$> tb_RangeChecks def)
  +:+ concat_str (in_sql <$> tb_InChecks def)
  +:+ NL +:+ ")".

Definition CreateTable (d : sqlDB) (def : TableDef) : SQL (option error) :=
  match check_table def with
  | Some e => mret (Some e)
  | None => r ← call_ (Exec (d_exec d) (table_sql d def) []); mret (err_of r)
  end.

Definition DropTable (d : sqlDB) (name : string) : SQL (option error) :=
  match check_names "invalid table name " [name] with
  | Some e => mret (Some e)
  | None =>
      r ← call_ (Exec (d_exec d) ("DROP TABLE IF EXISTS " +:+ name +:+ DropTableSuffix (d_dialect d)) []);
      mret (err_of r)
  end.

Definition AddColumn (d : sqlDB) (table : string) (col : Column) : SQL (option error) :=
  match first_error [check_names "invalid table name " [table]; check_names "invalid column name " [col_Name col]] with
  | Some e => mret (Some e)
  | None =>
      s ← SkipAddColumn (d_dialect d) (d_exec d) table (col_Name col);
      match s with
      | inl e => mret (Some e)
      | inr true => mret None
      | inr false =>
          r ← call_ (Exec (d_exec d)
                ("ALTER TABLE " +:+ table +:+ " " +:+ AddColumnClause (d_dialect d) +:+ col_Name col +:+ " "
                   +:+ ColumnTypeSQL (d_dialect d) (col_Type col)
                   +:+ when (col_IsNotNull col) " NOT NULL"
                   +:+ when (col_IsUnique col && SupportsUniqueInAddColumn (d_dialect d)) " UNIQUE"
                   +:+ default_clause d col) []);
          mret (err_of r)
      end
  end.

Definition DropColumn (d : sqlDB) (table column : string) : SQL (option error) :=
  match first_error [check_names "invalid table name " [table]; check_names "invalid column name " [column]] with
  | Some e => mret (Some e)
  | None =>
      s ← SkipDropColumn (d_dialect d) (d_exec d) table column;
      match s with
      | inl e => mret (Some e)
      | inr true => mret None
      | inr false =>
          r ← call_ (Exec (d_exec d)
                ("ALTER TABLE " +:+ table +:+ " " +:+ DropColumnClause (d_dialect d) +:+ column) []);
          mret (err_of r)
      end
  end.

Definition CreateIndex (d : sqlDB) (def : Index) : SQL (option error) :=
  match first_error [check_names "invalid index name " [ix_Name def]; check_names "invalid table name " [ix_Table def];
                     check_names "invalid column name " (ix_Columns def)] with
  | Some e => mret (Some e)
  | None =>
      r ← call_ (Exec (d_exec d)
            ("CREATE INDEX IF NOT EXISTS " +:+ ix_Name def +:+ " ON " +:+ ix_Table def
               +:+ "(" +:+ Join (ix_Columns def) ", " +:+ ")") []);
      mret (err_of r)
  end.
End Ddl.

(** ** Reading statements back

    The lexical rule of both backends: a quote opens a string literal, which
    ends at the next quote that is not doubled. The lexer answers the bytes
    outside literals and the content of each literal, in order; [None] for an
    unterminated literal. *)
Fixpoint lex (inside : option bytes) (l : bytes) : option (list (byte + bytes)) :=
  match l with
  | [] => match inside with None => Some [] | Some _ => None end
  | b :: l =>
      match inside with
      | None => if decide (b = Byte.x27) then lex (Some []) l else (inl b ::.) <$> lex None l
      | Some acc =>
          if decide (b = Byte.x27) then
            match l with
            | b' :: l' => if decide (b' = Byte.x27) then lex (Some (acc ++ [Byte.x27])) l'
                          else (inr acc ::.) <$> lex None l
            | [] => Some [inr acc]
            end
          else lex (Some (acc ++ [b])) l
      end
  end.

(** A statement as tokens. *)
Inductive token := Word (t : string) | Str (v : bytes).

Definition words : list string :=
  ["CREATE TABLE IF NOT EXISTS "; " ("; NL; TAB; ","; ", "; ")"; " PRIMARY KEY"; " NOT NULL"; " UNIQUE"; " DEFAULT ";
   "INTEGER PRIMARY KEY AUTOINCREMENT"; "BIGSERIAL PRIMARY KEY"; "INTEGER"; "TEXT"; "DATETIME"; "BIGINT"; "TIMESTAMPTZ"; "JSONB";
   "PRIMARY KEY ("; "FOREIGN KEY ("; ") REFERENCES "; "("; " ON DELETE "; "CASCADE"; "SET NULL"; "SET DEFAULT"; "RESTRICT"; "NO ACTION";
   "CHECK ("; " IS NOT NULL"; " OR "; " BETWEEN "; " AND "; " IN ("; "))"; " "; "(datetime("; "now()";
   "DROP TABLE IF EXISTS "; " CASCADE"; "ALTER TABLE "; "ADD COLUMN "; "ADD COLUMN IF NOT EXISTS "; "DROP COLUMN "; "DROP COLUMN IF EXISTS ";
   "CREATE INDEX IF NOT EXISTS "; " ON "; "PRAGMA table_info("]%string.

(** Words: the fixed ones, identifiers and integers. *)
Definition word_ok (t : string) : Prop :=
  t ∈ words \/ validIdentifier t = true \/ exists z, t = Itoa z.

Definition spell (k : token) : bytes :=
  match k with Word t => lit t | Str v => lit (quoted v) end.
Definition lexed (k : token) : list (byte + bytes) :=
  match k with Word t => inl <$> lit t | Str v => [inr v] end.
Definition strs (ks : list token) : list bytes :=
  omap (fun k => match k with Word _ => None | Str v => Some v end) ks.

Definition word_first (ks : list token) : Prop := match ks with Str _ :: _ => False | _ => True end.
Fixpoint separated (ks : list token) : Prop :=
  match ks with
  | [] => True
  | Word t :: ks => word_ok t /\ separated ks
  | Str _ :: ks => word_first ks /\ separated ks
  end.

(** [ddl s vs]: text whose literals are [vs], each in its place between words,
    and which the lexer reads back. *)
Definition ddl (s : string) (vs : list bytes) : Prop :=
  exists ks, separated ks /\ strs ks = vs /\ lit s = concat (spell <$> ks) /\
    lex None (lit s) = Some (concat (lexed <$> ks)).

Lemma lit_quoted v : lit (quoted v) = [Byte.x27] ++ double_quotes v ++ [Byte.x27].
Proof. unfold quoted, lit. by rewrite bytes_of_string_of_bytes. Qed.

Lemma lex_inside v acc r :
  head r <> Some Byte.x27 ->
  lex (Some acc) (double_quotes v ++ Byte.x27 :: r) = (inr (acc ++ v) ::.) <$> lex None r.
Proof.
  intros Hr. revert acc. induction v as [|b v IH]; intros acc.
  - cbn [double_quotes flat]. rewrite app_nil_r. unfold double_quotes, flat. cbn [fmap list_fmap concat app lex].
    repeat rewrite decide_True by done. destruct r as [|b r]; [done|].
    rewrite decide_False; [done|]. intros ->. by apply Hr.
  - unfold double_quotes. rewrite flat_cons. fold (double_quotes v).
    destruct (decide (b = Byte.x27)) as [->|Hb]; cbn [app lex].
    + repeat rewrite decide_True by done.
      rewrite IH. by rewrite <- (assoc_L (++)).
    + rewrite decide_False by done. rewrite IH. by rewrite <- (assoc_L (++)).
Qed.

Lemma lex_word l r : Byte.x27 ∉ l -> lex None (l ++ r) = ((inl <$> l) ++.) <$> lex None r.
Proof.
  induction l as [|b l IH]; intros Hl; [change ([] ++ r) with r; by destruct (lex None r)|].
  apply not_elem_of_cons in Hl as [Hb Hl]. cbn [app lex]. rewrite decide_False; [|by intros ->].
  rewrite IH by done. by destruct (lex None r).
Qed.

(** Words are not empty and have no quotes. *)
Lemma word_text t : word_ok t -> lit t <> [] /\ Byte.x27 ∉ lit t.
Proof.
  intros [Ht|[Ht|[z ->]]].
  - assert (Hall : Forall (fun t => lit t <> [] /\ Byte.x27 ∉ lit t) words).
    { assert (forallb (fun t => bool_decide (lit t <> [] /\ Byte.x27 ∉ lit t)) words = true) as H
        by (vm_compute; reflexivity).
      apply Forall_forall. intros x Hx. eapply forallb_forall in H; [|by apply list_elem_of_In].
      by apply bool_decide_eq_true in H. }
    by eapply Forall_forall in Hall.
  - pose proof (ident_chars t Ht) as Hc. unfold validIdentifier in Ht. split; [by destruct (lit t)|].
    intros Hq. eapply Forall_forall in Hc; [|exact Hq]. by vm_compute in Hc.
  - destruct (Itoa_chars z) as (b & l & He & Hl). unfold lit. rewrite He. split; [done|].
    intros Hq. eapply Forall_forall in Hl; [|exact Hq]. by destruct Hl as [|Hl]; [|vm_compute in Hl].
Qed.

Lemma tokens_head ks :
  word_first ks -> separated ks -> head (concat (spell <$> ks)) <> Some Byte.x27.
Proof.
  destruct ks as [|[t|v] ks]; [done| |done]. intros _ [Ht _]. rewrite fmap_cons. cbn [concat spell].
  destruct (word_text t Ht) as [Hne Hq]. destruct (lit t) as [|b l]; [done|]. cbn. intros [= ->].
  apply Hq. left.
Qed.

Lemma lex_tokens ks : separated ks -> lex None (concat (spell <$> ks)) = Some (concat (lexed <$> ks)).
Proof.
  induction ks as [|[t|v] ks IH]; intros Hs; [done| |]; destruct Hs as [Ht Hs];
    rewrite !fmap_cons; cbn [concat spell lexed].
  - rewrite lex_word by by apply word_text. by rewrite IH.
  - rewrite lit_quoted. rewrite <- !(assoc_L (++)). cbn [app lex]. repeat rewrite decide_True by done.
    rewrite lex_inside by by apply tokens_head. by rewrite IH.
Qed.

(** The same, for text that starts with a word: it may follow a literal. *)
Definition wordy (s : string) (vs : list bytes) : Prop :=
  exists ks, word_first ks /\ separated ks /\ strs ks = vs /\ lit s = concat (spell <$> ks).

Lemma wordy_ddl s vs : wordy s vs -> ddl s vs.
Proof. intros (ks & Hf & Hs & Hv & He). exists ks. rewrite He. eauto using lex_tokens. Qed.

Lemma separated_app ks ks' :
  separated ks -> word_first ks' -> separated ks' -> separated (ks ++ ks').
Proof.
  intros Hs Hf Hs'. induction ks as [|[t|v] ks IH]; [done| |]; destruct Hs as [Ht Hs]; cbn; (split; [|by apply IH]).
  - done.
  - by destruct ks as [|[] ks].
Qed.

Lemma wordy_app s t vs ws : wordy s vs -> wordy t ws -> wordy (s +:+ t) (vs ++ ws).
Proof.
  intros (ks & Hf & Hs & <- & He) (ks' & Hf' & Hs' & <- & He'). exists (ks ++ ks'). split_and!.
  - by destruct ks as [|[] ks].
  - by apply separated_app.
  - unfold strs. by rewrite omap_app.
  - by rewrite lit_app, fmap_app, concat_app, He, He'.
Qed.

Lemma wordy_word t : word_ok t -> wordy t [].
Proof. intros Ht. exists [Word t]. cbn. by rewrite app_nil_r. Qed.

Lemma wordy_quoted t v : word_ok t -> wordy (t +:+ quoted v) [v].
Proof. intros Ht. exists [Word t; Str v]. cbn. by rewrite lit_app, app_nil_r. Qed.

Lemma wordy_nil : wordy "" [].
Proof. by exists []. Qed.

Lemma word_fixed t : bool_decide (t ∈ words) = true -> word_ok t.
Proof. intros H%bool_decide_eq_true. by left. Qed.

Lemma wordy_fixed t : bool_decide (t ∈ words) = true -> wordy t [].
Proof. intros H. by apply wordy_word, word_fixed. Qed.

Lemma wordy_ident t : validIdentifier t = true -> wordy t [].
Proof. intros Ht. apply wordy_word. right. by left. Qed.

Lemma wordy_Itoa z : wordy (Itoa z) [].
Proof. apply wordy_word. right. right. eauto. Qed.

Lemma wordy_when b s : wordy s [] -> wordy (when b s) [].
Proof. destruct b; [done|intros _; apply wordy_nil]. Qed.

Lemma wordy_if (b : bool) s t : wordy s [] -> wordy t [] -> wordy (if b then s else t) [].
Proof. by destruct b. Qed.

Lemma wordy_eq s vs ws : wordy s vs -> vs = ws -> wordy s ws.
Proof. by intros ? <-. Qed.

Lemma wordy_Join {A} (f : A -> string) (g : A -> list bytes) sep l :
  wordy sep [] -> Forall (fun x => wordy (f x) (g x)) l -> wordy (Join (f <$> l) sep) (l ≫= g).
Proof.
  intros Hsep H. induction H as [|x l Hx Hl IH]; [apply wordy_nil|].
  rewrite fmap_cons. destruct l as [|y l]; [cbn [fmap list_fmap]|rewrite fmap_cons in *]; cbn [Join mbind list_bind].
  - rewrite app_nil_r. exact Hx.
  - eapply wordy_eq; [exact (wordy_app _ _ _ _ Hx (wordy_app _ _ _ _ Hsep IH))|]. done.
Qed.

Lemma wordy_Join_names sep l :
  wordy sep [] -> Forall (fun x => validIdentifier x = true) l -> wordy (Join l sep) [].
Proof.
  intros Hsep Hl. rewrite <- (list_fmap_id l). eapply wordy_eq; [apply (wordy_Join id (fun _ => [])); [done|]|].
  - eapply Forall_impl; [exact Hl|]. apply wordy_ident.
  - clear. by induction l.
Qed.

Lemma wordy_concat {A} (f : A -> string) (g : A -> list bytes) l :
  Forall (fun x => wordy (f x) (g x)) l -> wordy (concat_str (f <$> l)) (l ≫= g).
Proof. induction 1 as [|x l Hx Hl IH]; [apply wordy_nil|]. exact (wordy_app _ _ _ _ Hx IH). Qed.

(** ** Validated definitions *)

Lemma check_names_valid what names :
  check_names what names = None -> Forall (fun n => validIdentifier n = true) names.
Proof.
  induction names as [|n names IH]; intros Hc; [constructor|]. cbn in Hc.
  destruct (validateIdentifier n) eqn:Hv; [done|]. constructor; [by apply validateIdentifier_None|auto].
Qed.

Lemma check_name_valid what n : check_names what [n] = None -> validIdentifier n = true.
Proof. intros H%check_names_valid. by inversion H. Qed.

Lemma first_error_None checks : first_error checks = None -> Forall (fun c => c = None) checks.
Proof. induction checks as [|[e|] checks IH]; intros H; [constructor|done|]. constructor; auto. Qed.

(** The literals of a column's default. *)
Definition column_literals (d : dialect) (col : Column) : list bytes :=
  match col_DefType col with
  | DefaultNone => []
  | DefaultNow => match d with sqliteDialect => [lit "now"] | postgresDialect => [] end
  | DefaultLiteral => match col_DefaultVal col with VString v => [lit v] | _ => [] end
  end.

(** Strings and integers are default values the code writes itself. Any other is
    spliced as [%v] prints it, without quoting: then its text must be harmless,
    words and punctuation outside literals. *)
Definition simple_default (sprint_v : value -> string) (col : Column) : Prop :=
  match col_DefType col, col_DefaultVal col with
  | DefaultLiteral, VString _ | DefaultLiteral, VInt _ => True
  | DefaultLiteral, v => wordy (sprint_v v) []
  | _, _ => True
  end.

Create HintDb wordy.
#[export] Hint Resolve wordy_nil wordy_ident wordy_Itoa wordy_when wordy_if wordy_Join_names : wordy.
#[export] Hint Extern 5 (wordy _ []) => (apply wordy_fixed; vm_compute; reflexivity) : wordy.

(** Text without literals, piece by piece. *)
Lemma wordless s t : wordy s [] -> wordy t [] -> wordy (s +:+ t) [].
Proof. exact (wordy_app s t [] []). Qed.
#[export] Hint Resolve wordless : wordy.

Lemma wordy_before s t vs : wordy s [] -> wordy t vs -> wordy (s +:+ t) vs.
Proof. exact (wordy_app s t [] vs). Qed.
Lemma wordy_after s t vs : wordy s vs -> wordy t [] -> wordy (s +:+ t) vs.
Proof. intros Hs Ht. rewrite <- (app_nil_r vs). by apply wordy_app. Qed.

Section Text.
Context (sprint_v : value -> string) (d : sqlDB).

Lemma default_clause_wordy col :
  simple_default sprint_v col -> wordy (default_clause sprint_v d col) (column_literals (d_dialect d) col).
Proof.
  unfold default_clause, simple_default, column_literals, defaultSQL.
  destruct (col_DefType col); cbn [bool_decide decide when]; intros Hs; [apply wordy_nil| |].
  - destruct (d_dialect d); unfold DefaultNowExpr, sqlite_DefaultNowExpr, postgres_DefaultNowExpr; [|auto with wordy].
    change (" DEFAULT " +:+ "(datetime('now'))")
      with (" DEFAULT " +:+ (("(datetime(" +:+ quoted (lit "now")) +:+ "))")).
    apply wordy_before; [auto with wordy|]. apply wordy_after; [|auto with wordy].
    apply wordy_quoted, word_fixed. vm_compute. reflexivity.
  - destruct (col_DefaultVal col); try by apply wordy_before; [apply wordy_fixed; vm_compute; reflexivity|].
    + auto with wordy.
    + apply wordy_quoted, word_fixed. vm_compute. reflexivity.
Qed.

Lemma ColumnTypeSQL_wordy t : wordy (ColumnTypeSQL (d_dialect d) t) [].
Proof. destruct (d_dialect d), t; cbn [ColumnTypeSQL sqlite_ColumnType postgres_ColumnType]; auto with wordy. Qed.

Lemma AutoIncrPKSQL_wordy : wordy (AutoIncrPKSQL (d_dialect d)) [].
Proof. destruct (d_dialect d); unfold AutoIncrPKSQL, sqlite_AutoIncrPKSQL, postgres_AutoIncrPKSQL; auto with wordy. Qed.

Lemma DropTableSuffix_wordy : wordy (DropTableSuffix (d_dialect d)) [].
Proof. destruct (d_dialect d); unfold DropTableSuffix, sqlite_DropTableSuffix, postgres_DropTableSuffix; auto with wordy. Qed.

Lemma AddColumnClause_wordy : wordy (AddColumnClause (d_dialect d)) [].
Proof. destruct (d_dialect d); unfold AddColumnClause, sqlite_AddColumnClause, postgres_AddColumnClause; auto with wordy. Qed.

Lemma DropColumnClause_wordy : wordy (DropColumnClause (d_dialect d)) [].
Proof. destruct (d_dialect d); unfold DropColumnClause, sqlite_DropColumnClause, postgres_DropColumnClause; auto with wordy. Qed.

Hint Resolve ColumnTypeSQL_wordy AutoIncrPKSQL_wordy DropTableSuffix_wordy AddColumnClause_wordy
  DropColumnClause_wordy : wordy.

Lemma column_sql_wordy composite col :
  validIdentifier (col_Name col) = true -> simple_default sprint_v col ->
  wordy (column_sql sprint_v d composite col) (column_literals (d_dialect d) col).
Proof.
  intros Hn Hs. unfold column_sql. do 5 (apply wordy_before; [auto 20 with wordy|]).
  by apply default_clause_wordy.
Qed.

Lemma fk_sql_wordy fk : check_fk fk = None -> wordy (fk_sql fk) [].
Proof.
  unfold check_fk, fk_sql. destruct (check_names _ _) eqn:Hn; [done|].
  apply check_names_valid in Hn. apply Forall_cons in Hn as [H1 Hn]. apply Forall_cons in Hn as [H2 Hn].
  apply Forall_cons in Hn as [H3 _]. intros Ho. destruct (validOnDelete (fk_OnDelete fk)) eqn:Hv; [|done].
  apply bool_decide_eq_true in Hv.
  assert (wordy (fk_OnDelete fk) []) as Hw.
  { repeat (apply elem_of_cons in Hv as [->|Hv]; [auto with wordy|]). by apply elem_of_nil in Hv. }
  auto 20 with wordy.
Qed.

Lemma range_sql_wordy rc : check_range rc = None -> wordy (range_sql rc) [].
Proof.
  unfold check_range, range_sql. destruct (validateIdentifier _) eqn:Hn; [done|].
  apply validateIdentifier_None in Hn. auto 20 with wordy.
Qed.

(** The quotes written around and between the values of an enumeration. *)
Lemma append_assoc (s t u : string) : (s +:+ t) +:+ u = s +:+ (t +:+ u).
Proof. induction s as [|c s IH]; [done|]. exact (f_equal (String c) IH). Qed.

Lemma quoted_plain v : validIdentifier v = true -> quoted (lit v) = "'" +:+ v +:+ "'".
Proof.
  intros Hv%ident_chars. rewrite <- (string_of_bytes_of_string ("'" +:+ v +:+ "'")). unfold quoted. f_equal.
  change (bytes_of_string ("'" +:+ v +:+ "'")) with (lit ("'" +:+ (v +:+ "'"))). rewrite !lit_app. f_equal. f_equal.
  induction Hv as [|b l Hb _ IH]; [done|]. unfold double_quotes. rewrite flat_cons. fold (double_quotes l).
  rewrite IH, decide_False; [done|]. intros ->. by vm_compute in Hb.
Qed.

Lemma in_list_quoted vs :
  vs <> [] -> Forall (fun v => validIdentifier v = true) vs ->
  "'" +:+ Join vs "', '" +:+ "'" = Join ((fun v => quoted (lit v)) <$> vs) ", ".
Proof.
  intros Hne H. induction H as [|v vs Hv Hvs IH]; [done|]. rewrite fmap_cons. destruct vs as [|v' vs].
  - cbn [Join fmap list_fmap]. by rewrite quoted_plain.
  - specialize (IH ltac:(done)). rewrite fmap_cons in *. cbn [Join] in *. rewrite <- IH, quoted_plain by done.
    by rewrite !append_assoc.
Qed.

Lemma wordy_quoted_list t vs :
  word_ok t -> vs <> [] -> wordy (t +:+ Join ((fun v => quoted (lit v)) <$> vs) ", ") (lit <$> vs).
Proof.
  intros Ht Hne. revert t Ht. induction vs as [|v vs IH]; intros t Ht; [done|]. rewrite !fmap_cons.
  destruct vs as [|v' vs]; [by apply wordy_quoted|]. specialize (IH ltac:(done)). rewrite fmap_cons in *. cbn [Join].
  rewrite <- append_assoc. apply (wordy_app _ _ [lit v]); [by apply wordy_quoted|].
  apply IH. apply word_fixed. vm_compute. reflexivity.
Qed.

Lemma in_sql_wordy ic : check_in ic = None -> wordy (in_sql ic) (lit <$> ic_Values ic).
Proof.
  unfold check_in, in_sql. destruct (validateIdentifier _) eqn:Hn; [done|]. apply validateIdentifier_None in Hn.
  intros Hc. assert (Hne : ic_Values ic <> []) by (by destruct (ic_Values ic)).
  assert (Hv : Forall (fun v => validIdentifier v = true) (ic_Values ic))
    by (destruct (ic_Values ic); [done|by eapply check_names_valid]).
  assert (He : " IN ('" +:+ Join (ic_Values ic) "', '" +:+ "'))" =
               (" IN (" +:+ Join ((fun v => quoted (lit v)) <$> ic_Values ic) ", ") +:+ "))").
  { rewrite <- in_list_quoted by done. by rewrite !append_assoc. }
  rewrite He. do 5 (apply wordy_before; [auto with wordy|]). apply wordy_after; [|auto with wordy].
  apply wordy_quoted_list; [apply word_fixed; vm_compute; reflexivity|done].
Qed.

Definition table_literals (def : TableDef) : list bytes :=
  (tb_Columns def ≫= column_literals (d_dialect d)) ++ (tb_InChecks def ≫= fun ic => lit <$> ic_Values ic).

Lemma no_literals {A} (l : list A) : l ≫= (fun _ => @nil bytes) = [].
Proof. by induction l. Qed.

Lemma table_sql_wordy def :
  check_table def = None -> Forall (simple_default sprint_v) (tb_Columns def) ->
  wordy (table_sql sprint_v d def) (table_literals def).
Proof.
  intros Hc Hs. apply first_error_None in Hc.
  apply Forall_cons in Hc as [Hname Hc]. apply Forall_cons in Hc as [Hcols Hc]. apply Forall_app in Hc as [Hfk Hc].
  apply Forall_cons in Hc as [Hpk Hc]. apply Forall_cons in Hc as [Hone Hc]. apply Forall_app in Hc as [Hrc Hic].
  apply check_name_valid in Hname. apply check_names_valid in Hcols, Hpk, Hone.
  rewrite Forall_fmap in Hcols. rewrite Forall_fmap in Hfk. rewrite Forall_fmap in Hrc. rewrite Forall_fmap in Hic.
  unfold table_sql, table_literals. do 4 (apply wordy_before; [auto with wordy|]). apply wordy_app.
  { apply wordy_Join; [auto with wordy|]. apply Forall_forall. intros col Hin. eapply Forall_forall in Hcols, Hs; eauto.
    by apply column_sql_wordy. }
  apply wordy_before; [auto 20 with wordy|]. apply wordy_before.
  { rewrite <- (no_literals (tb_ForeignKeys def)). apply wordy_concat. eapply Forall_impl; [exact Hfk|]. apply fk_sql_wordy. }
  apply wordy_before.
  { apply wordy_when. do 4 (apply wordy_before; [auto with wordy|]). apply wordy_after; [|auto with wordy].
    rewrite <- (no_literals (tb_RequireOneOf def)). apply wordy_Join; [auto with wordy|].
    eapply Forall_impl; [exact Hone|]. auto with wordy. }
  apply wordy_before.
  { rewrite <- (no_literals (tb_RangeChecks def)). apply wordy_concat. eapply Forall_impl; [exact Hrc|]. apply range_sql_wordy. }
  apply wordy_after; [|auto with wordy]. apply wordy_concat. eapply Forall_impl; [exact Hic|]. apply in_sql_wordy.
Qed.
End Text.

(** ** The schema operations of the adapter *)

Inductive schema_op :=
| SCreateTable (def : TableDef)
| SDropTable (name : string)
| SAddColumn (table : string) (col : Column)
| SDropColumn (table column : string)
| SCreateIndex (def : Index).

Definition schema_run (sprint_v : value -> string) (d : sqlDB) (op : schema_op) : SQL (option error) :=
  match op with
  | SCreateTable def => CreateTable sprint_v d def
  | SDropTable name => DropTable d name
  | SAddColumn table col => AddColumn sprint_v d table col
  | SDropColumn table column => DropColumn d table column
  | SCreateIndex def => CreateIndex d def
  end.

Definition schema_literals (d : sqlDB) (op : schema_op) : list bytes :=
  match op with
  | SCreateTable def => table_literals d def
  | SAddColumn _ col => column_literals (d_dialect d) col
  | _ => []
  end.

Definition simple_defaults (sprint_v : value -> string) (op : schema_op) : Prop :=
  match op with
  | SCreateTable def => Forall (simple_default sprint_v) (tb_Columns def)
  | SAddColumn _ col => simple_default sprint_v col
  | _ => True
  end.

(** A DDL statement has no bound values; a lookup of the table's columns has no
    literals either. *)
Definition ddl_statement (ex : executor) (vs : list bytes) {X} (e : sql_port X) : Prop :=
  match e with
  | Exec ex' query args => ex' = ex /\ args = [] /\ ddl query vs
  | Query ex' query args => ex' = ex /\ args = [] /\ ddl query []
  | _ => False
  end.

Lemma exec_ddl {A} ex vs query (k : error + (error + Z) -> SQL A) :
  wordy query vs -> (forall r, invoked (@ddl_statement ex vs) (k r)) ->
  invoked (@ddl_statement ex vs) (r ← call_ (Exec ex query []); k r).
Proof.
  intros Hq Hk. apply invoked_mbind; [|done]. apply invoked_call. split_and!; [done|done|by apply wordy_ddl].
Qed.

Lemma pragma_ddl ex vs table column :
  validIdentifier table = true -> invoked (@ddl_statement ex vs) (pragma_lists ex table column).
Proof.
  intros Ht. apply invoked_mbind; [|by intros []]. apply invoked_call. split_and!; [done|done|].
  apply wordy_ddl. auto with wordy.
Qed.

Lemma SkipAddColumn_ddl d ex vs table column :
  validIdentifier table = true -> invoked (@ddl_statement ex vs) (SkipAddColumn d ex table column).
Proof. intros Ht. destruct d; [by apply pragma_ddl|done]. Qed.

Lemma SkipDropColumn_ddl d ex vs table column :
  validIdentifier table = true -> invoked (@ddl_statement ex vs) (SkipDropColumn d ex table column).
Proof. intros Ht. destruct d; [|done]. apply invoked_mbind; [by apply pragma_ddl|]. by intros []. Qed.

Lemma schema_run_ddl sprint_v d op :
  simple_defaults sprint_v op ->
  invoked (@ddl_statement (d_exec d) (schema_literals d op)) (schema_run sprint_v d op).
Proof.
  intros Hs. destruct op as [def|name|table col|table column|def]; cbn [schema_run schema_literals].
  - unfold CreateTable. destruct (check_table def) eqn:Hc; [done|]. apply exec_ddl; [by apply table_sql_wordy|done].
  - unfold DropTable. destruct (check_names _ _) eqn:Hc; [done|]. apply check_name_valid in Hc.
    apply exec_ddl; [|done]. auto using DropTableSuffix_wordy with wordy.
  - unfold AddColumn. destruct (first_error _) eqn:Hc; [done|]. apply first_error_None in Hc.
    apply Forall_cons in Hc as [Ht%check_name_valid Hc]. apply Forall_cons in Hc as [Hn%check_name_valid _].
    apply invoked_mbind; [by apply SkipAddColumn_ddl|]. intros [e|[]]; [done|done|]. apply exec_ddl; [|done].
    do 9 (apply wordy_before; [auto using AddColumnClause_wordy, ColumnTypeSQL_wordy with wordy|]).
    by apply default_clause_wordy.
  - unfold DropColumn. destruct (first_error _) eqn:Hc; [done|]. apply first_error_None in Hc.
    apply Forall_cons in Hc as [Ht%check_name_valid Hc]. apply Forall_cons in Hc as [Hn%check_name_valid _].
    apply invoked_mbind; [by apply SkipDropColumn_ddl|]. intros [e|[]]; [done|done|]. apply exec_ddl; [|done].
    auto 20 using DropColumnClause_wordy with wordy.
  - unfold CreateIndex. destruct (first_error _) eqn:Hc; [done|]. apply first_error_None in Hc.
    apply Forall_cons in Hc as [Hn%check_name_valid Hc]. apply Forall_cons in Hc as [Ht%check_name_valid Hc].
    apply Forall_cons in Hc as [Hcs%check_names_valid _]. apply exec_ddl; [|done]. auto 20 with wordy.
Qed.

(** C19. Every statement of the schema operations reads back through the SQL
    lexer as the operation's own words, valid identifiers and integers, with
    exactly the given string defaults and enumeration values as its string
    literals, byte for byte: a quote in a default cannot end its literal, and
    no name can leave its place. Columns may have no default, the current time, a
    string, an integer, or a value of another type whose [%v] text has no quotes
    or other marks in it: the code writes such a text unquoted and unescaped,
    whatever it is ([other_default_spliced]). *)
Theorem schema_text sprint_v d op :
  simple_defaults sprint_v op ->
  invoked (@ddl_statement (d_exec d) (schema_literals d op)) (schema_run sprint_v d op).
Proof. apply schema_run_ddl. Qed.

(** ** The initial migration *)

Definition DefaultUserLevel : Z := 20.

Definition initial_tables : list TableDef :=
  [ mkTable "applications"
      [PrimaryKey "id"; Unique (NotNull (Col "name" ColText))] [] [] [] [] [];
    mkTable "application_attributes"
      [NotNull (Col "app_id" ColInteger); NotNull (Col "attr_name" ColText); NotNull (Col "value_json" ColText)]
      ["app_id"; "attr_name"] [mkForeignKey "app_id" "applications" "id" "CASCADE"] [] [] [];
    mkTable "player_attributes"
      [NotNull (Col "app_id" ColInteger); NotNull (Col "user_id" ColText); NotNull (Col "attr_name" ColText);
       NotNull (Col "value_json" ColText)]
      ["app_id"; "user_id"; "attr_name"] [mkForeignKey "app_id" "applications" "id" "CASCADE"] [] [] [];
    mkTable "users"
      [PrimaryKey "id"; UUID "uuid"; Unique (NotNull (Col "username" ColText)); NotNull (Col "password_hash" ColText);
       Default (NotNull (Col "user_level" ColInteger)) (VInt DefaultUserLevel);
       col_DefaultNow (NotNull (Col "created_at" ColDatetime))] [] [] [] [] [];
    mkTable "bans"
      [PrimaryKey "id"; UUID "uuid"; Col "user_id" ColInteger; Col "ip_address" ColText;
       Default (NotNull (Col "reason" ColText)) (VString ""); Col "expires_at" ColDatetime; Col "revoked_at" ColDatetime;
       col_DefaultNow (NotNull (Col "created_at" ColDatetime))]
      [] [mkForeignKey "user_id" "users" "id" "CASCADE"] ["user_id"; "ip_address"] [] [] ]%string.

Definition initial_indexes : list Index :=
  [ mkIndex "idx_bans_user_id" "bans" ["user_id"]; mkIndex "idx_bans_ip_address" "bans" ["ip_address"];
    mkIndex "idx_bans_expires_at" "bans" ["expires_at"] ]%string.

(** [initialSchema.Up]: every definition in order until one fails. *)
Fixpoint run_all (ps : list (SQL (option error))) : SQL (option error) :=
  match ps with
  | [] => mret None
  | p :: ps => r ← p; match r with Some e => mret (Some e) | None => run_all ps end
  end.

Definition initialSchema_Up (sprint_v : value -> string) (d : sqlDB) : SQL (option error) :=
  run_all ((CreateTable sprint_v d <$> initial_tables) ++ (CreateIndex d <$> initial_indexes)).

(** The definitions pass validation, so [Up] fails only when the database does. *)
Example initial_schema_valid : forallb (fun def => bool_decide (check_table def = None)) initial_tables = true.
Proof. vm_compute. reflexivity. Qed.

(** A default with quotes, on both backends. *)
Definition odd_table : TableDef :=
  mkTable "notes" [PrimaryKey "id"; Default (NotNull (Col "body" ColText)) (VString "it''s '); DROP TABLE users; --")]
    [] [] [] [mkRangeCheck "id" (-5) 9] [mkInCheck "body" ["a"; "b"]%string].

Lemma schema_text_witness :
  simple_defaults (fun _ => ""%string) (SCreateTable odd_table) /\
  invoked (@ddl_statement RootPool [lit "it''s '); DROP TABLE users; --"; lit "a"; lit "b"])
    (schema_run (fun _ => "") (newSQLDB sqliteDialect) (SCreateTable odd_table)) /\
  check_table odd_table = None.
Proof.
  assert (Hs : simple_defaults (fun _ => ""%string) (SCreateTable odd_table)) by by repeat constructor.
  split; [exact Hs|]. split; [exact (schema_text (fun _ => ""%string) (newSQLDB sqliteDialect) _ Hs)|].
  vm_compute. reflexivity.
Defined.

(** A default that is no string nor an integer, an instant as [%v] prints it: its
    text becomes part of the statement as it is. *)
Example other_default_spliced (t : Z) :
  let printed v := match v with VTime _ => "2024-05-01 12:00:00 +0000 UTC" | _ => "" end%string in
  default_clause printed (newSQLDB sqliteDialect) (Default (Col "since" ColDatetime) (VTime t)) =
    " DEFAULT 2024-05-01 12:00:00 +0000 UTC"%string.
Proof. reflexivity. Qed.
