(* ===== verification/SqlDB.v ===== *)
(** * The database adapter (outbound/sql_db.go)

    The [DBAdapter] and [MigrationTracker] methods as programs over the driver.
    Attribute values are stored as JSON text (Codec.v). *)

From Stdlib Require Import ZArith Lia.
From Stdlib Require Import Strings.Byte.
From stdpp Require Import base list strings gmap option pretty.
From S2P Require Import Prelude GoFmt Utf8 Json LValue LExtract LParse LRoundtrip Smus Effects Ports.
From S2P Require Import Codec SessionStore SqlText SqlBuilder SqlSchema.

Open Scope Z_scope.

(** ** Statements of the adapter *)

Definition select_app : string := "SELECT id FROM applications WHERE name = ?".
Definition insert_app : string := "INSERT INTO applications (name) VALUES (?)".
Definition delete_app : string := "DELETE FROM applications WHERE name = ?".

Definition upsert_app_attr : string :=
  NL +:+ TAB +:+ TAB +:+ "INSERT INTO application_attributes (app_id, attr_name, value_json)" +:+ NL +:+ TAB +:+ TAB
  +:+ "VALUES (?, ?, ?)" +:+ NL +:+ TAB +:+ TAB
  +:+ "ON CONFLICT(app_id, attr_name) DO UPDATE SET value_json=excluded.value_json".
Definition select_app_attr : string :=
  "SELECT value_json FROM application_attributes WHERE app_id = ? AND attr_name = ?".
Definition select_app_names : string := "SELECT attr_name FROM application_attributes WHERE app_id = ?".
Definition delete_app_attr : string := "DELETE FROM application_attributes WHERE app_id = ? AND attr_name = ?".

Definition upsert_player_attr : string :=
  NL +:+ TAB +:+ TAB +:+ "INSERT INTO player_attributes (app_id, user_id, attr_name, value_json)" +:+ NL +:+ TAB +:+ TAB
  +:+ "VALUES (?, ?, ?, ?)" +:+ NL +:+ TAB +:+ TAB
  +:+ "ON CONFLICT(app_id, user_id, attr_name) DO UPDATE SET value_json=excluded.value_json".
Definition select_player_attr : string :=
  "SELECT value_json FROM player_attributes WHERE app_id = ? AND user_id = ? AND attr_name = ?".
Definition select_player_names : string := "SELECT attr_name FROM player_attributes WHERE app_id = ? AND user_id = ?".
Definition delete_player_attr : string := "DELETE FROM player_attributes WHERE app_id = ? AND user_id = ? AND attr_name = ?".

Definition insert_user : string := "INSERT INTO users (uuid, username, password_hash, user_level) VALUES (?, ?, ?, ?)".
Definition select_user : string :=
  "SELECT id, uuid, username, password_hash, user_level, created_at FROM users WHERE username = ?".
Definition delete_user : string := "DELETE FROM users WHERE username = ?".
Definition update_level : string := "UPDATE users SET user_level = ? WHERE username = ?".
Definition update_password : string := "UPDATE users SET password_hash = ? WHERE username = ?".

Definition insert_ban : string := "INSERT INTO bans (uuid, user_id, ip_address, reason, expires_at) VALUES (?, ?, ?, ?, ?)".
Definition select_ban (d : dialect) (column : string) : string :=
  NL +:+ TAB +:+ TAB +:+ "SELECT id, uuid, user_id, ip_address, reason, expires_at, revoked_at, created_at" +:+ NL +:+ TAB +:+ TAB
  +:+ "FROM bans" +:+ NL +:+ TAB +:+ TAB
  +:+ "WHERE " +:+ column +:+ " = ? AND revoked_at IS NULL AND (expires_at IS NULL OR expires_at > " +:+ NowExpr d +:+ ")"
  +:+ NL +:+ TAB +:+ TAB +:+ "ORDER BY created_at DESC LIMIT 1".
Definition revoke_ban (d : dialect) : string :=
  "UPDATE bans SET revoked_at = " +:+ NowExpr d +:+ " WHERE id = ? AND revoked_at IS NULL".

Definition migrations_table (d : dialect) : string :=
  NL +:+ TAB +:+ TAB +:+ "CREATE TABLE IF NOT EXISTS migrations (" +:+ NL +:+ TAB +:+ TAB +:+ TAB
  +:+ "id " +:+ AutoIncrPKSQL d +:+ "," +:+ NL +:+ TAB +:+ TAB +:+ TAB
  +:+ "name TEXT NOT NULL UNIQUE," +:+ NL +:+ TAB +:+ TAB +:+ TAB
  +:+ "applied_at " +:+ ColumnTypeSQL d ColDatetime +:+ " NOT NULL" +:+ NL +:+ TAB +:+ TAB
  +:+ ")" +:+ NL +:+ TAB.

(** ** Helpers *)

(** The names in a one-column result; those read before an error of the
    iteration come with it in the code, and no caller uses them. *)
Fixpoint scan_names (scans : list (error + list value)) (last : option error) : error + list string :=
  match scans with
  | [] => match last with Some e => inl e | None => inr [] end
  | inl e :: _ => inl e
  | inr row :: scans =>
      match scan_names scans last with
      | inl e => inl e
      | inr names => inr (match row with VString s :: _ => s | _ => "" end :: names)
      end
  end.

Section Adapter.
Context (FormatFloat : Z -> bytes) (ParseFloat : bytes -> option Z).
Context (d : sqlDB).

Let ex : executor := d_exec d.
Let Rb : string -> string := Rebind (d_dialect d).

Definition queryNames (query : string) (args : list value) : SQL (error + list string) :=
  r ← call_ (Query ex query args);
  match r with
  | inl e => mret (inl e)
  | inr rows => mret (scan_names (rows_scans rows) (rows_Err rows))
  end.

Definition scanAttribute (query : string) (args : list value) : SQL (error + LValue) :=
  r ← call_ (QueryRow ScanString ex query args);
  match r with
  | inl e => if decide (e = ErrNoRows) then mret (inr LVoid) else mret (inl e)
  | inr valueJSON => lift (UnmarshalLValue ParseFloat (lit valueJSON))
  end.

(** An [Exec] that must have changed a row. *)
Definition exec_found (query : string) (args : list value) (missing : error) : SQL (error + unit) :=
  r ← call_ (Exec ex query args);
  mret (match r with
        | inl e => inl e
        | inr (inl e) => inl e
        | inr (inr rows) => if rows =? 0 then inl missing else inr ()
        end).

Definition exec_only (query : string) (args : list value) : SQL (error + unit) :=
  r ← call_ (Exec ex query args);
  mret (match r with inl e => inl e | inr _ => inr () end).

(** ** MigrationTracker *)

Definition ensureMigrationsTable : SQL (error + unit) := exec_only (migrations_table (d_dialect d)) [].

(** [init]: on the adapter itself, whose executor is the pool. *)
Definition sqlDB_init : SQL (error + unit) :=
  r ← Init (d_dialect d);
  match r with Some e => mret (inl e) | None => ensureMigrationsTable end.

Definition GetAppliedMigrations : SQL (error + list string) :=
  queryNames "SELECT name FROM migrations ORDER BY name" [].

Definition MarkMigrationApplied (name : string) : SQL (error + unit) :=
  now ← call_ SqlNow;
  exec_only (Rb "INSERT INTO migrations (name, applied_at) VALUES (?, ?)") [VString name; VTime now].

(** ** DBAdmin *)

Definition CreateApplication (appName : string) : SQL (error + unit) := exec_only (Rb insert_app) [VString appName].

Definition DeleteApplication (appName : string) : SQL (error + unit) :=
  exec_found (Rb delete_app) [VString appName] (Errorf ("application " +:+ appName +:+ " not found")).

Definition getAppID (appName : string) : SQL (error + Z) :=
  r ← call_ (QueryRow ScanInt ex (Rb select_app) [VString appName]);
  mret (match r with inl e => inl (Wrapf ("application " +:+ appName +:+ " not found") e) | inr id => inr id end).

Definition with_app {A} (appName : string) (k : Z -> SQL (error + A)) : SQL (error + A) :=
  r ← getAppID appName;
  match r with inl e => mret (inl e) | inr id => k id end.

(** ** DBApplication *)

Definition SetApplicationAttribute (appName attrName : string) (v : LValue) : SQL (error + unit) :=
  with_app appName (fun appID =>
    j ← lift (MarshalLValue FormatFloat v);
    match j with
    | inl e => mret (inl e)
    | inr jsonBytes => exec_only (Rb upsert_app_attr) [VInt appID; VString attrName; VString (string_of_bytes jsonBytes)]
    end).

Definition GetApplicationAttribute (appName attrName : string) : SQL (error + LValue) :=
  with_app appName (fun appID => scanAttribute (Rb select_app_attr) [VInt appID; VString attrName]).

Definition GetApplicationAttributeNames (appName : string) : SQL (error + list string) :=
  with_app appName (fun appID => queryNames (Rb select_app_names) [VInt appID]).

Definition DeleteApplicationAttribute (appName attrName : string) : SQL (error + unit) :=
  with_app appName (fun appID => exec_only (Rb delete_app_attr) [VInt appID; VString attrName]).

(** ** DBPlayer *)

Definition SetPlayerAttribute (appName userID attrName : string) (v : LValue) : SQL (error + unit) :=
  with_app appName (fun appID =>
    j ← lift (MarshalLValue FormatFloat v);
    match j with
    | inl e => mret (inl e)
    | inr jsonBytes =>
        exec_only (Rb upsert_player_attr)
          [VInt appID; VString userID; VString attrName; VString (string_of_bytes jsonBytes)]
    end).

Definition GetPlayerAttribute (appName userID attrName : string) : SQL (error + LValue) :=
  with_app appName (fun appID => scanAttribute (Rb select_player_attr) [VInt appID; VString userID; VString attrName]).

Definition GetPlayerAttributeNames (appName userID : string) : SQL (error + list string) :=
  with_app appName (fun appID => queryNames (Rb select_player_names) [VInt appID; VString userID]).

Definition DeletePlayerAttribute (appName userID attrName : string) : SQL (error + unit) :=
  with_app appName (fun appID => exec_only (Rb delete_player_attr) [VInt appID; VString userID; VString attrName]).

(** ** DBUser *)

Definition CreateUser (username passwordHash : string) (userLevel : Z) : SQL (error + unit) :=
  id ← call_ NewUUID;
  exec_only (Rb insert_user) [VString id; VString username; VString passwordHash; VInt userLevel].

Definition GetUser (username : string) : SQL (error + User) :=
  r ← call_ (QueryRow ScanUser ex (Rb select_user) [VString username]);
  mret (match r with
        | inl e => inl (if decide (e = ErrNoRows) then ErrUserNotFound else e)
        | inr u => inr u
        end).

Definition DeleteUser (username : string) : SQL (error + unit) :=
  exec_found (Rb delete_user) [VString username] ErrUserNotFound.

Definition UpdateUserLevel (username : string) (level : Z) : SQL (error + unit) :=
  exec_found (Rb update_level) [VInt level; VString username] ErrUserNotFound.

Definition UpdateUserPassword (username passwordHash : string) : SQL (error + unit) :=
  exec_found (Rb update_password) [VString passwordHash; VString username] ErrUserNotFound.

(** ** DBBan *)

Definition CreateBan (userID : option Z) (ipAddress : option string) (reason : string) (expiresAt : option Z) :
    SQL (error + unit) :=
  id ← call_ NewUUID;
  exec_only (Rb insert_ban)
    [VString id; from_option VInt VNil userID; from_option VString VNil ipAddress; VString reason;
     from_option VTime VNil expiresAt].

Definition getActiveBan (column : string) (v : value) : SQL (error + Ban) :=
  r ← call_ (QueryRow ScanBan ex (Rb (select_ban (d_dialect d) column)) [v]);
  mret (match r with
        | inl e => inl (if decide (e = ErrNoRows) then ErrBanNotFound else e)
        | inr b => inr b
        end).

Definition GetActiveBanByUserID (userID : Z) : SQL (error + Ban) := getActiveBan "user_id" (VInt userID).
Definition GetActiveBanByIP (ipAddress : string) : SQL (error + Ban) := getActiveBan "ip_address" (VString ipAddress).

Definition RevokeBan (banID : Z) : SQL (error + unit) :=
  exec_found (Rb (revoke_ban (d_dialect d))) [VInt banID] ErrBanNotFound.
End Adapter.

(** ** Placeholders

    Splitting a statement into segments; an open literal at the end stays text,
    which the check below refuses. *)
Fixpoint segments (inside : option bytes) (acc : bytes) (l : bytes) : list segment :=
  match l with
  | [] => match inside with None => [Text acc] | Some s => [Text (Byte.x27 :: s)] end
  | b :: l =>
      match inside with
      | Some s => if decide (b = Byte.x27) then Literal s :: segments None [] l else segments (Some (s ++ [b])) acc l
      | None =>
          if decide (b = Byte.x27) then Text acc :: segments (Some []) [] l
          else if decide (b = Byte.x3f) then Text acc :: Hole :: segments None [] l
          else segments None (acc ++ [b]) l
      end
  end.

Definition seg_okb (s : segment) : bool :=
  match s with
  | Text l => valid l && bool_decide (Byte.x27 ∉ l) && bool_decide (Byte.x3f ∉ l)
  | Literal l => valid l && bool_decide (Byte.x27 ∉ l)
  | Hole => true
  end.

Definition takes (n : Z) (query : string) : bool :=
  let ss := segments None [] (lit query) in
  forallb seg_okb ss && bool_decide (lit query = flat question ss) && (holes ss =? n).

(** A statement spelled for the dialect, with a placeholder per argument. *)
Definition bound (d : dialect) (query : string) (args : list value) : Prop :=
  exists ss, Forall seg_ok ss /\ lit query = spelled d ss /\ holes ss = zlen args.

Lemma takes_bound d query args : takes (zlen args) query = true -> bound d (Rebind d query) args.
Proof.
  unfold takes. rewrite !andb_true_iff, bool_decide_eq_true, Z.eqb_eq. intros [[Hs Hq] Hh].
  exists (segments None [] (lit query)).
  assert (Hok : Forall seg_ok (segments None [] (lit query))).
  { apply Forall_forall. intros s Hin. eapply forallb_forall in Hs; [|by apply list_elem_of_In].
    destruct s; cbn in Hs |- *; [| |done]; rewrite ?andb_true_iff, ?bool_decide_eq_true in Hs; tauto. }
  split_and!; [done|by apply Rebind_spelled|done].
Qed.

Definition bound_call (ex : executor) (d : dialect) {X} (e : sql_port X) : Prop :=
  match e with
  | Exec ex' query args => ex' = ex /\ bound d query args
  | Query ex' query args => ex' = ex /\ bound d query args
  | QueryRow _ ex' query args => ex' = ex /\ bound d query args
  | NewUUID | SqlNow => True
  | _ => False
  end.

(** The calls of [DBAdapter] and [MigrationTracker], as in ports/database.go. *)
Inductive adapter_op : Type -> Type :=
| ADb {X} (op : db_op X) : adapter_op X
| AUpdateUserLevel (username : string) (level : Z) : adapter_op unit
| AUpdateUserPassword (username passwordHash : string) : adapter_op unit
| AGetAppliedMigrations : adapter_op (list string)
| AMarkMigrationApplied (name : string) : adapter_op unit.

Section Ops.
Context (FormatFloat : Z -> bytes) (ParseFloat : bytes -> option Z) (d : sqlDB).

(** A found ban is never a nil pointer here. *)
Definition ban_pointer (p : SQL (error + Ban)) : SQL (error + option Ban) :=
  r ← p; mret (match r with inl e => inl e | inr b => inr (Some b) end).

Definition db_run {X} (op : db_op X) : SQL (error + X) :=
  match op in db_op X return SQL (error + X) with
  | Ports.CreateApplication a => CreateApplication d a
  | Ports.DeleteApplication a => DeleteApplication d a
  | Ports.SetApplicationAttribute a n v => SetApplicationAttribute FormatFloat d a n v
  | Ports.GetApplicationAttribute a n => GetApplicationAttribute ParseFloat d a n
  | Ports.GetApplicationAttributeNames a => GetApplicationAttributeNames d a
  | Ports.DeleteApplicationAttribute a n => DeleteApplicationAttribute d a n
  | Ports.SetPlayerAttribute a u n v => SetPlayerAttribute FormatFloat d a u n v
  | Ports.GetPlayerAttribute a u n => GetPlayerAttribute ParseFloat d a u n
  | Ports.GetPlayerAttributeNames a u => GetPlayerAttributeNames d a u
  | Ports.DeletePlayerAttribute a u n => DeletePlayerAttribute d a u n
  | Ports.CreateUser u h l => CreateUser d u h l
  | Ports.GetUser u => GetUser d u
  | Ports.DeleteUser u => DeleteUser d u
  | Ports.CreateBan u ip r e => CreateBan d u ip r e
  | Ports.GetActiveBanByUserID u => ban_pointer (GetActiveBanByUserID d u)
  | Ports.GetActiveBanByIP ip => ban_pointer (GetActiveBanByIP d ip)
  | Ports.RevokeBan b => RevokeBan d b
  end.

Definition adapter_run {X} (op : adapter_op X) : SQL (error + X) :=
  match op in adapter_op X return SQL (error + X) with
  | ADb op => db_run op
  | AUpdateUserLevel u l => UpdateUserLevel d u l
  | AUpdateUserPassword u h => UpdateUserPassword d u h
  | AGetAppliedMigrations => GetAppliedMigrations d
  | AMarkMigrationApplied n => MarkMigrationApplied d n
  end.

Lemma bound_exec query args :
  takes (zlen args) query = true ->
  invoked (@bound_call (d_exec d) (d_dialect d)) (call_ (Exec (d_exec d) (Rebind (d_dialect d) query) args)).
Proof. intros H. apply invoked_call. split; [done|by apply takes_bound]. Qed.

Lemma bound_only query args :
  takes (zlen args) query = true ->
  invoked (@bound_call (d_exec d) (d_dialect d)) (exec_only d (Rebind (d_dialect d) query) args).
Proof. intros H. apply invoked_mbind; [by apply bound_exec|]. by intros []. Qed.

Lemma bound_found query args e :
  takes (zlen args) query = true ->
  invoked (@bound_call (d_exec d) (d_dialect d)) (exec_found d (Rebind (d_dialect d) query) args e).
Proof. intros H. apply invoked_mbind; [by apply bound_exec|]. by intros []. Qed.

Lemma bound_row {T} (s : scan T) query args :
  takes (zlen args) query = true ->
  invoked (@bound_call (d_exec d) (d_dialect d)) (call_ (QueryRow s (d_exec d) (Rebind (d_dialect d) query) args)).
Proof. intros H. apply invoked_call. split; [done|by apply takes_bound]. Qed.

Lemma bound_names query args :
  takes (zlen args) query = true ->
  invoked (@bound_call (d_exec d) (d_dialect d)) (queryNames d (Rebind (d_dialect d) query) args).
Proof.
  intros H. apply invoked_mbind; [|by intros []]. apply invoked_call. split; [done|by apply takes_bound].
Qed.

Lemma bound_app {A} a (k : Z -> SQL (error + A)) :
  (forall id, invoked (@bound_call (d_exec d) (d_dialect d)) (k id)) ->
  invoked (@bound_call (d_exec d) (d_dialect d)) (with_app d a k).
Proof.
  intros Hk. apply invoked_mbind.
  - apply invoked_mbind; [|by intros]. apply bound_row. vm_compute. reflexivity.
  - intros [e|id]; [done|apply Hk].
Qed.

Lemma bound_attribute query args :
  takes (zlen args) query = true ->
  invoked (@bound_call (d_exec d) (d_dialect d)) (scanAttribute ParseFloat d (Rebind (d_dialect d) query) args).
Proof.
  intros H. apply invoked_mbind; [by apply bound_row|]. intros [e|s]; [by destruct (decide _)|].
  apply invoked_lift. destruct (UnmarshalLValue_returns ParseFloat (lit s)) as [v ->]. done.
Qed.

Lemma bound_marshal {A} v (k : error + bytes -> SQL (error + A)) :
  (forall j, invoked (@bound_call (d_exec d) (d_dialect d)) (k j)) ->
  invoked (@bound_call (d_exec d) (d_dialect d)) (lift (MarshalLValue FormatFloat v) ≫= k).
Proof. intros Hk. apply invoked_mbind; [apply invoked_lift, fueled_MarshalLValue|done]. Qed.

Lemma bound_uuid {A} (k : string -> SQL A) :
  (forall s, invoked (@bound_call (d_exec d) (d_dialect d)) (k s)) ->
  invoked (@bound_call (d_exec d) (d_dialect d)) (call_ NewUUID ≫= k).
Proof. intros Hk. apply invoked_mbind; [by apply invoked_call|done]. Qed.

Lemma bound_ban column v :
  column ∈ ["user_id"; "ip_address"]%string ->
  invoked (@bound_call (d_exec d) (d_dialect d)) (ban_pointer (getActiveBan d column v)).
Proof.
  intros Hc. apply invoked_mbind; [|by intros []]. apply invoked_mbind; [|by intros []]. apply bound_row.
  apply elem_of_cons in Hc as [->|[->|[]%elem_of_nil]%elem_of_cons]; destruct (d_dialect d); vm_compute; reflexivity.
Qed.

(** C39. Whatever it is called with, every method of the database adapter sends
    only statements whose placeholders are exactly as many as the values bound
    to them (numbered [$1] to [$n] in order on Postgres, string literals
    untouched), on the adapter's executor: the pool, or the migration's
    transaction. *)
Theorem adapter_statements {X} (op : adapter_op X) :
  invoked (@bound_call (d_exec d) (d_dialect d)) (adapter_run op).
Proof.
  destruct op as [X op|u l|u h| |n]; cbn [adapter_run].
  - destruct op; cbn [db_run];
      lazymatch goal with
      | |- invoked _ (ban_pointer _) => apply bound_ban; set_solver
      | |- invoked _ (CreateUser _ _ _ _) => apply bound_uuid; intros
      | |- invoked _ (CreateBan _ _ _ _ _) => apply bound_uuid; intros
      | |- invoked _ (GetUser _ _) => apply invoked_mbind; [apply bound_row|by intros []]
      | |- invoked _ (CreateApplication _ _) => idtac
      | |- invoked _ (DeleteApplication _ _) => idtac
      | |- invoked _ (DeleteUser _ _) => idtac
      | |- invoked _ (RevokeBan _ _) => idtac
      | |- _ => apply bound_app; intros
      end;
      try (apply bound_marshal; intros [e|j]; [done|]);
      first [done | apply bound_only | apply bound_found | apply bound_attribute | apply bound_names | idtac];
      try destruct (d_dialect d); vm_compute; reflexivity.
  - apply bound_found. vm_compute. reflexivity.
  - apply bound_found. vm_compute. reflexivity.
  - assert (H : bound_call (d_exec d) (d_dialect d) (Query (d_exec d) "SELECT name FROM migrations ORDER BY name" [])).
    { split; [done|]. destruct (d_dialect d) eqn:Hd.
      - apply (takes_bound sqliteDialect). vm_compute. reflexivity.
      - change "SELECT name FROM migrations ORDER BY name"%string
          with (Rebind postgresDialect "SELECT name FROM migrations ORDER BY name").
        apply takes_bound. vm_compute. reflexivity. }
    apply invoked_mbind; [by apply invoked_call|by intros []].
  - apply invoked_mbind; [by apply invoked_call|]. intros now. apply bound_only. vm_compute. reflexivity.
Qed.
End Ops.
