(* ===== verification/SqlStore.v ===== *)
(** * What the database adapter stores (outbound/sql_db.go over SQLite)

    The adapter promises its clients a store of applications, attributes and
    users. Its statements are executed by the database, which is a parameter: a
    class states what the documented semantics of SQLite make of the adapter's
    statements on the tables of the initial migration (unique keys, upserts,
    cascading deletes), for the state of any engine. [adapter_refines]: over
    every such engine each adapter method answers and acts as the abstract store
    does, attribute values passing through their JSON encoding. [Memory_engine]
    is a concrete engine. *)

From Stdlib Require Import ZArith Lia.
From Stdlib Require Import Strings.Byte.
From stdpp Require Import base list strings gmap option pretty.
From S2P Require Import Prelude GoFmt Utf8 Json LValue LExtract LParse LRoundtrip Smus Effects Ports.
From S2P Require Import Codec SessionStore SqlText SqlBuilder SqlSchema SqlDB.

Open Scope Z_scope.

(** ** Tables and statements *)

Record Tables := mkTables {
  t_apps : gmap string Z;
  t_attrs : gmap (Z * string) string;
  t_players : gmap (Z * string * string) string;
  t_users : gmap string User;
  (** above every id the table has ever had (AUTOINCREMENT counts per table) *)
  t_app_seq : Z;
  t_user_seq : Z
}.

Inductive stmt :=
| InsertApp (name : string)
| DeleteApp (name : string)
| UpsertAttr (app : Z) (attr json : string)
| DeleteAttr (app : Z) (attr : string)
| UpsertPlayer (app : Z) (user attr json : string)
| DeletePlayer (app : Z) (user attr : string)
| InsertUser (uuid username hash : string) (level : Z)
| RemoveUser (username : string)
| SetLevel (level : Z) (username : string)
| SetHash (hash username : string).

Definition stmt_text (s : stmt) : string :=
  match s with
  | InsertApp _ => insert_app
  | DeleteApp _ => delete_app
  | UpsertAttr _ _ _ => upsert_app_attr
  | DeleteAttr _ _ => delete_app_attr
  | UpsertPlayer _ _ _ _ => upsert_player_attr
  | DeletePlayer _ _ _ => delete_player_attr
  | InsertUser _ _ _ _ => insert_user
  | RemoveUser _ => delete_user
  | SetLevel _ _ => update_level
  | SetHash _ _ => update_password
  end.

Definition stmt_args (s : stmt) : list value :=
  match s with
  | InsertApp n | DeleteApp n | RemoveUser n => [VString n]
  | UpsertAttr i n j => [VInt i; VString n; VString j]
  | DeleteAttr i n => [VInt i; VString n]
  | UpsertPlayer i u n j => [VInt i; VString u; VString n; VString j]
  | DeletePlayer i u n => [VInt i; VString u; VString n]
  | InsertUser id u h l => [VString id; VString u; VString h; VInt l]
  | SetLevel l u => [VInt l; VString u]
  | SetHash h u => [VString h; VString u]
  end.

Definition app_exists (T : Tables) (id : Z) : bool :=
  bool_decide (map_Exists (fun _ i => i = id) (t_apps T)).
Definition uuid_used (T : Tables) (id : string) : bool :=
  bool_decide (map_Exists (fun _ u => u_UUID u = id) (t_users T)).

Definition with_users (U : gmap string User) (T : Tables) : Tables :=
  mkTables (t_apps T) (t_attrs T) (t_players T) U (t_app_seq T) (t_user_seq T).
Definition with_attrs (R : gmap (Z * string) string) (T : Tables) : Tables :=
  mkTables (t_apps T) R (t_players T) (t_users T) (t_app_seq T) (t_user_seq T).
Definition with_players (R : gmap (Z * string * string) string) (T : Tables) : Tables :=
  mkTables (t_apps T) (t_attrs T) R (t_users T) (t_app_seq T) (t_user_seq T).

(** The id of a new row. *)
Definition new_id (s : stmt) (T : Tables) (id : Z) : Prop :=
  match s with InsertApp _ => t_app_seq T <= id | InsertUser _ _ _ _ => t_user_seq T <= id | _ => True end.

Definition set_level (l : Z) (x : User) : User :=
  mkUser (u_ID x) (u_UUID x) (u_Username x) (u_PasswordHash x) l (u_CreatedAt x).
Definition set_hash (h : string) (x : User) : User :=
  mkUser (u_ID x) (u_UUID x) (u_Username x) h (u_UserLevel x) (u_CreatedAt x).
Definition update_user (u : string) (f : User -> User) (T : Tables) : Z * Tables :=
  match t_users T !! u with None => (0, T) | Some x => (1, with_users (<[u := f x]> (t_users T)) T) end.

(** The effect of a statement and the number of rows it changed; [None] when a
    constraint refuses it. [now] is the default of [created_at], [key] the id of
    a new row. *)
Definition exec_stmt (now key : Z) (s : stmt) (T : Tables) : option (Z * Tables) :=
  match s with
  | InsertApp n =>
      match t_apps T !! n with
      | Some _ => None
      | None => Some (1, mkTables (<[n := key]> (t_apps T)) (t_attrs T) (t_players T) (t_users T) (key + 1) (t_user_seq T))
      end
  | DeleteApp n =>
      match t_apps T !! n with
      | None => Some (0, T)
      | Some id =>
          Some (1, mkTables (delete n (t_apps T)) (filter (fun kv => kv.1.1 <> id) (t_attrs T))
                     (filter (fun kv => kv.1.1.1 <> id) (t_players T)) (t_users T) (t_app_seq T) (t_user_seq T))
      end
  | UpsertAttr i n j => if app_exists T i then Some (1, with_attrs (<[(i, n) := j]> (t_attrs T)) T) else None
  | DeleteAttr i n =>
      Some (if decide (is_Some (t_attrs T !! (i, n))) then 1 else 0, with_attrs (delete (i, n) (t_attrs T)) T)
  | UpsertPlayer i u n j => if app_exists T i then Some (1, with_players (<[(i, u, n) := j]> (t_players T)) T) else None
  | DeletePlayer i u n =>
      Some (if decide (is_Some (t_players T !! (i, u, n))) then 1 else 0, with_players (delete (i, u, n) (t_players T)) T)
  | InsertUser id u h l =>
      if uuid_used T id then None else
      match t_users T !! u with
      | Some _ => None
      | None =>
          Some (1, mkTables (t_apps T) (t_attrs T) (t_players T) (<[u := mkUser key id u h l now]> (t_users T))
                     (t_app_seq T) (key + 1))
      end
  | RemoveUser u =>
      match t_users T !! u with
      | None => Some (0, T)
      | Some _ => Some (1, with_users (delete u (t_users T)) T)
      end
  | SetLevel l u =>
      Some (update_user u (set_level l) T)
  | SetHash h u =>
      Some (update_user u (set_hash h) T)
  end.

(** Queries for one row, and for names. *)
Inductive row_query : Type -> Type :=
| RApp (name : string) : row_query Z
| RAttr (app : Z) (attr : string) : row_query string
| RPlayer (app : Z) (user attr : string) : row_query string
| RUser (username : string) : row_query User.

Definition row_scan {T} (q : row_query T) : scan T :=
  match q with RApp _ => ScanInt | RAttr _ _ => ScanString | RPlayer _ _ _ => ScanString | RUser _ => ScanUser end.
Definition row_text {T} (q : row_query T) : string :=
  match q with
  | RApp _ => select_app | RAttr _ _ => select_app_attr | RPlayer _ _ _ => select_player_attr | RUser _ => select_user
  end.
Definition row_args {T} (q : row_query T) : list value :=
  match q with
  | RApp n => [VString n] | RAttr i n => [VInt i; VString n] | RPlayer i u n => [VInt i; VString u; VString n]
  | RUser u => [VString u]
  end.
Definition row_answer {T} (q : row_query T) (D : Tables) : option T :=
  match q with
  | RApp n => t_apps D !! n
  | RAttr i n => t_attrs D !! (i, n)
  | RPlayer i u n => t_players D !! (i, u, n)
  | RUser u => t_users D !! u
  end.

Definition attr_names (i : Z) (D : Tables) : gset string :=
  list_to_set (snd <$> filter (fun k => k.1 = i) (elements (dom (t_attrs D)))).
Definition player_names (i : Z) (u : string) (D : Tables) : gset string :=
  list_to_set (snd <$> filter (fun k => k.1 = (i, u)) (elements (dom (t_players D)))).

Definition name_rows (names : list string) : Rows :=
  mkRows (inr ["attr_name"%string]) ((fun n => inr [VString n]) <$> names) None.

(** ** The engine *)

Definition no_row {T} (o : option T) : error + T := match o with Some x => inr x | None => inl ErrNoRows end.

Class SqlEngine (W : Type) := {
  e_step : forall X, sql_port X -> W -> X * W;
  e_tables : W -> Tables;
  (** a statement that a constraint refuses changes nothing *)
  engine_exec s w :
    exists now key, new_id s (e_tables w) key /\
      let r := e_step _ (Exec RootPool (stmt_text s) (stmt_args s)) w in
      match exec_stmt now key s (e_tables w) with
      | Some (n, T) => r.1 = inr (inr n) /\ e_tables r.2 = T
      | None => (exists e, r.1 = inl e) /\ e_tables r.2 = e_tables w
      end;
  engine_row {T} (q : row_query T) w :
    let r := e_step _ (QueryRow (row_scan q) RootPool (row_text q) (row_args q)) w in
    r.1 = no_row (row_answer q (e_tables w)) /\ e_tables r.2 = e_tables w;
  engine_names i w :
    let r := e_step _ (Query RootPool select_app_names [VInt i]) w in
    (exists names, names ≡ₚ elements (attr_names i (e_tables w)) /\ r.1 = inr (name_rows names)) /\
    e_tables r.2 = e_tables w;
  engine_player_names i u w :
    let r := e_step _ (Query RootPool select_player_names [VInt i; VString u]) w in
    (exists names, names ≡ₚ elements (player_names i u (e_tables w)) /\ r.1 = inr (name_rows names)) /\
    e_tables r.2 = e_tables w;
  (** UUIDs are fresh *)
  engine_uuid w :
    let r := e_step _ NewUUID w in uuid_used (e_tables w) r.1 = false /\ e_tables r.2 = e_tables w
}.

(** ** The abstract store *)

Record Store := mkDbStore {
  s_apps : gset string;
  s_attrs : gmap (string * string) LValue;
  s_players : gmap (string * string * string) LValue;
  s_users : gmap string (string * Z)
}.

(** The state after an operation. *)
Definition store_next {X} (op : db_op X) (s : Store) : Store :=
  match op with
  | Ports.CreateApplication a => mkDbStore ({[a]} ∪ s_apps s) (s_attrs s) (s_players s) (s_users s)
  | Ports.DeleteApplication a =>
      mkDbStore (s_apps s ∖ {[a]}) (filter (fun kv => kv.1.1 <> a) (s_attrs s))
        (filter (fun kv => kv.1.1.1 <> a) (s_players s)) (s_users s)
  | Ports.SetApplicationAttribute a n v =>
      if decide (a ∈ s_apps s)
      then mkDbStore (s_apps s) (<[(a, n) := stored v]> (s_attrs s)) (s_players s) (s_users s) else s
  | Ports.DeleteApplicationAttribute a n =>
      mkDbStore (s_apps s) (delete (a, n) (s_attrs s)) (s_players s) (s_users s)
  | Ports.SetPlayerAttribute a u n v =>
      if decide (a ∈ s_apps s)
      then mkDbStore (s_apps s) (s_attrs s) (<[(a, u, n) := stored v]> (s_players s)) (s_users s) else s
  | Ports.DeletePlayerAttribute a u n =>
      mkDbStore (s_apps s) (s_attrs s) (delete (a, u, n) (s_players s)) (s_users s)
  | Ports.CreateUser u h l =>
      match s_users s !! u with
      | Some _ => s
      | None => mkDbStore (s_apps s) (s_attrs s) (s_players s) (<[u := (h, l)]> (s_users s))
      end
  | Ports.DeleteUser u => mkDbStore (s_apps s) (s_attrs s) (s_players s) (delete u (s_users s))
  | _ => s
  end.

Definition fails {X} (r : error + X) : Prop := exists e, r = inl e.

(** The operations on an application that does not exist fail. *)
Definition of_app {X} (a : string) (s : Store) (r : error + X) (P : X -> Prop) : Prop :=
  if decide (a ∈ s_apps s) then exists x, r = inr x /\ P x else fails r.

Definition store_reply {X} (op : db_op X) (s : Store) : error + X -> Prop :=
  match op in db_op X return error + X -> Prop with
  | Ports.CreateApplication a => fun r => if decide (a ∈ s_apps s) then fails r else r = inr ()
  | Ports.DeleteApplication a => fun r => of_app a s r (fun _ => True)
  | Ports.SetApplicationAttribute a n v => fun r => of_app a s r (fun _ => True)
  | Ports.GetApplicationAttribute a n => fun r => of_app a s r (fun v => v = default LVoid (s_attrs s !! (a, n)))
  | Ports.GetApplicationAttributeNames a => fun r =>
      of_app a s r (fun ns => NoDup ns /\ forall n, n ∈ ns <-> is_Some (s_attrs s !! (a, n)))
  | Ports.DeleteApplicationAttribute a n => fun r => of_app a s r (fun _ => True)
  | Ports.SetPlayerAttribute a u n v => fun r => of_app a s r (fun _ => True)
  | Ports.GetPlayerAttribute a u n => fun r => of_app a s r (fun v => v = default LVoid (s_players s !! (a, u, n)))
  | Ports.GetPlayerAttributeNames a u => fun r =>
      of_app a s r (fun ns => NoDup ns /\ forall n, n ∈ ns <-> is_Some (s_players s !! (a, u, n)))
  | Ports.DeletePlayerAttribute a u n => fun r => of_app a s r (fun _ => True)
  | Ports.CreateUser u _ _ => fun r => match s_users s !! u with Some _ => fails r | None => r = inr () end
  | Ports.GetUser u => fun r =>
      match s_users s !! u with
      | None => r = inl ErrUserNotFound
      | Some (h, l) => exists x, r = inr x /\ u_Username x = u /\ u_PasswordHash x = h /\ u_UserLevel x = l
      end
  | Ports.DeleteUser u => fun r => match s_users s !! u with Some _ => r = inr () | None => r = inl ErrUserNotFound end
  | _ => fun _ => True
  end.

(** The methods that [db_op] does not have. *)
Definition adapter_next {X} (op : adapter_op X) (s : Store) : Store :=
  match op with
  | ADb op => store_next op s
  | AUpdateUserLevel u l =>
      mkDbStore (s_apps s) (s_attrs s) (s_players s) (alter (fun hl => (hl.1, l)) u (s_users s))
  | AUpdateUserPassword u h =>
      mkDbStore (s_apps s) (s_attrs s) (s_players s) (alter (fun hl => (h, hl.2)) u (s_users s))
  | _ => s
  end.

Definition adapter_reply {X} (op : adapter_op X) (s : Store) : error + X -> Prop :=
  match op in adapter_op X return error + X -> Prop with
  | ADb op => store_reply op s
  | AUpdateUserLevel u _ | AUpdateUserPassword u _ => fun r =>
      match s_users s !! u with Some _ => r = inr () | None => r = inl ErrUserNotFound end
  | _ => fun _ => True
  end.

(** The operations of this contract (all but those on bans and on the migration
    tracker), with values the encoding can hold. *)
Definition in_contract {X} (op : db_op X) : bool :=
  match op with
  | Ports.SetApplicationAttribute _ _ v => storable v
  | Ports.SetPlayerAttribute _ _ _ v => storable v
  | Ports.CreateBan _ _ _ _ | Ports.GetActiveBanByUserID _ | Ports.GetActiveBanByIP _ | Ports.RevokeBan _ => false
  | _ => true
  end.

Definition adapter_in_contract {X} (op : adapter_op X) : bool :=
  match op with
  | ADb op => in_contract op
  | AUpdateUserLevel _ _ | AUpdateUserPassword _ _ => true
  | AGetAppliedMigrations | AMarkMigrationApplied _ => false
  end.

(** ** The refinement *)

Section Refinement.
Context (FormatFloat : Z -> bytes) (ParseFloat : bytes -> option Z).
Hypothesis format_float_number : forall f, finite_bits f = true -> num_ok (FormatFloat f).
Hypothesis parse_format_float : forall f, finite_bits f = true -> ParseFloat (FormatFloat f) = Some f.

Local Abbreviation reads := (Codec.reads ParseFloat).
Local Abbreviation row_holds := (Codec.row_holds ParseFloat).

(** The names and the identifiers of the applications. *)
Record apps_hold (A : gmap string Z) (next : Z) (names : gset string) : Prop := {
  h_apps a : a ∈ names <-> is_Some (A !! a);
  h_inj a a' id : A !! a = Some id -> A !! a' = Some id -> a = a';
  h_next a id : A !! a = Some id -> id < next
}.

(** A table of attributes (under keys of type [K] for each application) against
    the entries of the store: every row belongs to an application. *)
Record attrs_hold {K} (A : gmap string Z) (rows : Z -> K -> option string) (entries : string -> K -> option LValue) : Prop := {
  h_fk i k : is_Some (rows i k) -> exists a, A !! a = Some i;
  h_rows a id k : A !! a = Some id -> row_holds (rows id k) (entries a k);
  h_none a k : A !! a = None -> entries a k = None
}.

Record users_hold (U : gmap string User) (users : gmap string (string * Z)) : Prop := {
  h_users u : (fun x => (u_PasswordHash x, u_UserLevel x)) <$> U !! u = users !! u;
  h_names u x : U !! u = Some x -> u_Username x = u
}.

Definition attr_row (T : Tables) (i : Z) (n : string) : option string := t_attrs T !! (i, n).
Definition player_row (T : Tables) (i : Z) (k : string * string) : option string := t_players T !! (i, k.1, k.2).
Definition attr_entry (s : Store) (a n : string) : option LValue := s_attrs s !! (a, n).
Definition player_entry (s : Store) (a : string) (k : string * string) : option LValue := s_players s !! (a, k.1, k.2).

Definition holds (T : Tables) (s : Store) : Prop :=
  apps_hold (t_apps T) (t_app_seq T) (s_apps s) /\
  attrs_hold (t_apps T) (attr_row T) (attr_entry s) /\
  attrs_hold (t_apps T) (player_row T) (player_entry s) /\
  users_hold (t_users T) (s_users s).

Lemma app_exists_iff T id : app_exists T id = true <-> exists a, t_apps T !! a = Some id.
Proof.
  unfold app_exists. rewrite bool_decide_eq_true, map_Exists_lookup. split.
  - intros (a & i & H & ->). by exists a.
  - intros (a & H). by exists a, id.
Qed.

Section Apps.
Context (A : gmap string Z) (next : Z) (names : gset string).
Hypothesis HA : apps_hold A next names.

Lemma apps_insert a key :
  next <= key -> A !! a = None -> apps_hold (<[a := key]> A) (key + 1) ({[a]} ∪ names).
Proof.
  intros Hkey Ha. assert (Hlt : forall a' id, A !! a' = Some id -> id <> key)
    by (intros a' id Hi; pose proof (h_next _ _ _ HA _ _ Hi); lia).
  split.
  - intros a'. rewrite elem_of_union, elem_of_singleton, lookup_insert_is_Some', (h_apps _ _ _ HA).
    split; (intros [?|?]; [left; congruence|by right]).
  - intros a1 a2 id. rewrite !lookup_insert_Some. intros [[<- <-]|[N1 H1]] [[<- E]|[N2 H2]]; try done.
    + by destruct (Hlt _ _ H2).
    + subst. by destruct (Hlt _ _ H1).
    + by eapply (h_inj _ _ _ HA).
  - intros a1 id. rewrite lookup_insert_Some. intros [[_ <-]|[_ H1]]; [lia|]. pose proof (h_next _ _ _ HA _ _ H1). lia.
Qed.

Lemma apps_delete a : apps_hold (delete a A) next (names ∖ {[a]}).
Proof.
  split.
  - intros a'. rewrite elem_of_difference, not_elem_of_singleton, lookup_delete_is_Some, (h_apps _ _ _ HA).
    split; intros [? ?]; split; congruence.
  - intros a1 a2 id. rewrite !lookup_delete_Some. intros [_ H1] [_ H2]. by eapply (h_inj _ _ _ HA).
  - intros a1 id. rewrite lookup_delete_Some. intros [_ H1]. by eapply (h_next _ _ _ HA).
Qed.

Context {K} `{EqDecision K} (rows : Z -> K -> option string) (entries : string -> K -> option LValue).
Hypothesis HR : attrs_hold A rows entries.

(** A new application has a new identifier: no rows. *)
Lemma attrs_insert_app a key : next <= key -> A !! a = None -> attrs_hold (<[a := key]> A) rows entries.
Proof.
  intros Hkey Ha. split.
  - intros i k Hi. destruct (h_fk _ _ _ HR _ _ Hi) as [a' Ha']. exists a'. rewrite lookup_insert_ne; [done|].
    by intros ->; congruence.
  - intros a1 id k. rewrite lookup_insert_Some. intros [[<- <-]|[_ H1]]; [|by apply (h_rows _ _ _ HR)].
    rewrite (h_none _ _ _ HR) by done. destruct (rows key k) eqn:E; [|done].
    destruct (h_fk _ _ _ HR key k) as [a' Ha']; [by rewrite E|]. pose proof (h_next _ _ _ HA _ _ Ha'). lia.
  - intros a1 k. rewrite lookup_insert_None. intros [? _]. by apply (h_none _ _ _ HR).
Qed.

(** The delete of an application takes its rows with it. *)
Lemma attrs_delete_app a id rows' entries' :
  A !! a = Some id ->
  (forall i k, rows' i k = if decide (i = id) then None else rows i k) ->
  (forall a' k, entries' a' k = if decide (a' = a) then None else entries a' k) ->
  attrs_hold (delete a A) rows' entries'.
Proof.
  intros Ha Hr He. split.
  - intros i k. rewrite Hr. case_decide as Hi; [by intros [? ?]|]. intros Hs.
    destruct (h_fk _ _ _ HR _ _ Hs) as [a' Ha']. exists a'. rewrite lookup_delete_ne; [done|]. congruence.
  - intros a1 i k. rewrite lookup_delete_Some. intros [Hne H1]. rewrite Hr, He, !decide_False; [by apply (h_rows _ _ _ HR)|done|].
    intros ->. by destruct Hne, (h_inj _ _ _ HA _ _ _ Ha H1).
  - intros a1 k. rewrite lookup_delete_None, He. intros [->|H1]; [by rewrite decide_True|].
    case_decide; [done|]. by apply (h_none _ _ _ HR).
Qed.

(** Writing or deleting one row. *)
Lemma attrs_set a id k row entry rows' entries' :
  A !! a = Some id -> row_holds row entry ->
  (forall i k', rows' i k' = if decide (i = id /\ k' = k) then row else rows i k') ->
  (forall a' k', entries' a' k' = if decide (a' = a /\ k' = k) then entry else entries a' k') ->
  attrs_hold A rows' entries'.
Proof.
  intros Ha Hrow Hr He. split.
  - intros i k'. rewrite Hr. case_decide as Hi; [|apply (h_fk _ _ _ HR)]. destruct Hi as [-> _]. by exists a.
  - intros a1 i k' H1. rewrite Hr, He. destruct (decide (a1 = a)) as [->|Hne].
    + assert (i = id) as -> by congruence. pose proof (h_rows _ _ _ HR a id k' H1).
      repeat case_decide; try done; naive_solver.
    + rewrite !decide_False; [by apply (h_rows _ _ _ HR)|naive_solver|].
      intros [-> _]. by destruct Hne, (h_inj _ _ _ HA _ _ _ Ha H1).
  - intros a1 k' H1. rewrite He, decide_False; [by apply (h_none _ _ _ HR)|]. intros [-> _]. congruence.
Qed.

(** The entries of an unknown application: nothing to delete. *)
Lemma attrs_entry_none a k entries' :
  A !! a = None ->
  (forall a' k', entries' a' k' = if decide (a' = a /\ k' = k) then None else entries a' k') ->
  attrs_hold A rows entries'.
Proof.
  intros Ha He. split; [apply HR|..].
  - intros a1 i k' H1. rewrite He, decide_False; [by apply (h_rows _ _ _ HR)|]. intros [-> _]. congruence.
  - intros a1 k' H1. rewrite He. case_decide; [done|]. by apply (h_none _ _ _ HR).
Qed.
End Apps.

(** ** Running the adapter over an engine *)

Context `{Eng : SqlEngine W}.

Let lite : sqlDB := newSQLDB sqliteDialect.

Definition does {X} (p : SQL X) (w : W) (Q : X -> W -> Prop) : Prop :=
  exists r w', run e_step p w = (Ret r, w') /\ Q r w'.

Lemma does_ret {X} (x : X) w (Q : X -> W -> Prop) : Q x w -> does (mret x) w Q.
Proof. intros H. by exists x, w. Qed.

Lemma does_bind {X Y} (p : SQL X) (f : X -> SQL Y) w (Q : X -> W -> Prop) (R : Y -> W -> Prop) :
  does p w Q -> (forall x w', Q x w' -> does (f x) w' R) -> does (p ≫= f) w R.
Proof.
  intros (x & w' & Hp & Hq) Hf. destruct (Hf x w' Hq) as (y & w'' & Hy & Hr). exists y, w''.
  split; [|done]. rewrite run_mbind, Hp. prun. exact Hy.
Qed.

Lemma does_call {X} (e : sql_port X) w (Q : X -> W -> Prop) : Q (e_step _ e w).1 (e_step _ e w).2 -> does (call_ e) w Q.
Proof. intros H. eexists _, _. split; [apply run_call|done]. Qed.

(** What a statement of the adapter does. *)
Definition executed (st : stmt) (w : W) (r : error + (error + Z)) (w' : W) : Prop :=
  exists now key, new_id st (e_tables w) key /\
    match exec_stmt now key st (e_tables w) with
    | Some (n, T) => r = inr (inr n) /\ e_tables w' = T
    | None => fails r /\ e_tables w' = e_tables w
    end.

Lemma does_exec st w : does (call_ (Exec RootPool (stmt_text st) (stmt_args st))) w (executed st w).
Proof. apply does_call. exact (engine_exec st w). Qed.

Lemma does_row {T} (q : row_query T) w :
  does (call_ (QueryRow (row_scan q) RootPool (row_text q) (row_args q))) w
    (fun r w' => r = no_row (row_answer q (e_tables w)) /\ e_tables w' = e_tables w).
Proof. apply does_call. exact (engine_row q w). Qed.

(** [exec_only] and [exec_found] around a statement. *)
Lemma does_only st w (Q : error + unit -> W -> Prop) :
  (forall r w', executed st w r w' -> Q (match r with inl e => inl e | inr _ => inr () end) w') ->
  does (exec_only lite (stmt_text st) (stmt_args st)) w Q.
Proof.
  intros HQ. eapply does_bind; [apply does_exec|]. intros r w' Hx. apply does_ret. by apply HQ.
Qed.

Lemma does_found st e w (Q : error + unit -> W -> Prop) :
  (forall r w', executed st w r w' ->
     Q (match r with inl e => inl e | inr (inl e) => inl e | inr (inr n) => if n =? 0 then inl e else inr () end) w') ->
  does (exec_found lite (stmt_text st) (stmt_args st) e) w Q.
Proof.
  intros HQ. eapply does_bind; [apply does_exec|]. intros r w' Hx. apply does_ret. by apply HQ.
Qed.

Lemma does_app {X} a (k : Z -> SQL (error + X)) w (Q : error + X -> W -> Prop) :
  (t_apps (e_tables w) !! a = None -> forall e w', e_tables w' = e_tables w -> Q (inl e) w') ->
  (forall id w', t_apps (e_tables w) !! a = Some id -> e_tables w' = e_tables w -> does (k id) w' Q) ->
  does (with_app lite a k) w Q.
Proof.
  intros Hnone Hsome.
  eapply (does_bind _ _ _ (fun r w' => e_tables w' = e_tables w /\
    match t_apps (e_tables w) !! a with Some id => r = inr id | None => fails r end)).
  - eapply does_bind; [exact (does_row (RApp a) w)|]. intros r w' [-> Hw]. apply does_ret. split; [done|].
    cbn [row_answer]. destruct (t_apps (e_tables w) !! a); [done|by eexists].
  - intros r w' [Hw Hr]. destruct (t_apps (e_tables w) !! a) as [id|] eqn:Ha.
    + subst r. by apply Hsome.
    + destruct Hr as [e ->]. apply does_ret. by apply Hnone.
Qed.

(** The rows of a names query are read back. *)
Lemma scan_name_rows names : scan_names (rows_scans (name_rows names)) None = inr names.
Proof. cbn. induction names as [|n names IH]; [done|]. cbn. by rewrite IH. Qed.

Lemma elem_of_attr_names i T n : n ∈ attr_names i T <-> is_Some (t_attrs T !! (i, n)).
Proof.
  unfold attr_names. rewrite elem_of_list_to_set, list_elem_of_fmap. setoid_rewrite list_elem_of_filter.
  setoid_rewrite elem_of_elements. setoid_rewrite elem_of_dom. split.
  - intros ([i' n'] & -> & <- & H). exact H.
  - intros H. by exists (i, n).
Qed.

Lemma elem_of_player_names i u T n : n ∈ player_names i u T <-> is_Some (t_players T !! (i, u, n)).
Proof.
  unfold player_names. rewrite elem_of_list_to_set, list_elem_of_fmap. setoid_rewrite list_elem_of_filter.
  setoid_rewrite elem_of_elements. setoid_rewrite elem_of_dom. split.
  - intros ([[i' u'] n'] & -> & E & H). cbn in E. simplify_eq. exact H.
  - intros H. by exists (i, u, n).
Qed.

Lemma does_names q args (names : gset string) w :
  (let r := e_step _ (Query RootPool q args) w in
   (exists ns, ns ≡ₚ elements names /\ r.1 = inr (name_rows ns)) /\ e_tables r.2 = e_tables w) ->
  does (queryNames lite q args) w
    (fun r w' => e_tables w' = e_tables w /\ exists ns, r = inr ns /\ NoDup ns /\ forall n, n ∈ ns <-> n ∈ names).
Proof.
  intros [(ns & Hp & Hr) Hw]. 
  eapply (does_bind _ _ _ (fun r w' => r = inr (name_rows ns) /\ e_tables w' = e_tables w));
    [apply does_call; exact (conj Hr Hw)|].
  intros r w' [-> Hw']. apply does_ret. split; [done|]. exists ns. split_and!.
  - apply scan_name_rows.
  - rewrite Hp. apply NoDup_elements.
  - intros n. by rewrite Hp, elem_of_elements.
Qed.

(** Reading an attribute through its row. *)
Lemma does_attribute {q : row_query string} w entry :
  row_scan q = ScanString -> row_holds (row_answer q (e_tables w)) entry ->
  does (scanAttribute ParseFloat lite (row_text q) (row_args q)) w
    (fun r w' => e_tables w' = e_tables w /\ r = inr (default LVoid entry)).
Proof.
  intros Hq He. eapply does_bind.
  { pose proof (does_row q w) as Hd. rewrite Hq in Hd. exact Hd. }
  intros r w' [-> Hw]. destruct (row_answer q (e_tables w)) as [txt|], entry as [v|]; cbn in He; try done; cbn [no_row].
  - exists (inr v), w'. split; [|done]. prun. unfold Codec.reads in He. by rewrite He.
  - rewrite decide_True by done. by apply does_ret.
Qed.

Lemma does_marshal {X} v (k : error + bytes -> SQL X) w (Q : X -> W -> Prop) :
  storable v = true ->
  (forall bs, reads (string_of_bytes bs) (stored v) -> does (k (inr bs)) w Q) ->
  does (lift (MarshalLValue FormatFloat v) ≫= k) w Q.
Proof.
  intros Hs Hk. destruct (stored_value FormatFloat ParseFloat format_float_number parse_format_float v Hs) as (bs & Hm & Hu).
  destruct (Hk bs) as (r & w' & Hr & HQ).
  - unfold Codec.reads, lit. by rewrite bytes_of_string_of_bytes.
  - exists r, w'. split; [|done]. rewrite Hm. prun. exact Hr.
Qed.

(** What one operation must establish. *)
Definition simulates {X} (op : db_op X) (s : Store) (r : error + X) (w' : W) : Prop :=
  store_reply op s r /\ holds (e_tables w') (store_next op s).

Ltac known HA a Ha := rewrite decide_True by (apply (h_apps _ _ _ HA); by rewrite Ha).
Ltac unknown HA a Ha := rewrite decide_False by (rewrite (h_apps _ _ _ HA), Ha; by intros [? ?]).

Section Ops.
Context (w : W) (s : Store).
Hypothesis HH : holds (e_tables w) s.

Lemma sim_CreateApplication a : does (CreateApplication lite a) w (simulates (Ports.CreateApplication a) s).
Proof.
  destruct HH as (HA & HR & HP & HU). apply (does_only (InsertApp a)). intros r w' (now & key & Hkey & Hx). cbn [exec_stmt new_id] in Hkey, Hx.
  destruct (t_apps (e_tables w) !! a) as [id|] eqn:Ha; unfold simulates; cbn [store_reply store_next].
  - destruct Hx as [[e ->] ->]. known HA a Ha. split; [by eexists|].
    assert ({[a]} ∪ s_apps s = s_apps s) as ->; [|by destruct s].
    apply set_eq. intros x. rewrite elem_of_union, elem_of_singleton. split; [|by right].
    intros [->|?]; [apply (h_apps _ _ _ HA); by rewrite Ha|done].
  - destruct Hx as [-> ->]. unknown HA a Ha. split; [done|]. split_and!; cbn.
    + by eapply apps_insert.
    + exact (attrs_insert_app _ _ _ HA _ _ HR a key Hkey Ha).
    + exact (attrs_insert_app _ _ _ HA _ _ HP a key Hkey Ha).
    + done.
Qed.

Lemma filter_keep {K A} `{Countable K} (m : gmap K A) (Q : K * A -> Prop) `{!forall x, Decision (Q x)} k :
  (forall x, Q (k, x)) -> filter Q m !! k = m !! k.
Proof. intros HQ. apply option_eq. intros x. rewrite map_lookup_filter_Some. split; [by intros []|done]. Qed.

Lemma filter_drop {K A} `{Countable K} (m : gmap K A) (Q : K * A -> Prop) `{!forall x, Decision (Q x)} k :
  (forall x, ~ Q (k, x)) -> filter Q m !! k = None.
Proof. intros HQ. apply map_lookup_filter_None. right. intros x _. apply HQ. Qed.

Lemma sim_DeleteApplication a : does (DeleteApplication lite a) w (simulates (Ports.DeleteApplication a) s).
Proof.
  destruct HH as (HA & HR & HP & HU). apply (does_found (DeleteApp a)). intros r w' (now & key & Hkey & Hx). cbn [exec_stmt new_id] in Hkey, Hx.
  destruct (t_apps (e_tables w) !! a) as [id|] eqn:Ha; unfold simulates; cbn [store_reply store_next]; unfold of_app.
  - destruct Hx as [-> ->]. known HA a Ha. split; [by eexists|]. split_and!; cbn.
    + by apply apps_delete.
    + eapply (attrs_delete_app _ _ _ HA _ _ HR a id); [done|..]; unfold attr_row, attr_entry; intros x k.
      * case_decide; [apply filter_drop|apply filter_keep]; cbn; intros; congruence.
      * case_decide; [apply filter_drop|apply filter_keep]; cbn; intros; congruence.
    + eapply (attrs_delete_app _ _ _ HA _ _ HP a id); [done|..]; unfold player_row, player_entry; intros x k.
      * case_decide; [apply filter_drop|apply filter_keep]; cbn; intros; congruence.
      * case_decide; [apply filter_drop|apply filter_keep]; cbn; intros; congruence.
    + done.
  - destruct Hx as [-> ->]. unknown HA a Ha. split; [by eexists|]. split_and!; cbn; [| | |done].
    + assert (s_apps s ∖ {[a]} = s_apps s) as ->; [|done]. apply set_eq. intros x.
      rewrite elem_of_difference, not_elem_of_singleton, (h_apps _ _ _ HA). split; [by intros []|]. intros Hx. split; [done|].
      intros ->. rewrite Ha in Hx. by destruct Hx.
    + split; [apply HR|..]; unfold attr_entry; intros x; cbn.
      * intros id k Hi. rewrite filter_keep by (cbn; congruence).
        by apply (h_rows _ _ _ HR).
      * intros k Hi. destruct (decide (x = a)) as [->|Hne].
        -- apply filter_drop. cbn. intros; congruence.
        -- rewrite filter_keep by (cbn; congruence). by apply (h_none _ _ _ HR).
    + split; [apply HP|..]; unfold player_entry; intros x; cbn.
      * intros id k Hi. rewrite filter_keep by (cbn; congruence).
        by apply (h_rows _ _ _ HP).
      * intros k Hi. destruct (decide (x = a)) as [->|Hne].
        -- apply filter_drop. cbn. intros; congruence.
        -- rewrite filter_keep by (cbn; congruence). by apply (h_none _ _ _ HP).
Qed.

Lemma lookup_insert_pair {K A} `{Countable K} (m : gmap K A) k x k' :
  <[k := x]> m !! k' = if decide (k' = k) then Some x else m !! k'.
Proof. case_decide; [subst; apply lookup_insert_eq|by apply lookup_insert_ne]. Qed.

Lemma lookup_delete_pair {K A} `{Countable K} (m : gmap K A) k k' :
  delete k m !! k' = if decide (k' = k) then None else m !! k'.
Proof. case_decide; [subst; apply lookup_delete_eq|by apply lookup_delete_ne]. Qed.

Ltac one_row := unfold attr_row, attr_entry, player_row, player_entry; cbn; intros ? [];
  rewrite ?lookup_insert_pair, ?lookup_delete_pair; repeat case_decide; naive_solver.

Lemma sim_SetApplicationAttribute a n v :
  storable v = true ->
  does (SetApplicationAttribute FormatFloat lite a n v) w (simulates (Ports.SetApplicationAttribute a n v) s).
Proof.
  intros Hs. destruct HH as (HA & HR & HP & HU). apply does_app.
  - intros Ha e w' Hw. unfold simulates; cbn [store_reply store_next]; unfold of_app. unknown HA a Ha.
    unknown HA a Ha. split; [by eexists|by rewrite Hw].
  - intros id w1 Ha Hw1. apply does_marshal; [done|]. intros bs Hb.
    apply (does_only (UpsertAttr id n (string_of_bytes bs))). intros r w' (now & key & Hkey & Hx). cbn [exec_stmt new_id] in Hkey, Hx.
    assert (app_exists (e_tables w1) id = true) as He by (rewrite Hw1; apply app_exists_iff; by exists a).
    rewrite He, Hw1 in Hx. unfold simulates; cbn [store_reply store_next]; unfold of_app. destruct Hx as [-> ->].
    known HA a Ha. known HA a Ha. split; [by eexists|]. split_and!; cbn; [done| |done|done].
    apply (attrs_set _ _ _ HA _ _ HR a id n (Some (string_of_bytes bs)) (Some (stored v))); [done|done|one_row..].
Qed.

Lemma sim_SetPlayerAttribute a u n v :
  storable v = true ->
  does (SetPlayerAttribute FormatFloat lite a u n v) w (simulates (Ports.SetPlayerAttribute a u n v) s).
Proof.
  intros Hs. destruct HH as (HA & HR & HP & HU). apply does_app.
  - intros Ha e w' Hw. unfold simulates; cbn [store_reply store_next]; unfold of_app. unknown HA a Ha.
    unknown HA a Ha. split; [by eexists|by rewrite Hw].
  - intros id w1 Ha Hw1. apply does_marshal; [done|]. intros bs Hb.
    apply (does_only (UpsertPlayer id u n (string_of_bytes bs))). intros r w' (now & key & Hkey & Hx). cbn [exec_stmt new_id] in Hkey, Hx.
    assert (app_exists (e_tables w1) id = true) as He by (rewrite Hw1; apply app_exists_iff; by exists a).
    rewrite He, Hw1 in Hx. unfold simulates; cbn [store_reply store_next]; unfold of_app. destruct Hx as [-> ->].
    known HA a Ha. known HA a Ha. split; [by eexists|]. split_and!; cbn; [done|done| |done].
    apply (attrs_set _ _ _ HA _ _ HP a id (u, n) (Some (string_of_bytes bs)) (Some (stored v))); [done|done|one_row..].
Qed.

Lemma sim_DeleteApplicationAttribute a n :
  does (DeleteApplicationAttribute lite a n) w (simulates (Ports.DeleteApplicationAttribute a n) s).
Proof.
  destruct HH as (HA & HR & HP & HU). apply does_app.
  - intros Ha e w' Hw. unfold simulates; cbn [store_reply store_next]; unfold of_app. unknown HA a Ha.
    split; [by eexists|]. rewrite Hw. split_and!; cbn; [done| |done|done].
    eapply (attrs_entry_none _ _ _ HR a n); [done|one_row].
  - intros id w1 Ha Hw1. apply (does_only (DeleteAttr id n)). intros r w' (now & key & Hkey & Hx). cbn [exec_stmt new_id] in Hkey, Hx.
    rewrite Hw1 in Hx. unfold simulates; cbn [store_reply store_next]; unfold of_app. destruct Hx as [-> ->].
    known HA a Ha. split; [by eexists|]. split_and!; cbn; [done| |done|done].
    apply (attrs_set _ _ _ HA _ _ HR a id n None None); [done|done|one_row..].
Qed.

Lemma sim_DeletePlayerAttribute a u n :
  does (DeletePlayerAttribute lite a u n) w (simulates (Ports.DeletePlayerAttribute a u n) s).
Proof.
  destruct HH as (HA & HR & HP & HU). apply does_app.
  - intros Ha e w' Hw. unfold simulates; cbn [store_reply store_next]; unfold of_app. unknown HA a Ha.
    split; [by eexists|]. rewrite Hw. split_and!; cbn; [done|done| |done].
    eapply (attrs_entry_none _ _ _ HP a (u, n)); [done|one_row].
  - intros id w1 Ha Hw1. apply (does_only (DeletePlayer id u n)). intros r w' (now & key & Hkey & Hx). cbn [exec_stmt new_id] in Hkey, Hx.
    rewrite Hw1 in Hx. unfold simulates; cbn [store_reply store_next]; unfold of_app. destruct Hx as [-> ->].
    known HA a Ha. split; [by eexists|]. split_and!; cbn; [done|done| |done].
    apply (attrs_set _ _ _ HA _ _ HP a id (u, n) None None); [done|done|one_row..].
Qed.

(** Reads leave the tables alone. *)
Lemma sim_read {X} (p : SQL (error + X)) a (k : Z -> SQL (error + X)) (P : X -> Prop) :
  p = with_app lite a k ->
  (forall id w1, t_apps (e_tables w) !! a = Some id -> e_tables w1 = e_tables w ->
     does (k id) w1 (fun r w' => e_tables w' = e_tables w1 /\ exists x, r = inr x /\ P x)) ->
  does p w (fun r w' => of_app a s r P /\ holds (e_tables w') s).
Proof.
  intros -> Hk. destruct HH as (HA & HR & HP & HU). apply does_app.
  - intros Ha e w' Hw. unfold of_app. unknown HA a Ha. split; [by eexists|by rewrite Hw].
  - intros id w1 Ha Hw1. destruct (Hk id w1 Ha Hw1) as (r & w' & Hr & Hw' & Hx). exists r, w'. split; [done|].
    unfold of_app. known HA a Ha. split; [done|]. by rewrite Hw', Hw1.
Qed.

Lemma sim_GetApplicationAttribute a n :
  does (GetApplicationAttribute ParseFloat lite a n) w (simulates (Ports.GetApplicationAttribute a n) s).
Proof.
  destruct HH as (HA & HR & HP & HU). eapply sim_read; [reflexivity|]. intros id w1 Ha Hw1.
  destruct (does_attribute (q := RAttr id n) w1 (s_attrs s !! (a, n)) eq_refl) as (r & w' & Hr & Hw' & ->).
  - cbn. rewrite Hw1. exact (h_rows _ _ _ HR a id n Ha).
  - eexists _, _. split; [exact Hr|]. split; [done|by eexists].
Qed.

Lemma sim_GetPlayerAttribute a u n :
  does (GetPlayerAttribute ParseFloat lite a u n) w (simulates (Ports.GetPlayerAttribute a u n) s).
Proof.
  destruct HH as (HA & HR & HP & HU). eapply sim_read; [reflexivity|]. intros id w1 Ha Hw1.
  destruct (does_attribute (q := RPlayer id u n) w1 (s_players s !! (a, u, n)) eq_refl) as (r & w' & Hr & Hw' & ->).
  - cbn. rewrite Hw1. exact (h_rows _ _ _ HP a id (u, n) Ha).
  - eexists _, _. split; [exact Hr|]. split; [done|by eexists].
Qed.

Lemma sim_GetApplicationAttributeNames a :
  does (GetApplicationAttributeNames lite a) w (simulates (Ports.GetApplicationAttributeNames a) s).
Proof.
  destruct HH as (HA & HR & HP & HU). eapply sim_read; [reflexivity|]. intros id w1 Ha Hw1.
  destruct (does_names _ _ _ w1 (engine_names id w1)) as (r & w' & Hr & Hw' & ns & -> & Hd & Hn).
  eexists _, _. split; [exact Hr|]. split; [done|]. exists ns. split_and!; [done|done|]. intros n.
  rewrite Hn, elem_of_attr_names, Hw1. exact (row_holds_is_Some _ _ _ (h_rows _ _ _ HR a id n Ha)).
Qed.

Lemma sim_GetPlayerAttributeNames a u :
  does (GetPlayerAttributeNames lite a u) w (simulates (Ports.GetPlayerAttributeNames a u) s).
Proof.
  destruct HH as (HA & HR & HP & HU). eapply sim_read; [reflexivity|]. intros id w1 Ha Hw1.
  destruct (does_names _ _ _ w1 (engine_player_names id u w1)) as (r & w' & Hr & Hw' & ns & -> & Hd & Hn).
  eexists _, _. split; [exact Hr|]. split; [done|]. exists ns. split_and!; [done|done|]. intros n.
  rewrite Hn, elem_of_player_names, Hw1. exact (row_holds_is_Some _ _ _ (h_rows _ _ _ HP a id (u, n) Ha)).
Qed.

(** Users *)

Lemma user_entry u : s_users s !! u = (fun x => (u_PasswordHash x, u_UserLevel x)) <$> t_users (e_tables w) !! u.
Proof. destruct HH as (_ & _ & _ & HU). symmetry. apply (h_users _ _ HU). Qed.

Lemma sim_CreateUser u h l : does (CreateUser lite u h l) w (simulates (Ports.CreateUser u h l) s).
Proof.
  destruct HH as (HA & HR & HP & HU).
  eapply (does_bind _ _ _ (fun id w1 => uuid_used (e_tables w) id = false /\ e_tables w1 = e_tables w)).
  { apply does_call. exact (engine_uuid w). }
  intros id w1 [Hid Hw1]. apply (does_only (InsertUser id u h l)). intros r w' (now & key & Hkey & Hx). cbn [exec_stmt new_id] in Hkey, Hx.
  rewrite Hw1, Hid in Hx. unfold simulates; cbn [store_reply store_next]. rewrite user_entry.
  destruct (t_users (e_tables w) !! u) as [x|] eqn:Hu; cbn [fmap option_fmap option_map].
  - destruct Hx as [[e ->] ->]. split; [by eexists|by split_and!].
  - destruct Hx as [-> ->]. split; [done|]. split_and!; cbn; [done|done|done|]. split; intros u'.
    + rewrite !lookup_insert_pair. case_decide; [done|]. apply (h_users _ _ HU).
    + intros x. rewrite lookup_insert_Some. intros [[<- <-]|[_ H1]]; [done|]. by apply (h_names _ _ HU).
Qed.

Lemma sim_GetUser u : does (GetUser lite u) w (simulates (Ports.GetUser u) s).
Proof.
  destruct HH as (HA & HR & HP & HU). eapply does_bind; [exact (does_row (RUser u) w)|].
  intros r w' [-> Hw]. apply does_ret. unfold simulates; cbn [store_reply store_next]. rewrite user_entry, Hw. cbn [row_answer].
  destruct (t_users (e_tables w) !! u) as [x|] eqn:Hu; cbn [fmap option_fmap option_map no_row].
  - split; [|by split_and!]. exists x. split_and!; try done. by eapply (h_names _ _ HU).
  - rewrite decide_True by done. split; [done|by split_and!].
Qed.

Lemma sim_DeleteUser u : does (DeleteUser lite u) w (simulates (Ports.DeleteUser u) s).
Proof.
  destruct HH as (HA & HR & HP & HU). apply (does_found (RemoveUser u)). intros r w' (now & key & Hkey & Hx). cbn [exec_stmt new_id] in Hkey, Hx.
  unfold simulates; cbn [store_reply store_next]. rewrite user_entry.
  destruct (t_users (e_tables w) !! u) as [x|] eqn:Hu; cbn [fmap option_fmap option_map]; destruct Hx as [-> ->];
    (split; [done|]); split_and!; cbn; try done; split; intros u'.
  - rewrite !lookup_delete_pair. case_decide; [done|]. apply (h_users _ _ HU).
  - intros y. rewrite lookup_delete_Some. intros [_ H1]. by apply (h_names _ _ HU).
  - rewrite lookup_delete_pair, (h_users _ _ HU). case_decide; [|done]. subst u'. by rewrite user_entry, Hu.
  - apply (h_names _ _ HU).
Qed.

(** A column of a user's row is changed, or there is no such user. *)
Lemma sim_update u st f g entry :
  (forall now key T, exec_stmt now key st T = Some (update_user u f T)) ->
  (forall x, (u_PasswordHash (f x), u_UserLevel (f x)) = g (u_PasswordHash x, u_UserLevel x) /\ u_Username (f x) = u_Username x) ->
  entry = mkDbStore (s_apps s) (s_attrs s) (s_players s) (alter g u (s_users s)) ->
  does (exec_found lite (stmt_text st) (stmt_args st) ErrUserNotFound) w
    (fun r w' => match s_users s !! u with Some _ => r = inr () | None => r = inl ErrUserNotFound end /\
                 holds (e_tables w') entry).
Proof.
  intros Hst Hf ->. destruct HH as (HA & HR & HP & HU). apply does_found. intros r w' (now & key & _ & Hx).
  rewrite Hst in Hx. unfold update_user in Hx. rewrite user_entry.
  destruct (t_users (e_tables w) !! u) as [x|] eqn:Hu; destruct Hx as [-> ->]; (split; [done|]); split_and!; cbn; try done;
    split; intros u'.
  - rewrite lookup_insert_pair. case_decide as Hu'; [subst u'|].
    + rewrite lookup_alter_eq, <- (h_users _ _ HU), Hu. cbn. f_equal. apply Hf.
    + rewrite lookup_alter_ne by done. apply (h_users _ _ HU).
  - intros y. rewrite lookup_insert_Some. intros [[<- <-]|[_ H1]]; [|by apply (h_names _ _ HU)].
    rewrite (proj2 (Hf x)). by apply (h_names _ _ HU).
  - destruct (decide (u' = u)) as [->|Hne]; [|by rewrite lookup_alter_ne by done; apply (h_users _ _ HU)].
    by rewrite lookup_alter_eq, <- (h_users _ _ HU), Hu.
  - apply (h_names _ _ HU).
Qed.

Lemma sim_db {X} (op : db_op X) :
  in_contract op = true -> does (db_run FormatFloat ParseFloat lite op) w (simulates op s).
Proof.
  intros Hc. destruct op; cbn [db_run in_contract] in *; try done.
  - apply sim_CreateApplication.
  - apply sim_DeleteApplication.
  - by apply sim_SetApplicationAttribute.
  - apply sim_GetApplicationAttribute.
  - apply sim_GetApplicationAttributeNames.
  - apply sim_DeleteApplicationAttribute.
  - by apply sim_SetPlayerAttribute.
  - apply sim_GetPlayerAttribute.
  - apply sim_GetPlayerAttributeNames.
  - apply sim_DeletePlayerAttribute.
  - apply sim_CreateUser.
  - apply sim_GetUser.
  - apply sim_DeleteUser.
Qed.

(** C8. Over any engine that executes the adapter's statements as SQLite
    documents them (no I/O error, no lock held by another process; ids counted
    per table, upwards), each method on applications, attributes and users
    returns and does what the abstract store does, for every value the encoding
    can hold: an attribute reads back as the value its encoding keeps
    ([stored v]), only on an application that exists; deleting an application
    deletes its attributes and no others; names are listed once each; a taken user
    name is refused; level and password of a user change alone; an unknown user
    is [ErrUserNotFound]. Bans and the migration tracker are not in this
    contract. *)
Theorem adapter_refines {X} (op : adapter_op X) :
  adapter_in_contract op = true ->
  exists r w', run e_step (adapter_run FormatFloat ParseFloat (newSQLDB sqliteDialect) op) w = (Ret r, w') /\
    adapter_reply op s r /\ holds (e_tables w') (adapter_next op s).
Proof.
  intros Hc. destruct op as [X op|u l|u h| |n]; cbn [adapter_run adapter_in_contract] in *; try done.
  - by apply sim_db.
  - by apply (sim_update u (SetLevel l u) (set_level l) (fun hl => (hl.1, l))).
  - by apply (sim_update u (SetHash h u) (set_hash h) (fun hl => (h, hl.2))).
Qed.
End Ops.
End Refinement.

(** ** A concrete engine: the tables themselves *)

Definition decode (q : string) (args : list value) : option stmt :=
  match args with
  | [VString a] =>
      if decide (q = insert_app) then Some (InsertApp a)
      else if decide (q = delete_app) then Some (DeleteApp a)
      else if decide (q = delete_user) then Some (RemoveUser a) else None
  | [VInt i; VString n] =>
      if decide (q = delete_app_attr) then Some (DeleteAttr i n)
      else if decide (q = update_level) then Some (SetLevel i n) else None
  | [VString h; VString u] => if decide (q = update_password) then Some (SetHash h u) else None
  | [VInt i; VString n; VString j] =>
      if decide (q = upsert_app_attr) then Some (UpsertAttr i n j)
      else if decide (q = delete_player_attr) then Some (DeletePlayer i n j) else None
  | [VInt i; VString u; VString n; VString j] => if decide (q = upsert_player_attr) then Some (UpsertPlayer i u n j) else None
  | [VString id; VString u; VString h; VInt l] => if decide (q = insert_user) then Some (InsertUser id u h l) else None
  | _ => None
  end.

Lemma decode_stmt s : decode (stmt_text s) (stmt_args s) = Some s.
Proof. destruct s; reflexivity. Qed.

Definition syntax : error := Errorf "syntax error".

Definition mem_row {T} (s : scan T) (q : string) (args : list value) (D : Tables) : error + T :=
  match s in scan T return error + T with
  | ScanInt =>
      match args with
      | [VString a] => if decide (q = select_app) then no_row (row_answer (RApp a) D) else inl syntax
      | _ => inl syntax
      end
  | ScanString =>
      match args with
      | [VInt i; VString n] => if decide (q = select_app_attr) then no_row (row_answer (RAttr i n) D) else inl syntax
      | [VInt i; VString u; VString n] =>
          if decide (q = select_player_attr) then no_row (row_answer (RPlayer i u n) D) else inl syntax
      | _ => inl syntax
      end
  | ScanUser =>
      match args with
      | [VString u] => if decide (q = select_user) then no_row (row_answer (RUser u) D) else inl syntax
      | _ => inl syntax
      end
  | ScanBan => inl ErrNoRows
  end.

Definition mem_rows (q : string) (args : list value) (D : Tables) : error + Rows :=
  match args with
  | [VInt i] => if decide (q = select_app_names) then inr (name_rows (elements (attr_names i D))) else inl syntax
  | [VInt i; VString u] =>
      if decide (q = select_player_names) then inr (name_rows (elements (player_names i u D))) else inl syntax
  | _ => inl syntax
  end.

Definition uuids (D : Tables) : gset string := list_to_set (u_UUID <$> (map_to_list (t_users D)).*2).

(** One more than the largest id of the table. *)
Definition next_key (s : stmt) (D : Tables) : Z :=
  match s with InsertApp _ => t_app_seq D | _ => t_user_seq D end.

Definition mem_step (X : Type) (e : sql_port X) (D : Tables) : X * Tables :=
  match e in sql_port X return X * Tables with
  | Exec _ q args =>
      match decode q args with
      | Some st => match exec_stmt 0 (next_key st D) st D with Some (n, T) => (inr (inr n), T) | None => (inl (Errorf "constraint failed"), D) end
      | None => (inl syntax, D)
      end
  | Query _ q args => (mem_rows q args D, D)
  | QueryRow s _ q args => (mem_row s q args D, D)
  | Begin => (inl syntax, D)
  | CommitTx _ => (Some ErrTxDone, D)
  | RollbackTx _ => (Some ErrTxDone, D)
  | NextSavepoint => (1, D)
  | NewUUID => (fresh (uuids D), D)
  | SqlNow => (0, D)
  end.

Lemma fresh_uuid D : uuid_used D (fresh (uuids D)) = false.
Proof.
  apply bool_decide_eq_false. rewrite map_Exists_lookup. intros (u & x & Hu & Hx).
  apply (is_fresh (uuids D)). rewrite <- Hx. unfold uuids. apply elem_of_list_to_set, list_elem_of_fmap.
  exists x. split; [done|]. apply list_elem_of_fmap. exists (u, x). split; [done|]. by apply elem_of_map_to_list.
Qed.

#[export] Program Instance Memory_engine : SqlEngine Tables := {| e_step := mem_step; e_tables D := D |}.
Next Obligation.
  intros s D. exists 0, (next_key s D). split; [destruct s; cbn; lia|].
  cbn. rewrite decode_stmt. destruct (exec_stmt 0 _ s D) as [[n T]|]; [done|]. split; [by eexists|done].
Qed.
Next Obligation. intros T [] D; cbn; by split. Qed.
Next Obligation. intros i D. cbn. split; [|done]. by exists (elements (attr_names i D)). Qed.
Next Obligation. intros i u D. cbn. split; [|done]. by exists (elements (player_names i u D)). Qed.
Next Obligation. intros D. cbn. split; [apply fresh_uuid|done]. Qed.

Definition no_tables : Tables := mkTables ∅ ∅ ∅ ∅ 1 1.
Definition no_store : Store := mkDbStore ∅ ∅ ∅ ∅.

Lemma empty_holds ParseFloat : holds ParseFloat no_tables no_store.
Proof.
  split_and!; split; cbn; try done; intros; rewrite ?lookup_empty in *; try done; try set_solver.
  all: repeat match goal with H : is_Some _ |- _ => destruct H as [? H] end; unfold attr_row, player_row in *; cbn in *;
    rewrite ?lookup_empty in *; done.
Qed.

(** Three calls on an empty database: what is read back is the stored value. *)
Definition lite_run {X} (op : adapter_op X) (D : Tables) : outcome (error + X) * Tables :=
  run mem_step (adapter_run decimal_bits read_bits (newSQLDB sqliteDialect) op) D.

Lemma adapter_refines_witness :
  exists T1 T2 T3,
    lite_run (ADb (Ports.CreateApplication "game")) no_tables = (Ret (inr ()), T1) /\
    lite_run (ADb (Ports.SetApplicationAttribute "game" "motd" cafe)) T1 = (Ret (inr ()), T2) /\
    lite_run (ADb (Ports.GetApplicationAttribute "game" "motd")) T2 = (Ret (inr (stored cafe)), T3).
Proof.
  pose (step T s H X := @adapter_refines decimal_bits read_bits (fun f _ => num_ok_Itoa f) read_decimal_bits Tables Memory_engine T s H X).
  destruct (step _ _ (empty_holds read_bits) _ (ADb (Ports.CreateApplication "game")) eq_refl) as (r1 & T1 & E1 & R1 & H1).
  destruct (step _ _ H1 _ (ADb (Ports.SetApplicationAttribute "game" "motd" cafe)) eq_refl) as (r2 & T2 & E2 & R2 & H2).
  destruct (step _ _ H2 _ (ADb (Ports.GetApplicationAttribute "game" "motd")) eq_refl) as (r3 & T3 & E3 & R3 & H3).
  exists T1, T2, T3. vm_compute in R1. subst r1. destruct R2 as (u2 & -> & _). destruct R3 as (v3 & -> & ->).
  destruct u2. split; [exact E1|]. split; [exact E2|exact E3].
Defined.
