(* ===== verification/Migrations.v ===== *)
(** * Migrations (services/migration_runner.go, outbound/sql_migration.go,
    [BeginMigration] of outbound/sql_db.go)

    The runner applies the pending migrations in the order of their names, each
    in a transaction of its own together with its tracker row. A migration's
    [Up] is any program over the adapter it is given. The database's
    transactions are a class: what is committed changes only by a commit.
    [run_pending_history]: after [RunPending] the committed state is the one
    reached by exactly the migrations it reports as run, in order, and a failing
    one leaves no trace, whether its [Up], its tracker row or its commit failed,
    or its [Up] panicked. *)

From Stdlib Require Import ZArith Lia.
From Stdlib Require Import Strings.Byte.
From stdpp Require Import base list strings gmap option pretty sorting.
From S2P Require Import Prelude GoFmt Utf8 Json LValue LExtract LParse LRoundtrip Smus Effects Ports.
From S2P Require Import Codec SessionStore SqlText SqlBuilder SqlSchema SqlDB.

Open Scope Z_scope.

Record Migration := mkMigration {
  m_Name : string;
  m_Up : sqlDB -> SQL (option error)
}.

Record MigrationResult := mkResult {
  mr_Total : Z;
  mr_Applied : Z;
  mr_Ran : list string
}.

(** ** [ExecuteMigrationSQL] *)

Record MigrationSQL := mkMigrationSQL { ddl_SQLite : list string; ddl_Postgres : list string }.

Fixpoint exec_statements (t : nat) (statements : list string) (sp : Tx) : SQL (option error) :=
  match statements with
  | [] => r ← Tx_Commit sp; mret r.1
  | st :: statements =>
      r ← call_ (Exec (InTx t) st []);
      match r with
      | inl e =>
          rb ← Tx_Rollback sp;
          mret (Some (match rb.1 with Some _ => Wrapf "rollback to savepoint failed" e | None => e end))
      | inr _ => exec_statements t statements sp
      end
  end.

Definition ExecuteMigrationSQL (t : nat) (d : dialect) (ddl : MigrationSQL) : SQL (option error) :=
  let statements := match d with sqliteDialect => ddl_SQLite ddl | postgresDialect => ddl_Postgres ddl end in
  r ← beginSavepoint t d;
  match r with
  | inl e => mret (Some e)
  | inr sp => exec_statements t statements sp
  end.

(** ** The runner *)

(** [sort.Slice] by name (byte order); migrations are registered under distinct
    names. *)
Definition name_le (a b : Migration) : Prop := String.leb (m_Name a) (m_Name b) = true.
#[export] Instance name_le_dec a b : Decision (name_le a b).
Proof. unfold name_le. apply _. Defined.

#[export] Instance name_le_total : Total name_le.
Proof. intros a b. apply String.leb_total. Qed.

(** An adapter as the runner sees it: a value that compares equal to itself
    only, and whether it opens transactions ([ports.MigrationTransactor]). *)
Record Adapter := mkAdapter { ad_ref : nat; ad_db : sqlDB; ad_transactor : bool }.

Definition sameAdapter (a b : Adapter) : bool := bool_decide (ad_ref a = ad_ref b).

Record MigrationRunner := mkRunner {
  r_tracker : Adapter;
  r_db : Adapter;
  r_migrations : list Migration
}.

Definition NewMigrationRunner (tracker db : Adapter) (migrations : list Migration) : MigrationRunner :=
  mkRunner tracker db (merge_sort name_le migrations).

Definition err_opt {A} (r : error + A) : option error := match r with inl e => Some e | inr _ => None end.

Definition runMigration (m : Migration) (db tracker : sqlDB) : SQL (option error) :=
  r ← m_Up m db;
  match r with
  | Some e => mret (Some (Wrapf ("migration " +:+ m_Name m +:+ " failed") e))
  | None =>
      r ← MarkMigrationApplied tracker (m_Name m);
      mret (match r with
            | inl e => Some (Wrapf ("failed to mark migration " +:+ m_Name m +:+ " as applied") e)
            | inr _ => None
            end)
  end.

(** The deferred rollback of a body that panics: it runs, and the panic goes
    on. *)
Fixpoint on_panic {E A} (t : prog E unit) (p : prog E A) : prog E A :=
  match p with
  | Done Panic => prog_bind_ (fun _ => Done Panic) t
  | Done o => Done o
  | Call e k => Call e (fun x => on_panic t (k x))
  end.

(** The transaction of [apply]. The deferred function rolls back unless the
    commit was reached. *)
Definition apply_in_tx (db : sqlDB) (m : Migration) : SQL (option error) :=
  b ← call_ Begin;
  match b with
  | inl e => mret (Some (Wrapf ("failed to begin transaction for migration " +:+ m_Name m) e))
  | inr t =>
      r ← on_panic (_ ← call_ (RollbackTx t); mret ()) (let tx := mkSqlDB (InTx t) (d_dialect db) in runMigration m tx tx);
      match r with
      | Some e =>
          rb ← call_ (RollbackTx t);
          mret (Some (match rb with Some _ => Wrapf "rollback failed" e | None => e end))
      | None =>
          c ← call_ (CommitTx t);
          mret (match c with
                | Some e => Some (Wrapf ("failed to commit migration " +:+ m_Name m) e)
                | None => None
                end)
      end
  end.

(** An adapter without transactions, or another tracker: two steps. *)
Definition transactional (r : MigrationRunner) : bool := ad_transactor (r_db r) && sameAdapter (r_db r) (r_tracker r).

Definition apply (r : MigrationRunner) (m : Migration) : SQL (option error) :=
  if negb (transactional r) then runMigration m (ad_db (r_db r)) (ad_db (r_tracker r))
  else apply_in_tx (ad_db (r_db r)) m.

(** The loop: [ran] is [result.Ran] so far. *)
Fixpoint run_loop (runner : MigrationRunner) (applied : list string) (ms : list Migration) (ran : list string) :
    SQL (list string * option error) :=
  match ms with
  | [] => mret (ran, None)
  | m :: ms =>
      if decide (m_Name m ∈ applied) then run_loop runner applied ms ran
      else
        r ← apply runner m;
        match r with
        | Some e => mret (ran, Some e)
        | None => run_loop runner applied ms (ran ++ [m_Name m])
        end
  end.

Definition RunPending (r : MigrationRunner) : SQL (MigrationResult * option error) :=
  let total := zlen (r_migrations r) in
  a ← GetAppliedMigrations (ad_db (r_tracker r));
  match a with
  | inl e => mret (mkResult total 0 [], Some (Wrapf "failed to get applied migrations" e))
  | inr applied =>
      l ← run_loop r applied (r_migrations r) [];
      mret (mkResult total (zlen applied) l.1, l.2)
  end.

(** ** Transactions of the database *)

(** Calls inside one transaction, and the calls that touch no table. *)
Definition in_tx (t : nat) {X} (e : sql_port X) : Prop :=
  match e with
  | Exec ex _ _ => ex = InTx t
  | Query ex _ _ => ex = InTx t
  | QueryRow _ ex _ _ => ex = InTx t
  | NextSavepoint | NewUUID | SqlNow => True
  | _ => False
  end.

(** A migration that works through the adapter it is given. *)
Definition confined (m : Migration) : Prop :=
  forall t d, invoked (@in_tx t) (m_Up m (mkSqlDB (InTx t) d)).

Definition mark_row : string := "INSERT INTO migrations (name, applied_at) VALUES (?, ?)".
Definition select_migrations : string := "SELECT name FROM migrations ORDER BY name".

Class TxDatabase (W : Type) := {
  x_step : forall X, sql_port X -> W -> X * W;
  x_state : Type;
  committed : W -> x_state;
  names : x_state -> gset string;
  idle : W -> Prop;
  (** what the open transaction would commit *)
  working : nat -> W -> option x_state;
  x_begin w :
    idle w ->
    match x_step _ Begin w with
    | (inr t, w') => working t w' = Some (committed w) /\ committed w' = committed w
    | (inl _, w') => idle w' /\ committed w' = committed w
    end;
  (** a statement inside the transaction changes its working state only *)
  x_inside t w {X} (e : sql_port X) :
    in_tx t e -> is_Some (working t w) ->
    committed (x_step _ e w).2 = committed w /\ is_Some (working t (x_step _ e w).2);
  (** the clock is no statement *)
  x_clock t w : working t (x_step _ SqlNow w).2 = working t w;
  (** the insert of a tracker row *)
  x_mark t w c d name now :
    working t w = Some c ->
    match x_step _ (Exec (InTx t) (Rebind d mark_row) [VString name; VTime now]) w with
    | (inr _, w') => exists c', working t w' = Some c' /\ names c' = {[name]} ∪ names c
    | (inl _, _) => True
    end;
  (** a failed commit ends the transaction; a rollback ends it in any case *)
  x_commit t w c :
    working t w = Some c ->
    match x_step _ (CommitTx t) w with
    | (None, w') => idle w' /\ committed w' = c
    | (Some _, w') => idle w' /\ committed w' = committed w
    end;
  x_rollback t w :
    is_Some (working t w) ->
    let w' := (x_step _ (RollbackTx t) w).2 in idle w' /\ committed w' = committed w;
  (** reading the tracker outside transactions *)
  x_applied w :
    idle w ->
    let r := x_step _ (Query RootPool select_migrations []) w in
    idle r.2 /\ committed r.2 = committed w /\
    forall rows l, r.1 = inr rows -> scan_names (rows_scans rows) (rows_Err rows) = inr l ->
      list_to_set l = names (committed w)
}.

(** An [Up] that keeps the tracker rows of earlier migrations. *)
Definition orderly `{TxDatabase W} (m : Migration) : Prop :=
  forall t d w c c', working t w = Some c ->
    working t (run x_step (m_Up m (mkSqlDB (InTx t) d)) w).2 = Some c' -> names c ⊆ names c'.

Lemma run_on_panic {E A W} (h : forall X, E X -> W -> X * W) (t : prog E unit) (p : prog E A) w :
  run h (on_panic t p) w =
  let r := run h p w in
  match r.1 with
  | Panic => run_then (run h t r.2) (fun _ w' => (Panic, w'))
  | o => (o, r.2)
  end.
Proof.
  revert w. induction p as [[a| |]|X e k IH]; intros w; cbn [on_panic run fst snd]; [done| |done|apply IH].
  exact (run_bind h (fun _ => Done Panic) t w).
Qed.

Section Atomic.
Context `{TxDatabase W}.

Lemma run_inside {A} t (p : SQL A) w :
  invoked (@in_tx t) p -> is_Some (working t w) ->
  committed (run x_step p w).2 = committed w /\ is_Some (working t (run x_step p w).2).
Proof.
  intros Hp Hw. refine (run_invariant x_step (@in_tx t) (fun w' => committed w' = committed w /\ is_Some (working t w')) p w _ Hp _).
  - intros X e w1 He [Hc Hs]. destruct (x_inside t w1 e He Hs) as [Hc' Hs']. by rewrite Hc'.
  - done.
Qed.

Lemma Mark_inside t d name : invoked (@in_tx t) (MarkMigrationApplied (mkSqlDB (InTx t) d) name).
Proof.
  apply invoked_mbind; [by apply invoked_call|]. intros now. apply invoked_mbind; [by apply invoked_call|by intros []].
Qed.

Lemma runMigration_inside t d m : confined m -> invoked (@in_tx t) (runMigration m (mkSqlDB (InTx t) d) (mkSqlDB (InTx t) d)).
Proof.
  intros Hm. apply invoked_mbind; [apply Hm|]. intros [e|]; [done|].
  apply invoked_mbind; [apply Mark_inside|]. by intros [].
Qed.

(** A tracker row that was written is in the working state. *)
Lemma Mark_row t d name w c u :
  working t w = Some c ->
  (run x_step (MarkMigrationApplied (mkSqlDB (InTx t) d) name) w).1 = Ret (inr u) ->
  exists c', working t (run x_step (MarkMigrationApplied (mkSqlDB (InTx t) d) name) w).2 = Some c' /\
    names c' = {[name]} ∪ names c.
Proof.
  intros Hw. unfold MarkMigrationApplied, exec_only. prun. cbn [d_exec d_dialect].
  pose proof (x_clock t w) as Hc. rewrite Hw in Hc.
  pose proof (x_mark t (x_step _ SqlNow w).2 c d name (x_step _ SqlNow w).1 Hc) as Hm. unfold mark_row in Hm.
  destruct (x_step _ (Exec _ _ _) _) as [[e|n] w']; cbn [fst snd]; prun; [done|]. intros _. exact Hm.
Qed.

Lemma runMigration_done t d m w c w' :
  confined m -> orderly m -> working t w = Some c ->
  run x_step (runMigration m (mkSqlDB (InTx t) d) (mkSqlDB (InTx t) d)) w = (Ret None, w') ->
  exists c', working t w' = Some c' /\ {[m_Name m]} ∪ names c ⊆ names c'.
Proof.
  intros Hm Ho Hw. unfold runMigration. prun.
  pose proof (run_inside t _ w (Hm t d) (mk_is_Some _ _ Hw)) as [_ [c1 Hc1]].
  pose proof (Ho t d w c c1 Hw Hc1) as Hsub.
  destruct (run x_step (m_Up m _) w) as [[r| |] w1]; prun; [|done|done]. cbn [snd] in Hc1.
  destruct r as [e|]; prun; [done|].
  pose proof (Mark_row t d (m_Name m) w1 c1) as Hr.
  destruct (run x_step (MarkMigrationApplied _ _) w1) as [[[e|u]| |] w2]; prun; try done.
  intros [= <-]. destruct (Hr u Hc1 eq_refl) as (c2 & Hc2 & Hn). exists c2. split; [done|]. set_solver.
Qed.

(** One migration: done as a whole, or not at all. *)
Lemma apply_atomic db m w :
  idle w -> confined m -> orderly m ->
  let r := run x_step (apply_in_tx db m) w in
  idle r.2 /\ r.1 <> OutOfFuel /\
  ((r.1 = Ret None /\ {[m_Name m]} ∪ names (committed w) ⊆ names (committed r.2)) \/
   (r.1 <> Ret None /\ committed r.2 = committed w)).
Proof.
  intros Hi Hm Ho. unfold apply_in_tx. cbv zeta. prun. pose proof (x_begin w Hi) as Hb.
  destruct (x_step _ Begin w) as [[e|t] w1]; destruct Hb as [Hb Hc]; cbn [fst snd]; prun.
  { split; [done|]. split; [done|]. by right. }
  rewrite run_on_panic. cbv zeta.
  pose proof (run_inside t _ w1 (runMigration_inside t (d_dialect db) m Hm) (mk_is_Some _ _ Hb)) as [Hc2 Hs2].
  pose proof (run_invoked x_step _ _ w1 (runMigration_inside t (d_dialect db) m Hm)) as Hf.
  pose proof (runMigration_done t (d_dialect db) m w1 (committed w)) as Hd.
  destruct (run x_step (runMigration m _ _) w1) as [[[e|]| |] w2]; cbn [fst snd] in *; prun; [| | |done].
  - destruct (x_rollback t w2 Hs2) as [Hi' Hc']. cbn [fst snd].
    split; [done|]. split; [done|]. right. split; [done|]. congruence.
  - destruct (Hd w2 Hm Ho Hb eq_refl) as (c' & Hc' & Hn). pose proof (x_commit t w2 c' Hc') as Hcm.
    destruct (x_step _ (CommitTx t) w2) as [[e|] w3]; destruct Hcm as [Hi' Hc3]; cbn [fst snd]; (split; [done|]); (split; [done|]).
    + right. split; [done|]. congruence.
    + left. split; [done|]. by rewrite Hc3.
  - destruct (x_rollback t w2 Hs2) as [Hi' Hc']. cbn [fst snd].
    split; [done|]. split; [done|]. right. split; [done|]. congruence.
Qed.

(** A state reached from another by one successful application. *)
Definition applies (db : sqlDB) (m : Migration) (c c' : x_state) : Prop :=
  exists w1 w2, idle w1 /\ committed w1 = c /\ run x_step (apply_in_tx db m) w1 = (Ret None, w2) /\ committed w2 = c'.

Inductive history (db : sqlDB) : x_state -> list Migration -> x_state -> Prop :=
| history_nil c : history db c [] c
| history_cons m ms c c1 c2 : applies db m c c1 -> history db c1 ms c2 -> history db c (m :: ms) c2.

Definition pending (applied : gset string) (ms : list Migration) : list Migration :=
  filter (fun m => m_Name m ∉ applied) ms.

(** What a run of the loop amounts to: the migrations [done] of those to do. *)
Definition outcome_of (db : sqlDB) (todo : list Migration) (ran : list string) (c : x_state)
    (r : outcome (list string * option error) * W) : Prop :=
  exists done rest, todo = done ++ rest /\ history db c done (committed r.2) /\
    idle r.2 /\ (list_to_set (m_Name <$> done) ∪ names c ⊆ names (committed r.2)) /\
    match r.1 with
    | Ret (l, None) => l = ran ++ (m_Name <$> done) /\ rest = []
    | Ret (l, Some _) => l = ran ++ (m_Name <$> done)
    | Panic => True
    | OutOfFuel => False
    end.

Lemma run_loop_outcome r applied ms ran w :
  transactional r = true -> idle w -> Forall (fun m => confined m /\ orderly m) ms ->
  outcome_of (ad_db (r_db r)) (pending (list_to_set applied) ms) ran (committed w) (run x_step (run_loop r applied ms ran) w).
Proof.
  intros Ht Hi Hms. set (db := ad_db (r_db r)).
  assert (Ea : forall m, apply r m = apply_in_tx db m) by (intros m; unfold apply; by rewrite Ht).
  revert ran w Hi. induction Hms as [|m ms [Hm Ho] _ IH]; intros ran w Hi; cbn [run_loop].
  - prun. exists [], []. split_and!; try done; [constructor|cbn; set_solver|by rewrite app_nil_r].
  - unfold pending. rewrite filter_cons. destruct (decide (m_Name m ∈ applied)) as [Hin|Hin].
    + rewrite decide_False by (rewrite elem_of_list_to_set; tauto). by apply IH.
    + rewrite decide_True by (by rewrite elem_of_list_to_set). rewrite Ea. prun.
      destruct (apply_atomic db m w Hi Hm Ho) as (Hi1 & Hf & Hr).
      assert (Hnone : (run x_step (apply_in_tx db m) w).1 <> Ret None -> committed (run x_step (apply_in_tx db m) w).2 = committed w)
        by (intros Hne; destruct Hr as [[? _]|[_ ?]]; done).
      destruct (run x_step (apply_in_tx db m) w) as [[[e|]| |] w1] eqn:Ha; cbn [fst snd] in *; prun; [| | |done].
      * exists [], (m :: pending (list_to_set applied) ms). cbn [fst snd]. rewrite (Hnone ltac:(done)).
        split_and!; [done|constructor|done|cbn; set_solver|by rewrite app_nil_r].
      * destruct Hr as [[_ Hn]|[? _]]; [|done].
        destruct (IH (ran ++ [m_Name m]) w1 Hi1) as (dn & rest & Hp & Hh & Hi2 & Hs & Hres).
        exists (m :: dn), rest. rewrite <- (assoc_L (++)) in Hres. rewrite fmap_cons. cbn [list_to_set].
        split_and!; [cbn; by f_equal| |done| |done].
        -- econstructor; [|exact Hh]. exists w, w1. split_and!; done.
        -- set_solver.
      * exists [], (m :: pending (list_to_set applied) ms). cbn [fst snd]. rewrite (Hnone ltac:(done)).
        split_and!; [done|constructor|done|cbn; set_solver|done].
Qed.

(** C9. [RunPending] on a database with transactions: the migrations not yet
    recorded are applied in the order of their names, each as a whole with its
    tracker row; the ones reported as run are exactly those whose effect is
    committed, a failing one leaves the committed state as it was and ends the
    run, also when its [Up] panics. When no error is returned every migration
    is recorded. *)
Theorem run_pending_history d ref migrations w :
  idle w -> Forall (fun m => confined m /\ orderly m) migrations ->
  let adapter := mkAdapter ref (newSQLDB d) true in
  let ms := r_migrations (NewMigrationRunner adapter adapter migrations) in
  let todo := pending (names (committed w)) ms in
  let o := run x_step (RunPending (NewMigrationRunner adapter adapter migrations)) w in
  Sorted name_le ms /\ ms ≡ₚ migrations /\ idle o.2 /\
  exists done, done `prefix_of` todo /\ history (newSQLDB d) (committed w) done (committed o.2) /\
    match o.1 with
    | Ret (res, err) =>
        mr_Ran res = m_Name <$> done /\
        (err = None -> done = todo /\ forall m, m ∈ migrations -> m_Name m ∈ names (committed o.2))
    | Panic => True
    | OutOfFuel => False
    end.
Proof.
  intros Hi Hall. cbv zeta. unfold RunPending, NewMigrationRunner. cbn [r_migrations r_db r_tracker ad_db].
  split; [apply Sorted_merge_sort; apply _|]. split; [apply merge_sort_Permutation|].
  assert (Hms : Forall (fun m => confined m /\ orderly m) (merge_sort name_le migrations))
    by (by rewrite merge_sort_Permutation).
  pose proof (merge_sort_Permutation name_le migrations) as Hperm. revert Hms Hperm.
  generalize (merge_sort name_le migrations) as ms. intros ms Hms Hperm.
  set (runner := mkRunner _ _ ms).
  assert (Htx : transactional runner = true) by (unfold transactional, sameAdapter; cbn; by rewrite bool_decide_eq_true_2).
  unfold GetAppliedMigrations, queryNames. prun. cbn [newSQLDB d_exec].
  destruct (x_applied w Hi) as (Hi1 & Hc1 & Hl). unfold select_migrations in Hl.
  destruct (x_step _ (Query RootPool _ []) w) as [[e|rows] w1]; cbn [fst snd] in *; prun.
  { split; [done|]. exists []. cbn [fst snd]. rewrite Hc1. split_and!; [apply prefix_nil|constructor|done|done]. }
  destruct (scan_names _ _) as [e|applied] eqn:Hs; prun.
  { split; [done|]. exists []. cbn [fst snd]. rewrite Hc1. split_and!; [apply prefix_nil|constructor|done|done]. }
  specialize (Hl rows applied eq_refl Hs). rewrite <- Hl.
  destruct (run_loop_outcome runner applied ms [] w1 Htx Hi1 Hms) as (dn & rest & Hp & Hh & Hi2 & Hn & Hr).
  destruct (run x_step (run_loop _ applied ms []) w1) as [[[l err]| |] w2]; cbn [fst snd] in *; prun; [| |done].
  - split; [done|]. exists dn. cbn [fst snd]. split; [by exists rest|]. split; [by rewrite <- Hc1|]. cbn [mr_Ran].
    destruct err as [e|]; [subst l; by split|]. destruct Hr as [-> ->]. split; [done|]. intros _.
    rewrite app_nil_r in Hp. split; [done|]. intros m Hm. rewrite <- Hperm in Hm. rewrite Hc1 in Hn.
    destruct (decide (m_Name m ∈ applied)) as [Ha|Ha].
    + apply Hn. rewrite <- Hl. set_solver.
    + apply Hn. apply elem_of_union_l. apply elem_of_list_to_set, list_elem_of_fmap. exists m. split; [done|].
      rewrite <- Hp. apply list_elem_of_filter. split; [by rewrite elem_of_list_to_set|done].
  - split; [done|]. exists dn. split_and!; [by exists rest|by rewrite <- Hc1|done].
Qed.
End Atomic.

(** ** Migrations of the repository work through their adapter *)

Lemma ddl_in_tx t vs {X} (e : sql_port X) : ddl_statement (InTx t) vs e -> in_tx t e.
Proof. destruct e; cbn; tauto. Qed.

Lemma run_all_invoked P (ps : list (SQL (option error))) : Forall (invoked P) ps -> invoked P (run_all ps).
Proof.
  induction 1 as [|p ps Hp _ IH]; cbn [run_all]; [done|]. apply invoked_mbind; [done|]. by intros [e|].
Qed.

Definition initialSchema (sprint_v : value -> string) : Migration :=
  mkMigration "00000000000000_initial_schema" (initialSchema_Up sprint_v).

Lemma schema_confined sprint_v t d op :
  simple_defaults sprint_v op -> invoked (@in_tx t) (schema_run sprint_v (mkSqlDB (InTx t) d) op).
Proof.
  intros Hs. eapply invoked_mono; [|exact (schema_run_ddl sprint_v (mkSqlDB (InTx t) d) op Hs)].
  intros X e. apply ddl_in_tx.
Qed.

Lemma initialSchema_confined sprint_v : confined (initialSchema sprint_v).
Proof.
  intros t d. apply run_all_invoked. apply Forall_app. rewrite !Forall_fmap. split; apply Forall_forall.
  - intros def Hd. apply (schema_confined sprint_v t d (SCreateTable def)). cbn.
    repeat (apply elem_of_cons in Hd as [->|Hd]; [by repeat constructor|]). by apply elem_of_nil in Hd.
  - intros def _. by apply (schema_confined sprint_v t d (SCreateIndex def)).
Qed.

(** Backend-specific statements stay inside the migration's transaction too. *)
Lemma ExecuteMigrationSQL_inside t d ddl : invoked (@in_tx t) (ExecuteMigrationSQL t d ddl).
Proof.
  assert (Hfin : forall c name done, invoked (@in_tx t) (finish c (sqlSavepoint t name d done))).
  { intros c name dn. eapply invoked_mono; [|apply finish_calls]. intros X e. destruct e; cbn; tauto. }
  apply (invoked_mbind_post _ (fun r => forall x, r = inr x -> exists name, x = sqlSavepoint t name d false)).
  - apply invoked_mbind; [by apply invoked_call|]. intros n. apply invoked_mbind; [by apply invoked_call|]. by intros [].
  - apply (results_mbind (fun _ => True)); [by apply results_call|]. intros n _.
    apply (results_mbind (fun _ => True)); [by apply results_call|]. intros [e|r] _ x; intros [= <-]. by eexists.
  - intros [e|x] Hx; [done|]. destruct (Hx x eq_refl) as [name ->].
    induction (match d with sqliteDialect => ddl_SQLite ddl | postgresDialect => ddl_Postgres ddl end) as [|st sts IH]; cbn [exec_statements].
    + apply invoked_mbind; [apply (Hfin true)|done].
    + apply invoked_mbind; [by apply invoked_call|]. intros [e|r]; [|exact IH].
      apply invoked_mbind; [apply (Hfin false)|]. by intros [[]].
Qed.

(** ** A concrete database: a set of names, and the copy a transaction works on *)

Definition Mini : Type := gset string * option (gset string).

Definition mini_step (X : Type) (e : sql_port X) (w : Mini) : X * Mini :=
  match e in sql_port X return X * Mini with
  | Exec (InTx 0) q args =>
      match args, w.2 with
      | VString name :: _, Some c => (inr (inr 1), (w.1, Some ({[name]} ∪ c)))
      | _, _ => (inr (inr 0), w)
      end
  | Exec _ _ _ => (inl (Errorf "no such executor"), w)
  | Query _ _ _ => (inr (mkRows (inr ["name"%string]) ((fun n => inr [VString n]) <$> elements w.1) None), w)
  | QueryRow _ _ _ _ => (inl ErrNoRows, w)
  | Begin => match w.2 with None => (inr 0%nat, (w.1, Some w.1)) | Some _ => (inl (Errorf "busy"), w) end
  | CommitTx _ => match w.2 with Some c => (None, (c, None)) | None => (Some ErrTxDone, w) end
  | RollbackTx _ => (None, (w.1, None))
  | NextSavepoint => (1, w)
  | NewUUID => (""%string, w)
  | SqlNow => (0, w)
  end.

Lemma mini_names l : scan_names ((fun n => inr [VString n]) <$> l) None = inr l.
Proof. induction l as [|n l IH]; [done|]. cbn. cbn in IH. by rewrite IH. Qed.

#[export] Program Instance mini_db : TxDatabase Mini := {|
  x_step := mini_step;
  x_state := gset string;
  committed w := w.1;
  names c := c;
  idle w := w.2 = None;
  working t w := if decide (t = 0%nat) then w.2 else None
|}.
Next Obligation. intros [c o] Hi. cbn in *. subst o. cbn. done. Qed.
Next Obligation.
  intros t [c o] X e He Hw. cbn in Hw. destruct (decide (t = 0%nat)) as [->|]; [|by destruct Hw].
  destruct e as [ex q args| | | | | | | |]; cbn in He |- *; try done. subst ex. cbn.
  destruct Hw as [c' Hw]. cbn in Hw. subst o.
  destruct args as [|[] args]; cbn; split; try done; by eexists.
Qed.
Next Obligation. done. Qed.
Next Obligation.
  intros t [c o] c' d name now Hw. cbn in Hw. destruct (decide (t = 0%nat)) as [->|]; [|done]. cbn in Hw. subst o.
  cbn. by eexists.
Qed.
Next Obligation.
  intros t [c o] c' Hw. cbn in Hw. destruct (decide (t = 0%nat)) as [->|]; [|done]. cbn in Hw. subst o. done.
Qed.
Next Obligation. intros t [c o] Hw. done. Qed.
Next Obligation.
  intros [c o] Hi. cbn in *. split_and!; [done|done|]. intros rows l [= <-]. cbn [rows_scans rows_Err].
  rewrite mini_names. intros [= <-]. apply list_to_set_elements_L.
Qed.

(** Two migrations, the second of which panics: the first is kept. *)
Definition fine : Migration := mkMigration "001_fine" (fun _ => mret None).
Definition broken : Migration := mkMigration "002_broken" (fun _ => lift Panic).

Definition mini_adapter : Adapter := mkAdapter 0 (newSQLDB sqliteDialect) true.

Lemma run_pending_history_witness :
  let o := run mini_step (RunPending (NewMigrationRunner mini_adapter mini_adapter [broken; fine])) (∅, None) in
  o = (Panic, ({["001_fine"%string]}, None)) /\
  exists done, done `prefix_of` [fine; broken] /\ history (newSQLDB sqliteDialect) ∅ done {["001_fine"%string]}.
Proof.
  assert (Ho : run mini_step (RunPending (NewMigrationRunner mini_adapter mini_adapter [broken; fine])) (∅, None) =
    (Panic, ({["001_fine"%string]}, None))) by (vm_compute; reflexivity).
  cbv zeta. split; [exact Ho|].
  assert (Hall : Forall (fun m => confined m /\ orderly (H := mini_db) m) [broken; fine]).
  { Transparent lift. apply Forall_cons. split; [|apply Forall_cons; split; [|constructor]]; split.
    - by intros t d.
    - intros t d w c c' Hw Hw'. cbn in Hw, Hw'. rewrite Hw in Hw'. by simplify_eq.
    - by intros t d.
    - intros t d w c c' Hw Hw'. cbn in Hw, Hw'. rewrite Hw in Hw'. by simplify_eq. }
  destruct (run_pending_history (H := mini_db) sqliteDialect 0 [broken; fine] (∅, None) eq_refl Hall) as (_ & _ & _ & dn & Hp & Hh & _).
  change (x_step) with mini_step in Hh. fold mini_adapter in Hh. rewrite Ho in Hh. exists dn. split; [|exact Hh].
  vm_compute in Hp |- *. exact Hp.
Defined.

(** Without transactions, here because the rows go to another tracker, a
    migration that fails after its first statement leaves that statement's
    effect, and no row: it is run again at the next start. *)
Definition half_done : Migration := mkMigration "003_half" (fun db =>
  _ ← MarkMigrationApplied db "side effect"; mret (Some (Errorf "second statement"))).

Lemma two_steps_not_atomic :
  let other := mkAdapter 1 (mkSqlDB (InTx 0) sqliteDialect) true in
  let o := run mini_step (RunPending (NewMigrationRunner mini_adapter other [half_done])) (∅, Some ∅) in
  exists res err, o = (Ret (res, Some err), (∅, Some {["side effect"%string]})) /\ mr_Ran res = [].
Proof. do 2 eexists. split; [vm_compute; reflexivity|reflexivity]. Qed.
