(* ===== verification/Console.v ===== *)
(** * The operator's console and the boot hooks (inbound/console.go, services/boot_hooks.go)

    The console reads commands from standard input until it ends: create a user,
    ban one, revoke a ban, run the boot hooks again. Boot hooks are game code the
    server runs at start; here each one is a call that may fail.

    [console_survives]: every line is executed, in order, whatever went wrong
    before, and the console never panics. [boot_hooks_joined]: every hook runs,
    and every failure is reported. *)

From Stdlib Require Import ZArith Lia.
From Stdlib Require Import Strings.Byte.
From stdpp Require Import base list sets strings option.
From S2P Require Import Prelude GoFmt Utf8 GoText LValue LExtract LParse LRoundtrip Smus Effects Ports SqlText SqlBuilder.

Open Scope Z_scope.

(** ** Boot hooks (ports/boot_hook.go) *)

Record BootHookEnv := mkHookEnv { env_ScriptsPath : string; env_QueryBuilder : sqlQueryBuilder }.

(** A hook's function is known by an index. *)
Record BootHook := mkBootHook { hook_Name : string; hook_Run : nat }.

Inductive console_port : Type -> Type :=
| CDb {X} (op : db_op X) : console_port (error + X)
| CHash (password : string) : console_port (error + string)
| CHook (run : nat) (env : BootHookEnv) : console_port (option error)
| CPrint (text : string) : console_port unit
| CInfo (msg : string) (fields : list (string * string)) : console_port unit.

Abbreviation CM := (prog console_port).

(** [errors.Join]: the list of errors, nil when it is empty. *)
Definition hook_error (h : BootHook) (err : error) : error := Wrapf ("boot hook " +:+ hook_Name h) err.

Fixpoint RunBootHooks (hooks : list BootHook) (env : BootHookEnv) : CM (list error) :=
  match hooks with
  | [] => mret []
  | h :: hooks =>
      r ← call_ (CHook (hook_Run h) env);
      errs ← RunBootHooks hooks env;
      mret (match r with Some err => hook_error h err :: errs | None => errs end)
  end.

(** ** The console *)

Record Console := mkConsole {
  con_defaultUserLevel : Z;
  con_bootHooks : list BootHook;
  con_hookEnv : BootHookEnv
}.

Definition WithBootHooks (c : Console) (hooks : list BootHook) (env : BootHookEnv) : Console :=
  mkConsole (con_defaultUserLevel c) hooks env.

Section Console.
Context (error_text : error -> string) (c : Console).

Definition print_ (text : string) : CM unit := call_ (CPrint text).
Definition str (b : bytes) : string := string_of_bytes b.

(** [errors.Join(errs...).Error()] *)
Definition join_text (errs : list error) : string := String.concat (String (Ascii.ascii_of_nat 10) EmptyString) (error_text <$> errs).

Definition hashPassword (password : string) : CM (error + string) := call_ (CHash password).

Definition con_createUser (args : list bytes) : CM unit :=
  match args with
  | username :: password :: _ =>
      r ← hashPassword (str password);
      match r with
      | inl err => print_ ("Error hashing password: " +:+ error_text err)
      | inr hash =>
          r ← call_ (CDb (CreateUser (str username) hash (con_defaultUserLevel c)));
          match r with
          | inl err => print_ ("Error creating user: " +:+ error_text err)
          | inr _ =>
              _ ← print_ ("User '" +:+ str username +:+ "' created successfully.");
              call_ (CInfo "User created via console" [("username", str username)])
          end
      end
  | _ => print_ "Usage: create user <username> <password>"
  end.

Definition ban_reason (words : list bytes) : string :=
  match words with
  | [] => "banned via console"
  | _ => String.concat " " (str <$> words)
  end.

Definition con_banUser (args : list bytes) : CM unit :=
  match args with
  | username :: words =>
      let reason := ban_reason words in
      r ← call_ (CDb (GetUser (str username)));
      match r with
      | inl _ => print_ ("Error: user '" +:+ str username +:+ "' not found.")
      | inr user =>
          r ← call_ (CDb (CreateBan (Some (u_ID user)) None reason None));
          match r with
          | inl err => print_ ("Error banning user: " +:+ error_text err)
          | inr _ =>
              _ ← print_ ("User '" +:+ str username +:+ "' banned. Reason: " +:+ reason);
              call_ (CInfo "User banned via console" [("username", str username); ("reason", reason)])
          end
      end
  | [] => print_ "Usage: ban user <username> [reason]"
  end.

(** A ban that is nil without an error would be dereferenced. *)
Definition con_revokeBan (args : list bytes) : CM unit :=
  match args with
  | username :: _ =>
      r ← call_ (CDb (GetUser (str username)));
      match r with
      | inl _ => print_ ("Error: user '" +:+ str username +:+ "' not found.")
      | inr user =>
          r ← call_ (CDb (GetActiveBanByUserID (u_ID user)));
          match r with
          | inl _ => print_ ("Error: no active ban for user '" +:+ str username +:+ "'.")
          | inr None => lift Panic
          | inr (Some ban) =>
              r ← call_ (CDb (RevokeBan (ban_ID ban)));
              match r with
              | inl err => print_ ("Error revoking ban: " +:+ error_text err)
              | inr _ =>
                  _ ← print_ ("Ban revoked for user '" +:+ str username +:+ "'.");
                  call_ (CInfo "Ban revoked via console" [("username", str username)])
              end
          end
      end
  | [] => print_ "Usage: revoke ban <username>"
  end.

Definition con_reload : CM unit :=
  match con_bootHooks c with
  | [] => print_ "No boot hooks registered."
  | hooks =>
      errs ← RunBootHooks hooks (con_hookEnv c);
      match errs with
      | [] => print_ ("Ran " +:+ Itoa (zlen hooks) +:+ " boot hook(s).")
      | _ => print_ ("Error reloading: " +:+ join_text errs)
      end
  end.

Definition con_help : CM unit :=
  _ ← print_ "Available commands:";
  _ ← print_ "  create user <username> <password>  - Create a new user";
  _ ← print_ "  ban user <username> [reason]        - Ban a user";
  _ ← print_ "  revoke ban <username>               - Revoke active ban for a user";
  _ ← print_ "  reload                              - Re-run the boot hooks";
  print_ "  help                                - Show this help".

(** The first two words are the command. *)
Definition command (parts : list bytes) : bytes :=
  match parts with
  | w :: w2 :: _ => w ++ [Byte.x20] ++ w2
  | [w] => w
  | [] => []
  end.

Definition con_execute (line : bytes) : CM unit :=
  match Fields line with
  | [] => mret tt
  | parts =>
      let cmd := command parts in
      let low := ToLower cmd in
      if decide (low = bytes_of_string "create user") then args ← lift (slice_from parts 2); con_createUser args
      else if decide (low = bytes_of_string "ban user") then args ← lift (slice_from parts 2); con_banUser args
      else if decide (low = bytes_of_string "revoke ban") then args ← lift (slice_from parts 2); con_revokeBan args
      else if decide (low = bytes_of_string "reload") then con_reload
      else if decide (low = bytes_of_string "help") then con_help
      else if decide (low = bytes_of_string "quit") then print_ "Use Ctrl+C to stop the server."
      else if decide (low = bytes_of_string "exit") then print_ "Use Ctrl+C to stop the server."
      else print_ ("Unknown command: " +:+ str cmd +:+ ". Type 'help' for available commands.")
  end.

Definition con_line (scanned : bytes) : CM unit :=
  match TrimSpace scanned with
  | [] => print_ "> "
  | line => _ ← con_execute line; print_ "> "
  end.

Fixpoint con_loop (lines : list bytes) : CM unit :=
  match lines with
  | [] => mret tt
  | l :: lines => _ ← con_line l; con_loop lines
  end.

(** [Run] on everything that standard input delivers. *)
Definition con_Run (input : bytes) : CM unit := _ ← print_ "> "; con_loop (scan_lines [] input).
End Console.

(** ** No panics *)

Section Safe.
Context (error_text : error -> string) (c : Console).
Context {W : Type} (h : forall X, console_port X -> W -> X * W).

Definition finishes {A} (p : CM A) : Prop := forall w, exists a w', run h p w = (Ret a, w').

Lemma finishes_call {X} (e : console_port X) : finishes (call_ e).
Proof. intros w. rewrite run_call. by eexists _, _. Qed.

Lemma finishes_ret {A} (a : A) : finishes (mret a).
Proof. intros w. by eexists _, _. Qed.

Lemma finishes_bind {A B} (p : CM A) (f : A -> CM B) : finishes p -> (forall a, finishes (f a)) -> finishes (p ≫= f).
Proof.
  intros Hp Hf w. rewrite run_mbind. destruct (Hp w) as (a & w' & ->). rewrite run_then_Ret. apply Hf.
Qed.

Lemma finishes_answer {X B} (e : console_port X) (f : X -> CM B) :
  (forall w, finishes (f (h _ e w).1)) -> finishes (call_ e ≫= f).
Proof. intros Hf w. rewrite run_mbind, run_call, run_then_Ret. apply Hf. Qed.

Ltac finish :=
  repeat first
    [ progress intros | assumption | apply finishes_ret | apply finishes_call | apply finishes_bind
    | match goal with |- finishes (match ?x with _ => _ end) => destruct x end ].

Lemma RunBootHooks_finishes hooks env : finishes (RunBootHooks hooks env).
Proof. induction hooks as [|x hooks IH]; cbn [RunBootHooks]; finish. Qed.

Context (Hban : forall id w, (h _ (CDb (GetActiveBanByUserID id)) w).1 <> inr None).

Lemma revokeBan_finishes args : finishes (con_revokeBan error_text args).
Proof.
  unfold con_revokeBan, print_. destruct args as [|u args]; [finish|]. apply finishes_bind; [finish|].
  intros [err|user]; [finish|]. apply finishes_answer. intros w. specialize (Hban (u_ID user) w).
  destruct (h _ _ w).1 as [err|[ban|]]; [finish..|done].
Qed.

(** A command of two words has two words. *)
Lemma two_words parts low :
  (forall w, w ∈ parts -> Byte.x20 ∉ w) -> ToLower (command parts) = low -> Byte.x20 ∈ low ->
  exists args, slice_from parts 2 = Ret args.
Proof.
  intros Hw <- Hin. apply ToLower_space in Hin. destruct parts as [|w [|w2 rest]].
  - by apply not_elem_of_nil in Hin.
  - exfalso. apply (Hw w); [set_solver|done].
  - eexists. apply slice_ret; unfold zlen; cbn [length]; lia.
Qed.

Lemma execute_finishes line : finishes (con_execute error_text c line).
Proof.
  unfold con_execute, con_createUser, con_banUser, con_help, con_reload, print_, hashPassword.
  pose proof (Fields_words line) as Hw. destruct (Fields line) as [|w rest] eqn:E; [finish|]. set (parts := w :: rest) in *.
  assert (Htwo : forall low (f : list bytes -> CM unit), ToLower (command parts) = low -> Byte.x20 ∈ low ->
            (forall args, finishes (f args)) -> finishes (args ← lift (slice_from parts 2); f args)).
  { intros low f Hlow Hin Hf. destruct (two_words parts low) as [args ->]; [|done|done|].
    - intros v Hv. by apply Hw.
    - intros w0. rewrite run_mbind, run_lift, run_then_Ret. apply Hf. }
  assert (Hin : forall s, bool_decide (Byte.x20 ∈ bytes_of_string s) = true -> Byte.x20 ∈ bytes_of_string s).
  { intros s. apply bool_decide_eq_true. }
  case_decide as L1; [eapply Htwo; [exact L1|by apply Hin|finish]|].
  case_decide as L2; [eapply Htwo; [exact L2|by apply Hin|finish]|].
  case_decide as L3; [eapply Htwo; [exact L3|by apply Hin|intros; apply revokeBan_finishes]|].
  case_decide as L4; [|finish]. destruct (con_bootHooks c); [finish|].
  apply finishes_bind; [apply RunBootHooks_finishes|finish].
Qed.

Lemma line_finishes l : finishes (con_line error_text c l).
Proof.
  unfold con_line, print_. destruct (TrimSpace l) as [|b line]; [finish|].
  apply finishes_bind; [apply execute_finishes|finish].
Qed.

Lemma loop_runs lines : forall w,
  run h (con_loop error_text c lines) w = (Ret tt, foldl (fun w l => (run h (con_line error_text c l) w).2) w lines).
Proof.
  induction lines as [|l lines IH]; intros w; [done|]. cbn [con_loop foldl]. rewrite run_mbind.
  destruct (line_finishes l w) as ([] & w' & E). rewrite E, run_then_Ret. apply IH.
Qed.
End Safe.

(** The calls the console makes: users are created at the configured level, and
    bans are for a user, not for an address, without end. *)
Definition console_call (c : Console) {X} (e : console_port X) : Prop :=
  match e with
  | CDb (CreateUser _ _ level) => level = con_defaultUserLevel c
  | CDb (CreateBan (Some _) None _ None) => True
  | CDb (GetUser _) | CDb (GetActiveBanByUserID _) | CDb (RevokeBan _) => True
  | CDb _ => False
  | CHook r env => env = con_hookEnv c /\ exists x, x ∈ con_bootHooks c /\ hook_Run x = r
  | CHash _ | CPrint _ | CInfo _ _ => True
  end.

Section Calls.
Context (error_text : error -> string) (c : Console).

Ltac calls_ := repeat first
  [ progress intros | apply invoked_ret | apply invoked_call; exact I | apply invoked_call; reflexivity | apply invoked_mbind
  | match goal with |- invoked _ (match ?x with _ => _ end) => destruct x end ].

Lemma hooks_calls hooks : (forall x, x ∈ hooks -> x ∈ con_bootHooks c) ->
  invoked (@console_call c) (RunBootHooks hooks (con_hookEnv c)).
Proof.
  induction hooks as [|x hooks IH]; intros Hin; cbn [RunBootHooks]; [done|]. apply invoked_mbind.
  - apply invoked_call. split; [done|]. exists x. split; [apply Hin; set_solver|done].
  - intros r. apply invoked_mbind; [apply IH; set_solver|]. calls_.
Qed.

Lemma reload_calls : invoked (@console_call c) (con_reload error_text c).
Proof.
  unfold con_reload, print_. pose proof (hooks_calls (con_bootHooks c)) as H. destruct (con_bootHooks c); [calls_|].
  apply invoked_mbind; [by apply H|calls_].
Qed.

Lemma execute_calls line : invoked (@console_call c) (con_execute error_text c line).
Proof.
  unfold con_execute, con_createUser, con_banUser, con_revokeBan, con_help, print_, hashPassword.
  destruct (Fields line); [calls_|].
  repeat (case_decide; [try apply reload_calls|]); calls_;
    try (apply invoked_lift; unfold slice_from, slice; by try case_match); done.
Qed.

Lemma Run_calls input : invoked (@console_call c) (con_Run error_text c input).
Proof.
  unfold con_Run, print_. apply invoked_mbind; [by apply invoked_call|]. intros _.
  induction (scan_lines [] input) as [|l lines IH]; cbn [con_loop]; [calls_|].
  apply invoked_mbind; [|done]. unfold con_line, print_. destruct (TrimSpace l); [calls_|].
  apply invoked_mbind; [apply execute_calls|calls_].
Qed.
End Calls.

(** The console goes on. On any input, and whatever the database, the
    password hash and the boot hooks answer (as long as a ban that was found is
    not nil), the console executes the scanned lines one after the other, each on
    what the ones before left, and comes back to the prompt; a failed command
    ends with a message and nothing else. It makes no calls but those of its
    commands: users get the configured level, bans are for a user and without
    end, hooks are the registered ones with the environment of the start. *)
Theorem console_survives (error_text : error -> string) (c : Console) {W} (h : forall X, console_port X -> W -> X * W)
    input w :
  (forall id w, (h _ (CDb (GetActiveBanByUserID id)) w).1 <> inr None) ->
  run h (con_Run error_text c input) w =
    (Ret tt, foldl (fun w l => (run h (con_line error_text c l) w).2) (h _ (CPrint "> ") w).2 (scan_lines [] input)) /\
  invoked (@console_call c) (con_Run error_text c input).
Proof.
  intros Hban. split; [|apply Run_calls]. unfold con_Run, print_. prun. by apply loop_runs.
Qed.

(** The answers of the hooks, each run on what the ones before left. *)
Fixpoint hook_answers {W} (h : forall X, console_port X -> W -> X * W) (hooks : list BootHook) (env : BootHookEnv) (w : W) :
    list (option error) * W :=
  match hooks with
  | [] => ([], w)
  | x :: hooks =>
      let r := h _ (CHook (hook_Run x) env) w in
      let q := hook_answers h hooks env r.2 in (r.1 :: q.1, q.2)
  end.

Definition failures (hooks : list BootHook) (answers : list (option error)) : list error :=
  omap (fun xr => hook_error xr.1 <$> xr.2) (zip hooks answers).

Lemma RunBootHooks_run {W} (h : forall X, console_port X -> W -> X * W) hooks env : forall w,
  run h (RunBootHooks hooks env) w =
    (Ret (failures hooks (hook_answers h hooks env w).1), (hook_answers h hooks env w).2).
Proof.
  induction hooks as [|x hooks IH]; intros w; [done|]. cbn [RunBootHooks hook_answers]. prun. rewrite IH. prun.
  cbn [fst snd failures zip zip_with omap list_omap]. by destruct (h _ _ w).1.
Qed.

(** Boot hooks fail one by one. Every hook runs exactly once, in order, on
    what the ones before left, whether they failed or not; the returned error
    joins the failures in order, each with its hook's name, and is nil exactly
    when no hook failed; and [reload] reports just that. *)
Theorem boot_hooks_joined (error_text : error -> string) (c : Console) {W} (h : forall X, console_port X -> W -> X * W) w :
  let ran := hook_answers h (con_bootHooks c) (con_hookEnv c) w in
  let errs := failures (con_bootHooks c) ran.1 in
  run h (RunBootHooks (con_bootHooks c) (con_hookEnv c)) w = (Ret errs, ran.2) /\
  (errs = [] <-> Forall (fun r => r = None) ran.1) /\
  (con_bootHooks c <> [] ->
   (run h (con_reload error_text c) w).2 =
     (h _ (CPrint (match errs with
                   | [] => "Ran " +:+ Itoa (zlen (con_bootHooks c)) +:+ " boot hook(s)."
                   | _ => "Error reloading: " +:+ join_text error_text errs
                   end)) ran.2).2).
Proof.
  intros ran errs. split; [apply RunBootHooks_run|]. split.
  - unfold errs, ran. generalize w at 1 2. induction (con_bootHooks c) as [|x hooks IH]; intros w0; [by split|].
    cbn [hook_answers failures zip zip_with omap list_omap fst snd]. rewrite Forall_cons_iff, <- IH.
    destruct (h _ _ w0).1; cbn; [|naive_solver]. split; [done|]. by intros [? _].
  - intros Hne. unfold con_reload, print_. destruct (con_bootHooks c) as [|x hooks] eqn:E; [done|].
    rewrite run_mbind, RunBootHooks_run, run_then_Ret. fold ran errs. by destruct errs.
Qed.

(** A console over a database without users that accepts new ones; the world is
    what was printed. *)
Definition no_users {X} (op : db_op X) : error + X :=
  match op in db_op X return error + X with
  | CreateUser _ _ _ => inr tt
  | GetActiveBanByUserID _ => inl ErrBanNotFound
  | _ => inl ErrUserNotFound
  end.

Definition typed_in (X : Type) (e : console_port X) (w : list string) : X * list string :=
  match e in console_port X return X * list string with
  | CDb op => (no_users op, w)
  | CHash _ => (inr "hash", w)
  | CHook _ _ => (Some (Errorf "table missing"), w)
  | CPrint t => (tt, w ++ [t])
  | CInfo _ _ => (tt, w)
  end.

Definition a_console : Console :=
  mkConsole 20 [mkBootHook "catalog" 0] (mkHookEnv "scripts" (mkBuilder RootPool sqliteDialect)).

Definition two_commands : bytes :=
  bytes_of_string "Create User bob pw" ++ [Byte.x0a; Byte.x0a] ++ bytes_of_string "revoke ban al" ++ [Byte.x0d; Byte.x0a] ++ bytes_of_string "reload".

Definition short_text (err : error) : string := match err with Wrapf m (Errorf t) => m +:+ ": " +:+ t | _ => "" end.

Lemma console_survives_witness :
  (run typed_in (con_Run short_text a_console two_commands) []).1 = Ret tt /\
  (run typed_in (con_Run short_text a_console two_commands) []).2 =
    ["> "; "User 'bob' created successfully."; "> "; "> "; "Error: user 'al' not found."; "> ";
     "Error reloading: boot hook catalog: table missing"; "> "].
Proof.
  destruct (console_survives short_text a_console typed_in two_commands []) as [H _].
  - intros id w. discriminate.
  - rewrite H. split; [reflexivity|]. vm_compute. reflexivity.
Defined.
