(* ===== verification/LuaHost.v ===== *)
(** * Scripts and the functions the server gives them (outbound/lua_*.go)

    A script is any Lua code: a tree of the calls it makes on the [mus] table,
    with table operations of its own in between, protected calls, and the two
    calls that take a callback ([mus.db.transaction], [mus.cache.withLock]). A
    script that runs into its time limit ends in an error like any other.

    Each [mus] function is a computation over the server's ports that reads its
    arguments, may raise a Lua error, and changes the variables its closure
    captures: the builder [mus.db.table] goes through, the cache locks of the
    execution, the response. A Go panic in such a function is an error of the
    protected call around it. *)

From Stdlib Require Import ZArith Lia.
From Stdlib Require Import Strings.Byte.
From stdpp Require Import base list strings option gmap sorting.
From S2P Require Import Prelude GoFmt Utf8 Json LValue LExtract LParse LRoundtrip Smus Effects Protocol Ports.
From S2P Require Import Codec SessionStore Rfc3339 Cache TokenStore SqlText SqlBuilder SqlDB LuaValue Paths ScriptPath.

Open Scope Z_scope.

(** ** Ports of a script *)

Inductive log_level := LogDebug | LogInfo | LogWarn | LogError | LogFatal.

(** The values of log fields. *)
Inductive log_value := FieldBool (b : bool) | FieldNumber (f : Z) | FieldString (s : string).

Inductive lua_port : Type -> Type :=
| PSql {X} (e : sql_port X) : lua_port X
| PDb {X} (op : adapter_op X) : lua_port (error + X)
| PSess {X} (op : ss_op X) : lua_port (error + X)
| PToken {X} (e : token_port X) : lua_port X
| AcquireLock (ctx : option nat) (key : string) : lua_port (error + nat)
| ReleaseLock (lease : nat) : lua_port (option error)
| Publish (topic : string) (payload : bytes) : lua_port (option error)
| SendFrom (wireFrom routingSender recipientID subject : string) (content : LValue) : lua_port (option error)
| Mail (m : EmailMessage) : lua_port (option error)
| Compare (hash password : string) : lua_port (option error)
| Generate (password : string) : lua_port (error + string)
| Uuid : lua_port string
| TimeNow : lua_port Z
| Log (level : log_level) (msg : string) (fields : option (gmap string log_value)) : lua_port unit.

(** ** Errors of Lua

    [L.RaiseError] with its text, followed by a Go error or by the error of a
    protected call; the argument checks; [error(v)] of the script, the time
    limit included; a Go panic. *)
Inductive lua_error : Type :=
| Raised (msg : string)
| RaisedErr (msg : string) (err : error)
| RaisedBy (msg : string) (cause : lua_error)
| ArgError (n : Z) (msg : string)
| Thrown (v : luav)
| GoPanic.

(** ** The state of one execution *)

Section Host.
Context {T : Type} `{!LuaTables T} `{!MapOrder}.

Abbreviation heap := (gmap nat T).

Record Exec_state := mkExec {
  x_heap : heap;
  (** the query objects the script holds *)
  x_queries : gmap nat sqlQuery;
  (** [active] of lua_db_module.go, when it is a transaction *)
  x_active : option Tx;
  x_locks : gmap string nat;
  x_scopedDepth : Z;
  (** the lease whose context the interpreter runs under *)
  x_context : option nat;
  x_result : option LValue
}.

Definition HM (A : Type) : Type := Exec_state -> prog lua_port ((lua_error + A) * Exec_state).

#[global] Instance HM_ret : MRet HM := fun A a st => mret (inr a, st).
#[global] Instance HM_bind : MBind HM := fun A B f m st =>
  prog_bind_ (fun r => match r.1 with
                       | inl e => mret (inl e, r.2)
                       | inr a => f a r.2
                       end) (m st).

Definition raise {A} (e : lua_error) : HM A := fun st => mret (inl e, st).
Definition ask {X} (e : lua_port X) : HM X := fun st => x ← call_ e; mret (inr x, st).
Definition get_st : HM Exec_state := fun st => mret (inr st, st).
Definition put_st (f : Exec_state -> Exec_state) : HM unit := fun st => mret (inr tt, f st).

(** A Go panic is recovered by the protected call around the function. *)
Definition guard_outcome {A} (o : outcome A) : HM A := fun st =>
  match o with
  | Ret a => mret (inr a, st)
  | Panic => mret (inl GoPanic, st)
  | OutOfFuel => Done OutOfFuel
  end.

(** Programs of the other components; a panic in one of them is recovered
    too. *)
Fixpoint protect {E A} (p : prog E A) : prog E (option A) :=
  match p with
  | Done (Ret a) => Done (Ret (Some a))
  | Done Panic => Done (Ret None)
  | Done OutOfFuel => Done OutOfFuel
  | Call e k => Call e (fun x => protect (k x))
  end.

Definition component {E A} (f : forall X, E X -> lua_port X) (p : prog E A) : HM A := fun st =>
  o ← protect (embed f p);
  mret (match o with Some a => inr a | None => inl GoPanic end, st).

Definition sql {A} (p : SQL A) : HM A := component (fun X => @PSql X) p.
Definition token {A} (p : prog token_port A) : HM A := component (fun X => @PToken X) p.

Definition with_heap (h : heap) (st : Exec_state) : Exec_state :=
  mkExec h (x_queries st) (x_active st) (x_locks st) (x_scopedDepth st) (x_context st) (x_result st).
Definition with_queries (qs : gmap nat sqlQuery) (st : Exec_state) : Exec_state :=
  mkExec (x_heap st) qs (x_active st) (x_locks st) (x_scopedDepth st) (x_context st) (x_result st).
Definition with_active (a : option Tx) (st : Exec_state) : Exec_state :=
  mkExec (x_heap st) (x_queries st) a (x_locks st) (x_scopedDepth st) (x_context st) (x_result st).
Definition with_locks (l : gmap string nat) (c : option nat) (st : Exec_state) : Exec_state :=
  mkExec (x_heap st) (x_queries st) (x_active st) l (x_scopedDepth st) c (x_result st).
Definition with_depth (d : Z) (st : Exec_state) : Exec_state :=
  mkExec (x_heap st) (x_queries st) (x_active st) (x_locks st) d (x_context st) (x_result st).
Definition with_result (r : option LValue) (st : Exec_state) : Exec_state :=
  mkExec (x_heap st) (x_queries st) (x_active st) (x_locks st) (x_scopedDepth st) (x_context st) r.

(** The process is gone ([os.Exit], or the stack of a goroutine at its limit):
    nothing runs after it. *)
Definition process_ends {A} : HM A := fun _ => Done OutOfFuel.

(** Code that works on the tables. *)
Definition tables {A} (m : LM T A) : HM A := fun st =>
  match m (x_heap st) with
  | Ret (a, h) => mret (inr a, with_heap h st)
  | Panic => mret (inl GoPanic, st)
  | OutOfFuel => Done OutOfFuel
  end.

(** gopher-lua's argument checks and its [String] method. *)
Context (CheckString : luav -> option string) (CheckNumber CheckInt : luav -> option Z).
Context (value_text : luav -> string).
(** The depth of nesting up to which values are converted. *)
Context (depth : nat).

(** [L.Get(n)]: a missing argument is nil. *)
Definition Get_arg (args : list luav) (n : Z) : luav := default LNil (args !! Z.to_nat (n - 1)).

Definition check_string (args : list luav) (n : Z) : HM string :=
  match CheckString (Get_arg args n) with
  | Some s => mret s
  | None => raise (ArgError n "string expected")
  end.

Definition check_number (args : list luav) (n : Z) : HM Z :=
  match CheckNumber (Get_arg args n) with
  | Some f => mret f
  | None => raise (ArgError n "number expected")
  end.

Definition check_table (args : list luav) (n : Z) : HM nat :=
  match Get_arg args n with
  | LTbl l => mret l
  | _ => raise (ArgError n "table expected")
  end.

(** [int64(f)]: truncation; a value out of range gives the smallest integer, as
    on amd64. *)
Definition int_of_float (bits : Z) : Z :=
  let e := (bits / 2 ^ 52) mod 2048 in
  let sig := 2 ^ 52 + bits mod 2 ^ 52 in
  let m := if e =? 0 then 0 else if 1075 <=? e then sig * 2 ^ (e - 1075) else sig / 2 ^ (1075 - e) in
  let z := if Z.odd (bits / 2 ^ 63) then - m else m in
  if (e =? 2047) || negb ((- 2 ^ 63 <=? z) && (z <? 2 ^ 63)) then - 2 ^ 63 else z.

Definition check_int (args : list luav) (n : Z) : HM Z :=
  match CheckInt (Get_arg args n) with
  | Some z => mret z
  | None => raise (ArgError n "number expected")
  end.

Definition opt_int (args : list luav) (n : Z) (d : Z) : HM Z :=
  match Get_arg args n with LNil => mret d | _ => check_int args n end.

Definition to_lua (v : LValue) : HM luav := tables (LValueToLua v).
Definition to_lingo (v : luav) : HM LValue := fun st => guard_outcome (LuaToLValue depth (x_heap st) v) st.

(** A table of strings ([tbl.Append] in a loop). *)
Definition string_table (names : list string) : HM luav :=
  tables (l ← new_table; _ ← append_loop l ((fun n => mret (LStr n)) <$> names); mret (LTbl l)).

Definition fields (kvs : list (string * luav)) : HM luav :=
  tables (fields_table ((fun kv => (kv.1, mret kv.2)) <$> kvs)).

Definition number_of (z : Z) : luav := LNumber (float64_of_int z).

(** What the engine was built with, and the message it runs the script for. *)
Record Wiring := mkWiring {
  has_publisher : bool;
  has_sender : bool;
  has_db : bool;
  root_builder : option sqlQueryBuilder;
  has_sessions : bool;
  has_cache : bool;
  has_email : bool
}.

Context (e : Wiring) (msg : ScriptMessage).

(** A function whose module is not registered. *)
Definition registered {A} (b : bool) (m : HM A) : HM A :=
  if b then m else raise (Thrown LNil).

Definition none : HM (list luav) := mret [].
Definition one (v : luav) : HM (list luav) := mret [v].
Definition answer (m : HM luav) : HM (list luav) := v ← m; one v.

(** [if err != nil { L.RaiseError(...) }] around a call without results. *)
Definition or_raise {X} (what : string) (r : error + X) : HM (list luav) :=
  match r with inl err => raise (RaisedErr what err) | inr _ => none end.

(** ** The engine's own functions (lua_script_engine.go) *)

Definition systemScriptSender : string := "system.script".

Definition mus_getSender : HM (list luav) := one (LStr (sm_SenderID msg)).
Definition mus_getContent : HM (list luav) :=
  answer (match sm_Content msg with Some v => to_lua v | None => mret LNil end).
Definition mus_getSubject : HM (list luav) := one (LStr (sm_Subject msg)).

Definition mus_response (args : list luav) : HM (list luav) :=
  let arg := Get_arg args 1 in
  content ← to_lingo arg;
  _ ← put_st (with_result (Some content));
  one arg.

Definition mus_publish (args : list luav) : HM (list luav) :=
  topic ← check_string args 1;
  content ← to_lingo (Get_arg args 2);
  payload ← guard_outcome (GetBytes content);
  if has_publisher e then
    err ← ask (Publish topic payload);
    match err with
    | Some _ => _ ← ask (Log LogError "mus.publish failed" None); none
    | None => none
    end
  else none.

Definition mus_sendMessage (args : list luav) : HM (list luav) :=
  recipientID ← check_string args 1;
  if decide (recipientID = ""%string) then raise (ArgError 1 "recipientID must not be empty")
  else
    subject ← check_string args 2;
    lingoContent ← to_lingo (Get_arg args 3);
    if has_sender e then
      err ← ask (SendFrom systemScriptSender (sm_SenderID msg) recipientID subject lingoContent);
      match err with
      | Some _ => _ ← ask (Log LogError "mus.sendMessage failed" None); none
      | None => none
      end
    else none.

Definition mus_uuid : HM (list luav) := s ← ask Uuid; one (LStr s).

(** ** mus.db: queries (lua_db_module.go) *)

Definition luaToGoValue (v : luav) : value :=
  match v with
  | LBool b => VInt (if b then 1 else 0)
  | LNumber f => VFloat f
  | LStr s => VString s
  | LNil => VNil
  | _ => VString (value_text v)
  end.

Definition luaTableToMap (l : nat) : HM (gmap string value) :=
  st ← get_st;
  match x_heap st !! l with
  | Some tbl =>
      mret (foldl (fun data kv => match string_key kv with
                                  | Some k => <[k := luaToGoValue kv.2]> data
                                  | None => data
                                  end) ∅ (ForEach tbl))
  | None => raise GoPanic
  end.

Definition goValueToColumn (v : value) : luav :=
  match v with
  | VInt z => number_of z
  | VFloat f => LNumber f
  | VString s => LStr s
  | VBytes b => LStr (string_of_bytes b)
  | VTime t => LStr (string_of_bytes (Format t))
  | VNil => LNil
  end.

(** [range row]: the columns in any order. *)
Definition row_fields (row : QueryResult) : list (string * luav) :=
  (fun k => (k, goValueToColumn (default VNil (row !! k)))) <$> range (dom row).

Definition rowToLuaTable (row : QueryResult) : HM luav := fields (row_fields row).

(** [wrapQuery]: a new user data object. *)
Definition wrapQuery (q : sqlQuery) : HM luav := fun st =>
  let u := fresh (dom (x_queries st)) in
  mret (inr (LUser u), with_queries (<[u := q]> (x_queries st)) st).

Definition checkQuery (args : list luav) : HM sqlQuery :=
  st ← get_st;
  match Get_arg args 1 with
  | LUser u => match x_queries st !! u with
               | Some q => mret q
               | None => raise (ArgError 1 "query expected")
               end
  | _ => raise (ArgError 1 "query expected")
  end.

Definition active_Table (qb : sqlQueryBuilder) (a : option Tx) (name : string) : sqlQuery :=
  match a with Some tx => Tx_Table tx name | None => Table qb name end.

Definition mus_table (args : list luav) : HM (list luav) :=
  match root_builder e with
  | None => raise (Thrown LNil)
  | Some qb =>
      name ← check_string args 1;
      st ← get_st;
      answer (wrapQuery (active_Table qb (x_active st) name))
  end.

Definition queryWhere (args : list luav) : HM (list luav) :=
  q ← checkQuery args;
  col ← check_string args 2;
  answer (wrapQuery (Where q col (luaToGoValue (Get_arg args 3)))).

Definition queryWhereLessThan (args : list luav) : HM (list luav) :=
  q ← checkQuery args;
  col ← check_string args 2;
  answer (wrapQuery (WhereLessThan q col (luaToGoValue (Get_arg args 3)))).

Definition queryFirst (args : list luav) : HM (list luav) :=
  q ← checkQuery args;
  r ← sql (First q);
  match r with
  | inl err => raise (RaisedErr "query first failed: " err)
  | inr None => one LNil
  | inr (Some row) => answer (rowToLuaTable row)
  end.

Fixpoint append_rows (l : nat) (rows : list QueryResult) : HM (list luav) :=
  match rows with
  | [] => one (LTbl l)
  | row :: rows => v ← rowToLuaTable row; _ ← tables (on_table l (Append v)); append_rows l rows
  end.

Definition queryGet (args : list luav) : HM (list luav) :=
  q ← checkQuery args;
  r ← sql (Get q);
  match r with
  | (_, Some err) => raise (RaisedErr "query get failed: " err)
  | (rows, None) => l ← tables new_table; append_rows l rows
  end.

Definition queryInsert (args : list luav) : HM (list luav) :=
  q ← checkQuery args;
  tbl ← check_table args 2;
  data ← luaTableToMap tbl;
  r ← sql (Insert q data);
  match r with Some err => raise (RaisedErr "query insert failed: " err) | None => none end.

(** [L.RaiseError] on an error, the count of rows otherwise. *)
Definition counted (what : string) (r : error + Z) : HM (list luav) :=
  match r with inl err => raise (RaisedErr what err) | inr n => one (number_of n) end.

Definition queryUpdate (args : list luav) : HM (list luav) :=
  q ← checkQuery args;
  tbl ← check_table args 2;
  data ← luaTableToMap tbl;
  r ← sql (Update q data);
  counted "query update failed: " r.

Definition queryIncrement (args : list luav) : HM (list luav) :=
  q ← checkQuery args;
  col ← check_string args 2;
  n ← check_number args 3;
  r ← sql (Increment q col (int_of_float n));
  counted "query increment failed: " r.

Definition queryDelete (args : list luav) : HM (list luav) :=
  q ← checkQuery args; r ← sql (Delete q); counted "query delete failed: " r.

Definition queryCount (args : list luav) : HM (list luav) :=
  q ← checkQuery args; r ← sql (Count q); counted "query count failed: " r.

(** ** mus.db: attributes and accounts *)

Definition on_db {X} (op : db_op X) : HM (error + X) := ask (PDb (ADb op)).

(** An error of a read is nil, or an empty table, to the script. *)
Definition value_or_nil (r : error + LValue) : HM (list luav) :=
  match r with inl _ => one LNil | inr v => answer (to_lua v) end.
Definition names_or_empty (r : error + list string) : HM (list luav) :=
  match r with inl _ => answer (string_table []) | inr l => answer (string_table l) end.

Definition db_getPlayerAttribute (args : list luav) : HM (list luav) :=
  app ← check_string args 1; userID ← check_string args 2; attr ← check_string args 3;
  r ← on_db (Ports.GetPlayerAttribute app userID attr); value_or_nil r.

Definition db_setPlayerAttribute (args : list luav) : HM (list luav) :=
  app ← check_string args 1; userID ← check_string args 2; attr ← check_string args 3;
  v ← to_lingo (Get_arg args 4);
  r ← on_db (Ports.SetPlayerAttribute app userID attr v); or_raise "setPlayerAttribute failed: " r.

Definition db_deletePlayerAttribute (args : list luav) : HM (list luav) :=
  app ← check_string args 1; userID ← check_string args 2; attr ← check_string args 3;
  r ← on_db (Ports.DeletePlayerAttribute app userID attr); or_raise "deletePlayerAttribute failed: " r.

Definition db_getPlayerAttributeNames (args : list luav) : HM (list luav) :=
  app ← check_string args 1; userID ← check_string args 2;
  r ← on_db (Ports.GetPlayerAttributeNames app userID); names_or_empty r.

Definition db_getApplicationAttribute (args : list luav) : HM (list luav) :=
  app ← check_string args 1; attr ← check_string args 2;
  r ← on_db (Ports.GetApplicationAttribute app attr); value_or_nil r.

Definition db_setApplicationAttribute (args : list luav) : HM (list luav) :=
  app ← check_string args 1; attr ← check_string args 2;
  v ← to_lingo (Get_arg args 3);
  r ← on_db (Ports.SetApplicationAttribute app attr v); or_raise "setApplicationAttribute failed: " r.

Definition db_deleteApplicationAttribute (args : list luav) : HM (list luav) :=
  app ← check_string args 1; attr ← check_string args 2;
  r ← on_db (Ports.DeleteApplicationAttribute app attr); or_raise "deleteApplicationAttribute failed: " r.

Definition db_getApplicationAttributeNames (args : list luav) : HM (list luav) :=
  app ← check_string args 1;
  r ← on_db (Ports.GetApplicationAttributeNames app); names_or_empty r.

Definition db_createApplication (args : list luav) : HM (list luav) :=
  app ← check_string args 1; r ← on_db (Ports.CreateApplication app); or_raise "createApplication failed: " r.

Definition db_deleteApplication (args : list luav) : HM (list luav) :=
  app ← check_string args 1; r ← on_db (Ports.DeleteApplication app); or_raise "deleteApplication failed: " r.

Definition db_createUser (args : list luav) : HM (list luav) :=
  userID ← check_string args 1; password ← check_string args 2; userLevel ← check_int args 3;
  h ← ask (Generate password);
  match h with
  | inl err => raise (RaisedErr "createUser failed: " err)
  | inr hash => r ← on_db (Ports.CreateUser userID hash userLevel); or_raise "createUser failed: " r
  end.

Definition db_setPassword (args : list luav) : HM (list luav) :=
  userID ← check_string args 1; password ← check_string args 2;
  h ← ask (Generate password);
  match h with
  | inl err => raise (RaisedErr "setPassword failed: " err)
  | inr hash => r ← ask (PDb (AUpdateUserPassword userID hash)); or_raise "setPassword failed: " r
  end.

Definition db_deleteUser (args : list luav) : HM (list luav) :=
  userID ← check_string args 1; r ← on_db (Ports.DeleteUser userID); or_raise "deleteUser failed: " r.

Definition db_getUser (args : list luav) : HM (list luav) :=
  userID ← check_string args 1;
  r ← on_db (Ports.GetUser userID);
  match r with
  | inl _ => one LNil
  | inr user =>
      answer (fields [("id"%string, number_of (u_ID user)); ("username"%string, LStr (u_Username user));
                      ("userLevel"%string, number_of (u_UserLevel user))])
  end.

Definition db_ban (args : list luav) : HM (list luav) :=
  userID ← check_string args 1; reason ← check_string args 2;
  r ← on_db (Ports.GetUser userID);
  match r with
  | inl err => raise (RaisedErr "ban failed: user not found: " err)
  | inr user => r ← on_db (Ports.CreateBan (Some (u_ID user)) None reason None); or_raise "ban failed: " r
  end.

(** A nil ban without an error would be dereferenced. *)
Definition db_revokeBan (args : list luav) : HM (list luav) :=
  userID ← check_string args 1;
  r ← on_db (Ports.GetUser userID);
  match r with
  | inl err => raise (RaisedErr "revokeBan failed: user not found: " err)
  | inr user =>
      b ← on_db (Ports.GetActiveBanByUserID (u_ID user));
      match b with
      | inl err => raise (RaisedErr "revokeBan failed: no active ban: " err)
      | inr None => raise GoPanic
      | inr (Some ban) => r ← on_db (Ports.RevokeBan (ban_ID ban)); or_raise "revokeBan failed: " r
      end
  end.

(** ** mus.server (lua_server_module.go) *)

Definition server_getUserCount : HM (list luav) :=
  r ← ask (PSess GetAllConnections);
  one (match r with inl _ => number_of 0 | inr conns => number_of (zlen conns) end).

Definition server_isOnline (args : list luav) : HM (list luav) :=
  name ← check_string args 1;
  r ← ask (PSess (IsConnected name));
  one (LBool (match r with inl _ => false | inr online => online end)).

(** A delivery that fails is logged, and the next one is made. *)
Fixpoint broadcast_loop (subject : string) (content : LValue) (conns : list ConnectionInfo) : HM (list luav) :=
  match conns with
  | [] => none
  | c :: conns =>
      err ← ask (SendFrom systemScriptSender systemScriptSender (ci_ClientID c) subject content);
      match err with
      | Some _ =>
          _ ← ask (Log LogWarn "mus.server.broadcast: delivery failed" None);
          broadcast_loop subject content conns
      | None => broadcast_loop subject content conns
      end
  end.

Definition server_broadcast (args : list luav) : HM (list luav) :=
  subject ← check_string args 1;
  lingoContent ← to_lingo (Get_arg args 2);
  if has_sender e then
    r ← ask (PSess GetAllConnections);
    match r with
    | inl _ => _ ← ask (Log LogError "mus.server.broadcast: failed to list connections" None); none
    | inr conns => broadcast_loop subject lingoContent conns
    end
  else none.

(** ** mus.email, mus.bcrypt, mus.time, mus.token *)

(** [error_text]: what [err.Error()] prints. *)
Context (error_text : error -> string).

Definition email_send (args : list luav) : HM (list luav) :=
  to ← check_string args 1; subject ← check_string args 2; body ← check_string args 3;
  err ← ask (Mail (mkEmailMessage "" to subject "" body));
  match err with
  | Some err =>
      _ ← ask (Log LogError "mus.email.send failed" None);
      mret [LBool false; LStr (error_text err)]
  | None => one (LBool true)
  end.

Definition bcrypt_verify (args : list luav) : HM (list luav) :=
  plaintext ← check_string args 1; hash ← check_string args 2;
  err ← ask (Compare hash plaintext);
  one (LBool (match err with None => true | Some _ => false end)).

Definition time_now : HM (list luav) := now ← ask TimeNow; one (number_of (now / 1000000000)).

Definition int_or_zero (v : luav) : Z := match v with LNumber f => int_of_float f | _ => 0 end.

Definition token_issue (store : CacheTokenStore) (args : list luav) : HM (list luav) :=
  l ← check_table args 1;
  st ← get_st;
  match x_heap st !! l with
  | None => raise GoPanic
  | Some tbl =>
      let payload := mkTokenPayload (str_or_empty (RawGetString tbl "character_name"))
        (int_or_zero (RawGetString tbl "user_level")) (int_or_zero (RawGetString tbl "account_id")) in
      r ← token (Issue store payload);
      match r with
      | inl err => raise (RaisedErr "token.issue failed: " err)
      | inr tok => one (LStr tok)
      end
  end.

Definition token_validate (args : list luav) : HM (list luav) :=
  tok ← check_string args 1;
  r ← token (Validate tok);
  match r with
  | inl _ => one LNil
  | inr payload =>
      answer (fields [("character_name"%string, LStr (tp_CharacterName payload));
                      ("user_level"%string, number_of (tp_UserLevel payload));
                      ("account_id"%string, number_of (tp_AccountID payload))])
  end.

(** ** mus.log (lua_log_module.go) *)

Definition luaValueToGo (v : luav) : log_value :=
  match v with
  | LBool b => FieldBool b
  | LNumber f => FieldNumber f
  | LStr s => FieldString s
  | _ => FieldString (value_text v)
  end.

(** [key, value, key, value, ...]; a key that is no string is skipped, a last
    key without a value too. *)
Fixpoint pair_fields (args : list luav) (m : gmap string log_value) : gmap string log_value :=
  match args with
  | k :: v :: args =>
      pair_fields args (match k with LStr s => <[s := luaValueToGo v]> m | _ => m end)
  | _ => m
  end.

Definition luaArgsToFields (args : list luav) : HM (option (gmap string log_value)) :=
  match Get_arg args 2 with
  | LNil => mret None
  | LTbl l =>
      st ← get_st;
      match x_heap st !! l with
      | None => raise GoPanic
      | Some tbl =>
          mret (Some (foldl (fun m kv => match string_key kv with
                                         | Some k => <[k := luaValueToGo kv.2]> m
                                         | None => m
                                         end) ∅ (ForEach tbl)))
      end
  | _ => mret (Some (pair_fields (drop 1 args) ∅))
  end.

(** [logger.Fatal] writes its line and exits the process (file_logger.go). *)
Definition makeLogFn (level : log_level) (args : list luav) : HM (list luav) :=
  text ← check_string args 1;
  fs ← luaArgsToFields args;
  _ ← ask (Log level text fs);
  match level with LogFatal => process_ends | _ => none end.

(** ** mus.cache (lua_cache_module.go) *)

(** A cache method may panic (a write after Close). *)
Definition cache_call {X} (op : cache_op X) : HM (error + X) :=
  o ← ask (PToken (TCache op)); guard_outcome o.

Definition ok_or_false {X} (r : error + X) : HM (list luav) :=
  one (LBool (match r with inl _ => false | inr _ => true end)).

Definition cache_get (args : list luav) : HM (list luav) :=
  key ← check_string args 1;
  r ← cache_call (CGet key);
  one (match r with inr (Some data) => LStr (string_of_bytes data) | _ => LNil end).

(** [time.Duration(ttlSeconds) * time.Second] wraps in 64 bits. *)
Definition cache_set (args : list luav) : HM (list luav) :=
  key ← check_string args 1; v ← check_string args 2; ttlSeconds ← opt_int args 3 0;
  r ← cache_call (CSet key (bytes_of_string v) (int64 (ttlSeconds * 1000000000)));
  ok_or_false r.

Definition cache_increment (args : list luav) : HM (list luav) :=
  key ← check_string args 1;
  r ← cache_call (CIncrement key);
  counted "cache increment: " r.

Definition cache_delete (args : list luav) : HM (list luav) :=
  key ← check_string args 1; r ← cache_call (CDelete key); ok_or_false r.

Definition bool_or_false (r : error + bool) : HM (list luav) :=
  one (LBool (match r with inl _ => false | inr b => b end)).

Definition cache_exists (args : list luav) : HM (list luav) :=
  key ← check_string args 1; r ← cache_call (CExists key); bool_or_false r.

Definition cache_setAdd (args : list luav) : HM (list luav) :=
  key ← check_string args 1; member ← check_string args 2;
  r ← cache_call (CSetAdd key member); ok_or_false r.

Definition cache_setAddOnce (args : list luav) : HM (list luav) :=
  key ← check_string args 1; member ← check_string args 2;
  r ← cache_call (CSetAddOnce key member);
  match r with
  | inl err => raise (RaisedErr "cache setAddOnce: " err)
  | inr added => one (LBool added)
  end.

Definition cache_setRemove (args : list luav) : HM (list luav) :=
  key ← check_string args 1; member ← check_string args 2;
  r ← cache_call (CSetRemove key member); ok_or_false r.

Definition cache_setMembers (args : list luav) : HM (list luav) :=
  key ← check_string args 1;
  r ← cache_call (CSetMembers key);
  match r with inl _ => one LNil | inr members => answer (string_table members) end.

Definition cache_setIsMember (args : list luav) : HM (list luav) :=
  key ← check_string args 1; member ← check_string args 2;
  r ← cache_call (CSetIsMember key member); bool_or_false r.

Definition cannot_nest : lua_error := Raised "cannot acquire another lock inside a scoped lock".

Definition cache_lock (args : list luav) : HM (list luav) :=
  key ← check_string args 1;
  st ← get_st;
  match x_locks st !! key with
  | Some _ => none
  | None =>
      if 0 <? x_scopedDepth st then raise cannot_nest
      else
        r ← ask (AcquireLock (x_context st) key);
        match r with
        | inl err => raise (RaisedErr "cache lock: " err)
        | inr lease =>
            _ ← put_st (fun st => with_locks (<[key := lease]> (x_locks st)) (Some lease) st);
            none
        end
  end.

(** ** The mus table *)

Inductive query_method :=
| MWhere | MWhereLessThan | MFirst | MGet | MInsert | MUpdate | MIncrement | MDelete | MCount.

Inductive db_method :=
| MGetPlayerAttribute | MSetPlayerAttribute | MDeletePlayerAttribute | MGetPlayerAttributeNames
| MGetApplicationAttribute | MSetApplicationAttribute | MDeleteApplicationAttribute
| MGetApplicationAttributeNames
| MCreateApplication | MDeleteApplication | MCreateUser | MSetPassword | MDeleteUser | MGetUser | MBan
| MRevokeBan.

Inductive cache_method :=
| MLock | MCacheGet | MCacheSet | MCacheIncrement | MCacheDelete | MCacheExists | MSetAdd | MSetAddOnce
| MSetRemove | MSetMembers | MSetIsMember.

Inductive musfn :=
| GetSender | GetContent | GetSubject | Response | PublishFn | SendMessageFn | UuidFn
| TableFn | Query_ (m : query_method) | Db_ (m : db_method) | Cache_ (m : cache_method)
| GetUserCount | IsOnline | Broadcast | EmailSend | BcryptVerify | TokenIssue | TokenValidate
| LogFn (level : log_level) | TimeFn.

(** [queryIndex] *)
Definition queryIndex (m : query_method) : list luav -> HM (list luav) :=
  match m with
  | MWhere => queryWhere
  | MWhereLessThan => queryWhereLessThan
  | MFirst => queryFirst
  | MGet => queryGet
  | MInsert => queryInsert
  | MUpdate => queryUpdate
  | MIncrement => queryIncrement
  | MDelete => queryDelete
  | MCount => queryCount
  end.

Definition db_function (m : db_method) : list luav -> HM (list luav) :=
  match m with
  | MGetPlayerAttribute => db_getPlayerAttribute
  | MSetPlayerAttribute => db_setPlayerAttribute
  | MDeletePlayerAttribute => db_deletePlayerAttribute
  | MGetPlayerAttributeNames => db_getPlayerAttributeNames
  | MGetApplicationAttribute => db_getApplicationAttribute
  | MSetApplicationAttribute => db_setApplicationAttribute
  | MDeleteApplicationAttribute => db_deleteApplicationAttribute
  | MGetApplicationAttributeNames => db_getApplicationAttributeNames
  | MCreateApplication => db_createApplication
  | MDeleteApplication => db_deleteApplication
  | MCreateUser => db_createUser
  | MSetPassword => db_setPassword
  | MDeleteUser => db_deleteUser
  | MGetUser => db_getUser
  | MBan => db_ban
  | MRevokeBan => db_revokeBan
  end.

Definition cache_function (m : cache_method) : list luav -> HM (list luav) :=
  match m with
  | MLock => cache_lock
  | MCacheGet => cache_get
  | MCacheSet => cache_set
  | MCacheIncrement => cache_increment
  | MCacheDelete => cache_delete
  | MCacheExists => cache_exists
  | MSetAdd => cache_setAdd
  | MSetAddOnce => cache_setAddOnce
  | MSetRemove => cache_setRemove
  | MSetMembers => cache_setMembers
  | MSetIsMember => cache_setIsMember
  end.

(** The modules are registered when the engine has what they need. The token
    module works on the engine's cache. *)
Definition mus (f : musfn) (args : list luav) : HM (list luav) :=
  match f with
  | GetSender => mus_getSender
  | GetContent => mus_getContent
  | GetSubject => mus_getSubject
  | Response => mus_response args
  | PublishFn => mus_publish args
  | SendMessageFn => mus_sendMessage args
  | UuidFn => mus_uuid
  | TableFn => mus_table args
  | Query_ m => registered (bool_decide (is_Some (root_builder e))) (queryIndex m args)
  | Db_ m => registered (has_db e) (db_function m args)
  | Cache_ m => registered (has_cache e) (cache_function m args)
  | GetUserCount => registered (has_sessions e) server_getUserCount
  | IsOnline => registered (has_sessions e) (server_isOnline args)
  | Broadcast => registered (has_sessions e) (server_broadcast args)
  | EmailSend => registered (has_email e) (email_send args)
  | BcryptVerify => bcrypt_verify args
  | TokenIssue => registered (has_cache e) (token_issue (NewCacheTokenStore DefaultTokenTTL) args)
  | TokenValidate => registered (has_cache e) (token_validate args)
  | LogFn level => makeLogFn level args
  | TimeFn => time_now
  end.

(** ** Calls with a callback *)

(** [L.PCall]: the error of the function is a value to its caller. *)
Definition attempt {A} (m : HM A) : HM (lua_error + A) := fun st =>
  r ← m st; mret (inr r.1, r.2).

(** The end of a transaction: its fate depends on how the callback ended. *)
Definition finalize (tx : Tx) (r : lua_error + list luav) : HM (list luav) :=
  match r with
  | inl callErr =>
      _ ← sql (Tx_Rollback tx);
      raise (RaisedBy "mus.db.transaction: rolled back: " callErr)
  | inr rets =>
      if decide (default LNil (head rets) = LBool false) then
        rb ← sql (Tx_Rollback tx);
        match rb.1 with
        | Some err => raise (RaisedErr "mus.db.transaction: rollback failed: " err)
        | None => one (LBool false)
        end
      else
        c ← sql (Tx_Commit tx);
        match c.1 with
        | Some err =>
            _ ← sql (Tx_Rollback c.2);
            raise (RaisedErr "mus.db.transaction: commit failed: " err)
        | None => one (LBool true)
        end
  end.

(** [active] is the transaction while the callback runs, and the root builder
    again before the transaction is finalised. *)
Definition in_transaction (tx : Tx) (fn : HM (list luav)) : HM (list luav) :=
  _ ← put_st (with_active (Some tx));
  r ← attempt fn;
  _ ← put_st (with_active None);
  finalize tx r.

(** [mus.db.transaction(fn)] *)
Definition transaction (fn : HM (list luav)) : HM (list luav) :=
  match root_builder e with
  | None => raise (Thrown LNil)
  | Some qb =>
      st ← get_st;
      match x_active st with
      | Some _ => raise (Raised "mus.db.transaction: nested transactions are not supported")
      | None =>
          b ← sql (qb_Begin qb);
          match b with
          | inl err => raise (RaisedErr "mus.db.transaction: begin failed: " err)
          | inr tx => in_transaction tx fn
          end
      end
  end.

(** The callback of [withLock], one scope deeper. *)
Definition scoped (fn : HM (list luav)) : HM (lua_error + list luav) :=
  _ ← put_st (fun st => with_depth (x_scopedDepth st + 1) st);
  r ← attempt fn;
  _ ← put_st (fun st => with_depth (x_scopedDepth st - 1) st);
  mret r.

Definition callback_result (r : lua_error + list luav) : HM (list luav) :=
  match r with
  | inl err => raise (RaisedBy "cache lock callback: " err)
  | inr vs => mret vs
  end.

(** A lease taken for the callback is released after it. *)
Definition with_lease (key : string) (previousContext : option nat) (lease : nat) (fn : HM (list luav)) :
    HM (list luav) :=
  _ ← put_st (fun st => with_locks (<[key := lease]> (x_locks st)) (Some lease) st);
  r ← scoped fn;
  releaseErr ← ask (ReleaseLock lease);
  _ ← put_st (fun st => with_locks (delete key (x_locks st)) previousContext st);
  match r, releaseErr with
  | inr _, Some err => raise (RaisedErr "cache lock callback: " err)
  | _, _ => callback_result r
  end.

(** [mus.cache.withLock(key, fn)] *)
Definition withLock (key : string) (fn : HM (list luav)) : HM (list luav) :=
  registered (has_cache e) (
    st ← get_st;
    match x_locks st !! key with
    | Some _ => r ← scoped fn; callback_result r
    | None =>
        if 0 <? x_scopedDepth st then raise cannot_nest
        else
          a ← ask (AcquireLock (x_context st) key);
          match a with
          | inl err => raise (RaisedErr "cache lock: " err)
          | inr lease => with_lease key (x_context st) lease fn
          end
    end).

(** ** Scripts *)

Inductive script : Type :=
| SReturn (vs : list luav)
| SError (err : lua_error)
| SRead (k : heap -> script)
| SWrite (h : heap) (k : script)
| SCall (f : musfn) (args : list luav) (k : list luav -> script)
| SPcall (body : script) (k : lua_error + list luav -> script)
| STransaction (fn : script) (k : list luav -> script)
| SWithLock (key : string) (fn : script) (k : list luav -> script).

Fixpoint exec (s : script) : HM (list luav) :=
  match s with
  | SReturn vs => mret vs
  | SError err => raise err
  | SRead k => fun st => exec (k (x_heap st)) st
  | SWrite h k => fun st => exec k (with_heap h st)
  | SCall f args k => r ← mus f args; exec (k r)
  | SPcall body k => r ← attempt (exec body); exec (k r)
  | STransaction fn k => r ← transaction (exec fn); exec (k r)
  | SWithLock key fn k => r ← withLock key (exec fn); exec (k r)
  end.

(** ** Execute *)

(** [releaseLocks]: the first error, after all releases. *)
Fixpoint release_all (leases : list nat) (firstErr : option error) : prog lua_port (option error) :=
  match leases with
  | [] => mret firstErr
  | lease :: leases =>
      err ← call_ (ReleaseLock lease);
      release_all leases (match firstErr with None => err | Some _ => firstErr end)
  end.

Definition held_leases (st : Exec_state) : list nat :=
  omap (fun k => x_locks st !! k) (range (dom (x_locks st))).

Definition releaseLocks (st : Exec_state) : prog lua_port unit :=
  err ← release_all (held_leases st) None;
  match err with
  | Some _ => call_ (Log LogWarn "cache lock release failed" None)
  | None => mret tt
  end.

Definition initial : Exec_state := mkExec ∅ ∅ None ∅ 0 None None.

(** The file system with the scripts in it; a file that does not load has
    none. *)
Context (eng : LuaScriptEngine) (wd : option string) (exists_file : string -> bool).
Context (load : string -> option script).

Definition Execute : prog lua_port (error + LValue) :=
  resolved ← lift (resolveScript eng wd exists_file (sm_Subject msg));
  match resolved with
  | None => mret (inl (Errorf "invalid script subject"))
  | Some path =>
      match load path with
      | None => mret (inl (Errorf "script execution failed"))
      | Some s =>
          r ← exec s initial;
          _ ← releaseLocks r.2;
          mret (match r.1 with
                | inl _ => inl (Errorf "script execution failed")
                | inr _ => inr (default LVoid (x_result r.2))
                end)
      end
  end.
End Host.
