(* ===== verification/LuaSpec.v ===== *)
(** * Reasoning about scripts

    A small program logic for the computations of LuaHost.v: [spec P I Q m] says
    that from a state with [I], whatever the ports answer, [m] only makes calls
    in [P], keeps [I], and returns a value with [Q] if it returns one. The
    functions of [mus] that touch neither queries nor locks are treated once,
    for every [I] that does not look at tables and response. *)

From Stdlib Require Import ZArith Lia.
From Stdlib Require Import Strings.Byte.
From stdpp Require Import base list strings option gmap sorting.
From S2P Require Import Prelude GoFmt Utf8 Json LValue LExtract LParse LRoundtrip Smus Effects Protocol Ports.
From S2P Require Import Codec SessionStore Rfc3339 Cache TokenStore SqlText SqlBuilder SqlDB LuaValue Paths ScriptPath LuaHost.

Open Scope Z_scope.

(** ** Calls and results of a program *)

(** [sound]: no panic either; [calls] admits one. *)
Fixpoint sound {E A} (P : forall X, E X -> Prop) (Q : A -> Prop) (p : prog E A) : Prop :=
  match p with
  | Done (Ret a) => Q a
  | Done Panic => False
  | Done OutOfFuel => True
  | Call e k => P _ e /\ forall x, sound P Q (k x)
  end.

Fixpoint calls {E A} (P : forall X, E X -> Prop) (Q : A -> Prop) (p : prog E A) : Prop :=
  match p with
  | Done (Ret a) => Q a
  | Done _ => True
  | Call e k => P _ e /\ forall x, calls P Q (k x)
  end.

Lemma sound_bind {E A B} (P : forall X, E X -> Prop) (Q : A -> Prop) (R : B -> Prop)
    (f : A -> prog E B) (p : prog E A) :
  sound P Q p -> (forall a, Q a -> sound P R (f a)) -> sound P R (prog_bind_ f p).
Proof.
  intros Hp Hf. induction p as [[a| |]|X e k IH]; cbn in *; auto.
  destruct Hp as [He Hk]. split; [done|]. intros x. by apply IH.
Qed.

Lemma sound_mono {E A} (P P' : forall X, E X -> Prop) (Q Q' : A -> Prop) (p : prog E A) :
  (forall X e, P X e -> P' X e) -> (forall a, Q a -> Q' a) -> sound P Q p -> sound P' Q' p.
Proof.
  intros HP HQ. induction p as [[a| |]|X e k IH]; cbn; auto.
  intros [He Hk]. split; [by apply HP|]. intros x. by apply IH.
Qed.

Lemma sound_protect {E F A} (f : forall X, E X -> F X) (P : forall X, F X -> Prop) (Q : A -> Prop) (p : prog E A) :
  calls (fun X e => P X (f X e)) Q p ->
  sound P (fun o => match o with Some a => Q a | None => True end) (protect (embed f p)).
Proof. induction p as [[a| |]|X e k IH]; cbn; auto. intros [He Hk]. split; [done|]. intros x. by apply IH. Qed.

Lemma calls_mono {E A} (P P' : forall X, E X -> Prop) (Q Q' : A -> Prop) (p : prog E A) :
  (forall X e, P X e -> P' X e) -> (forall a, Q a -> Q' a) -> calls P Q p -> calls P' Q' p.
Proof.
  intros HP HQ. induction p as [[a| |]|X e k IH]; cbn; auto.
  intros [He Hk]. split; [by apply HP|]. intros x. by apply IH.
Qed.

Lemma calls_invoked {E A} (P : forall X, E X -> Prop) (p : prog E A) :
  invoked P p -> calls P (fun _ => True) p.
Proof. induction p as [[a| |]|X e k IH]; cbn; auto. intros [He Hk]. split; [done|]. intros x. by apply IH. Qed.

Lemma calls_trivial {E A} (p : prog E A) : calls (fun _ _ => True) (fun _ => True) p.
Proof. induction p as [[a| |]|X e k IH]; cbn; auto. Qed.

(** A state predicate kept by the calls in [P] is kept by a run. *)
Lemma run_sound {E A W} (h : forall X, E X -> W -> X * W) (P : forall X, E X -> Prop) (Q : A -> Prop)
    (I : W -> Prop) (p : prog E A) w :
  (forall X (c : E X) w, P X c -> I w -> I (h X c w).2) ->
  sound P Q p -> I w ->
  I (run h p w).2 /\ match (run h p w).1 with Ret a => Q a | Panic => False | OutOfFuel => True end.
Proof.
  intros Hh. revert w. induction p as [[a| |]|X e k IH]; intros w Hp Hw; cbn in *; try done.
  destruct Hp as [He Hk]. apply IH; [apply Hk|by apply Hh].
Qed.

Section Logic.
Context {T : Type} `{!LuaTables T} `{!MapOrder}.

Abbreviation HM := (@HM T).
Abbreviation Exec_state := (@Exec_state T).

Definition spec (P : forall X, lua_port X -> Prop) (I : Exec_state -> Prop) {A} (Q : A -> Prop) (m : HM A) : Prop :=
  forall st, I st ->
    sound P (fun r => I r.2 /\ match r.1 with inr a => Q a | inl _ => True end) (m st).

(** Running a component's program inside a script. *)
Lemma run_component {E A W} (h : forall X, lua_port X -> W -> X * W) (f : forall X, E X -> lua_port X)
    (p : prog E A) (st : Exec_state) w :
  run h (component f p st) w =
  let r := run (fun X c => h X (f X c)) p w in
  (match r.1 with
   | Ret a => Ret (inr a, st)
   | Panic => Ret (inl GoPanic, st)
   | OutOfFuel => OutOfFuel
   end, r.2).
Proof.
  unfold component. rewrite run_mbind. revert w. induction p as [[a| |]|X e k IH]; intros w; try done. apply IH.
Qed.

Section Rules.
Context (P : forall X, lua_port X -> Prop) (I : Exec_state -> Prop).

Lemma spec_ret {A} (Q : A -> Prop) a : Q a -> spec P I Q (mret a).
Proof. by intros Ha st Hst. Qed.

Lemma spec_raise {A} (Q : A -> Prop) err : spec P I Q (raise err).
Proof. by intros st Hst. Qed.

Lemma spec_bind {A B} (Q : A -> Prop) (R : B -> Prop) (m : HM A) (f : A -> HM B) :
  spec P I Q m -> (forall a, Q a -> spec P I R (f a)) -> spec P I R (m ≫= f).
Proof.
  intros Hm Hf st Hst. eapply sound_bind; [by apply Hm|]. intros [[err|a] st'] [HI HQ]; [done|].
  by apply Hf.
Qed.

Lemma spec_then {A B} (R : B -> Prop) (m : HM A) (f : A -> HM B) :
  spec P I (fun _ => True) m -> (forall a, spec P I R (f a)) -> spec P I R (m ≫= f).
Proof. intros Hm Hf. eapply spec_bind; [done|]. auto. Qed.

Lemma spec_ask {X} (e : lua_port X) : P X e -> spec P I (fun _ => True) (ask e).
Proof. intros He st Hst. split; [done|]. by intros x. Qed.

Lemma spec_put f : (forall st, I st -> I (f st)) -> spec P I (fun _ => True) (put_st f).
Proof. intros Hf st Hst. cbn. auto. Qed.

(** The state that was read satisfies the invariant. *)
Lemma spec_get {B} (R : B -> Prop) (f : Exec_state -> HM B) :
  (forall st, I st -> sound P (fun r => I r.2 /\ match r.1 with inr a => R a | inl _ => True end) (f st st)) ->
  spec P I R (get_st ≫= f).
Proof. intros Hf st Hst. by apply Hf. Qed.

Lemma spec_get_any {B} (R : B -> Prop) (f : Exec_state -> HM B) :
  (forall s, spec P I R (f s)) -> spec P I R (get_st ≫= f).
Proof. intros Hf. apply spec_get. intros st Hst. by apply Hf. Qed.

Lemma spec_guard {A} (o : outcome A) : spec P I (fun _ => True) (guard_outcome o).
Proof. intros st Hst. by destruct o. Qed.

Lemma spec_to_lingo depth v : spec P I (fun _ => True) (to_lingo depth v).
Proof. intros st Hst. by apply spec_guard. Qed.

Lemma spec_weaken {A} (Q Q' : A -> Prop) m : (forall a, Q a -> Q' a) -> spec P I Q m -> spec P I Q' m.
Proof.
  intros HQ Hm st Hst. eapply sound_mono; [done| |by apply Hm].
  intros [[err|a] st'] [HI Ha]; cbn in *; split; auto.
Qed.

Lemma spec_component {E A} (f : forall X, E X -> lua_port X) (Q : A -> Prop) (p : prog E A) :
  calls (fun X e => P X (f X e)) Q p -> spec P I Q (component f p).
Proof.
  intros Hp st Hst. eapply sound_bind; [by apply sound_protect|].
  intros [a|] Ha; cbn; auto.
Qed.

Lemma spec_attempt {A} (Q : A -> Prop) (m : HM A) :
  spec P I Q m -> spec P I (fun r => match r with inr a => Q a | inl _ => True end) (attempt m).
Proof.
  intros Hm st Hst. eapply sound_bind; [by apply Hm|]. intros [r st'] [HI HQ]. by split.
Qed.

Lemma spec_tables {A} (m : LM T A) :
  (forall st h, I st -> I (with_heap h st)) -> spec P I (fun _ => True) (tables m).
Proof.
  intros Hh st Hst. unfold tables. destruct (m (x_heap st)) as [[a h]| |]; cbn; auto.
Qed.

Lemma spec_registered {A} (Q : A -> Prop) b (m : HM A) : spec P I Q m -> spec P I Q (registered b m).
Proof. destruct b; [done|]. intros _. apply spec_raise. Qed.
End Rules.

End Logic.

(** Splits a function of [mus] along its binds and branches. *)
Ltac host_step :=
  lazymatch goal with
  | |- spec _ _ _ (mret _) => apply spec_ret; exact I
  | |- spec _ _ _ (raise _) => apply spec_raise
  | |- spec _ _ _ (guard_outcome _) => apply spec_guard
  | |- spec _ _ _ (to_lingo _ _) => apply spec_to_lingo
  | |- spec _ _ _ (ask _) => apply spec_ask; solve [cbn; auto]
  | |- spec _ _ _ (get_st ≫= _) => apply spec_get_any; intros ?
  | |- spec _ _ _ (_ ≫= _) => apply spec_then; [|intros ?]
  | |- spec _ _ _ (put_st _) => apply spec_put; solve [auto]
  | |- spec _ _ _ (match ?x with _ => _ end) => destruct x
  end.

Ltac host := repeat host_step.

Section Functions.
Context {T : Type} `{!LuaTables T} `{!MapOrder}.

Abbreviation HM := (@HM T).
Abbreviation Exec_state := (@Exec_state T).

(** ** The functions beside queries and locks *)

Section Plain.
Context (CheckString : luav -> option string) (CheckNumber CheckInt : luav -> option Z)
  (value_text : luav -> string) (depth : nat) (e : Wiring) (msg : ScriptMessage)
  (error_text : error -> string).

Abbreviation mus := (mus CheckString CheckNumber CheckInt value_text depth e msg error_text).

(** The adapter calls a function of [mus.db] makes. *)
Definition db_calls (m : db_method) {X} (op : adapter_op X) : Prop :=
  match op with
  | ADb op =>
      match op with
      | Ports.GetPlayerAttribute _ _ _ => m = MGetPlayerAttribute
      | Ports.SetPlayerAttribute _ _ _ _ => m = MSetPlayerAttribute
      | Ports.DeletePlayerAttribute _ _ _ => m = MDeletePlayerAttribute
      | Ports.GetPlayerAttributeNames _ _ => m = MGetPlayerAttributeNames
      | Ports.GetApplicationAttribute _ _ => m = MGetApplicationAttribute
      | Ports.SetApplicationAttribute _ _ _ => m = MSetApplicationAttribute
      | Ports.DeleteApplicationAttribute _ _ => m = MDeleteApplicationAttribute
      | Ports.GetApplicationAttributeNames _ => m = MGetApplicationAttributeNames
      | Ports.CreateApplication _ => m = MCreateApplication
      | Ports.DeleteApplication _ => m = MDeleteApplication
      | Ports.CreateUser _ _ _ => m = MCreateUser
      | Ports.DeleteUser _ => m = MDeleteUser
      | Ports.GetUser _ => m = MGetUser \/ m = MBan \/ m = MRevokeBan
      | Ports.CreateBan _ _ _ _ => m = MBan
      | Ports.GetActiveBanByUserID _ | Ports.RevokeBan _ => m = MRevokeBan
      | Ports.GetActiveBanByIP _ => False
      end
  | AUpdateUserPassword _ _ => m = MSetPassword
  | _ => False
  end.

(** The calls of the functions that touch neither queries nor locks, each with
    the function it belongs to: [by_] is the set of functions the script uses.
    [SendMessageFn] routes from the player the script runs for, [Broadcast] from
    the server. *)
Definition plain_call (by_ : musfn -> Prop) {X} (c : lua_port X) : Prop :=
  match c with
  | PSql _ | AcquireLock _ _ | ReleaseLock _ => False
  | PDb op => exists m, by_ (Db_ m) /\ db_calls m op
  | PSess op =>
      match op with
      | GetAllConnections => by_ GetUserCount \/ by_ Broadcast
      | IsConnected _ => by_ IsOnline
      | _ => False
      end
  | PToken _ => (exists m, by_ (Cache_ m)) \/ by_ TokenIssue \/ by_ TokenValidate
  | Publish _ _ => by_ PublishFn
  | SendFrom wireFrom routingSender recipientID _ _ =>
      wireFrom = systemScriptSender /\
      (by_ SendMessageFn /\ routingSender = sm_SenderID msg /\ recipientID <> ""%string \/
       by_ Broadcast /\ routingSender = systemScriptSender)
  | Mail m => by_ EmailSend /\ em_From m = ""%string /\ em_SMTPHost m = ""%string
  | Compare _ _ => by_ BcryptVerify
  | Generate _ => by_ (Db_ MCreateUser) \/ by_ (Db_ MSetPassword)
  | Uuid => by_ UuidFn
  | TimeNow => by_ TimeFn
  | Log LogFatal _ _ => by_ (LogFn LogFatal)
  | Log _ _ _ => True
  end.

Definition plain (f : musfn) : bool :=
  match f with TableFn | Query_ _ | Cache_ MLock => false | _ => true end.

(** A property of the state that ignores tables and response. *)
Definition stable (J : Exec_state -> Prop) : Prop :=
  (forall st h, J st -> J (with_heap h st)) /\ (forall st r, J st -> J (with_result r st)).

Context (by_ : musfn -> Prop) (J : Exec_state -> Prop) (HJ : stable J).

Abbreviation plain_spec := (spec (@plain_call by_) J (fun _ => True)).

Lemma plain_check_string args n : plain_spec (check_string CheckString args n).
Proof. unfold check_string. host. Qed.
Lemma plain_check_int args n : plain_spec (check_int CheckInt args n).
Proof. unfold check_int. host. Qed.
Lemma plain_check_table args n : plain_spec (check_table args n).
Proof. unfold check_table. host. Qed.
Lemma plain_opt_int args n d : plain_spec (opt_int CheckInt args n d).
Proof. unfold opt_int. destruct (Get_arg args n); try apply plain_check_int. host. Qed.
Lemma plain_tables {A} (m : LM T A) : plain_spec (tables m).
Proof. apply spec_tables, HJ. Qed.
Lemma plain_cache_call {X} m (op : cache_op X) : by_ (Cache_ m) -> plain_spec (cache_call op).
Proof. intros Hm. unfold cache_call. apply spec_then; [apply spec_ask; cbn; eauto|]. intros o. host. Qed.
Lemma plain_token {A} (p : prog token_port A) : by_ TokenIssue \/ by_ TokenValidate -> plain_spec (token p).
Proof. intros Hf. apply spec_component. eapply calls_mono; [|done|apply calls_trivial]. cbn. tauto. Qed.

Ltac plain_ask := cbn; repeat first [done | eassumption | split | left; solve [plain_ask] | right; solve [plain_ask] | eexists].

Ltac plain_step :=
  lazymatch goal with
  | |- spec _ _ _ (check_string _ _ _) => apply plain_check_string
  | |- spec _ _ _ (check_int _ _ _) => apply plain_check_int
  | |- spec _ _ _ (check_table _ _) => apply plain_check_table
  | |- spec _ _ _ (opt_int _ _ _ _) => apply plain_opt_int
  | |- spec _ _ _ (tables _) => apply plain_tables
  | |- spec _ _ _ (cache_call _) => eapply plain_cache_call; eassumption
  | |- spec _ _ _ (token _) => apply plain_token; tauto
  | |- spec _ _ _ (ask _) => apply spec_ask; solve [plain_ask]
  | |- spec _ _ _ process_ends => by intros ? ?
  | _ => host_step
  end.

Ltac plain_host := repeat plain_step.

Lemma plain_broadcast subject content conns : by_ Broadcast -> plain_spec (broadcast_loop subject content conns).
Proof.
  intros Hby. induction conns as [|c conns IH]; cbn [broadcast_loop]; unfold none; [host|].
  apply spec_then; [apply spec_ask; cbn; tauto|]. intros err. host; apply IH.
Qed.

Lemma plain_engine f args :
  match f with GetSender | GetContent | GetSubject | Response | PublishFn | SendMessageFn | UuidFn => True | _ => False end ->
  by_ f -> plain_spec (mus f args).
Proof.
  destruct HJ as [Hh Hr]. destruct f; try done; intros _ Hby; cbn [LuaHost.mus];
    unfold mus_getSender, mus_getContent, mus_getSubject, mus_response, mus_publish, mus_sendMessage, mus_uuid,
      answer, one, none, to_lua; plain_host.
Qed.

Lemma plain_db m args : by_ (Db_ m) -> plain_spec (mus (Db_ m) args).
Proof.
  intros Hby. cbn [LuaHost.mus]. apply spec_registered. destruct m; cbn [db_function];
    unfold db_getPlayerAttribute, db_setPlayerAttribute, db_deletePlayerAttribute, db_getPlayerAttributeNames,
      db_getApplicationAttribute, db_setApplicationAttribute, db_deleteApplicationAttribute,
      db_getApplicationAttributeNames, db_createApplication, db_deleteApplication, db_createUser, db_setPassword,
      db_deleteUser, db_getUser, db_ban, db_revokeBan, on_db, value_or_nil, names_or_empty, or_raise,
      string_table, fields, to_lua, answer, one, none; plain_host.
Qed.

Lemma plain_cache m args : m <> MLock -> by_ (Cache_ m) -> plain_spec (mus (Cache_ m) args).
Proof.
  intros Hm Hby. cbn [LuaHost.mus]. apply spec_registered. destruct m; try done; cbn [cache_function];
    unfold cache_get, cache_set, cache_increment, cache_delete, cache_exists, cache_setAdd, cache_setAddOnce,
      cache_setRemove, cache_setMembers, cache_setIsMember, ok_or_false, bool_or_false, counted, string_table,
      answer, one, none; plain_host.
Qed.

Lemma plain_log level args : by_ (LogFn level) -> plain_spec (mus (LogFn level) args).
Proof.
  intros Hby. cbn [LuaHost.mus]. unfold makeLogFn, luaArgsToFields, none. destruct level; plain_host.
Qed.

Lemma plain_rest f args :
  match f with
  | GetUserCount | IsOnline | Broadcast | EmailSend | BcryptVerify | TokenIssue | TokenValidate | TimeFn => True
  | _ => False
  end -> by_ f -> plain_spec (mus f args).
Proof.
  destruct f; try done; intros _ Hby; cbn [LuaHost.mus]; try apply spec_registered;
    unfold server_getUserCount, server_isOnline, server_broadcast, email_send, bcrypt_verify, token_issue,
      token_validate, time_now, fields, answer, one, none; plain_host; by apply plain_broadcast.
Qed.

Lemma mus_plain f args : plain f = true -> by_ f -> plain_spec (mus f args).
Proof.
  destruct f as [| | | | | | | |m|m|m| | | | | | | | |]; intros Hf Hby; try discriminate;
    try (by apply plain_engine); try (by apply plain_rest); [by apply plain_db| |by apply plain_log].
  apply plain_cache; [by destruct m|done].
Qed.
End Plain.

(** ** The functions of query objects *)

Section Queries.
Context (CheckString : luav -> option string) (CheckNumber CheckInt : luav -> option Z)
  (value_text : luav -> string).
Context (P : forall X, lua_port X -> Prop) (J : Exec_state -> Prop) (HJ : stable J).

(** [B] holds of the query objects a script may use, those outside [O], and is
    kept by the conditions added to a query. *)
Context (O : gset nat) (B : sqlQuery -> Prop).
Hypothesis B_where : forall q col v, B q -> B (Where q col v).
Hypothesis B_less : forall q col v, B q -> B (WhereLessThan q col v).
Hypothesis J_queries : forall st u q, J st -> u ∉ O -> x_queries st !! u = Some q -> B q.
Hypothesis J_wrap : forall st q, J st -> B q ->
  J (with_queries (<[fresh (dom (x_queries st)) := q]> (x_queries st)) st).
Hypothesis B_run : forall q X (op : query_op X), B q -> calls (fun X c => P X (PSql c)) (fun _ => True) (query_run q op).

Lemma checkQuery_spec args :
  (forall u, Get_arg args 1 = LUser u -> u ∉ O) -> spec P J B (checkQuery args).
Proof.
  intros Harg. apply spec_get. intros st Hst.
  destruct (Get_arg args 1) as [| | | | |u|] eqn:Hu; try done.
  destruct (x_queries st !! u) as [q|] eqn:Hq; [|done]. split; [done|]. eapply J_queries; [done| |done].
  by apply Harg.
Qed.

Lemma wrapQuery_spec q : B q -> spec P J (fun _ => True) (wrapQuery q).
Proof. intros Hq st Hst. split; [|done]. by apply J_wrap. Qed.

Lemma query_sql {X} q (op : query_op X) : B q -> spec P J (fun _ => True) (sql (query_run q op)).
Proof. intros Hq. apply spec_component. by apply B_run. Qed.

Lemma append_rows_spec l rows : spec P J (fun _ => True) (append_rows l rows).
Proof.
  induction rows as [|row rows IH]; cbn [append_rows]; unfold one; [host|].
  apply spec_then; [apply spec_tables, HJ|]. intros v. apply spec_then; [apply spec_tables, HJ|]. done.
Qed.

Lemma luaTableToMap_spec l : spec P J (fun _ => True) (luaTableToMap value_text l).
Proof. unfold luaTableToMap. host. Qed.

Ltac query_step :=
  lazymatch goal with
  | |- spec _ _ _ (check_string _ _ _) => unfold check_string; host
  | |- spec _ _ _ (check_number _ _ _) => unfold check_number; host
  | |- spec _ _ _ (check_table _ _) => unfold check_table; host
  | |- spec _ _ _ (luaTableToMap _ _) => apply luaTableToMap_spec
  | |- spec _ _ _ (append_rows _ _) => apply append_rows_spec
  | |- spec _ _ _ (tables _) => apply spec_tables, HJ
  | |- spec _ _ _ (wrapQuery _) => apply wrapQuery_spec; auto
  | _ => host_step
  end.

Lemma queryIndex_spec m args :
  (forall u, Get_arg args 1 = LUser u -> u ∉ O) ->
  spec P J (fun _ => True) (queryIndex CheckString CheckNumber value_text m args).
Proof.
  intros Harg. destruct m; cbn [queryIndex];
    (eapply spec_bind; [by apply checkQuery_spec|]); intros q Hq;
    unfold counted, rowToLuaTable, fields, answer, one, none.
  - repeat query_step.
  - repeat query_step.
  - apply spec_then; [apply (query_sql q QFirst Hq)|]. intros ?. repeat query_step.
  - apply spec_then; [apply (query_sql q QGet Hq)|]. intros ?. repeat query_step.
  - repeat query_step. apply (query_sql q (QInsert _) Hq).
  - repeat query_step. apply (query_sql q (QUpdate _) Hq).
  - repeat query_step. apply (query_sql q (QIncrement _ _) Hq).
  - apply spec_then; [apply (query_sql q QDelete Hq)|]. intros ?. repeat query_step.
  - apply spec_then; [apply (query_sql q QCount Hq)|]. intros ?. repeat query_step.
Qed.
End Queries.

(** ** The functions that take locks *)

Section Locking.
Context (CheckString : luav -> option string) (e : Wiring).
Context (P : forall X, lua_port X -> Prop) (J : Exec_state -> Prop).
Hypothesis P_acquire : forall ctx key, P _ (AcquireLock ctx key).
Hypothesis P_release : forall lease, P _ (ReleaseLock lease).
Hypothesis J_locks : forall st L c, J st -> J (with_locks L c st).
Hypothesis J_depth : forall st dep, J st -> J (with_depth dep st).

Lemma spec_cache_lock args : spec P J (fun _ => True) (cache_lock CheckString args).
Proof.
  unfold cache_lock, none. apply spec_then; [unfold check_string; host|]. intros key.
  apply spec_get_any. intros st0. destruct (x_locks st0 !! key); [host|].
  destruct (0 <? x_scopedDepth st0); [host|]. apply spec_then; [by apply spec_ask|].
  intros [err|lease]; [host|]. apply spec_then; [apply spec_put; auto|]. intros _. host.
Qed.

Lemma spec_scoped fn : spec P J (fun _ => True) fn -> spec P J (fun _ => True) (scoped fn).
Proof.
  intros Hfn. unfold scoped. apply spec_then; [apply spec_put; auto|]. intros _.
  apply spec_then; [eapply spec_weaken; [|by apply spec_attempt]; done|]. intros r.
  apply spec_then; [apply spec_put; auto|]. intros _. host.
Qed.

Lemma spec_withLock key fn : spec P J (fun _ => True) fn -> spec P J (fun _ => True) (withLock e key fn).
Proof.
  intros Hfn. unfold withLock. apply spec_registered, spec_get_any. intros st0.
  destruct (x_locks st0 !! key); [apply spec_then; [by apply spec_scoped|intros []; unfold callback_result; host]|].
  destruct (0 <? x_scopedDepth st0); [apply spec_raise|].
  apply spec_then; [by apply spec_ask|]. intros [err|lease]; [apply spec_raise|]. unfold with_lease.
  apply spec_then; [apply spec_put; auto|]. intros _. apply spec_then; [by apply spec_scoped|]. intros r.
  apply spec_then; [by apply spec_ask|]. intros rel. apply spec_then; [apply spec_put; auto|]. intros _.
  unfold callback_result. host.
Qed.
End Locking.
End Functions.
