(* ===== verification/LuaProps.v ===== *)
(** * What scripts can and cannot do

    [script_confined]: the calls any script can cause. [script_locks_released]:
    the cache locks of an execution end with it. [script_transaction_atomic]:
    [mus.db.transaction] is all or nothing. The theorems quantify over all
    scripts and over all answers of the ports. *)

From Stdlib Require Import ZArith Lia.
From Stdlib Require Import Strings.Byte.
From stdpp Require Import base list strings option gmap sorting.
From S2P Require Import Prelude GoFmt Utf8 Json LValue LExtract LParse LRoundtrip Smus Effects Protocol Ports.
From S2P Require Import Codec SessionStore Rfc3339 Cache TokenStore SqlText SqlBuilder SqlDB LuaValue Paths ScriptPath LuaHost LuaSpec.
From S2P Require Import SqlSchema Migrations.

Open Scope Z_scope.

Section Scripts.
Context {T : Type} `{!LuaTables T} `{!MapOrder}.
Context (CheckString : luav -> option string) (CheckNumber CheckInt : luav -> option Z)
  (value_text : luav -> string) (depth : nat) (e : Wiring) (msg : ScriptMessage)
  (error_text : error -> string).
Context (eng : LuaScriptEngine) (wd : option string) (exists_file : string -> bool).

Abbreviation script := (@script T).
Abbreviation state := (@Exec_state T).
Abbreviation HM := (@LuaHost.HM T).
Abbreviation mus := (mus CheckString CheckNumber CheckInt value_text depth e msg error_text).
Abbreviation exec := (exec CheckString CheckNumber CheckInt value_text depth e msg error_text).
Abbreviation transaction := (transaction e).
Abbreviation withLock := (withLock e).

Lemma resolve_loop_calm n c : resolve_loop eng wd exists_file n c <> Panic.
Proof.
  revert c. induction n as [|n IH]; intros c; [done|]. cbn [resolve_loop].
  assert (Hn : match cut_last_dash c with
               | None | Some EmptyString => Ret None
               | Some c => resolve_loop eng wd exists_file n c
               end <> Panic) by (destruct (cut_last_dash c) as [[|]|]; [done|apply IH|done]).
  destruct (resolveScriptPath eng wd c); [|exact Hn]. by destruct (exists_file _).
Qed.

Lemma resolveScript_calm subject : resolveScript eng wd exists_file subject <> Panic.
Proof. apply resolve_loop_calm. Qed.

(** ** Confinement *)

Section Confined.
Context (d : dialect).

(** Statements of the query builder with their values bound, and the ends of
    transactions; no other SQL. *)
Definition script_sql {X} (c : sql_port X) : Prop :=
  match c with
  | Exec _ query args => bound_text d query args
  | Query _ query args => bound_text d query args
  | QueryRow _ _ query args => bound_text d query args
  | Begin | CommitTx _ | RollbackTx _ => True
  | _ => False
  end.

(** The functions the script uses. *)
Context (by_ : musfn -> Prop).

Definition confined_call {X} (c : lua_port X) : Prop :=
  match c with
  | PSql c => script_sql c
  | AcquireLock _ _ | ReleaseLock _ => True
  | _ => plain_call msg by_ c
  end.

Fixpoint only (s : script) : Prop :=
  match s with
  | SReturn _ | SError _ => True
  | SRead k => forall hp, only (k hp)
  | SWrite _ k => only k
  | SCall f _ k => by_ f /\ forall vs, only (k vs)
  | SPcall body k => only body /\ forall r, only (k r)
  | STransaction fn k | SWithLock _ fn k => only fn /\ forall vs, only (k vs)
  end.

Definition bound_state (st : state) : Prop :=
  (forall u q, x_queries st !! u = Some q -> exists ex, built ex d q) /\
  (forall tx, x_active st = Some tx -> exists t, tx = sqlTx t d).

Lemma bound_state_stable : stable bound_state.
Proof. by split. Qed.

Lemma plain_confined {X} (c : lua_port X) : plain_call msg by_ c -> confined_call c.
Proof. by destruct c. Qed.

Lemma query_confined q {X} (op : query_op X) :
  (exists ex, built ex d q) -> calls (fun X c => confined_call (PSql c)) (fun _ => True) (query_run q op).
Proof.
  intros [ex Hq]. apply calls_invoked. eapply invoked_mono; [|by apply (statements_bound ex d)].
  intros Y c Hc. destruct c; cbn in *; try done; by destruct Hc.
Qed.

Hypothesis wired : forall qb, root_builder e = Some qb -> qb = mkBuilder RootPool d.

Abbreviation confined_spec := (spec (@confined_call) bound_state (fun _ => True)).

Lemma spec_calls_mono {A} (P P' : forall X, lua_port X -> Prop) (J : state -> Prop) (Q : A -> Prop) m :
  (forall X c, P X c -> P' X c) -> spec P J Q m -> spec P' J Q m.
Proof. intros HP Hm st Hst. eapply sound_mono; [exact HP| |by apply Hm]. done. Qed.

Lemma wrap_bound st q :
  bound_state st -> (exists ex, built ex d q) ->
  bound_state (with_queries (<[fresh (dom (x_queries st)) := q]> (x_queries st)) st).
Proof.
  intros [H1 H2] Hq. split; [|done]. intros u q'. cbn.
  destruct (decide (u = fresh (dom (x_queries st)))) as [->|Hne].
  - rewrite lookup_insert_eq. by intros [= <-].
  - rewrite lookup_insert_ne by done. apply H1.
Qed.

Lemma table_confined args : confined_spec (mus TableFn args).
Proof.
  cbn [LuaHost.mus]. unfold mus_table. destruct (root_builder e) as [qb|] eqn:Hqb; [|apply spec_raise].
  rewrite (wired qb eq_refl). apply spec_then; [unfold check_string; host|]. intros name. apply spec_get. intros st Hst.
  assert (Hq : exists ex, built ex d (active_Table (mkBuilder RootPool d) (x_active st) name)).
  { destruct (x_active st) as [tx|] eqn:Ha; cbn.
    - destruct (proj2 Hst tx Ha) as [t ->]. exists (InTx t). apply (built_Table (InTx t) d).
    - exists RootPool. apply (built_Table RootPool d). }
  cbn. split; [|done]. by apply wrap_bound.
Qed.

Lemma lock_confined args : confined_spec (mus (Cache_ MLock) args).
Proof. cbn [LuaHost.mus cache_function]. by apply spec_registered, spec_cache_lock. Qed.

Lemma mus_confined f args : by_ f -> confined_spec (mus f args).
Proof.
  intros Hby. destruct (plain f) eqn:Hf.
  - eapply spec_calls_mono; [by apply @plain_confined|]. by apply mus_plain; [apply bound_state_stable| |].
  - destruct f as [| | | | | | | |m| |m| | | | | | | | |]; try discriminate.
    + apply table_confined.
    + cbn [LuaHost.mus]. apply spec_registered.
      apply (queryIndex_spec _ _ _ _ bound_state bound_state_stable ∅ (fun q => exists ex, built ex d q)).
      * intros q col v [ex Hq]. exists ex. by constructor.
      * intros q col v [ex Hq]. exists ex. by constructor.
      * intros st u q [H1 _] _. apply H1.
      * apply wrap_bound.
      * intros q X op. apply query_confined.
      * set_solver.
    + destruct m; try discriminate. apply lock_confined.
Qed.

Lemma put_active_bound a :
  (forall tx, a = Some tx -> exists t, tx = sqlTx t d) ->
  spec (@confined_call) bound_state (fun _ => True) (put_st (with_active a)).
Proof. intros Ha. apply spec_put. intros st [H1 H2]. by split. Qed.

Lemma finalize_confined t r : confined_spec (finalize (sqlTx t d) r).
Proof.
  assert (Hrb : spec (@confined_call) bound_state (fun _ => True) (sql (Tx_Rollback (sqlTx t d))))
    by (apply spec_component; by repeat split).
  unfold finalize, one. destruct r as [err|rets]; [host; exact Hrb|].
  destruct (decide _); [host; exact Hrb|].
  apply spec_bind with (Q := fun c => c.2 = sqlTx t d).
  - apply spec_component. by repeat split.
  - intros [[err|] x] Hx; cbn in Hx |- *; subst x; host. exact Hrb.
Qed.

Lemma transaction_confined fn : confined_spec fn -> confined_spec (transaction fn).
Proof.
  intros Hfn. unfold LuaHost.transaction. destruct (root_builder e) as [qb|] eqn:Hqb; [|apply spec_raise].
  rewrite (wired qb eq_refl). clear Hqb. apply spec_get_any. intros st0.
  destruct (x_active st0); [apply spec_raise|].
  apply spec_bind with (Q := fun b => match b with inr tx => exists t, tx = sqlTx t d | inl _ => True end).
  - apply spec_component. split; [done|]. intros [err|t]; cbn; eauto.
  - intros [err|tx] Hb; [apply spec_raise|]. destruct Hb as [t ->]. unfold in_transaction.
    apply spec_then; [apply put_active_bound; intros tx [= <-]; eauto|]. intros _.
    apply spec_then; [eapply spec_weaken; [|by apply spec_attempt]; done|]. intros r.
    apply spec_then; [by apply put_active_bound|]. intros _. apply finalize_confined.
Qed.

Lemma exec_confined (s : script) : only s -> confined_spec (exec s).
Proof.
  induction s as [vs|err|k IH|h k IH|f args k IH|body IHb k IH|fn IHf k IH|key fn IHf k IH];
    cbn [LuaHost.exec only]; intros Hs.
  - host.
  - host.
  - intros st Hst. by apply IH.
  - intros st Hst. apply IH; [done|]. by apply bound_state_stable.
  - destruct Hs as [Hf Hk]. apply spec_then; [by apply mus_confined|]. intros vs. by apply IH.
  - destruct Hs as [Hb Hk].
    apply spec_then; [eapply spec_weaken; [|by apply spec_attempt, IHb]; done|]. intros r. by apply IH.
  - destruct Hs as [Hf Hk]. apply spec_then; [by apply transaction_confined, IHf|]. intros vs. by apply IH.
  - destruct Hs as [Hf Hk]. apply spec_then; [by apply spec_withLock; try apply IHf|]. intros vs. by apply IH.
Qed.
End Confined.

Lemma release_all_confined (d : dialect) by_ leases err :
  sound (@confined_call d by_) (fun _ => True) (release_all leases err).
Proof. revert err. induction leases as [|l leases IH]; intros err; [done|]. split; [done|]. intros x. apply IH. Qed.


(** ** Locks *)

Definition no_lock {X} (c : lua_port X) : Prop :=
  match c with AcquireLock _ _ | ReleaseLock _ => False | _ => True end.

(** A cache whose leases are held until they are released: [Release] ends the
    ownership, whatever it answers. *)
Class Leases {W} (h : forall X, lua_port X -> W -> X * W) := {
  held : W -> gset nat;
  acquire_law ctx key w :
    match h _ (AcquireLock ctx key) w with
    | (inl _, w') => held w' = held w
    | (inr l, w') => l ∉ held w /\ held w' = {[l]} ∪ held w
    end;
  release_law l w : held (h _ (ReleaseLock l) w).2 = held w ∖ {[l]};
  other_law X (c : lua_port X) w : no_lock c -> held (h _ c w).2 = held w
}.

Section Locks.
Context {W : Type} (h : forall X, lua_port X -> W -> X * W) `{!Leases h}.

(** What the closure variables of lua_cache_module.go say, fixed. *)
Definition frame (L : gmap string nat) (dep : Z) (st : state) : Prop :=
  x_locks st = L /\ x_scopedDepth st = dep.

Lemma frame_stable L dep : stable (frame L dep).
Proof. by split. Qed.

Abbreviation frame_spec := (fun L dep => spec (@no_lock) (frame L dep) (fun _ => True)).

Lemma mus_frame f args L dep : f <> Cache_ MLock -> frame_spec L dep (mus f args).
Proof.
  intros Hf. destruct (plain f) eqn:Hp.
  - eapply spec_calls_mono; [|by apply (mus_plain _ _ _ _ _ _ _ _ (fun _ => True)); [apply frame_stable| |]].
    intros X c Hc. by destruct c.
  - destruct f as [| | | | | | | |m| |m| | | | | | | | |]; try discriminate.
    + cbn [LuaHost.mus]. unfold mus_table, answer, one. destruct (root_builder e); [|apply spec_raise].
      apply spec_then; [unfold check_string; host|]. intros name. apply spec_get_any. intros st0.
      apply spec_then; [by intros st Hst|]. intros v. host.
    + cbn [LuaHost.mus]. apply spec_registered.
      apply (queryIndex_spec _ _ _ _ (frame L dep) (frame_stable L dep) ∅ (fun _ => True)); try done.
      intros q X op _. eapply calls_mono; [|done|apply calls_trivial]. done.
    + by destruct m.
Qed.

Context (H0 : gset nat).

(** The leases held for the execution are those in its [locks] map. *)
Definition lock_inv (st : state) (w : W) : Prop :=
  held w = H0 ∪ map_img (x_locks st) /\ H0 ## map_img (x_locks st) /\
  (forall k1 k2 l, x_locks st !! k1 = Some l -> x_locks st !! k2 = Some l -> k1 = k2) /\
  0 <= x_scopedDepth st.

Definition keeps_locks {A} (m : HM A) : Prop :=
  forall st w, lock_inv st w ->
    match (run h (m st) w).1 with
    | Ret (_, st') =>
        lock_inv st' (run h (m st) w).2 /\ x_scopedDepth st' = x_scopedDepth st /\
        (0 < x_scopedDepth st -> x_locks st' = x_locks st)
    | Panic => False
    | OutOfFuel => True
    end.

Lemma run_HM_bind {A B} (m : HM A) (f : A -> HM B) st w :
  run h ((m ≫= f) st) w =
  run_then (run h (m st) w) (fun r w' => match r.1 with inl err => (Ret (inl err, r.2), w') | inr a => run h (f a r.2) w' end).
Proof.
  unfold mbind, HM_bind. rewrite run_bind. unfold run_then. destruct (run h (m st) w) as [[[[err|a] st']| |] w']; done.
Qed.

Lemma run_get {B} (f : state -> HM B) st w : run h ((get_st ≫= f) st) w = run h (f st st) w.
Proof. reflexivity. Qed.

Lemma keeps_bind {A B} (m : HM A) (f : A -> HM B) :
  keeps_locks m -> (forall a, keeps_locks (f a)) -> keeps_locks (m ≫= f).
Proof.
  intros Hm Hf st w Hi. rewrite run_HM_bind. specialize (Hm st w Hi).
  destruct (run h (m st) w) as [[[[err|a] st']| |] w']; cbn in *; try done.
  destruct Hm as (Hi' & Hd & Hl). specialize (Hf a st' w' Hi').
  destruct (run h (f a st') w') as [[[r st'']| |] w'']; cbn in *; try done.
  destruct Hf as (Hi'' & Hd' & Hl'). split_and!; [done|congruence|]. intros Hpos.
  rewrite Hl' by lia. by apply Hl.
Qed.

Lemma keeps_frame {A} (m : HM A) : (forall L dep, frame_spec L dep m) -> keeps_locks m.
Proof.
  intros Hm st w Hi. pose proof (Hm _ _ st (conj eq_refl eq_refl)) as Hs.
  assert (Hk : forall X (c : lua_port X) w1, no_lock c -> held w1 = held w -> held (h X c w1).2 = held w)
    by (intros X c w1 Hc <-; by apply other_law).
  destruct (run_sound h (@no_lock) _ (fun w' => held w' = held w) (m st) w Hk Hs eq_refl) as [Hh Hr].
  destruct (run h (m st) w) as [[[r st']| |] w']; cbn in *; try done.
  destruct Hr as [[Hl Hd] _]. destruct Hi as (H1 & H2 & H3 & H4).
  split_and!; try done. rewrite <- Hl in H1, H2, H3. rewrite <- Hd in H4. split_and!; try done. by rewrite Hh.
Qed.

Lemma keeps_attempt {A} (m : HM A) : keeps_locks m -> keeps_locks (attempt m).
Proof.
  intros Hm st w Hi. specialize (Hm st w Hi). unfold attempt. rewrite run_mbind. unfold run_then.
  by destruct (run h (m st) w) as [[[r st']| |] w'].
Qed.

Lemma keeps_get {B} (f : state -> HM B) : (forall s, keeps_locks (f s)) -> keeps_locks (get_st ≫= f).
Proof. intros Hf st w Hi. by apply Hf. Qed.

Lemma frame_sql {A} (p : SQL A) L dep : frame_spec L dep (sql p).
Proof. apply spec_component. eapply calls_mono; [|done|apply calls_trivial]. done. Qed.

Lemma keeps_transaction fn : keeps_locks fn -> keeps_locks (transaction fn).
Proof.
  intros Hfn. unfold LuaHost.transaction. destruct (root_builder e) as [qb|]; [|apply keeps_frame; intros; host].
  apply keeps_get. intros s. destruct (x_active s); [apply keeps_frame; intros; host|].
  apply keeps_bind; [apply keeps_frame, frame_sql|]. intros [err|tx]; [apply keeps_frame; intros; host|].
  unfold in_transaction.
  apply keeps_bind; [apply keeps_frame; intros L dep; apply spec_put; by intros st []|]. intros _.
  apply keeps_bind; [by apply keeps_attempt|]. intros r.
  apply keeps_bind; [apply keeps_frame; intros L dep; apply spec_put; by intros st []|]. intros _.
  apply keeps_frame. intros L dep. unfold finalize, one. destruct r; [|destruct (decide _)]; host; apply frame_sql.
Qed.

Lemma lock_inv_acquired st w key l w' c :
  lock_inv st w -> x_locks st !! key = None -> l ∉ held w -> held w' = {[l]} ∪ held w ->
  lock_inv (with_locks (<[key := l]> (x_locks st)) c st) w'.
Proof.
  intros (H1 & H2 & H3 & H4) Hk Hl Hh.
  assert (Himg : map_img (<[key := l]> (x_locks st)) = {[l]} ∪ map_img (x_locks st) :> gset nat)
    by (by apply map_img_insert_notin_L).
  assert (Hni : forall k, x_locks st !! k <> Some l).
  { intros k Hk'. apply Hl. rewrite H1. apply elem_of_union_r, elem_of_map_img. by exists k. }
  split_and!; cbn [x_locks x_scopedDepth with_locks]; [rewrite Himg, Hh, H1; set_solver|rewrite Himg; set_solver| |done].
  intros k1 k2 l'.
  destruct (decide (k1 = key)) as [->|N1]; destruct (decide (k2 = key)) as [->|N2];
    rewrite ?lookup_insert_eq, ?lookup_insert_ne by done; [done| | |apply H3].
  - intros [= <-] Hc. by apply Hni in Hc.
  - intros Hc [= <-]. by apply Hni in Hc.
Qed.

Lemma keeps_lock args : keeps_locks (mus (Cache_ MLock) args).
Proof.
  cbn [LuaHost.mus cache_function]. destruct (has_cache e); cbn [registered]; [|apply keeps_frame; intros; host].
  unfold cache_lock. apply keeps_bind; [apply keeps_frame; intros; unfold check_string; host|]. intros key st w Hi.
  rewrite run_get.
  destruct (x_locks st !! key) as [l|] eqn:Hk; [by split_and!|].
  destruct (Z.ltb_spec 0 (x_scopedDepth st)) as [Hd|Hd]; [by split_and!|].
  rewrite run_HM_bind. unfold ask. rewrite run_mbind, run_call. cbn.
  pose proof (acquire_law (x_context st) key w) as Ha.
  destruct (h _ (AcquireLock (x_context st) key) w) as [[err|l] w']; cbn.
  - split_and!; [|done|done]. destruct Hi as (H1 & H2). split; [by rewrite Ha|done].
  - destruct Ha as [Hl Hh]. split_and!; [by eapply lock_inv_acquired|done|lia].
Qed.

(** The callback of [withLock] leaves the locks as they are. *)
Lemma keeps_scoped fn st w :
  keeps_locks fn -> lock_inv st w ->
  match (run h (scoped fn st) w).1 with
  | Ret (r, st') =>
      lock_inv st' (run h (scoped fn st) w).2 /\ x_scopedDepth st' = x_scopedDepth st /\
      x_locks st' = x_locks st /\ exists r', r = inr r'
  | Panic => False
  | OutOfFuel => True
  end.
Proof.
  intros Hfn Hi. unfold scoped. rewrite run_HM_bind. cbn. rewrite run_HM_bind.
  assert (Hi' : lock_inv (with_depth (x_scopedDepth st + 1) st) w).
  { destruct Hi as (H1 & H2 & H3 & H4). split_and!; try done. cbn. lia. }
  specialize (Hfn _ _ Hi'). unfold attempt. rewrite run_mbind.
  destruct (run h (fn (with_depth (x_scopedDepth st + 1) st)) w) as [[[r st']| |] w']; cbn in *; try done.
  destruct Hfn as (Hi'' & Hd & Hl). assert (Hpos : 0 <= x_scopedDepth st) by apply Hi.
  split_and!; [|cbn in *; lia|apply Hl; lia|by eexists].
  destruct Hi'' as (H1 & H2 & H3 & H4). split_and!; try done. cbn. lia.
Qed.

Lemma callback_pure r rel s : exists r',
  (match r, rel with
   | inr _, Some err => raise (RaisedErr "cache lock callback: " err)
   | _, _ => callback_result r
   end : HM (list luav)) s = mret (r', s).
Proof. destruct r, rel; by eexists. Qed.

Lemma keeps_with_lease key l fn st w w' :
  keeps_locks fn -> lock_inv st w -> x_locks st !! key = None -> l ∉ held w -> held w' = {[l]} ∪ held w ->
  match (run h (with_lease key (x_context st) l fn st) w').1 with
  | Ret (_, st') =>
      lock_inv st' (run h (with_lease key (x_context st) l fn st) w').2 /\
      x_scopedDepth st' = x_scopedDepth st /\ x_locks st' = x_locks st
  | Panic => False
  | OutOfFuel => True
  end.
Proof.
  intros Hfn Hi Hk Hl Hh. unfold with_lease. rewrite run_HM_bind. cbn. rewrite run_HM_bind.
  set (st1 := with_locks (<[key := l]> (x_locks st)) (Some l) st).
  pose proof (lock_inv_acquired st w key l w' (Some l) Hi Hk Hl Hh) as Hi1.
  pose proof (keeps_scoped fn st1 w' Hfn Hi1) as Hs.
  destruct (run h (scoped fn st1) w') as [[[r st2]| |] w2]; cbn in *; try done.
  destruct Hs as (Hi2 & Hd & Hlk & [r' ->]). rewrite run_HM_bind. unfold ask. rewrite run_mbind, run_call. cbn.
  rewrite run_HM_bind. cbn.
  set (st3 := with_locks (delete key (x_locks st2)) (x_context st) st2).
  destruct (callback_pure r' (h (option error) (ReleaseLock l) w2).1 st3) as [r'' ->]. cbn.
  assert (Hlk3 : x_locks st3 = x_locks st).
  { cbn. rewrite Hlk. by apply delete_insert_id. }
  split_and!; [|by rewrite <- Hd|done].
  destruct Hi as (H1 & H2 & H3 & H4). destruct Hi2 as (H5 & _ & _ & H6).
  split_and!; rewrite ?Hlk3; [|done|done|done].
  rewrite release_law, H5, Hlk. cbn. rewrite map_img_insert_notin_L by done. rewrite H1 in Hl. set_solver.
Qed.

(** After [withLock] the locks are those before it, however the callback ended. *)
Lemma withLock_scope key fn st w :
  keeps_locks fn -> lock_inv st w ->
  match (run h (withLock key fn st) w).1 with
  | Ret (_, st') =>
      lock_inv st' (run h (withLock key fn st) w).2 /\ x_scopedDepth st' = x_scopedDepth st /\
      x_locks st' = x_locks st
  | Panic => False
  | OutOfFuel => True
  end.
Proof.
  intros Hfn Hi. unfold LuaHost.withLock. destruct (has_cache e); cbn [registered]; [|by split_and!].
  rewrite run_get. destruct (x_locks st !! key) as [l|] eqn:Hk.
  - rewrite run_HM_bind. pose proof (keeps_scoped fn st w Hfn Hi) as Hs.
    destruct (run h (scoped fn st) w) as [[[r st2]| |] w2]; cbn in *; try done.
    destruct Hs as (Hi2 & Hd & Hlk & [r' ->]). destruct r'; cbn; by split_and!.
  - destruct (Z.ltb_spec 0 (x_scopedDepth st)) as [Hd|Hd]; [by split_and!|].
    rewrite run_HM_bind. unfold ask. rewrite run_mbind, run_call. cbn.
    pose proof (acquire_law (x_context st) key w) as Ha.
    destruct (h _ (AcquireLock (x_context st) key) w) as [[err|l] w']; cbn.
    + split_and!; [|done|done]. destruct Hi as (H1 & H2). split; [by rewrite Ha|done].
    + destruct Ha as [Hl Hh]. exact (keeps_with_lease key l fn st w w' Hfn Hi Hk Hl Hh).
Qed.

Lemma keeps_withLock key fn : keeps_locks fn -> keeps_locks (withLock key fn).
Proof.
  intros Hfn st w Hi. pose proof (withLock_scope key fn st w Hfn Hi) as Hs.
  destruct (run h (withLock key fn st) w) as [[[r st']| |] w']; cbn in *; try done.
  destruct Hs as (? & ? & ?). by split_and!.
Qed.

Lemma is_lock f : f = Cache_ MLock \/ f <> Cache_ MLock.
Proof. destruct f as [| | | | | | | | | |[]| | | | | | | | |]; (left; reflexivity) || (right; discriminate). Qed.

Lemma exec_keeps_locks (s : script) : keeps_locks (exec s).
Proof.
  induction s as [vs|err|k IH|hp k IH|f args k IH|body IHb k IH|fn IHf k IH|key fn IHf k IH];
    cbn [LuaHost.exec].
  - apply keeps_frame. intros. host.
  - apply keeps_frame. intros. host.
  - intros st w Hi. by apply IH.
  - intros st w Hi. exact (IH (with_heap hp st) w Hi).
  - apply keeps_bind; [|apply IH]. destruct (is_lock f) as [->|Hf]; [apply keeps_lock|].
    apply keeps_frame. intros. by apply mus_frame.
  - apply keeps_bind; [by apply keeps_attempt|]. apply IH.
  - apply keeps_bind; [by apply keeps_transaction|]. apply IH.
  - apply keeps_bind; [by apply keeps_withLock|]. apply IH.
Qed.

Lemma release_all_run leases err w :
  exists r, (run h (release_all leases err) w).1 = Ret r /\
    held (run h (release_all leases err) w).2 = held w ∖ list_to_set leases.
Proof.
  revert err w. induction leases as [|l leases IH]; intros err w; cbn [release_all].
  - exists err. split; [done|]. cbn. set_solver.
  - rewrite run_mbind, run_call. unfold run_then. cbn [fst snd].
    destruct (IH (match err with None => (h _ (ReleaseLock l) w).1 | Some _ => err end) (h _ (ReleaseLock l) w).2)
      as (r & -> & ->). exists r. split; [done|]. rewrite release_law. set_solver.
Qed.

Lemma held_leases_img (st : state) : list_to_set (held_leases st) = map_img (x_locks st) :> gset nat.
Proof.
  apply set_eq. intros l. rewrite elem_of_list_to_set, elem_of_map_img. unfold held_leases.
  rewrite list_elem_of_omap. split.
  - intros (k & _ & Hk). by exists k.
  - intros [k Hk]. exists k. split; [|done]. rewrite range_perm, elem_of_elements, elem_of_dom. by exists l.
Qed.

Lemma releaseLocks_run st w :
  lock_inv st w ->
  (run h (releaseLocks st) w).1 = Ret tt /\ held (run h (releaseLocks st) w).2 = H0.
Proof.
  intros (H1 & H2 & _). unfold releaseLocks. rewrite run_mbind.
  destruct (release_all_run (held_leases st) None w) as (r & E & Hh). unfold run_then. rewrite E.
  rewrite held_leases_img, H1 in Hh. destruct r as [err|].
  - rewrite run_call. cbn. split; [by destruct (h _ _ _).1|]. rewrite other_law by done. rewrite Hh. set_solver.
  - cbn. split; [done|]. rewrite Hh. set_solver.
Qed.
End Locks.

Lemma initial_lock_inv {W} (h : forall X, lua_port X -> W -> X * W) `{!Leases h} w :
  lock_inv h (held w) (@initial T) w.
Proof.
  split_and!; cbn; [by rewrite map_img_empty_L, (right_id_L ∅ (∪))|by rewrite map_img_empty_L; set_solver| |done].
  intros k1 k2 l. by rewrite lookup_empty.
Qed.

(** *** Inside a scoped lock *)

Definition no_acquire {X} (c : lua_port X) : Prop := match c with AcquireLock _ _ => False | _ => True end.

Definition scope_spec {A} (m : HM A) : Prop :=
  forall dep, 0 < dep -> spec (@no_acquire) (fun st => x_scopedDepth st = dep) (fun _ => True) m.

Lemma scope_frame {A} (m : HM A) :
  (forall L dep, spec (@no_lock) (frame L dep) (fun _ => True) m) -> scope_spec m.
Proof.
  intros Hm dep Hdep st <-. eapply sound_mono; [| |apply (Hm (x_locks st) (x_scopedDepth st) st); done].
  - intros X c. by destruct c.
  - intros r [[_ Hd] Hr]. done.
Qed.

Lemma scope_bind {A B} (m : HM A) (f : A -> HM B) :
  scope_spec m -> (forall a, scope_spec (f a)) -> scope_spec (m ≫= f).
Proof. intros Hm Hf dep Hdep. apply spec_then; [by apply Hm|]. intros a. by apply Hf. Qed.

Lemma scope_attempt {A} (m : HM A) : scope_spec m -> scope_spec (attempt m).
Proof. intros Hm dep Hdep. eapply spec_weaken; [|by apply spec_attempt, Hm]. done. Qed.

Lemma scope_lock args : scope_spec (mus (Cache_ MLock) args).
Proof.
  cbn [LuaHost.mus cache_function]. intros dep Hdep. apply spec_registered. unfold cache_lock, none.
  apply spec_then; [unfold check_string; host|]. intros key. apply spec_get. intros st <-.
  destruct (x_locks st !! key); [done|]. by rewrite (proj2 (Z.ltb_lt _ _)).
Qed.

Lemma scope_transaction fn : scope_spec fn -> scope_spec (transaction fn).
Proof.
  intros Hfn. unfold LuaHost.transaction. destruct (root_builder e) as [qb|]; [|intros dep _; host].
  intros dep Hdep. apply spec_get_any. intros s. revert dep Hdep.
  change (scope_spec (match x_active s with
    | Some _ => raise (Raised "mus.db.transaction: nested transactions are not supported")
    | None => b ← sql (qb_Begin qb);
              match b with
              | inl err => raise (RaisedErr "mus.db.transaction: begin failed: " err)
              | inr tx => in_transaction tx fn
              end
    end)).
  destruct (x_active s); [intros dep _; host|].
  apply scope_bind; [apply scope_frame, frame_sql|]. intros [err|tx]; [intros dep _; host|].
  unfold in_transaction.
  apply scope_bind; [intros dep _; by apply spec_put|]. intros _.
  apply scope_bind; [by apply scope_attempt|]. intros r.
  apply scope_bind; [intros dep _; by apply spec_put|]. intros _.
  apply scope_frame. intros L dep. unfold finalize, one. destruct r; [|destruct (decide _)]; host; apply frame_sql.
Qed.

Lemma scope_withLock key fn : scope_spec fn -> scope_spec (withLock key fn).
Proof.
  intros Hfn dep Hdep. unfold LuaHost.withLock. apply spec_registered, spec_get. intros st Hst.
  destruct (x_locks st !! key).
  - change (sound (@no_acquire) (fun r => x_scopedDepth r.2 = dep /\ match r.1 with inr _ => True | inl _ => True end)
      ((scoped fn ≫= callback_result) st)).
    assert (Hs : spec (@no_acquire) (fun st => x_scopedDepth st = dep) (fun _ => True) (scoped fn)).
    { clear st Hst. intros st <-. unfold scoped.
      eapply sound_bind with (Q := fun r => x_scopedDepth r.2 = x_scopedDepth st + 1 /\ r.1 = inr tt); [done|].
      intros [r1 st1] [Hd ->]. cbn in Hd.
      eapply sound_bind with (Q := fun r => x_scopedDepth r.2 = x_scopedDepth st + 1 /\ exists x, r.1 = inr x).
      { eapply sound_bind; [apply (Hfn (x_scopedDepth st + 1)); [lia|done]|]. intros [r st2] [Hd2 _].
        split; [done|by eexists]. }
      intros [r2 st2] [Hd2 [x Hx]]. cbn in Hd2, Hx. subst r2. split; [cbn; lia|done]. }
    refine (spec_then _ _ _ _ _ Hs _ st Hst). intros []; unfold callback_result; host.
  - rewrite (proj2 (Z.ltb_lt _ _)) by lia. by cbn.
Qed.

Lemma exec_scope (s : script) : scope_spec (exec s).
Proof.
  induction s as [vs|err|k IH|hp k IH|f args k IH|body IHb k IH|fn IHf k IH|key fn IHf k IH];
    cbn [LuaHost.exec].
  - intros dep _. host.
  - intros dep _. host.
  - intros dep Hdep st Hst. by apply IH.
  - intros dep Hdep st Hst. exact (IH dep Hdep (with_heap hp st) Hst).
  - apply scope_bind; [|apply IH]. destruct (is_lock f) as [->|Hf]; [apply scope_lock|].
    apply scope_frame. intros. by apply mus_frame.
  - apply scope_bind; [by apply scope_attempt|]. apply IH.
  - apply scope_bind; [by apply scope_transaction|]. apply IH.
  - apply scope_bind; [by apply scope_withLock|]. apply IH.
Qed.

(** C21. The cache locks of a script. Whatever a script does, and whether it
    returns, raises an error or runs into its time limit, when [Execute] is over
    the cache holds exactly the leases it held before: every lock the script
    took with [lock] or [withLock] has been released, on every path, and no lock
    of anyone else. A scoped lock does not wait for that end: in every state the
    execution can be in ([lock_inv]: the leases held for it are those in its
    map), once [mus.cache.withLock] is over, its callback having returned or
    failed, the cache holds exactly the leases it held before the call and the
    execution's map is the one before. Inside the callback of [withLock] no
    further lock is ever requested, so scoped locks cannot be acquired in
    conflicting orders. [OutOfFuel]: the process is gone ([mus.log.fatal], or the
    conversion of a value nested deeper than [depth]); its leases expire. *)
Theorem script_locks_released {W} (h : forall X, lua_port X -> W -> X * W) `{!Leases h}
    (load : string -> option script) (w : W) :
  let run := run h (Execute CheckString CheckNumber CheckInt value_text depth e msg error_text
                      eng wd exists_file load) w in
  match run.1 with
  | Ret _ => held run.2 = held w
  | Panic => False
  | OutOfFuel => True
  end /\
  (forall H0 key (fn : script) (st : state) w1, lock_inv h H0 st w1 ->
     match Effects.run h (withLock key (exec fn) st) w1 with
     | (Ret (_, st'), w2) => lock_inv h H0 st' w2 /\ held w2 = held w1 /\ x_locks st' = x_locks st
     | (Panic, _) => False
     | (OutOfFuel, _) => True
     end) /\
  (forall (s : script) (st : state), 0 < x_scopedDepth st ->
     sound (@no_acquire) (fun r => x_scopedDepth r.2 = x_scopedDepth st) (exec s st)).
Proof.
  split_and!.
  - unfold Execute. rewrite run_mbind, run_lift. pose proof (resolveScript_calm (sm_Subject msg)) as Hc.
    destruct (resolveScript eng wd exists_file (sm_Subject msg)) as [[path|]| |]; try done.
    rewrite run_then_Ret. destruct (load path) as [s|]; [|done]. rewrite run_mbind.
    pose proof (exec_keeps_locks h (held w) s initial w (initial_lock_inv h w)) as Hs.
    destruct (Effects.run h (exec s initial) w) as [[[r st']| |] w']; cbn in Hs; try done.
    rewrite run_then_Ret. destruct Hs as (Hi' & _). rewrite run_mbind. cbn [fst snd].
    destruct (releaseLocks_run h (held w) st' w' Hi') as [E Hh]. unfold run_then. rewrite E. done.
  - intros H0 key fn st w1 Hi.
    pose proof (withLock_scope h H0 key (exec fn) st w1 (exec_keeps_locks h H0 fn) Hi) as Hs.
    destruct (Effects.run h (withLock key (exec fn) st) w1) as [[[r st']| |] w2]; cbn in Hs; try done.
    destruct Hs as (Hi' & _ & Hl). split_and!; [done| |done].
    rewrite (proj1 Hi'), (proj1 Hi). by rewrite Hl.
  - intros s st Hd. eapply sound_mono; [done| |by apply (exec_scope s (x_scopedDepth st) Hd)].
    by intros r [].
Qed.

(** ** Transactions *)

Definition outside_sql {X} (c : lua_port X) : Prop :=
  match c with PSql _ | PDb _ => False | _ => True end.

(** The ports over a database with transactions: SQL goes to it, the adapter's
    calls too, the other ports leave it alone; a rollback of a transaction that
    is over does nothing. *)
Class ScriptDb {W} (h : forall X, lua_port X -> W -> X * W) `{TxDatabase W} := {
  db_sql X (c : sql_port X) w : h _ (PSql c) w = x_step X c w;
  db_outside X (c : lua_port X) w : outside_sql c ->
    committed (h _ c w).2 = committed w /\ forall t, working t (h _ c w).2 = working t w;
  db_finished t w : idle w ->
    idle (x_step _ (RollbackTx t) w).2 /\ committed (x_step _ (RollbackTx t) w).2 = committed w
}.

(** A callback that keeps to its transaction: it calls no function of the
    adapter and uses no query made before the transaction ([O]). *)
Fixpoint enrolled (O : gset nat) (s : script) : Prop :=
  match s with
  | SReturn _ | SError _ => True
  | SRead k => forall hp, enrolled O (k hp)
  | SWrite _ k => enrolled O k
  | SCall f args k =>
      match f with
      | Db_ _ => False
      | Query_ _ => match Get_arg args 1 with LUser u => u ∉ O | _ => True end
      | _ => True
      end /\ forall vs, enrolled O (k vs)
  | SPcall body k => enrolled O body /\ forall r, enrolled O (k r)
  | STransaction _ k => forall vs, enrolled O (k vs)
  | SWithLock _ fn k => enrolled O fn /\ forall vs, enrolled O (k vs)
  end.

Section Enrolled.
Context (t : nat) (d : dialect) (O : gset nat).

Definition tx_call {X} (c : lua_port X) : Prop :=
  match c with PSql c => in_tx t c | PDb _ => False | _ => True end.

Definition tx_state (st : state) : Prop :=
  x_active st = Some (sqlTx t d) /\ O ⊆ dom (x_queries st) /\
  forall u q, u ∉ O -> x_queries st !! u = Some q -> built (InTx t) d q.

Abbreviation tx_spec := (spec (@tx_call) tx_state (fun _ => True)).

Lemma tx_state_stable : stable tx_state.
Proof. by split. Qed.

Lemma wrap_tx st q :
  tx_state st -> built (InTx t) d q ->
  tx_state (with_queries (<[fresh (dom (x_queries st)) := q]> (x_queries st)) st).
Proof.
  intros (H1 & H2 & H3) Hq. split_and!; [done|cbn; set_solver|]. intros u q' Hu. cbn.
  destruct (decide (u = fresh (dom (x_queries st)))) as [->|Hne].
  - rewrite lookup_insert_eq. by intros [= <-].
  - rewrite lookup_insert_ne by done. by apply H3.
Qed.

Lemma query_in_tx q {X} (op : query_op X) :
  built (InTx t) d q -> calls (fun X c => tx_call (PSql c)) (fun _ => True) (query_run q op).
Proof.
  intros Hq. apply calls_invoked. eapply invoked_mono; [|by apply (statements_bound (InTx t) d)].
  intros Y c Hc. destruct c; cbn in *; try done; by destruct Hc.
Qed.

Lemma table_tx args : tx_spec (mus TableFn args).
Proof.
  cbn [LuaHost.mus]. unfold mus_table. destruct (root_builder e) as [qb|]; [|apply spec_raise].
  apply spec_then; [unfold check_string; host|]. intros name. apply spec_get. intros st Hst. cbn.
  split; [|done]. apply wrap_tx; [done|]. rewrite (proj1 Hst). apply (built_Table (InTx t) d).
Qed.

Lemma lock_tx args : tx_spec (mus (Cache_ MLock) args).
Proof. cbn [LuaHost.mus cache_function]. by apply spec_registered, spec_cache_lock. Qed.

Lemma mus_tx f args :
  match f with
  | Db_ _ => False
  | Query_ _ => match Get_arg args 1 with LUser u => u ∉ O | _ => True end
  | _ => True
  end -> tx_spec (mus f args).
Proof.
  intros Hf. destruct (plain f) eqn:Hp.
  - eapply spec_calls_mono; [|apply (mus_plain _ _ _ _ _ _ _ _ (fun f => forall m, f <> Db_ m)); [apply tx_state_stable|done|]].
    + intros X c. destruct c; cbn; try done. intros (m & Hm & _). by destruct (Hm m).
    + intros m ->. done.
  - destruct f as [| | | | | | | |m| |m| | | | | | | | |]; try discriminate.
    + apply table_tx.
    + cbn [LuaHost.mus]. apply spec_registered.
      apply (queryIndex_spec _ _ _ _ tx_state tx_state_stable O (built (InTx t) d)).
      * intros. by constructor.
      * intros. by constructor.
      * intros st u q (_ & _ & H3). apply H3.
      * apply wrap_tx.
      * intros q X op. apply query_in_tx.
      * intros u Hu. by rewrite Hu in Hf.
    + destruct m; try discriminate. apply lock_tx.
Qed.

Lemma nested_refused fn : tx_spec (transaction fn).
Proof.
  unfold LuaHost.transaction. destruct (root_builder e) as [qb|]; [|apply spec_raise].
  apply spec_get. intros st Hst. by rewrite (proj1 Hst).
Qed.

Lemma exec_enrolled (s : script) : enrolled O s -> tx_spec (exec s).
Proof.
  induction s as [vs|err|k IH|hp k IH|f args k IH|body IHb k IH|fn IHf k IH|key fn IHf k IH];
    cbn [LuaHost.exec enrolled]; intros Hs.
  - host.
  - host.
  - intros st Hst. by apply IH.
  - intros st Hst. apply IH; [done|]. by apply tx_state_stable.
  - destruct Hs as [Hf Hk]. apply spec_then; [by apply mus_tx|]. intros vs. by apply IH.
  - destruct Hs as [Hb Hk]. apply spec_then; [eapply spec_weaken; [|by apply spec_attempt, IHb]; done|].
    intros r. by apply IH.
  - apply spec_then; [apply nested_refused|]. intros vs. by apply IH.
  - destruct Hs as [Hb Hk]. apply spec_then; [by apply spec_withLock; try apply IHf|]. intros vs. by apply IH.
Qed.
End Enrolled.

Section Atomic.
Context {W : Type} (h : forall X, lua_port X -> W -> X * W) `{!TxDatabase W} `{!ScriptDb h}.

(** Inside the transaction nothing is committed. *)
Lemma callback_inside t d O (s : script) st w :
  enrolled O s -> tx_state t d O st -> is_Some (working t w) ->
  let r := run h (exec s st) w in
  committed r.2 = committed w /\ is_Some (working t r.2) /\ r.1 <> Panic.
Proof.
  intros Hs Hst Hw.
  assert (Hk : forall X (c : lua_port X) w1, tx_call t c ->
    committed w1 = committed w /\ is_Some (working t w1) ->
    committed (h X c w1).2 = committed w /\ is_Some (working t (h X c w1).2)).
  { intros X c w1 Hc [H1 H2].
    assert (Hd : (exists c', c = PSql c' /\ in_tx t c') \/ outside_sql c) by (destruct c; cbn in *; eauto).
    destruct Hd as [(c' & -> & Hi)|Ho].
    - rewrite db_sql. destruct (x_inside t w1 c' Hi H2) as [E1 E2]. by rewrite E1.
    - destruct (db_outside X c w1 Ho) as [E1 E2]. by rewrite E1, E2. }
  pose proof (exec_enrolled t d O s Hs st Hst) as Hsound.
  destruct (run_sound h (@tx_call t) _ (fun w' => committed w' = committed w /\ is_Some (working t w'))
    (exec s st) w Hk Hsound (conj eq_refl Hw)) as [[H1 H2] H3].
  split_and!; [done..|]. intros E. by rewrite E in H3.
Qed.

Lemma run_sql_rollback t d (st : state) w :
  run h (sql (Tx_Rollback (sqlTx t d)) st) w =
  (Ret (inr ((x_step _ (RollbackTx t) w).1, sqlTx t d), st), (x_step _ (RollbackTx t) w).2).
Proof. unfold sql. rewrite run_component. cbn [Tx_Rollback Tx_Commit]. prun. cbn. by rewrite db_sql. Qed.

Lemma run_sql_commit t d (st : state) w :
  run h (sql (Tx_Commit (sqlTx t d)) st) w =
  (Ret (inr ((x_step _ (CommitTx t) w).1, sqlTx t d), st), (x_step _ (CommitTx t) w).2).
Proof. unfold sql. rewrite run_component. cbn [Tx_Rollback Tx_Commit]. prun. cbn. by rewrite db_sql. Qed.

Lemma run_sql_begin d (st : state) w :
  run h (sql (qb_Begin (mkBuilder RootPool d)) st) w =
  (Ret (inr (match (x_step _ Begin w).1 with inl err => inl err | inr t => inr (sqlTx t d) end), st),
   (x_step _ Begin w).2).
Proof.
  unfold sql. rewrite run_component. cbn [qb_Begin qb_exec qb_dialect]. prun. cbn. rewrite db_sql.
  by destruct (x_step _ Begin w).1.
Qed.

Lemma run_in_transaction tx (fn : HM (list luav)) st w :
  run h (in_transaction tx fn st) w =
  run_then (run h (fn (with_active (Some tx) st)) w)
    (fun r w2 => run h (finalize tx r.1 (with_active None r.2)) w2).
Proof.
  unfold in_transaction. rewrite run_HM_bind.
  change (run h (put_st (with_active (Some tx)) st) w)
    with ((Ret (inr tt, with_active (Some tx) st), w) : outcome ((lua_error + unit) * state) * W).
  rewrite run_then_Ret. cbn [fst snd]. rewrite run_HM_bind. unfold attempt. rewrite run_mbind.
  by destruct (run h (fn (with_active (Some tx) st)) w) as [[[r st2]| |] w2].
Qed.

(** How the end of the callback decides the fate of the transaction. *)
Lemma finalize_run t d r (st : state) w c :
  working t w = Some c ->
  exists res w', run h (finalize (sqlTx t d) r st) w = (Ret (res, st), w') /\ idle w' /\
    match res with
    | inr vs =>
        (vs = [LBool true] /\ committed w' = c /\ exists rets, r = inr rets /\ head rets <> Some (LBool false)) \/
        (vs = [LBool false] /\ committed w' = committed w)
    | inl _ => committed w' = committed w
    end.
Proof.
  intros Hw. assert (Hrb : idle (x_step _ (RollbackTx t) w).2 /\
    committed (x_step _ (RollbackTx t) w).2 = committed w) by (apply x_rollback; by exists c).
  unfold finalize. destruct r as [err|rets].
  - rewrite run_HM_bind, run_sql_rollback. cbn. eexists _, _. split; [done|]. exact Hrb.
  - destruct (decide _) as [Hf|Hf].
    + rewrite run_HM_bind, run_sql_rollback. cbn.
      destruct (x_step _ (RollbackTx t) w).1 as [err|]; eexists _, _; (split; [done|]); [exact Hrb|].
      split; [apply Hrb|]. right. split; [done|apply Hrb].
    + rewrite run_HM_bind, run_sql_commit. unfold run_then. cbn [fst snd]. pose proof (x_commit t w c Hw) as Hc.
      destruct (x_step _ (CommitTx t) w) as [[err|] w']; cbn [fst snd].
      * rewrite run_HM_bind, run_sql_rollback. cbn. destruct Hc as [Hi Hc].
        destruct (db_finished t w' Hi) as [Hi' Hc']. eexists _, _. split; [done|]. by rewrite Hc'.
      * destruct Hc as [Hi Hc]. eexists _, _. split; [done|]. split; [done|]. left. split_and!; try done.
        exists rets. split; [done|]. intros E. by rewrite E in Hf.
Qed.

(** C10. A transaction of a script is all or nothing. Let no transaction be open
    in the database, and let the callback keep to the transaction: it calls no
    function of the adapter ([mus.db.getPlayerAttribute], [mus.db.createUser] and
    so on: as lua_db_module.go notes, they are not enrolled, see
    [adapter_not_enrolled]) and uses no query object made before the transaction. If [mus.db.transaction]
    answers [true], the callback returned something other than [false] and what
    is committed afterwards is exactly the state the callback left its
    transaction in; in every other case, [false], an error of the callback (its
    time limit included), a failed begin, commit or rollback, nothing has been
    committed. Afterwards no transaction is open and [mus.db.table] works on the
    root connection again. Even a process that is gone in the middle
    ([OutOfFuel]: [mus.log.fatal], or a conversion that is nested too deep) has
    committed nothing. *)
Theorem script_transaction_atomic d (fn : script) (st : state) (w : W) :
  root_builder e = Some (mkBuilder RootPool d) -> x_active st = None -> idle w ->
  enrolled (dom (x_queries st)) fn ->
  let r := run h (transaction (exec fn) st) w in
  match r.1 with
  | Ret (res, st') =>
      x_active st' = None /\ idle r.2 /\
      match res with
      | inr [LBool true] =>
          exists t w1 rets st2 w2,
            x_step _ Begin w = (inr t, w1) /\
            run h (exec fn (with_active (Some (sqlTx t d)) st)) w1 = (Ret (inr rets, st2), w2) /\
            head rets <> Some (LBool false) /\ working t w2 = Some (committed r.2)
      | inr [LBool false] | inl _ => committed r.2 = committed w
      | _ => False
      end
  | Panic => False
  | OutOfFuel => committed r.2 = committed w
  end.
Proof.
  intros Hqb Ha Hidle Hen. unfold LuaHost.transaction. rewrite Hqb, run_get, Ha. cbv zeta.
  rewrite run_HM_bind, run_sql_begin. unfold run_then. cbn [fst snd].
  pose proof (x_begin w Hidle) as Hb. destruct (x_step _ Begin w) as [[err|t] w1]; cbn [fst snd].
  - cbn. destruct Hb. by split_and!.
  - destruct Hb as [Hw1 Hc1]. set (st1 := with_active (Some (sqlTx t d)) st).
    assert (Hst1 : tx_state t d (dom (x_queries st)) st1).
    { split_and!; [done|done|]. intros u q Hu Hq. destruct Hu. by apply elem_of_dom_2 in Hq. }
    destruct (callback_inside t d _ fn st1 w1 Hen Hst1) as (Hc2 & [c Hw2] & Hp); [by exists (committed w)|].
    rewrite run_in_transaction. fold st1.
    destruct (run h (exec fn st1) w1) as [[[r st2]| |] w2] eqn:ER; cbn [fst snd] in *; [|done|].
    + rewrite run_then_Ret. cbn [fst snd].
      destruct (finalize_run t d r (with_active None st2) w2 c Hw2) as (res & w' & -> & Hi & Hres). cbn [fst snd].
      split_and!; [done..|]. destruct res as [err|vs]; [by rewrite Hres, Hc2|].
      destruct Hres as [(-> & Hc & rets & -> & Hf)|[-> Hc]]; [|by rewrite Hc, Hc2].
      exists t, w1, rets, st2, w2. split_and!; [done..|]. by rewrite Hc.
    + rewrite run_then_OutOfFuel. cbn. by rewrite Hc2.
Qed.
End Atomic.
End Scripts.

(** ** Concrete worlds *)

(** Ports that fail, or answer nothing. *)
Definition refuse_sql {X} (c : sql_port X) : X :=
  match c in sql_port X return X with
  | Exec _ _ _ => inl ErrNoRows
  | Query _ _ _ => inl ErrNoRows
  | QueryRow _ _ _ _ => inl ErrNoRows
  | Begin => inl ErrNoRows
  | CommitTx _ => Some ErrTxDone
  | RollbackTx _ => Some ErrTxDone
  | NextSavepoint => 1
  | NewUUID => ""%string
  | SqlNow => 0
  end.

Definition refuse_token {X} (c : token_port X) : X :=
  match c in token_port X return X with
  | TCache _ => Ret (inl ErrTokenInvalid)
  | RandRead _ => inl ErrTokenInvalid
  end.

Definition refuse {X} (c : lua_port X) : X :=
  match c in lua_port X return X with
  | PSql c => refuse_sql c
  | PDb _ => inl ErrUserNotFound
  | PSess _ => inl ErrUserNotFound
  | PToken c => refuse_token c
  | AcquireLock _ _ => inl ErrTxDone
  | ReleaseLock _ => None
  | Publish _ _ => None
  | SendFrom _ _ _ _ _ => None
  | Mail _ => None
  | Compare _ _ => None
  | Generate _ => inr "hash"%string
  | Uuid => "uuid"%string
  | TimeNow => 0
  | Log _ _ _ => tt
  end.

(** A cache that grants every lease. *)
Definition lease_step (X : Type) (c : lua_port X) (w : gset nat) : X * gset nat :=
  match c in lua_port X return X * gset nat with
  | AcquireLock _ _ => let l := fresh w in (inr l, {[l]} ∪ w)
  | ReleaseLock l => (None, w ∖ {[l]})
  | c => (refuse c, w)
  end.

#[export, refine] Instance lease_world : Leases lease_step := {| held w := w |}.
Proof.
  - intros ctx key w. cbn. split; [apply is_fresh|done].
  - done.
  - intros X c w Hc. by destruct c.
Defined.

(** SQL on the little database of Migrations.v. *)
Definition mini_lua (X : Type) (c : lua_port X) (w : Mini) : X * Mini :=
  match c in lua_port X return X * Mini with
  | PSql c => mini_step _ c w
  | c => (refuse c, w)
  end.

#[export] Instance mini_script_db : ScriptDb mini_lua.
Proof.
  split.
  - done.
  - intros X c w Hc. by destruct c.
  - intros t [c o] Hi. done.
Defined.

Definition plain_string (v : luav) : option string := match v with LStr s => Some s | _ => None end.
Definition plain_number (v : luav) : option Z := match v with LNumber f => Some f | _ => None end.
Definition no_text (v : luav) : string := "".
Definition all_modules : Wiring := mkWiring true true true (Some (mkBuilder RootPool sqliteDialect)) true true true.
Definition from_player : ScriptMessage := mkScriptMessage "shop" "Hero" (Some (LInteger 7)).
Definition scripts_at : LuaScriptEngine := mkLuaScriptEngine "/srv/scripts" "".

(** [mus.db.table("log"):insert({name = ...})], then the rest. *)
Definition insert_row (name : string) (k : script) : script (T := mini_table) :=
  SWrite {[ 0%nat := LuaValue.mkTable [] {[ "name"%string := LStr name ]} ]}
    (SCall TableFn [LStr "log"] (fun vs =>
       SCall (Query_ MInsert) [default LNil (head vs); LTbl 0] (fun _ => k))).

(** Two locks, one of them scoped; the script dies inside the scope. *)
Definition dying : script (T := mini_table) :=
  SCall (Cache_ MLock) [LStr "a"] (fun _ =>
    SWithLock "b" (insert_row "x" (SError (Thrown LNil))) SReturn).

Definition run_script {W} (h : forall X, lua_port X -> W -> X * W) (s : script) : W -> outcome (error + LValue) * W :=
  run h (Execute plain_string plain_number plain_number no_text 10 all_modules from_player (fun _ => ""%string)
           scripts_at (Some "/") (fun _ => true) (fun _ => Some s)).

(** A greeting, logged. *)
Definition greets : script (T := mini_table) :=
  SCall SendMessageFn [LStr "Villain"; LStr "greet"; LNil] (fun _ =>
    SCall (LogFn LogInfo) [LStr "sent"] (fun _ => SReturn [])).

Definition sends_and_logs (f : musfn) : Prop := f = SendMessageFn \/ f = LogFn LogInfo.


(** The one message of [greets]: routed from the player. *)
Example greets_routed :
  calls (fun X c => match c with
                    | SendFrom from_ routed to _ _ => from_ = "system.script"%string /\ routed = "Hero"%string /\ to = "Villain"%string
                    | Log _ _ _ => True
                    | _ => False
                    end) (fun _ => True)
    (Execute plain_string plain_number plain_number no_text 10 all_modules from_player (fun _ => ""%string)
       scripts_at (Some "/") (fun _ => true) (fun _ => Some greets)).
Proof. vm_compute. repeat (split || intros []). Qed.

Lemma script_locks_released_witness :
  run_script lease_step dying {[ 4%nat ]} = (Ret (inl (Errorf "script execution failed")), {[ 4%nat ]}).
Proof.
  destruct (script_locks_released plain_string plain_number plain_number no_text 10 all_modules from_player
    (fun _ => ""%string) scripts_at (Some "/"%string) (fun _ => true) lease_step (fun _ => Some dying) {[ 4%nat ]}) as [H _].
  assert (E : (run_script lease_step dying {[ 4%nat ]}).1 = Ret (inl (Errorf "script execution failed")))
    by (vm_compute; reflexivity).
  cbv zeta in H. fold (run_script lease_step dying {[ 4%nat ]}) in H. rewrite E in H. rewrite <- E.
  change (held (run_script lease_step dying {[ 4%nat ]}).2) with ((run_script lease_step dying {[ 4%nat ]}).2) in H.
  change (held (Leases := lease_world) {[4%nat]}) with ({[4%nat]} : gset nat) in H. rewrite <- H.
  apply surjective_pairing.
Defined.

Definition transact (fn : script (T := mini_table)) : outcome ((lua_error + list luav) * Exec_state (T := mini_table)) * Mini :=
  run mini_lua (transaction all_modules
    (exec plain_string plain_number plain_number no_text 10 all_modules from_player (fun _ => ""%string) fn) initial) (∅, None).

Lemma insert_row_enrolled name k : enrolled ∅ k -> enrolled ∅ (insert_row name k).
Proof. intros Hk. cbn. split; [done|]. intros vs. split; [|done]. by destruct (default LNil (head vs)). Qed.

Lemma script_transaction_atomic_witness :
  (transact (insert_row "x" (SError (Thrown LNil)))).2 = (∅, None) /\
  (transact (insert_row "x" (SReturn []))).2 = ({["x"%string]}, None).
Proof.
  split; [|vm_compute; reflexivity].
  pose proof (script_transaction_atomic plain_string plain_number plain_number no_text 10 all_modules from_player
    (fun _ => ""%string) mini_lua sqliteDialect (insert_row "x" (SError (Thrown LNil))) initial (∅, None)
    eq_refl eq_refl eq_refl (insert_row_enrolled "x" (SError (Thrown LNil)) I)) as H.
  cbv zeta in H. fold (transact (insert_row "x" (SError (Thrown LNil)))) in H.
  assert (E : match (transact (insert_row "x" (SError (Thrown LNil)))).1 with Ret (inl _, _) => true | _ => false end = true)
    by (vm_compute; reflexivity).
  destruct (transact (insert_row "x" (SError (Thrown LNil)))) as [[[[err|vs] st']| |] [c o]]; try discriminate E.
  destruct H as (_ & Hi & Hc). cbn in Hi, Hc |- *. by rewrite Hi, Hc.
Defined.

(** An adapter function called by the callback: its write goes to the root
    connection, and stays when the transaction is rolled back. [noting] counts
    the calls on the adapter. *)
Definition noting (X : Type) (c : lua_port X) (w : nat * Mini) : X * (nat * Mini) :=
  match c in lua_port X return X * (nat * Mini) with
  | PDb op => (inl ErrUserNotFound, (S w.1, w.2))
  | c => let r := mini_lua _ c w.2 in (r.1, (w.1, r.2))
  end.

Example adapter_not_enrolled :
  (run noting (transaction all_modules
    (exec plain_string plain_number plain_number no_text 10 all_modules from_player (fun _ => ""%string)
       (insert_row "x" (SPcall (SCall (Db_ MDeletePlayerAttribute) [LStr "a"; LStr "u"; LStr "gold"] (fun _ => SReturn []))
          (fun _ => SError (Thrown LNil))))) initial) (0%nat, (∅, None))).2 = (1%nat, (∅, None)).
Proof. vm_compute. reflexivity. Qed.
