(* ===== verification/Modules.v ===== *)
(** * Modules of scripts (lua_script_engine.go: require, dofile;
    lua_sandboxed_loader.go: mus.loadSandboxed)

    A script loads other files of the scripts directory: [require] keeps what a
    module returns for the rest of the execution, [dofile] runs a file each time,
    [mus.loadSandboxed] runs a chunk with an environment of its own. A loaded
    file may load others. Here a file is a tree of the loads it makes, each
    continued with the answer; the values, and which of them are tables, are those
    of the virtual machine. The engine replaces the base library's [require] and
    [dofile] but not its [loadfile], which is a loader too. What happens is written
    to a log. The machine's call stack bounds how deep files may load
    each other: deeper, it raises an error.

    [modules_loaded]: every file run by the engine's loaders lies below the scripts
    directory or is a sandboxed chunk, a module that has been answered for keeps
    its value and is not run again, and a sandboxed chunk runs no other file. [sandbox_isolated]: the
    environment of a chunk holds exactly the names listed, and nothing the chunk
    writes to it, or to the copies of the libraries in it, is seen outside. *)

From Stdlib Require Import ZArith Lia.
From stdpp Require Import base list strings gmap option sets.
From S2P Require Import Prelude Paths ScriptPath.

Open Scope nat_scope.

(** ** The sandbox *)

Definition sandbox_functions : list string :=
  ["assert"; "error"; "ipairs"; "next"; "pairs"; "pcall"; "select"; "tonumber"; "tostring"; "type"; "unpack"; "xpcall"]%string.
Definition sandbox_libraries : list string := ["math"; "string"; "table"]%string.

Section Sandbox.
(** Values of the machine that are not tables. *)
Context {V : Type}.

Inductive lval := Plain (v : V) | Table (l : nat).
#[local] Notation table := (gmap string lval).

(** The tables by their addresses; [hp_next] is not in use. *)
Record heap := mkHeap { hp_tables : gmap nat table; hp_next : nat }.

Definition alloc (t : table) (h : heap) : nat * heap :=
  (hp_next h, mkHeap (<[hp_next h := t]> (hp_tables h)) (S (hp_next h))).

Definition write (l : nat) (k : string) (v : lval) (h : heap) : heap :=
  mkHeap (alter (fun t => <[k := v]> t) l (hp_tables h)) (hp_next h).

(** A global that is not set is nil, and setting nil sets nothing. *)
Definition copy_global (globals : table) (name : string) (env : table) : table :=
  match globals !! name with Some v => <[name := v]> env | None => env end.

Definition library (globals : table) (h : heap) (name : string) : option table :=
  match globals !! name with Some (Table l) => hp_tables h !! l | _ => None end.

Fixpoint clone_libraries (globals : table) (names : list string) (env : table) (h : heap) : option (table * heap) :=
  match names with
  | [] => Some (env, h)
  | name :: names =>
      match library globals h name with
      | None => None
      | Some t => let '(l, h) := alloc t h in clone_libraries globals names (<[name := Table l]> env) h
      end
  end.

(** The environment of a chunk, [None] when a library is not a table. *)
Definition sandbox_env (globals : table) (h : heap) : option (nat * heap) :=
  match clone_libraries globals sandbox_libraries (foldr (copy_global globals) ∅ sandbox_functions) h with
  | None => None
  | Some (env, h) => Some (alloc env h)
  end.

(** Addresses in use are below [hp_next]; globals that are tables have one. *)
Definition heap_ok (globals : table) (h : heap) : Prop :=
  (forall l, is_Some (hp_tables h !! l) -> l < hp_next h) /\
  (forall k l, globals !! k = Some (Table l) -> l < hp_next h).

(** [h'] has the tables of [h] where [h] has them, and perhaps more. *)
Definition extends (h h' : heap) : Prop :=
  hp_next h <= hp_next h' /\ forall l, l < hp_next h -> hp_tables h' !! l = hp_tables h !! l.

(** ** What the environment holds *)

Lemma foldr_copy globals names k :
  foldr (copy_global globals) ∅ names !! k = if bool_decide (k ∈ names) then globals !! k else None.
Proof.
  induction names as [|n names IH]; cbn; [apply lookup_empty|]. unfold copy_global at 1.
  destruct (decide (k = n)) as [->|Hk].
  - rewrite bool_decide_eq_true_2 by (left). destruct (globals !! n) eqn:E; [by rewrite lookup_insert_eq|].
    rewrite IH. by case_bool_decide.
  - rewrite (bool_decide_ext (k ∈ n :: names) (k ∈ names)) by (rewrite elem_of_cons; naive_solver).
    destruct (globals !! n); [by rewrite lookup_insert_ne|done].
Qed.

Lemma extends_trans h1 h2 h3 : extends h1 h2 -> extends h2 h3 -> extends h1 h3.
Proof. intros [N1 E1] [N2 E2]. split; [lia|]. intros l Hl. rewrite E2 by lia. by apply E1. Qed.

Lemma alloc_spec globals t h :
  heap_ok globals h -> heap_ok globals (alloc t h).2 /\ extends h (alloc t h).2 /\
    hp_tables (alloc t h).2 !! (alloc t h).1 = Some t.
Proof.
  intros [H1 H2]. split; [split|split; [split|]]; cbn.
  - intros l. destruct (decide (l = hp_next h)) as [->|Hl]; [lia|]. rewrite lookup_insert_ne by done.
    intros Hs%H1. lia.
  - intros k l Hk%H2. lia.
  - lia.
  - intros l Hl. by rewrite lookup_insert_ne by lia.
  - by rewrite lookup_insert_eq.
Qed.

Lemma library_extends globals h h' k :
  heap_ok globals h -> extends h h' -> library globals h' k = library globals h k.
Proof.
  intros [_ H2] [_ He]. unfold library. destruct (globals !! k) as [[v|l]|] eqn:E; [done| |done]. by eapply He, H2.
Qed.

(** Each library becomes a new table with the same contents; the other tables
    stay, and so do the other names. *)
Lemma clone_spec globals names : NoDup names -> forall env h env' h',
  heap_ok globals h -> clone_libraries globals names env h = Some (env', h') ->
  heap_ok globals h' /\ extends h h' /\
  (forall k, k ∉ names -> env' !! k = env !! k) /\
  (forall k, k ∈ names -> exists l t, env' !! k = Some (Table l) /\ library globals h k = Some t /\
     hp_next h <= l < hp_next h' /\ hp_tables h' !! l = Some t).
Proof.
  induction 1 as [|n names Hn _ IH]; intros env h env' h' Hok; cbn [clone_libraries].
  - intros [= <- <-]. split_and!; try done. intros k Hk. by apply not_elem_of_nil in Hk.
  - destruct (library globals h n) as [t|] eqn:Ht; [|done].
    destruct (alloc_spec globals t h Hok) as (Hok1 & He1 & Hl1). destruct (alloc t h) as [l1 h1] eqn:Ea. cbn [fst snd] in *.
    intros E. apply IH in E as (I1 & I2 & I3 & I4); [|done].
    split; [done|]. split; [by eapply extends_trans|]. split.
    + intros k [Hk1 Hk2]%not_elem_of_cons. rewrite I3 by done. by rewrite lookup_insert_ne.
    + unfold alloc in Ea. injection Ea as <- <-. intros k [->|Hk]%elem_of_cons.
      * exists (hp_next h), t. rewrite I3, lookup_insert_eq by done. destruct I2 as [N2 E2]. cbn in N2, E2.
        split_and!; [done|done|lia..|]. rewrite E2 by lia. done.
      * destruct (I4 k Hk) as (l & t' & J1 & J2 & J3 & J4). exists l, t'. cbn in J3.
        rewrite (library_extends globals h) in J2 by done. split_and!; [done|done|lia..|done].
Qed.

(** What a sandboxed chunk gets: an environment with exactly the listed
    functions, as far as they are defined, and a copy of each of the three
    libraries, so neither the engine's functions nor the loaders are in it; and
    whatever is written to the environment or to a copy, every table that
    existed before is as it was. *)
Theorem sandbox_isolated globals h l h' :
  heap_ok globals h -> sandbox_env globals h = Some (l, h') ->
  exists env, hp_tables h' !! l = Some env /\
    (forall k, k ∉ sandbox_functions ++ sandbox_libraries -> env !! k = None) /\
    (forall k, k ∈ sandbox_functions -> env !! k = globals !! k) /\
    (forall k, k ∈ sandbox_libraries -> exists c t,
       env !! k = Some (Table c) /\ library globals h k = Some t /\ hp_tables h' !! c = Some t /\ hp_next h <= c) /\
    forall c k v old, c = l \/ (exists name, env !! name = Some (Table c) /\ name ∈ sandbox_libraries) ->
      old < hp_next h -> hp_tables (write c k v h') !! old = hp_tables h !! old.
Proof.
  intros Hok. unfold sandbox_env.
  destruct (clone_libraries _ _ _ _) as [[env h1]|] eqn:E; [|done]. intros Ha.
  apply clone_spec in E as (I1 & [N1 E1] & I3 & I4); [|by apply (bool_decide_unpack _); vm_compute|done].
  destruct (alloc_spec globals env h1 I1) as (_ & [N2 E2] & Hl). injection Ha as <- <-. unfold alloc in N2, E2. cbn in N2, E2, Hl.
  assert (Hlib : forall k, k ∈ sandbox_libraries -> exists c t, env !! k = Some (Table c) /\ library globals h k = Some t /\
    hp_tables (alloc env h1).2 !! c = Some t /\ hp_next h <= c).
  { intros k Hk. destruct (I4 k Hk) as (c & t & J1 & J2 & J3 & J4). exists c, t. cbn. rewrite E2 by lia. split_and!; [done..|lia]. }
  exists env. split; [done|]. split_and!.
  - intros k [H1 H2]%not_elem_of_app. rewrite I3, foldr_copy by done. by rewrite bool_decide_eq_false_2.
  - intros k Hk. rewrite I3, foldr_copy; [by rewrite bool_decide_eq_true_2|].
    revert k Hk. apply Forall_forall, (bool_decide_unpack _). by vm_compute.
  - done.
  - intros c k v old Hc Hold. assert (hp_next h <= c).
    { destruct Hc as [->|(name & Hn & Hm)]; [done|]. destruct (Hlib name Hm) as (c' & t & J1 & _ & _ & J4). congruence. }
    cbn. rewrite lookup_alter_ne by lia. rewrite lookup_insert_ne by lia. by apply E1.
Qed.
End Sandbox.
Arguments lval : clear implicits.
Arguments heap : clear implicits.

(** ** Loading *)

(** The errors of the loaders: a name or file they refuse, a file that does not
    load, the error of a file that was run, one raised by the machine. *)
Inductive load_error :=
| ArgError (name : string)
| LoadFailed (name : string)
| ExecFailed (name : string) (err : load_error)
| NotATable (name : string)
| Thrown (msg : string)
| StackOverflow.

Section Loading.
(** The machine's values: true, and which are nil and which are tables. *)
Context {V : Type} (true_ : V) (is_nil is_table : V -> bool).

(** A file: what it loads, in order, and how it ends. [CLoadfile]: the function
    [loadfile] of the base library, which the engine opens and does not replace,
    and the call of what it loaded. *)
Inductive chunk :=
| CReturn (v : V)
| CError (err : load_error)
| CRequire (modName : string) (k : load_error + V -> chunk)
| CDofile (name : string) (k : load_error + unit -> chunk)
| CSandboxed (id : string) (k : load_error + V -> chunk)
| CLoadfile (path : string) (k : load_error + V -> chunk).

(** What happens in an execution. A module's file begins to run and ends;
    [require] answers; the other loaders run a file. *)
Inductive event :=
| ModuleBegins (modName path : string)
| ModuleEnds (modName : string)
| RequireAnswers (modName : string) (v : V)
| DofileRuns (path : string)
| SandboxRuns (path : string)
| LoadfileRuns (path : string).

(** [st_loaded] is the table of modules, [st_log] what has happened. *)
Record load_state := mkLoadState { st_loaded : gmap string V; st_log : list event }.

Definition note (ev : event) (st : load_state) : load_state := mkLoadState (st_loaded st) (st_log st ++ [ev]).
Definition cache_module (modName : string) (v : V) (st : load_state) : load_state :=
  mkLoadState (<[modName := v]> (st_loaded st)) (st_log st).

Context (e : LuaScriptEngine) (wd : option string) (exists_file : string -> bool).
Context (EvalSymlinks : string -> option string).
Context (LoadFile : string -> option chunk).

Definition runner : Type := chunk -> load_state -> (load_error + V) * load_state.

(** The answer is put in the table whatever is there by then. *)
Definition require (run : runner) (modName : string) (st : load_state) : (load_error + V) * load_state :=
  match st_loaded st !! modName with
  | Some cached => (inr cached, note (RequireAnswers modName cached) st)
  | None =>
      match require_path e wd exists_file modName with
      | None => (inl (ArgError modName), st)
      | Some modPath =>
          match LoadFile modPath with
          | None => (inl (LoadFailed modName), st)
          | Some c =>
              let '(r, st) := run c (note (ModuleBegins modName modPath) st) in
              let st := note (ModuleEnds modName) st in
              match r with
              | inl err => (inl (ExecFailed modName err), st)
              | inr v =>
                  let ret := if is_nil v then true_ else v in
                  (inr ret, note (RequireAnswers modName ret) (cache_module modName ret st))
              end
          end
      end
  end.

Definition dofile (run : runner) (name : string) (st : load_state) : (load_error + unit) * load_state :=
  match dofile_path e wd name with
  | None => (inl (ArgError name), st)
  | Some filePath =>
      match LoadFile filePath with
      | None => (inl (ExecFailed name (LoadFailed name)), st)
      | Some c =>
          match run c (note (DofileRuns filePath) st) with
          | (inl err, st) => (inl (ExecFailed name err), st)
          | (inr _, st) => (inr tt, st)
          end
      end
  end.

Definition loadSandboxed (run : runner) (id : string) (st : load_state) : (load_error + V) * load_state :=
  match sandboxed_path e wd EvalSymlinks id with
  | None => (inl (ArgError id), st)
  | Some realChunk =>
      match LoadFile realChunk with
      | None => (inl (LoadFailed id), st)
      | Some c =>
          match run c (note (SandboxRuns realChunk) st) with
          | (inl err, st) => (inl (ExecFailed id err), st)
          | (inr v, st) => (if is_table v then inr v else inl (NotATable id), st)
          end
      end
  end.

(** [loadfile(path)()] opens any path, and the chunk runs in the environment of
    its caller. *)
Definition loadfile (run : runner) (path : string) (st : load_state) : (load_error + V) * load_state :=
  match LoadFile path with
  | None => (inl (LoadFailed path), st)
  | Some c => run c (note (LoadfileRuns path) st)
  end.

(** A chunk in the sandbox has none of the loaders: calling one is calling
    nil. *)
Definition no_function {A} : load_error + A := inl (Thrown "attempt to call a non-function object").

Fixpoint run_sandboxed (c : chunk) (st : load_state) : (load_error + V) * load_state :=
  match c with
  | CReturn v => (inr v, st)
  | CError err => (inl err, st)
  | CRequire _ k => run_sandboxed (k no_function) st
  | CDofile _ k => run_sandboxed (k no_function) st
  | CSandboxed _ k => run_sandboxed (k no_function) st
  | CLoadfile _ k => run_sandboxed (k no_function) st
  end.

(** Running a file; [depth] is what is left of the machine's stack. *)
Fixpoint run_chunk (depth : nat) : runner :=
  match depth with
  | O => fun _ st => (inl StackOverflow, st)
  | S depth =>
      fix go (c : chunk) (st : load_state) :=
        match c with
        | CReturn v => (inr v, st)
        | CError err => (inl err, st)
        | CRequire modName k => let '(r, st) := require (run_chunk depth) modName st in go (k r) st
        | CDofile name k => let '(r, st) := dofile (run_chunk depth) name st in go (k r) st
        | CSandboxed id k => let '(r, st) := loadSandboxed run_sandboxed id st in go (k r) st
        | CLoadfile path k => let '(r, st) := loadfile (run_chunk depth) path st in go (k r) st
        end
  end.

(** ** Reading a log *)

(** The files the engine's loaders may run. *)
Definition contained (ev : event) : Prop :=
  match ev with
  | ModuleBegins _ path | DofileRuns path => exists rel, below_scripts e wd rel = Some path
  | SandboxRuns path => exists id, sandboxed_path e wd EvalSymlinks id = Some path
  | _ => True
  end.

Definition begins (m : string) (ev : event) : bool :=
  match ev with ModuleBegins m' _ => bool_decide (m' = m) | _ => false end.

(** How many loads of [m] are in progress. *)
Definition change (m : string) (ev : event) : Z :=
  match ev with
  | ModuleBegins m' _ => if bool_decide (m' = m) then 1 else 0
  | ModuleEnds m' => if bool_decide (m' = m) then -1 else 0
  | _ => 0
  end.
Fixpoint pending (m : string) (log : list event) : Z :=
  match log with [] => 0 | ev :: log => change m ev + pending m log end.

Definition answers_with (m : string) (v : V) (ev : event) : Prop :=
  match ev with RequireAnswers m' v' => m' = m -> v' = v | _ => True end.

(** After an answer with no load of the module in progress. *)
Definition settled (m : string) (v : V) (log : list event) : Prop :=
  Forall (fun ev => begins m ev = false /\ answers_with m v ev) log.

Lemma pending_app m l1 l2 : pending m (l1 ++ l2) = (pending m l1 + pending m l2)%Z.
Proof. induction l1 as [|ev l1 IH]; cbn; lia. Qed.

Lemma pending_settled m v log : settled m v log -> (pending m log <= 0)%Z.
Proof.
  induction 1 as [|ev log [Hb _] _ IH]; cbn; [lia|].
  destruct ev; cbn in *; repeat case_bool_decide; try done; lia.
Qed.

(** Modules that have settled are in the table, and stay settled. *)
Definition steady (st : load_state) : Prop :=
  forall m v l1 l2, st_log st = l1 ++ RequireAnswers m v :: l2 -> pending m l1 = 0%Z ->
    settled m v l2 /\ st_loaded st !! m = Some v.

Definition sound_state (st : load_state) : Prop := steady st /\ forall m, (0 <= pending m (st_log st))%Z.

(** What a run does to a sound state. *)
Definition advances (st st' : load_state) : Prop :=
  sound_state st ->
  sound_state st' /\ (forall m, pending m (st_log st') = pending m (st_log st)) /\
  exists l, st_log st' = st_log st ++ l /\ Forall contained l.

#[local] Instance advances_preorder : PreOrder advances.
Proof.
  split.
  - intros st Hs. split_and!; [done..|]. exists []. by rewrite app_nil_r.
  - intros s1 s2 s3 H12 H23 Hs. destruct (H12 Hs) as (S2 & P2 & l1 & E1 & F1). destruct (H23 S2) as (S3 & P3 & l2 & E2 & F2).
    split_and!; [done|intros m; by rewrite P3|]. exists (l1 ++ l2). rewrite E2, E1, app_assoc. split; [done|].
    by apply Forall_app.
Qed.

(** The last event of a log: an older answer, or the event itself. *)
Lemma log_snoc_split (log : list event) ev a l1 l2 :
  log ++ [ev] = l1 ++ a :: l2 ->
  (exists l2', l2 = l2' ++ [ev] /\ log = l1 ++ a :: l2') \/ (l2 = [] /\ log = l1 /\ ev = a).
Proof.
  intros E. destruct l2 as [|b l2 _] using rev_ind.
  - right. apply app_inj_tail in E as [-> ->]. done.
  - left. exists l2. rewrite app_comm_cons, app_assoc in E. apply app_inj_tail in E as [-> ->]. done.
Qed.

(** An event that answers nothing keeps a steady state, unless it begins a
    module that has settled. *)
Lemma note_steady ev st :
  match ev with RequireAnswers m v => st_loaded st !! m = Some v | ModuleBegins m _ => st_loaded st !! m = None | _ => True end ->
  steady st -> steady (note ev st).
Proof.
  intros Hev Hs m v l1 l2 E Hp. cbn in E |- *. apply log_snoc_split in E as [(l2' & -> & E)|(-> & <- & ->)].
  - destruct (Hs m v l1 l2' E Hp) as [Hl Hm]. split; [|done]. apply Forall_app. split; [done|]. apply Forall_singleton.
    destruct ev; cbn in *; try done; [|by split; [|congruence]].
    split; [|done]. apply bool_decide_eq_false. congruence.
  - split; [by constructor|done].
Qed.

Lemma note_other ev st :
  match ev with DofileRuns _ | SandboxRuns _ | LoadfileRuns _ => True | RequireAnswers m v => st_loaded st !! m = Some v | _ => False end ->
  contained ev -> advances st (note ev st).
Proof.
  intros Hev Hc [Hs Hp].
  assert (Hpend : forall m, pending m (st_log (note ev st)) = pending m (st_log st))
    by (intros m; cbn; rewrite pending_app; destruct ev; cbn; try done; lia).
  split_and!; [|done|by exists [ev]; split; [|apply Forall_singleton]]. split.
  - apply note_steady; [|done]. by destruct ev.
  - intros m. by rewrite Hpend.
Qed.

Definition keeps (run : runner) : Prop := forall c st, advances st (run c st).2.

(** Putting the answer of an outer load in the table settles nothing that is
    settled: while a load of [m] is in progress, [m] has not settled. *)
Lemma cache_steady m v st : steady st -> (0 < pending m (st_log st))%Z -> steady (cache_module m v st).
Proof.
  intros Hs Hp m' v' l1 l2 E Hz. destruct (Hs m' v' l1 l2 E Hz) as [Hl Hm]. split; [done|]. cbn in *.
  destruct (decide (m' = m)) as [->|Hne]; [|by rewrite lookup_insert_ne].
  apply pending_settled in Hl. rewrite E, pending_app in Hp. cbn in Hp. lia.
Qed.

Lemma cache_note_commute m v st : note (ModuleEnds m) (cache_module m v st) = cache_module m v (note (ModuleEnds m) st).
Proof. done. Qed.

Lemma require_keeps run modName st : keeps run -> advances st (require run modName st).2.
Proof.
  intros Hr. unfold require. destruct (st_loaded st !! modName) eqn:Ec; [by apply note_other|].
  destruct (require_path _ _ _ _) as [path|] eqn:Ep; [|reflexivity]. destruct (LoadFile path) as [c|]; [|reflexivity].
  assert (Hpath : exists rel, below_scripts e wd rel = Some path).
  { unfold require_path in Ep. case_match; [done|]. destruct (below_scripts _ _ _) as [p|] eqn:E; [|done].
    destruct (exists_file p); [|done]. injection Ep as ->. eauto. }
  set (st1 := note (ModuleBegins modName path) st). pose proof (Hr c st1) as H1. destruct (run c st1) as [r st2].
  cbn [snd] in H1. intros [Hs Hp].
  assert (Hp1 : forall m, pending m (st_log st1) = (pending m (st_log st) + (if bool_decide (modName = m) then 1 else 0))%Z)
    by (intros m; cbn; rewrite pending_app; cbn; lia).
  destruct H1 as ([S2 _] & P2 & l & El & Fl).
  { split; [by apply note_steady|]. intros m. rewrite Hp1. specialize (Hp m). case_bool_decide; lia. }
  assert (Hend : forall m, (pending m (st_log st2 ++ [ModuleEnds modName]) = pending m (st_log st))%Z)
    by (intros m; rewrite pending_app, P2, Hp1; cbn; case_bool_decide; lia).
  assert (Hext : Forall contained ([ModuleBegins modName path] ++ l ++ [ModuleEnds modName]))
    by (repeat apply Forall_app_2; [by apply Forall_singleton|done|by apply Forall_singleton]).
  assert (El2 : st_log st2 ++ [ModuleEnds modName] = st_log st ++ [ModuleBegins modName path] ++ l ++ [ModuleEnds modName])
    by (rewrite El; cbn; by rewrite <- !app_assoc).
  destruct r as [err|v]; cbn [snd].
  - split_and!; [split; [by apply note_steady|]| |by eexists]; [intros m; cbn; by rewrite Hend|done].
  - set (ret := if is_nil v then true_ else v).
    assert (Hc : steady (note (ModuleEnds modName) (cache_module modName ret st2))).
    { apply note_steady; [done|]. apply cache_steady; [done|]. rewrite P2, Hp1, bool_decide_eq_true_2 by done.
      specialize (Hp modName). lia. }
    rewrite cache_note_commute in Hc. set (st3 := cache_module modName ret (note (ModuleEnds modName) st2)) in *.
    assert (Ha : advances st st3).
    { intros _. split_and!; [split; [done|]| |by eexists]; [intros m; cbn; by rewrite Hend|done]. }
    assert (Hn : advances st3 (note (RequireAnswers modName ret) st3))
      by (apply note_other; [cbn; by rewrite lookup_insert_eq|done]).
    exact (transitivity Ha Hn (conj Hs Hp)).
Qed.

Lemma dofile_keeps run name st : keeps run -> advances st (dofile run name st).2.
Proof.
  intros Hr. unfold dofile. destruct (dofile_path _ _ _) as [path|] eqn:Ep; [|reflexivity].
  destruct (LoadFile path) as [c|]; [|reflexivity].
  assert (contained (DofileRuns path)) as Hp by (unfold dofile_path in Ep; case_match; [done|cbn; eauto]).
  transitivity (note (DofileRuns path) st); [by apply note_other|].
  pose proof (Hr c (note (DofileRuns path) st)) as H1. by destruct (run c _) as [[err|v] st1].
Qed.

Lemma run_sandboxed_alone c : forall st, (run_sandboxed c st).2 = st.
Proof. induction c as [v|err|m k IH|n k IH|i k IH|p k IH]; intros st; cbn; [done..| | | |]; apply IH. Qed.

Lemma loadSandboxed_keeps id st : advances st (loadSandboxed run_sandboxed id st).2.
Proof.
  unfold loadSandboxed. destruct (sandboxed_path _ _ _ _) as [path|] eqn:Ep; [|reflexivity].
  destruct (LoadFile path) as [c|]; [|reflexivity].
  transitivity (note (SandboxRuns path) st); [by apply note_other; [|exists id]|].
  pose proof (run_sandboxed_alone c (note (SandboxRuns path) st)) as H1.
  destruct (run_sandboxed c _) as [[err|v] st1]; cbn in *; by subst.
Qed.

Lemma loadfile_keeps run path st : keeps run -> advances st (loadfile run path st).2.
Proof.
  intros Hr. unfold loadfile. destruct (LoadFile path) as [c|]; [|reflexivity].
  transitivity (note (LoadfileRuns path) st); [by apply note_other|apply Hr].
Qed.

Lemma run_chunk_keeps depth : keeps (run_chunk depth).
Proof.
  induction depth as [|depth IH]; [by intros c st|]. intros c.
  induction c as [v|err|m k IHc|n k IHc|i k IHc|p k IHc]; intros st; cbn [run_chunk snd]; try reflexivity.
  - pose proof (require_keeps _ m st IH) as H1. destruct (require _ m st) as [r st1]. etransitivity; [exact H1|apply (IHc r)].
  - pose proof (dofile_keeps _ n st IH) as H1. destruct (dofile _ n st) as [r st1]. etransitivity; [exact H1|apply (IHc r)].
  - pose proof (loadSandboxed_keeps i st) as H1. destruct (loadSandboxed _ i st) as [r st1].
    etransitivity; [exact H1|apply (IHc r)].
  - pose proof (loadfile_keeps _ p st IH) as H1. destruct (loadfile _ p st) as [r st1]. etransitivity; [exact H1|apply (IHc r)].
Qed.

Definition fresh_state : load_state := mkLoadState ∅ [].

Lemma fresh_sound : sound_state fresh_state.
Proof. split; [|done]. intros m v l1 l2 E. by destruct l1. Qed.
End Loading.
Arguments fresh_state {V}.


(** ** A small library *)

(** Values are numbers, 0 is nil and 1 is true. The module [lib/a] requires
    [lib/b]; [lib/self] requires itself, and [lib/twice] does so until its stack
    ends, catches that, and returns what is left of the stack. *)
Definition small_files (path : string) : option (chunk (V := nat)) :=
  if decide (path = "external/scripts/lib/a.lua"%string) then
    Some (CRequire "lib/b" (fun r => match r with inr v => CReturn (v + 1) | inl err => CError err end))
  else if decide (path = "external/scripts/lib/b.lua"%string) then Some (CReturn 6)
  else if decide (path = "external/scripts/lib/self.lua"%string) then
    Some (CRequire "lib/self" (fun r => match r with inr v => CReturn v | inl err => CError err end))
  else if decide (path = "external/scripts/lib/twice.lua"%string) then
    Some (CRequire "lib/twice" (fun r => match r with inr v => CReturn (v + 1) | inl _ => CReturn 5 end))
  else if decide (path = "/etc/other.lua"%string) then Some (CReturn 9)
  else None.

Definition small_run (depth : nat) (c : chunk) := run_chunk (V := nat) 1 (Nat.eqb 0) (fun _ => false) example_engine
  (Some "/srv/musgo"%string) (fun _ => true) Some small_files depth c fresh_state.
Definition return_it (r : load_error + nat) : chunk := match r with inr v => CReturn v | inl err => CError err end.

Example a_and_b :
  small_run 5 (CRequire "lib/a" return_it) =
    (inr 7, mkLoadState {["lib/a" := 7; "lib/b" := 6]}%string
      [ModuleBegins "lib/a" "external/scripts/lib/a.lua"; ModuleBegins "lib/b" "external/scripts/lib/b.lua";
       ModuleEnds "lib/b"; RequireAnswers "lib/b" 6; ModuleEnds "lib/a"; RequireAnswers "lib/a" 7]).
Proof. by vm_compute. Qed.

Example requires_itself : exists err, (small_run 20 (CRequire "lib/self" return_it)).1 = inl err.
Proof. eexists. by vm_compute. Qed.

(** The inner load of [lib/twice] has answered 5 when the outer one answers 6: a
    module that had a value gets another. *)
Example self_require_overwritten :
  small_run 3 (CRequire "lib/twice" return_it) =
    (inr 6, mkLoadState {["lib/twice" := 6]}%string
      [ModuleBegins "lib/twice" "external/scripts/lib/twice.lua"; ModuleBegins "lib/twice" "external/scripts/lib/twice.lua";
       ModuleBegins "lib/twice" "external/scripts/lib/twice.lua"; ModuleEnds "lib/twice"; ModuleEnds "lib/twice"; RequireAnswers "lib/twice" 5; ModuleEnds "lib/twice"; RequireAnswers "lib/twice" 6]).
Proof. by vm_compute. Qed.

(** [loadfile] is not confined to the scripts directory. *)
Example loadfile_escapes :
  small_run 3 (CLoadfile "/etc/other.lua" return_it) = (inr 9, mkLoadState ∅ [LoadfileRuns "/etc/other.lua"]) /\
  ~ strictly_below "/srv/musgo" "external/scripts" "/etc/other.lua".
Proof.
  split; [by vm_compute|]. intros (d & a & names & [= <-] & [= <-] & _ & _ & E). vm_compute in E. discriminate E.
Qed.


(** A machine with the base and the three libraries, and [mus] and [require]. *)
Definition small_globals : gmap string (lval nat) :=
  list_to_map [("pairs", Plain 1); ("math", Table 0); ("string", Table 1); ("table", Table 2); ("mus", Table 3); ("require", Plain 2)]%string.
Definition small_heap : heap nat :=
  mkHeap (list_to_map [(0, {["floor" := Plain 10]}); (1, {["rep" := Plain 11]}); (2, ∅); (3, {["response" := Plain 12]})]%string) 4.

Lemma sandbox_isolated_witness :
  exists l h' env, sandbox_env small_globals small_heap = Some (l, h') /\ hp_tables h' !! l = Some env /\
    env !! "mus"%string = None /\ env !! "pairs"%string = Some (Plain 1) /\
    hp_tables (write l "math" (Plain 0) h') !! 0 = hp_tables small_heap !! 0.
Proof.
  destruct (sandbox_env small_globals small_heap) as [[l h']|] eqn:E; [|exfalso; vm_compute in E; discriminate].
  exists l, h'. pose proof (sandbox_isolated small_globals small_heap l h') as H.
  destruct H as (env & H1 & H2 & H3 & _ & H5); [|exact E|].
  - split.
    + intros i [t Ht]. revert i t Ht. change (map_Forall (fun i _ => i < 4) (hp_tables small_heap)).
      apply (bool_decide_unpack _). vm_compute. exact I.
    + intros k i Hk.
      assert (map_Forall (fun _ v => (match v with Table i => i | Plain _ => 0 end) < 4) small_globals) as Hg
        by (apply (bool_decide_unpack _); vm_compute; exact I).
      exact (Hg k _ Hk).
  - exists env. split; [reflexivity|]. split; [exact H1|]. split; [apply H2, (bool_decide_unpack _); vm_compute; exact I|].
    split; [rewrite H3; [reflexivity|apply (bool_decide_unpack _); vm_compute; exact I]|].
    apply H5; [left; reflexivity|cbn; lia].
Defined.
