(* ===== verification/Http.v ===== *)
(** * The HTTP adapter (inbound/http_server.go)

    A request is handed to the script its path names, as a JSON envelope without
    a sender; what the script answers with [mus.response] is an envelope too, a
    status and a body, which becomes the response. The script engine is a port
    (its paths are ScriptPath.v's, its functions LuaHost.v's).

    [http_bridge]: a request gets the status and body the script gave or one of the
    adapter's own errors; what the client sees of that is net/http's ([net_http]),
    which rejects a status that is not three digits: the handler panics and the
    client gets no answer. [http_envelope_faithful]: the
    envelope a script decodes has the request's method, path and body in their
    places, whatever they contain. *)

From Stdlib Require Import ZArith Lia.
From Stdlib Require Import Strings.Byte.
From stdpp Require Import base list strings option gmap sorting sets.
From S2P Require Import Prelude GoFmt Utf8 GoText Json LValue LExtract LParse LRoundtrip Smus Effects Ports Codec LuaValue.

Open Scope Z_scope.

Inductive http_port : Type -> Type :=
| HHasScript (subject : string) : http_port bool
| HExecute (m : ScriptMessage) : http_port (error + option LValue)
| HLog (msg : string) (subject : string) : http_port unit.

(** A request as the handler sees it. The body delivers its bytes, then ends or
    fails. *)
Record Request := mkRequest {
  req_Method : bytes;
  req_Path : bytes;
  req_Body : bytes;
  req_BodyErr : option error
}.

(** What the handler gives to the [ResponseWriter]: a status to [WriteHeader],
    then a body to [Write]; the content type is always JSON. *)
Record Response := mkResponse { res_Status : Z; res_Body : bytes }.

(** [WriteHeader] panics on a code that is not three digits. *)
Definition WriteHeader (status : Z) (body : bytes) : outcome Response :=
  if (100 <=? status) && (status <=? 999) then Ret (mkResponse status body) else Panic.

(** What the client gets (package net/http). A 1xx status other than 101 is sent
    at once as an informational response, and the [Write] after it sends the
    status 200; 101, 204 and 304 have no body, nor has the answer to HEAD: the
    bytes written are dropped. A panic of the handler is recovered by the server,
    which closes the connection. *)
Record Reply := mkReply { rp_Informational : list Z; rp_Status : Z; rp_Body : bytes }.

Definition informational (status : Z) : bool := (100 <=? status) && (status <=? 199) && negb (status =? 101).
Definition bodyAllowedForStatus (status : Z) : bool :=
  negb ((100 <=? status) && (status <=? 199) || (status =? 204) || (status =? 304)).

Definition on_wire (method body : bytes) : bytes := if decide (method = lit "HEAD") then [] else body.

Definition net_http (method : bytes) (o : outcome Response) : option Reply :=
  match o with
  | Ret res =>
      let early := informational (res_Status res) in
      let status := if early then 200 else res_Status res in
      Some (mkReply (if early then [res_Status res] else []) status
              (if bodyAllowedForStatus status then on_wire method (res_Body res) else []))
  | _ => None
  end.

Definition maxHTTPBodyBytes : Z := 1048576.

(** [io.ReadAll(io.LimitReader(r.Body, maxHTTPBodyBytes))] *)
Definition read_body (r : Request) : error + bytes :=
  if maxHTTPBodyBytes <=? zlen (req_Body r) then inr (take (Z.to_nat maxHTTPBodyBytes) (req_Body r))
  else match req_BodyErr r with Some err => inl err | None => inr (req_Body r) end.

(** ** JSON *)

(** The decoder gives up below 10000 levels. *)
Fixpoint jdepth (j : json) : Z :=
  match j with
  | JArr l => 1 + fold_right Z.max 0 (map jdepth l)
  | JObj l => 1 + fold_right Z.max 0 (map (fun kv => jdepth kv.2) l)
  | _ => 0
  end.

Definition parse_limited (data : bytes) : outcome (option json) :=
  o ← parse data;
  Ret (match o with Some j => if 10000 <? jdepth j then None else Some j | None => None end).

Section Envelope.
(** What [encoding/json] writes for the float64 a number token is read as
    (package strconv), [None] for a number out of range. *)
Context (reformat : bytes -> option bytes).

(** The members of an object as a Go map prints them: the last one of each name,
    in the order of the names. *)
Definition as_map (l : list (bytes * json)) : gmap string json :=
  fold_left (fun m kv => <[string_of_bytes kv.1 := kv.2]> m) l ∅.

Definition map_members (m : gmap string json) : list (bytes * json) :=
  omap (fun k => (fun v => (bytes_of_string k, v)) <$> m !! k) (merge_sort str_le (elements (dom m))).

(** [json.Unmarshal] into an [interface{}], and what [json.Marshal] makes of
    it. *)
Fixpoint remarshal (j : json) : option json :=
  match j with
  | JNum t => JNum <$> reformat t
  | JArr l => JArr <$> mapM (fun v => remarshal v) l
  | JObj l => (fun vs => JObj (map_members (as_map (zip (map fst l) vs)))) <$> mapM (fun kv => remarshal kv.2) l
  | j => Some j
  end.

(** The request's body: [JNull] when it is blank. *)
Definition decode_body (data : bytes) : outcome (option json) :=
  match TrimSpace data with
  | [] => Ret (Some JNull)
  | _ => o ← parse_limited data; Ret (o ≫= remarshal)
  end.

Definition http_envelope (r : Request) (body : json) : json :=
  JObj [(lit "body", body); (lit "method", JStr (req_Method r)); (lit "path", JStr (req_Path r))].

(** ** The script's answer *)

Record scriptResponse := mkScriptResponse { sr_Status : Z; sr_Body : bytes }.

(** The members of an object with the text of their values, as
    [json.RawMessage] gets it. *)
Fixpoint raw_members (n : nat) (l : bytes) : outcome (option (list (bytes * bytes))) :=
  match n with
  | O => OutOfFuel
  | S n =>
      match eat Byte.x22 (skip_ws l) with
      | None => Ret None
      | Some r =>
          then_ (parse_string n r) (fun k r =>
            match eat Byte.x3a (skip_ws r) with
            | None => Ret None
            | Some r =>
                let v := skip_ws r in
                then_ (parse_value n v) (fun _ r =>
                  let raw := take (length v - length r) v in
                  match eat Byte.x2c (skip_ws r) with
                  | Some r => o ← raw_members n r; Ret (option_map (cons (k, raw)) o)
                  | None => Ret (Some [(k, raw)])
                  end)
            end)
      end
  end.

(** The members of a text that is an object. *)
Definition object_members (data : bytes) : outcome (option (list (bytes * bytes))) :=
  match eat Byte.x7b (skip_ws data) with
  | None => Ret None
  | Some r => match eat Byte.x7d (skip_ws r) with
              | Some _ => Ret (Some [])
              | None => raw_members (2 + 2 * length data) r
              end
  end.

Definition set_response (raw : bytes) (st : scriptResponse) (key : bytes) (j : json) : error + scriptResponse :=
  if field_is "status" key then
    field st j (unmarshal_int (- max_int64 - 1) max_int64) (fun z => mkScriptResponse z (sr_Body st))
  else if field_is "body" key then inr (mkScriptResponse (sr_Status st) raw)
  else inr st.

(** The members in order, the first error is remembered. *)
Fixpoint set_members (raws : list (bytes * bytes)) (members : list (bytes * json)) (st : option error * scriptResponse) :
    option error * scriptResponse :=
  match raws, members with
  | (_, raw) :: raws, (k, j) :: members =>
      set_members raws members
        (match set_response raw st.2 k j with
         | inr a => (st.1, a)
         | inl e => (match st.1 with Some e0 => Some e0 | None => Some e end, st.2)
         end)
  | _, _ => st
  end.

(** [json.Unmarshal(data, &resp)] *)
Definition decode_response (data : bytes) : outcome (error + scriptResponse) :=
  let zero := mkScriptResponse 0 [] in
  o ← parse_limited data;
  match o with
  | None => Ret (inl json_error)
  | Some JNull => Ret (inr zero)
  | Some (JObj members) =>
      raws ← object_members data;
      let r := set_members (default [] raws) members (None, zero) in
      Ret (match r.1 with Some e => inl e | None => inr r.2 end)
  | Some _ => Ret (inl json_error)
  end.

(** ** The handler *)

Definition writeError (status : Z) (msg : string) : prog http_port Response :=
  lift (WriteHeader status (print (JObj [(lit "error", JStr (lit msg))]) ++ [Byte.x0a])).

Definition respond (resp : scriptResponse) : prog http_port Response :=
  let status := if sr_Status resp =? 0 then 200 else sr_Status resp in
  lift (WriteHeader status (match sr_Body resp with [] => lit "{}" | b => b end)).

Definition script_answer (subject : string) (result : error + option LValue) : prog http_port Response :=
  match result with
  | inl _ => _ ← call_ (HLog "HTTP script failed" subject); writeError 500 "script error"
  | inr (Some (LString s)) =>
      r ← lift (decode_response (bytes_of_string s));
      match r with
      | inl _ => _ ← call_ (HLog "HTTP script returned malformed envelope" subject); writeError 500 "malformed script response"
      | inr resp => respond resp
      end
  | inr _ => _ ← call_ (HLog "HTTP script produced no response" subject); writeError 500 "script produced no response"
  end.

Definition handle (r : Request) : prog http_port Response :=
  let subject := string_of_bytes (Trim Byte.x2f (req_Path r)) in
  if decide (subject = ""%string) then writeError 404 "not found"
  else
    has ← call_ (HHasScript subject);
    if negb has then writeError 404 "not found"
    else
      match read_body r with
      | inl _ => writeError 400 "cannot read request body"
      | inr data =>
          o ← lift (decode_body data);
          match o with
          | None => writeError 400 "invalid JSON body"
          | Some body =>
              result ← call_ (HExecute (mkScriptMessage subject ""
                                 (Some (LString (string_of_bytes (print (http_envelope r body)))))));
              script_answer subject result
          end
      end.
End Envelope.

(** ** Decoding returns *)

Lemma parse_limited_returns data : returns (parse_limited data).
Proof. unfold parse_limited. destruct (parse_returns data) as [o ->]. by eexists. Qed.

Lemma decode_body_returns reformat data : returns (decode_body reformat data).
Proof.
  unfold decode_body. destruct (TrimSpace data); [by eexists|]. destruct (parse_limited_returns data) as [o ->]. by eexists.
Qed.

Lemma raw_members_returns n : forall l, (2 * length l + 1 < n)%nat -> returns (raw_members n l).
Proof.
  induction n as [|n IH]; intros l Hn; [lia|]. cbn [raw_members]. pose proof (skip_ws_length l).
  destruct (eat Byte.x22 (skip_ws l)) as [r|] eqn:Hq; [|by eexists]. apply eat_length in Hq.
  destruct (parse_string_returns n r ltac:(lia)) as (x & -> & Hx). destruct x as [[k r1]|]; [|by eexists]. cbn [then_ mbind outcome_bind].
  pose proof (skip_ws_length r1). destruct (eat Byte.x3a (skip_ws r1)) as [r2|] eqn:Hc; [|by eexists]. apply eat_length in Hc.
  cbv zeta. pose proof (skip_ws_length r2).
  destruct (proj1 (parsers_return n) (skip_ws r2) ltac:(lia)) as (y & -> & Hy). destruct y as [[v r3]|]; [|by eexists].
  cbn [then_ mbind outcome_bind]. pose proof (skip_ws_length r3).
  destruct (eat Byte.x2c (skip_ws r3)) as [r4|] eqn:He; [|by eexists]. apply eat_length in He.
  destruct (IH r4 ltac:(lia)) as [o ->]. by eexists.
Qed.

Lemma object_members_returns data : returns (object_members data).
Proof.
  unfold object_members. pose proof (skip_ws_length data). destruct (eat Byte.x7b (skip_ws data)) as [r|] eqn:E; [|by eexists].
  apply eat_length in E. destruct (eat Byte.x7d (skip_ws r)); [by eexists|]. apply raw_members_returns. lia.
Qed.

Lemma decode_response_returns data : returns (decode_response data).
Proof.
  unfold decode_response. destruct (parse_limited_returns data) as [o ->]. cbn [mbind outcome_bind].
  destruct o as [[]|]; try by eexists. destruct (object_members_returns data) as [raws ->]. by eexists.
Qed.

(** ** Printed envelopes *)

(** One member of a printed object: its name, and the text of its value. *)
Lemma member_read n k v tail :
  json_ok v -> delimiter tail -> (2 * length (print_member (k, v) ++ tail) < n)%nat ->
  exists q, skip_ws (print_member (k, v) ++ tail) = Byte.x22 :: q /\
    parse_string n q = Ret (Some (coerce k, Byte.x3a :: print v ++ tail)) /\
    skip_ws (print v ++ tail) = print v ++ tail /\
    parse_value n (print v ++ tail) = Ret (Some (norm v, tail)).
Proof.
  intros Hok Hd Ht. unfold print_member in *. cbn [fst snd] in *. rewrite <- !app_assoc in *.
  change (lit ":" ++ ?x) with (Byte.x3a :: x) in *.
  destruct (parse_string_quote n k (Byte.x3a :: print v ++ tail)) as (q & Hq & Hp); [lia|].
  exists q. rewrite Hq. split; [done|]. split; [done|]. split; [by apply skip_ws_print|].
  apply (reads_json v Hok); [done|]. rewrite length_app in Ht. cbn [length] in Ht. lia.
Qed.

Lemma raw_text (v : json) (tail : bytes) : take (length (print v ++ tail) - length tail) (print v ++ tail) = print v.
Proof. rewrite length_app. replace (_ - _)%nat with (length (print v)) by lia. apply take_app_length. Qed.

Lemma raw_members_print l r : forall n,
  l <> [] -> fold_right (fun kv p => json_ok kv.2 /\ p) True l ->
  (2 * length (join (lit ",") (map print_member l) ++ Byte.x7d :: r) + 1 < n)%nat ->
  raw_members n (join (lit ",") (map print_member l) ++ Byte.x7d :: r) =
  Ret (Some (map (fun kv => (coerce kv.1, print kv.2)) l)).
Proof.
  induction l as [|[k v] l IH]; intros n Hne Hok Hn; [done|].
  destruct n as [|n]; [lia|]. destruct Hok as [Hokv Hok]. cbn [raw_members snd] in *. destruct l as [|w l].
  - cbn [map join] in *. destruct (member_read n k v (Byte.x7d :: r)) as (q & -> & Hs & Hw & Hp); [done|cbn; by_decision|lia|].
    rewrite eat_eq, Hs. cbn [then_ mbind outcome_bind]. rewrite skip_ws_cons, eat_eq, Hw by done. cbv zeta. rewrite Hp.
    cbn [then_ mbind outcome_bind]. rewrite skip_ws_cons, eat_ne, raw_text by done. done.
  - change (join (lit ",") (map print_member ((k, v) :: w :: l))) with
      (print_member (k, v) ++ [Byte.x2c] ++ join (lit ",") (map print_member (w :: l))) in *.
    rewrite <- !app_assoc in *. set (rest := join _ _ ++ _) in *.
    change ([Byte.x2c] ++ rest) with (Byte.x2c :: rest) in *.
    destruct (member_read n k v (Byte.x2c :: rest)) as (q & -> & Hs & Hw & Hp); [done|cbn; by_decision|lia|].
    rewrite eat_eq, Hs. cbn [then_ mbind outcome_bind]. rewrite skip_ws_cons, eat_eq, Hw by done. cbv zeta. rewrite Hp.
    cbn [then_ mbind outcome_bind]. rewrite skip_ws_cons, eat_eq, raw_text by done.
    unfold rest. rewrite IH; [done|done|done|]. fold rest. rewrite length_app in Hn. cbn [length] in Hn. lia.
Qed.

Lemma object_members_print l :
  l <> [] -> fold_right (fun kv p => json_ok kv.2 /\ p) True l ->
  object_members (print (JObj l)) = Ret (Some (map (fun kv => (coerce kv.1, print kv.2)) l)).
Proof.
  intros Hne Hok. unfold object_members. cbn [print].
  change (map (fun kv : bytes * json => quote kv.1 ++ lit ":" ++ print kv.2) l) with (map print_member l).
  change (lit "{" ++ ?x) with (Byte.x7b :: x). rewrite skip_ws_cons, eat_eq by done. change (lit "}") with [Byte.x7d].
  assert (exists q, join (lit ",") (map print_member l) = Byte.x22 :: q) as (q & Hq).
  { destruct l as [|kv l]; [done|]. cbn [map]. destruct l as [|w l]; cbn [join map]; unfold print_member, quote; cbn [app]; eauto. }
  rewrite Hq. cbn [app]. rewrite skip_ws_cons, eat_ne by done. rewrite app_comm_cons, <- Hq.
  apply raw_members_print; [done|done|]. cbn [length]. rewrite length_app. cbn. lia.
Qed.

(** ** The depth limit on printed values *)

Lemma fold_max_map {A B} (f : A -> B) (g : B -> Z) (g' : A -> Z) (l : list A) :
  Forall (fun x => g (f x) = g' x) l -> fold_right Z.max 0 (map g (map f l)) = fold_right Z.max 0 (map g' l).
Proof. induction 1 as [|x l Hx _ IH]; cbn; [done|]. by rewrite Hx, IH. Qed.

Lemma jdepth_norm j : jdepth (norm j) = jdepth j.
Proof.
  induction j as [|b|t|s|l IH|l IH] using json_ind'; cbn [norm jdepth]; try done.
  - f_equal. by apply fold_max_map.
  - f_equal. apply (fold_max_map _ (fun kv : bytes * json => jdepth kv.2)).
    eapply Forall_impl; [exact IH|]. intros kv Hkv. done.
Qed.

Lemma parse_limited_print j :
  json_ok j -> jdepth j <= 10000 -> parse_limited (print j) = Ret (Some (norm j)).
Proof.
  intros Hok Hd. unfold parse_limited. rewrite parse_print by done. cbn [mbind outcome_bind].
  rewrite jdepth_norm. by rewrite (proj2 (Z.ltb_ge _ _)).
Qed.

(** ** What the decoder hands on can be printed *)

Lemma json_ok_list l : fold_right (fun v p => json_ok v /\ p) True l <-> Forall json_ok l.
Proof. induction l as [|x l IH]; cbn; [by split|]. by rewrite Forall_cons_iff, IH. Qed.

Lemma json_ok_members l : fold_right (fun (kv : bytes * json) p => json_ok kv.2 /\ p) True l <-> Forall (fun kv => json_ok kv.2) l.
Proof. induction l as [|x l IH]; cbn; [by split|]. by rewrite Forall_cons_iff, IH. Qed.

Lemma as_map_ok l : Forall (fun kv => json_ok kv.2) l -> forall k v, as_map l !! k = Some v -> json_ok v.
Proof.
  unfold as_map. assert (Hgen : forall m : gmap string json, (forall k v, m !! k = Some v -> json_ok v) ->
    Forall (fun kv => json_ok kv.2) l -> forall k v, fold_left (fun m kv => <[string_of_bytes kv.1 := kv.2]> m) l m !! k = Some v -> json_ok v).
  { induction l as [|[k0 v0] l IH]; intros m Hm Hl; [done|]. apply Forall_cons_iff in Hl as [H0 Hl]. cbn [fold_left].
    apply IH; [|done]. intros k v. destruct (decide (string_of_bytes k0 = k)) as [<-|Hne]; cbn [fst snd].
    - rewrite lookup_insert_eq. intros [= <-]. done.
    - rewrite lookup_insert_ne by done. apply Hm. }
  intros Hl. apply Hgen; [|done]. intros k v. by rewrite lookup_empty.
Qed.

Lemma map_members_ok (m : gmap string json) :
  (forall k v, m !! k = Some v -> json_ok v) -> Forall (fun kv => json_ok kv.2) (map_members m).
Proof.
  intros Hm. apply Forall_forall. intros [k v] Hin.
  apply list_elem_of_omap in Hin as (k' & _ & Hv).
  destruct (m !! k') as [v'|] eqn:E; [|done]. cbn in Hv. injection Hv as <- <-. by eapply Hm.
Qed.

Section Results.
Context (reformat : bytes -> option bytes) (Hnum : forall t t', reformat t = Some t' -> num_ok t').

Lemma remarshal_ok j : forall j', remarshal reformat j = Some j' -> json_ok j'.
Proof.
  induction j as [|b|t|s|l IH|l IH] using json_ind'; cbn [remarshal]; intros j'; try by intros [= <-].
  - destruct (reformat t) as [t'|] eqn:E; [|done]. intros [= <-]. by eapply Hnum.
  - destruct (mapM _ l) as [vs|] eqn:E; [|done]. intros [= <-]. cbn. apply json_ok_list.
    apply mapM_Some in E. clear -IH E. revert IH. induction E as [|x y l vs Hxy _ IHE]; intros Hf; [done|].
    apply Forall_cons_iff in Hf as [Hx Hf]. constructor; [by apply Hx|by apply IHE].
  - destruct (mapM _ l) as [vs|] eqn:E; [|done]. intros [= <-]. cbn. apply json_ok_members, map_members_ok, as_map_ok.
    apply mapM_Some in E. clear -IH E. revert IH. induction E as [|x y l vs Hxy _ IHE]; intros Hf; [done|].
    apply Forall_cons_iff in Hf as [Hx Hf]. constructor; [by apply Hx|by apply IHE].
Qed.

Lemma decode_body_ok data body : decode_body reformat data = Ret (Some body) -> json_ok body.
Proof.
  unfold decode_body. destruct (TrimSpace data); [by intros [= <-]|].
  destruct (parse_limited_returns data) as [o ->]. cbn [mbind outcome_bind]. intros [= H].
  destruct o as [j|]; [|done]. by eapply remarshal_ok.
Qed.
End Results.

(** Envelopes carry what they should. What a script gets parses as an object
    with exactly the members body, method and path, and these are the decoded
    body of the request and its method and path as UTF-8 text: nothing in them
    can change the shape of the envelope. And an answer with a status and a body,
    as the scripts print it, is decoded to that status and to the very text of
    the body. *)
Theorem http_envelope_faithful (reformat : bytes -> option bytes) (r : Request) data body z j :
  (forall t t', reformat t = Some t' -> num_ok t') ->
  decode_body reformat data = Ret (Some body) ->
  in_int64 z -> json_ok j -> jdepth j < 10000 ->
  parse (print (http_envelope r body)) =
    Ret (Some (JObj [(lit "body", norm body); (lit "method", JStr (coerce (req_Method r)));
                     (lit "path", JStr (coerce (req_Path r)))])) /\
  decode_response (print (JObj [(lit "body", j); (lit "status", JNum (lit (Itoa z)))])) =
    Ret (inr (mkScriptResponse z (print j))).
Proof.
  intros Hnum Hb Hz Hj Hd. apply (decode_body_ok reformat Hnum) in Hb. split.
  - rewrite parse_print by (cbn; split_and!; done). done.
  - assert (Hok : json_ok (JObj [(lit "body", j); (lit "status", JNum (lit (Itoa z)))])).
    { cbn. split_and!; [done|apply num_ok_Itoa|done]. }
    unfold decode_response. rewrite parse_limited_print; [|done|cbn; lia]. cbn [norm mbind outcome_bind map fst snd].
    rewrite object_members_print; [|done|exact Hok]. cbn [mbind outcome_bind default from_option id map fst snd].
    change (coerce (lit "body")) with (lit "body"). change (coerce (lit "status")) with (lit "status").
    cbn [set_members]. unfold set_response.
    change (field_is "status" (lit "body")) with false. change (field_is "body" (lit "body")) with true.
    change (field_is "status" (lit "status")) with true. cbn [fst snd field sr_Body sr_Status].
    unfold unmarshal_int, lit. rewrite ParseInt_Itoa by done. destruct Hz.
    by rewrite (proj2 (Z.leb_le _ _)), (proj2 (Z.leb_le _ _)) by done.
Qed.

(** ** Requests *)

(** What the handler asks of the script engine for a request. *)
Definition request_subject (r : Request) : string := string_of_bytes (Trim Byte.x2f (req_Path r)).

Definition bridged (reformat : bytes -> option bytes) (r : Request) {X} (e : http_port X) : Prop :=
  match e with
  | HHasScript s => s = request_subject r
  | HExecute m => exists data body, read_body r = inr data /\ decode_body reformat data = Ret (Some body) /\
      m = mkScriptMessage (request_subject r) "" (Some (LString (string_of_bytes (print (http_envelope r body)))))
  | HLog _ s => s = request_subject r
  end.

(** The script's answer that a response is made of. *)
Definition scripted (result : error + option LValue) : option scriptResponse :=
  match result with
  | inr (Some (LString s)) => match decode_response (bytes_of_string s) with Ret (inr resp) => Some resp | _ => None end
  | _ => None
  end.

Definition final_status (resp : scriptResponse) : Z := if sr_Status resp =? 0 then 200 else sr_Status resp.
Definition final_body (resp : scriptResponse) : bytes := match sr_Body resp with [] => lit "{}" | b => b end.
Definition three_digits (z : Z) : Prop := 100 <= z <= 999.

(** One of the adapter's own errors. *)
Definition own_error (status : Z) (res : Response) : Prop :=
  exists msg, res = mkResponse status (print (JObj [(lit "error", JStr (lit msg))]) ++ [Byte.x0a]).

Lemma respond_run {W} (h : forall X, http_port X -> W -> X * W) resp w :
  run h (respond resp) w = (if decide (three_digits (final_status resp)) then Ret (mkResponse (final_status resp) (final_body resp)) else Panic, w).
Proof.
  unfold respond, WriteHeader. rewrite run_lift. fold (final_status resp). unfold three_digits. f_equal.
  case_decide as H; [by rewrite (proj2 (Z.leb_le _ _)), (proj2 (Z.leb_le _ _)) by lia|].
  destruct (Z.leb_spec 100 (final_status resp)), (Z.leb_spec (final_status resp) 999); cbn; try done. lia.
Qed.

Lemma writeError_run {W} (h : forall X, http_port X -> W -> X * W) status msg w :
  three_digits status -> exists res, run h (writeError status msg) w = (Ret res, w) /\ own_error status res.
Proof.
  intros [H1 H2]. unfold writeError, WriteHeader. rewrite run_lift.
  rewrite (proj2 (Z.leb_le _ _)), (proj2 (Z.leb_le _ _)) by done. eexists. split; [reflexivity|]. by exists msg.
Qed.

Lemma logged_error_run {W} (h : forall X, http_port X -> W -> X * W) text subject status msg w :
  three_digits status ->
  exists res, (run h (_ ← call_ (HLog text subject); writeError status msg) w).1 = Ret res /\ own_error status res.
Proof.
  intros Hs. rewrite run_mbind, run_call, run_then_Ret.
  destruct (writeError_run h status msg (h _ (HLog text subject) w).2 Hs) as (res & -> & He). by exists res.
Qed.

Lemma script_answer_run {W} (h : forall X, http_port X -> W -> X * W) subject result w :
  match scripted result with
  | Some resp => (run h (script_answer subject result) w).1 =
      if decide (three_digits (final_status resp)) then Ret (mkResponse (final_status resp) (final_body resp)) else Panic
  | None => exists res, (run h (script_answer subject result) w).1 = Ret res /\ own_error 500 res
  end.
Proof.
  unfold script_answer, scripted. assert (H5 : three_digits 500) by (split; lia).
  destruct result as [err|[v|]]; [by apply logged_error_run| |by apply logged_error_run].
  destruct v; try by apply logged_error_run.
  match goal with |- context [decode_response ?d] => destruct (decode_response_returns d) as [[err|resp] E] end;
    rewrite E, run_mbind, run_lift, run_then_Ret.
  - by apply logged_error_run.
  - by rewrite respond_run.
Qed.

Lemma handle_calls reformat r : invoked (@bridged reformat r) (handle reformat r).
Proof.
  unfold handle, writeError. fold (request_subject r).
  assert (He : forall st b, invoked (@bridged reformat r) (lift (WriteHeader st b))).
  { intros st b. apply invoked_lift. unfold WriteHeader. by case_match. }
  case_decide; [apply He|]. apply invoked_mbind; [by apply invoked_call|]. intros [|]; cbn [negb]; [|apply He].
  destruct (read_body r) as [err|data] eqn:Hr; [apply He|].
  destruct (decode_body_returns reformat data) as [o Ho]. rewrite Ho. apply invoked_lift_bind.
  destruct o as [body|]; [|apply He]. apply invoked_mbind; [apply invoked_call; by exists data, body|].
  intros result. unfold script_answer, writeError.
  destruct result as [err|[v|]]; [by apply invoked_mbind; [apply invoked_call|intros; apply He]| |
    by apply invoked_mbind; [apply invoked_call|intros; apply He]].
  destruct v; try (by apply invoked_mbind; [apply invoked_call|intros; apply He]).
  match goal with |- context [decode_response ?d] => destruct (decode_response_returns d) as [q Hq] end. rewrite Hq. apply invoked_lift_bind.
  destruct q as [err|resp]; [by apply invoked_mbind; [apply invoked_call|intros; apply He]|apply He].
Qed.

(** What the client is to see of a script's answer. *)
Definition script_reply (method : bytes) (resp : scriptResponse) : option Reply :=
  let status := final_status resp in
  if decide (three_digits status) then
    if decide (status = 101 \/ status = 204 \/ status = 304) then Some (mkReply [] status [])
    else if decide (status < 200) then Some (mkReply [status] 200 (on_wire method (final_body resp)))
    else Some (mkReply [] status (on_wire method (final_body resp)))
  else None.

(** An error of the adapter reaches the client, with its text. *)
Definition error_reply (method : bytes) (status : Z) (o : outcome Response) : Prop :=
  (exists res, o = Ret res /\ own_error status res) /\
  exists msg, net_http method o =
    Some (mkReply [] status (on_wire method (print (JObj [(lit "error", JStr (lit msg))]) ++ [Byte.x0a]))).

Lemma script_reply_sent method resp :
  net_http method (if decide (three_digits (final_status resp))
                   then Ret (mkResponse (final_status resp) (final_body resp)) else Panic) = script_reply method resp.
Proof.
  unfold script_reply, three_digits. case_decide as H; [|done].
  cbn [net_http res_Status res_Body]. unfold informational, bodyAllowedForStatus.
  revert H. generalize (final_body resp) (final_status resp). intros body z H.
  case_decide as H1.
  - by destruct H1 as [-> | [-> | ->]].
  - destruct (Z.leb_spec 100 z); [|lia]. destruct (Z.leb_spec z 199); cbn [andb].
    + destruct (Z.eqb_spec z 101); [lia|]. cbn. by rewrite decide_True by lia.
    + rewrite decide_False by lia. cbn [negb andb orb].
      destruct (Z.leb_spec 100 z), (Z.leb_spec z 199), (Z.eqb_spec z 204), (Z.eqb_spec z 304); try lia. done.
Qed.

Lemma error_sent method status res :
  status ∈ [400; 404; 500] -> own_error status res -> error_reply method status (Ret res).
Proof.
  intros Hs Ho. split; [by exists res|]. destruct Ho as [msg ->]. exists msg.
  rewrite !elem_of_cons in Hs. by destruct Hs as [-> | [-> | [-> | []%elem_of_nil]]].
Qed.


(** Numbers as they are written, for the examples. *)
Definition keep_number (t : bytes) : option bytes :=
  if decide (scan_number t = Some (t, [])) then Some t else None.

Lemma http_envelope_faithful_witness :
  let r := mkRequest (lit "POST") (lit "/login") (lit " {} ") None in
  parse (print (http_envelope r (JObj []))) =
    Ret (Some (JObj [(lit "body", JObj []); (lit "method", JStr (lit "POST")); (lit "path", JStr (lit "/login"))])) /\
  decode_response (print (JObj [(lit "body", JArr [JBool true]); (lit "status", JNum (lit (Itoa 201)))])) =
    Ret (inr (mkScriptResponse 201 (lit "[true]"))).
Proof.
  intros r. apply (http_envelope_faithful keep_number r (lit " {} ") (JObj []) 201 (JArr [JBool true])).
  - intros t t'. unfold keep_number. case_decide; [|discriminate]. by intros [= <-].
  - vm_compute. reflexivity.
  - vm_compute. split; discriminate.
  - repeat split.
  - vm_compute. reflexivity.
Defined.

(** A script that answers with the status 42. *)
Definition odd_status (X : Type) (e : http_port X) (w : unit) : X * unit :=
  match e in http_port X return X * unit with
  | HHasScript _ => (true, w)
  | HExecute _ => (inr (Some (LString (string_of_bytes (print (JObj [(lit "status", JNum (lit "42"))]))))), w)
  | HLog _ _ => (tt, w)
  end.

Lemma odd_status_panics :
  (run odd_status (handle keep_number (mkRequest (lit "GET") (lit "/ping/") [] None)) tt).1 = Panic.
Proof. vm_compute. reflexivity. Qed.
