(* ===== verification/LuaJson.v ===== *)
(** * mus.json (outbound/lua_json_module.go)

    [json.encode] turns a Lua value into a Go value and marshals it; [json.decode]
    unmarshals a text and builds Lua tables. [json_through_lua] says what comes
    out when a script decodes a text and encodes the result again: [settle], a
    function on JSON values alone.

    Package strconv (float64 and its decimal text) is a pair of parameters. *)

From Stdlib Require Import ZArith Lia.
From stdpp Require Import base list strings gmap option sets fin_maps sorting.
From S2P Require Import Prelude GoFmt Utf8 Json LValue Ports Codec SessionStore LuaValue LuaFill Http.

Open Scope Z_scope.

(** ** Go values, as encoding/json sees them *)

(** A [map[string]interface{}] is its members in the order of their names. *)
Inductive gov :=
| GNil
| GBool (b : bool)
| GInt (z : Z)
| GFloat (f : Z)
| GStr (s : string)
| GArr (l : list gov)
| GObj (l : list (string * gov)).

Definition members {A} (m : gmap string A) : list (string * A) :=
  omap (fun k => (fun v => (k, v)) <$> m !! k) (merge_sort str_le (elements (dom m))).

(** Assignments in order: the last one of a name counts. *)
Definition go_map {A} (l : list (string * A)) : gmap string A := fold_left (fun m kv => <[kv.1 := kv.2]> m) l ∅.

Inductive json_error := CannotEncode (v : luav) | Unsupported | Malformed.

(** The metatable of [json.array()] is a mark on the table. *)
Class JsonTables (T : Type) `{!LuaTables T} := {
  is_array : T -> bool;
  mark_array : T -> T;
  new_is_array : is_array NewTable = false;
  set_is_array k v t : is_array (RawSetString k v t) = is_array t;
  append_is_array v t : is_array (Append v t) = is_array t;
  mark_is_array t : is_array (mark_array t) = true
}.

Section LuaJson.
Context {T : Type} `{!LuaTables T, !JsonTables T}.
Context (FormatFloat : Z -> bytes) (ParseFloat : bytes -> option Z).

Abbreviation heap := (gmap nat T).
Abbreviation LM := (LM T).

(** [json.array()] *)
Definition json_array : LM luav := l ← new_table; _ ← on_table l mark_array; mret (LTbl l).

(** ** encode *)

(** A whole number in the range of the guard becomes an int64; the conversion of
    2^63, which the guard admits, wraps. *)
Definition jsonable_number (f : Z) : gov :=
  match float_int f with
  | Some z => if (- 2 ^ 63 <=? z) && (z <=? 2 ^ 63) then GInt (int64 z) else GFloat f
  | None => GFloat f
  end.

Definition isSequentialTable (t : T) : bool :=
  let maxN := MaxN t in
  if maxN =? 0 then false else zlen (ForEach t) =? maxN.

(** In order, up to the first error. *)
Fixpoint each {A B} (f : A -> outcome (json_error + B)) (l : list A) : outcome (json_error + list B) :=
  match l with
  | [] => Ret (inr [])
  | x :: l =>
      r ← f x;
      match r with
      | inl e => Ret (inl e)
      | inr y =>
          rs ← each f l;
          Ret (match rs with inl e => inl e | inr ys => inr (y :: ys) end)
      end
  end.

Definition string_entries (t : T) : list (string * luav) :=
  omap (fun kv => match kv.1 with KStr s => Some (s, kv.2) | _ => None end) (ForEach t).

Definition table_to_jsonable (conv : luav -> outcome (json_error + gov)) (t : T) : outcome (json_error + gov) :=
  if isSequentialTable t || is_array t then
    r ← each conv ((fun i => RawGetInt t i) <$> seqZ 1 (MaxN t));
    Ret (match r with inl e => inl e | inr gs => inr (GArr gs) end)
  else
    let entries := string_entries t in
    r ← each conv entries.*2;
    Ret (match r with inl e => inl e | inr gs => inr (GObj (members (go_map (zip entries.*1 gs)))) end).

(** Every level of nesting is a call of the Go function, one unit of fuel. *)
Fixpoint luaValueToJsonable (fuel : nat) (h : heap) (lv : luav) : outcome (json_error + gov) :=
  match lv with
  | LNil => Ret (inr GNil)
  | LBool b => Ret (inr (GBool b))
  | LNumber f => Ret (inr (jsonable_number f))
  | LStr s => Ret (inr (GStr s))
  | LTbl l =>
      match fuel, h !! l with
      | O, _ => OutOfFuel
      | S fuel, Some t => table_to_jsonable (luaValueToJsonable fuel h) t
      | S _, None => Panic
      end
  | LUser _ | LOther _ => Ret (inl (CannotEncode lv))
  end.

(** [json.Marshal]: NaN and the infinities have no text. *)
Fixpoint marshal (g : gov) : option json :=
  match g with
  | GNil => Some JNull
  | GBool b => Some (JBool b)
  | GInt z => Some (JNum (lit (Itoa z)))
  | GFloat f => if is_finite f then Some (JNum (FormatFloat f)) else None
  | GStr s => Some (JStr (bytes_of_string s))
  | GArr l => JArr <$> mapM (fun v => marshal v) l
  | GObj l => (fun vs => JObj (zip (map (fun kv => bytes_of_string kv.1) l) vs)) <$> mapM (fun kv => marshal kv.2) l
  end.

Definition json_encode (fuel : nat) (h : heap) (lv : luav) : outcome (json_error + bytes) :=
  r ← luaValueToJsonable fuel h lv;
  Ret (match r with
       | inl e => inl e
       | inr g => match marshal g with Some j => inr (print j) | None => inl Unsupported end
       end).

(** ** decode *)

(** [json.Unmarshal] into an [interface{}]: numbers are float64, out of range is an
    error. *)
Fixpoint unmarshal (j : json) : option gov :=
  match j with
  | JNull => Some GNil
  | JBool b => Some (GBool b)
  | JNum t => GFloat <$> ParseFloat t
  | JStr s => Some (GStr (string_of_bytes s))
  | JArr l => GArr <$> mapM (fun v => unmarshal v) l
  | JObj l => (fun vs => GObj (members (go_map (zip (map (fun kv => string_of_bytes kv.1) l) vs)))) <$> mapM (fun kv => unmarshal kv.2) l
  end.

Section Decode.
Context `{MapOrder}.

(** A map's members in the order of the iteration. *)
Definition ranged {A} (l : list (string * A)) : list (string * A) :=
  let m := go_map l in omap (fun k => (fun v => (k, v)) <$> m !! k) (range (dom m)).

Fixpoint goValueToLua (g : gov) : LM luav :=
  match g with
  | GNil => mret LNil
  | GBool b => mret (LBool b)
  | GFloat f => mret (LNumber f)
  | GStr s => mret (LStr s)
  | GArr l => t ← new_table; _ ← append_loop t (map goValueToLua l); mret (LTbl t)
  | GObj l => t ← new_table; _ ← set_fields t (ranged (map (fun kv => (kv.1, goValueToLua kv.2)) l)); mret (LTbl t)
  | GInt _ => mret LNil
  end.

Definition json_decode (str : string) : LM (json_error + luav) :=
  o ← lift_outcome (parse_limited (bytes_of_string str));
  match o ≫= unmarshal with
  | None => mret (inl Malformed)
  | Some g => v ← goValueToLua g; mret (inr v)
  end.
End Decode.
End LuaJson.

(** ** The result, without tables *)

Definition not_gnil (g : gov) : bool := match g with GNil => false | _ => true end.

(** Elements and members that are null disappear, an array left empty becomes an
    object, whole numbers lose their fraction. *)
Fixpoint settle (g : gov) : gov :=
  match g with
  | GFloat f => jsonable_number f
  | GInt _ => GNil
  | GArr l => match filter not_gnil (map settle l) with [] => GObj [] | l => GArr l end
  | GObj l => GObj (members (filter (fun kv => not_gnil kv.2 = true) (go_map (map (fun kv => (kv.1, settle kv.2)) l))))
  | g => g
  end.

Section GovInd.
Context (P : gov -> Prop).
Context (Hnil : P GNil) (Hbool : forall b, P (GBool b)) (Hint : forall z, P (GInt z)) (Hfloat : forall f, P (GFloat f))
  (Hstr : forall s, P (GStr s)) (Harr : forall l, Forall P l -> P (GArr l)) (Hobj : forall l, Forall (fun kv => P kv.2) l -> P (GObj l)).

Fixpoint gov_ind' (g : gov) : P g :=
  match g with
  | GNil => Hnil
  | GBool b => Hbool b
  | GInt z => Hint z
  | GFloat f => Hfloat f
  | GStr s => Hstr s
  | GArr l => Harr l ((fix go (l : list gov) : Forall P l :=
                         match l with [] => Forall_nil_2 _ | g :: l => Forall_cons_2 _ _ _ (gov_ind' g) (go l) end) l)
  | GObj l => Hobj l ((fix go (l : list (string * gov)) : Forall (fun kv => P kv.2) l :=
                         match l with [] => Forall_nil_2 _ | kv :: l => Forall_cons_2 _ _ _ (gov_ind' kv.2) (go l) end) l)
  end.
End GovInd.

(** ** Maps and their members *)

Lemma fold_map_lookup {A} (l : list (string * A)) (m : gmap string A) k :
  NoDup l.*1 -> fold_left (fun m kv => <[kv.1 := kv.2]> m) l m !! k =
    match (list_to_map l : gmap string A) !! k with Some v => Some v | None => m !! k end.
Proof.
  revert m. induction l as [|[k' v] l IH]; intros m Hn; [done|]. cbn in Hn |- *. apply NoDup_cons in Hn as [Hk Hn].
  rewrite IH by done. destruct (decide (k' = k)) as [->|Hne].
  - rewrite lookup_insert_eq, lookup_insert_eq. by rewrite (not_elem_of_list_to_map_1 l).
  - by rewrite !lookup_insert_ne by done.
Qed.

Lemma go_map_nodup {A} (l : list (string * A)) : NoDup l.*1 -> go_map l = list_to_map l.
Proof.
  intros Hn. apply map_eq. intros k. unfold go_map. rewrite fold_map_lookup by done. rewrite lookup_empty.
  by destruct ((list_to_map l : gmap string A) !! k).
Qed.

Section Deliver.
Context {T : Type} `{!LuaTables T, !JsonTables T}.

Abbreviation heap := (gmap nat T).

(** ** Reading *)

Definition jreads (h : heap) (v : luav) (g : gov) : Prop := exists n, luaValueToJsonable n h v = Ret (inr g).

Lemma each_mono {A B} (f g : A -> outcome (json_error + B)) l ys :
  (forall x y, f x = Ret (inr y) -> g x = Ret (inr y)) -> each f l = Ret (inr ys) -> each g l = Ret (inr ys).
Proof.
  intros Hfg. revert ys. induction l as [|x l IH]; intros ys; cbn; [done|].
  intros ([e|y] & Hy & Hr)%bind_Ret_inv; [done|]. apply bind_Ret_inv in Hr as ([e|zs] & Hz & Hr); [done|].
  rewrite (Hfg _ _ Hy). cbn. by rewrite (IH _ Hz).
Qed.

Lemma jsonable_mono n m (h h' : heap) v g :
  (n <= m)%nat -> h ⊆ h' -> luaValueToJsonable n h v = Ret (inr g) -> luaValueToJsonable m h' v = Ret (inr g).
Proof.
  intros Hnm Hh. revert m v g Hnm. induction n as [|n IH]; intros m v g Hnm;
    destruct v as [| | | |l| |]; destruct m as [|m]; try done; cbn; try lia.
  destruct (h !! l) as [t|] eqn:Hl; [|done]. rewrite (lookup_weaken _ _ _ _ Hl Hh).
  assert (Hs : forall v g, luaValueToJsonable n h v = Ret (inr g) -> luaValueToJsonable m h' v = Ret (inr g))
    by (intros; apply IH; auto; lia).
  unfold table_to_jsonable. destruct (_ || _); intros ([e|gs] & Hgs & Hr)%bind_Ret_inv; try done;
    by rewrite (each_mono _ _ _ _ Hs Hgs).
Qed.

Lemma reads_each (h : heap) vs gs :
  Forall2 (jreads h) vs gs -> exists n, each (luaValueToJsonable n h) vs = Ret (inr gs).
Proof.
  induction 1 as [|v g vs gs [n Hn] _ [m Hm]]; [by exists O|]. exists (n + m)%nat. cbn.
  rewrite (jsonable_mono n (n + m) h h v g) by (done || lia). cbn.
  erewrite each_mono; [done| |exact Hm]. intros. eapply jsonable_mono; [|done|done]. lia.
Qed.

(** What a Lua value stands for: nil for null only. *)
Definition jstands (h : heap) (v : luav) (g : gov) : Prop := jreads h v g /\ (v = LNil <-> g = GNil).

Lemma jstands_mono (h h' : heap) v g : h ⊆ h' -> jstands h v g -> jstands h' v g.
Proof. intros Hh [[n Hn] Hv]. split; [|done]. exists n. by eapply jsonable_mono. Qed.

Lemma jstands_filter (h : heap) vs gs :
  Forall2 (jstands h) vs gs -> Forall2 (jstands h) (filter not_nil vs) (filter not_gnil gs).
Proof.
  induction 1 as [|v g vs gs Hs _ IH]; [constructor|]. destruct Hs as [Hr Hn]. rewrite !filter_cons.
  destruct (decide (v = LNil)) as [Hv|Hv].
  - rewrite (proj1 Hn Hv), Hv. done.
  - assert (Hg : g <> GNil) by (intros Hg; by apply Hv, Hn).
    rewrite decide_True by (by destruct v). rewrite decide_True by (by destruct g). by constructor.
Qed.

Lemma appends_is_array vs (t : T) : is_array (appends vs t) = is_array t.
Proof. revert t. induction vs as [|v vs IH]; intros t; [done|]. cbn. unfold appends in IH. by rewrite IH, append_is_array. Qed.

(** ** Arrays *)

Lemma no_string_entries (t : T) : (forall k, RawGetString t k = LNil) -> string_entries t = [].
Proof.
  intros Hk. unfold string_entries. destruct (omap _ (ForEach t)) as [|[k v] l] eqn:E; [done|].
  assert (Hin : (k, v) ∈ omap (fun kv : luakey * luav => match kv.1 with KStr s => Some (s, kv.2) | _ => None end) (ForEach t))
    by (rewrite E; left).
  apply list_elem_of_omap in Hin as ([[k'| |] v'] & Hin & [= -> ->]). apply entries_string in Hin as [H1 H2]. by rewrite Hk in H1.
Qed.

Lemma array_stands (h : heap) l vs gs :
  h !! l = Some (appends vs NewTable) -> Forall2 (jstands h) vs gs ->
  jstands h (LTbl l) (match filter not_gnil gs with [] => GObj [] | gs => GArr gs end).
Proof.
  intros Hl Hs. pose proof (seq_table_appends vs NewTable [] seq_table_new) as Ht. cbn [app] in Ht.
  pose proof (appends_is_array vs NewTable) as Ha. rewrite new_is_array in Ha.
  set (t := appends vs NewTable) in *. apply jstands_filter in Hs.
  set (ws := filter not_nil vs) in *. set (ys := filter not_gnil gs) in *.
  destruct (reads_each h ws ys) as [n Hn]; [eapply Forall2_impl; [done|]; by intros ? ? []|].
  pose proof (Forall2_length _ _ _ Hs) as Hlen. destruct Ht as (Hm & Hi & Hk & He).
  split; [|by split; [|destruct ys]]. exists (S n). cbn. rewrite Hl. unfold table_to_jsonable, isSequentialTable.
  rewrite Ha, Hm. unfold zlen. rewrite He. destruct ys as [|y ys].
  - destruct ws as [|w ws]; [|done]. cbn. by rewrite no_string_entries.
  - destruct ws as [|w ws]; [done|]. rewrite (proj2 (Z.eqb_neq _ _)) by (cbn; lia). rewrite Z.eqb_refl. cbn [orb].
    assert ((fun i => RawGetInt t i) <$> seqZ 1 (MaxN t) = w :: ws) as Hel by by apply seq_table_elements.
    rewrite Hm in Hel. unfold zlen in Hel. rewrite Hel, Hn. done.
Qed.

(** ** Objects *)

Lemma elem_of_entries (t : T) k v : (k, v) ∈ string_entries t <-> RawGetString t k = v /\ v <> LNil.
Proof.
  unfold string_entries. rewrite list_elem_of_omap. split.
  - intros ([[k'| |] v'] & Hin & [= -> ->]). by apply entries_string.
  - intros Hk. exists (KStr k, v). split; [by apply entries_string|done].
Qed.

Lemma entries_keys (t : T) : NoDup (string_entries t).*1.
Proof.
  assert ((string_entries t).*1 = omap string_key (ForEach t)) as ->; [|apply entries_once].
  unfold string_entries. induction (ForEach t) as [|[[k| |] v] l IH]; [done|..]; cbn; by rewrite <- IH.
Qed.

Definition jfields (h : heap) (t : T) (m : gmap string gov) : Prop :=
  MaxN t = 0 /\ is_array t = false /\
  forall k, m !! k <> Some GNil /\ jstands h (RawGetString t k) (default GNil (m !! k)).

Lemma jfields_key h t m k : jfields h t m -> RawGetString t k <> LNil <-> exists g, m !! k = Some g.
Proof.
  intros (_ & _ & Hm). destruct (Hm k) as [Hne [_ Hn]]. destruct (m !! k) as [g|] eqn:E; cbn in Hn.
  - split; [by exists g|]. intros _ Hk. by apply Hne; f_equal; apply Hn.
  - split; [|by intros [g ?]]. intros Hk. destruct Hk. by apply Hn.
Qed.

Lemma jfields_stands h l t m : h !! l = Some t -> jfields h t m -> jstands h (LTbl l) (GObj (members m)).
Proof.
  intros Hl Hf. pose proof Hf as (Hn & Ha & Hm). split; [|done]. set (es := string_entries t).
  assert (He : forall p, p ∈ es -> RawGetString t p.1 = p.2 /\ p.2 <> LNil)
    by (intros [k v] Hp; by apply elem_of_entries).
  destruct (reads_each h es.*2 ((fun k => default GNil (m !! k)) <$> es.*1)) as [n Hr].
  { rewrite <- list_fmap_compose. apply Forall2_fmap, Forall_Forall2_diag, Forall_forall. intros [k v] Hp. cbn.
    destruct (He (k, v)) as [E _]; [first [exact Hp|by apply list_elem_of_In]|]. cbn in E. rewrite <- E. apply Hm. }
  assert (Hz : (zip es.*1 ((fun k => default GNil (m !! k)) <$> es.*1)).*1 = es.*1) by (apply fst_zip; rewrite !length_fmap; done).
  exists (S n). cbn. rewrite Hl. unfold table_to_jsonable, isSequentialTable. rewrite Hn, Ha. cbn [Z.eqb orb].
  fold es. rewrite Hr. cbn. do 4 f_equal. rewrite go_map_nodup; [|rewrite Hz; apply entries_keys].
  apply map_eq. intros k. destruct (m !! k) as [g|] eqn:E.
  - assert (k ∈ es.*1) as Hk.
    { apply list_elem_of_fmap. exists (k, RawGetString t k). split; [done|]. apply elem_of_entries. split; [done|].
      apply (jfields_key h t m k Hf). by exists g. }
    apply elem_of_list_to_map_1; [rewrite Hz; apply entries_keys|].
    apply list_elem_of_lookup in Hk as [i Hi]. apply list_elem_of_lookup. exists i.
    rewrite lookup_zip_with, Hi. cbn. rewrite list_lookup_fmap, Hi. cbn. by rewrite E.
  - apply not_elem_of_list_to_map_1. rewrite Hz. intros Hk.
    apply list_elem_of_fmap in Hk as ([k' v] & -> & Hp). destruct (He _ Hp) as [E1 E2]. cbn in E, E1, E2.
    destruct (proj1 (jfields_key h t m k' Hf)) as [g Hg]; [by rewrite E1|congruence].
Qed.

(** Setting fields one after the other; setting nil removes. *)
Definition gassign (m : gmap string gov) (kv : string * gov) : gmap string gov :=
  match kv.2 with GNil => delete kv.1 m | g => <[kv.1 := g]> m end.

Lemma gassign_lookup m k g k' :
  default GNil (gassign m (k, g) !! k') = (if decide (k' = k) then g else default GNil (m !! k')) /\
  (m !! k' <> Some GNil -> gassign m (k, g) !! k' <> Some GNil).
Proof.
  unfold gassign. cbn. case_decide as Hd; [subst k'|].
  - destruct g; rewrite ?lookup_insert_eq, ?lookup_delete_eq; split; congruence || done.
  - destruct g; rewrite ?lookup_insert_ne, ?lookup_delete_ne by done; done.
Qed.

Lemma jfields_sets h ks vs gs t m :
  Forall2 (jstands h) vs gs -> jfields h t m -> jfields h (sets ks vs t) (foldl gassign m (zip ks gs)).
Proof.
  intros Hs. revert ks t m. induction Hs as [|v g vs gs Hv _ IH]; intros [|k ks] t m Ht; try done.
  cbn. apply IH. destruct Ht as (Hn & Ha & Hm). split; [by rewrite set_maxn|]. split; [by rewrite set_is_array|].
  intros k'. destruct (Hm k') as [Hne Hk]. destruct (gassign_lookup m k g k') as [E1 E2].
  split; [by apply E2|]. rewrite E1, set_string. by case_decide.
Qed.

Lemma jfields_new h : jfields h NewTable ∅.
Proof.
  split; [apply new_maxn|]. split; [apply new_is_array|]. intros k. rewrite lookup_empty, new_string.
  split; [done|]. split; [by exists O|done].
Qed.

Lemma assigned_map (l : list (string * gov)) :
  NoDup l.*1 -> foldl gassign ∅ l = filter (fun kv => not_gnil kv.2 = true) (list_to_map l : gmap string gov).
Proof.
  intros Hn. apply map_eq. intros k.
  assert (Hg : forall m, foldl gassign m l !! k =
    match (list_to_map l : gmap string gov) !! k with Some GNil => None | Some g => Some g | None => m !! k end).
  { clear -Hn. induction l as [|[k' g] l IH]; intros m; [done|]. cbn in Hn |- *. apply NoDup_cons in Hn as [Hk Hn].
    rewrite IH by done. destruct (decide (k' = k)) as [->|Hne].
    - rewrite lookup_insert_eq, (not_elem_of_list_to_map_1 l) by done. unfold gassign. cbn.
      by destruct g; rewrite ?lookup_insert_eq, ?lookup_delete_eq.
    - rewrite lookup_insert_ne by done. unfold gassign. cbn.
      destruct ((list_to_map l : gmap string gov) !! k) as [[]|]; [done..|].
      by destruct g; rewrite ?lookup_insert_ne, ?lookup_delete_ne by done. }
  rewrite Hg, map_lookup_filter, lookup_empty. destruct ((list_to_map l : gmap string gov) !! k) as [[]|]; cbn; by rewrite ?option_guard_True, ?option_guard_False by done.
Qed.

(** ** Every conversion delivers [settle] *)

Section Order.
Context `{MapOrder}.

Abbreviation jdelivers := (LuaFill.delivers jstands).

(** Two maps built by the same assignments. *)
Lemma go_map_related {A B} (R : A -> B -> Prop) (l : list (string * A)) (k : list (string * B)) :
  Forall2 (fun a b => a.1 = b.1 /\ R a.2 b.2) l k -> forall key, option_Forall2 R (go_map l !! key) (go_map k !! key).
Proof.
  intros Hl key. unfold go_map.
  enough (forall (m : gmap string A) (m' : gmap string B), option_Forall2 R (m !! key) (m' !! key) ->
    option_Forall2 R (fold_left (fun m kv => <[kv.1 := kv.2]> m) l m !! key) (fold_left (fun m kv => <[kv.1 := kv.2]> m) k m' !! key)) as Hg.
  { apply Hg. rewrite !lookup_empty. constructor. }
  induction Hl as [|[a x] [b y] l k [E Hr] _ IH]; intros m m' Hm; [done|]. cbn in *. subst b. apply IH.
  destruct (decide (a = key)) as [->|Hne]; [rewrite !lookup_insert_eq; by constructor|]. by rewrite !lookup_insert_ne.
Qed.

Lemma ranged_keys {A} (m : gmap string A) ks :
  (forall k, k ∈ ks -> k ∈ dom m) -> (omap (fun k => (fun v => (k, v)) <$> m !! k) ks).*1 = ks.
Proof.
  induction ks as [|k ks IH]; intros Hk; [done|]. cbn. destruct (m !! k) as [v|] eqn:E.
  - cbn. f_equal. apply IH. set_solver.
  - apply not_elem_of_dom in E. destruct E. apply Hk. set_solver.
Qed.

Lemma object_delivers (l : list (string * gov)) :
  Forall (fun kv => jdelivers (goValueToLua kv.2) (settle kv.2)) l -> jdelivers (goValueToLua (GObj l)) (settle (GObj l)).
Proof.
  intros Hl. cbn [goValueToLua settle]. set (cs := map (fun kv => (kv.1, goValueToLua kv.2)) l).
  set (gs := map (fun kv => (kv.1, settle kv.2)) l).
  assert (Hrel : forall key, option_Forall2 jdelivers (go_map cs !! key) (go_map gs !! key)).
  { apply go_map_related. unfold cs, gs. apply Forall2_fmap. apply Forall_Forall2_diag.
    eapply Forall_impl; [exact Hl|]. by intros [k g] Hg. }
  set (ks := range (dom (go_map cs))). set (xs := (fun k => default GNil (go_map gs !! k)) <$> ks).
  assert (Hks : forall k, k ∈ ks <-> is_Some (go_map cs !! k))
    by (intros k; unfold ks; rewrite range_perm, elem_of_elements; apply elem_of_dom).
  assert (Hnd : NoDup ks) by (unfold ks; rewrite range_perm; apply NoDup_elements).
  assert (Hf : forall l, LuaFill.fills jstands l (set_fields l (ranged cs)) (sets ks) xs).
  { intros l0. apply set_fields_fills; [apply jstands_mono| |].
    - unfold ranged. apply ranged_keys. intros k Hk. by apply elem_of_dom, Hks.
    - unfold ranged, xs. fold ks. clear Hnd. assert (Hin : forall k, k ∈ ks -> is_Some (go_map cs !! k)) by (intros; by apply Hks).
      clear Hks. induction ks as [|k ks' IH]; [constructor|]. cbn. destruct (Hin k) as [c Hc]; [set_solver|].
      rewrite Hc. cbn. constructor; [|apply IH; set_solver]. specialize (Hrel k). rewrite Hc in Hrel.
      by inversion Hrel. }
  apply (delivers_table jstands jstands_mono _ _ _ _ Hf).
  intros h l0 vs Hl0 Hs. eapply jfields_stands in Hl0; [|by apply jfields_sets; [exact Hs|apply jfields_new]].
  assert (zip ks xs = (fun k => (k, default GNil (go_map gs !! k))) <$> ks) as Hz.
  { unfold xs. clear. induction ks as [|k ks IH]; [done|]. cbn. by rewrite IH. }
  rewrite assigned_map in Hl0 by (rewrite fst_zip; [done|unfold xs; by rewrite length_fmap]).
  assert ((list_to_map (zip ks xs) : gmap string gov) = go_map gs) as <-; [|exact Hl0].
  apply map_eq. intros k. specialize (Hrel k). destruct (go_map gs !! k) as [g|] eqn:E.
  - apply elem_of_list_to_map_1; [rewrite fst_zip; [done|unfold xs; by rewrite length_fmap]|].
    rewrite Hz. apply list_elem_of_fmap. exists k. rewrite E. split; [done|]. apply Hks. inversion Hrel. by eexists.
  - apply not_elem_of_list_to_map_1. rewrite fst_zip by (unfold xs; by rewrite length_fmap). intros Hk.
    apply Hks in Hk as [c Hc]. rewrite Hc in Hrel. inversion Hrel.
Qed.

Lemma jsonable_not_nil f : jsonable_number f <> GNil.
Proof. unfold jsonable_number. destruct (float_int f); [|done]. by destruct (_ && _). Qed.

Lemma goValueToLua_delivers (g : gov) : jdelivers (goValueToLua g) (settle g).
Proof.
  induction g as [|b|z|f|str|l IH|l IH] using gov_ind'.
  - apply delivers_pure. intros h. split; [by exists O|done].
  - apply delivers_pure. intros h. split; [by exists O|done].
  - apply delivers_pure. intros h. split; [by exists O|done].
  - apply delivers_pure. intros h. split; [by exists O|]. split; [done|]. intros E. by apply jsonable_not_nil in E.
  - apply delivers_pure. intros h. split; [by exists O|done].
  - cbn [goValueToLua settle]. apply (delivers_table jstands jstands_mono _ appends (map settle l)).
    + intros l0. apply append_loop_fills; [apply jstands_mono|]. clear -IH. induction IH; cbn; by constructor.
    + intros h l0 vs Hl Hs. by eapply array_stands.
  - by apply object_delivers.
Qed.
End Order.
End Deliver.

(** C35. A script that decodes a text and encodes the result. Decoding always
    returns; a text that is not JSON, or has a number out of range, raises an
    error and leaves the tables alone; otherwise it only adds tables, and encoding
    what it gave, at any later time as far as these tables are unchanged, gives
    the text of the settled value: the last member of each name, in the order of
    the names, whole numbers without a fraction, no null elements or members, and
    an object where an array is left empty. *)
Theorem json_through_lua {T} `{!LuaTables T, !JsonTables T, !MapOrder} FormatFloat ParseFloat (str : string) (h : gmap nat T) :
  exists o r h', parse_limited (bytes_of_string str) = Ret o /\ json_decode ParseFloat str h = Ret (r, h') /\ h ⊆ h' /\
    match o ≫= unmarshal ParseFloat with
    | None => r = inl Malformed /\ h' = h
    | Some g => exists v n, r = inr v /\ forall fuel later, (n <= fuel)%nat -> h' ⊆ later ->
        json_encode FormatFloat fuel later v =
        Ret (match marshal FormatFloat (settle g) with Some j => inr (print j) | None => inl Unsupported end)
    end.
Proof.
  destruct (parse_limited_returns (bytes_of_string str)) as [o Ho]. exists o.
  unfold json_decode. unfold mbind at 1, LM_bind. rewrite Ho. cbn [lift_outcome].
  destruct (o ≫= unmarshal ParseFloat) as [g|]; [|by exists (inl Malformed), h].
  destruct (goValueToLua_delivers g h) as (v & δ & E & D & [[n Hn] _]). exists (inr v), (δ ∪ h).
  split; [done|]. split; [unfold mbind, LM_bind; by rewrite E|]. split; [by apply map_union_subseteq_r|].
  exists v, n. split; [done|]. intros fuel later Hf Hlater. unfold json_encode.
  rewrite (jsonable_mono n fuel δ later v (settle g) Hf) by (done || (etrans; [apply map_union_subseteq_l|exact Hlater])).
  done.
Qed.

(** ** Tables with a mark *)

Record marked := mkMarked { m_table : mini_table; m_mark : bool }.

#[export, refine] Instance marked_tables : LuaTables marked := {
  NewTable := mkMarked NewTable false;
  RawGetString t k := RawGetString (m_table t) k;
  RawSetString k v t := mkMarked (RawSetString k v (m_table t)) (m_mark t);
  RawGetInt t i := RawGetInt (m_table t) i;
  Append v t := mkMarked (Append v (m_table t)) (m_mark t);
  MaxN t := MaxN (m_table t);
  ForEach t := ForEach (m_table t);
}.
Proof.
  all: intros; cbn [m_table].
  - apply new_string.
  - apply new_int.
  - apply new_maxn.
  - apply new_entries.
  - apply set_string.
  - apply set_maxn.
  - rewrite append_nil. by destruct t.
  - apply append_string.
  - by apply append_int.
  - by apply append_maxn.
  - by apply append_entries.
  - apply entries_string.
  - apply entries_once.
  - apply maxn_nonneg.
Defined.

#[export, refine] Instance marked_json : JsonTables marked := {
  is_array t := m_mark t;
  mark_array t := mkMarked (m_table t) true
}.
Proof. all: done. Defined.

(** An empty array does not survive, unless a script made it with [json.array()]. *)
Example empty_array_lost :
  (exists v h, json_decode (T := marked) (fun _ => None) "[]" ∅ = Ret (inr v, h) /\
     json_encode (fun _ => []) 2 h v = Ret (inr (lit "{}"))) /\
  (exists v h, json_array (T := marked) ∅ = Ret (v, h) /\ json_encode (fun _ => []) 2 h v = Ret (inr (lit "[]"))).
Proof. split; eexists _, _; (split; [vm_compute; reflexivity|vm_compute; reflexivity]). Qed.

(** The guard of the conversion to int64 admits 2^63, whose conversion wraps. *)
Example two63_wraps : json_encode (T := marked) (fun _ => []) 1 ∅ (LNumber (float64_of_int (2 ^ 63))) = Ret (inr (lit "-9223372036854775808")).
Proof. vm_compute. reflexivity. Qed.
