(* ===== verification/Metrics.v ===== *)
(** * The metrics server (inbound/metrics_server.go)

    Four atomic counters, incremented by the goroutines of the TCP and UDP
    servers, and two JSON pages. A request for [/metrics] reads the counters one
    after the other while they go on being incremented.

    [metrics_page]: the page is always written, it is a JSON object with the six
    figures in their places, and each counter on it is the number of events at
    some moment of the request (modulo 2^64, read as a signed number). *)

From Stdlib Require Import ZArith Lia.
From Stdlib Require Import Strings.Byte.
From stdpp Require Import base list strings option pretty.
From S2P Require Import Prelude GoFmt Float Utf8 Json Effects Ports Http.

Open Scope Z_scope.

Inductive counter := msgCount | msgErrors | rateLimited | bannedConns.

#[export] Instance counter_eq_dec : EqDecision counter.
Proof. solve_decision. Defined.

Inductive metrics_port : Type -> Type :=
| MAdd (c : counter) : metrics_port unit
| MLoad (c : counter) : metrics_port Z
| MConnections : metrics_port (error + list string)
| MNow : metrics_port Z
| MLog (msg address : string) : metrics_port unit.

Record MetricsServer := mkMetricsServer {
  mx_port : string;
  mx_bindAddr : string;
  mx_startedAt : Z
}.

(** The zero [time.Time] of a server that is not started is far in the past. *)
Definition zero_time : Z := - 62135596800 * 1000000000.

Definition NewMetricsServer (port bindAddr : string) : MetricsServer :=
  mkMetricsServer port (if decide (bindAddr = ""%string) then "127.0.0.1"%string else bindAddr) zero_time.

Definition IncrementMessages : prog metrics_port unit := call_ (MAdd msgCount).
Definition IncrementErrors : prog metrics_port unit := call_ (MAdd msgErrors).
Definition IncrementRateLimited : prog metrics_port unit := call_ (MAdd rateLimited).
Definition IncrementBannedConns : prog metrics_port unit := call_ (MAdd bannedConns).

(** [Start] up to [ListenAndServe] (which is in file Lifecycle): the address
    listened on. *)
Definition metrics_Start (m : MetricsServer) : prog metrics_port (MetricsServer * string) :=
  let addr := mx_bindAddr m +:+ ":" +:+ mx_port m in
  now ← call_ MNow;
  _ ← call_ (MLog "Metrics server listening" addr);
  mret (mkMetricsServer (mx_port m) (mx_bindAddr m) now, addr).

Definition uptime (m : MetricsServer) : prog metrics_port Z :=
  now ← call_ MNow; mret (time_Sub now (mx_startedAt m)).

(** ** [Duration.String] *)

Fixpoint drop_zeros (l : bytes) : bytes :=
  match l with
  | [] => []
  | b :: l => if bool_decide (b = Byte.x30) then drop_zeros l else b :: l
  end.

(** The digits after the point, without trailing zeros; no point without
    digits. *)
Definition fmtFrac (v : Z) (prec : nat) : bytes :=
  let ds := lit (Itoa (v mod 10 ^ Z.of_nat prec)) in
  let all := replicate (prec - length ds) Byte.x30 ++ ds in
  match rev (drop_zeros (rev all)) with [] => [] | l => Byte.x2e :: l end.

Definition fmtUnit (u : Z) (prec : nat) (name : string) : bytes :=
  lit (Itoa (u / 10 ^ Z.of_nat prec)) ++ fmtFrac u prec ++ lit name.

Definition Duration_String (d : Z) : bytes :=
  let u := Z.abs d in
  let text :=
    if u =? 0 then lit "0s"
    else if u <? 1000 then fmtUnit u 0 "ns"
    else if u <? 1000000 then fmtUnit u 3 "µs"
    else if u <? 1000000000 then fmtUnit u 6 "ms"
    else
      let s := u / 1000000000 in
      let secs := lit (Itoa (s mod 60)) ++ fmtFrac u 9 ++ lit "s" in
      if s / 60 =? 0 then secs
      else
        let mins := lit (Itoa (s / 60 mod 60)) ++ lit "m" in
        if s / 3600 =? 0 then mins ++ secs else lit (Itoa (s / 3600)) ++ lit "h" ++ mins ++ secs in
  if d <? 0 then Byte.x2d :: text else text.

(** ** The pages *)

(** [Encode] of a map: its members in the order of their names, and a newline. *)
Definition page (members : list (string * json)) : Response :=
  mkResponse 200 (print (JObj (map (fun kv => (lit kv.1, kv.2)) members)) ++ [Byte.x0a]).

Definition handleHealth (m : MetricsServer) : prog metrics_port Response :=
  up ← uptime m;
  mret (page [("status"%string, JStr (lit "ok")); ("uptime"%string, JStr (Duration_String up))]).

Section Pages.
(** How [encoding/json] writes a finite float64 (package strconv). *)
Context (float_text : Z -> bytes).

Definition json_float (f : f64) : option json :=
  match f with Fin u => Some (JNum (float_text u)) | _ => None end.

Definition json_int (z : Z) : json := JNum (lit (Itoa z)).

Definition metrics_members (up : json) (active msgs errs limited banned : Z) : list (string * json) :=
  [("active_connections", json_int active); ("banned_connections", json_int banned); ("message_errors", json_int errs);
   ("messages_processed", json_int msgs); ("rate_limited", json_int limited); ("uptime_seconds", up)]%string.

(** A number that JSON cannot write leaves the page empty. *)
Definition handleMetrics (m : MetricsServer) : prog metrics_port Response :=
  conns ← call_ MConnections;
  let active := match conns with inr l => zlen l | inl _ => 0 end in
  up ← uptime m;
  msgs ← call_ (MLoad msgCount);
  errs ← call_ (MLoad msgErrors);
  limited ← call_ (MLoad rateLimited);
  banned ← call_ (MLoad bannedConns);
  mret (match json_float (Seconds up) with
        | Some u => page (metrics_members u active msgs errs limited banned)
        | None => mkResponse 200 []
        end).

(** ** The goroutines around a request *)

(** What the rest of the server does between two steps of a request is part of
    the step of the world. [counted w c] is the number of events so far. *)
Class Counting {W} (h : forall X, metrics_port X -> W -> X * W) (counted : W -> counter -> Z) : Prop := {
  counted_grows : forall X (e : metrics_port X) w c, counted w c <= counted (h X e w).2 c;
  added : forall c w, counted w c < counted (h unit (MAdd c) w).2 c;
  loaded : forall c w, exists n, counted w c <= n <= counted (h Z (MLoad c) w).2 c /\ (h Z (MLoad c) w).1 = int64 n
}.

Definition moment {W} (counted : W -> counter -> Z) (w w' : W) (c : counter) (v : Z) : Prop :=
  exists n, counted w c <= n <= counted w' c /\ v = int64 n.

Section Around.
Context {W} (h : forall X, metrics_port X -> W -> X * W) (counted : W -> counter -> Z) `{!Counting h counted}.

Definition growing (w w' : W) : Prop := forall c, counted w c <= counted w' c.

Lemma call_grows {X} (e : metrics_port X) w : growing w (h X e w).2.
Proof. intros c. apply counted_grows. Qed.

(** A counter loaded during a request. *)
Lemma load_moment w0 w w1 c :
  growing w0 w -> growing (h Z (MLoad c) w).2 w1 -> moment counted w0 w1 c (h Z (MLoad c) w).1.
Proof.
  intros H0 H1. destruct (loaded c w) as (n & Hn & E). exists n. split; [|done].
  specialize (H0 c). specialize (H1 c). lia.
Qed.

Lemma run_uptime m w :
  run h (uptime m) w = (Ret (time_Sub (h Z MNow w).1 (mx_startedAt m)), (h Z MNow w).2).
Proof. unfold uptime. by prun. Qed.
End Around.

Lemma since_start now t : 0 <= t <= now -> now <= max_int64 -> 0 <= time_Sub now t <= max_int64.
Proof. unfold time_Sub, max_int64. lia. Qed.

Lemma page_text up active msgs errs limited banned :
  json_ok up -> norm up = up ->
  let members := map (fun kv => (lit kv.1, kv.2)) (metrics_members up active msgs errs limited banned) in
  parse (print (JObj members)) = Ret (Some (JObj members)).
Proof.
  intros Hok Hn members. rewrite parse_print.
  - do 2 f_equal. unfold members, metrics_members, json_int. cbn [map norm fst snd]. by rewrite Hn.
  - unfold members, metrics_members, json_int. cbn [map json_ok fold_right fst snd]. by split_and!; try apply num_ok_Itoa.
Qed.

(** A request for the metrics is always answered with a JSON object. It
    has the number of connections of the session store, 0 when the store does not
    answer; the seconds since the start; and the four counters, each the number
    of events at some moment between the beginning and the end of the request,
    whatever the other goroutines count meanwhile. *)
Theorem metrics_page {W} (h : forall X, metrics_port X -> W -> X * W) counted `{!Counting h counted} m w :
  (forall u, num_ok (float_text u)) -> 0 <= mx_startedAt m ->
  (forall w, mx_startedAt m <= (h Z MNow w).1 <= max_int64) ->
  let r := run h (handleMetrics m) w in
  exists d active msgs errs limited banned text,
    r.1 = Ret (mkResponse 200 (text ++ [Byte.x0a])) /\ 0 <= d <= max_int64 /\
    active = match (h _ MConnections w).1 with inr l => zlen l | inl _ => 0 end /\
    moment counted w r.2 msgCount msgs /\ moment counted w r.2 msgErrors errs /\
    moment counted w r.2 rateLimited limited /\ moment counted w r.2 bannedConns banned /\
    parse text = Ret (Some (JObj [(lit "active_connections", json_int active); (lit "banned_connections", json_int banned);
      (lit "message_errors", json_int errs); (lit "messages_processed", json_int msgs);
      (lit "rate_limited", json_int limited); (lit "uptime_seconds", JNum (float_text (secs d)))])).
Proof.
  intros Hf Hs Hnow r.
  set (w1 := (h _ MConnections w).2). set (w2 := (h _ MNow w1).2).
  set (d := time_Sub (h _ MNow w1).1 (mx_startedAt m)).
  set (w3 := (h _ (MLoad msgCount) w2).2). set (w4 := (h _ (MLoad msgErrors) w3).2).
  set (w5 := (h _ (MLoad rateLimited) w4).2). set (w6 := (h _ (MLoad bannedConns) w5).2).
  assert (Hd : 0 <= d <= max_int64) by (apply since_start; specialize (Hnow w1); lia).
  assert (growing counted w w1 /\ growing counted w1 w2 /\ growing counted w2 w3 /\ growing counted w3 w4 /\
    growing counted w4 w5 /\ growing counted w5 w6) as (G1 & G2 & G3 & G4 & G5 & G6)
    by (split_and!; by apply call_grows).
  assert (Er : r = (Ret (page (metrics_members (JNum (float_text (secs d)))
      (match (h _ MConnections w).1 with inr l => zlen l | inl _ => 0 end) (h _ (MLoad msgCount) w2).1
      (h _ (MLoad msgErrors) w3).1 (h _ (MLoad rateLimited) w4).1 (h _ (MLoad bannedConns) w5).1)), w6)).
  { unfold r, handleMetrics. prun. fold w1. rewrite run_uptime. fold w2 d. prun. fold w3 w4 w5 w6.
    destruct (Seconds_secs d Hd) as [-> _]. done. }
  rewrite Er. cbn [fst snd].
  eexists d, _, (h _ (MLoad msgCount) w2).1, (h _ (MLoad msgErrors) w3).1, (h _ (MLoad rateLimited) w4).1,
    (h _ (MLoad bannedConns) w5).1, _.
  split_and!; [reflexivity|lia..|reflexivity| | | | |].
  1-4: eapply load_moment; [done|fold w3 w4 w5 w6; intros c; specialize (G1 c); specialize (G2 c); specialize (G3 c); specialize (G4 c);
         specialize (G5 c); specialize (G6 c); lia..].
  apply page_text; [apply Hf|done].
Qed.
End Pages.

(** A world in which the other goroutines of the server have their turn before
    each step of a request. *)
Record counting_world := mkCountingWorld { cw_counts : counter -> Z; cw_others : list (list counter); cw_clock : Z }.

Definition bump (c : counter) (f : counter -> Z) : counter -> Z := fun c' => if decide (c' = c) then f c' + 1 else f c'.

Definition others_run (w : counting_world) : counting_world :=
  match cw_others w with
  | [] => w
  | l :: rest => mkCountingWorld (fold_right bump (cw_counts w) l) rest (cw_clock w + 1)
  end.

Definition counting_step (X : Type) (e : metrics_port X) (w : counting_world) : X * counting_world :=
  let w := others_run w in
  match e in metrics_port X return X * counting_world with
  | MAdd c => (tt, mkCountingWorld (bump c (cw_counts w)) (cw_others w) (cw_clock w))
  | MLoad c => (int64 (cw_counts w c), w)
  | MConnections => (inr ["1"; "2"]%string, w)
  | MNow => (Z.max 5 (Z.min max_int64 (cw_clock w)), w)
  | MLog _ _ => (tt, w)
  end.

Lemma bump_grows c f c' : f c' <= bump c f c'.
Proof. unfold bump. case_decide; lia. Qed.

Lemma others_grow w c : cw_counts w c <= cw_counts (others_run w) c.
Proof.
  unfold others_run. destruct (cw_others w) as [|l rest]; [lia|]. cbn.
  induction l as [|c' l IH]; cbn; [lia|]. pose proof (bump_grows c' (fold_right bump (cw_counts w) l) c). lia.
Qed.

#[export] Instance counting_step_counts : Counting counting_step cw_counts.
Proof.
  split.
  - intros X e w c. pose proof (others_grow w c). destruct e; cbn; try done. pose proof (bump_grows c0 (cw_counts (others_run w)) c). lia.
  - intros c w. pose proof (others_grow w c). cbn. unfold bump. case_decide; [lia|done].
  - intros c w. eexists. split; [|reflexivity]. pose proof (others_grow w c). cbn. lia.
Qed.

(** Two messages and an error are counted while the page is put together. *)
Definition busy : counting_world :=
  mkCountingWorld (fun _ => 7) [[]; [msgCount]; []; [msgCount; msgErrors]; [bannedConns]; []] 1000000005.

Definition units_text (u : Z) : bytes := lit (Itoa (u / one)).

Lemma metrics_page_witness :
  exists active msgs errs limited banned text,
    (run counting_step (handleMetrics units_text (mkMetricsServer "9090" "127.0.0.1" 5)) busy).1 =
      Ret (mkResponse 200 (text ++ [Byte.x0a])) /\
    moment cw_counts busy (run counting_step (handleMetrics units_text (mkMetricsServer "9090" "127.0.0.1" 5)) busy).2 msgCount msgs /\
    exists d, parse text = Ret (Some (JObj [(lit "active_connections", json_int active); (lit "banned_connections", json_int banned);
      (lit "message_errors", json_int errs); (lit "messages_processed", json_int msgs);
      (lit "rate_limited", json_int limited); (lit "uptime_seconds", JNum (units_text (secs d)))])).
Proof.
  destruct (metrics_page units_text counting_step cw_counts (mkMetricsServer "9090" "127.0.0.1" 5) busy)
    as (d & active & msgs & errs & limited & banned & text & H1 & _ & _ & H2 & _ & _ & _ & H3).
  - intros u. apply num_ok_Itoa.
  - cbn. lia.
  - intros w. cbn -[others_run]. unfold max_int64. lia.
  - exists active, msgs, errs, limited, banned, text. split; [exact H1|]. split; [exact H2|]. by exists d.
Defined.

Example busy_page :
  (run counting_step (handleMetrics units_text (mkMetricsServer "9090" "127.0.0.1" 5)) busy).1 =
  Ret (page (metrics_members (JNum (lit "1")) 2 8 8 7 8)).
Proof. vm_compute. reflexivity. Qed.

Example health_uptime :
  Duration_String 5400000000000 = lit "1h30m0s" /\ Duration_String 61500000000 = lit "1m1.5s" /\
  Duration_String 1500000 = lit "1.5ms" /\ Duration_String (-1000000000) = lit "-1s".
Proof. by vm_compute. Qed.
