(* ===== verification/Lifecycle.v ===== *)
(** * Starting and stopping the HTTP, metrics and UDP servers

    [Start] of each server runs in a goroutine of its own while [main] goes on
    and calls [Shutdown] at the end (http_server.go, metrics_server.go,
    udp_server.go). The server of net/http is modelled by what its documentation
    says of [ListenAndServe] and [Shutdown]: after [Shutdown] the listener is
    closed and [ListenAndServe] returns [ErrServerClosed], also when it is only
    called then.

    [servers_stop]: a server that [Shutdown] finds registered no longer listens
    when [Shutdown] returns, and [Start] ends without an error; the UDP server,
    whose [Shutdown] is only called once it is ready, likewise. *)

From Stdlib Require Import ZArith Lia.
From stdpp Require Import base list strings option relations.
From S2P Require Import Prelude GoFmt Ports.

(** ** The servers on net/http *)

Inductive start_at := Starting | Registered | Serving | StartReturned (err : option error).
Inductive stop_at := Running | Found (srv : bool) | ShutdownReturned (srv : bool).

(** [li_server]: the field [server] is set; the two flags after it are
    net/http's. *)
Record Life := mkLife {
  li_server : bool;
  li_inShutdown : bool;
  li_listening : bool;
  li_start : start_at;
  li_stop : stop_at
}.

Definition life0 : Life := mkLife false false false Starting Running.

(** The next step of [Start]. [net] is what the network reports: the error of
    listening or accepting, [None] when it works. *)
Definition start_step (message : string) (net : option error) (s : Life) : option Life :=
  match li_start s with
  | Starting => Some (mkLife true (li_inShutdown s) (li_listening s) Registered (li_stop s))
  | Registered =>
      if li_inShutdown s then Some (mkLife (li_server s) true false (StartReturned None) (li_stop s))
      else match net with
           | Some err => Some (mkLife (li_server s) false false (StartReturned (Some (Wrapf message err))) (li_stop s))
           | None => Some (mkLife (li_server s) false true Serving (li_stop s))
           end
  | Serving =>
      if li_inShutdown s then Some (mkLife (li_server s) true false (StartReturned None) (li_stop s))
      else match net with
           | Some err => Some (mkLife (li_server s) false false (StartReturned (Some (Wrapf message err))) (li_stop s))
           | None => Some s
           end
  | StartReturned _ => None
  end.

(** The next step of [Shutdown]: the field is read under the mutex, then the
    server is shut down when there is one. *)
Definition shutdown_step (s : Life) : option Life :=
  match li_stop s with
  | Running => Some (mkLife (li_server s) (li_inShutdown s) (li_listening s) (li_start s) (Found (li_server s)))
  | Found true => Some (mkLife (li_server s) true false (li_start s) (ShutdownReturned true))
  | Found false => Some (mkLife (li_server s) (li_inShutdown s) (li_listening s) (li_start s) (ShutdownReturned false))
  | ShutdownReturned _ => None
  end.

(** The metrics server has the same two methods. *)
Definition metrics_start_step : option error -> Life -> option Life := start_step "metrics server error".
Definition metrics_shutdown_step : Life -> option Life := shutdown_step.

Inductive life_step (message : string) (s s' : Life) : Prop :=
| by_start net : start_step message net s = Some s' -> life_step message s s'
| by_shutdown : shutdown_step s = Some s' -> life_step message s s'.

Definition life_inv (s : Life) : Prop :=
  (li_server s = true <-> li_start s <> Starting) /\
  (li_listening s = true <-> li_start s = Serving /\ li_inShutdown s = false) /\
  (li_inShutdown s = true <-> li_stop s = ShutdownReturned true) /\
  (li_stop s = Found true \/ li_stop s = ShutdownReturned true -> li_server s = true) /\
  (li_start s = StartReturned None -> li_stop s = ShutdownReturned true).

Lemma life_kept message s s' : life_step message s s' -> life_inv s -> life_inv s'.
Proof.
  destruct s as [srv inS lis st sp]. intros [net E|E]; unfold start_step, shutdown_step in E; cbn in E; intros (H1 & H2 & H3 & H4 & H5).
  - destruct st as [| | |e]; [| | |done]; [simplify_eq; split_and!; cbn; naive_solver|..];
      destruct inS; [|destruct net|..|destruct net]; simplify_eq; split_and!; cbn; naive_solver.
  - destruct sp as [|[|]|]; simplify_eq; split_and!; cbn; destruct srv, inS; naive_solver.
Qed.

Lemma life_reached message s : rtc (life_step message) life0 s -> life_inv s.
Proof.
  intros Hr. remember life0 as s0. assert (I : life_inv s0) by (subst; split_and!; cbn; naive_solver). clear Heqs0.
  induction Hr as [|a b c Hab _ IH]; [done|]. by apply IH, (life_kept message a).
Qed.

(** ** The UDP server *)

Inductive ustart_at := UResolving | UListening | UReading | UReturned (err : option error).
Inductive ustop_at := URunning | UClosing | UClosed.

(** [ud_conn]: the field [conn] is set; [ud_open]: the socket is open;
    [ud_ready], [ud_shutdown]: the channel is closed. *)
Record UdpLife := mkUdpLife {
  ud_conn : bool;
  ud_open : bool;
  ud_ready : bool;
  ud_shutdown : bool;
  ud_start : ustart_at;
  ud_stop : ustop_at
}.

Definition udp0 : UdpLife := mkUdpLife false false false false UResolving URunning.

(** [net] is the error of resolving the address, of opening the socket, of
    reading it. A closed socket cannot be read. *)
Definition udp_start_step (addr : string) (net : option error) (s : UdpLife) : option UdpLife :=
  match ud_start s with
  | UResolving =>
      Some (mkUdpLife (ud_conn s) (ud_open s) (ud_ready s) (ud_shutdown s)
        (match net with
         | Some err => UReturned (Some (Wrapf ("failed to resolve UDP address " +:+ addr) err))
         | None => UListening
         end) (ud_stop s))
  | UListening =>
      Some (match net with
            | Some err => mkUdpLife (ud_conn s) (ud_open s) (ud_ready s) (ud_shutdown s)
                            (UReturned (Some (Wrapf ("failed to listen UDP on " +:+ addr) err))) (ud_stop s)
            | None => mkUdpLife true true true (ud_shutdown s) UReading (ud_stop s)
            end)
  | UReading =>
      let failed := match net with Some _ => true | None => negb (ud_open s) end in
      Some (if failed && ud_shutdown s
            then mkUdpLife (ud_conn s) (ud_open s) (ud_ready s) (ud_shutdown s) (UReturned None) (ud_stop s)
            else s)
  | UReturned _ => None
  end.

(** [main] waits for [ready] before it goes on to [Shutdown]. *)
Definition udp_shutdown_step (s : UdpLife) : option UdpLife :=
  match ud_stop s with
  | URunning => if ud_ready s then Some (mkUdpLife (ud_conn s) (ud_open s) (ud_ready s) true (ud_start s) UClosing) else None
  | UClosing => Some (mkUdpLife (ud_conn s) (if ud_conn s then false else ud_open s) (ud_ready s) (ud_shutdown s) (ud_start s) UClosed)
  | UClosed => None
  end.

Inductive udp_step (addr : string) (s s' : UdpLife) : Prop :=
| by_udp_start net : udp_start_step addr net s = Some s' -> udp_step addr s s'
| by_udp_shutdown : udp_shutdown_step s = Some s' -> udp_step addr s s'.

Definition udp_inv (s : UdpLife) : Prop :=
  ud_conn s = ud_ready s /\
  (ud_ready s = true <-> ud_start s = UReading \/ ud_start s = UReturned None) /\
  (ud_shutdown s = true <-> ud_stop s <> URunning) /\
  (ud_stop s <> URunning -> ud_ready s = true) /\
  (ud_open s = true <-> ud_ready s = true /\ ud_stop s <> UClosed) /\
  (ud_start s = UReturned None -> ud_shutdown s = true).

Lemma udp_kept addr s s' : udp_step addr s s' -> udp_inv s -> udp_inv s'.
Proof.
  destruct s as [conn op rdy sd st sp]. intros [net E|E]; unfold udp_start_step, udp_shutdown_step in E; cbn in E;
    intros (H1 & H2 & H3 & H4 & H5 & H6).
  - destruct st as [| | |e]; [| | |done]; destruct net; simplify_eq; try (destruct op, sd); split_and!; cbn in *; naive_solver.
  - destruct sp; [destruct rdy|destruct conn|]; simplify_eq; split_and!; cbn; naive_solver.
Qed.

Lemma udp_reached addr s : rtc (udp_step addr) udp0 s -> udp_inv s.
Proof.
  intros Hr. remember udp0 as s0. assert (I : udp_inv s0) by (subst; split_and!; cbn; naive_solver). clear Heqs0.
  induction Hr as [|a b c Hab _ IH]; [done|]. by apply IH, (udp_kept addr a).
Qed.

(** ** Stopping *)

(** Whatever the order in which [Start] and [Shutdown] take their steps:
    when [Shutdown] has found the HTTP or metrics server and returns, the server
    does not listen any more, and the next step of [Start], if it has not returned,
    returns without an error; [Start] returns without an error only after a
    shutdown. The UDP server has closed its socket when [Shutdown] returns, and
    its read loop ends with the next step; a UDP server that cannot listen never
    becomes ready ([main] then ends the process). *)
Theorem servers_stop message addr :
  (forall s, rtc (life_step message) life0 s ->
     (li_stop s = ShutdownReturned true ->
        li_listening s = false /\
        forall net s', start_step message net s = Some s' -> li_start s' = StartReturned None /\ li_listening s' = false) /\
     (li_start s = StartReturned None -> li_stop s = ShutdownReturned true)) /\
  (forall s, rtc (udp_step addr) udp0 s ->
     (ud_stop s = UClosed ->
        ud_open s = false /\ forall net s', udp_start_step addr net s = Some s' -> ud_start s' = UReturned None) /\
     (forall err, ud_start s = UReturned (Some err) -> ud_ready s = false /\ forall s', ~ udp_step addr s s')).
Proof.
  split.
  - intros s (I1 & I2 & I3 & I4 & I5)%life_reached. destruct s as [srv inS lis st sp]. cbn in *. split; [|done].
    intros ->. assert (inS = true) as -> by naive_solver. assert (srv = true) as -> by naive_solver.
    split; [destruct lis; naive_solver|]. intros net s'. unfold start_step. cbn. destruct st; naive_solver.
  - intros s (I1 & I2 & I3 & I4 & I5 & I6)%udp_reached. destruct s as [conn op rdy sd st sp]. cbn in *. split.
    + intros ->. assert (rdy = true) as -> by naive_solver. assert (sd = true) as -> by naive_solver.
      assert (op = false) as -> by (destruct op; naive_solver). split; [done|].
      intros net s'. unfold udp_start_step. cbn. destruct st; [naive_solver..| |done].
      destruct net; cbn; naive_solver.
    + intros err ->. assert (rdy = false) as -> by (destruct rdy; naive_solver). split; [done|].
      intros s' [net E|E]; [done|]. unfold udp_shutdown_step in E. cbn in E. destruct sp; naive_solver.
Qed.

(** [Shutdown] before [Start] has registered its server finds nothing to shut
    down, and the server starts to listen afterwards. *)
Lemma shutdown_too_early message :
  exists s, rtc (life_step message) life0 s /\ li_stop s = ShutdownReturned false /\ li_listening s = true /\
    forall net s', start_step message net s = Some s' -> net = None -> s' = s.
Proof.
  exists (mkLife true false true Serving (ShutdownReturned false)). split; [|by repeat split; cbn; intros; simplify_eq].
  eapply rtc_l; [by apply by_shutdown|]. eapply rtc_l; [by apply by_shutdown|].
  eapply rtc_l; [by apply (by_start _ _ _ None)|]. eapply rtc_l; [by apply (by_start _ _ _ None)|]. reflexivity.
Qed.
