(* ===== verification/Timers.v ===== *)
(** * Kill timers (inbound/timer_manager.go)

    [time.AfterFunc] runs its function in a goroutine of its own when the time
    is up; [Stop] on a timer whose function has started does nothing. A user
    timer's function first takes the manager's mutex to remove the client's
    entry, and then kicks the client. The methods and the parts of the timer
    functions between mutex operations are the atomic steps here.

    [timers_tracked]: as long as no call meets a timer that has just expired,
    the manager knows exactly the timers that can still act, one per client, and
    a cancelled timer never acts. [expired_timer_escapes]: with such a meeting, a
    timer set again is forgotten by the manager and can no longer be cancelled. *)

From Stdlib Require Import ZArith Lia.
From stdpp Require Import base list strings gmap option relations.
From S2P Require Import Prelude GoFmt LValue LExtract LParse LRoundtrip Smus Effects Ports.

Open Scope Z_scope.

(** What a timer does when it fires. *)
Inductive timer_target := KillServer | KillUser (clientID : string).

#[export] Instance timer_target_eq_dec : EqDecision timer_target.
Proof. solve_decision. Defined.

(** [Armed]: waiting for its time. [Fired]: its function runs but has not yet
    entered the critical section. [Kicking]: past it. *)
Inductive timer_status := Armed (due : Z) | Stopped | Fired | Kicking | Finished.

Record timer := mkTimer { t_target : timer_target; t_status : timer_status }.

(** Timers are pointers: [timers] is the heap, [serverTimer] and [userTimers]
    the manager's fields. *)
Record TimerManager := mkTM {
  timers : gmap nat timer;
  serverTimer : option nat;
  userTimers : gmap string nat;
  next_timer : nat
}.

Definition NewTimerManager : TimerManager := mkTM ∅ None ∅ 0.

(** [timer.Stop()] *)
Definition stop_timer (i : nat) (hp : gmap nat timer) : gmap nat timer :=
  match hp !! i with
  | Some (mkTimer tg (Armed _)) => <[i := mkTimer tg Stopped]> hp
  | _ => hp
  end.

Definition stop_opt (o : option nat) (hp : gmap nat timer) : gmap nat timer :=
  match o with Some i => stop_timer i hp | None => hp end.

(** [time.AfterFunc(minutes * time.Minute, ...)] at time [now]. *)
Definition minute : Z := 60000000000.
Definition after (now minutes : Z) : Z := now + int64 (minutes * minute).

Definition tm_SetServerKillTimer (now minutes : Z) (tm : TimerManager) : TimerManager :=
  let hp := stop_opt (serverTimer tm) (timers tm) in
  let i := next_timer tm in
  mkTM (<[i := mkTimer KillServer (Armed (after now minutes))]> hp) (Some i) (userTimers tm) (S i).

Definition tm_CancelServerKillTimer (tm : TimerManager) : TimerManager :=
  match serverTimer tm with
  | Some i => mkTM (stop_timer i (timers tm)) None (userTimers tm) (next_timer tm)
  | None => tm
  end.

Definition tm_SetUserKillTimer (now : Z) (clientID : string) (minutes : Z) (tm : TimerManager) : TimerManager :=
  let hp := stop_opt (userTimers tm !! clientID) (timers tm) in
  let i := next_timer tm in
  mkTM (<[i := mkTimer (KillUser clientID) (Armed (after now minutes))]> hp) (serverTimer tm)
    (<[clientID := i]> (userTimers tm)) (S i).

Definition tm_CancelUserKillTimer (clientID : string) (tm : TimerManager) : TimerManager :=
  match userTimers tm !! clientID with
  | Some i => mkTM (stop_timer i (timers tm)) (serverTimer tm) (delete clientID (userTimers tm)) (next_timer tm)
  | None => tm
  end.

(** The loop over [userTimers] stops and deletes every entry, in any order. *)
Definition tm_Stop (tm : TimerManager) : TimerManager :=
  let hp := stop_opt (serverTimer tm) (timers tm) in
  mkTM (foldr stop_timer hp (map_to_list (userTimers tm)).*2) None ∅ (next_timer tm).

Definition set_status (i : nat) (tg : timer_target) (s : timer_status) (tm : TimerManager) : TimerManager :=
  mkTM (<[i := mkTimer tg s]> (timers tm)) (serverTimer tm) (userTimers tm) (next_timer tm).

(** The function of a user timer, up to the unlock. *)
Definition forget (i : nat) (c : string) (tm : TimerManager) : TimerManager :=
  mkTM (<[i := mkTimer (KillUser c) Kicking]> (timers tm)) (serverTimer tm) (delete c (userTimers tm)) (next_timer tm).

(** What happens: method calls, expiries, and the parts of the timer functions.
    [EShutdown] is the call of [shutdownFn], [EKick c] the calls of
    [LeaveAllRooms], [UnregisterConnection] and [DisconnectClient] for [c]. *)
Inductive event :=
| ESetServer (now minutes : Z)
| ECancelServer
| ESetUser (now : Z) (c : string) (minutes : Z)
| ECancelUser (c : string)
| EStop
| EFire (i : nat) (now : Z)
| EShutdown (i : nat)
| EForget (i : nat) (c : string)
| EKick (i : nat) (c : string).

Inductive tstep : TimerManager -> event -> TimerManager -> Prop :=
| TSetServer now minutes tm : tstep tm (ESetServer now minutes) (tm_SetServerKillTimer now minutes tm)
| TCancelServer tm : tstep tm ECancelServer (tm_CancelServerKillTimer tm)
| TSetUser now c minutes tm : tstep tm (ESetUser now c minutes) (tm_SetUserKillTimer now c minutes tm)
| TCancelUser c tm : tstep tm (ECancelUser c) (tm_CancelUserKillTimer c tm)
| TStop tm : tstep tm EStop (tm_Stop tm)
| TFire i tg due now tm :
    timers tm !! i = Some (mkTimer tg (Armed due)) -> due <= now -> tstep tm (EFire i now) (set_status i tg Fired tm)
| TShutdown i tm :
    timers tm !! i = Some (mkTimer KillServer Fired) -> tstep tm (EShutdown i) (set_status i KillServer Finished tm)
| TForget i c tm :
    timers tm !! i = Some (mkTimer (KillUser c) Fired) -> tstep tm (EForget i c) (forget i c tm)
| TKick i c tm :
    timers tm !! i = Some (mkTimer (KillUser c) Kicking) -> tstep tm (EKick i c) (set_status i (KillUser c) Finished tm).

Inductive texec : TimerManager -> list event -> TimerManager -> Prop :=
| texec_nil tm : texec tm [] tm
| texec_cons tm ev tm1 evs tm2 : tstep tm ev tm1 -> texec tm1 evs tm2 -> texec tm (ev :: evs) tm2.

(** The timer the manager holds for a target. *)
Definition held (tm : TimerManager) (tg : timer_target) : option nat :=
  match tg with KillServer => serverTimer tm | KillUser c => userTimers tm !! c end.

(** A timer whose function has started and waits for the mutex (or, for the
    server, is about to call [shutdownFn]). *)
Definition expired (tm : TimerManager) (tg : timer_target) : Prop :=
  exists i, timers tm !! i = Some (mkTimer tg Fired).

(** The calls that replace or cancel a timer do not meet an expired one. *)
Definition timely (tm : TimerManager) (ev : event) : Prop :=
  match ev with
  | ESetServer _ _ | ECancelServer => ~ expired tm KillServer
  | ESetUser _ c _ | ECancelUser c => ~ expired tm (KillUser c)
  | EStop => forall tg, ~ expired tm tg
  | _ => True
  end.

Inductive timely_exec : TimerManager -> list event -> TimerManager -> Prop :=
| timely_nil tm : timely_exec tm [] tm
| timely_snoc tm evs tm1 ev tm2 :
    timely_exec tm evs tm1 -> timely tm1 ev -> tstep tm1 ev tm2 -> timely_exec tm (evs ++ [ev]) tm2.

Definition live (s : timer_status) : Prop := match s with Armed _ | Fired => True | _ => False end.

(** The manager's fields and the heap agree: what it holds is a timer for that
    target, and every timer that can still act is held. *)
Record tracked (tm : TimerManager) : Prop := {
  k_next i : is_Some (timers tm !! i) -> (i < next_timer tm)%nat;
  k_held tg i : held tm tg = Some i -> exists s, timers tm !! i = Some (mkTimer tg s);
  k_live i tg s : timers tm !! i = Some (mkTimer tg s) -> live s -> held tm tg = Some i
}.

Lemma stop_timer_lookup i hp j :
  stop_timer i hp !! j =
  match hp !! j with
  | Some (mkTimer tg (Armed due)) => if decide (j = i) then Some (mkTimer tg Stopped) else Some (mkTimer tg (Armed due))
  | o => o
  end.
Proof.
  unfold stop_timer. destruct (decide (j = i)) as [->|Hne].
  - destruct (hp !! i) as [[tg []]|] eqn:E; rewrite ?lookup_insert_eq, ?E; done.
  - destruct (hp !! i) as [[tg []]|] eqn:E; rewrite ?lookup_insert_ne by done; by destruct (hp !! j) as [[? []]|].
Qed.

(** Stopping timers only turns armed ones into stopped ones. *)
Definition stops (hp hp' : gmap nat timer) : Prop :=
  forall j, hp' !! j = hp !! j \/
    exists tg due, hp !! j = Some (mkTimer tg (Armed due)) /\ hp' !! j = Some (mkTimer tg Stopped).

Lemma stops_timer i hp : stops hp (stop_timer i hp).
Proof.
  intros j. rewrite stop_timer_lookup. destruct (hp !! j) as [[tg []]|]; try by left.
  case_decide; [right; eauto|by left].
Qed.

Lemma stops_opt o hp : stops hp (stop_opt o hp).
Proof. destruct o; [apply stops_timer|]. intros j. by left. Qed.

Lemma stops_trans hp1 hp2 hp3 : stops hp1 hp2 -> stops hp2 hp3 -> stops hp1 hp3.
Proof.
  intros H1 H2 j. destruct (H2 j) as [E2|(tg & due & E2 & E3)].
  - rewrite E2. apply H1.
  - right. destruct (H1 j) as [E1|(tg' & due' & E1 & E1')]; [rewrite E1 in E2; eauto|congruence].
Qed.

Lemma stops_all l hp : stops hp (foldr stop_timer hp l).
Proof.
  induction l as [|i l IH]; cbn; [by left|]. eapply stops_trans; [exact IH|apply stops_timer].
Qed.

Lemma stop_stopped i hp tg due : stop_timer i hp !! i <> Some (mkTimer tg (Armed due)).
Proof. rewrite stop_timer_lookup. destruct (hp !! i) as [[? []]|]; try done. by rewrite decide_True. Qed.

Lemma stop_all_stopped l hp i tg due : i ∈ l -> foldr stop_timer hp l !! i <> Some (mkTimer tg (Armed due)).
Proof.
  induction l as [|j l IH]; intros Hi; [by apply elem_of_nil in Hi|]. cbn.
  destruct (decide (i = j)) as [->|Hne]; [apply stop_stopped|]. apply elem_of_cons in Hi as [?|Hi]; [done|].
  intros Heq. destruct (stops_timer j (foldr stop_timer hp l) i) as [E|(? & ? & _ & E)]; [|congruence].
  apply (IH Hi). congruence.
Qed.

Lemma stops_same hp hp' i tg s : stops hp hp' -> live s -> hp' !! i = Some (mkTimer tg s) -> hp !! i = Some (mkTimer tg s).
Proof. intros H Hl E. destruct (H i) as [<-|(? & ? & _ & E')]; [done|]. rewrite E in E'. by simplify_eq. Qed.

Lemma stops_target hp hp' i tg s : stops hp hp' -> hp !! i = Some (mkTimer tg s) -> exists s', hp' !! i = Some (mkTimer tg s').
Proof. intros H E. destruct (H i) as [->|(tg' & ? & E1 & E2)]; [eauto|]. rewrite E in E1. simplify_eq. eauto. Qed.

Lemma stops_dom hp hp' i : stops hp hp' -> is_Some (hp' !! i) -> is_Some (hp !! i).
Proof. intros H [x E]. destruct (H i) as [<-|(? & ? & E1 & _)]; [by exists x|by rewrite E1]. Qed.

Section Tracked.
Context (tm : TimerManager) (HT : tracked tm).

Lemma stopped_target tg :
  ~ expired tm tg -> forall i s, stop_opt (held tm tg) (timers tm) !! i = Some (mkTimer tg s) -> ~ live s.
Proof.
  intros He i s Hi Hl. pose proof (stops_same _ _ _ _ _ (stops_opt (held tm tg) (timers tm)) Hl Hi) as Ho.
  pose proof (k_live _ HT _ _ _ Ho Hl) as Hh. rewrite Hh in Hi. destruct s as [due| | | |]; try done.
  - by apply stop_stopped in Hi.
  - apply He. by exists i.
Qed.

(** Replacing the timer of a target by a new one. *)
Lemma tracked_set tg due sv us :
  ~ expired tm tg ->
  (forall tg', held (mkTM ∅ sv us 0) tg' = if decide (tg' = tg) then Some (next_timer tm) else held tm tg') ->
  tracked (mkTM (<[next_timer tm := mkTimer tg (Armed due)]> (stop_opt (held tm tg) (timers tm))) sv us (S (next_timer tm))).
Proof.
  intros He Hh. pose proof (stops_opt (held tm tg) (timers tm)) as Hs. split; cbn [timers next_timer].
  - intros i. rewrite lookup_insert_is_Some'. intros [<-|Hi]; [lia|].
    pose proof (k_next _ HT i (stops_dom _ _ _ Hs Hi)). lia.
  - intros tg' i Hi. change (held (mkTM ∅ sv us 0) tg' = Some i) in Hi. rewrite Hh in Hi.
    destruct (decide (tg' = tg)) as [->|]; simplify_eq; [rewrite lookup_insert_eq; eauto|].
    destruct (k_held _ HT _ _ Hi) as [s Hi'].
    assert ((i < next_timer tm)%nat) by (apply (k_next _ HT); by rewrite Hi').
    rewrite lookup_insert_ne by lia. by eapply stops_target.
  - intros i tg' s Hi Hl. change (held (mkTM ∅ sv us 0) tg' = Some i). rewrite Hh.
    apply lookup_insert_Some in Hi as [[<- [= <- <-]]|[Hne Hi]]; [by rewrite decide_True|].
    rewrite decide_False by (intros ->; by eapply stopped_target).
    eapply (k_live _ HT); [|exact Hl]. by eapply stops_same.
Qed.

(** Dropping the timer of a target. *)
Lemma tracked_cancel tg sv us :
  ~ expired tm tg ->
  (forall tg', held (mkTM ∅ sv us 0) tg' = if decide (tg' = tg) then None else held tm tg') ->
  tracked (mkTM (stop_opt (held tm tg) (timers tm)) sv us (next_timer tm)).
Proof.
  intros He Hh. pose proof (stops_opt (held tm tg) (timers tm)) as Hs. split; cbn [timers next_timer].
  - intros i Hi. apply (k_next _ HT). by eapply stops_dom.
  - intros tg' i Hi. change (held (mkTM ∅ sv us 0) tg' = Some i) in Hi. rewrite Hh in Hi.
    destruct (decide (tg' = tg)); [done|]. destruct (k_held _ HT _ _ Hi) as [s Hi']. by eapply stops_target.
  - intros i tg' s Hi Hl. change (held (mkTM ∅ sv us 0) tg' = Some i). rewrite Hh.
    rewrite decide_False by (intros ->; by eapply stopped_target).
    eapply (k_live _ HT); [|exact Hl]. by eapply stops_same.
Qed.

(** A timer that goes on without changing the fields. *)
Lemma tracked_status i tg s s' :
  timers tm !! i = Some (mkTimer tg s) -> (live s' -> live s) -> tracked (set_status i tg s' tm).
Proof.
  intros Hi Hl. split; cbn [set_status timers next_timer].
  - intros j. rewrite lookup_insert_is_Some'. intros [<-|Hj]; apply (k_next _ HT); [by rewrite Hi|done].
  - intros tg' j Hj. destruct (k_held _ HT tg' j Hj) as [s1 Hj'].
    destruct (decide (i = j)) as [<-|Hne]; [rewrite lookup_insert_eq|rewrite lookup_insert_ne by done; eauto].
    exists s'. congruence.
  - intros j tg' s1 Hj Hl1. change (held tm tg' = Some j).
    apply lookup_insert_Some in Hj as [[<- [= <- <-]]|[_ Hj]]; eapply (k_live _ HT); eauto.
Qed.

Lemma tracked_forget i c :
  timers tm !! i = Some (mkTimer (KillUser c) Fired) -> tracked (forget i c tm).
Proof.
  intros Hi. pose proof (k_live _ HT _ _ _ Hi I) as Hheld. cbn in Hheld.
  split; cbn [forget timers next_timer].
  - intros j. rewrite lookup_insert_is_Some'. intros [<-|Hj]; apply (k_next _ HT); [by rewrite Hi|done].
  - intros tg' j Hj. assert (held tm tg' = Some j) as Hj0.
    { destruct tg' as [|c']; [exact Hj|]. cbn in Hj. by apply lookup_delete_Some in Hj as [_ ?]. }
    destruct (k_held _ HT tg' j Hj0) as [s1 Hj']. destruct (decide (i = j)) as [<-|Hne].
    + rewrite Hi in Hj'. simplify_eq. cbn in Hj. by rewrite lookup_delete_eq in Hj.
    + rewrite lookup_insert_ne by done. eauto.
  - intros j tg' s1 Hj Hl1. apply lookup_insert_Some in Hj as [[<- [= <- <-]]|[Hne Hj]]; [done|].
    pose proof (k_live _ HT _ _ _ Hj Hl1) as Hh. destruct tg' as [|c']; [exact Hh|]. cbn in Hh |- *.
    rewrite lookup_delete_ne; [done|]. intros <-. congruence.
Qed.

Lemma tracked_stop : (forall tg, ~ expired tm tg) -> tracked (tm_Stop tm).
Proof.
  intros He. set (hp := stop_opt (serverTimer tm) (timers tm)).
  assert (Hs : stops (timers tm) (timers (tm_Stop tm))).
  { eapply stops_trans; [apply stops_opt|apply stops_all]. }
  split.
  - intros i Hi. apply (k_next _ HT). by eapply stops_dom.
  - by intros [|c] i Hi.
  - intros i tg s Hi Hl. exfalso. pose proof (stops_same _ _ _ _ _ Hs Hl Hi) as Ho.
    pose proof (k_live _ HT _ _ _ Ho Hl) as Hh. destruct s as [due| | | |]; try done; [|by apply (He tg); exists i].
    destruct tg as [|c]; cbn in Hh.
    + pose proof (stops_same _ _ _ _ _ (stops_all _ _) Hl Hi) as Hi1. rewrite Hh in Hi1. by apply stop_stopped in Hi1.
    + eapply stop_all_stopped; [|exact Hi]. apply list_elem_of_fmap. exists (c, i). split; [done|]. by apply elem_of_map_to_list.
Qed.
End Tracked.

Lemma tstep_tracked tm ev tm' : tracked tm -> timely tm ev -> tstep tm ev tm' -> tracked tm'.
Proof.
  intros HT Ht Hs. destruct Hs as [now m tm|tm|now c m tm|c tm|tm|i tg due now tm Hi Hd|i tm Hi|i c tm Hi|i c tm Hi]; cbn in Ht.
  - apply (tracked_set tm HT KillServer); [done|]. intros [|c']; by case_decide.
  - unfold tm_CancelServerKillTimer. destruct (serverTimer tm) eqn:E; [|done].
    change (stop_timer n (timers tm)) with (stop_opt (Some n) (timers tm)). rewrite <- E.
    apply (tracked_cancel tm HT KillServer); [done|]. intros [|c']; by case_decide.
  - apply (tracked_set tm HT (KillUser c)); [done|]. intros [|c']; cbn; case_decide; simplify_eq; try done.
    + by rewrite lookup_insert_eq.
    + by rewrite lookup_insert_ne by congruence.
  - unfold tm_CancelUserKillTimer. destruct (userTimers tm !! c) eqn:E; [|done].
    change (stop_timer n (timers tm)) with (stop_opt (Some n) (timers tm)). rewrite <- E.
    apply (tracked_cancel tm HT (KillUser c)); [done|]. intros [|c']; cbn; case_decide; simplify_eq; try done.
    + by rewrite lookup_delete_eq.
    + by rewrite lookup_delete_ne by congruence.
  - by apply tracked_stop.
  - by eapply tracked_status.
  - by eapply tracked_status.
  - by apply tracked_forget.
  - by eapply tracked_status.
Qed.

Lemma NewTimerManager_tracked : tracked NewTimerManager.
Proof.
  split.
  - intros i [t Hi]. cbn in Hi. by rewrite lookup_empty in Hi.
  - intros [|c] i Hi; [done|]. cbn in Hi. by rewrite lookup_empty in Hi.
  - intros i tg s Hi. cbn in Hi. by rewrite lookup_empty in Hi.
Qed.

Lemma timely_exec_tracked evs tm : timely_exec NewTimerManager evs tm -> tracked tm.
Proof.
  remember NewTimerManager as tm0 eqn:E. induction 1 as [tm|tm evs tm1 ev tm2 _ IH Ht Hs]; subst.
  - apply NewTimerManager_tracked.
  - by eapply tstep_tracked; [apply IH| |].
Qed.

(** No timer that will still act on a client. *)
Definition quiet_for (c : string) (tm : TimerManager) : Prop :=
  forall i s, timers tm !! i = Some (mkTimer (KillUser c) s) -> s = Stopped \/ s = Finished.

Lemma quiet_stops c hp hp' :
  stops hp hp' ->
  (forall i s, hp !! i = Some (mkTimer (KillUser c) s) -> s = Stopped \/ s = Finished) ->
  forall i s, hp' !! i = Some (mkTimer (KillUser c) s) -> s = Stopped \/ s = Finished.
Proof. intros H Hq i s Hi. destruct (H i) as [E|(tg & due & E1 & E2)]; [rewrite E in Hi; eauto|]. left. congruence. Qed.

Lemma quiet_step c tm ev tm' :
  quiet_for c tm -> tstep tm ev tm' ->
  match ev with ESetUser _ c' _ => c' <> c | _ => True end ->
  quiet_for c tm' /\ (forall i, ev <> EKick i c).
Proof.
  intros Hq Hs Hev.
  assert (Hset : forall (i : nat) tg s, (tg = KillUser c -> s = Stopped \/ s = Finished) ->
    forall hp : gmap nat timer, (forall j s, hp !! j = Some (mkTimer (KillUser c) s) -> s = Stopped \/ s = Finished) ->
    forall j s', <[i := mkTimer tg s]> hp !! j = Some (mkTimer (KillUser c) s') -> s' = Stopped \/ s' = Finished).
  { intros i tg s Htg hp Hhp j s' Hj. apply lookup_insert_Some in Hj as [[_ [= -> ->]]|[_ Hj]]; eauto. }
  destruct Hs as [now m tm|tm|now c' m tm|c' tm|tm|i tg due now tm Hi Hd|i tm Hi|i c' tm Hi|i c' tm Hi].
  - split; [|done]. refine (Hset _ _ _ _ _ _); [done|]. by eapply quiet_stops; [apply stops_opt|].
  - split; [|done]. unfold tm_CancelServerKillTimer. destruct (serverTimer tm); [|done].
    refine (quiet_stops c _ _ (stops_timer n _) Hq).
  - split; [|done]. refine (Hset _ _ _ _ _ _); [congruence|]. by eapply quiet_stops; [apply stops_opt|].
  - split; [|done]. unfold tm_CancelUserKillTimer. destruct (userTimers tm !! c'); [|done].
    refine (quiet_stops c _ _ (stops_timer n _) Hq).
  - split; [|done]. refine (quiet_stops c _ _ (stops_trans _ _ _ (stops_opt _ _) (stops_all _ _)) Hq).
  - split; [|done]. refine (Hset _ _ _ _ _ _); [|done]. intros ->. by destruct (Hq _ _ Hi).
  - split; [|done]. refine (Hset _ _ _ _ _ _); [done|done].
  - split; [|done]. refine (Hset _ _ _ _ _ _); [|done]. intros [= ->]. by destruct (Hq _ _ Hi).
  - split; [refine (Hset _ _ _ _ _ _); [by right|done]|]. intros j [= <- ->]. by destruct (Hq _ _ Hi).
Qed.

Definition sets_user (c : string) (ev : event) : Prop := match ev with ESetUser _ c' _ => c' = c | _ => False end.

Lemma quiet_exec c tm evs tm' :
  quiet_for c tm -> texec tm evs tm' -> Forall (fun ev => ~ sets_user c ev) evs -> forall i, EKick i c ∉ evs.
Proof.
  intros Hq Hx. induction Hx as [tm|tm ev tm1 evs tm2 Hs Hx IH]; intros Hf i; [apply not_elem_of_nil|].
  apply Forall_cons in Hf as [Hev Hf].
  destruct (quiet_step c tm ev tm1 Hq Hs) as [Hq1 Hk]; [by destruct ev|].
  apply not_elem_of_cons. split; [by intros <-; apply (Hk i)|by apply IH].
Qed.

Lemma cancel_quiet c tm :
  tracked tm -> ~ expired tm (KillUser c) -> (forall i, timers tm !! i <> Some (mkTimer (KillUser c) Kicking)) ->
  quiet_for c (tm_CancelUserKillTimer c tm).
Proof.
  intros HT He Hk. assert (Hq : forall i s, stop_opt (userTimers tm !! c) (timers tm) !! i = Some (mkTimer (KillUser c) s) ->
    s = Stopped \/ s = Finished).
  { intros i s Hi. pose proof (stopped_target tm HT (KillUser c) He i s Hi) as Hl.
    destruct s; cbn in Hl; try tauto. exfalso. apply (Hk i).
    destruct (stops_opt (userTimers tm !! c) (timers tm) i) as [<-|(? & ? & _ & E)]; [done|congruence]. }
  unfold tm_CancelUserKillTimer. destruct (userTimers tm !! c); exact Hq.
Qed.

(** As long as no call meets a timer that has just expired: the timers that
    can still act are exactly the ones the manager holds, at most one for each
    client and one for the server; and once a client's timer is cancelled, no
    expiry, cancellation or timer of anybody else ever kicks the client, until
    a timer is set for it again. *)
Theorem timers_tracked evs tm :
  timely_exec NewTimerManager evs tm ->
  (forall tg i s, timers tm !! i = Some (mkTimer tg s) -> live s -> held tm tg = Some i) /\
  forall c, ~ expired tm (KillUser c) -> (forall i, timers tm !! i <> Some (mkTimer (KillUser c) Kicking)) ->
    forall evs' tm', texec (tm_CancelUserKillTimer c tm) evs' tm' -> Forall (fun ev => ~ sets_user c ev) evs' ->
      forall i, EKick i c ∉ evs'.
Proof.
  intros Hx. apply timely_exec_tracked in Hx as HT. split.
  - intros tg i s. apply (k_live _ HT).
  - intros c He Hk evs' tm'. apply quiet_exec. by apply cancel_quiet.
Qed.

(** A timer set and cancelled. *)
Definition set_bob : TimerManager := tm_SetUserKillTimer 0 "bob" 5 NewTimerManager.

Lemma set_bob_timely : timely_exec NewTimerManager [ESetUser 0 "bob" 5] set_bob.
Proof.
  apply (timely_snoc NewTimerManager [] NewTimerManager); [constructor| |constructor].
  intros [i Hi]. cbn in Hi. by rewrite lookup_empty in Hi.
Qed.

Lemma timers_tracked_witness :
  held set_bob (KillUser "bob") = Some 0%nat /\
  forall evs' tm', texec (tm_CancelUserKillTimer "bob" set_bob) evs' tm' ->
    Forall (fun ev => ~ sets_user "bob" ev) evs' -> forall i, EKick i "bob" ∉ evs'.
Proof.
  destruct (timers_tracked _ _ set_bob_timely) as [H1 H2].
  assert (Hone : forall i t, timers set_bob !! i = Some t -> t = mkTimer (KillUser "bob") (Armed (after 0 5))).
  { intros i t Hi. cbn in Hi. rewrite lookup_insert_Some in Hi. destruct Hi as [[_ <-]|[_ Hi]]; [done|].
    rewrite lookup_empty in Hi. discriminate Hi. }
  split.
  - apply (H1 _ _ (Armed (after 0 5))); [reflexivity|exact I].
  - apply (H2 "bob"%string).
    + intros [i Hi]. apply Hone in Hi. discriminate Hi.
    + intros i Hi. apply Hone in Hi. discriminate Hi.
Defined.

(** A timer that is set again just when the old one expires: the old
    function, waiting for the mutex, removes the new timer's entry and kicks the
    client at once; the new timer keeps running without the manager knowing it,
    so neither [CancelUserKillTimer] nor [Stop] can stop it, and it kicks the
    client a second time when it expires. *)
Theorem expired_timer_escapes c :
  exists tm, texec NewTimerManager
      [ESetUser 0 c 1; EFire 0 minute; ESetUser minute c 10; EForget 0 c; EKick 0 c; ECancelUser c; EStop] tm /\
    held tm (KillUser c) = None /\ timers tm !! 1%nat = Some (mkTimer (KillUser c) (Armed (after minute 10))) /\
    exists tm', texec tm [EFire 1 (after minute 10); EForget 1 c; EKick 1 c] tm'.
Proof.
  pose (tmA := tm_SetUserKillTimer 0 c 1 NewTimerManager). pose (tmB := set_status 0 (KillUser c) Fired tmA).
  pose (tmC := tm_SetUserKillTimer minute c 10 tmB). pose (tmD := forget 0 c tmC).
  pose (tmE := set_status 0 (KillUser c) Finished tmD).
  assert (HC : timers tmC = <[1%nat := mkTimer (KillUser c) (Armed (after minute 10))]>
    (<[0%nat := mkTimer (KillUser c) Fired]> (<[0%nat := mkTimer (KillUser c) (Armed (after 0 1))]> ∅))).
  { unfold tmC, tm_SetUserKillTimer. cbn [timers]. f_equal. unfold tmB, tmA. cbn [set_status userTimers timers tm_SetUserKillTimer NewTimerManager].
    rewrite lookup_insert_eq. reflexivity. }
  assert (HE : tmE = mkTM (<[0%nat := mkTimer (KillUser c) Finished]> (<[0%nat := mkTimer (KillUser c) Kicking]> (timers tmC))) None ∅ 2).
  { unfold tmE, tmD, forget, set_status. cbn [timers serverTimer userTimers next_timer]. f_equal.
    unfold tmC, tm_SetUserKillTimer. cbn [userTimers]. rewrite delete_insert_eq. unfold tmB, tmA. cbn. by rewrite delete_insert_eq, delete_empty. }
  assert (HF : tm_CancelUserKillTimer c tmE = tmE) by (rewrite HE; unfold tm_CancelUserKillTimer; cbn [userTimers]; by rewrite lookup_empty).
  exists (tm_Stop tmE). split_and!.
  - econstructor; [apply TSetUser|].
    econstructor; [eapply (TFire 0%nat (KillUser c) (after 0 1)); [reflexivity|vm_compute; discriminate]|].
    econstructor; [apply TSetUser|]. econstructor; [apply (TForget 0%nat); fold tmA tmB tmC; rewrite HC; reflexivity|].
    econstructor; [apply (TKick 0%nat); apply lookup_insert_eq|]. fold tmA tmB tmC tmD tmE.
    econstructor; [apply TCancelUser|]. rewrite HF. econstructor; [apply TStop|]. constructor.
  - by rewrite HE.
  - rewrite HE, HC. reflexivity.
  - rewrite HE, HC. eexists. econstructor; [eapply (TFire 1%nat (KillUser c) (after minute 10)); [reflexivity|done]|].
    econstructor; [apply (TForget 1%nat); reflexivity|]. econstructor; [apply (TKick 1%nat); reflexivity|]. constructor.
Qed.
