(* ===== verification/RateLimit.v ===== *)
(** * The rate limiter (inbound/rate_limiter.go)

    A token bucket per client address, on [float64]. A request takes a token; a
    bucket refills with the time that passed since it was last looked at. A
    goroutine drops the buckets that would be full.

    [rate_limiter_cleanup_invisible]: dropping buckets never changes an answer.
    [rate_limit_bound]: in any stretch of time the requests let through are those
    of the token bucket of real numbers, up to a relative error that grows by
    [2^-50] with each request; a new client's first requests are never refused.
    [zero_window_unlimited]: what a window of zero does. *)

From Stdlib Require Import ZArith Lia.
From stdpp Require Import base list strings gmap option tactics.
From S2P Require Import Prelude GoFmt Float.

Open Scope Z_scope.

Record RateLimiterConfig := mkRateConfig { MaxRequests : Z; Window : Z }.

Record clientBucket := mkBucket { tokens : f64; lastCheck : Z }.

Record RateLimiter := mkLimiter {
  maxTokens : f64;
  refillRate : f64;
  clients : gmap string clientBucket;
  cleanupInterval : Z;
  done_closed : bool
}.

Definition with_clients (rl : RateLimiter) (m : gmap string clientBucket) : RateLimiter :=
  mkLimiter (maxTokens rl) (refillRate rl) m (cleanupInterval rl) (done_closed rl).

Definition NewRateLimiter (cfg : RateLimiterConfig) : RateLimiter :=
  mkLimiter (of_int (MaxRequests cfg)) (fdiv (of_int (MaxRequests cfg)) (Seconds (Window cfg))) ∅
    (if Window cfg <? 60 * ns then 60 * ns else Window cfg) false.

(** The tokens of a bucket at an instant, before they are capped. *)
Definition refilled (rl : RateLimiter) (now : Z) (cb : clientBucket) : f64 :=
  fadd (tokens cb) (fmul (Seconds (time_Sub now (lastCheck cb))) (refillRate rl)).

Definition capped (rl : RateLimiter) (t : f64) : f64 := if flt (maxTokens rl) t then maxTokens rl else t.

Definition take (rl : RateLimiter) (now : Z) (cb : clientBucket) : bool * clientBucket :=
  let t := capped rl (refilled rl now cb) in
  if flt t (of_int 1) then (false, mkBucket t now) else (true, mkBucket (fsub t (of_int 1)) now).

Definition Allow (now : Z) (key : string) (rl : RateLimiter) : bool * RateLimiter :=
  let cb := default (mkBucket (maxTokens rl) now) (clients rl !! key) in
  let r := take rl now cb in
  (r.1, with_clients rl (<[key := r.2]> (clients rl))).

Definition Remove (key : string) (rl : RateLimiter) : RateLimiter := with_clients rl (delete key (clients rl)).

(** One tick of [cleanup]. *)
Definition stays (rl : RateLimiter) (now : Z) (cb : clientBucket) : bool :=
  negb (fle (maxTokens rl) (refilled rl now cb)).

Definition cleanup (now : Z) (rl : RateLimiter) : RateLimiter :=
  with_clients rl (filter (fun kb => stays rl now kb.2 = true) (clients rl)).

(** Closing the channel a second time panics. *)
Definition Stop (rl : RateLimiter) : outcome RateLimiter :=
  if done_closed rl then Panic
  else Ret (mkLimiter (maxTokens rl) (refillRate rl) (clients rl) (cleanupInterval rl) true).

(** ** Runs *)

Inductive rl_event := Request (key : string) | Tick.

Fixpoint rl_run (rl : RateLimiter) (l : list (Z * rl_event)) : list (string * bool) * RateLimiter :=
  match l with
  | [] => ([], rl)
  | (t, Request key) :: l =>
      let r := Allow t key rl in
      let q := rl_run r.2 l in ((key, r.1) :: q.1, q.2)
  | (t, Tick) :: l => rl_run (cleanup t rl) l
  end.

(** Events in the order of time. *)
Fixpoint chronological (t0 : Z) (l : list (Z * rl_event)) : Prop :=
  match l with
  | [] => True
  | (t, _) :: l => t0 <= t /\ chronological t l
  end.

Definition is_request (e : Z * rl_event) : bool := match e.2 with Request _ => true | Tick => false end.

(** The answers a client got, in order. *)
Definition answers_to (key : string) (r : list (string * bool)) : list bool :=
  omap (fun a => if decide (a.1 = key) then Some a.2 else None) r.

Definition granted (l : list bool) : Z := zlen (filter (fun b => b = true) l).

(** ** One bucket *)

Section Bucket.
Context (M W : Z).

(** A limiter built from a configuration whose numbers make sense. *)
Definition sound_config : Prop := 0 < M < 2 ^ 53 /\ 0 < W <= max_int64.

Context (Hc : sound_config).

Definition R : Z := rnd (M * one * one) (secs W).

Definition limiter (m : gmap string clientBucket) : RateLimiter :=
  with_clients (NewRateLimiter (mkRateConfig M W)) m.

Lemma max_tokens m : maxTokens (limiter m) = Fin (M * one).
Proof. cbn. apply of_int_whole. unfold sound_config in Hc. lia. Qed.

Lemma secs_W : 0 < secs W <= 2 ^ 35 * one /\ one <= secs W * 2 ^ 31.
Proof.
  destruct Hc as [_ HW]. pose proof one_pos. destruct (Seconds_secs W) as [_ Hb]; [unfold max_int64 in HW; lia|].
  destruct (secs_accurate W) as [_ Hw]; [lia|]. unfold ns in Hw.
  assert (one <= W * one) by nia. lia.
Qed.

Lemma rate_bound : M * one * one <= 2 ^ 84 * one * secs W.
Proof.
  pose proof one_pos. pose proof secs_W as [Hs Hl]. destruct Hc as [HM _].
  transitivity (2 ^ 53 * one * one); [nia|].
  replace (2 ^ 84 * one * secs W) with (2 ^ 53 * one * (secs W * 2 ^ 31)) by (replace (2 ^ 84) with (2 ^ 53 * 2 ^ 31) by reflexivity; ring).
  nia.
Qed.

Lemma R_bounds : 0 <= R <= 2 ^ 84 * one.
Proof.
  pose proof one_pos. pose proof secs_W as [Hs Hl]. destruct Hc as [HM _]. unfold R. split; [apply rnd_nonneg; nia|].
  apply rnd_le_one; [nia|lia|lia|]. apply rate_bound.
Qed.

Lemma refill_rate m : refillRate (limiter m) = Fin R.
Proof.
  cbn. destruct Hc as [HM HW]. pose proof one_pos. pose proof secs_W as [Hs Hl].
  destruct (Seconds_secs W) as [-> _]; [unfold max_int64 in HW; lia|]. rewrite of_int_whole by lia. cbn [fdiv].
  rewrite (proj2 (Z.eqb_neq _ _)) by lia. rewrite Z.sgn_pos, Z.abs_eq, Z.mul_1_r by lia.
  apply fround_fin; [nia|lia|]. transitivity (2 ^ 84 * one * secs W).
  - apply rate_bound.
  - repeat (apply Z.mul_le_mono_nonneg_r; [lia|]). apply Z.pow_le_mono_r; lia.
Qed.

(** The tokens that come in while [el] nanoseconds pass. *)
Definition added (el : Z) : Z := rnd (secs el * R) one.

Lemma added_bounds el : 0 <= el <= max_int64 -> 0 <= secs el * R <= 2 ^ 119 * one * one /\ 0 <= added el <= 2 ^ 119 * one.
Proof.
  intros Hel. pose proof one_pos. pose proof R_bounds as HR.
  destruct (Seconds_secs el) as [_ Hs]; [unfold max_int64 in Hel; lia|].
  assert (Hp : 0 <= secs el * R <= 2 ^ 119 * one * one).
  { split; [nia|]. replace (2 ^ 119 * one * one) with (2 ^ 35 * one * (2 ^ 84 * one)) by (replace (2 ^ 119) with (2 ^ 35 * 2 ^ 84) by reflexivity; ring).
    apply Z.mul_le_mono_nonneg; lia. }
  split; [done|]. split; [apply rnd_nonneg; lia|]. apply rnd_le_one; lia.
Qed.

Lemma added_mono el el' : 0 <= el <= el' -> el' <= max_int64 -> added el <= added el'.
Proof.
  intros Hel Hel'. pose proof one_pos. pose proof R_bounds as HR. pose proof (secs_mono el el' Hel).
  destruct (added_bounds el) as [H1 _]; [lia|]. destruct (added_bounds el') as [H2 _]; [lia|].
  apply rnd_mono; [lia..|]. by repeat (apply Z.mul_le_mono_nonneg_r; [lia|]).
Qed.

(** A bucket as the limiter keeps it. *)
Definition kept (now : Z) (t : Z) (cb : clientBucket) : Prop :=
  tokens cb = Fin t /\ 0 <= t <= M * one /\ lastCheck cb <= now.

Definition refill (t el : Z) : Z := rnd (t + added el) 1.

Lemma elapsed now last : last <= now -> 0 <= time_Sub now last <= max_int64.
Proof. unfold time_Sub, max_int64. lia. Qed.

Lemma refilled_kept m now t cb :
  kept now t cb -> refilled (limiter m) now cb = Fin (refill t (time_Sub now (lastCheck cb))).
Proof.
  intros (Ht & Hb & Hl). pose proof (elapsed _ _ Hl) as Hel. unfold refilled. rewrite Ht, refill_rate.
  destruct (added_bounds _ Hel) as [Hp Ha]. pose proof one_pos. destruct Hc as [HM _].
  destruct (Seconds_secs (time_Sub now (lastCheck cb))) as [-> _]; [unfold max_int64 in Hel; lia|]. cbn [fmul].
  assert (H119 : 2 ^ 119 <= 2 ^ 1023) by (apply Z.pow_le_mono_r; lia).
  rewrite fround_fin; [|lia|lia|]. 2: { etransitivity; [apply Hp|]. nia. }
  cbn [fadd]. fold (added (time_Sub now (lastCheck cb))). rewrite fround_fin; [done|lia|lia|].
  rewrite Z.mul_1_r. transitivity (2 ^ 53 * one + 2 ^ 119 * one); [nia|].
  rewrite <- Z.mul_add_distr_r. apply Z.mul_le_mono_nonneg_r; [lia|]. transitivity (2 ^ 120); [lia|].
  apply Z.pow_le_mono_r; lia.
Qed.

Lemma refill_mono t t' el el' :
  0 <= t <= t' -> 0 <= el <= el' -> el' <= max_int64 -> refill t el <= refill t' el'.
Proof.
  intros Ht Hel Hel'. pose proof (added_mono el el' Hel Hel'). destruct (added_bounds el) as [_ H1]; [lia|].
  unfold refill. apply rnd_mono; lia.
Qed.

Lemma added_0 : added 0 = 0.
Proof. unfold added. rewrite secs_0, Z.mul_0_l. apply rnd_0, one_pos. Qed.

Lemma refill_full : refill (M * one) 0 = M * one.
Proof. unfold refill. rewrite added_0, Z.add_0_r. apply rnd_whole. destruct Hc. lia. Qed.

Lemma refill_nonneg t el : 0 <= t -> 0 <= el <= max_int64 -> 0 <= refill t el.
Proof. intros Ht Hel. destruct (added_bounds el Hel) as [_ Ha]. apply rnd_nonneg; lia. Qed.

(** What a request does to a bucket. *)
Definition level (t el : Z) : Z := Z.min (M * one) (refill t el).
Definition grants (t el : Z) : bool := one <=? level t el.
Definition left_over (t el : Z) : Z := if grants t el then rnd (level t el - one) 1 else level t el.

Lemma take_kept m now t cb :
  kept now t cb ->
  let el := time_Sub now (lastCheck cb) in
  take (limiter m) now cb = (grants t el, mkBucket (Fin (left_over t el)) now) /\
  kept now (left_over t el) (mkBucket (Fin (left_over t el)) now).
Proof.
  intros Hk el. pose proof Hk as (Ht & Hb & Hl). pose proof (elapsed _ _ Hl) as Hel. fold el in Hel.
  pose proof one_pos as Ho. pose proof (refill_nonneg t el ltac:(lia) Hel) as Hr.
  assert (Hlv : 0 <= level t el <= M * one) by (unfold level; lia).
  assert (Hcap : capped (limiter m) (refilled (limiter m) now cb) = Fin (level t el)).
  { rewrite (refilled_kept m now t cb Hk). unfold capped. rewrite max_tokens. cbn [flt]. fold el. unfold level.
    destruct (Z.ltb_spec (M * one) (refill t el)); f_equal; lia. }
  assert (H1 : of_int 1 = Fin one) by (rewrite of_int_whole; [f_equal; lia|lia]).
  assert (Hsub : one <= level t el -> fsub (Fin (level t el)) (Fin one) = Fin (rnd (level t el - one) 1)).
  { intros Hle. cbn [fsub fneg fadd]. rewrite <- fround_fin; [f_equal; lia|lia|lia|]. destruct Hc as [HM _].
    transitivity (2 ^ 53 * one); [nia|]. rewrite Z.mul_1_r. apply Z.mul_le_mono_nonneg_r; [lia|].
    apply Z.pow_le_mono_r; lia. }
  assert (Hlo : 0 <= left_over t el <= M * one).
  { unfold left_over, grants. destruct (Z.leb_spec one (level t el)); [|lia]. split; [apply rnd_nonneg; lia|].
    rewrite <- (rnd_whole M) by (destruct Hc; lia). apply rnd_mono; lia. }
  split; [|split_and!; [done|lia..|cbn; lia]].
  unfold take. rewrite Hcap, H1. cbn [flt]. unfold left_over, grants in *.
  destruct (Z.ltb_spec (level t el) one), (Z.leb_spec one (level t el)); try lia; [done|]. by rewrite Hsub.
Qed.

(** ** Dropping full buckets *)

(** With and without the cleanup: the same bucket, or none where the other would
    be full. *)
Definition same_bucket (now : Z) (ob ob' : option clientBucket) : Prop :=
  match ob, ob' with
  | None, None => True
  | Some cb, Some cb' => cb = cb' /\ exists t, kept now t cb
  | None, Some cb => exists t, kept now t cb /\ M * one <= refill t (time_Sub now (lastCheck cb))
  | Some _, None => False
  end.

Definition same_buckets (now : Z) (m m' : gmap string clientBucket) : Prop :=
  forall key, same_bucket now (m !! key) (m' !! key).

Lemma kept_later now now' t cb : now <= now' -> kept now t cb -> kept now' t cb.
Proof. intros Hn (? & ? & ?). split_and!; [done|lia..]. Qed.

Lemma same_bucket_later now now' ob ob' : now <= now' -> same_bucket now ob ob' -> same_bucket now' ob ob'.
Proof.
  intros Hn. destruct ob as [cb|], ob' as [cb'|]; cbn; [|done| |done].
  - intros (-> & t & Hk). split; [done|]. exists t. by apply (kept_later now).
  - intros (t & Hk & Hf). exists t. split; [by apply (kept_later now)|]. etransitivity; [exact Hf|].
    destruct Hk as (_ & Ht & Hl). apply refill_mono; unfold time_Sub, max_int64; lia.
Qed.

Lemma fresh_kept now : kept now (M * one) (mkBucket (Fin (M * one)) now).
Proof. pose proof one_pos. destruct Hc as [HM _]. split_and!; [done|nia|nia|cbn; lia]. Qed.

(** A request finds the same level. *)
Lemma take_same m m' now ob ob' :
  same_bucket now ob ob' ->
  let full := mkBucket (Fin (M * one)) now in
  let r := take (limiter m) now (default full ob) in
  r = take (limiter m') now (default full ob') /\ exists t, kept now t r.2.
Proof.
  intros Hs full r. pose proof (fresh_kept now) as Hf. fold full in Hf.
  assert (E0 : time_Sub now now = 0) by (unfold time_Sub, max_int64; lia).
  destruct (take_kept m now _ full Hf) as [Hfr Hfk]. cbn in Hfr. rewrite E0 in Hfr.
  destruct ob as [cb|], ob' as [cb'|]; cbn in Hs |- *; subst r; cbn.
  - destruct Hs as (<- & t & Hk). destruct (take_kept m now t cb Hk) as [-> Hk1]. cbn.
    split; [by destruct (take_kept m' now t cb Hk) as [-> _]|]. eexists. exact Hk1.
  - done.
  - destruct Hs as (t & Hk & Hfull). destruct (take_kept m' now t cb' Hk) as [-> _].
    assert (E : level t (time_Sub now (lastCheck cb')) = level (M * one) 0).
    { unfold level. rewrite refill_full. lia. }
    unfold left_over, grants. rewrite E. rewrite Hfr. split; [done|]. cbn in Hfk. rewrite E0 in Hfk. eexists. exact Hfk.
  - split; [done|]. rewrite Hfr. cbn in Hfk. rewrite E0 in Hfk. eexists. exact Hfk.
Qed.

Lemma limiter_with m m' : with_clients (limiter m) m' = limiter m'.
Proof. done. Qed.

Lemma Allow_same now key m m' :
  same_buckets now m m' ->
  exists b cb t, Allow now key (limiter m) = (b, limiter (<[key := cb]> m)) /\
    Allow now key (limiter m') = (b, limiter (<[key := cb]> m')) /\ kept now t cb.
Proof.
  intros Hs. unfold Allow. rewrite !max_tokens, !limiter_with. cbn [clients limiter with_clients].
  destruct (take_same m m' now _ _ (Hs key)) as [E [t Hk]].
  eexists _, _, t. split; [done|]. split; [by rewrite <- E|exact Hk].
Qed.

Lemma cleanup_same now m m' : same_buckets now m m' ->
  exists m1, cleanup now (limiter m) = limiter m1 /\ same_buckets now m1 m'.
Proof.
  intros Hs. eexists. split; [reflexivity|]. intros key. specialize (Hs key). cbn [clients limiter with_clients].
  rewrite map_lookup_filter. destruct (m !! key) as [cb|] eqn:E; cbn; [|done].
  destruct (m' !! key) as [cb'|]; [|done]. cbn in Hs. destruct Hs as (<- & t & Hk).
  unfold stays. rewrite max_tokens, (refilled_kept m now t cb Hk). cbn [fle].
  destruct (Z.leb_spec (M * one) (refill t (time_Sub now (lastCheck cb)))); cbn; [by exists t|].
  split; [done|]. by exists t.
Qed.

Lemma run_same l k : forall t0 m m',
  chronological t0 (l ++ k) -> same_buckets t0 m m' ->
  (rl_run (limiter m) l).1 = (rl_run (limiter m') (filter (fun e => is_request e = true) l)).1 /\
  exists t1 m1 m1', (rl_run (limiter m) l).2 = limiter m1 /\
    (rl_run (limiter m') (filter (fun e => is_request e = true) l)).2 = limiter m1' /\ same_buckets t1 m1 m1' /\ chronological t1 k.
Proof.
  induction l as [|[t [key|]] l IH]; intros t0 m m' Hch Hs.
  - split; [done|]. by exists t0, m, m'.
  - destruct Hch as [Ht Hch]. rewrite filter_cons_True by done. cbn [rl_run].
    assert (Hs' : same_buckets t m m') by (intros k'; eapply same_bucket_later, Hs; done).
    destruct (Allow_same t key m m' Hs') as (b & cb & tk & -> & -> & Hk). cbn [fst snd].
    destruct (IH t (<[key := cb]> m) (<[key := cb]> m') Hch) as [E Hx].
    { intros k'. destruct (decide (k' = key)) as [->|Hne]; [rewrite !lookup_insert_eq; cbn; by eauto|].
      by rewrite !lookup_insert_ne. }
    by rewrite E.
  - destruct Hch as [Ht Hch]. rewrite filter_cons_False by done. cbn [rl_run].
    assert (Hs' : same_buckets t m m') by (intros k'; eapply same_bucket_later, Hs; done).
    destruct (cleanup_same t m m' Hs') as (m1 & -> & Hs1). by apply (IH t).
Qed.

(** ** How much comes in *)

Lemma R_accurate : R * W * (2 ^ 52 - 3) <= M * one * ns * (2 ^ 52 + 1).
Proof.
  pose proof one_pos as Ho. pose proof one_large as Hl. pose proof secs_W as [Hs _]. pose proof R_bounds as HR.
  destruct Hc as [HM HW]. destruct (secs_accurate W) as [_ Hw]; [lia|].
  assert (Hn : 2 ^ 52 * secs W <= M * one * one).
  { transitivity (2 ^ 52 * (2 ^ 35 * one)); [lia|]. transitivity (1 * one * one); [|nia].
    rewrite Z.mul_assoc. apply Z.mul_le_mono_nonneg_r; [lia|]. transitivity (2 ^ 1000); [|lia].
    vm_compute. discriminate. }
  pose proof (rnd_upper_rel (M * one * one) (secs W) ltac:(lia) Hn) as Hu. fold R in Hu.
  pose proof (Z.mul_le_mono_nonneg_l _ _ R ltac:(lia) Hw) as Hm.
  apply (Z.mul_le_mono_pos_r _ _ one); [done|]. unfold ns in *. lia.
Qed.

Lemma added_upper el :
  0 <= el <= max_int64 -> added el * W * 2 ^ 49 <= el * M * one * (2 ^ 49 + 1) + 2 ^ 49 * W.
Proof.
  intros Hel. pose proof one_pos as Ho. pose proof R_bounds as HR. pose proof R_accurate as HRa.
  destruct (secs_accurate el) as [Hs _]; [lia|]. destruct (added_bounds el Hel) as [Hp Ha].
  pose proof (rnd_upper (secs el * R) one ltac:(lia) Ho) as Hu. fold (added el) in Hu.
  destruct (Seconds_secs el) as [_ Hs0]; [unfold max_int64 in Hel; lia|]. destruct Hc as [HM HW].
  pose proof (Z.mul_le_mono_nonneg_l _ _ (secs el) ltac:(lia) HRa) as H1.
  pose proof (Z.mul_le_mono_nonneg_l _ _ (M * one) ltac:(nia) Hs) as H2.
  pose proof (Z.mul_le_mono_nonneg_r _ _ W ltac:(lia) Hu) as H3.
  assert (0 <= el * M * one * one) by nia.
  apply (Z.mul_le_mono_pos_r _ _ one); [done|]. unfold ns in *. lia.
Qed.

Definition cost (b : bool) : Z := if b then one else 0.

(** A request spends what came in and what was there, up to rounding. *)
Lemma take_budget t el :
  0 <= t <= M * one -> 0 <= el <= max_int64 ->
  2 ^ 51 * (left_over t el + cost (grants t el)) <= 2 ^ 51 * Z.min (M * one) (t + added el) + M * one.
Proof.
  intros Ht Hel. pose proof one_pos as Ho. pose proof one_large as Hl. destruct Hc as [HM _].
  destruct (added_bounds el Hel) as [_ Ha]. pose proof (refill_nonneg t el ltac:(lia) Hel) as Hr.
  assert (H53 : 2 ^ 53 <= M * one).
  { transitivity (1 * one); [|nia]. assert (2 ^ 53 < 2 ^ 1000) by (vm_compute; reflexivity). lia. }
  assert (Hlv : 0 <= level t el /\ 2 ^ 53 * level t el <= 2 ^ 53 * Z.min (M * one) (t + added el) + 2 * (M * one) + 2 ^ 52).
  { pose proof (rnd_upper (t + added el) 1 ltac:(lia) ltac:(lia)) as Hu. fold (refill t el) in Hu. unfold level.
    split; [lia|]. destruct (Z.le_gt_cases (t + added el) (M * one)); lia. }
  assert (Hlo : 2 ^ 53 * (left_over t el + cost (grants t el)) <= 2 ^ 53 * level t el + M * one + 2 ^ 52).
  { unfold left_over, grants, cost. destruct (Z.leb_spec one (level t el)); [|lia].
    pose proof (rnd_upper (level t el - one) 1 ltac:(lia) ltac:(lia)). unfold level in *. lia. }
  lia.
Qed.

(** ** One client's requests *)

Fixpoint bucket_run (cb : clientBucket) (ts : list Z) : list bool :=
  match ts with
  | [] => []
  | now :: ts => let r := take (limiter ∅) now cb in r.1 :: bucket_run r.2 ts
  end.

Fixpoint ordered (t0 : Z) (ts : list Z) (e : Z) : Prop :=
  match ts with
  | [] => t0 <= e
  | now :: ts => t0 <= now /\ ordered now ts e
  end.

Lemma ordered_le ts : forall t0 e, ordered t0 ts e -> t0 <= e.
Proof. induction ts as [|t ts IH]; cbn; intros t0 e H; [done|]. destruct H as [H1 H2%IH]. lia. Qed.

Lemma ordered_earlier t t0 ts e : ordered t ts e -> t0 <= t -> ordered t0 ts e.
Proof. destruct ts as [|x ts]; cbn; [lia|]. intros [H1 H2] Ht. split; [lia|done]. Qed.

Lemma granted_cons b l : granted (b :: l) = (if b then 1 else 0) + granted l.
Proof.
  unfold granted, zlen. destruct b; [rewrite filter_cons_True by done|rewrite filter_cons_False by done]; cbn [length]; lia.
Qed.

Lemma granted_cost b l : one * granted (b :: l) = cost b + one * granted l.
Proof. rewrite granted_cons. unfold cost. destruct b; lia. Qed.

Definition per_request : Z := 2 ^ 51 * W + W * M * one.

Lemma bucket_bound ts : forall t last e,
  0 <= t <= M * one -> ordered last ts e ->
  2 ^ 51 * W * (one * granted (bucket_run (mkBucket (Fin t) last) ts)) <=
    2 ^ 51 * W * t + (e - last) * M * one * (2 ^ 51 + 4) + zlen ts * per_request.
Proof.
  pose proof one_pos as Ho. destruct Hc as [HM HW].
  assert (Hnn : forall x, 0 <= x -> 0 <= x * M * one) by (intros; nia).
  induction ts as [|now ts IH]; intros t last e Ht Hord.
  - change (granted (bucket_run _ [])) with 0. change (zlen (@nil Z)) with 0.
    specialize (Hnn (e - last) ltac:(cbn in Hord; lia)). assert (0 <= W * t) by nia. lia.
  - cbn [bucket_run]. destruct Hord as [Hl Hord].
    assert (Hk : kept now t (mkBucket (Fin t) last)) by (split_and!; [done|lia..|done]).
    destruct (take_kept ∅ now t _ Hk) as [-> (_ & Hlo & _)]. cbn [fst snd lastCheck] in *.
    set (el := time_Sub now last) in *. rewrite granted_cost, zlen_cons.
    assert (Hel : 0 <= el <= max_int64) by (by apply elapsed).
    assert (Hle : el <= now - last) by (unfold el, time_Sub, max_int64; lia).
    specialize (IH _ now e Hlo Hord). pose proof (take_budget t el Ht Hel) as Hb. pose proof (added_upper el Hel) as Ha.
    pose proof (Z.mul_le_mono_nonneg_l _ _ W ltac:(lia) Hb) as Hb'.
    specialize (Hnn (now - last - el) ltac:(lia)). unfold per_request in *.
    assert (W * Z.min (M * one) (t + added el) <= W * t + added el * W) by nia.
    rewrite !Z.mul_sub_distr_r in Hnn. lia.
Qed.

(** However long ago the bucket was last used: after the first request only the
    time since counts. *)
Lemma bucket_window now ts cb t e :
  kept now t cb -> ordered now ts e ->
  granted (bucket_run cb (now :: ts)) * W * 2 ^ 50 <= M * (W + (e - now)) * (2 ^ 50 + zlen (now :: ts) + 2).
Proof.
  intros Hk Hord. cbn [bucket_run]. destruct (take_kept ∅ now t cb Hk) as [-> (_ & Hlo & _)]. cbn [fst snd] in *.
  set (el := time_Sub now (lastCheck cb)) in *.
  assert (Hel : 0 <= el <= max_int64) by (apply elapsed, Hk).
  pose proof (take_budget t el ltac:(apply Hk) Hel) as Hb. pose proof (bucket_bound ts _ now e Hlo Hord) as Hr.
  pose proof one_pos as Ho. pose proof one_large as Hl. destruct Hc as [HM HW].
  assert (H51 : 2 ^ 51 <= M * one).
  { transitivity (1 * one); [|nia]. assert (2 ^ 51 < 2 ^ 1000) by (vm_compute; reflexivity). lia. }
  pose proof (ordered_le _ _ _ Hord) as He. assert (Hz : 0 <= zlen ts) by (unfold zlen; lia).
  set (b := bucket_run _ ts) in *. set (g := grants t el) in *.
  assert (Hb' : W * (2 ^ 51 * (left_over t el + cost g)) <= W * (2 ^ 51 * (M * one) + M * one)) by nia.
  assert (Hp : zlen ts * per_request <= zlen ts * (2 * W * M * one)) by (unfold per_request; nia).
  pose proof (granted_cost g b) as Hg. rewrite zlen_cons. set (G := granted (g :: b)) in *.
  apply (Z.mul_le_mono_pos_r _ _ (2 * one)); [lia|].
  assert (0 <= (e - now) * M * one) by nia. assert (0 <= zlen ts * ((e - now) * M * one)) by nia.
  assert (0 <= W * M * one) by nia. lia.
Qed.

(** A client with [z] whole tokens gets its next [z] requests through. *)
Lemma bucket_burst ts : forall z t last e,
  0 <= z <= M -> z * one <= t <= M * one -> ordered last ts e -> zlen ts <= z ->
  granted (bucket_run (mkBucket (Fin t) last) ts) = zlen ts.
Proof.
  pose proof one_pos as Ho. induction ts as [|now ts IH]; intros z t last e Hz Ht Hord Hn; [done|].
  rewrite zlen_cons in *. assert (0 <= zlen ts) by (unfold zlen; lia). destruct Hord as [Hl Hord]. cbn [bucket_run].
  assert (Hk : kept now t (mkBucket (Fin t) last)) by (split_and!; [done|nia|lia|done]).
  destruct (take_kept ∅ now t _ Hk) as [-> (_ & Hlo & _)]. cbn [fst snd lastCheck] in *.
  set (el := time_Sub now last) in *. assert (Hel : 0 <= el <= max_int64) by (by apply elapsed).
  assert (Hlv : z * one <= level t el).
  { unfold level. apply Z.min_glb; [nia|]. transitivity (refill (z * one) 0).
    - unfold refill. rewrite added_0, Z.add_0_r, rnd_whole; [lia|]. destruct Hc. lia.
    - apply refill_mono; [nia|lia|lia]. }
  assert (Hg : grants t el = true) by (apply Z.leb_le; nia).
  rewrite granted_cons, Hg. rewrite (IH (z - 1) _ now e); [done|lia| |done|lia]. split; [|lia].
  unfold left_over. rewrite Hg. rewrite <- (rnd_whole (z - 1)) by (destruct Hc; lia).
  assert (0 <= level t el <= M * one) by (unfold level in *; nia). apply rnd_mono; nia.
Qed.

(** ** The answers to one client *)

Definition times_of (key : string) (l : list (Z * rl_event)) : list Z :=
  omap (fun e => match e.2 with Request k => if decide (k = key) then Some e.1 else None | Tick => None end) l.

Lemma Allow_limiter now k m : exists b cb,
  Allow now k (limiter m) = (b, limiter (<[k := cb]> m)) /\
  take (limiter ∅) now (default (mkBucket (Fin (M * one)) now) (m !! k)) = (b, cb).
Proof.
  unfold Allow. rewrite max_tokens, limiter_with. eexists _, _. split; [reflexivity|].
  cbn [clients limiter with_clients]. apply surjective_pairing.
Qed.

Lemma answers_requests key l : Forall (fun e => is_request e = true) l -> forall m,
  answers_to key (rl_run (limiter m) l).1 =
  match times_of key l with
  | [] => []
  | now :: ts => bucket_run (default (mkBucket (Fin (M * one)) now) (m !! key)) (now :: ts)
  end.
Proof.
  induction 1 as [|[now [k|]] l Hr Hf IH]; intros m; [done| |done].
  cbn [rl_run]. destruct (Allow_limiter now k m) as (b & cb & -> & Ht). cbn [fst snd answers_to times_of omap list_omap].
  fold (answers_to key (rl_run (limiter (<[k:=cb]> m)) l).1). fold (times_of key l). rewrite IH.
  destruct (decide (k = key)) as [->|Hne].
  - rewrite lookup_insert_eq. cbn [default from_option bucket_run]. rewrite Ht. cbn [fst snd]. f_equal.
    by destruct (times_of key l).
  - by rewrite lookup_insert_ne.
Qed.

Lemma run_limiter l : forall m, exists m1, (rl_run (limiter m) l).2 = limiter m1 /\
  forall key, times_of key l = [] -> m !! key = None -> m1 !! key = None.
Proof.
  induction l as [|[now [k|]] l IH]; intros m; [by exists m| |].
  - cbn [rl_run]. destruct (Allow_limiter now k m) as (b & cb & -> & _). cbn [snd].
    destruct (IH (<[k := cb]> m)) as (m1 & E & H1). exists m1. split; [done|]. intros key. cbn [times_of omap list_omap].
    cbn [snd fst]. case_decide as E1; [done|]. intros Ht Hn. apply H1; [done|]. by rewrite lookup_insert_ne.
  - cbn [rl_run]. destruct (IH (filter (fun kb => stays (limiter m) now kb.2 = true) m)) as (m1 & E & H1).
    exists m1. split; [done|]. intros key Ht Hn. apply H1; [done|]. apply map_lookup_filter_None. by left.
Qed.
End Bucket.

(** ** Results *)

Abbreviation requests_only := (filter (fun e => is_request e = true)).

Lemma rl_run_app l1 l2 : forall rl,
  (rl_run rl (l1 ++ l2)).1 = (rl_run rl l1).1 ++ (rl_run (rl_run rl l1).2 l2).1.
Proof. induction l1 as [|[t [k|]] l1 IH]; intros rl; cbn [rl_run app]; [done| |done]. cbn. by rewrite IH. Qed.

Lemma new_limiter M W : NewRateLimiter (mkRateConfig M W) = limiter M W ∅.
Proof. done. Qed.

Lemma no_buckets M W t : same_buckets M W t ∅ ∅.
Proof. intros k. by rewrite !lookup_empty. Qed.

(** C38. The cleanup goroutine is invisible. For every limiter with a positive
    number of requests (below [2^53]) and a positive window, and for every
    schedule of requests and cleanup ticks in the order of time, each request is
    answered exactly as if the cleanup had never run, rounding included. *)
Theorem rate_limiter_cleanup_invisible M W l t0 :
  sound_config M W -> chronological t0 l ->
  (rl_run (NewRateLimiter (mkRateConfig M W)) l).1 =
  (rl_run (NewRateLimiter (mkRateConfig M W)) (requests_only l)).1.
Proof.
  intros Hc Hl. rewrite new_limiter. apply (run_same M W Hc l [] t0); [by rewrite app_nil_r|apply no_buckets].
Qed.

Lemma times_of_requests key l : times_of key (requests_only l) = times_of key l.
Proof.
  unfold times_of. induction l as [|[t [k|]] l IH]; [done| |].
  - rewrite filter_cons_True by done. cbn. by rewrite IH.
  - rewrite filter_cons_False by done. cbn. by rewrite IH.
Qed.

Lemma times_ordered key l e : forall t0,
  chronological t0 l -> Forall (fun x => x.1 <= e) l -> t0 <= e -> ordered t0 (times_of key l) e.
Proof.
  induction l as [|[t [k|]] l IH]; intros t0 Hch Hf Ht0; cbn; [done| |].
  - destruct Hch as [Ht Hch]. apply Forall_cons_1 in Hf as [Hte Hf]. cbn in Hte.
    specialize (IH t Hch Hf Hte). cbn [snd fst]. case_decide; [done|].
    by apply (ordered_earlier t).
  - destruct Hch as [Ht Hch]. apply Forall_cons_1 in Hf as [Hte Hf]. cbn in Hte.
    specialize (IH t Hch Hf Hte). by apply (ordered_earlier t).
Qed.

Lemma requests_all l : Forall (fun e => is_request e = true) (requests_only l).
Proof.
  induction l as [|x l IH]; [constructor|]. destruct (is_request x) eqn:E.
  - rewrite filter_cons_True by done. by constructor.
  - rewrite filter_cons_False by (by rewrite E). done.
Qed.

Lemma chronological_start t1 s l :
  chronological t1 l -> Forall (fun x => s <= x.1) l -> chronological s l.
Proof. destruct l as [|[t ev] l]; [done|]. intros [_ H] [Hs _]%Forall_cons_1. by split. Qed.

(** The part of a run after [l1] for one client, as requests on a bucket. *)
Lemma client_answers M W (Hc : sound_config M W) l1 l2 t0 key :
  chronological t0 (l1 ++ l2) ->
  exists t1 ob, chronological t1 l2 /\ (forall cb, ob = Some cb -> exists t, kept M t1 t cb) /\
    (times_of key l1 = [] -> ob = None) /\
    answers_to key (rl_run (rl_run (NewRateLimiter (mkRateConfig M W)) l1).2 l2).1 =
    match times_of key l2 with
    | [] => []
    | now :: ts => bucket_run M W (default (mkBucket (Fin (M * one)) now) ob) (now :: ts)
    end.
Proof.
  intros Hch. rewrite new_limiter.
  destruct (run_same M W Hc l1 l2 t0 ∅ ∅ Hch (no_buckets M W t0)) as [_ (t1 & m1 & m1' & E1 & E1' & Hs & Hch2)].
  exists t1, (m1' !! key). split; [done|]. split.
  { intros cb Hcb. specialize (Hs key). rewrite Hcb in Hs. destruct (m1 !! key); cbn in Hs; [|naive_solver].
    destruct Hs as [-> Hs]. done. }
  split.
  { intros Ht. destruct (run_limiter M W Hc (requests_only l1) ∅) as (m2 & E2 & H2).
    rewrite E1' in E2. apply (f_equal clients) in E2. cbn in E2. subst m2. apply H2; [by rewrite times_of_requests|done]. }
  rewrite E1. destruct (run_same M W Hc l2 [] t1 m1 m1') as [-> _]; [by rewrite app_nil_r|done|].
  rewrite (answers_requests M W Hc), times_of_requests; [done|apply requests_all].
Qed.

Lemma bucket_run_length M W ts : forall cb, length (bucket_run M W cb ts) = length ts.
Proof. induction ts as [|x l IH]; intros cb; [done|]. cbn [bucket_run length]. by rewrite IH. Qed.

(** C23. The rate limit holds. In a run of any length, with cleanups in between,
    take the requests of one client within a stretch of time from [s] to [e]: the
    number let through is at most [M * (1 + (e - s) / W)], up to a relative error of
    [2^-50] per request, which is what the rounding of the tokens can add up to.
    And the limiter never refuses one of the first [M] requests of a new client. *)
Theorem rate_limit_bound M W l1 l2 t0 s e key :
  sound_config M W -> chronological t0 (l1 ++ l2) -> Forall (fun x => s <= x.1 <= e) l2 -> s <= e ->
  let a := answers_to key (rl_run (rl_run (NewRateLimiter (mkRateConfig M W)) l1).2 l2).1 in
  granted a * W * 2 ^ 50 <= M * (W + (e - s)) * (2 ^ 50 + zlen a + 2) /\
  (times_of key l1 = [] -> zlen a <= M -> granted a = zlen a).
Proof.
  intros Hc Hch Hf Hse a. destruct (client_answers M W Hc l1 l2 t0 key Hch) as (t1 & ob & Hch2 & Hk & Hnew & Ha).
  fold a in Ha. rewrite Ha. clearbody a. destruct (times_of key l2) as [|now ts] eqn:Et.
  { change (granted []) with 0. change (zlen (@nil bool)) with 0. destruct Hc as [HM HW]. split; [nia|done]. }
  assert (Hin : Forall (fun x => x.1 <= e) l2) by (eapply Forall_impl; [|exact Hf]; intros x Hx; cbn in Hx; lia).
  assert (Hlo : Forall (fun x => s <= x.1) l2) by (eapply Forall_impl; [|exact Hf]; intros x Hx; cbn in Hx; lia).
  pose proof (times_ordered key l2 e s (chronological_start t1 s l2 Hch2 Hlo) Hin Hse) as Hord. rewrite Et in Hord.
  assert (Ht1 : t1 <= now).
  { destruct l2 as [|[t ev] l2]; [done|]. apply Forall_cons_1 in Hin as [Hte _]. cbn in Hte.
    pose proof (times_ordered key ((t, ev) :: l2) e t1 Hch2) as Ho. rewrite Et in Ho. destruct Ho as [Ho _]; [|destruct Hch2; lia|done].
    eapply Forall_impl; [|exact Hf]. intros x Hx. cbn in Hx. lia. }
  destruct Hord as [Hsn Hord]. set (cb := default (mkBucket (Fin (M * one)) now) ob).
  assert (Hkept : exists t, kept M now t cb).
  { destruct ob as [cb'|]; cbn in *; [|eexists; by apply (fresh_kept M W Hc)].
    destruct (Hk cb' eq_refl) as [t Hkt]. exists t. by apply (kept_later M t1). }
  assert (Hlen : zlen (bucket_run M W cb (now :: ts)) = zlen (now :: ts)).
  { unfold zlen. by rewrite bucket_run_length. }
  split.
  - destruct Hkept as [t Hkt]. pose proof (bucket_window M W Hc now ts cb t e Hkt Hord) as Hb. rewrite Hlen.
    etransitivity; [exact Hb|]. assert (0 <= zlen (now :: ts)) by (unfold zlen; lia). destruct Hc as [HM HW].
    apply Z.mul_le_mono_nonneg_r; [lia|]. nia.
  - intros Hn Hle. rewrite Hlen in *. subst cb. rewrite (Hnew Hn). cbn [default from_option].
    pose proof Hc as [HM HW]. apply (bucket_burst M W Hc (now :: ts) M (M * one) now e); try lia. by split.
Qed.

(** Two requests per second, three at once, a tick in between. *)
Definition three_requests : list (Z * rl_event) :=
  [(0, Request "10.0.0.1"); (5, Request "10.0.0.1"); (9, Tick); (10, Request "10.0.0.1")].

Lemma rate_limiter_cleanup_invisible_witness :
  sound_config 2 ns /\
  (rl_run (NewRateLimiter (mkRateConfig 2 ns)) three_requests).1 =
  (rl_run (NewRateLimiter (mkRateConfig 2 ns)) (requests_only three_requests)).1.
Proof.
  split; [vm_compute; repeat split; discriminate|].
  apply (rate_limiter_cleanup_invisible 2 ns three_requests 0); [vm_compute; repeat split; discriminate|].
  cbn. lia.
Defined.

Lemma rate_limit_bound_witness :
  granted (answers_to "10.0.0.1" (rl_run (NewRateLimiter (mkRateConfig 2 ns)) three_requests).1) = 2 /\
  2 * ns * 2 ^ 50 <= 2 * (ns + (10 - 0)) * (2 ^ 50 + 3 + 2).
Proof.
  destruct (rate_limit_bound 2 ns [] three_requests 0 0 10 "10.0.0.1") as [H _].
  - vm_compute. repeat split; discriminate.
  - cbn. lia.
  - repeat constructor; cbn; lia.
  - lia.
  - split; [vm_compute; reflexivity|]. vm_compute in H |- *. exact H.
Defined.

Lemma take_nan rl now cb : refilled rl now cb = NaN -> take rl now cb = (true, mkBucket NaN now).
Proof. intros E. unfold take, capped. rewrite E. by destruct (maxTokens rl). Qed.

(** With a window of zero the refill rate is infinite, and zero seconds of it
    are not a number: every comparison with the tokens is false from then on and
    every request is let through. *)
Lemma zero_window_unlimited M key : 0 < M < 2 ^ 53 -> forall ts m,
  (forall cb, m !! key = Some cb -> tokens cb = NaN) ->
  answers_to key (rl_run (with_clients (NewRateLimiter (mkRateConfig M 0)) m) ((fun t => (t, Request key)) <$> ts)).1 =
  replicate (length ts) true.
Proof.
  intros HM. pose proof one_pos.
  assert (HR : refillRate (NewRateLimiter (mkRateConfig M 0)) = Inf false).
  { cbn. rewrite of_int_whole by lia. change (Seconds 0) with (Fin 0). cbn.
    rewrite (proj2 (Z.eqb_neq _ _)) by nia. by rewrite (proj2 (Z.ltb_ge _ _)) by nia. }
  induction ts as [|t ts IH]; intros m Hm; [done|]. rewrite fmap_cons. cbn [rl_run length replicate].
  assert (Ht : refilled (with_clients (NewRateLimiter (mkRateConfig M 0)) m) t
                 (default (mkBucket (maxTokens (NewRateLimiter (mkRateConfig M 0))) t) (m !! key)) = NaN).
  { unfold refilled. change (refillRate (with_clients _ m)) with (refillRate (NewRateLimiter (mkRateConfig M 0))).
    rewrite HR. destruct (m !! key) as [cb|] eqn:E; cbn [default from_option id].
    - assert (Hn : tokens cb = NaN) by (by apply Hm). rewrite Hn. by destruct (fmul _ _).
    - cbn [lastCheck]. assert (E0 : time_Sub t t = 0) by (unfold time_Sub, max_int64; lia). rewrite E0.
      change (fmul (Seconds 0) (Inf false)) with NaN. by destruct (tokens _). }
  apply take_nan in Ht. unfold Allow. cbn [clients with_clients maxTokens NewRateLimiter] in Ht |- *. rewrite Ht.
  cbn [fst snd answers_to omap list_omap]. rewrite decide_True by done. f_equal.
  apply IH. intros cb. rewrite lookup_insert_eq. by intros [= <-].
Qed.
