(* ===== verification/Jobs.v ===== *)
(** * Scheduled jobs (inbound/job_discovery.go, inbound/scheduler.go)

    A job is a Lua file with a header line such as [-- @job interval=300]. The
    directory listing and the lines of each file, as the scanner gives them, are
    inputs. [jobs_discovered]: exactly the enabled files with a positive
    interval are scheduled, in the order of their names, every so many seconds
    as the header says as long as that many nanoseconds fit an int64;
    [long_interval_wraps] shows a header beyond that limit. *)

From Stdlib Require Import ZArith Lia.
From Stdlib Require Import Strings.Byte.
From stdpp Require Import base list strings gmap option pretty sorting.
From S2P Require Import Prelude GoFmt Utf8 Json LValue LExtract LParse LRoundtrip Smus Effects Ports.

Open Scope Z_scope.

(** ** The header line *)

Definition word_char (b : byte) : bool := between 48 57 b || between 65 90 b || between 97 122 b || bool_decide (b = Byte.x5f).
Definition space_char (b : byte) : bool := bool_decide (b ∈ [Byte.x09; Byte.x0a; Byte.x0c; Byte.x0d; Byte.x20]).

(** A literal at the start of the text. *)
Fixpoint strip (p l : bytes) : option bytes :=
  match p, l with
  | [], _ => Some l
  | b :: p, b' :: l => if decide (b = b') then strip p l else None
  | _, [] => None
  end.

Fixpoint skip_spaces (l : bytes) : bytes :=
  match l with b :: r => if space_char b then skip_spaces r else l | [] => [] end.

(** The leftmost match of a pattern given as a matcher at one position. *)
Fixpoint find_match {A} (m : bytes -> option A) (l : bytes) : option A :=
  match m l with
  | Some a => Some a
  | None => match l with [] => None | _ :: r => find_match m r end
  end.

(** [@job\b] *)
Definition job_header_at (l : bytes) : option unit :=
  r ← strip (lit "@job") l;
  match r with b :: _ => if word_char b then None else Some tt | [] => Some tt end.

(** [interval\s*=\s*(\d+)] and [enabled\s*=\s*(true|false)] *)
Definition assignment_at {A} (name : string) (read : bytes -> option A) (l : bytes) : option A :=
  r ← strip (lit name) l;
  r ← strip (lit "=") (skip_spaces r);
  read (skip_spaces r).

Definition digits_at (l : bytes) : option bytes :=
  match (span_digits l).1 with [] => None | ds => Some ds end.

Definition bool_at (l : bytes) : option bool :=
  match strip (lit "true") l with
  | Some _ => Some true
  | None => match strip (lit "false") l with Some _ => Some false | None => None end
  end.

(** [strconv.Atoi] of digits with its error ignored: a value out of range comes
    with the largest integer. *)
Definition atoi_digits (ds : bytes) : Z :=
  match ParseInt ds with inr z => z | inl ErrRange => max_int64 | inl ErrSyntax => 0 end.

Definition header_interval (line : bytes) : Z :=
  match find_match (assignment_at "interval" digits_at) line with Some ds => atoi_digits ds | None => 0 end.
Definition header_enabled (line : bytes) : bool :=
  match find_match (assignment_at "enabled" bool_at) line with Some b => b | None => true end.

(** The first header among the first twenty lines. *)
Definition is_header (line : bytes) : bool :=
  match find_match job_header_at line with Some _ => true | None => false end.

Definition parseJobHeader (file : option (list bytes)) : option (Z * bool) :=
  match file with
  | None => None
  | Some lines =>
      match list_find (fun l => is_header l = true) (take 20 lines) with
      | Some (_, line) => Some (header_interval line, header_enabled line)
      | None => None
      end
  end.

(** ** Discovery *)

Record ScheduledJob := mkJob { job_Name : string; job_Interval : Z }.

(** A directory entry: its name, whether it is a directory, its lines if it can
    be opened. *)
Record dir_entry := mkDirEntry { de_name : string; de_dir : bool; de_lines : option (list bytes) }.

Definition second : Z := 1000000000.

(** [filepath.Ext(name) == ".lua"], and the name without it. *)
Definition lua_name (name : string) : option string :=
  let l := lit name in
  let n := (length l - 4)%nat in
  if decide (4 <= length l)%nat then
    if decide (drop n l = lit ".lua") then Some (string_of_bytes (take n l)) else None
  else None.

Definition entry_job (e : dir_entry) : option ScheduledJob :=
  if de_dir e then None
  else
    name ← lua_name (de_name e);
    h ← parseJobHeader (de_lines e);
    if negb h.2 then None
    else if h.1 <=? 0 then None
    else Some (mkJob name (int64 (h.1 * second))).

Definition job_le (a b : ScheduledJob) : Prop := String.leb (job_Name a) (job_Name b) = true.
#[export] Instance job_le_dec a b : Decision (job_le a b).
Proof. unfold job_le. apply _. Defined.
#[export] Instance job_le_total : Total job_le.
Proof. intros a b. apply String.leb_total. Qed.

(** The directory listing, if it could be read. *)
Definition DiscoverJobs (entries : option (list dir_entry)) : list ScheduledJob :=
  match entries with
  | None => []
  | Some es => merge_sort job_le (omap entry_job es)
  end.

(** ** The scheduler *)

Definition jobSenderID : string := "system.jobs".

(** A nil engine has no scripts. *)
Definition NewScheduler (has_script : string -> bool) (jobs : list ScheduledJob) : list ScheduledJob :=
  filter (fun j => (0 <? job_Interval j) && has_script ("jobs/" +:+ job_Name j) = true) jobs.

(** One tick of a job; the error is only logged. *)
Definition runJob (job : ScheduledJob) : M unit :=
  recover_ tt
    (_ ← call_ (Execute (mkScriptMessage ("jobs/" +:+ job_Name job) jobSenderID (Some LVoid)));
     mret tt).

(** ** What is scheduled *)

(** Seconds that fit. *)
Definition max_seconds : Z := 9223372036.

Lemma int64_exact z : 0 < z <= max_int64 -> int64 z = z.
Proof. unfold int64, max_int64, two64. intros Hz. rewrite Z.mod_small by lia. case_match; lia. Qed.

Lemma entry_job_spec e j :
  entry_job e = Some j <->
  exists n b, de_dir e = false /\ lua_name (de_name e) = Some (job_Name j) /\
    parseJobHeader (de_lines e) = Some (n, b) /\ b = true /\ 0 < n /\ job_Interval j = int64 (n * second).
Proof.
  unfold entry_job. split.
  - destruct (de_dir e); [done|]. destruct (lua_name (de_name e)) as [name|]; cbn; [|done].
    destruct (parseJobHeader (de_lines e)) as [[n b]|]; cbn; [|done]. destruct b; cbn; [|done].
    destruct (n <=? 0) eqn:Hn; [done|]. intros [= <-]. exists n, true. cbn. apply Z.leb_gt in Hn. by split_and!.
  - intros (n & b & -> & -> & Hh & -> & Hn & Hi). cbn. rewrite Hh. cbn. rewrite (proj2 (Z.leb_gt _ _)) by done.
    destruct j. cbn in *. by subst.
Qed.

(** The scheduler runs exactly the Lua files of the directory that have an
    enabled header with a positive interval and a script, in the order of their
    names. A job's interval is the number of seconds its header says whenever
    that is at most 9,223,372,036; no scheduled job has an interval that is not
    positive. *)
Theorem jobs_discovered has_script es :
  let jobs := NewScheduler has_script (DiscoverJobs (Some es)) in
  Sorted job_le (DiscoverJobs (Some es)) /\
  (forall j, j ∈ jobs <->
     0 < job_Interval j /\ has_script ("jobs/" +:+ job_Name j) = true /\
     exists e n, e ∈ es /\ de_dir e = false /\ lua_name (de_name e) = Some (job_Name j) /\
       parseJobHeader (de_lines e) = Some (n, true) /\ 0 < n /\ job_Interval j = int64 (n * second)) /\
  (forall n, 0 < n <= max_seconds -> int64 (n * second) = n * second).
Proof.
  cbv zeta. split_and!.
  - apply Sorted_merge_sort. apply _.
  - intros j. unfold NewScheduler, DiscoverJobs. rewrite list_elem_of_filter, andb_true_iff, Z.ltb_lt, merge_sort_Permutation.
    rewrite list_elem_of_omap. setoid_rewrite entry_job_spec. split.
    + intros [[H1 H2] (e & He & n & b & Hd & Hl & Hp & -> & Hn & Hi)]. split_and!; [done|done|]. by exists e, n.
    + intros (H1 & H2 & e & n & He & Hd & Hl & Hp & Hn & Hi). split; [done|]. exists e. split; [done|]. by exists n, true.
  - intros n Hn. unfold max_seconds, second in *. apply int64_exact. unfold max_int64. lia.
Qed.

(** A header asking for about 584 years: the product wraps to 290 ms. *)
Definition long_job : dir_entry :=
  mkDirEntry "backup.lua" false (Some [lit "-- @job interval = 18446744074"]).

(** An interval too long for a duration is not refused: the multiplication
    by a second wraps, and this job, meant to run every 18,446,744,074 seconds,
    runs more than three times a second. *)
Theorem long_interval_wraps :
  parseJobHeader (de_lines long_job) = Some (18446744074, true) /\
  NewScheduler (fun _ => true) (DiscoverJobs (Some [long_job])) = [mkJob "backup" 290448384].
Proof. split; vm_compute; reflexivity. Qed.

Example header_forms :
  parseJobHeader (Some [lit "-- flush"; lit "-- @jobs interval=1"; lit "-- @job enabled=false interval =  15"]) = Some (15, false) /\
  parseJobHeader (Some [lit "local x = 1"]) = None.
Proof. split; vm_compute; reflexivity. Qed.
