(* ===== verification/Tickers.v ===== *)
(** * Goroutines on tickers (inbound/scheduler.go, inbound/idle_checker.go)

    The scheduler starts one goroutine per job, the idle checker one for itself.
    Each waits for the channel [done] or for its ticker, whose channel keeps at
    most one tick, and does its work on a tick. [Stop] of the scheduler closes
    [done] and waits for the goroutines; [Stop] of the idle checker stops the
    ticker, closes [done] and does not wait. Both run once ([sync.Once]).

    What a goroutine does on a tick is in files Jobs ([runJob], which recovers
    from panics) and Idle ([check]); here it takes some time and returns. *)

From Stdlib Require Import ZArith Lia.
From stdpp Require Import base list option relations.
From S2P Require Import Prelude.

(** Where a goroutine is. *)
Inductive tphase := TSelect | TWorking | TGone.

#[export] Instance tphase_eq_dec : EqDecision tphase.
Proof. solve_decision. Defined.

Record ticking := mkTicking {
  tk_phase : tphase;
  tk_active : bool;          (* the ticker runs *)
  tk_pending : bool;         (* a tick waits in its channel *)
  tk_ticks : nat;
  tk_runs : nat
}.

(** Where the call of [Stop] is. *)
Inductive stopping := NotStopped | DoneClosed | StopReturned.

Record TickSystem := mkTickSystem { sy_loops : list ticking; sy_stop : stopping }.

Definition new_loop : ticking := mkTicking TSelect true false 0 0.

(** [Start]: a goroutine per job. *)
Definition started (n : nat) : TickSystem := mkTickSystem (replicate n new_loop) NotStopped.

Definition tick (k : ticking) : ticking := mkTicking (tk_phase k) (tk_active k) true (S (tk_ticks k)) (tk_runs k).
Definition begin_work (k : ticking) : ticking := mkTicking TWorking (tk_active k) false (tk_ticks k) (S (tk_runs k)).
Definition end_work (k : ticking) : ticking := mkTicking TSelect (tk_active k) (tk_pending k) (tk_ticks k) (tk_runs k).
Definition leave (k : ticking) : ticking := mkTicking TGone false (tk_pending k) (tk_ticks k) (tk_runs k).
Definition stop_ticker (k : ticking) : ticking := mkTicking (tk_phase k) false (tk_pending k) (tk_ticks k) (tk_runs k).

Definition with_loop (i : nat) (k : ticking) (s : TickSystem) : TickSystem :=
  mkTickSystem (<[i := k]> (sy_loops s)) (sy_stop s).

Definition all_gone (s : TickSystem) : Prop := Forall (fun k => tk_phase k = TGone) (sy_loops s).

Section Tickers.
(** [waits]: the scheduler waits for its goroutines, the idle checker stops its
    ticker instead. *)
Context (waits : bool).

Definition closing (s : TickSystem) : TickSystem :=
  mkTickSystem (if waits then sy_loops s else stop_ticker <$> sy_loops s) DoneClosed.

(** The server's own steps: what it has begun it ends. *)
Inductive own_step : TickSystem -> TickSystem -> Prop :=
| KEnd i k s : sy_loops s !! i = Some k -> tk_phase k = TWorking -> own_step s (with_loop i (end_work k) s)
| KLeave i k s :
    sy_loops s !! i = Some k -> tk_phase k = TSelect -> sy_stop s <> NotStopped -> own_step s (with_loop i (leave k) s)
| KReturn s : sy_stop s = DoneClosed -> (waits = true -> all_gone s) -> own_step s (mkTickSystem (sy_loops s) StopReturned).

Inductive tick_step : TickSystem -> TickSystem -> Prop :=
| KTick i k s : sy_loops s !! i = Some k -> tk_active k = true -> tick_step s (with_loop i (tick k) s)
| KBegin i k s :
    sy_loops s !! i = Some k -> tk_phase k = TSelect -> tk_pending k = true -> tick_step s (with_loop i (begin_work k) s)
| KStop s : sy_stop s = NotStopped -> tick_step s (closing s)
| KOwn s s' : own_step s s' -> tick_step s s'.

(** ** Invariants *)

Definition loop_inv (st : stopping) (k : ticking) : Prop :=
  (tk_runs k + (if tk_pending k then 1 else 0) <= tk_ticks k)%nat /\
  (st <> NotStopped -> waits = false -> tk_active k = false) /\
  (st = StopReturned -> waits = true -> tk_phase k = TGone) /\
  (tk_phase k = TGone -> tk_active k = false).

Definition tick_inv (s : TickSystem) : Prop := Forall (loop_inv (sy_stop s)) (sy_loops s).

Lemma inv_loop i k k' s :
  sy_loops s !! i = Some k -> (loop_inv (sy_stop s) k -> loop_inv (sy_stop s) k') -> tick_inv s -> tick_inv (with_loop i k' s).
Proof.
  intros Hi Hk I. apply Forall_insert; [done|]. apply Hk. unfold tick_inv in I. by eapply Forall_lookup_1 in I.
Qed.

Lemma own_inv s s' : own_step s s' -> tick_inv s -> tick_inv s'.
Proof.
  destruct 1 as [i k s Hi Hp|i k s Hi Hp Hs|s Hs Hw]; intros I.
  - eapply inv_loop; [exact Hi| |done]. intros (I1 & I2 & I3 & I4). split_and!; cbn; [done|done| |done].
    intros H1 H2. specialize (I3 H1 H2). congruence.
  - eapply inv_loop; [exact Hi| |done]. intros (I1 & I2 & I3 & I4). split; [exact I1|]. by split_and!.
  - unfold tick_inv in *. rewrite Hs in I. cbn. unfold all_gone in Hw.
    apply Forall_lookup_2. intros i k Hi. eapply Forall_lookup_1 in I; [|exact Hi].
    destruct I as (I1 & I2 & I3 & I4). split_and!; [done|by intros; apply I2| |done].
    intros _ Hwt. specialize (Hw Hwt). by eapply Forall_lookup_1 in Hw.
Qed.

Lemma step_keeps s s' : tick_step s s' -> tick_inv s -> tick_inv s'.
Proof.
  destruct 1 as [i k s Hi Ha|i k s Hi Hp Hpe|s Hs|s s' Ho]; intros I.
  - eapply inv_loop; [exact Hi| |done]. intros (I1 & I2 & I3 & I4). split_and!; cbn; [destruct (tk_pending k); lia|done..].
  - eapply inv_loop; [exact Hi| |done]. intros (I1 & I2 & I3 & I4). rewrite Hpe in I1. split_and!; cbn; [lia|done| |done].
    intros H1 H2. specialize (I3 H1 H2). congruence.
  - unfold tick_inv, closing in *. rewrite Hs in I. cbn [sy_loops sy_stop].
    destruct waits eqn:Hw; [eapply Forall_impl; [exact I|]|apply Forall_fmap; eapply Forall_impl; [exact I|]];
      intros k (I1 & I2 & I3 & I4); (split; [exact I1|]); split_and!; try done; congruence.
  - by eapply own_inv.
Qed.

Lemma started_inv n : tick_inv (started n).
Proof. apply Forall_replicate. by split_and!. Qed.

Lemma reached_inv n s : rtc tick_step (started n) s -> tick_inv s.
Proof.
  intros Hr. enough (forall a b, rtc tick_step a b -> tick_inv a -> tick_inv b) as H1 by exact (H1 _ _ Hr (started_inv n)).
  induction 1 as [|a b c Hab _ IH]; [done|]. intros Ha. by apply IH, (step_keeps a).
Qed.

(** ** After [Stop] *)

Lemma nothing_left s s' :
  waits = true -> sy_stop s = StopReturned -> tick_inv s -> tick_step s s' -> False.
Proof.
  intros Hw Hs I. assert (Hg : forall i k, sy_loops s !! i = Some k -> tk_phase k = TGone /\ tk_active k = false).
  { intros i k Hi. unfold tick_inv in I. eapply Forall_lookup_1 in I; [|exact Hi]. destruct I as (_ & _ & I3 & I4).
    split; [by apply I3|by apply I4, I3]. }
  destruct 1 as [i k s Hi Ha|i k s Hi Hp _|s Hn|s s' Ho]; [| |congruence|destruct Ho as [i k s Hi Hp|i k s Hi Hp _|s Hd _]];
    [destruct (Hg _ _ Hi); congruence..|congruence].
Qed.

(** What is still to come of a goroutine whose ticker is stopped. *)
Definition budget (k : ticking) : nat := tk_runs k + (if tk_pending k then 1 else 0).

Definition within (s s' : TickSystem) : Prop := sy_stop s' <> NotStopped /\
  forall i k', sy_loops s' !! i = Some k' -> exists k, sy_loops s !! i = Some k /\ tk_active k' = false /\ (budget k' <= budget k)%nat.

Lemma within_loop i k k' s s1 :
  within s s1 -> sy_loops s1 !! i = Some k -> tk_active k' = false -> (budget k' <= budget k)%nat ->
  within s (with_loop i k' s1).
Proof.
  intros [Hst Hw] Hi Ha Hb. split; [done|]. intros j k2. cbn. destruct (decide (i = j)) as [->|Hne].
  - rewrite list_lookup_insert_eq by (by eapply lookup_lt_Some). intros [= <-].
    destruct (Hw _ _ Hi) as (k0 & H0 & _ & Hb0). exists k0. split; [done|]. split; [done|]. lia.
  - rewrite list_lookup_insert_ne by done. apply Hw.
Qed.

Lemma within_step s s1 s2 : within s s1 -> tick_step s1 s2 -> within s s2.
Proof.
  intros Hw Hst. pose proof Hw as [Hs Hall]. destruct Hst as [i k s1 Hi Ha|i k s1 Hi Hp Hpe|s1 Hn|s1 s2 Ho]; [| |congruence|].
  - destruct (Hall _ _ Hi) as (_ & _ & Hna & _). congruence.
  - destruct (Hall _ _ Hi) as (_ & _ & Hna & _). eapply within_loop; [done..|]. unfold budget. cbn. rewrite Hpe. lia.
  - destruct Ho as [i k s1 Hi Hp|i k s1 Hi Hp _|s1 Hd _].
    + destruct (Hall _ _ Hi) as (_ & _ & Hna & _). by eapply within_loop.
    + by eapply within_loop.
    + split; [done|]. exact Hall.
Qed.

Lemma within_all s s' : within s s -> rtc tick_step s s' -> within s s'.
Proof.
  intros Hw Hr. enough (forall a b, rtc tick_step a b -> within s a -> within s b) as H1 by by eapply H1.
  induction 1 as [|a b c Hab _ IH]; [done|]. intros Ha. apply IH. by eapply within_step.
Qed.

(** ** [Stop] returns *)

Lemma loop_leaves i k s :
  sy_loops s !! i = Some k -> sy_stop s <> NotStopped ->
  exists k', rtc own_step s (with_loop i k' s) /\ tk_phase k' = TGone.
Proof.
  intros Hi Hs. destruct (tk_phase k) eqn:Hp.
  - exists (leave k). split; [|done]. apply rtc_once. by apply KLeave.
  - exists (leave (end_work k)). split; [|done]. eapply rtc_l; [by apply (KEnd i k)|].
    assert (with_loop i (leave (end_work k)) s = with_loop i (leave (end_work k)) (with_loop i (end_work k) s)) as ->
      by (unfold with_loop; cbn; by rewrite list_insert_insert_eq).
    apply rtc_once. apply KLeave; [|done|done]. cbn. apply list_lookup_insert_eq. by eapply lookup_lt_Some.
  - exists k. split; [|done]. unfold with_loop. rewrite list_insert_id by done. destruct s. apply rtc_refl.
Qed.

Lemma loops_leave s n :
  sy_stop s <> NotStopped -> (n <= length (sy_loops s))%nat ->
  exists s', rtc own_step s s' /\ sy_stop s' = sy_stop s /\ length (sy_loops s') = length (sy_loops s) /\
    forall i k, (i < n)%nat -> sy_loops s' !! i = Some k -> tk_phase k = TGone.
Proof.
  intros Hs. induction n as [|n IH]; intros Hn; [exists s; split_and!; [apply rtc_refl|done|done|lia]|].
  destruct IH as (s1 & R & Hst & Hlen & Hg); [lia|].
  destruct (lookup_lt_is_Some_2 (sy_loops s1) n) as [k Hk]; [lia|].
  destruct (loop_leaves n k s1 Hk) as (k' & R' & Hk'); [congruence|].
  exists (with_loop n k' s1). split_and!; [by etrans|done|cbn; by rewrite length_insert|].
  intros i k2 Hi. cbn. destruct (decide (i = n)) as [->|Hne].
  - rewrite list_lookup_insert_eq by (by eapply lookup_lt_Some). by intros [= <-].
  - rewrite list_lookup_insert_ne by done. apply Hg. lia.
Qed.

(** C17. Goroutines on tickers stop. In every interleaving, work is done at most
    once per tick. Once [Stop] has closed the channel, the server's own steps lead
    to the return of [Stop] with every goroutine gone. After [Stop] of the
    scheduler has returned nothing happens any more; after [Stop] of the idle
    checker a goroutine works at most once more, for a tick that was waiting. *)
Theorem tickers_stop n s :
  rtc tick_step (started n) s ->
  Forall (fun k => (tk_runs k <= tk_ticks k)%nat) (sy_loops s) /\
  (sy_stop s = DoneClosed -> exists s', rtc own_step s s' /\ sy_stop s' = StopReturned /\ all_gone s') /\
  (waits = true -> sy_stop s = StopReturned -> all_gone s /\ forall s', tick_step s s' -> False) /\
  (waits = false -> sy_stop s <> NotStopped -> forall s' i k', rtc tick_step s s' -> sy_loops s' !! i = Some k' ->
     exists k, sy_loops s !! i = Some k /\ (tk_runs k' <= tk_runs k + (if tk_pending k then 1 else 0))%nat).
Proof.
  intros Hr. pose proof (reached_inv n s Hr) as I. split_and!.
  - eapply Forall_impl; [exact I|]. intros k (I1 & _). destruct (tk_pending k); lia.
  - intros Hd. destruct (loops_leave s (length (sy_loops s))) as (s1 & R & Hst & Hlen & Hg); [congruence|lia|].
    assert (all_gone s1) as Hgone.
    { apply Forall_lookup_2. intros i k Hi. apply (Hg i k); [|done]. rewrite <- Hlen. by eapply lookup_lt_Some. }
    exists (mkTickSystem (sy_loops s1) StopReturned). split_and!; [|done|done].
    eapply rtc_r; [exact R|]. apply KReturn; [congruence|done].
  - intros Hw Hs. split; [|intros s'; by apply nothing_left]. eapply Forall_impl; [exact I|].
    intros k (_ & _ & I3 & _). by apply I3.
  - intros Hw Hs s' i k' Hrt Hi. destruct (within_all s s') as [_ Hall]; [|done|].
    + split; [done|]. intros j k Hj. exists k. split; [done|]. split; [|lia].
      unfold tick_inv in I. eapply Forall_lookup_1 in I; [|exact Hj]. by destruct I as (_ & I2 & _); apply I2.
    + destruct (Hall i k' Hi) as (k & Hk & _ & Hb). exists k. split; [done|]. unfold budget in Hb. lia.
Qed.
End Tickers.

(** Two jobs; one works while the scheduler is being stopped. *)
Definition one_working : TickSystem :=
  mkTickSystem [mkTicking TWorking true false 1 1; new_loop] DoneClosed.

Lemma one_working_reached : rtc (tick_step true) (started 2) one_working.
Proof.
  eapply rtc_l; [by apply (KTick true 0 new_loop)|]. eapply rtc_l; [by eapply (KBegin true 0)|].
  eapply rtc_l; [by apply KStop|]. apply rtc_refl.
Qed.

Lemma tickers_stop_witness :
  rtc (tick_step true) (started 2) one_working /\
  exists s', rtc (own_step true) one_working s' /\ sy_stop s' = StopReturned /\ all_gone s'.
Proof.
  split; [exact one_working_reached|].
  destruct (tickers_stop true 2 one_working one_working_reached) as (_ & Hstop & _). apply Hstop. reflexivity.
Defined.

(** The idle checker looks at the sessions after its [Stop] has returned. *)
Lemma idle_check_after_stop :
  exists s s', rtc (tick_step false) (started 1) s /\ sy_stop s = StopReturned /\ tick_step false s s' /\
    exists k, sy_loops s' = [k] /\ tk_phase k = TWorking.
Proof.
  set (k := mkTicking TSelect false true 1 0). set (s := mkTickSystem [k] StopReturned).
  exists s, (with_loop 0 (begin_work k) s).
  split; [|split; [done|split; [by apply KBegin|by eexists]]].
  eapply rtc_l; [by apply (KTick false 0 new_loop)|]. eapply rtc_l; [by apply KStop|].
  eapply rtc_l; [by apply KOwn, KReturn|]. apply rtc_refl.
Qed.
