(* ===== verification/Queue.v ===== *)
(** * The in-memory message queue (outbound/memory_queue.go, queue_errors.go)

    [Publish] starts one goroutine per subscriber of the topic; the handlers
    started are part of its answer here. [queue_delivers]: after any calls, a
    message goes to exactly the handlers subscribed to its topic since it was
    last unsubscribed, once per subscription and in order; after [Close] every
    call fails and nothing is started. *)

From Stdlib Require Import ZArith Lia.
From stdpp Require Import base list strings gmap option.
From S2P Require Import Prelude GoFmt LValue LExtract LParse LRoundtrip Smus Effects Ports.

Open Scope Z_scope.

Record QueueMessage := mkQueueMessage { qm_Topic : string; qm_Payload : bytes }.

(** Handlers are functions, told apart by an identity. *)
Definition subscriber : Type := nat.

(** The map is nil after [Close]. *)
Record MemoryQueue := mkQueue {
  q_subscribers : option (gmap string (list subscriber));
  q_closed : bool
}.

Definition NewMemoryQueue : MemoryQueue := mkQueue (Some ∅) false.

Definition subscribers_of (q : MemoryQueue) (topic : string) : list subscriber :=
  default [] (q_subscribers q ≫= (.!! topic)).

(** The error, and the handler calls started. *)
Definition q_Publish (q : MemoryQueue) (topic : string) (payload : bytes) :
    option error * list (subscriber * QueueMessage) :=
  if q_closed q then (Some ErrQueueClosed, [])
  else (None, (fun h => (h, mkQueueMessage topic payload)) <$> subscribers_of q topic).

Definition q_Subscribe (q : MemoryQueue) (topic : string) (h : subscriber) : outcome (option error * MemoryQueue) :=
  if q_closed q then Ret (Some ErrQueueClosed, q)
  else
    match q_subscribers q with
    | None => Panic
    | Some m => Ret (None, mkQueue (Some (<[topic := subscribers_of q topic ++ [h]]> m)) (q_closed q))
    end.

Definition q_Unsubscribe (q : MemoryQueue) (topic : string) : option error * MemoryQueue :=
  if q_closed q then (Some ErrQueueClosed, q)
  else (None, mkQueue (delete topic <$> q_subscribers q) (q_closed q)).

Definition q_Close (q : MemoryQueue) : MemoryQueue := mkQueue None true.

(** ** Histories *)

Inductive queue_call :=
| QPublish (topic : string) (payload : bytes)
| QSubscribe (topic : string) (h : subscriber)
| QUnsubscribe (topic : string)
| QClose.

Definition queue_step (q : MemoryQueue) (c : queue_call) : outcome (option error * list (subscriber * QueueMessage) * MemoryQueue) :=
  match c with
  | QPublish t p => let r := q_Publish q t p in Ret (r.1, r.2, q)
  | QSubscribe t h => match q_Subscribe q t h with Ret r => Ret (r.1, [], r.2) | Panic => Panic | OutOfFuel => OutOfFuel end
  | QUnsubscribe t => let r := q_Unsubscribe q t in Ret (r.1, [], r.2)
  | QClose => Ret (None, [], q_Close q)
  end.

Fixpoint queue_run (q : MemoryQueue) (cs : list queue_call) : outcome MemoryQueue :=
  match cs with
  | [] => Ret q
  | c :: cs => r ← queue_step q c; queue_run r.2 cs
  end.

(** What the calls so far amount to: closed or not, and who listens. *)
Definition was_closed (cs : list queue_call) : bool :=
  existsb (fun c => match c with QClose => true | _ => false end) cs.

Definition listening (topic : string) (cs : list queue_call) : list subscriber :=
  fold_left (fun hs c =>
    match c with
    | QSubscribe t h => if decide (t = topic) then hs ++ [h] else hs
    | QUnsubscribe t => if decide (t = topic) then [] else hs
    | _ => hs
    end) cs [].

Definition queue_tracks (q : MemoryQueue) (cs : list queue_call) : Prop :=
  q_closed q = was_closed cs /\
  (was_closed cs = false -> is_Some (q_subscribers q) /\ forall t, subscribers_of q t = listening t cs).

Lemma queue_step_tracks q cs c :
  queue_tracks q cs -> exists r, queue_step q c = Ret r /\ queue_tracks r.2 (cs ++ [c]).
Proof.
  intros [Hc Ho]. unfold queue_tracks, listening, was_closed. setoid_rewrite fold_left_app. rewrite existsb_app.
  fold (was_closed cs). cbn [existsb fold_left].
  assert (Hsame : c <> QClose -> was_closed cs = true -> q_closed q = true) by congruence.
  destruct c as [t p|t h|t|]; cbn [queue_step].
  - eexists. split; [done|]. cbn [snd]. rewrite orb_false_r. by split.
  - unfold q_Subscribe. rewrite Hc. destruct (was_closed cs) eqn:Hw.
    + eexists. split; [done|]. cbn. rewrite Hc. by split.
    + destruct (Ho eq_refl) as [[m Hm] Hl]. rewrite Hm. eexists. split; [done|]. cbn. split; [done|]. intros _.
      split; [by eexists|]. intros t'. unfold subscribers_of at 1. cbn. case_decide as Ht.
      * subst. rewrite lookup_insert_eq. cbn. f_equal. exact (Hl t').
      * rewrite lookup_insert_ne by done. etrans; [|exact (Hl t')]. unfold subscribers_of. by rewrite Hm.
  - unfold q_Unsubscribe. rewrite Hc. destruct (was_closed cs) eqn:Hw.
    + eexists. split; [done|]. cbn. rewrite Hc. by split.
    + destruct (Ho eq_refl) as [[m Hm] Hl]. eexists. split; [done|]. cbn. rewrite Hm. split; [done|]. intros _.
      split; [by eexists|]. intros t'. unfold subscribers_of. cbn. case_decide as Ht.
      * subst. by rewrite lookup_delete_eq.
      * rewrite lookup_delete_ne by done. etrans; [|exact (Hl t')]. unfold subscribers_of. by rewrite Hm.
  - eexists. split; [done|]. cbn. rewrite orb_true_r. by split.
Qed.

Lemma queue_run_tracks cs q pre :
  queue_tracks q pre -> exists q', queue_run q cs = Ret q' /\ queue_tracks q' (pre ++ cs).
Proof.
  revert q pre. induction cs as [|c cs IH]; intros q pre Hq; cbn [queue_run].
  - exists q. by rewrite app_nil_r.
  - destruct (queue_step_tracks q pre c Hq) as (r & -> & Hr). cbn [mbind outcome_bind].
    destruct (IH r.2 (pre ++ [c]) Hr) as (q' & -> & Hq'). exists q'. by rewrite <- (assoc_L (++)) in Hq'.
Qed.

(** After any sequence of calls on a new queue, none of which panics, a
    publication starts each handler that subscribed to the topic since it was
    last unsubscribed, once per subscription, in the order of subscription and
    with that message; once the queue has been closed it starts none and
    fails. *)
Theorem queue_delivers cs topic payload :
  exists q, queue_run NewMemoryQueue cs = Ret q /\
    q_Publish q topic payload =
      if was_closed cs then (Some ErrQueueClosed, [])
      else (None, (fun h => (h, mkQueueMessage topic payload)) <$> listening topic cs).
Proof.
  assert (H0 : queue_tracks NewMemoryQueue []).
  { split; [done|]. intros _. split; [by eexists|]. intros t. unfold subscribers_of. cbn. by rewrite lookup_empty. }
  destruct (queue_run_tracks cs NewMemoryQueue [] H0) as (q & Hr & Hc & Ho). exists q. split; [done|].
  unfold q_Publish. rewrite Hc. cbn [app] in *. destruct (was_closed cs); [done|]. destruct (Ho eq_refl) as [_ Hl].
  by rewrite Hl.
Qed.
