(* ===== verification/RedisQueue.v ===== *)
(** * The Redis message queue (outbound/redis_queue.go)

    A topic is a list on the server: [Publish] pushes a JSON record at its head,
    each subscription is a goroutine that pops from its tail. Any number of
    processes share the server; the system of their queue objects, publications
    and consumers is a transition system. A pop whose answer is lost, because the
    consumer was cancelled or the connection broke, takes the message with it.

    [redis_queue_fifo]: messages leave in the order they arrived, each one is
    handled at most once, by a subscriber of its topic, with the payload that
    was published; a consumer that finds itself cancelled takes no more.
    [second_subscriber_leaks]: what a second [Subscribe] does. *)

From Stdlib Require Import ZArith Lia.
From Stdlib Require Import Strings.Byte.
From stdpp Require Import base list strings gmap option relations sets.
From S2P Require Import Prelude GoFmt Utf8 Json LValue LExtract LParse LRoundtrip Smus Effects Ports Codec Queue.

Open Scope Z_scope.

(** ** Records (redisQueueMessage)

    A nil payload is written as [null] instead of an empty text; both decode to
    the empty payload. *)

Definition encode_message (payload : bytes) : bytes := print (JObj [(lit "payload", JStr (b64_encode payload))]).

Definition set_payload (p : bytes) (key : bytes) (j : json) : error + bytes :=
  if field_is "payload" key then match unmarshal_bytes j with inr b => inr b | inl e => inl e end else inr p.

Definition decode_message (data : bytes) : outcome (error + bytes) := Unmarshal data (unmarshal_struct [] set_payload).

(** ** The queue object of a process *)

(** [cancels]: the consumer a topic's cancel function belongs to. *)
Record RedisQueue := mkRedisQueue { rq_closed : bool; rq_cancels : gmap string nat }.

Definition NewRedisQueue : RedisQueue := mkRedisQueue false ∅.

(** The error, the object, and the consumers cancelled. *)
Definition rq_Subscribe (topic : string) (n : nat) (q : RedisQueue) : option error * RedisQueue :=
  if rq_closed q then (Some ErrQueueClosed, q)
  else (None, mkRedisQueue false (<[topic := n]> (rq_cancels q))).

Definition rq_Unsubscribe (topic : string) (q : RedisQueue) : option error * RedisQueue * list nat :=
  if rq_closed q then (Some ErrQueueClosed, q, [])
  else (None, mkRedisQueue false (delete topic (rq_cancels q)), option_list (rq_cancels q !! topic)).

Definition rq_Close (q : RedisQueue) : RedisQueue * list nat :=
  (mkRedisQueue true ∅, (map_to_list (rq_cancels q)).*2).

(** ** The system *)

(** A consumer at the top of its loop, inside [BRPOP], with a popped record (the
    [i]-th that arrived under its key), or gone. *)
Inductive cphase := CTop | CBlocked | CGot (i : nat) (data : bytes) | CExited.

Record consumer := mkConsumer {
  c_topic : string;
  c_handler : subscriber;
  c_cancelled : bool;
  c_phase : cphase
}.

Record delivery := mkDelivery { d_consumer : nat; d_index : nat; d_msg : QueueMessage }.

(** [qs_arrived] and [qs_taken] record what arrived under a key, in order, and
    how many of them were popped. *)
Record QSystem := mkQSystem {
  qs_lists : gmap string (list bytes);
  qs_queues : gmap nat RedisQueue;
  qs_consumers : gmap nat consumer;
  qs_pending : list (string * bytes);
  qs_arrived : gmap string (list bytes);
  qs_taken : gmap string nat;
  qs_delivered : list delivery
}.

Definition list_at (s : QSystem) (key : string) : list bytes := default [] (qs_lists s !! key).
Definition arrived (s : QSystem) (key : string) : list bytes := default [] (qs_arrived s !! key).
Definition taken (s : QSystem) (key : string) : nat := default 0%nat (qs_taken s !! key).
Definition queue_of (s : QSystem) (p : nat) : RedisQueue := default NewRedisQueue (qs_queues s !! p).

Definition cancel (c : consumer) : consumer := mkConsumer (c_topic c) (c_handler c) true (c_phase c).
Definition in_phase (c : consumer) (ph : cphase) : consumer := mkConsumer (c_topic c) (c_handler c) (c_cancelled c) ph.

Definition cancel_all (ns : list nat) (cs : gmap nat consumer) : gmap nat consumer :=
  foldr (alter cancel) cs ns.

Section Steps.
Context (keyPrefix : string).

Definition topicKey (topic : string) : string := keyPrefix +:+ ":" +:+ topic.

Definition with_queue (s : QSystem) (p : nat) (q : RedisQueue) (cs : gmap nat consumer) : QSystem :=
  mkQSystem (qs_lists s) (<[p := q]> (qs_queues s)) cs (qs_pending s) (qs_arrived s) (qs_taken s) (qs_delivered s).

Definition with_pending (s : QSystem) (l : list (string * bytes)) : QSystem :=
  mkQSystem (qs_lists s) (qs_queues s) (qs_consumers s) l (qs_arrived s) (qs_taken s) (qs_delivered s).

(** [LPUSH] *)
Definition push (s : QSystem) (topic : string) (payload : bytes) : QSystem :=
  let key := topicKey topic in
  mkQSystem (<[key := encode_message payload :: list_at s key]> (qs_lists s)) (qs_queues s) (qs_consumers s) (qs_pending s)
    (<[key := arrived s key ++ [payload]]> (qs_arrived s)) (qs_taken s) (qs_delivered s).

Definition with_consumer (s : QSystem) (n : nat) (c : consumer) : QSystem :=
  mkQSystem (qs_lists s) (qs_queues s) (<[n := c]> (qs_consumers s)) (qs_pending s) (qs_arrived s) (qs_taken s) (qs_delivered s).

(** [BRPOP] takes the last element of the list. *)
Definition pop (s : QSystem) (key : string) (rest : list bytes) : QSystem :=
  mkQSystem (<[key := rest]> (qs_lists s)) (qs_queues s) (qs_consumers s) (qs_pending s) (qs_arrived s)
    (<[key := S (taken s key)]> (qs_taken s)) (qs_delivered s).

Definition deliver (s : QSystem) (d : delivery) : QSystem :=
  mkQSystem (qs_lists s) (qs_queues s) (qs_consumers s) (qs_pending s) (qs_arrived s) (qs_taken s) (qs_delivered s ++ [d]).

Inductive qstep : QSystem -> QSystem -> Prop :=
(** [Publish]: the check under the mutex, and later the push, which may fail *)
| QCheck s p topic payload :
    rq_closed (queue_of s p) = false -> qstep s (with_pending s ((topic, payload) :: qs_pending s))
| QPush s l1 topic payload l2 :
    qs_pending s = l1 ++ (topic, payload) :: l2 -> qstep s (push (with_pending s (l1 ++ l2)) topic payload)
(** the reply of a push is lost, and the client library pushes again *)
| QPushAgain s l1 topic payload l2 :
    qs_pending s = l1 ++ (topic, payload) :: l2 -> qstep s (push s topic payload)
| QPushFailed s l1 m l2 :
    qs_pending s = l1 ++ m :: l2 -> qstep s (with_pending s (l1 ++ l2))
(** [Subscribe] starts a consumer *)
| QSubscribed s p topic h n q :
    qs_consumers s !! n = None -> rq_Subscribe topic n (queue_of s p) = (None, q) ->
    qstep s (with_queue s p q (<[n := mkConsumer topic h false CTop]> (qs_consumers s)))
| QUnsubscribed s p topic q ns :
    rq_Unsubscribe topic (queue_of s p) = (None, q, ns) ->
    qstep s (with_queue s p q (cancel_all ns (qs_consumers s)))
| QClosed s p :
    qstep s (with_queue s p (rq_Close (queue_of s p)).1 (cancel_all (rq_Close (queue_of s p)).2 (qs_consumers s)))
(** the loop of a consumer *)
| QExit s n c :
    qs_consumers s !! n = Some c -> c_phase c = CTop -> c_cancelled c = true ->
    qstep s (with_consumer s n (in_phase c CExited))
| QWait s n c :
    qs_consumers s !! n = Some c -> c_phase c = CTop -> c_cancelled c = false ->
    qstep s (with_consumer s n (in_phase c CBlocked))
| QPop s n c rest data :
    qs_consumers s !! n = Some c -> c_phase c = CBlocked -> list_at s (topicKey (c_topic c)) = rest ++ [data] ->
    qstep s (pop (with_consumer s n (in_phase c (CGot (taken s (topicKey (c_topic c))) data))) (topicKey (c_topic c)) rest)
(** the answer is lost: the context was cancelled, or the connection failed *)
| QPopLost s n c rest data :
    qs_consumers s !! n = Some c -> c_phase c = CBlocked -> list_at s (topicKey (c_topic c)) = rest ++ [data] ->
    qstep s (pop (with_consumer s n (in_phase c (if c_cancelled c then CExited else CTop))) (topicKey (c_topic c)) rest)
(** a timeout or an error without a pop *)
| QRetry s n c :
    qs_consumers s !! n = Some c -> c_phase c = CBlocked ->
    qstep s (with_consumer s n (in_phase c (if c_cancelled c then CExited else CTop)))
(** the record is decoded and the handler called *)
| QHandle s n c i data payload :
    qs_consumers s !! n = Some c -> c_phase c = CGot i data -> decode_message data = Ret (inr payload) ->
    qstep s (deliver (with_consumer s n (in_phase c CTop)) (mkDelivery n i (mkQueueMessage (c_topic c) payload)))
| QMalformed s n c i data err :
    qs_consumers s !! n = Some c -> c_phase c = CGot i data -> decode_message data = Ret (inl err) ->
    qstep s (with_consumer s n (in_phase c CTop)).
End Steps.

Definition queue_start : QSystem := mkQSystem ∅ ∅ ∅ [] ∅ ∅ [].

(** ** Records come back *)

Lemma decode_encode payload : decode_message (encode_message payload) = Ret (inr payload).
Proof.
  unfold decode_message, encode_message, Unmarshal. rewrite parse_print by (cbn; done).
  cbn [mbind outcome_bind norm map fst snd]. rewrite coerce_b64. change (coerce (lit "payload")) with (lit "payload").
  unfold unmarshal_struct. cbn [fold_left fst snd]. unfold set_payload. change (field_is "payload" (lit "payload")) with true.
  cbn [unmarshal_bytes]. by rewrite b64_roundtrip.
Qed.

(** ** The invariant *)

Section Invariant.
Context (keyPrefix : string).
Abbreviation key := (topicKey keyPrefix).

#[local] Instance topicKey_inj : Inj (=) (=) key.
Proof.
  intros t t' H. unfold topicKey in H. apply (inj (String.append keyPrefix)) in H. by injection H.
Qed.

(** Consumer [n] of topic [t] has the [i]-th record in hand. *)
Definition holds (s : QSystem) (n : nat) (t : string) (i : nat) (data : bytes) : Prop :=
  exists c, qs_consumers s !! n = Some c /\ c_topic c = t /\ c_phase c = CGot i data.

Definition known (s : QSystem) (n : nat) (t : string) (h : subscriber) : Prop :=
  exists c, qs_consumers s !! n = Some c /\ c_topic c = t /\ c_handler c = h.

Definition slot (d : delivery) : string * nat := (qm_Topic (d_msg d), d_index d).

(** What waits on the server is what arrived and was not taken. *)
Definition in_order (s : QSystem) : Prop := forall t,
  (taken s (key t) <= length (arrived s (key t)))%nat /\
  encode_message <$> drop (taken s (key t)) (arrived s (key t)) = rev (list_at s (key t)).

Definition in_hand (s : QSystem) : Prop := forall n t i data,
  holds s n t i data ->
  (i < taken s (key t))%nat /\ (exists p, arrived s (key t) !! i = Some p /\ data = encode_message p) /\
  (t, i) ∉ slot <$> qs_delivered s /\ forall n' data', holds s n' t i data' -> n' = n.

Definition handed_over (s : QSystem) : Prop :=
  NoDup (slot <$> qs_delivered s) /\
  forall d, d ∈ qs_delivered s ->
    (exists h, known s (d_consumer d) (qm_Topic (d_msg d)) h) /\ (d_index d < taken s (key (qm_Topic (d_msg d))))%nat /\
    arrived s (key (qm_Topic (d_msg d))) !! d_index d = Some (qm_Payload (d_msg d)).

Definition queue_inv (s : QSystem) : Prop := in_order s /\ in_hand s /\ handed_over s.

Lemma queue_start_inv : queue_inv queue_start.
Proof.
  split_and!.
  - intros t. unfold taken, arrived, list_at. cbn. rewrite !lookup_empty. cbn. split; [lia|done].
  - intros n t i data (c & Hc & _). cbn in Hc. by rewrite lookup_empty in Hc.
  - split; [constructor|]. by intros d ?%not_elem_of_nil.
Qed.

(** A step that only moves consumers around. *)
Lemma inv_consumers s s' :
  qs_lists s' = qs_lists s -> qs_arrived s' = qs_arrived s -> qs_taken s' = qs_taken s -> qs_delivered s' = qs_delivered s ->
  (forall n t i data, holds s' n t i data -> holds s n t i data) ->
  (forall n t h, known s n t h -> known s' n t h) ->
  queue_inv s -> queue_inv s'.
Proof.
  intros El Ea Et Ed Hh Hk (H1 & H2 & H3). unfold queue_inv, in_order, in_hand, handed_over, list_at, arrived, taken in *.
  rewrite El, Ea, Et, Ed. split_and!; [done| |apply H3|].
  - intros n t i data Hn. destruct (H2 n t i data (Hh _ _ _ _ Hn)) as (Hi & Hp & Hd & Hu). split_and!; [done..|].
    intros n' data' Hn'. eapply Hu, Hh, Hn'.
  - intros d Hd. destruct (proj2 H3 d Hd) as ((h & Hn) & Hr). split; [exists h; by apply Hk|done].
Qed.

Lemma holds_update s n c c' n' t i data :
  qs_consumers s !! n = Some c -> c_topic c' = c_topic c ->
  holds (with_consumer s n c') n' t i data ->
  (n' <> n /\ holds s n' t i data) \/ (n' = n /\ t = c_topic c /\ c_phase c' = CGot i data).
Proof.
  intros Hn Ht (x & Hx & Hxt & Hxp). cbn in Hx. destruct (decide (n' = n)) as [->|Hne].
  - rewrite lookup_insert_eq in Hx. injection Hx as <-. right. by rewrite <- Hxt.
  - rewrite lookup_insert_ne in Hx by done. left. split; [done|]. by exists x.
Qed.

Lemma known_update s n c c' n' t h :
  qs_consumers s !! n = Some c -> c_topic c' = c_topic c -> c_handler c' = c_handler c ->
  known s n' t h -> known (with_consumer s n c') n' t h.
Proof.
  intros Hn Ht Hh (x & Hx & Hxt & Hxh). unfold known. cbn. destruct (decide (n' = n)) as [->|Hne].
  - exists c'. rewrite lookup_insert_eq. split; [done|]. assert (x = c) by congruence. subst. by rewrite Ht, Hh.
  - exists x. by rewrite lookup_insert_ne.
Qed.

(** The consumer [n] goes on to a phase without a record. *)
Lemma inv_phase s n c ph :
  qs_consumers s !! n = Some c -> (forall i data, ph <> CGot i data) ->
  queue_inv s -> queue_inv (with_consumer s n (in_phase c ph)).
Proof.
  intros Hn Hph. apply inv_consumers; try done.
  - intros n' t i data H. destruct (holds_update s n c (in_phase c ph) n' t i data Hn eq_refl H) as [[_ ?]|(_ & _ & E)]; [done|].
    by apply Hph in E.
  - intros n' t h H. by apply (known_update s n c).
Qed.

Lemma cancel_all_lookup ns cs n :
  cancel_all ns cs !! n = (if bool_decide (n ∈ ns) then cancel <$> cs !! n else cs !! n) \/
  exists c, cs !! n = Some c /\ cancel_all ns cs !! n = Some (cancel c).
Proof.
  induction ns as [|m ns IH]; cbn [cancel_all foldr]; [by left|]. fold (cancel_all ns cs).
  destruct (decide (n = m)) as [->|Hne].
  - rewrite lookup_alter_eq. destruct IH as [E|(c & Hc & E)].
    + rewrite E. destruct (cs !! m) as [c|] eqn:Hc; [right|left; by repeat case_match].
      exists c. split; [done|]. by case_match.
    + rewrite E. right. exists c. by split.
  - rewrite lookup_alter_ne by done. destruct IH as [E|IH]; [|by right]. left. rewrite E.
    assert (bool_decide (n ∈ m :: ns) = bool_decide (n ∈ ns)) as -> by (apply bool_decide_ext; set_solver). done.
Qed.

(** Cancelling leaves topics, handlers and phases alone. *)
Lemma cancel_all_same ns cs n :
  match cancel_all ns cs !! n, cs !! n with
  | Some c', Some c => c_topic c' = c_topic c /\ c_handler c' = c_handler c /\ c_phase c' = c_phase c
  | None, None => True
  | _, _ => False
  end.
Proof.
  destruct (cancel_all_lookup ns cs n) as [->|(c & -> & ->)]; [|done].
  destruct (bool_decide (n ∈ ns)), (cs !! n); done.
Qed.

Lemma inv_cancel s p q ns : queue_inv s -> queue_inv (with_queue s p q (cancel_all ns (qs_consumers s))).
Proof.
  apply inv_consumers; try done.
  - intros n t i data (c & Hc & Ht & Hp). cbn in Hc. pose proof (cancel_all_same ns (qs_consumers s) n) as H. rewrite Hc in H.
    destruct (qs_consumers s !! n) as [c0|] eqn:E; [|done]. exists c0. destruct H as (H1 & H2 & H3).
    split; [done|]. by rewrite <- H1, <- H3.
  - intros n t h (c & Hc & Ht & Hh). pose proof (cancel_all_same ns (qs_consumers s) n) as H. rewrite Hc in H.
    unfold known. cbn. destruct (cancel_all ns (qs_consumers s) !! n) as [c'|]; [|done]. exists c'.
    destruct H as (H1 & H2 & H3). split; [done|]. by rewrite H1, H2.
Qed.

Lemma key_other t t' : t' <> t -> key t' <> key t.
Proof. intros Hne E. by apply Hne, (inj key). Qed.

Lemma inv_push s topic payload : queue_inv s -> queue_inv (push keyPrefix s topic payload).
Proof.
  intros (H1 & H2 & H3).
  assert (Ha : forall t, arrived (push keyPrefix s topic payload) (key t) = if decide (t = topic) then arrived s (key t) ++ [payload] else arrived s (key t)).
  { intros t. unfold arrived at 1, push. cbn. case_decide as E; [subst; by rewrite lookup_insert_eq|].
    by rewrite lookup_insert_ne by (by apply key_other). }
  assert (Hgrow : forall t i p, arrived s (key t) !! i = Some p -> arrived (push keyPrefix s topic payload) (key t) !! i = Some p).
  { intros t i p Hp. rewrite Ha. case_decide; [|done]. by apply lookup_app_l_Some. }
  split_and!.
  - intros t. destruct (H1 t) as [Hle Heq]. change (taken (push keyPrefix s topic payload) (key t)) with (taken s (key t)).
    rewrite Ha. unfold list_at, push. cbn. case_decide as E.
    + subst t. rewrite lookup_insert_eq. cbn. fold (list_at s (key topic)). rewrite length_app. split; [lia|].
      rewrite drop_app_le by done. by rewrite fmap_app, Heq.
    + rewrite lookup_insert_ne by (by apply key_other). by split.
  - intros n t i data Hh. destruct (H2 n t i data Hh) as (Hi & (p & Hp & Hd) & Hn & Hu). split_and!; [done| |done|done].
    exists p. split; [by apply Hgrow|done].
  - split; [apply H3|]. intros d Hd. destruct (proj2 H3 d Hd) as (Hk & Hi & Hp). split_and!; [done|done|by apply Hgrow].
Qed.

Lemma taken_pop s t rest t' : taken (pop s (key t) rest) (key t') = if decide (t' = t) then S (taken s (key t)) else taken s (key t').
Proof.
  unfold taken at 1, pop. cbn. case_decide as E; [subst; by rewrite lookup_insert_eq|].
  by rewrite lookup_insert_ne by (by apply key_other).
Qed.

(** The record that is popped is the oldest that was not taken. *)
Lemma popped_record s t rest data :
  in_order s -> list_at s (key t) = rest ++ [data] ->
  exists p, arrived s (key t) !! taken s (key t) = Some p /\ data = encode_message p /\
    encode_message <$> drop (S (taken s (key t))) (arrived s (key t)) = rev rest.
Proof.
  intros H1 Hl. destruct (H1 t) as [Hle Heq]. rewrite Hl, rev_app_distr in Heq. cbn [rev app] in Heq.
  destruct (drop (taken s (key t)) (arrived s (key t))) as [|p l] eqn:Ed; [done|]. injection Heq as Hd Hr.
  exists p. split_and!; [|done|].
  - rewrite <- (Nat.add_0_r (taken s (key t))), <- lookup_drop, Ed. done.
  - rewrite <- Hr. f_equal. replace (S (taken s (key t))) with (taken s (key t) + 1)%nat by lia. by rewrite <- drop_drop, Ed.
Qed.

Lemma inv_pop s t rest data :
  list_at s (key t) = rest ++ [data] -> queue_inv s -> queue_inv (pop s (key t) rest).
Proof.
  intros Hl (H1 & H2 & H3). destruct (popped_record s t rest data H1 Hl) as (p & Hp & _ & Hr).
  assert (Hmono : forall t' i, (i < taken s (key t') -> i < taken (pop s (key t) rest) (key t'))%nat).
  { intros t' i. rewrite taken_pop. case_decide; [subst; lia|done]. }
  split_and!.
  - intros t'. rewrite taken_pop. change (arrived (pop s (key t) rest) (key t')) with (arrived s (key t')).
    unfold list_at, pop. cbn. case_decide as E.
    + subst t'. rewrite lookup_insert_eq. cbn. split; [|done]. apply lookup_lt_Some in Hp. lia.
    + rewrite lookup_insert_ne by (by apply key_other). apply H1.
  - intros n t' i d Hh. destruct (H2 n t' i d Hh) as (Hi & Hd & Hn & Hu). split_and!; [by apply Hmono|done|done|done].
  - split; [apply H3|]. intros d Hd. destruct (proj2 H3 d Hd) as (Hk & Hi & Hp'). split_and!; [done|by apply Hmono|done].
Qed.

(** The consumer that popped has the record in hand. *)
Lemma inv_got s n c rest data :
  qs_consumers s !! n = Some c -> c_phase c = CBlocked -> list_at s (key (c_topic c)) = rest ++ [data] ->
  queue_inv s ->
  queue_inv (pop (with_consumer s n (in_phase c (CGot (taken s (key (c_topic c))) data))) (key (c_topic c)) rest).
Proof.
  intros Hn Hb Hl Hi. set (t := c_topic c) in *. set (i := taken s (key t)) in *.
  destruct (popped_record s t rest data (proj1 Hi) Hl) as (p & Hp & Hd & _).
  destruct (inv_pop s t rest data Hl Hi) as (P1 & P2 & P3). set (c' := in_phase c (CGot i data)) in *.
  assert (Hu : forall n' t' i' d', holds (with_consumer s n c') n' t' i' d' ->
            (n' <> n /\ holds s n' t' i' d') \/ (n' = n /\ t' = t /\ i' = i /\ d' = data)).
  { intros n' t' i' d' Hh. destruct (holds_update s n c c' n' t' i' d' Hn eq_refl Hh) as [?|(? & ? & E)]; [by left|].
    right. injection E as <- <-. done. }
  assert (Hfresh : forall n' d', ~ holds s n' t i d').
  { intros n' d' Hh. destruct (proj1 (proj2 Hi) n' t i d' Hh) as [Hlt _]. unfold i in Hlt. lia. }
  split_and!; [exact P1| |].
  - intros n' t' i' d' Hh. destruct (Hu n' t' i' d' Hh) as [[Hne Hh']|(-> & -> & -> & ->)].
    + destruct (P2 n' t' i' d' Hh') as (Q1 & Q2 & Q3 & Q4). split_and!; [exact Q1|exact Q2|exact Q3|].
      intros n2 d2 Hh2. destruct (Hu n2 t' i' d2 Hh2) as [[_ ?]|(-> & -> & -> & ->)]; [by eapply Q4|].
      by apply Hfresh in Hh'.
    + split_and!.
      * pose proof (taken_pop s t rest t) as Et. rewrite decide_True in Et by done.
        change (taken (pop (with_consumer s n c') (key t) rest) (key t)) with (taken (pop s (key t) rest) (key t)).
        rewrite Et. fold i. lia.
      * by exists p.
      * intros Hin. apply list_elem_of_fmap in Hin as (d & Ed & Hd'). unfold slot in Ed. injection Ed as Et Ei.
        destruct (proj2 (proj2 (proj2 Hi)) d Hd') as (_ & Hlt & _). rewrite <- Et, <- Ei in Hlt. unfold i in Hlt. lia.
      * intros n2 d2 Hh2. destruct (Hu n2 t i d2 Hh2) as [[_ Hf]|(-> & _)]; [by apply Hfresh in Hf|done].
  - split; [apply P3|]. intros d Hd'. destruct (proj2 P3 d Hd') as ((h & Hk) & Hr). split; [|exact Hr]. exists h.
    by apply (known_update s n c).
Qed.

Lemma inv_deliver s n c i data payload :
  qs_consumers s !! n = Some c -> c_phase c = CGot i data -> decode_message data = Ret (inr payload) ->
  queue_inv s ->
  queue_inv (deliver (with_consumer s n (in_phase c CTop)) (mkDelivery n i (mkQueueMessage (c_topic c) payload))).
Proof.
  intros Hn Hp Hd Hi. assert (Hh : holds s n (c_topic c) i data) by (by exists c).
  destruct (proj1 (proj2 Hi) n _ i data Hh) as (Hlt & (p & Hap & ->) & Hnd & Hu).
  rewrite decode_encode in Hd. injection Hd as ->.
  assert (Hs := inv_phase s n c CTop Hn ltac:(done) Hi). destruct Hs as (P1 & P2 & P3). set (s' := with_consumer s n _) in *.
  split_and!; [exact P1| |].
  - intros n' t' i' d' Hh'. change (holds s' n' t' i' d') in Hh'. destruct (P2 n' t' i' d' Hh') as (Q1 & Q2 & Q3 & Q4).
    split_and!; [exact Q1|exact Q2| |exact Q4]. cbn. rewrite fmap_app, elem_of_app. intros [Hin|Hin]; [by apply Q3|].
    cbn in Hin. apply list_elem_of_singleton in Hin. unfold slot in Hin. cbn in Hin. injection Hin as -> ->.
    destruct (holds_update s n c (in_phase c CTop) n' (c_topic c) i d' Hn eq_refl Hh') as [[Hne Ho]|(_ & _ & [=])].
    by apply Hne, (Hu n' d').
  - split.
    + cbn. rewrite fmap_app. apply NoDup_app. split_and!; [apply P3| |apply NoDup_singleton].
      intros x Hx Hx'. cbn in Hx'. apply list_elem_of_singleton in Hx'. subst x. by apply Hnd.
    + intros d Hd. cbn in Hd. apply elem_of_app in Hd as [Hd|Hd].
      * destruct (proj2 P3 d Hd) as (Hk & Hr). by split.
      * apply list_elem_of_singleton in Hd as ->. cbn. split_and!; [|exact Hlt|exact Hap].
        exists (c_handler c). exists (in_phase c CTop). cbn. by rewrite lookup_insert_eq.
Qed.

Lemma qstep_inv s s' : queue_inv s -> qstep keyPrefix s s' -> queue_inv s'.
Proof.
  intros Hi Hs. destruct Hs as [s p t x|s l1 t x l2 Hp|s l1 t x l2 Hp|s l1 m l2 Hp|s p t h n q Hn Hq|s p t q ns Hq|s p|s n c Hn Hph Hc
    |s n c Hn Hph Hc|s n c rest data Hn Hph Hl|s n c rest data Hn Hph Hl|s n c Hn Hph|s n c i data x Hn Hph Hd|s n c i data err Hn Hph Hd].
  - by apply (inv_consumers s).
  - apply inv_push. by apply (inv_consumers s).
  - by apply inv_push.
  - by apply (inv_consumers s).
  - apply (inv_consumers s); try done.
    + intros n' t' i d (c & Hc & Ht & Hp). cbn in Hc. destruct (decide (n' = n)) as [->|Hne].
      * rewrite lookup_insert_eq in Hc. injection Hc as <-. done.
      * rewrite lookup_insert_ne in Hc by done. by exists c.
    + intros n' t' h' (c & Hc & Ht & Hh). exists c. cbn. rewrite lookup_insert_ne; [done|]. intros ->. by rewrite Hn in Hc.
  - by apply inv_cancel.
  - by apply inv_cancel.
  - by apply inv_phase.
  - by apply inv_phase.
  - by apply inv_got.
  - apply (inv_pop _ _ _ data); [done|]. apply inv_phase; [done|by destruct (c_cancelled c)|done].
  - apply inv_phase; [done|by destruct (c_cancelled c)|done].
  - by apply (inv_deliver s n c i data).
  - by apply inv_phase.
Qed.
End Invariant.

(** ** Cancelled consumers *)

Definition stopped (s : QSystem) (n : nat) : Prop :=
  exists c, qs_consumers s !! n = Some c /\ c_cancelled c = true /\ (c_phase c = CTop \/ c_phase c = CExited).

Definition handled_by (n : nat) (s : QSystem) : list delivery := filter (fun d => d_consumer d = n) (qs_delivered s).

Lemma stopped_with s n m c :
  stopped s n -> (n = m -> c_cancelled c = true /\ (c_phase c = CTop \/ c_phase c = CExited)) -> stopped (with_consumer s m c) n.
Proof.
  intros (x & Hx & Hs) Hm. unfold stopped. cbn. destruct (decide (n = m)) as [->|Hne].
  - exists c. rewrite lookup_insert_eq. split; [done|]. by apply Hm.
  - exists x. by rewrite lookup_insert_ne.
Qed.

Lemma stopped_cancel s n p q ns : stopped s n -> stopped (with_queue s p q (cancel_all ns (qs_consumers s))) n.
Proof.
  intros (x & Hx & Hc & Hp). unfold stopped. cbn. destruct (cancel_all_lookup ns (qs_consumers s) n) as [->|(c & Hc' & ->)].
  - rewrite Hx. destruct (bool_decide (n ∈ ns)); [exists (cancel x)|exists x]; by split_and!.
  - exists (cancel c). assert (c = x) by congruence. subst. by split_and!.
Qed.

Lemma stopped_step k s s' n : stopped s n -> qstep k s s' -> stopped s' n /\ handled_by n s' = handled_by n s.
Proof.
  intros Hst Hs. destruct Hst as (x & Hx & Hxc & Hxp).
  assert (Hst : forall s, qs_consumers s !! n = Some x -> stopped s n) by (intros s0 H0; by exists x).
  assert (Hphase : forall s m c ph, qs_consumers s !! n = Some x -> qs_consumers s !! m = Some c ->
            (c_cancelled c = true -> ph = CTop \/ ph = CExited) -> stopped (with_consumer s m (in_phase c ph)) n).
  { intros s0 m c ph H0 Hm Hph. apply stopped_with; [by apply Hst|]. intros ->. assert (c = x) by congruence. subst. cbn. auto. }
  assert (Hnot : forall s m c, qs_consumers s !! n = Some x -> qs_consumers s !! m = Some c ->
            (c_phase c = CBlocked \/ exists i d, c_phase c = CGot i d) -> n <> m).
  { intros s0 m c H0 Hm Hc ->. assert (c = x) by congruence. subst. destruct Hxp as [E|E], Hc as [E'|(? & ? & E')]; congruence. }
  destruct Hs as [s p t y|s l1 t y l2 Hp|s l1 t y l2 Hp|s l1 m l2 Hp|s p t h m q Hn Hq|s p t q ns Hq|s p|s m c Hn Hph Hc
    |s m c Hn Hph Hc|s m c rest data Hn Hph Hl|s m c rest data Hn Hph Hl|s m c Hn Hph|s m c i data y Hn Hph Hd|s m c i data err Hn Hph Hd].
  - split; [by apply Hst|done].
  - split; [by apply Hst|done].
  - split; [by apply Hst|done].
  - split; [by apply Hst|done].
  - split; [|done]. apply Hst. cbn. rewrite lookup_insert_ne; [done|]. intros ->. congruence.
  - split; [|done]. apply stopped_cancel. by apply Hst.
  - split; [|done]. apply stopped_cancel. by apply Hst.
  - split; [|done]. apply Hphase; auto.
  - split; [|done]. apply Hphase; [done..|]. intros E. congruence.
  - split; [|done]. assert (n <> m) by (apply (Hnot s m c); auto). apply Hst. cbn. by rewrite lookup_insert_ne.
  - split; [|done]. assert (n <> m) by (apply (Hnot s m c); auto). apply Hst. cbn. by rewrite lookup_insert_ne.
  - split; [|done]. assert (n <> m) by (apply (Hnot s m c); auto). apply Hst. cbn. by rewrite lookup_insert_ne.
  - assert (n <> m) by (apply (Hnot s m c); eauto). split; [apply Hst; cbn; by rewrite lookup_insert_ne|].
    unfold handled_by. cbn. rewrite filter_app, filter_cons_False by (cbn; congruence). by rewrite filter_nil, app_nil_r.
  - split; [|done]. assert (n <> m) by (apply (Hnot s m c); eauto). apply Hst. cbn. by rewrite lookup_insert_ne.
Qed.

Lemma stopped_forever k s s' n : rtc (qstep k) s s' -> stopped s n -> handled_by n s' = handled_by n s.
Proof.
  induction 1 as [|s1 s2 s3 H12 _ IH]; [done|]. intros Hs. destruct (stopped_step k s1 s2 n Hs H12) as [Hs2 E].
  by rewrite (IH Hs2).
Qed.

Lemma reachable_queue_inv k s : rtc (qstep k) queue_start s -> queue_inv k s.
Proof.
  intros Hr. pose proof (queue_start_inv k) as Hi. revert Hi.
  induction Hr as [|s1 s2 s3 H12 _ IH]; [done|]. intros Hi. apply IH. by eapply qstep_inv.
Qed.

(** C24. The Redis queue is first in, first out, and at most once. In every state
    of any number of processes, whatever calls fail and whatever answers get
    lost: what waits under a topic is exactly what arrived and was not popped, in
    order; no arrival was handled twice (a publication whose push is repeated by
    the client library, the reply being lost, arrives again); every message handled was published to
    that topic with that payload, and its consumer subscribed to that topic. And
    a consumer that finds its subscription cancelled at the top of its loop never
    handles another message. *)
Theorem redis_queue_fifo (keyPrefix : string) s :
  rtc (qstep keyPrefix) queue_start s ->
  (forall topic, exists waiting,
     arrived s (topicKey keyPrefix topic) = take (taken s (topicKey keyPrefix topic)) (arrived s (topicKey keyPrefix topic)) ++ waiting /\
     list_at s (topicKey keyPrefix topic) = rev (encode_message <$> waiting)) /\
  NoDup (slot <$> qs_delivered s) /\
  (forall d, d ∈ qs_delivered s ->
     arrived s (topicKey keyPrefix (qm_Topic (d_msg d))) !! d_index d = Some (qm_Payload (d_msg d)) /\
     exists h, known s (d_consumer d) (qm_Topic (d_msg d)) h) /\
  (forall n c s', qs_consumers s !! n = Some c -> c_cancelled c = true -> c_phase c = CTop ->
     rtc (qstep keyPrefix) s s' -> handled_by n s' = handled_by n s).
Proof.
  intros Hr. destruct (reachable_queue_inv keyPrefix s Hr) as (H1 & _ & H3 & H3'). split_and!; [|done| |].
  - intros topic. destruct (H1 topic) as [_ Heq]. eexists. split; [by rewrite take_drop|]. by rewrite Heq, rev_involutive.
  - intros d Hd. destruct (H3' d Hd) as (Hk & _ & Hp). by split.
  - intros n c s' Hn Hc Hp Hs. apply (stopped_forever keyPrefix s s' n Hs). exists c. auto.
Qed.

(** ** Two subscriptions to a topic *)

(** One process: two handlers for a topic, a message, then [Close]. *)
Definition after_close : QSystem :=
  mkQSystem ∅ {[0%nat := mkRedisQueue true ∅]}
    {[0%nat := mkConsumer "chat" 7%nat false CTop; 1%nat := mkConsumer "chat" 8%nat true CTop]} [] ∅ ∅ [].

Lemma after_close_reached : rtc (qstep "q") queue_start after_close.
Proof.
  eapply rtc_l; [apply (QSubscribed "q" _ 0 "chat" 7%nat 0); vm_compute; reflexivity|].
  eapply rtc_l; [apply (QSubscribed "q" _ 0 "chat" 8%nat 1); vm_compute; reflexivity|].
  eapply rtc_l; [apply (QClosed "q" _ 0)|].
  match goal with |- rtc _ ?a ?b => replace a with b by (vm_compute; reflexivity) end. apply rtc_refl.
Qed.

Lemma redis_queue_fifo_witness :
  rtc (qstep "q") queue_start after_close /\
  forall s', rtc (qstep "q") after_close s' -> handled_by 1 s' = [].
Proof.
  split; [exact after_close_reached|]. intros s' Hs.
  destruct (redis_queue_fifo "q" after_close after_close_reached) as (_ & _ & _ & H4).
  apply (H4 1%nat (mkConsumer "chat" 8%nat true CTop)); [vm_compute; reflexivity|reflexivity|reflexivity|exact Hs].
Defined.

(** The second [Subscribe] to a topic overwrites the cancel function of the
    first: neither [Unsubscribe] nor [Close] stops the first consumer. *)
Lemma second_subscriber_leaks :
  rtc (qstep "q") queue_start after_close /\ rq_closed (queue_of after_close 0) = true /\
  c_cancelled <$> qs_consumers after_close !! 0%nat = Some false /\ rq_cancels (queue_of after_close 0) = ∅.
Proof. split; [exact after_close_reached|]. vm_compute. repeat split. Qed.
