(* ===== verification/Opening.v ===== *)
(** * Opening and closing what lies outside

    The constructors of the adapters that own connections (redis_session_store.go,
    redis_cache.go, redis_queue.go, sqlite_db.go, postgres_db.go,
    rabbitmq_queue.go), the methods of the RabbitMQ queue, and the transaction a
    migration runs in on PostgreSQL, which holds a connection of its own.

    Each is a program over the client libraries. A protocol keeps the handles
    that are open: a handle is used and closed only while it is open, and the
    state at the end says who owns what is left. [openings_balanced]: on every
    failing path everything that was opened is closed again.
    [rabbit_channels]: the queue's channels are those of its subscriptions. *)

From Stdlib Require Import ZArith Lia.
From stdpp Require Import base list strings gmap option sets.
From S2P Require Import Prelude GoFmt Utf8 GoText Paths Effects Protocol Ports SessionStore RedisSession RedisCache SqlText SqlBuilder SqlSchema SqlDB RedisQueue.

Open Scope Z_scope.

Abbreviation handle := nat.

Inductive open_port : Type -> Type :=
(* go-redis: the client connects when it is first used *)
| RedisNewClient (addr password : string) (db : Z) : open_port handle
| RedisPing (h : handle) : open_port (option error)
(* database/sql and the file system *)
| MkdirAll (dir : string) : open_port (option error)
| SqlOpen (driver dsn : string) : open_port (error + handle)
| SqlPing (h : handle) : open_port (option error)
| SqlOn (h : handle) {X} (e : sql_port X) : open_port X
| SqlConn (h : handle) : open_port (error + handle)
| DeallocateAll (h : handle) : open_port (option error)
| ConnBegin (h : handle) : open_port (error + nat)
| PoolBegin (h : handle) : open_port (error + nat)
| TxCommit (t : nat) : open_port (option error)
| TxRollback (t : nat) : open_port (option error)
(* amqp091 *)
| AmqpDial (url : string) : open_port (error + handle)
| AmqpChannel (h : handle) : open_port (error + handle)
| ExchangeDeclare (ch : handle) (exchange : string) : open_port (option error)
| AmqpPublish (ch : handle) (exchange topic : string) (payload : bytes) : open_port (option error)
| QueueDeclare (ch : handle) : open_port (error + string)
| QueueBind (ch : handle) (queue topic exchange : string) : open_port (option error)
| AmqpConsume (ch : handle) (queue topic : string) : open_port (option error)
| CloseHandle (h : handle) : open_port (option error).

Abbreviation OM := (prog open_port).

(** ** Redis *)

Definition redis_connect (addr password : string) (db : Z) : OM (error + handle) :=
  client ← call_ (RedisNewClient addr password db);
  err ← call_ (RedisPing client);
  match err with
  | Some e =>
      _ ← call_ (CloseHandle client);
      mret (inl (Wrapf ("failed to connect to Redis at " +:+ addr) e))
  | None => mret (inr client)
  end.

Definition open_session_store (addr password : string) (db : Z) (keyPrefix : string) (connTTL : Z) :
    OM (error + handle * RedisSessionStore) :=
  r ← redis_connect addr password db;
  mret (match r with
        | inl e => inl e
        | inr client => inr (client, NewRedisSessionStoreWithClient keyPrefix connTTL)
        end).

Definition open_cache (addr password : string) (db : Z) (keyPrefix : string) : OM (error + handle * RedisCache) :=
  r ← redis_connect addr password db;
  mret (match r with inl e => inl e | inr client => inr (client, mkRedisCache keyPrefix) end).

Definition open_queue (addr password : string) (db : Z) : OM (error + handle * RedisQueue) :=
  r ← redis_connect addr password db;
  mret (match r with inl e => inl e | inr client => inr (client, NewRedisQueue) end).

(** ** Databases *)

(** [filepath.Dir] *)
Definition Dir (path : string) : string :=
  let before := fix go (l : bytes) : bytes :=
    match l with [] => [] | b :: l' => if decide (b = Byte.x2f) then l else go l' end in
  Clean (string_of_bytes (rev (before (rev (bytes_of_string path))))).

(** [init] of the storage core, on the pool [h]. *)
Definition init_on (h : handle) (d : sqlDB) : OM (error + unit) := embed (fun X e => SqlOn h e) (sqlDB_init d).

Definition NewSQLiteDB (dbPath : string) : OM (error + handle * sqlDB) :=
  mk ← call_ (MkdirAll (Dir dbPath));
  match mk with
  | Some e => mret (inl (Wrapf "failed to create database directory" e))
  | None =>
      o ← call_ (SqlOpen "sqlite" (dbPath +:+ "?_pragma=foreign_keys(1)"));
      match o with
      | inl e => mret (inl (Wrapf "failed to open sqlite database" e))
      | inr db =>
          i ← init_on db (newSQLDB sqliteDialect);
          match i with
          | inl e => _ ← call_ (CloseHandle db); mret (inl (Wrapf "failed to initialize database" e))
          | inr _ => mret (inr (db, newSQLDB sqliteDialect))
          end
      end
  end.

Definition NewPostgresDB (dsn : string) : OM (error + handle * sqlDB) :=
  match TrimSpace (bytes_of_string dsn) with
  | [] => mret (inl (Errorf "postgres: empty connection string (set DATABASE_URL)"))
  | _ =>
      o ← call_ (SqlOpen "pgx" dsn);
      match o with
      | inl e => mret (inl (Wrapf "failed to open postgres database" e))
      | inr db =>
          p ← call_ (SqlPing db);
          match p with
          | Some e => _ ← call_ (CloseHandle db); mret (inl (Wrapf "failed to connect to postgres" e))
          | None =>
              i ← init_on db (newSQLDB postgresDialect);
              match i with
              | inl e => _ ← call_ (CloseHandle db); mret (inl (Wrapf "failed to initialize database" e))
              | inr _ => mret (inr (db, newSQLDB postgresDialect))
              end
          end
      end
  end.

(** *** The storage core: its pool, and the transaction of a migration *)

Definition sql_Close (pool : handle) : OM (option error) := call_ (CloseHandle pool).

Definition QueryBuilder (d : sqlDB) : sqlQueryBuilder := mkBuilder (d_exec d) (d_dialect d).

Record sqlMigrationTx := mkSqlMigrationTx { mt_tx : nat; mt_db : sqlDB }.

Definition sql_BeginMigration (pool : handle) (d : sqlDB) : OM (error + sqlMigrationTx) :=
  b ← call_ (PoolBegin pool);
  mret (match b with
        | inl e => inl e
        | inr t => inr (mkSqlMigrationTx t (mkSqlDB (InTx t) (d_dialect d)))
        end).

Definition mt_Commit (t : sqlMigrationTx) : OM (option error) := call_ (TxCommit (mt_tx t)).
Definition mt_Rollback (t : sqlMigrationTx) : OM (option error) := call_ (TxRollback (mt_tx t)).

Definition mt_Close (t : sqlMigrationTx) : OM (option error) :=
  mret (Some (Errorf "cannot close a migration transaction; it is committed or rolled back by the migration runner")).
Definition mt_BeginMigration (t : sqlMigrationTx) : OM (error + sqlMigrationTx) :=
  mret (inl (Errorf "cannot begin a migration transaction inside another")).

(** *** Migrations on PostgreSQL: a transaction on a reserved connection *)

Record postgresMigrationTx := mkPgTx { pt_tx : nat; pt_conn : handle; pt_db : sqlDB }.

Definition pg_BeginMigration (pool : handle) (p : sqlDB) : OM (error + postgresMigrationTx) :=
  c ← call_ (SqlConn pool);
  match c with
  | inl e => mret (inl e)
  | inr conn =>
      d ← call_ (DeallocateAll conn);
      match d with
      | Some e => _ ← call_ (CloseHandle conn); mret (inl (Wrapf "clear migration statement cache" e))
      | None =>
          b ← call_ (ConnBegin conn);
          match b with
          | inl e => _ ← call_ (CloseHandle conn); mret (inl e)
          | inr t => mret (inr (mkPgTx t conn (mkSqlDB (InTx t) (d_dialect p))))
          end
      end
  end.

(** The connection is given back when the transaction is over. *)
Definition pg_Commit (t : postgresMigrationTx) : OM (option error) :=
  err ← call_ (TxCommit (pt_tx t)); _ ← call_ (CloseHandle (pt_conn t)); mret err.

Definition pg_Rollback (t : postgresMigrationTx) : OM (option error) :=
  err ← call_ (TxRollback (pt_tx t)); _ ← call_ (CloseHandle (pt_conn t)); mret err.

(** ** RabbitMQ *)

Record RabbitMQQueue := mkRabbit {
  rb_conn : handle;
  rb_pubChan : handle;
  rb_exchange : string;
  rb_subs : gmap string handle;
  rb_closed : bool
}.

Definition amqp_url (host port user password vhost : string) : string :=
  "amqp://" +:+ user +:+ ":" +:+ password +:+ "@" +:+ host +:+ ":" +:+ port +:+ "/" +:+ vhost.

Definition NewRabbitMQQueue (host port user password vhost exchange : string) : OM (error + RabbitMQQueue) :=
  c ← call_ (AmqpDial (amqp_url host port user password vhost));
  match c with
  | inl e => mret (inl (Wrapf ("failed to connect to RabbitMQ at " +:+ host +:+ ":" +:+ port) e))
  | inr conn =>
      p ← call_ (AmqpChannel conn);
      match p with
      | inl e => _ ← call_ (CloseHandle conn); mret (inl (Wrapf "failed to open RabbitMQ channel" e))
      | inr pubChan =>
          d ← call_ (ExchangeDeclare pubChan exchange);
          match d with
          | Some e =>
              _ ← call_ (CloseHandle pubChan); _ ← call_ (CloseHandle conn);
              mret (inl (Wrapf ("failed to declare exchange " +:+ exchange) e))
          | None => mret (inr (mkRabbit conn pubChan exchange ∅ false))
          end
      end
  end.

Definition rb_Publish (q : RabbitMQQueue) (topic : string) (payload : bytes) : OM (option error) :=
  if rb_closed q then mret (Some ErrQueueClosed)
  else call_ (AmqpPublish (rb_pubChan q) (rb_exchange q) topic payload).

Definition with_subs (q : RabbitMQQueue) (subs : gmap string handle) (closed : bool) : RabbitMQQueue :=
  mkRabbit (rb_conn q) (rb_pubChan q) (rb_exchange q) subs closed.

(** On failure the new channel is closed. The goroutine that hands the deliveries
    to the handler is started by the call of [AmqpConsume]. *)
Definition rb_Subscribe (q : RabbitMQQueue) (topic : string) : OM (option error * RabbitMQQueue) :=
  let fail ch msg e := _ ← call_ (CloseHandle ch); mret (Some (Wrapf msg e), q) in
  if rb_closed q then mret (Some ErrQueueClosed, q)
  else
    c ← call_ (AmqpChannel (rb_conn q));
    match c with
    | inl e => mret (Some (Wrapf "failed to open channel" e), q)
    | inr ch =>
        t ← call_ (QueueDeclare ch);
        match t with
        | inl e => fail ch "failed to declare queue"%string e
        | inr tmp =>
            b ← call_ (QueueBind ch tmp topic (rb_exchange q));
            match b with
            | Some e => fail ch ("failed to bind queue to topic " +:+ topic) e
            | None =>
                d ← call_ (AmqpConsume ch tmp topic);
                match d with
                | Some e => fail ch "failed to start consuming"%string e
                | None => mret (None, with_subs q (<[topic := ch]> (rb_subs q)) false)
                end
            end
        end
    end.

Definition rb_Unsubscribe (q : RabbitMQQueue) (topic : string) : OM (option error * RabbitMQQueue) :=
  if rb_closed q then mret (Some ErrQueueClosed, q)
  else match rb_subs q !! topic with
       | Some ch => _ ← call_ (CloseHandle ch); mret (None, with_subs q (delete topic (rb_subs q)) false)
       | None => mret (None, q)
       end.

Fixpoint close_each (chs : list handle) : OM unit :=
  match chs with
  | [] => mret tt
  | ch :: chs => _ ← call_ (CloseHandle ch); close_each chs
  end.

Section RabbitClose.
Context `{MapOrder}.

Definition rb_Close (q : RabbitMQQueue) : OM (option error * RabbitMQQueue) :=
  _ ← close_each (omap (fun t => rb_subs q !! t) (range (dom (rb_subs q))));
  _ ← call_ (CloseHandle (rb_pubChan q));
  err ← call_ (CloseHandle (rb_conn q));
  mret (err, with_subs q ∅ true).
End RabbitClose.

(** ** What is open *)

Fixpoint drop_handle (h : handle) (l : list handle) : list handle :=
  match l with
  | [] => []
  | x :: l => if decide (h = x) then l else x :: drop_handle h l
  end.

(** The handle a call needs. *)
Definition needs {X} (e : open_port X) : option handle :=
  match e with
  | RedisPing h | SqlPing h | SqlOn h _ | SqlConn h | DeallocateAll h | ConnBegin h | PoolBegin h | AmqpChannel h
  | ExchangeDeclare h _ | AmqpPublish h _ _ _ | QueueDeclare h | QueueBind h _ _ _ | AmqpConsume h _ _
  | CloseHandle h => Some h
  | _ => None
  end.

Definition opened_by (r : error + handle) : list handle := match r with inr h => [h] | inl _ => [] end.

(** The handle a call opens. *)
Definition opens {X} (e : open_port X) : X -> list handle :=
  match e in open_port X return X -> list handle with
  | RedisNewClient _ _ _ => fun h => [h]
  | SqlOpen _ _ | SqlConn _ | AmqpDial _ | AmqpChannel _ => opened_by
  | _ => fun _ => []
  end.

Definition may {X} (e : open_port X) (m : list handle) : Prop := forall h, needs e = Some h -> h ∈ m.

Definition moves {X} (e : open_port X) (x : X) (m : list handle) : list handle :=
  match e with
  | CloseHandle h => drop_handle h m
  | _ => opens e x ++ m
  end.

Abbreviation balanced := (obeys (@may) (@moves)).

(** A constructor that gives its caller the handles [own a], or nothing. *)
Definition gives {A} (own : A -> list handle) (m : list handle) (o : outcome (error + A)) (m' : list handle) : Prop :=
  match o with
  | Ret (inr a) => m' = own a ++ m
  | Ret (inl _) => m' = m
  | _ => False
  end.

Lemma drop_head h m : drop_handle h (h :: m) = m.
Proof. cbn. by rewrite decide_True. Qed.

Ltac allowed_ := intros ? [= <-]; set_solver.
Ltac call := apply obeys_call; [allowed_ || done|]; intros ?; cbn [moves opens opened_by app].

(** Closing the handle that was opened last. *)
Lemma close_last {A} (final : outcome A -> list handle -> Prop) h m k :
  balanced final m k -> balanced final (h :: m) (call_ (CloseHandle h) ≫= fun _ => k).
Proof.
  intros Hk. apply obeys_call; [intros ? [= <-]; set_solver|]. intros x. cbn [moves]. by rewrite drop_head.
Qed.

Lemma redis_connect_balanced addr password db m : balanced (gives (fun h => [h]) m) m (redis_connect addr password db).
Proof.
  unfold redis_connect. apply obeys_call; [done|]. intros h. cbn [moves opens app].
  apply obeys_call; [allowed_|]. intros [e|]; [by apply close_last|done].
Qed.

(** The owner puts the handle into an object. *)
Lemma gives_map {A B} (own : A -> list handle) (own' : B -> list handle) (p : OM (error + A)) (f : A -> B) m :
  balanced (gives own m) m p -> (forall a, own' (f a) = own a) ->
  balanced (gives own' m) m (p ≫= fun r => mret (match r with inl e => inl e | inr a => inr (f a) end)).
Proof.
  intros Hp Hf. apply obeys_bind.
  enough (forall m1, balanced (gives own m) m1 p -> balanced (then_obeys (@may) (@moves) (gives own' m)
    (fun r => mret (match r with inl e => inl e | inr a => inr (f a) end))) m1 p) as H by by apply H.
  clear Hp. induction p as [[[e|a]| |]|X e k IH]; intros m1; cbn; [done| |done|done|].
  - intros ->. by rewrite Hf.
  - intros [He Hk]. split; [done|]. intros x. by apply IH.
Qed.

Lemma init_balanced {A} (final : outcome A -> list handle -> Prop) h d m (k : error + unit -> OM A) :
  h ∈ m -> (forall r, balanced final m (k r)) -> balanced final m (init_on h d ≫= k).
Proof.
  intros Hh Hk. apply obeys_bind, obeys_embed.
  enough (forall fin : outcome (error + unit) -> list handle -> Prop, (forall r, fin (Ret r) m) ->
    obeys (fun X (e : sql_port X) => may (SqlOn h e)) (fun X (e : sql_port X) => moves (SqlOn h e)) fin m (sqlDB_init d)) as H
    by (apply H; exact Hk).
  intros fin Hf. unfold sqlDB_init, ensureMigrationsTable, exec_only.
  assert (Hlast : obeys (fun X (e : sql_port X) => may (SqlOn h e)) (fun X (e : sql_port X) => moves (SqlOn h e)) fin m
    (call_ (Exec (d_exec d) (migrations_table (d_dialect d)) []) ≫= fun r => mret (match r with inl e => inl e | inr _ => inr () end))).
  { apply obeys_call; [by intros ? [= <-]|]. intros [e|r]; apply Hf. }
  destruct (d_dialect d); [|exact Hlast]. cbn [Init exec_pragmas].
  apply obeys_bind, obeys_call; [by intros ? [= <-]|]. intros [e|r]; [apply Hf|].
  apply obeys_call; [by intros ? [= <-]|]. intros [e|r']; [apply Hf|]. exact Hlast.
Qed.

Lemma NewSQLiteDB_balanced dbPath m : balanced (gives (fun r => [r.1]) m) m (NewSQLiteDB dbPath).
Proof.
  unfold NewSQLiteDB. apply obeys_call; [done|]. intros [e|]; [done|].
  apply obeys_call; [done|]. intros [e|db]; [done|]. cbn [moves opens opened_by app].
  apply init_balanced; [set_solver|]. intros [e|r]; [by apply close_last|done].
Qed.

Lemma NewPostgresDB_balanced dsn m : balanced (gives (fun r => [r.1]) m) m (NewPostgresDB dsn).
Proof.
  unfold NewPostgresDB. destruct (TrimSpace _); [done|]. apply obeys_call; [done|]. intros [e|db]; [done|].
  cbn [moves opens opened_by app]. apply obeys_call; [allowed_|]. intros [e|]; [by apply close_last|].
  cbn [moves opens opened_by app]. apply init_balanced; [set_solver|]. intros [e|r]; [by apply close_last|done].
Qed.

Lemma BeginMigration_balanced pool p m :
  pool ∈ m -> balanced (gives (fun t => [pt_conn t]) m) m (pg_BeginMigration pool p).
Proof.
  intros Hp. unfold pg_BeginMigration. apply obeys_call; [allowed_|]. intros [e|conn]; [done|].
  cbn [moves opens opened_by app]. apply obeys_call; [allowed_|]. intros [e|]; [by apply close_last|].
  cbn [moves opens opened_by app]. apply obeys_call; [allowed_|]. intros [e|t]; [by apply close_last|done].
Qed.

Lemma NewRabbit_balanced host port user password vhost exchange m :
  balanced (gives (fun q => [rb_pubChan q; rb_conn q]) m) m (NewRabbitMQQueue host port user password vhost exchange).
Proof.
  unfold NewRabbitMQQueue. apply obeys_call; [done|]. intros [e|conn]; [done|]. cbn [moves opens opened_by app].
  apply obeys_call; [allowed_|]. intros [e|ch]; [by apply close_last|]. cbn [moves opens opened_by app].
  apply obeys_call; [allowed_|]. intros [e|]; [|done]. by apply close_last, close_last.
Qed.

(** C15. No constructor leaks. Whatever the libraries answer, each constructor
    uses and closes only handles that are open, never panics, and at its end is
    either successful, and has opened exactly the handles its object owns, or
    has failed, and has closed everything it opened. The migration transaction of
    PostgreSQL holds one connection from its begin to its commit or rollback,
    however these end. The transaction of the storage core holds none, its queries
    run in the transaction, and closing it or beginning another in it is refused
    without a call, so the pool stays open. *)
Theorem openings_balanced (m : list handle) :
  (forall addr password db keyPrefix connTTL,
     balanced (gives (fun r => [r.1]) m) m (open_session_store addr password db keyPrefix connTTL)) /\
  (forall addr password db keyPrefix, balanced (gives (fun r => [r.1]) m) m (open_cache addr password db keyPrefix)) /\
  (forall addr password db, balanced (gives (fun r => [r.1]) m) m (open_queue addr password db)) /\
  (forall dbPath, balanced (gives (fun r => [r.1]) m) m (NewSQLiteDB dbPath)) /\
  (forall dsn, balanced (gives (fun r => [r.1]) m) m (NewPostgresDB dsn)) /\
  (forall host port user password vhost exchange,
     balanced (gives (fun q => [rb_pubChan q; rb_conn q]) m) m (NewRabbitMQQueue host port user password vhost exchange)) /\
  (forall pool p, pool ∈ m -> balanced (gives (fun t => [pt_conn t]) m) m (pg_BeginMigration pool p)) /\
  (forall t, balanced (fun o m' => (exists err, o = Ret err) /\ m' = m) (pt_conn t :: m) (pg_Commit t) /\
             balanced (fun o m' => (exists err, o = Ret err) /\ m' = m) (pt_conn t :: m) (pg_Rollback t)) /\
  (forall pool d, pool ∈ m ->
     balanced (fun o m' => m' = m /\ match o with
                           | Ret (inr t) => qb_exec (QueryBuilder (mt_db t)) = InTx (mt_tx t) /\ d_dialect (mt_db t) = d_dialect d
                           | Ret (inl _) => True
                           | _ => False
                           end) m (sql_BeginMigration pool d)) /\
  (forall t, balanced (fun o m' => (exists err, o = Ret (Some err)) /\ m' = m) m (mt_Close t) /\
             balanced (fun o m' => (exists err, o = Ret (inl err)) /\ m' = m) m (mt_BeginMigration t)).
Proof.
  split_and!.
  - intros. by apply (gives_map (fun h => [h]) _ _ (fun h => (h, _))); [apply redis_connect_balanced|].
  - intros. by apply (gives_map (fun h => [h]) _ _ (fun h => (h, _))); [apply redis_connect_balanced|].
  - intros. by apply (gives_map (fun h => [h]) _ _ (fun h => (h, _))); [apply redis_connect_balanced|].
  - intros. apply NewSQLiteDB_balanced.
  - intros. apply NewPostgresDB_balanced.
  - intros. apply NewRabbit_balanced.
  - intros. by apply BeginMigration_balanced.
  - intros t. split; (apply obeys_call; [done|]; intros err; apply close_last; split; [by exists err|done]).
  - intros pool d Hp. apply obeys_call; [allowed_|]. by intros [e|t].
  - intros t. split; (split; [by eexists|done]).
Qed.

(** ** The channels of the RabbitMQ queue *)

Definition channels (q : RabbitMQQueue) : list handle := (map_to_list (rb_subs q)).*2.

(** What the queue holds: its connection, the publishing channel and a channel per
    subscription. *)
Definition holds_handles (q : RabbitMQQueue) (m : list handle) : Prop :=
  rb_closed q = false /\ m ≡ₚ channels q ++ [rb_pubChan q; rb_conn q].

Definition holds_after (o : outcome (option error * RabbitMQQueue)) (m : list handle) : Prop :=
  exists err q, o = Ret (err, q) /\ holds_handles q m.

Lemma drop_handle_perm h m m' : m ≡ₚ h :: m' -> drop_handle h m ≡ₚ m'.
Proof.
  revert m'. induction m as [|x m IH]; intros m' Hp; [by apply Permutation_nil_cons in Hp|].
  cbn. case_decide as Hx; [subst; by eapply Permutation_cons_inv|].
  assert (x ∈ m') as Hin. { assert (x ∈ h :: m') as H1 by (rewrite <- Hp; set_solver). set_solver. }
  apply list_elem_of_split in Hin as (l1 & l2 & ->). rewrite <- Permutation_middle. constructor. apply IH.
  apply (Permutation_cons_inv (a := x)). rewrite Hp, <- Permutation_middle. constructor.
Qed.

Lemma channels_insert q topic ch :
  rb_subs q !! topic = None -> channels (with_subs q (<[topic := ch]> (rb_subs q)) false) ≡ₚ ch :: channels q.
Proof. intros Ht. unfold channels. cbn. by rewrite map_to_list_insert. Qed.

Lemma channels_delete q topic ch :
  rb_subs q !! topic = Some ch -> channels q ≡ₚ ch :: channels (with_subs q (delete topic (rb_subs q)) false).
Proof.
  intros Ht. unfold channels. cbn. rewrite <- (map_to_list_delete (rb_subs q) topic ch) by done. done.
Qed.

Lemma Subscribe_holds q topic m :
  holds_handles q m -> rb_subs q !! topic = None -> balanced holds_after m (rb_Subscribe q topic).
Proof.
  intros [Hc Hm] Ht. assert (rb_conn q ∈ m) as Hconn by (rewrite Hm; set_solver).
  assert (forall ch, (forall msg e, balanced holds_after (ch :: m) (call_ (CloseHandle ch) ≫= fun _ => mret (Some (Wrapf msg e), q)))) as Hfail.
  { intros ch msg e. apply close_last. exists (Some (Wrapf msg e)), q. by split. }
  unfold rb_Subscribe. rewrite Hc. apply obeys_call; [allowed_|]. intros [e|ch]; [by exists (Some (Wrapf "failed to open channel" e)), q|].
  cbn [moves opens opened_by app]. apply obeys_call; [allowed_|]. intros [e|tmp]; [apply Hfail|].
  apply obeys_call; [allowed_|]. intros [e|]; [apply Hfail|].
  apply obeys_call; [allowed_|]. intros [e|]; [apply Hfail|].
  eexists None, _. split; [reflexivity|]. split; [done|]. cbn [moves opens app rb_pubChan rb_conn with_subs].
  rewrite (channels_insert q topic ch) by done. by rewrite Hm.
Qed.

Lemma Unsubscribe_holds q topic m : holds_handles q m -> balanced holds_after m (rb_Unsubscribe q topic).
Proof.
  intros [Hc Hm]. unfold rb_Unsubscribe. rewrite Hc. destruct (rb_subs q !! topic) as [ch|] eqn:Ht; [|by exists None, q].
  assert (Hp : m ≡ₚ ch :: channels (with_subs q (delete topic (rb_subs q)) false) ++ [rb_pubChan q; rb_conn q])
    by (rewrite Hm, (channels_delete q topic ch) by done; done).
  apply obeys_call; [intros ? [= <-]; rewrite Hp; set_solver|]. intros x. eexists None, _. split; [reflexivity|].
  split; [done|]. cbn [moves]. by apply drop_handle_perm.
Qed.

Lemma close_each_all {A} (final : outcome A -> list handle -> Prop) chs rest m (k : OM A) :
  m ≡ₚ chs ++ rest -> (forall m', m' ≡ₚ rest -> balanced final m' k) -> balanced final m (close_each chs ≫= fun _ => k).
Proof.
  revert m. induction chs as [|ch chs IH]; intros m Hm Hk; [by apply Hk|]. cbn [close_each app] in *.
  apply obeys_bind, obeys_call; [intros ? [= <-]; rewrite Hm; set_solver|]. intros x. cbn [moves].
  enough (balanced final (drop_handle ch m) (close_each chs ≫= fun _ => k)) as H1.
  { clear -H1. revert H1. generalize (drop_handle ch m). induction (close_each chs) as [[[]| |]|X e p IHp]; intros m'; try done.
    intros [He Hp]. split; [done|]. intros y. by apply IHp. }
  apply IH; [by apply drop_handle_perm|done].
Qed.

Section RabbitTheorem.
Context `{MapOrder}.

Lemma ranged_channels q : omap (fun t => rb_subs q !! t) (range (dom (rb_subs q))) ≡ₚ channels q.
Proof.
  rewrite range_perm. unfold channels. generalize (rb_subs q) as subs. intros subs.
  assert (elements (dom subs) ≡ₚ (map_to_list subs).*1) as ->.
  { apply NoDup_Permutation; [apply NoDup_elements|apply NoDup_fst_map_to_list|]. intros t.
    rewrite elem_of_elements, elem_of_dom, list_elem_of_fmap. split.
    - intros [h Hh]. exists (t, h). by rewrite elem_of_map_to_list.
    - intros ([t' h] & -> & Hp%elem_of_map_to_list). by eexists. }
  assert (forall l : list (string * handle), (forall p, p ∈ l -> subs !! p.1 = Some p.2) -> omap (fun t => subs !! t) l.*1 = l.*2) as Ho.
  { induction l as [|[t h] l IH]; intros Hl; [done|]. assert (subs !! t = Some h) as Ht by (apply (Hl (t, h)); set_solver). cbn. rewrite Ht. cbn. f_equal. apply IH. set_solver. }
  rewrite Ho; [done|]. intros [t h] Hp. by apply elem_of_map_to_list in Hp.
Qed.

Lemma Close_holds q m :
  holds_handles q m ->
  balanced (fun o m' => exists err q', o = Ret (err, q') /\ rb_closed q' = true /\ m' = []) m (rb_Close q).
Proof.
  intros [Hc Hm]. unfold rb_Close. apply (close_each_all _ _ [rb_pubChan q; rb_conn q]); [by rewrite ranged_channels|].
  intros m1 H1. apply obeys_call; [intros ? [= <-]; rewrite H1; set_solver|]. intros x. cbn [moves].
  apply drop_handle_perm in H1. apply obeys_call; [intros ? [= <-]; rewrite H1; set_solver|]. intros y. cbn [moves].
  apply drop_handle_perm in H1. exists y. eexists. split; [reflexivity|]. split; [done|]. by apply Permutation_nil_r.
Qed.

(** The RabbitMQ queue owns its channels. While it holds exactly its
    connection, its publishing channel and one channel per subscription, every
    method uses open handles only and leaves it so: a failed [Subscribe] has
    closed its channel, [Unsubscribe] closes the topic's, [Publish] opens
    nothing, and [Close] leaves nothing open. A closed queue refuses every other
    call without touching the broker. *)
Theorem rabbit_channels q m :
  holds_handles q m ->
  (forall topic, rb_subs q !! topic = None -> balanced holds_after m (rb_Subscribe q topic)) /\
  (forall topic, balanced holds_after m (rb_Unsubscribe q topic)) /\
  (forall topic payload, balanced (fun o m' => (exists err, o = Ret err) /\ m' = m) m (rb_Publish q topic payload)) /\
  balanced (fun o m' => exists err q', o = Ret (err, q') /\ rb_closed q' = true /\ m' = []) m (rb_Close q) /\
  (forall q' topic payload, rb_closed q' = true ->
     rb_Publish q' topic payload = mret (Some ErrQueueClosed) /\ rb_Subscribe q' topic = mret (Some ErrQueueClosed, q') /\
     rb_Unsubscribe q' topic = mret (Some ErrQueueClosed, q')).
Proof.
  intros Hq. split_and!; [by intros; apply Subscribe_holds|by intros; apply Unsubscribe_holds| |by apply Close_holds|].
  - intros topic payload. destruct Hq as [Hc Hm]. unfold rb_Publish. rewrite Hc.
    apply obeys_last; [intros ? [= <-]; rewrite Hm; set_solver|]. intros err. split; [by exists err|done].
  - intros q' topic payload Hc. unfold rb_Publish, rb_Subscribe, rb_Unsubscribe. by rewrite Hc.
Qed.
End RabbitTheorem.

Definition two_topics : RabbitMQQueue := mkRabbit 1 2 "musgo" {[ "chat"%string := 3%nat ]} false.

Lemma rabbit_channels_witness :
  holds_handles two_topics [3; 2; 1]%nat /\ balanced holds_after [3; 2; 1]%nat (rb_Subscribe two_topics "news").
Proof.
  assert (Hq : holds_handles two_topics [3; 2; 1]%nat) by (split; [reflexivity|]; vm_compute; reflexivity).
  split; [exact Hq|]. destruct (rabbit_channels two_topics [3; 2; 1]%nat Hq) as [Hs _]. apply Hs. vm_compute. reflexivity.
Defined.

(** A second [Subscribe] to a topic: the queue forgets the channel of the first,
    which [Unsubscribe] then leaves open. *)
Definition all_succeed (X : Type) (e : open_port X) (w : nat) : X * nat :=
  match e in open_port X return X * nat with
  | RedisNewClient _ _ _ => (w, S w)
  | SqlOpen _ _ | SqlConn _ | AmqpDial _ | AmqpChannel _ => (inr w, S w)
  | ConnBegin _ | PoolBegin _ => (inr 0%nat, w)
  | QueueDeclare _ => (inr "amq.gen"%string, w)
  | SqlOn _ e =>
      match e in sql_port X return X * nat with
      | Exec _ _ _ => (inr (inr 0), w) | Query _ _ _ => (inl ErrNoRows, w) | QueryRow _ _ _ _ => (inl ErrNoRows, w)
      | Begin => (inr 0%nat, w) | CommitTx _ => (None, w) | RollbackTx _ => (None, w)
      | NextSavepoint => (0, w) | NewUUID => (""%string, w) | SqlNow => (0, w)
      end
  | RedisPing _ | MkdirAll _ | SqlPing _ | DeallocateAll _ | TxCommit _ | TxRollback _ | ExchangeDeclare _ _
  | AmqpPublish _ _ _ _ | QueueBind _ _ _ _ | AmqpConsume _ _ _ | CloseHandle _ => (None, w)
  end.

Lemma second_rabbit_subscriber :
  let after_two := run all_succeed (r ← rb_Subscribe two_topics "chat"; rb_Unsubscribe r.2 "chat") 4%nat in
  exists q, after_two.1 = Ret (None, q) /\ channels q = [] /\ rb_closed q = false /\ after_two.2 = 5%nat.
Proof. eexists. split; [vm_compute; reflexivity|]. vm_compute. auto. Qed.
