(* ===== verification/Email.v ===== *)
(** * Sending mail (outbound/smtp_email_sender.go)

    The sender puts three header fields and the body into one text and gives it
    to net/smtp. [email_faithful]: a reader of mail (header lines up to an empty
    line, then the body) gets back the sender, the recipient, the subject and the
    body as they were given, when the header fields hold no line break; and what
    [SendEmail] does on every branch. [subject_injects] shows what a line break in
    the subject does. *)

From Stdlib Require Import ZArith Lia.
From stdpp Require Import base list strings option sets.
From S2P Require Import Prelude GoFmt Utf8 Json Effects Ports.

Open Scope Z_scope.

(** What net/smtp needs to log in. *)
Record PlainAuth := mkPlainAuth { pa_user : string; pa_pass : string; pa_host : string }.

(** The conversation with the mail server. *)
Inductive smtp_port : Type -> Type :=
| Transmit (addr : string) (auth : option PlainAuth) (from : string) (rcpt : list string) (body : bytes) :
    smtp_port (option error).

Record SMTPEmailSender := mkSMTPEmailSender {
  smtp_host : string;
  smtp_portNo : string;
  smtp_user : string;
  smtp_pass : string;
  smtp_from : string
}.

Definition crlf : bytes := [Byte.x0d; Byte.x0a].

Definition line_break (b : byte) : bool := bool_decide (b ∈ crlf).

Definition one_line (s : string) : bool := negb (existsb line_break (bytes_of_string s)).

(** [smtp.SendMail] refuses envelope addresses with a line break before it opens
    a connection. *)
Definition SendMail (addr : string) (auth : option PlainAuth) (from to : string) (body : bytes) :
    prog smtp_port (option error) :=
  if one_line from && one_line to then call_ (Transmit addr auth from [to] body)
  else mret (Some (Errorf "smtp: A line must not contain CR or LF")).

Definition sender_of (s : SMTPEmailSender) (m : EmailMessage) : string :=
  if decide (em_From m = ""%string) then smtp_from s else em_From m.

Definition email_text (from : string) (m : EmailMessage) : bytes :=
  join crlf [lit "From: " ++ bytes_of_string from; lit "To: " ++ bytes_of_string (em_To m);
             lit "Subject: " ++ bytes_of_string (em_Subject m); []; bytes_of_string (em_Body m)].

Definition auth_of (s : SMTPEmailSender) : option PlainAuth :=
  if decide (smtp_user s = ""%string) then None
  else Some (mkPlainAuth (smtp_user s) (smtp_pass s) (smtp_host s)).

Definition smtp_SendEmail (s : SMTPEmailSender) (m : EmailMessage) : prog smtp_port (option error) :=
  if decide (smtp_host s = ""%string) then mret (Some (Errorf "smtp not configured"))
  else
    let from := sender_of s m in
    SendMail (smtp_host s +:+ ":" +:+ smtp_portNo s) (auth_of s) from (em_To m) (email_text from m).

(** ** A reader of mail *)

(** The text up to the first line break, and what follows it. *)
Fixpoint take_line (l : bytes) : bytes * bytes :=
  match l with
  | [] => ([], [])
  | b :: l' =>
      match l' with
      | c :: rest => if decide (b = Byte.x0d /\ c = Byte.x0a) then ([], rest) else let r := take_line l' in (b :: r.1, r.2)
      | [] => ([b], [])
      end
  end.

(** "Name: value" *)
Fixpoint field_of (line : bytes) : bytes * bytes :=
  match line with
  | [] => ([], [])
  | b :: l => if decide (b = Byte.x3a) then ([], match l with Byte.x20 :: v => v | v => v end)
              else let r := field_of l in (b :: r.1, r.2)
  end.

(** The header fields, up to an empty line, and the body. *)
Fixpoint read_mail (n : nat) (l : bytes) : list (bytes * bytes) * bytes :=
  match n with
  | O => ([], l)
  | S n =>
      let r := take_line l in
      match r.1 with
      | [] => ([], r.2)
      | line => let q := read_mail n r.2 in (field_of line :: q.1, q.2)
      end
  end.

(** ** What a reader gets *)

Lemma take_line_break line rest :
  existsb line_break line = false -> take_line (line ++ crlf ++ rest) = (line, rest).
Proof.
  induction line as [|b line IH]; [done|]. cbn [existsb]. rewrite orb_false_iff. intros [Hb Hl].
  specialize (IH Hl). cbn [app take_line]. destruct (line ++ crlf ++ rest) as [|c l] eqn:E; [by destruct line|].
  rewrite decide_False by (intros [-> _]; done). by rewrite IH.
Qed.

Lemma read_mail_field n name v rest :
  existsb line_break (name ++ [Byte.x3a; Byte.x20] ++ v) = false -> Byte.x3a ∉ name ->
  read_mail (S n) ((name ++ [Byte.x3a; Byte.x20] ++ v) ++ crlf ++ rest) =
  ((name, v) :: (read_mail n rest).1, (read_mail n rest).2).
Proof.
  intros Hb Hn. cbn [read_mail]. rewrite take_line_break by done. cbn [fst snd].
  assert (Hf : field_of (name ++ [Byte.x3a; Byte.x20] ++ v) = (name, v)).
  { clear Hb. induction name as [|b name IH]; [done|]. cbn [app field_of]. rewrite decide_False by set_solver.
    change (name ++ Byte.x3a :: Byte.x20 :: v) with (name ++ [Byte.x3a; Byte.x20] ++ v). by rewrite IH by set_solver. }
  destruct (name ++ [Byte.x3a; Byte.x20] ++ v) as [|b l] eqn:E; [by destruct name|]. by rewrite Hf.
Qed.

Lemma email_text_app from m :
  email_text from m =
  (lit "From" ++ [Byte.x3a; Byte.x20] ++ bytes_of_string from) ++ crlf ++
  (lit "To" ++ [Byte.x3a; Byte.x20] ++ bytes_of_string (em_To m)) ++ crlf ++
  (lit "Subject" ++ [Byte.x3a; Byte.x20] ++ bytes_of_string (em_Subject m)) ++ crlf ++
  crlf ++ bytes_of_string (em_Body m).
Proof. reflexivity. Qed.

Lemma email_read from m n :
  one_line from = true -> one_line (em_To m) = true -> one_line (em_Subject m) = true -> (4 <= n)%nat ->
  read_mail n (email_text from m) =
  ([(lit "From", bytes_of_string from); (lit "To", bytes_of_string (em_To m)); (lit "Subject", bytes_of_string (em_Subject m))],
   bytes_of_string (em_Body m)).
Proof.
  unfold one_line. rewrite !negb_true_iff. intros Hf Ht Hs Hn. do 4 (destruct n as [|n]; [lia|]). rewrite email_text_app.
  rewrite read_mail_field; [|by rewrite !existsb_app, Hf|by apply (bool_decide_eq_false (_ ∈ _))].
  rewrite read_mail_field; [|by rewrite !existsb_app, Ht|by apply (bool_decide_eq_false (_ ∈ _))].
  rewrite read_mail_field; [|by rewrite !existsb_app, Hs|by apply (bool_decide_eq_false (_ ∈ _))].
  change (crlf ++ bytes_of_string (em_Body m)) with ([] ++ crlf ++ bytes_of_string (em_Body m)).
  cbn [read_mail]. by rewrite take_line_break.
Qed.

(** Mail says what it was given. A message is transmitted only by a configured
    sender, to the one recipient, from the sender of the message or else the
    configured one, neither with a line break; and as long as the subject has no
    line break either, whoever reads the text gets the header fields From, To and
    Subject with these values and no others, and the body. Without a host, or
    with a line break in an address, nothing is transmitted and the caller gets
    an error. *)
Theorem email_faithful (s : SMTPEmailSender) (m : EmailMessage) :
  let from := sender_of s m in
  invoked (fun X (e : smtp_port X) =>
    match e with
    | Transmit addr auth sender rcpt text =>
        smtp_host s <> ""%string /\ sender = from /\ rcpt = [em_To m] /\ one_line from = true /\ one_line (em_To m) = true /\
        (auth = None <-> smtp_user s = ""%string) /\
        (one_line (em_Subject m) = true -> forall n, (4 <= n)%nat ->
           read_mail n text =
           ([(lit "From", bytes_of_string from); (lit "To", bytes_of_string (em_To m)); (lit "Subject", bytes_of_string (em_Subject m))],
            bytes_of_string (em_Body m)))
    end) (smtp_SendEmail s m) /\
  (smtp_host s = ""%string \/ one_line from = false \/ one_line (em_To m) = false ->
   exists err, smtp_SendEmail s m = mret (Some err)).
Proof.
  cbv zeta. unfold smtp_SendEmail, SendMail. set (from := sender_of s m).
  case_decide as Hh; [split; [done|eauto]|].
  destruct (one_line from) eqn:Hf; [|split; [done|eauto]]. destruct (one_line (em_To m)) eqn:Ht; [|split; [done|eauto]].
  split; [|by intros [?|[?|?]]]. apply invoked_call. split_and!; try done.
  - unfold auth_of. by case_decide.
  - intros Hs n Hn. by apply email_read.
Qed.

(** A line break in the subject adds a header field: a copy to somebody else. *)
Example subject_injects :
  let m := mkEmailMessage "" "a@x.org" ("Hi" +:+ string_of_bytes crlf +:+ "Bcc: b@y.org") "smtp" "text" in
  let s := mkSMTPEmailSender "mail" "25" "" "" "game@x.org" in
  smtp_SendEmail s m = call_ (Transmit "mail:25" None "game@x.org" ["a@x.org"%string] (email_text "game@x.org" m)) /\
  (lit "Bcc", lit "b@y.org") ∈ (read_mail 5 (email_text "game@x.org" m)).1.
Proof. split; [reflexivity|]. apply list_elem_of_In. vm_compute. tauto. Qed.
