(* ===== verification/ConnPool.v ===== *)
(** * The connection pool (inbound/conn_pool.go)

    The table that says which connection speaks for which client id, with the
    write mutexes, over a network that records what was written and closed. A
    connection is authoritative for its id: the pool is what a logon rebinds, so
    that every later message on the connection runs under the authenticated
    user. The invariant for every history of calls ([pool_ok]): an id leads to a
    connection whose current id it is. As long as connections are registered under
    unused ids, ids and connections are in bijection ([pool_inv]). *)

From Stdlib Require Import ZArith Lia.
From stdpp Require Import base list strings gmap option sets relations.
From S2P Require Import Prelude GoFmt LValue LExtract LParse LRoundtrip Smus Effects Ports.

Open Scope Z_scope.

(** The network as the pool uses it: bytes written per connection, connections
    closed here, and connections whose peer is gone (writes fail). *)
Record Net := mkNet {
  sent : list (conn * bytes);
  closed : gset conn;
  dead : gset conn
}.

Record ConnPool := mkPool {
  clients : gmap string conn;
  connToID : gmap conn string;
  writeMu : gset conn;
  net : Net
}.

Definition NewConnPool (n : Net) : ConnPool := mkPool ∅ ∅ ∅ n.

Definition conn_Write (n : Net) (c : conn) (data : bytes) : option error * Net :=
  if decide (c ∈ closed n \/ c ∈ dead n) then (Some (Errorf "write failed"), n)
  else (None, mkNet (sent n ++ [(c, data)]) (closed n) (dead n)).

Definition conn_Close (n : Net) (c : conn) : option error * Net :=
  if decide (c ∈ closed n) then (Some (Errorf "use of closed network connection"), n)
  else (None, mkNet (sent n) ({[c]} ∪ closed n) (dead n)).

Definition cp_Register (p : ConnPool) (c : conn) (clientID : string) : ConnPool :=
  mkPool (<[clientID := c]> (clients p)) (<[c := clientID]> (connToID p))
    ({[c]} ∪ writeMu p) (net p).

(** A missing key reads as the zero value, the empty string. *)
Definition cp_CurrentID (p : ConnPool) (c : conn) : string :=
  default ""%string (connToID p !! c).

Definition cp_Unregister (p : ConnPool) (c : conn) : string * ConnPool :=
  let clientID := cp_CurrentID p c in
  (clientID, mkPool (delete clientID (clients p)) (delete c (connToID p)) (writeMu p ∖ {[c]}) (net p)).

Definition not_connected (clientID : string) : error :=
  Errorf ("client " +:+ clientID +:+ " not connected").

(** A missing mutex is a nil pointer, and locking it a panic. *)
Definition cp_WriteToClient (p : ConnPool) (clientID : string) (data : bytes) :
    outcome (option error) * ConnPool :=
  match clients p !! clientID with
  | None => (Ret (Some (not_connected clientID)), p)
  | Some c =>
      if decide (c ∈ writeMu p) then
        let r := conn_Write (net p) c data in
        (Ret r.1, mkPool (clients p) (connToID p) (writeMu p) r.2)
      else (Panic, p)
  end.

Definition cp_RemapClientID (p : ConnPool) (oldID newID : string) : bool * ConnPool :=
  match clients p !! oldID with
  | None => (false, p)
  | Some c =>
      let taken := match clients p !! newID with
                   | Some existing => negb (bool_decide (existing = c))
                   | None => false
                   end in
      if taken then (false, p)
      else (true, mkPool (<[newID := c]> (delete oldID (clients p))) (<[c := newID]> (connToID p))
                    (writeMu p) (net p))
  end.

Definition cp_DisconnectClient (p : ConnPool) (clientID : string) : option error * ConnPool :=
  match clients p !! clientID with
  | None => (Some (not_connected clientID), p)
  | Some c =>
      let r := conn_Close (net p) c in
      (r.1, mkPool (clients p) (connToID p) (writeMu p) r.2)
  end.

Definition cp_CloseAll (p : ConnPool) : ConnPool :=
  mkPool (clients p) (connToID p) (writeMu p)
    (fold_left (fun n c => (conn_Close n c).2) (elements (dom (connToID p))) (net p)).

(** The answer of a call: none when it panicked. *)
Definition answer {A} (o : outcome A) : option A := match o with Ret a => Some a | _ => None end.

Definition pool_step {X} (op : pool_op X) (p : ConnPool) : option X * ConnPool :=
  match op in pool_op X return option X * ConnPool with
  | Register c id => (Some tt, cp_Register p c id)
  | Unregister c => let r := cp_Unregister p c in (Some r.1, r.2)
  | CurrentID c => (Some (cp_CurrentID p c), p)
  | WriteToClient id data => let r := cp_WriteToClient p id data in (answer r.1, r.2)
  | RemapClientID old new => let r := cp_RemapClientID p old new in (Some r.1, r.2)
  | DisconnectClient id => let r := cp_DisconnectClient p id in (Some r.1, r.2)
  | CloseConn c =>
      (Some tt, mkPool (clients p) (connToID p) (writeMu p) (conn_Close (net p) c).2)
  end.

(** ** The invariant *)

Definition pool_inv (p : ConnPool) : Prop :=
  (forall id c, clients p !! id = Some c <-> connToID p !! c = Some id) /\
  writeMu p = dom (connToID p).

(** Without the converse: another connection may have the same current id. *)
Definition pool_ok (p : ConnPool) : Prop :=
  (forall id c, clients p !! id = Some c -> connToID p !! c = Some id) /\
  writeMu p = dom (connToID p).

(** The server accepts a connection once, and registers it when it does
    (tcp_server.go, handleConnection). *)
Definition once {X} (op : pool_op X) (p : ConnPool) : Prop :=
  match op with
  | Register c _ => connToID p !! c = None
  | _ => True
  end.

(** A connection is registered under an id no other client has, and unregistered
    after it was registered. The server does not check the former: the id is the
    peer's address, which a user may have logged on as ([register_clobbers]). *)
Definition disciplined {X} (op : pool_op X) (p : ConnPool) : Prop :=
  match op with
  | Register c id => connToID p !! c = None /\ clients p !! id = None
  | Unregister c => is_Some (connToID p !! c)
  | _ => True
  end.

Lemma register_ok p c id : pool_ok p -> connToID p !! c = None -> pool_ok (cp_Register p c id).
Proof.
  intros [Hb Hm] Hc. split; cbn [cp_Register clients connToID writeMu].
  - intros id' c'. rewrite !lookup_insert_Some. specialize (Hb id' c'). naive_solver.
  - by rewrite dom_insert_L, Hm.
Qed.

Lemma unregister_ok p c : pool_ok p -> pool_ok (cp_Unregister p c).2.
Proof.
  intros [Hb Hm]. unfold cp_Unregister, cp_CurrentID. cbn. split; cbn [clients connToID writeMu].
  - intros id' c'. rewrite !lookup_delete_Some. intros [Hne Hc%Hb]. split; [|done]. intros ->. by rewrite Hc in Hne.
  - by rewrite dom_delete_L, Hm.
Qed.

Lemma register_inv p c id :
  pool_inv p -> connToID p !! c = None -> clients p !! id = None -> pool_inv (cp_Register p c id).
Proof.
  intros [Hb Hm] Hc Hid. split; cbn [cp_Register clients connToID writeMu].
  - intros id' c'. rewrite !lookup_insert_Some. specialize (Hb id' c'). naive_solver.
  - by rewrite dom_insert_L, Hm.
Qed.

Lemma unregister_inv p c : pool_inv p -> is_Some (connToID p !! c) -> pool_inv (cp_Unregister p c).2.
Proof.
  intros [Hb Hm] [id Hc]. unfold cp_Unregister, cp_CurrentID. rewrite Hc. cbn.
  split; cbn [clients connToID writeMu].
  - intros id' c'. rewrite !lookup_delete_Some. pose proof (Hb id c). pose proof (Hb id' c').
    naive_solver.
  - by rewrite dom_delete_L, Hm.
Qed.

(** The two ways a remap ends. *)
Lemma remap_cases p old new :
  (cp_RemapClientID p old new = (false, p) /\
     forall c, clients p !! old = Some c -> clients p !! new <> None /\ clients p !! new <> Some c) \/
  (exists c, clients p !! old = Some c /\ (clients p !! new = None \/ clients p !! new = Some c) /\
     cp_RemapClientID p old new =
       (true, mkPool (<[new := c]> (delete old (clients p))) (<[c := new]> (connToID p))
                (writeMu p) (net p))).
Proof.
  unfold cp_RemapClientID. destruct (clients p !! old) as [c|] eqn:Eo; [|by left].
  cbv zeta. destruct (clients p !! new) as [d|] eqn:En.
  - destruct (decide (d = c)) as [->|Hd].
    + right. exists c. rewrite bool_decide_true by done. eauto.
    + left. rewrite bool_decide_false by done. split; [done|]. intros ? [= <-]. split; congruence.
  - right. exists c. eauto.
Qed.

Lemma remap_inv p old new : pool_inv p -> pool_inv (cp_RemapClientID p old new).2.
Proof.
  intros [Hb Hm]. destruct (remap_cases p old new) as [[-> _]|(c & Eo & Hnew & ->)]; [done|].
  split; cbn [clients connToID writeMu snd].
  - intros id' c'. rewrite !lookup_insert_Some, lookup_delete_Some.
    pose proof (Hb old c). pose proof (Hb id' c'). pose proof (Hb new c'). naive_solver.
  - rewrite Hm, dom_insert_L. symmetry. apply subseteq_union_1_L, singleton_subseteq_l, elem_of_dom.
    exists old. by apply Hb.
Qed.

Lemma remap_ok p old new : pool_ok p -> pool_ok (cp_RemapClientID p old new).2.
Proof.
  intros [Hb Hm]. destruct (remap_cases p old new) as [[-> _]|(c & Eo & Hnew & ->)]; [done|].
  split; cbn [clients connToID writeMu snd].
  - intros id' c'. rewrite !lookup_insert_Some, lookup_delete_Some.
    pose proof (Hb old c Eo). pose proof (Hb id' c'). naive_solver.
  - rewrite Hm, dom_insert_L. symmetry. apply subseteq_union_1_L, singleton_subseteq_l, elem_of_dom.
    exists old. by apply Hb.
Qed.

Lemma pool_step_ok {X} (op : pool_op X) p : pool_ok p -> once op p -> pool_ok (pool_step op p).2.
Proof.
  intros Hok Ho. destruct op; cbn [pool_step snd once] in *; auto.
  - by apply register_ok.
  - by apply unregister_ok.
  - unfold cp_WriteToClient. case_match; [|done]. by case_decide.
  - by apply remap_ok.
  - unfold cp_DisconnectClient. by case_match.
Qed.

Lemma pool_step_inv {X} (op : pool_op X) p :
  pool_inv p -> disciplined op p -> pool_inv (pool_step op p).2.
Proof.
  intros Hinv Hd. destruct op; cbn [pool_step snd disciplined] in *; auto.
  - apply register_inv; naive_solver.
  - by apply unregister_inv.
  - unfold cp_WriteToClient. case_match; [|done]. by case_decide.
  - by apply remap_inv.
  - unfold cp_DisconnectClient. by case_match.
Qed.

(** ** Histories of pool calls *)

Inductive pool_trans (allowed : forall X, pool_op X -> ConnPool -> Prop) : ConnPool -> ConnPool -> Prop :=
| PoolTrans {X} (op : pool_op X) p :
    allowed X op p -> pool_trans allowed p (pool_step op p).2.

(** The states a history of calls that keep to [allowed] leads to. *)
Definition pool_reachable (allowed : forall X, pool_op X -> ConnPool -> Prop) (p : ConnPool) : Prop :=
  exists n, rtc (pool_trans allowed) (NewConnPool n) p.

Lemma pool_reachable_ind (allowed : forall X, pool_op X -> ConnPool -> Prop) (I : ConnPool -> Prop) p :
  (forall n, I (NewConnPool n)) ->
  (forall X (op : pool_op X) p, I p -> allowed X op p -> I (pool_step op p).2) ->
  pool_reachable allowed p -> I p.
Proof.
  intros H0 Hs [n Hr]. specialize (H0 n).
  induction Hr as [|p1 p2 p3 [X op q Hd] _ IH]; [done|]. by apply IH, Hs.
Qed.

Lemma pool_reachable_inv p : pool_reachable (@disciplined) p -> pool_inv p.
Proof.
  apply pool_reachable_ind; [|intros; by apply pool_step_inv].
  intros n. split; cbn; [intros id c; rewrite !lookup_empty; naive_solver|by rewrite dom_empty_L].
Qed.

Lemma pool_reachable_ok p : pool_reachable (@once) p -> pool_ok p.
Proof.
  apply pool_reachable_ind; [|intros; by apply pool_step_ok].
  intros n. split; cbn; [intros id c; by rewrite lookup_empty|by rewrite dom_empty_L].
Qed.

(** C25. Who gets what is written. Let connections be registered and
    unregistered, ids remapped, clients written to and disconnected in any order,
    each connection registered once. A write to a client never hits a missing
    mutex, and its bytes go to one connection, whose current id is that client's,
    or nowhere (with an error) when the client is unknown or the connection cannot
    be written to. If, besides, every connection was registered under an id that
    was not in use, and unregistered only after that, ids and connections are in
    bijection, so that connection is the only one with that id. (The server does
    not ensure the latter: [register_clobbers].) *)
Theorem pool_write_reaches_owner p id data :
  (pool_reachable (@once) p ->
   exists err, (cp_WriteToClient p id data).1 = Ret err /\
    match err with
    | Some _ => sent (net (cp_WriteToClient p id data).2) = sent (net p)
    | None => exists c, clients p !! id = Some c /\ connToID p !! c = Some id /\ cp_CurrentID p c = id /\
        sent (net (cp_WriteToClient p id data).2) = sent (net p) ++ [(c, data)]
    end) /\
  (pool_reachable (@disciplined) p ->
   (forall i c, clients p !! i = Some c <-> connToID p !! c = Some i) /\
   (forall c c' i, connToID p !! c = Some i -> connToID p !! c' = Some i -> c = c')).
Proof.
  split.
  - intros [Hb Hm]%pool_reachable_ok. unfold cp_WriteToClient.
    destruct (clients p !! id) as [c|] eqn:E; [|by eexists]. pose proof (Hb id c E) as Hc.
    rewrite decide_True by (rewrite Hm; apply elem_of_dom; by exists id).
    cbn [fst snd net]. unfold conn_Write. case_decide; [by eexists|].
    exists None. split; [done|]. exists c. split_and!; [done|done| |done]. unfold cp_CurrentID. by rewrite Hc.
  - intros [Hb _]%pool_reachable_inv. split; [done|]. intros c c' i Hc%Hb Hc'%Hb. congruence.
Qed.

(** Rebinding a connection at logon. [RemapClientID] succeeds exactly when
    the old id is bound and the new one is free or already this connection's;
    then that connection, and only that one, answers for the new id and the old
    id is free (unless the two are the same). When it fails nothing changes: an
    id bound to another connection is never taken over. *)
Theorem remap_spec p old new :
  pool_inv p ->
  ((cp_RemapClientID p old new).1 = true <->
     exists c, clients p !! old = Some c /\ (clients p !! new = None \/ clients p !! new = Some c)) /\
  ((cp_RemapClientID p old new).1 = false -> (cp_RemapClientID p old new).2 = p) /\
  ((cp_RemapClientID p old new).1 = true ->
     let p' := (cp_RemapClientID p old new).2 in
     exists c, connToID p !! c = Some old /\ cp_CurrentID p' c = new /\ clients p' !! new = Some c /\
       (old <> new -> clients p' !! old = None) /\
       (forall c', c' <> c -> connToID p' !! c' = connToID p !! c') /\
       (forall id, id <> old -> id <> new -> clients p' !! id = clients p !! id)).
Proof.
  intros [Hb _]. pose proof (remap_cases p old new) as [[Hr Hn]|(c & Ho & Hn & Hr)];
    rewrite Hr; cbn [fst snd].
  - split_and!; [|done|done]. split; [done|]. intros (c & Ho & Hnew). naive_solver.
  - split_and!; [by split; [exists c|]|done|]. intros _. exists c. cbn [clients connToID].
    split_and!.
    + by apply Hb.
    + unfold cp_CurrentID. cbn [connToID]. by rewrite lookup_insert_eq.
    + by rewrite lookup_insert_eq.
    + intros Hne. rewrite lookup_insert_ne by done. by rewrite lookup_delete_eq.
    + intros c' Hc'. by rewrite lookup_insert_ne.
    + intros id H1 H2. by rewrite lookup_insert_ne, lookup_delete_ne.
Qed.

(** The server's accept path gives no such guarantee by itself: the id it
    registers is the peer's address, and a logged-on user may have chosen that
    very text as its user id. *)
Definition impostor_pool : ConnPool :=
  let p := cp_Register (NewConnPool (mkNet [] ∅ ∅)) 1%nat "10.0.0.1:4000" in
  (cp_RemapClientID p "10.0.0.1:4000" "10.0.0.2:5000").2.

(** The takeover guard covers [RemapClientID] only. A client that logs on
    with another host's address as its user id is displaced when that host
    connects ([Register] overwrites the id), and when the first client then
    disconnects, [Unregister] removes the newcomer's id: the newcomer's live
    connection can no longer be written to. *)
Theorem register_clobbers :
  let p1 := cp_Register impostor_pool 2%nat "10.0.0.2:5000" in
  let p2 := (cp_Unregister p1 1%nat).2 in
  clients impostor_pool !! "10.0.0.2:5000"%string = Some 1%nat /\
  cp_CurrentID p1 1%nat = cp_CurrentID p1 2%nat /\
  cp_CurrentID p2 2%nat = "10.0.0.2:5000"%string /\
  (cp_WriteToClient p2 (cp_CurrentID p2 2%nat) []).1 = Ret (Some (not_connected "10.0.0.2:5000")).
Proof. vm_compute. repeat split. Qed.

(** A pool with two connections, one of them logged on as "alice". *)
Definition sample_pool : ConnPool :=
  (pool_step (RemapClientID "10.0.0.1:4000" "alice")
    (pool_step (Register 2%nat "10.0.0.2:5000")
      (pool_step (Register 1%nat "10.0.0.1:4000") (NewConnPool (mkNet [] ∅ ∅))).2).2).2.

Lemma sample_pool_reachable : pool_reachable (@disciplined) sample_pool.
Proof.
  exists (mkNet [] ∅ ∅). unfold sample_pool.
  eapply rtc_l; [apply (PoolTrans _ (Register 1%nat "10.0.0.1:4000")); vm_compute; by split|].
  eapply rtc_l; [apply (PoolTrans _ (Register 2%nat "10.0.0.2:5000")); vm_compute; by split|].
  eapply rtc_l; [|apply rtc_refl].
  by apply (PoolTrans _ (RemapClientID "10.0.0.1:4000" "alice")).
Qed.

(** The pool of [register_clobbers], with two connections under one id. *)
Definition clobbered_pool : ConnPool := (pool_step (Register 2%nat "10.0.0.2:5000") impostor_pool).2.

Lemma clobbered_pool_reachable : pool_reachable (@once) clobbered_pool.
Proof.
  exists (mkNet [] ∅ ∅). unfold clobbered_pool, impostor_pool.
  eapply rtc_l; [apply (PoolTrans _ (Register 1%nat "10.0.0.1:4000")); vm_compute; done|].
  eapply rtc_l; [by apply (PoolTrans _ (RemapClientID "10.0.0.1:4000" "10.0.0.2:5000"))|].
  eapply rtc_l; [|apply rtc_refl]. by apply (PoolTrans _ (Register 2%nat "10.0.0.2:5000")).
Qed.

Lemma pool_write_reaches_owner_witness :
  (exists err, (cp_WriteToClient clobbered_pool "10.0.0.2:5000" [Byte.x72]).1 = Ret err /\ err = None) /\
  clients sample_pool !! "alice"%string = Some 1%nat.
Proof.
  split.
  - destruct (proj1 (pool_write_reaches_owner clobbered_pool "10.0.0.2:5000" [Byte.x72])
      clobbered_pool_reachable) as (err & H1 & _). exists err. split; [exact H1|].
    vm_compute in H1. congruence.
  - apply (proj2 (pool_write_reaches_owner sample_pool "alice" [])); [exact sample_pool_reachable|reflexivity].
Defined.

Lemma remap_spec_witness :
  (cp_RemapClientID sample_pool "10.0.0.2:5000" "alice").2 = sample_pool.
Proof.
  apply (remap_spec sample_pool "10.0.0.2:5000" "alice"
    (pool_reachable_inv _ sample_pool_reachable)). reflexivity.
Defined.
