(* ===== verification/MovieTable.v ===== *)
(** * The table of live movies (inbound/mus/movie.go, group.go)

    [Movie] and [Group] objects are shared by reference, so they live in a heap;
    the table maps movie ids to locations. One step function gives the locked
    methods on them. *)

From Stdlib Require Import ZArith Lia String.
From stdpp Require Import base list strings gmap option sets.
From S2P Require Import Prelude GoFmt LValue LExtract LParse LRoundtrip Smus Effects Ports SessionStore.

Open Scope Z_scope.

(** ** Objects *)

Record Group := mkGroup {
  g_Name : string;
  g_movieID : string;
  g_persistent : bool;
  g_attributes : gmap string LValue
}.

Record Movie := mkMovie {
  m_Name : string;
  m_groups : gmap string loc
}.

Record MovieTable := mkTable {
  movies : gmap string loc;
  movie_heap : gmap loc Movie;
  group_heap : gmap loc Group;
  next_loc : loc
}.

Definition NewMovieTable : MovieTable := mkTable ∅ ∅ ∅ 0%nat.

Definition newMovie (name : string) : Movie := mkMovie name ∅.
Definition NewGroup (name movieID : string) (persistent : bool) : Group :=
  mkGroup name movieID persistent ∅.

Definition set_group (t : MovieTable) (l : loc) (g : Group) : MovieTable :=
  mkTable (movies t) (movie_heap t) (<[l := g]> (group_heap t)) (next_loc t).

Definition set_movie (t : MovieTable) (l : loc) (m : Movie) : MovieTable :=
  mkTable (movies t) (<[l := m]> (movie_heap t)) (group_heap t) (next_loc t).

(** The locked section of [JoinMovie]: the movie, created on first use. *)
Definition mt_GetOrCreateMovie (t : MovieTable) (movieID : string) : loc * MovieTable :=
  match movies t !! movieID with
  | Some l => (l, t)
  | None =>
      let l := next_loc t in
      (l, mkTable (<[movieID := l]> (movies t)) (<[l := newMovie movieID]> (movie_heap t))
            (group_heap t) (S l))
  end.

Definition mt_AllocGroup (t : MovieTable) (name movieID : string) (persistent : bool) :
    loc * MovieTable :=
  let l := next_loc t in
  (l, mkTable (movies t) (movie_heap t) (<[l := NewGroup name movieID persistent]> (group_heap t)) (S l)).

Definition mt_groups (t : MovieTable) (l : loc) : gmap string loc :=
  match movie_heap t !! l with Some m => m_groups m | None => ∅ end.

Definition mt_attributes (t : MovieTable) (l : loc) : gmap string LValue :=
  match group_heap t !! l with Some g => g_attributes g | None => ∅ end.

Definition mt_AddGroup (t : MovieTable) (l : loc) (name : string) (group : loc) : MovieTable :=
  match movie_heap t !! l with
  | Some m => set_movie t l (mkMovie (m_Name m) (<[name := group]> (m_groups m)))
  | None => t
  end.

Definition mt_RemoveGroup (t : MovieTable) (l : loc) (name : string) : MovieTable :=
  match movie_heap t !! l with
  | Some m => set_movie t l (mkMovie (m_Name m) (delete name (m_groups m)))
  | None => t
  end.

(** An update of a group object's attribute map. *)
Definition with_attributes (t : MovieTable) (l : loc)
    (f : gmap string LValue -> gmap string LValue) : MovieTable :=
  match group_heap t !! l with
  | Some g => set_group t l (mkGroup (g_Name g) (g_movieID g) (g_persistent g) (f (g_attributes g)))
  | None => t
  end.

Definition GetAttribute (attrs : gmap string LValue) (name : string) : LValue :=
  match attrs !! name with Some v => v | None => LVoid end.

Section Table.
Context `{MapOrder}.

Definition movie_step {X} (op : movie_op X) (t : MovieTable) : X * MovieTable :=
  match op in movie_op X return X * MovieTable with
  | GetOrCreateMovie id => mt_GetOrCreateMovie t id
  | GetMovie id => (movies t !! id, t)
  | GetMovies => (range (dom (movies t)), t)
  | DeleteMovie id =>
      (tt, mkTable (delete id (movies t)) (movie_heap t) (group_heap t) (next_loc t))
  | AddGroup l name g => (tt, mt_AddGroup t l name g)
  | RemoveGroup l name => (tt, mt_RemoveGroup t l name)
  | GetGroup l name => (mt_groups t l !! name, t)
  | GetGroupNames l => (range (dom (mt_groups t l)), t)
  | GetGroupCount l => (Z.of_nat (size (mt_groups t l)), t)
  | AllocGroup name id persistent => mt_AllocGroup t name id persistent
  | Group_GetAttribute l name => (GetAttribute (mt_attributes t l) name, t)
  | Group_SetAttribute l name v => (tt, with_attributes t l (insert name v))
  | Group_DeleteAttribute l name => (tt, with_attributes t l (delete name))
  | Group_GetAttributeNames l => (range (dom (mt_attributes t l)), t)
  end.
End Table.

(** ** The heap has no dangling references *)

Record table_inv (t : MovieTable) : Prop := {
  ti_movie : forall id l, movies t !! id = Some l ->
    exists m, movie_heap t !! l = Some m /\ m_Name m = id;
  ti_group : forall l m n g, movie_heap t !! l = Some m -> m_groups m !! n = Some g ->
    is_Some (group_heap t !! g);
  ti_fresh_movie : forall l, is_Some (movie_heap t !! l) -> (l < next_loc t)%nat;
  ti_fresh_group : forall l, is_Some (group_heap t !! l) -> (l < next_loc t)%nat
}.

(** The one call with a condition: the group added must have been allocated. *)
Definition table_ok {X} (op : movie_op X) (t : MovieTable) : Prop :=
  match op with AddGroup _ _ g => is_Some (group_heap t !! g) | _ => True end.

Lemma NewMovieTable_inv : table_inv NewMovieTable.
Proof.
  split; cbn [NewMovieTable movies movie_heap group_heap]; intros *; rewrite ?lookup_empty;
    try done; by intros [? ?].
Qed.

Lemma GetOrCreateMovie_inv t id : table_inv t -> table_inv (mt_GetOrCreateMovie t id).2.
Proof.
  intros [Hm Hg Hfm Hfg]. unfold mt_GetOrCreateMovie. destruct (movies t !! id) eqn:E; [by split|].
  split; cbn [snd movies movie_heap group_heap next_loc].
  - intros id' l'. rewrite lookup_insert_Some. intros [[<- <-]|[Hne Hl]].
    + exists (newMovie id). by rewrite lookup_insert_eq.
    + destruct (Hm _ _ Hl) as (m & Hl' & <-). exists m. split; [|done].
      rewrite lookup_insert_ne; [done|]. intros <-.
      assert (next_loc t < next_loc t)%nat by (apply Hfm; eauto). lia.
  - intros l' m n g. rewrite lookup_insert_Some. intros [[<- <-]|[_ Hl]] Hn; [|eauto].
    cbn in Hn. by rewrite lookup_empty in Hn.
  - intros l' [m Hl]. rewrite lookup_insert_Some in Hl. destruct Hl as [[<- _]|[_ Hl]]; [lia|].
    assert (l' < next_loc t)%nat by (apply Hfm; eauto). lia.
  - intros l' Hl. apply Hfg in Hl. lia.
Qed.

Lemma AllocGroup_inv t n id b : table_inv t -> table_inv (mt_AllocGroup t n id b).2.
Proof.
  intros [Hm Hg Hfm Hfg]. split; cbn [mt_AllocGroup snd movies movie_heap group_heap next_loc].
  - done.
  - intros l m n' g Hl Hn. destruct (Hg _ _ _ _ Hl Hn) as [o Ho].
    destruct (decide (g = next_loc t)) as [->|Hne]; [by rewrite lookup_insert_eq|].
    rewrite lookup_insert_ne by done. eauto.
  - intros l Hl. apply Hfm in Hl. lia.
  - intros l [o Hl]. rewrite lookup_insert_Some in Hl. destruct Hl as [[<- _]|[_ Hl]]; [lia|].
    assert (l < next_loc t)%nat by (apply Hfg; eauto). lia.
Qed.

(** Changing the group map of a movie to another one without dangling entries. *)
Lemma set_movie_inv t l m f :
  table_inv t -> movie_heap t !! l = Some m ->
  (forall n g, f !! n = Some g -> is_Some (group_heap t !! g)) ->
  table_inv (set_movie t l (mkMovie (m_Name m) f)).
Proof.
  intros [Hm Hg Hfm Hfg] Hl Hf. split; cbn [set_movie movies movie_heap group_heap next_loc].
  - intros id l' Hid. destruct (Hm _ _ Hid) as (m' & Hl' & <-).
    destruct (decide (l' = l)) as [->|Hne].
    + eexists. rewrite lookup_insert_eq. split; [done|]. cbn. congruence.
    + exists m'. by rewrite lookup_insert_ne.
  - intros l' m' n g. rewrite lookup_insert_Some. intros [[<- <-]|[_ Hl']]; [apply Hf|eauto].
  - intros l' [m' Hl']. rewrite lookup_insert_Some in Hl'.
    destruct Hl' as [[<- _]|[_ ?]]; apply Hfm; eauto.
  - done.
Qed.

Lemma with_attributes_inv t l f : table_inv t -> table_inv (with_attributes t l f).
Proof.
  intros [Hm Hg Hfm Hfg]. unfold with_attributes. destruct (group_heap t !! l) as [g|] eqn:E; [|by split].
  assert (forall l', is_Some (<[l := mkGroup (g_Name g) (g_movieID g) (g_persistent g)
    (f (g_attributes g))]> (group_heap t) !! l') <-> is_Some (group_heap t !! l')) as Hdom.
  { intros l'. rewrite lookup_insert_is_Some. split; [|destruct (decide (l = l')); naive_solver].
    intros [<-|[_ ?]]; [by eexists|done]. }
  split; cbn [set_group movies movie_heap group_heap next_loc]; try done.
  - intros l' m n g' Hl Hn. apply Hdom. eauto.
  - intros l' Hl. apply Hdom in Hl. auto.
Qed.

(** The movie table never holds a dangling reference: every method keeps
    the invariant that a listed movie has an object carrying its own name and
    that the groups of a movie have objects, provided groups are allocated
    before they are added (which both call sites do). *)
Theorem movie_step_inv `{MapOrder} {X} (op : movie_op X) t :
  table_inv t -> table_ok op t -> table_inv (movie_step op t).2.
Proof.
  intros Ht Hok. destruct op; cbn [movie_step snd table_ok] in *; try done.
  - by apply GetOrCreateMovie_inv.
  - destruct Ht as [Hm Hg Hfm Hfg]. split; cbn [movies movie_heap group_heap next_loc]; try done.
    intros id l. rewrite lookup_delete_Some. intros [_ ?]. eauto.
  - unfold mt_AddGroup. destruct (movie_heap t !! movie) as [m|] eqn:E; [|done].
    apply set_movie_inv; [done|done|]. intros n g. rewrite lookup_insert_Some.
    intros [[_ <-]|[_ ?]]; [done|]. by eapply (ti_group _ Ht).
  - unfold mt_RemoveGroup. destruct (movie_heap t !! movie) as [m|] eqn:E; [|done].
    apply set_movie_inv; [done|done|]. intros n g. rewrite lookup_delete_Some.
    intros [_ ?]. by eapply (ti_group _ Ht).
  - by apply AllocGroup_inv.
  - by apply with_attributes_inv.
  - by apply with_attributes_inv.
Qed.

Lemma movie_step_inv_witness :
  table_inv (movie_step (GetOrCreateMovie "lobby") NewMovieTable).2.
Proof. apply (movie_step_inv (GetOrCreateMovie "lobby") NewMovieTable NewMovieTable_inv). done. Defined.
