(* ===== verification/Interfaces.v ===== *)
(** * What the services rely on

    The interfaces between the components. [SessionPort] is what a session store
    promises its clients: its methods succeed, answer and act as the abstract
    specification says, and no other port changes the sessions. [PoolPort] and
    [MoviePort] say the same of the connection pool and of the movie table. Services are proved against these classes;
    the running system (World.v) discharges them with the memory store, the
    pool and the table. *)

From Stdlib Require Import ZArith Lia.
From stdpp Require Import base list strings gmap option sets.
From S2P Require Import Prelude GoFmt LValue LExtract LParse LRoundtrip Smus Effects Ports SessionStore ConnPool.
From S2P Require Import MovieTable.

Open Scope Z_scope.

(** Which component a call belongs to. *)
Definition is_sess {X} (e : port X) : bool := match e with Sess _ => true | _ => false end.
Definition is_mov {X} (e : port X) : bool := match e with Mov _ => true | _ => false end.
Definition is_pool {X} (e : port X) : bool := match e with Pool _ => true | _ => false end.

Section Classes.
Context {W : Type} (h : forall X, port X -> W -> X * W).

Class SessionPort := {
  sp_inv : W -> Prop;
  sp_view : W -> Sessions;
  sp_step : forall X (op : ss_op X) w, sp_inv w ->
    exists x, (h _ (Sess op) w).1 = inr x /\ spec_reply op (sp_view w) x /\
      sp_view (h _ (Sess op) w).2 = spec_next op (sp_view w) /\ sp_inv (h _ (Sess op) w).2;
  sp_frame : forall X (e : port X) w, is_sess e = false -> sp_inv w ->
    sp_view (h _ e w).2 = sp_view w /\ sp_inv (h _ e w).2
}.

Class PoolPort := {
  pp_pool : W -> ConnPool;
  pp_step : forall X (op : pool_op X) w,
    (h _ (Pool op) w).1 = (pool_step op (pp_pool w)).1 /\
    pp_pool (h _ (Pool op) w).2 = (pool_step op (pp_pool w)).2;
  pp_frame : forall X (e : port X) w, is_pool e = false -> pp_pool (h _ e w).2 = pp_pool w
}.

(** The table of live movies; its listings follow some iteration order. *)
Class MoviePort := {
  mp_order : MapOrder;
  mp_table : W -> MovieTable;
  mp_step : forall X (op : movie_op X) w,
    (h _ (Mov op) w).1 = (movie_step (H := mp_order) op (mp_table w)).1 /\
    mp_table (h _ (Mov op) w).2 = (movie_step (H := mp_order) op (mp_table w)).2;
  mp_frame : forall X (e : port X) w, is_mov e = false -> mp_table (h _ e w).2 = mp_table w
}.
End Classes.

Arguments sp_inv {W h _} w.
Arguments sp_view {W h _} w.
Arguments pp_pool {W h _} w.
Arguments mp_table {W h _} w.
Arguments mp_order {W h} _.

Section Use.
Context {W : Type} {h : forall X, port X -> W -> X * W} `{!SessionPort h, !PoolPort h}.

(** A session call inside a program: it cannot fail. *)
Lemma run_sess {A X} (op : ss_op X) (k : error + X -> M A) w :
  sp_inv w ->
  exists x w', run h (sess op ≫= k) w = run h (k (inr x)) w' /\
    spec_reply op (sp_view w) x /\ sp_view w' = spec_next op (sp_view w) /\ sp_inv w' /\
    pp_pool w' = pp_pool w.
Proof.
  intros Hw. destruct (sp_step h X op w Hw) as (x & Hx & Hr & Hv & Hi).
  exists x, (h _ (Sess op) w).2. unfold sess. prun. rewrite Hx. split_and!; auto.
  by apply (pp_frame h).
Qed.

(** A pool call inside a program. *)
Lemma run_pool {A X} (op : pool_op X) (k : X -> M A) w x :
  sp_inv w -> (pool_step op (pp_pool w)).1 = Some x ->
  exists w', run h (pool op ≫= k) w = run h (k x) w' /\
    sp_view w' = sp_view w /\ sp_inv w' /\ pp_pool w' = (pool_step op (pp_pool w)).2.
Proof.
  intros Hw Hx. destruct (pp_step h X op w) as [Ho Hp]. exists (h _ (Pool op) w).2.
  destruct (sp_frame h _ (Pool op) w eq_refl Hw) as [Hv Hi].
  unfold pool. prun. rewrite Ho, Hx. prun. auto.
Qed.

(** Any other call: neither the sessions nor the pool move. *)
Lemma run_other {A X} (e : port X) (k : X -> M A) w :
  is_sess e = false -> is_pool e = false -> sp_inv w ->
  exists w', run h (call_ e ≫= k) w = run h (k (h _ e w).1) w' /\
    sp_view w' = sp_view w /\ sp_inv w' /\ pp_pool w' = pp_pool w.
Proof.
  intros Hs Hp Hw. destruct (sp_frame h _ e w Hs Hw) as [Hv Hi]. exists (h _ e w).2.
  prun. split_and!; auto. by apply (pp_frame h).
Qed.
End Use.

(** Execute the session call, the pool call or the other call a program starts
    with; the facts about the new state are named after it. *)
Tactic Notation "sess_call" ident(x) ident(w') simple_intropattern(pat) :=
  match goal with
  | |- context [run ?h (mbind ?k (sess ?op)) ?w] =>
      let E := fresh in
      destruct (run_sess (h := h) op k w) as (x & w' & E & pat); [assumption|];
      rewrite E; clear E
  end.

Tactic Notation "other_call" ident(w') simple_intropattern(pat) :=
  match goal with
  | |- context [run ?h (mbind ?k (call_ ?e)) ?w] =>
      let E := fresh in
      destruct (run_other (h := h) e k w eq_refl eq_refl) as (w' & E & pat); [assumption|];
      rewrite E; clear E
  end.

(** ** Symbolic execution

    With all three interfaces a program is executed on a description of the
    state: the sessions, the pool and the movie table. *)

Section System.
Context {W : Type} {h : forall X, port X -> W -> X * W}.
Context `{!SessionPort h, !PoolPort h, !MoviePort h}.

Definition at_ (w : W) (a : Sessions) (p : ConnPool) (t : MovieTable) : Prop :=
  sp_inv w /\ sp_view w = a /\ pp_pool w = p /\ mp_table w = t.

Lemma at_here w : sp_inv w -> at_ w (sp_view w) (pp_pool w) (mp_table w).
Proof. intros Hi. by unfold at_. Qed.

Lemma at_sessions w a a' p t : a = a' -> at_ w a p t -> at_ w a' p t.
Proof. by intros ->. Qed.

Lemma sys_sess {A X} (op : ss_op X) (k : error + X -> M A) w a p t :
  at_ w a p t ->
  exists x w', run h (sess op ≫= k) w = run h (k (inr x)) w' /\
    spec_reply op a x /\ at_ w' (spec_next op a) p t.
Proof.
  intros (Hi & <- & <- & <-). destruct (sp_step h X op w Hi) as (x & Hx & Hr & Hv & Hi').
  exists x, (h _ (Sess op) w).2. unfold sess, at_. prun. rewrite Hx.
  split_and!; auto; [by apply (pp_frame h)|by apply (mp_frame h)].
Qed.

Lemma sys_mov {A X} (op : movie_op X) (k : X -> M A) w a p t :
  at_ w a p t ->
  exists w', run h (mov op ≫= k) w = run h (k (movie_step (H := mp_order _) op t).1) w' /\
    at_ w' a p (movie_step (H := mp_order _) op t).2.
Proof.
  intros (Hi & <- & <- & <-). destruct (mp_step h X op w) as [Hx Ht].
  destruct (sp_frame h _ (Mov op) w eq_refl Hi) as [Hv Hi'].
  exists (h _ (Mov op) w).2. unfold mov, at_. prun. rewrite Hx.
  split_and!; auto. by apply (pp_frame h).
Qed.

(** A call in tail position. *)
Lemma sys_sess_last {X} (op : ss_op X) w a p t :
  at_ w a p t ->
  exists x w', run h (sess op) w = (Ret (inr x), w') /\
    spec_reply op a x /\ at_ w' (spec_next op a) p t.
Proof.
  intros Hat. destruct (sys_sess op mret w a p t Hat) as (x & w' & Hr & Hx & Ha).
  exists x, w'. split; [|done]. revert Hr. unfold sess. prun. auto.
Qed.

Lemma sys_mov_last {X} (op : movie_op X) w a p t :
  at_ w a p t ->
  exists w', run h (mov op) w = (Ret (movie_step (H := mp_order _) op t).1, w') /\
    at_ w' a p (movie_step (H := mp_order _) op t).2.
Proof.
  intros Hat. destruct (sys_mov op mret w a p t Hat) as (w' & Hr & Ha).
  exists w'. split; [|done]. revert Hr. unfold mov. prun. auto.
Qed.

Lemma sys_pool {A X} (op : pool_op X) (k : X -> M A) w a p t x :
  at_ w a p t -> (pool_step op p).1 = Some x ->
  exists w', run h (pool op ≫= k) w = run h (k x) w' /\ at_ w' a (pool_step op p).2 t.
Proof.
  intros (Hi & <- & <- & <-) Hx. destruct (pp_step h X op w) as [Ho Hp].
  destruct (sp_frame h _ (Pool op) w eq_refl Hi) as [Hv Hi'].
  exists (h _ (Pool op) w).2. unfold pool, at_. prun. rewrite Ho, Hx. prun.
  split_and!; auto. by apply (mp_frame h).
Qed.

Lemma sys_other {A X} (e : port X) (k : X -> M A) w a p t :
  is_sess e = false -> is_pool e = false -> is_mov e = false -> at_ w a p t ->
  exists w', run h (call_ e ≫= k) w = run h (k (h _ e w).1) w' /\ at_ w' a p t.
Proof.
  intros H1 H2 H3 (Hi & <- & <- & <-). destruct (sp_frame h _ e w H1 Hi) as [Hv Hi'].
  exists (h _ e w).2. unfold at_. prun. split_and!; auto; [by apply (pp_frame h)|by apply (mp_frame h)].
Qed.
End System.

(** Execute the first call of the program in the goal; the hypothesis that
    describes the state is replaced by the description of the next one. *)
Ltac sys_step Hat :=
  lazymatch type of Hat with
  | at_ ?w ?a ?p ?t =>
    let w' := fresh "w" in let E := fresh "E" in let Hn := fresh "Hat" in
    lazymatch goal with
    | |- context [run ?h (mbind ?k (sess ?op)) w] =>
        let x := fresh "x" in let Hx := fresh "Hx" in
        destruct (sys_sess (h := h) op k w a p t Hat) as (x & w' & E & Hx & Hn)
    | |- context [run ?h (mbind ?k (mov ?op)) w] =>
        destruct (sys_mov (h := h) op k w a p t Hat) as (w' & E & Hn)
    | |- context [run ?h (sess ?op) w] =>
        let x := fresh "x" in let Hx := fresh "Hx" in
        destruct (sys_sess_last (h := h) op w a p t Hat) as (x & w' & E & Hx & Hn)
    | |- context [run ?h (mov ?op) w] =>
        destruct (sys_mov_last (h := h) op w a p t Hat) as (w' & E & Hn)
    | |- context [run ?h (mbind ?k (call_ ?e)) w] =>
        destruct (sys_other (h := h) e k w a p t eq_refl eq_refl eq_refl Hat) as (w' & E & Hn)
    end; rewrite E; clear E Hat; rename Hn into Hat
  end.
