(* ===== verification/Services.v ===== *)
(** * Logon and authorization (domain/services)

    [Authorizer] (authorizer.go) decides whether a session may run a command;
    [LogonService] (logon_service.go) authenticates a connection in one of four
    modes and establishes its session. Both are programs over the ports. The
    theorems of this file hold for every implementation of the ports: a database
    or a session store that fails at any call is covered. *)

From Stdlib Require Import ZArith Lia.
From stdpp Require Import base list strings gmap option.
From S2P Require Import Prelude GoFmt LValue LExtract LParse LRoundtrip Smus Effects Ports.

Open Scope Z_scope.

Definition UserLevelAttribute : string := "#userLevel".

(** ** Authorizer *)

Definition defaultAdminLevel : Z := 80.

Record Authorizer := mkAuthorizer { commandLevels : gmap string Z }.

Definition UserLevel (userID : string) : M Z :=
  r ← sess (GetUserAttribute userID UserLevelAttribute);
  mret (match r with inl _ => 0 | inr val => ToInteger val end).

Definition CanRun (a : Authorizer) (senderID command : string) : M bool :=
  match commandLevels a !! command with
  | None => mret false
  | Some requiredLevel => l ← UserLevel senderID; mret (requiredLevel <=? l)
  end.

Definition AdminLevel (a : Authorizer) : Z :=
  match commandLevels a !! "DBAdmin.createUser"%string with
  | Some lvl => lvl
  | None => defaultAdminLevel
  end.

Definition OwnerOrAdmin (a : Authorizer) (senderID targetUserID : string) : M bool :=
  if decide (targetUserID = senderID) then mret true
  else l ← UserLevel senderID; mret (AdminLevel a <=? l).

(** ** LogonService *)

Inductive LogonCode :=
| LogonOK
| LogonBadCredentialsFormat
| LogonInvalidUser
| LogonInvalidPassword
| LogonRefused
| LogonInternalError.

#[export] Instance LogonCode_eq_dec : EqDecision LogonCode.
Proof. solve_decision. Defined.

Record LogonCredentials := mkCredentials {
  lc_MovieID : string;
  lc_UserID : string;
  lc_Password : string
}.

Record LogonRequest := mkLogonRequest {
  lr_ConnectionID : string;
  lr_SenderID : string;
  lr_Credentials : option LogonCredentials
}.

Record LogonResult := mkLogonResult {
  res_Code : LogonCode;
  res_UserID : string;
  res_UserLevel : Z;
  res_MovieID : string
}.

(** The service's configuration: the mode, the default level, and whether a
    token store and a connection writer were supplied. *)
Record LogonService := mkLogonService {
  ls_mode : string;
  ls_defaultLevel : Z;
  ls_tokens : bool;
  ls_connWriter : bool
}.

(** [LogonResult{Code: code, UserID: userID}] *)
Definition logon_fail (code : LogonCode) (userID : string) : LogonResult :=
  mkLogonResult code userID 0 "".

Definition validateCredentials (user : User) (password : string) : M LogonCode :=
  err ← call_ (CompareHashAndPassword (u_PasswordHash user) password);
  match err with
  | Some _ => mret LogonInvalidPassword
  | None =>
      r ← db (GetActiveBanByUserID (u_ID user));
      match r with
      | inr (Some _) => mret LogonRefused
      | _ => mret LogonOK
      end
  end.

(** The tail of [establishSession] after the guards. *)
Definition bind_session (connectionID userID movieID : string) (userLevel : Z) : M LogonResult :=
  existing ← sess (GetConnection connectionID);
  let ip := match existing with
            | inr (Some c) => if decide (ci_IP c = ""%string) then connectionID else ci_IP c
            | _ => connectionID
            end in
  _ ← sess (UnregisterConnection connectionID);
  now ← call_ Now;
  _ ← sess (RegisterConnection userID ip now);
  _ ← sess (SetUserAttribute userID UserLevelAttribute (LInteger (int32 userLevel)));
  mret (mkLogonResult LogonOK userID userLevel movieID).

(** The connection remap, skipped without a connection writer. *)
Definition remap_guard (s : LogonService) (connectionID userID movieID : string) (userLevel : Z) :
    M LogonResult :=
  if ls_connWriter s then
    ok ← pool (RemapClientID connectionID userID);
    if (ok : bool) then bind_session connectionID userID movieID userLevel
    else mret (logon_fail LogonRefused userID)
  else bind_session connectionID userID movieID userLevel.

Definition establishSession (s : LogonService) (connectionID userID movieID : string)
    (userLevel : Z) : M LogonResult :=
  if decide (userID = connectionID) then remap_guard s connectionID userID movieID userLevel
  else
    existing ← sess (GetConnection userID);
    match existing with
    | inr (Some _) => mret (logon_fail LogonRefused userID)
    | _ => remap_guard s connectionID userID movieID userLevel
    end.

(** Credentials checked against an account, then the session. *)
Definition logon_account (s : LogonService) (req : LogonRequest) (user : User)
    (userID password movieID : string) : M LogonResult :=
  code ← validateCredentials user password;
  if decide (code = LogonOK) then
    establishSession s (lr_ConnectionID req) userID movieID (u_UserLevel user)
  else mret (logon_fail code userID).

(** The switch on the mode, with the identity the request claims. *)
Definition logon_mode (s : LogonService) (req : LogonRequest) (userID password movieID : string) :
    M LogonResult :=
  if decide (ls_mode s = "none"%string) then
    establishSession s (lr_ConnectionID req) userID movieID (ls_defaultLevel s)
  else if decide (ls_mode s = "token"%string) then
    if ls_tokens s then
      r ← call_ (ValidateToken password);
      match r with
      | inl _ => mret (logon_fail LogonInvalidPassword userID)
      | inr payload =>
          establishSession s (lr_ConnectionID req) (tp_CharacterName payload) movieID
            (tp_UserLevel payload)
      end
    else mret (logon_fail LogonInternalError userID)
  else if decide (ls_mode s = "strict"%string) then
    r ← db (GetUser userID);
    match r with
    | inl _ => mret (logon_fail LogonInvalidUser userID)
    | inr user => logon_account s req user userID password movieID
    end
  else
    r ← db (GetUser userID);
    match r with
    | inl err =>
        if decide (err = ErrUserNotFound) then
          establishSession s (lr_ConnectionID req) userID movieID (ls_defaultLevel s)
        else mret (logon_fail LogonInternalError userID)
    | inr user => logon_account s req user userID password movieID
    end.

Definition Logon (s : LogonService) (req : LogonRequest) : M LogonResult :=
  match lr_Credentials req with
  | None =>
      if decide (ls_mode s = "strict"%string \/ ls_mode s = "token"%string) then
        mret (logon_fail LogonBadCredentialsFormat (lr_SenderID req))
      else logon_mode s req (lr_SenderID req) "" ""
  | Some c => logon_mode s req (lc_UserID c) (lc_Password c) (lc_MovieID c)
  end.

(** ** What a successful logon proves *)

Section AnyPorts.
Context {W : Type} (h : forall X, port X -> W -> X * W).

Abbreviation ans e w := (h _ e w).1.
Abbreviation aft e w := (h _ e w).2.

(** The identity the request claims, and the password it carries. *)
Definition claimed (req : LogonRequest) : string * string * string :=
  match lr_Credentials req with
  | Some c => (lc_UserID c, lc_Password c, lc_MovieID c)
  | None => (lr_SenderID req, ""%string, ""%string)
  end.

(** The account's password matched and no active ban was reported. *)
Definition account_ok (u : User) (password : string) (w : W) : Prop :=
  let cmp := CompareHashAndPassword (u_PasswordHash u) password in
  ans cmp w = None /\
  forall b, ans (Db (GetActiveBanByUserID (u_ID u))) (aft cmp w) <> inr (Some b).

(** Who may be logged on by a request, and at which level, per mode. *)
Definition authenticated (s : LogonService) (req : LogonRequest) (w : W)
    (userID : string) (level : Z) : Prop :=
  let '(claim, password, _) := claimed req in
  let got := ans (Db (GetUser claim)) w in
  let by_account := userID = claim /\ exists u, got = inr u /\ level = u_UserLevel u /\
    account_ok u password (aft (Db (GetUser claim)) w) in
  let by_default := userID = claim /\ level = ls_defaultLevel s in
  if decide (ls_mode s = "none"%string) then by_default
  else if decide (ls_mode s = "token"%string) then
    is_Some (lr_Credentials req) /\ ls_tokens s = true /\
    exists t, ans (ValidateToken password) w = inr t /\
      userID = tp_CharacterName t /\ level = tp_UserLevel t
  else if decide (ls_mode s = "strict"%string) then is_Some (lr_Credentials req) /\ by_account
  else by_account \/ (by_default /\ got = inl ErrUserNotFound).

(** [ok_only P p]: when [p], run in [w], reports LogonOK, [P] holds of the
    user and the level it reports. *)
Definition ok_only (P : string -> Z -> Prop) (p : M LogonResult) (w : W) : Prop :=
  forall r, (run h p w).1 = Ret r -> res_Code r = LogonOK -> P (res_UserID r) (res_UserLevel r).

Lemma ok_only_fail P code u w : code <> LogonOK -> ok_only P (mret (logon_fail code u)) w.
Proof. intros Hc r [= <-] Hr. done. Qed.

Lemma ok_only_call {X} P (e : port X) (k : X -> M LogonResult) w :
  ok_only P (k (ans e w)) (aft e w) -> ok_only P (call_ e ≫= k) w.
Proof. intros Hk. unfold ok_only. by prun. Qed.

Lemma ok_only_bind P c u m l w : P u l -> ok_only P (bind_session c u m l) w.
Proof. intros HP r. unfold bind_session, sess. prun. by intros [= <-] _. Qed.

Lemma ok_only_establish P s c u m l w : P u l -> ok_only P (establishSession s c u m l) w.
Proof.
  intros HP. assert (forall w, ok_only P (remap_guard s c u m l) w) as Hg.
  { clear w. intros w. unfold remap_guard, pool.
    destruct (ls_connWriter s); [|by apply ok_only_bind].
    unfold ok_only. prun. destruct (ans (Pool _) w) as [[]|]; prun; [|by intros r [= <-]|done].
    by apply ok_only_bind. }
  unfold establishSession, sess. case_decide; [apply Hg|]. apply ok_only_call.
  destruct (ans (Sess _) w) as [e|[i|]]; [apply Hg|by apply ok_only_fail|apply Hg].
Qed.

Lemma ok_only_account (P : string -> Z -> Prop) s req u uid pw m w :
  (account_ok u pw w -> P uid (u_UserLevel u)) -> ok_only P (logon_account s req u uid pw m) w.
Proof.
  intros HP. unfold ok_only, logon_account, validateCredentials, db. prun.
  destruct (ans (CompareHashAndPassword _ _) w) eqn:Ec.
  { prun. rewrite decide_False by done. by apply ok_only_fail. }
  prun. destruct (ans (Db _) _) as [e|[b|]] eqn:Eb; prun.
  - rewrite decide_True by done. apply ok_only_establish, HP. split; [done|]. congruence.
  - rewrite decide_False by done. by apply ok_only_fail.
  - rewrite decide_True by done. apply ok_only_establish, HP. split; [done|]. congruence.
Qed.

(** C1. A logon that succeeds was authenticated, in every mode and whatever
    the database, the token store and the session store answer. "none" takes
    the claimed identity at the default level; "token" takes the name and the
    level of the token the store validated; "strict" needs an account whose
    password matched and for which no active ban was returned, and uses its
    level; the default mode either does the same or, only when the account
    does not exist, uses the default level. *)
Theorem logon_sound s req w r :
  (run h (Logon s req) w).1 = Ret r -> res_Code r = LogonOK ->
  authenticated s req w (res_UserID r) (res_UserLevel r).
Proof.
  revert r. change (ok_only (authenticated s req w) (Logon s req) w).
  assert (lr_Credentials req = None /\ (ls_mode s = "strict"%string \/ ls_mode s = "token"%string) \/
    Logon s req = logon_mode s req (claimed req).1.1 (claimed req).1.2 (claimed req).2 /\
    (ls_mode s = "strict"%string \/ ls_mode s = "token"%string -> is_Some (lr_Credentials req)))
    as [[Hn Hm]|[-> Hcred]].
  { unfold Logon, claimed. destruct (lr_Credentials req) as [c|]; [right; eauto|].
    case_decide; [by left|right; naive_solver]. }
  - unfold Logon. rewrite Hn, decide_True by done. by apply ok_only_fail.
  - unfold authenticated, logon_mode. destruct (claimed req) as [[claim pw] mv]. cbn [fst snd].
    case_decide as H1; [by apply ok_only_establish|].
    case_decide as H2; [|case_decide as H3].
    + destruct (ls_tokens s); [|by apply ok_only_fail]. apply ok_only_call.
      destruct (ans (ValidateToken pw) w) as [e|t] eqn:Et; [by apply ok_only_fail|].
      apply ok_only_establish. split_and!; [auto|done|by exists t].
    + apply ok_only_call. destruct (ans (Db (GetUser claim)) w) as [e|u] eqn:Eu;
        [by apply ok_only_fail|]. apply ok_only_account. intros Ha. split_and!; [auto|done|by exists u].
    + apply ok_only_call. destruct (ans (Db (GetUser claim)) w) as [e|u] eqn:Eu.
      * case_decide as He; [|by apply ok_only_fail]. apply ok_only_establish. right.
        by subst.
      * apply ok_only_account. intros Ha. left. split; [done|by exists u].
Qed.
End AnyPorts.
