(* ===== verification/LogonSession.v ===== *)
(** * The effect of a logon on sessions and connections

    [LogonService.Logon] against the session-store and pool interfaces: it always
    returns; a refusal leaves every session and every connection as it was; a
    success moves the connection to the authenticated user, with its address and
    its level, and leaves the other clients alone. With [Authorizer] the level
    stamped by the logon is the one later commands are checked against. *)

From Stdlib Require Import ZArith Lia.
From stdpp Require Import base list strings gmap option sets.
From S2P Require Import Prelude GoFmt LValue LExtract LParse LRoundtrip Smus Effects Ports SessionStore ConnPool.
From S2P Require Import Interfaces Services.

Open Scope Z_scope.

(** The address a session keeps: that of the connection, if known. *)
Definition client_ip (info : option ConnectionInfo) (connectionID : string) : string :=
  match info with
  | Some c => if decide (ci_IP c = ""%string) then connectionID else ci_IP c
  | None => connectionID
  end.

(** Nothing is recorded about a client, or the same things. *)
Definition forgotten (c : string) (a : Sessions) : Prop :=
  s_conns a !! c = None /\ (forall n, s_attrs a !! (c, n) = None) /\
  (forall r, (r, c) ∉ s_members a).

Definition untouched (c : string) (a b : Sessions) : Prop :=
  s_conns b !! c = s_conns a !! c /\
  (forall n, s_attrs b !! (c, n) = s_attrs a !! (c, n)) /\
  (forall r, (r, c) ∈ s_members b <-> (r, c) ∈ s_members a).

Lemma unregister_forgotten c a : forgotten c (spec_next (UnregisterConnection c) a).
Proof.
  unfold forgotten. cbn [spec_next s_conns s_attrs s_members]. split_and!.
  - by rewrite lookup_delete_eq.
  - intros n. apply map_lookup_filter_None. right. naive_solver.
  - intros r. unfold without_client. rewrite elem_of_filter. naive_solver.
Qed.

Lemma unregister_untouched c d a : d <> c -> untouched d a (spec_next (UnregisterConnection c) a).
Proof.
  intros Hd. unfold untouched. cbn [spec_next s_conns s_attrs s_members]. split_and!.
  - by rewrite lookup_delete_ne.
  - intros n. destruct (s_attrs a !! (d, n)) as [v|] eqn:E.
    + by apply map_lookup_filter_Some.
    + apply map_lookup_filter_None. by left.
  - intros r. unfold without_client. rewrite elem_of_filter. naive_solver.
Qed.

Section Session.
Context {W : Type} {h : forall X, port X -> W -> X * W} `{!SessionPort h, !PoolPort h}.

(** Sessions and pool are what they were. *)
Definition same (w w' : W) : Prop :=
  sp_inv w' /\ sp_view w' = sp_view w /\ pp_pool w' = pp_pool w.

(** The session of a connection after a successful logon. *)
Definition session_bound (s : LogonService) (cid u : string) (level : Z) (w w' : W) : Prop :=
  sp_inv w' /\
  (exists t, s_conns (sp_view w') !! u =
     Some (mkConnectionInfo u (client_ip (s_conns (sp_view w) !! cid) cid) t t)) /\
  s_attrs (sp_view w') !! (u, UserLevelAttribute) = Some (LInteger (int32 level)) /\
  (cid <> u -> forgotten cid (sp_view w')) /\
  (forall d, d <> cid -> d <> u -> untouched d (sp_view w) (sp_view w')) /\
  (if ls_connWriter s then
     exists c, clients (pp_pool w) !! cid = Some c /\ clients (pp_pool w') !! u = Some c /\
       connToID (pp_pool w') !! c = Some u
   else pp_pool w' = pp_pool w).

(** [settles]: the program returns, and its effect is the one its code
    announces. [w0] is the state the logon started from. *)
Definition settles (s : LogonService) (cid : string) (w0 : W) (p : M LogonResult) (w : W) : Prop :=
  exists r w', run h p w = (Ret r, w') /\
    (res_Code r <> LogonOK -> same w0 w') /\
    (res_Code r = LogonOK -> session_bound s cid (res_UserID r) (res_UserLevel r) w0 w').

Lemma settles_fail s cid w0 w code u :
  code <> LogonOK -> same w0 w -> settles s cid w0 (mret (logon_fail code u)) w.
Proof. intros Hc Hw. eexists _, _. split; [apply run_ret|]. by split. Qed.

Lemma same_trans w0 w w' : same w0 w -> same w w' -> same w0 w'.
Proof. intros (? & ? & ?) (? & ? & ?). split_and!; congruence. Qed.

(** A call on neither component, and a query of the session store. *)
Lemma settles_other {X} s cid w0 w (e : port X) k :
  is_sess e = false -> is_pool e = false -> same w0 w ->
  (forall w', same w0 w' -> settles s cid w0 (k (h _ e w).1) w') ->
  settles s cid w0 (call_ e ≫= k) w.
Proof.
  intros Hs Hp Hw Hk. destruct (run_other e k w Hs Hp) as (w' & Hr & Hv & Hi & Hq); [apply Hw|].
  unfold settles. rewrite Hr. apply Hk, (same_trans _ _ _ Hw). by split_and!.
Qed.

Lemma settles_query {X} s cid w0 w (op : ss_op X) k :
  (forall a, spec_next op a = a) -> same w0 w ->
  (forall x w', spec_reply op (sp_view w0) x -> same w0 w' -> settles s cid w0 (k (inr x)) w') ->
  settles s cid w0 (sess op ≫= k) w.
Proof.
  intros Hq Hw Hk. destruct Hw as (Hi & Hv & Hp).
  destruct (run_sess op k w Hi) as (x & w' & Hr & Hx & Hv' & Hi' & Hp').
  unfold settles. rewrite Hr. apply Hk; [by rewrite <- Hv|]. split_and!; [done| |congruence].
  by rewrite Hv', Hq.
Qed.

(** The pool state a logon may bind sessions in. *)
Definition rebound (s : LogonService) (cid u : string) (w0 w : W) : Prop :=
  sp_inv w /\ sp_view w = sp_view w0 /\
  (if ls_connWriter s then
     exists c, clients (pp_pool w0) !! cid = Some c /\ clients (pp_pool w) !! u = Some c /\
       connToID (pp_pool w) !! c = Some u
   else pp_pool w = pp_pool w0).

Lemma bind_session_settles s cid u m l w0 w :
  rebound s cid u w0 w -> settles s cid w0 (bind_session cid u m l) w.
Proof.
  intros (Hi & Hv & Hp). unfold settles, bind_session.
  sess_call x1 w1 (Hx1 & Hv1 & Hi1 & Hp1). cbv zeta.
  sess_call x2 w2 (_ & Hv2 & Hi2 & Hp2).
  other_call w3 (Hv3 & Hi3 & Hp3).
  sess_call x4 w4 (_ & Hv4 & Hi4 & Hp4).
  sess_call x5 w5 (_ & Hv5 & Hi5 & Hp5).
  eexists _, w5. split; [apply run_ret|]. split; [done|]. intros _.
  cbn [spec_next] in Hv1. cbn [spec_reply] in Hx1. subst x1.
  rewrite Hv1, Hv in *. rewrite Hv3, Hv2 in Hv4. clear Hv1 Hv2 Hv3.
  cbn [res_UserID res_UserLevel]. unfold session_bound.
  set (a := spec_next (UnregisterConnection cid) (sp_view w0)) in *.
  rewrite Hv5, Hv4. cbn [spec_next s_conns s_attrs s_members]. split_and!.
  - done.
  - eexists. rewrite lookup_insert_eq. done.
  - by rewrite lookup_insert_eq.
  - intros Hne. destruct (unregister_forgotten cid (sp_view w0)) as (H1 & H2 & H3).
    fold a in H1, H2, H3. split_and!; cbn [s_conns s_attrs s_members]; [| |done].
    + by rewrite lookup_insert_ne.
    + intros n. rewrite lookup_insert_ne by congruence. apply H2.
  - intros d Hd1 Hd2. destruct (unregister_untouched cid d (sp_view w0) Hd1) as (H1 & H2 & H3).
    fold a in H1, H2, H3. split_and!; cbn [s_conns s_attrs s_members]; [| |done].
    + by rewrite lookup_insert_ne.
    + intros n. rewrite lookup_insert_ne by congruence. apply H2.
  - rewrite Hp5, Hp4, Hp3, Hp2, Hp1. exact Hp.
Qed.

Lemma remap_guard_settles s cid u m l w0 w :
  same w0 w -> settles s cid w0 (remap_guard s cid u m l) w.
Proof.
  intros (Hi & Hv & Hp). unfold remap_guard. destruct (ls_connWriter s) eqn:Ew.
  - unfold settles. destruct (run_pool (h := h) (RemapClientID cid u)
      (fun ok : bool => if ok then bind_session cid u m l else mret (logon_fail LogonRefused u)) w
      _ Hi eq_refl) as (w' & -> & Hv' & Hi' & Hp').
    cbn [pool_step fst snd] in *.
    destruct (remap_cases (pp_pool w) cid u) as [[Hr _]|(c & Hc & _ & Hr)];
      rewrite Hr in *; cbn [fst snd] in *.
    + apply settles_fail; [done|]. split_and!; congruence.
    + apply bind_session_settles. unfold rebound. rewrite Ew, Hp'. split_and!; [done|congruence|].
      exists c. cbn [clients connToID]. rewrite <- Hp. by rewrite !lookup_insert_eq.
  - apply bind_session_settles. unfold rebound. by rewrite Ew.
Qed.

Lemma establishSession_settles s cid u m l w0 w :
  same w0 w -> settles s cid w0 (establishSession s cid u m l) w.
Proof.
  intros Hw. unfold establishSession. case_decide; [by apply remap_guard_settles|].
  apply settles_query; [done|done|]. intros [i|] w' _ Hw'.
  - by apply settles_fail.
  - by apply remap_guard_settles.
Qed.

Lemma logon_account_settles s req u uid pw m w0 w :
  same w0 w ->
  settles s (lr_ConnectionID req) w0 (logon_account s req u uid pw m) w.
Proof.
  intros Hw. unfold settles, logon_account. rewrite run_mbind.
  assert (exists code w', run h (validateCredentials u pw) w = (Ret code, w') /\ same w0 w')
    as (code & w' & -> & Hw').
  { unfold validateCredentials.
    destruct Hw as (Hi & Hv & Hp).
    other_call w1 (Hv1 & Hi1 & Hp1).
    destruct (h _ (CompareHashAndPassword _ _) w).1.
    { eexists _, _. split; [apply run_ret|]. split_and!; congruence. }
    unfold db. other_call w2 (Hv2 & Hi2 & Hp2).
    assert (same w0 w2) by (split_and!; congruence).
    destruct (h _ (Db _) w1).1 as [e|[b|]]; eexists _, _; (split; [apply run_ret|done]). }
  rewrite run_then_Ret. case_decide.
  - by apply establishSession_settles.
  - by apply settles_fail.
Qed.

Lemma logon_mode_settles s req uid pw m w :
  same w w -> settles s (lr_ConnectionID req) w (logon_mode s req uid pw m) w.
Proof.
  intros Hw. unfold logon_mode. repeat case_decide.
  - by apply establishSession_settles.
  - destruct (ls_tokens s); [|by apply settles_fail].
    apply settles_other; [done|done|done|]. intros w' Hw'.
    destruct (h _ (ValidateToken pw) w).1; [by apply settles_fail|by apply establishSession_settles].
  - apply settles_other; [done|done|done|]. intros w' Hw'.
    destruct (h _ (Db _) w).1; [by apply settles_fail|by apply logon_account_settles].
  - apply settles_other; [done|done|done|]. intros w' Hw'.
    destruct (h _ (Db _) w).1; [|by apply logon_account_settles].
    case_decide; [by apply establishSession_settles|by apply settles_fail].
Qed.

Lemma Logon_settles s req w :
  sp_inv w -> settles s (lr_ConnectionID req) w (Logon s req) w.
Proof.
  intros Hw. unfold Logon. destruct (lr_Credentials req); [by apply logon_mode_settles|].
  case_decide; [by apply settles_fail|by apply logon_mode_settles].
Qed.

(** C18. [Logon] always returns, in every mode and for every request. When it
    reports anything but success, every session and the whole connection table
    are as before: no state has been taken over. When it reports success, the
    user is connected from the address the connection had, carries the level
    as an attribute, owns the connection in the pool; the transient identity
    of the connection has no session, attribute or room left; and no other
    client's session changed. *)
Theorem logon_effect s req w :
  sp_inv w ->
  exists r w', run h (Logon s req) w = (Ret r, w') /\
    (res_Code r <> LogonOK -> sp_view w' = sp_view w /\ pp_pool w' = pp_pool w) /\
    (res_Code r = LogonOK ->
       session_bound s (lr_ConnectionID req) (res_UserID r) (res_UserLevel r) w w').
Proof.
  intros Hw. destruct (Logon_settles s req w Hw) as (r & w' & Hr & Hf & Hs).
  exists r, w'. split; [done|]. split; [|done]. intros Hc. by destruct (Hf Hc) as (_ & ? & ?).
Qed.

(** The level a command check reads in the sessions. *)
Definition level_in (a : Sessions) (u : string) : Z :=
  ToInteger (default LVoid (s_attrs a !! (u, UserLevelAttribute))).

Lemma CanRun_run A u cmd w :
  sp_inv w ->
  exists w', run h (CanRun A u cmd) w =
      (Ret (match commandLevels A !! cmd with
            | Some req => req <=? level_in (sp_view w) u
            | None => false
            end), w') /\ same w w'.
Proof.
  intros Hi. unfold CanRun. destruct (commandLevels A !! cmd) as [req|].
  - rewrite run_mbind. unfold UserLevel. sess_call x w1 (Hx & Hv & Hi1 & Hp). prun.
    cbn [spec_reply] in Hx. subst x. by exists w1.
  - exists w. split; [apply run_ret|done].
Qed.

(** The level a logon grants is the level commands are checked against:
    after a successful logon, a command is allowed to the user exactly when a
    level is configured for it and the granted level, as a 32-bit integer,
    reaches it. *)
Theorem logon_level_enforced s req A cmd r w w' :
  sp_inv w -> run h (Logon s req) w = (Ret r, w') -> res_Code r = LogonOK ->
  exists w'', run h (CanRun A (res_UserID r) cmd) w' =
    (Ret (match commandLevels A !! cmd with
          | Some required => required <=? int32 (res_UserLevel r)
          | None => false
          end), w'').
Proof.
  intros Hw Hr Hok. destruct (Logon_settles s req w Hw) as (r' & w1 & Hr' & _ & Hs).
  rewrite Hr in Hr'. simplify_eq. destruct (Hs Hok) as (Hi & _ & Ha & _).
  destruct (CanRun_run A (res_UserID r') cmd w1 Hi) as (w'' & -> & _).
  unfold level_in. rewrite Ha. by exists w''.
Qed.
End Session.
