(* ===== verification/LogonRace.v ===== *)
(** * Concurrent logons

    Every connection is served by its own goroutine, so several logons run at
    once and their port calls interleave. The guard against session hijack
    (logon_service.go, establishSession; conn_pool.go, RemapClientID) is proved
    under every interleaving: at most one connection ends up logged on as a given
    user, and the pool binds that user to the connection that won.

    A logon program goes through three phases as far as the pool is concerned:
    before its remap ([pre]), after a successful one ([post]), and without any
    remap left to make ([lost]). The invariant ties each phase to the pool. *)

From Stdlib Require Import ZArith Lia.
From stdpp Require Import base list strings gmap option sets relations.
From S2P Require Import Prelude GoFmt LValue LExtract LParse LRoundtrip Smus Effects Ports SessionStore ConnPool.
From S2P Require Import Interfaces Services.

Open Scope Z_scope.

#[local] Transparent call_ lift.

(** Calls that leave the bindings of the pool alone. *)
Definition harmless {X} (e : port X) : bool :=
  match e with
  | Pool op => match op with
               | Register _ _ | Unregister _ | RemapClientID _ _ => false
               | CurrentID _ | WriteToClient _ _ | DisconnectClient _ | CloseConn _ => true
               end
  | _ => true
  end.

Definition remap_args {X} (e : port X) : option (string * string) :=
  match e with
  | Pool op => match op with RemapClientID a b => Some (a, b) | _ => None end
  | _ => None
  end.

(** Whether an answer grants a remap. *)
Definition granted {X} (e : port X) : X -> bool :=
  match e in port X return X -> bool with
  | Pool op =>
      match op in pool_op Y return option Y -> bool with
      | RemapClientID _ _ => fun o => match o with Some b => b | None => false end
      | _ => fun _ => false
      end
  | _ => fun _ => false
  end.

Definition not_ok (o : outcome LogonResult) : Prop := forall r, o = Ret r -> res_Code r <> LogonOK.

Fixpoint lost (p : M LogonResult) : Prop :=
  match p with
  | Done o => not_ok o
  | Call e k => harmless e = true /\ forall x, lost (k x)
  end.

Fixpoint post (u : string) (p : M LogonResult) : Prop :=
  match p with
  | Done o => forall r, o = Ret r -> res_Code r = LogonOK -> res_UserID r = u
  | Call e k => harmless e = true /\ forall x, post u (k x)
  end.

Fixpoint pre (cid : string) (p : M LogonResult) : Prop :=
  match p with
  | Done o => not_ok o
  | Call e k =>
      match remap_args e with
      | Some (a, u) => a = cid /\ forall x, if granted e x then post u (k x) else lost (k x)
      | None => harmless e = true /\ forall x, pre cid (k x)
      end
  end.

(** ** Every logon program starts in the first phase *)

Lemma pre_fail cid code u : code <> LogonOK -> pre cid (mret (logon_fail code u)).
Proof. intros Hc r [= <-]. done. Qed.

Lemma pre_call {X} cid (e : port X) k :
  is_pool e = false -> (forall x, pre cid (k x)) -> pre cid (call_ e ≫= k).
Proof. intros He Hk. by destruct e. Qed.

Lemma bind_session_post cid u m l : post u (bind_session cid u m l).
Proof. cbn. repeat (split; [done|intros ?]). by intros r [= <-] _. Qed.

Section Phases.
Context (s : LogonService) (Hw : ls_connWriter s = true).

Lemma establishSession_pre cid u m l : pre cid (establishSession s cid u m l).
Proof.
  assert (pre cid (remap_guard s cid u m l)) as Hg.
  { unfold remap_guard. rewrite Hw. cbn. split; [done|]. intros [[]|].
    - exact (bind_session_post cid u m l).
    - by intros r [= <-].
    - by intros r [=]. }
  unfold establishSession. case_decide; [done|]. apply pre_call; [done|].
  intros [e|[i|]]; [done|by apply pre_fail|done].
Qed.

Lemma logon_account_pre req u uid pw m :
  pre (lr_ConnectionID req) (logon_account s req u uid pw m).
Proof.
  cbn. split; [done|]. intros [err|]; [by intros r [= <-]|]. cbn. split; [done|].
  intros [e|[b|]]; [|by intros r [= <-]|]; apply establishSession_pre.
Qed.

Lemma logon_pre req : pre (lr_ConnectionID req) (Logon s req).
Proof.
  assert (forall uid pw m, pre (lr_ConnectionID req) (logon_mode s req uid pw m)) as Hm.
  { intros uid pw m. unfold logon_mode. repeat case_decide.
    - apply establishSession_pre.
    - destruct (ls_tokens s); [|by apply pre_fail]. apply pre_call; [done|].
      intros [e|t]; [by apply pre_fail|apply establishSession_pre].
    - apply pre_call; [done|]. intros [e|u]; [by apply pre_fail|apply logon_account_pre].
    - apply pre_call; [done|]. intros [e|u]; [|apply logon_account_pre].
      case_decide; [apply establishSession_pre|by apply pre_fail]. }
  unfold Logon. destruct (lr_Credentials req); [done|]. case_decide; [by apply pre_fail|done].
Qed.
End Phases.

(** ** The invariant of the interleaving *)

Section Race.
Context {W : Type} {h : forall X, port X -> W -> X * W} `{!PoolPort h}.

(** The phase of the thread that serves connection [c], whose transient id is
    [cid], in state [w]. *)
Definition phase (cid : string) (c : conn) (p : M LogonResult) (w : W) : Prop :=
  (pre cid p /\ clients (pp_pool w) !! cid = Some c) \/
  (exists u, post u p /\ clients (pp_pool w) !! u = Some c) \/
  lost p.

Lemma harmless_clients {X} (e : port X) w :
  harmless e = true -> clients (pp_pool (h _ e w).2) = clients (pp_pool w).
Proof.
  intros He. destruct (is_pool e) eqn:Ep; [|by rewrite (pp_frame h)].
  destruct e; try done. destruct (pp_step h _ op w) as [_ ->].
  destruct op; try done; cbn [pool_step snd].
  - unfold cp_WriteToClient. case_match; [|done]. by case_decide.
  - unfold cp_DisconnectClient. by case_match.
Qed.

(** A harmless call moves its own thread within its phase. *)
Lemma phase_harmless {X} cid c (e : port X) k w :
  harmless e = true -> phase cid c (Call e k) w -> phase cid c (k (h _ e w).1) (h _ e w).2.
Proof.
  intros He Hp. unfold phase. rewrite (harmless_clients e w He). cbn [pre post lost] in Hp.
  destruct Hp as [[Hp Hc]|[(u & [_ Hp] & Hc)|[_ Hp]]].
  - left. split; [|done]. cbn [pre] in Hp. destruct (remap_args e) as [[a b]|] eqn:E; [|apply Hp].
    by destruct e; try done; destruct op.
  - right. left. eauto.
  - right. right. apply Hp.
Qed.

Lemma phase_stable cid c p w w' :
  (forall u, clients (pp_pool w) !! u = Some c -> clients (pp_pool w') !! u = Some c) ->
  phase cid c p w -> phase cid c p w'.
Proof. intros Hc Hp. unfold phase in *. naive_solver. Qed.

(** The remap itself: its thread moves to the next phase, and no other
    connection loses a binding. *)
Lemma phase_remap cid c (e : port (option bool)) a b k w :
  e = Pool (RemapClientID a b) -> phase cid c (Call e k) w ->
  phase cid c (k (h _ e w).1) (h _ e w).2 /\
  (forall d u, d <> c -> clients (pp_pool w) !! u = Some d ->
     clients (pp_pool (h _ e w).2) !! u = Some d).
Proof.
  intros -> Hp. destruct Hp as [[[-> Hk] Hc]|[(u & [? _] & _)|[? _]]]; [|done|done].
  destruct (pp_step h _ (RemapClientID cid b) w) as [Hans Hpool].
  cbn [pool_step fst snd] in Hans, Hpool. unfold phase. rewrite Hans, Hpool.
  destruct (remap_cases (pp_pool w) cid b) as [[Hr _]|(c' & Hc' & Hb & Hr)];
    rewrite Hr; cbn [fst snd].
  - split; [|done]. right. right. apply (Hk (Some false)).
  - simplify_eq. cbn [clients]. split.
    + right. left. exists b. split; [apply (Hk (Some true))|]. by rewrite lookup_insert_eq.
    + intros d u Hd Hu. rewrite lookup_insert_ne by naive_solver.
      rewrite lookup_delete_ne by naive_solver. done.
Qed.

Lemma phase_call {X} cid c (e : port X) k w :
  phase cid c (Call e k) w ->
  phase cid c (k (h _ e w).1) (h _ e w).2 /\
  (forall d u, d <> c -> clients (pp_pool w) !! u = Some d ->
     clients (pp_pool (h _ e w).2) !! u = Some d).
Proof.
  intros Hp. destruct (harmless e) eqn:He.
  { split; [by apply phase_harmless|]. intros d u _ Hu. by rewrite harmless_clients. }
  destruct e; try done. destruct op; try done.
  - destruct Hp as [[[? _] _]|[(u & [? _] & _)|[? _]]]; done.
  - destruct Hp as [[[? _] _]|[(u & [? _] & _)|[? _]]]; done.
  - by eapply phase_remap.
Qed.

(** All threads are in phase with the pool. *)
Definition in_phase (cids : list string) (cs : list conn) (st : list (M LogonResult) * W) : Prop :=
  forall i p, st.1 !! i = Some p -> exists cid c,
    cids !! i = Some cid /\ cs !! i = Some c /\ phase cid c p st.2.

Lemma in_phase_step cids cs st st' :
  NoDup cs -> pstep h st st' -> in_phase cids cs st -> in_phase cids cs st'.
Proof.
  intros Hnd Hst Hin. destruct Hst as [i X e k ps w Hi]. unfold in_phase in *. cbn [fst snd] in *.
  destruct (Hin i _ Hi) as (cid & c & Hcid & Hc & Hp).
  destruct (phase_call _ _ _ _ _ Hp) as [Hown Hother].
  intros j p Hj. destruct (decide (j = i)) as [->|Hne].
  - rewrite list_lookup_insert_eq in Hj by (eapply lookup_lt_Some; eauto). simplify_eq. eauto.
  - rewrite list_lookup_insert_ne in Hj by done.
    destruct (Hin j _ Hj) as (cid' & c' & Hcid' & Hc' & Hp'). exists cid', c'. split_and!; [done..|].
    eapply phase_stable; [|done]. intros u. apply Hother. intros ->.
    apply Hne. by eapply (NoDup_lookup cs).
Qed.

Lemma in_phase_reachable cids cs st st' :
  NoDup cs -> preachable h st st' -> in_phase cids cs st -> in_phase cids cs st'.
Proof. intros Hnd. induction 1; eauto using in_phase_step. Qed.

(** C2. Under every interleaving of concurrent logons on distinct connections:
    each logon that has reported success owns its user id in the pool, and no
    two of them were logged on as the same user, whatever identities and
    credentials the clients sent. *)
Theorem logon_race s reqs cs w ps w' :
  ls_connWriter s = true -> NoDup cs -> length cs = length reqs ->
  (forall i req c, reqs !! i = Some req -> cs !! i = Some c ->
     clients (pp_pool w) !! lr_ConnectionID req = Some c) ->
  preachable h (Logon s <$> reqs, w) (ps, w') ->
  (forall i r c, ps !! i = Some (Done (Ret r)) -> res_Code r = LogonOK -> cs !! i = Some c ->
     clients (pp_pool w') !! res_UserID r = Some c) /\
  (forall i j r1 r2, ps !! i = Some (Done (Ret r1)) -> ps !! j = Some (Done (Ret r2)) -> i <> j ->
     res_Code r1 = LogonOK -> res_Code r2 = LogonOK -> res_UserID r1 <> res_UserID r2).
Proof.
  intros Hw Hnd Hlen Hreg Hreach.
  assert (in_phase (lr_ConnectionID <$> reqs) cs (Logon s <$> reqs, w)) as Hin.
  { intros i p Hi. cbn [fst snd] in *. apply list_lookup_fmap_Some in Hi as (req & -> & Hreq).
    destruct (lookup_lt_is_Some_2 cs i) as [c Hc];
      [rewrite Hlen; eapply lookup_lt_Some; eauto|].
    exists (lr_ConnectionID req), c. split_and!; [by rewrite list_lookup_fmap, Hreq|done|].
    left. split; [by apply logon_pre|eauto]. }
  apply (in_phase_reachable _ _ _ _ Hnd Hreach) in Hin. cbn [fst snd] in Hin.
  assert (forall i r, ps !! i = Some (Done (Ret r)) -> res_Code r = LogonOK ->
    exists c, cs !! i = Some c /\ clients (pp_pool w') !! res_UserID r = Some c) as Hown.
  { intros i r Hi Hr. destruct (Hin i _ Hi) as (cid & c & _ & Hc & Hp). exists c. split; [done|].
    destruct Hp as [[Hp _]|[(u & Hp & Hu)|Hp]].
    - exfalso. by apply (Hp r).
    - by rewrite (Hp r).
    - exfalso. by apply (Hp r). }
  split.
  - intros i r c Hi Hr Hc. destruct (Hown i r Hi Hr) as (c' & Hc' & ?). by simplify_eq.
  - intros i j r1 r2 H1 H2 Hij Ho1 Ho2 Heq.
    destruct (Hown _ _ H1 Ho1) as (c1 & Hc1 & Hu1), (Hown _ _ H2 Ho2) as (c2 & Hc2 & Hu2).
    rewrite Heq in Hu1. simplify_eq. apply Hij. by eapply (NoDup_lookup cs).
Qed.
End Race.
