(* ===== verification/Movies.v ===== *)
(** * Movies and groups (inbound/mus/movie.go, group.go)

    The programs of [MovieManager] and [GroupManager], which keep membership in
    the session store's rooms, and what they do to it. Rooms are named by joining
    the movie and the group with a colon; the names keep movies apart only when
    movie ids are restricted, which the code does not do. *)

From Stdlib Require Import ZArith Lia String Ascii.
From stdpp Require Import base list strings gmap option sets.
From S2P Require Import Prelude GoFmt LValue LExtract LParse LRoundtrip Smus Effects Ports SessionStore ConnPool.
From S2P Require Import MovieTable Interfaces.

Open Scope Z_scope.

(** ** Rooms *)

Definition movieRoomName (movieID : string) : string := "movie:" +:+ movieID.
Definition groupRoomName (movieID groupName : string) : string := movieID +:+ ":" +:+ groupName.

(** ** MovieManager *)

Definition JoinMovie (movieID userID : string) : M (option error) :=
  movie ← mov (GetOrCreateMovie movieID);
  r ← sess (JoinRoom (movieRoomName movieID) userID);
  match r with
  | inl e => mret (Some (Wrapf "failed to join movie room" e))
  | inr _ =>
      g ← mov (GetGroup movie "@AllUsers");
      _ ← match g with
          | Some _ => mret tt
          | None =>
              allUsers ← mov (AllocGroup "@AllUsers" movieID true);
              mov (AddGroup movie "@AllUsers" allUsers)
          end;
      r ← sess (JoinRoom (groupRoomName movieID "@AllUsers") userID);
      match r with
      | inl e => mret (Some (Wrapf "failed to join @AllUsers group" e))
      | inr _ => mret None
      end
  end.

(** The loop over the movie's groups; errors are dropped. *)
Fixpoint leave_groups (movieID userID : string) (names : list string) : M unit :=
  match names with
  | [] => mret tt
  | g :: names =>
      _ ← sess (LeaveRoom (groupRoomName movieID g) userID);
      leave_groups movieID userID names
  end.

Definition LeaveMovie (movieID userID : string) : M (option error) :=
  o ← mov (GetMovie movieID);
  match o with
  | None => mret (Some (Errorf ("movie " +:+ movieID +:+ " not found")))
  | Some movie =>
      names ← mov (GetGroupNames movie);
      _ ← leave_groups movieID userID names;
      _ ← sess (DeleteUserAttribute userID "#movieID");
      r ← sess (LeaveRoom (movieRoomName movieID) userID);
      match r with
      | inl e => mret (Some (Wrapf "failed to leave movie room" e))
      | inr _ =>
          r ← sess (GetRoomMembers (movieRoomName movieID));
          match r with
          | inl e => mret (Some (Wrapf "failed to get movie members" e))
          | inr members =>
              _ ← (if decide (length members = 0%nat) then mov (DeleteMovie movieID) else mret tt);
              mret None
          end
      end
  end.

Definition GetMovieUsers (movieID : string) : M (error + list string) :=
  sess (GetRoomMembers (movieRoomName movieID)).

Definition GetMovieUserCount (movieID : string) : M (error + Z) :=
  r ← sess (GetRoomMembers (movieRoomName movieID));
  mret (match r with inl e => inl e | inr members => inr (zlen members) end).

(** ** GroupManager *)

Definition contains (l : list string) (s : string) : bool := existsb (String.eqb s) l.

Definition JoinGroup (movieID groupName userID : string) : M (option error) :=
  r ← sess (GetRoomMembers (movieRoomName movieID));
  match r with
  | inl e => mret (Some (Wrapf "failed to check movie membership" e))
  | inr members =>
      if contains members userID then
        r ← sess (JoinRoom (groupRoomName movieID groupName) userID);
        match r with
        | inl e => mret (Some (Wrapf "failed to join group room" e))
        | inr _ => mret None
        end
      else mret (Some (Errorf ("user " +:+ userID +:+ " is not in movie " +:+ movieID)))
  end.

Definition LeaveGroup (movieID groupName userID : string) : M (option error) :=
  r ← sess (LeaveRoom (groupRoomName movieID groupName) userID);
  mret (match r with inl e => Some (Wrapf "failed to leave group room" e) | inr _ => None end).

Definition GetGroupMembers (movieID groupName : string) : M (error + list string) :=
  sess (GetRoomMembers (groupRoomName movieID groupName)).

Definition GetGroupMemberCount (movieID groupName : string) : M (error + Z) :=
  r ← sess (GetRoomMembers (groupRoomName movieID groupName));
  mret (match r with inl e => inl e | inr members => inr (zlen members) end).

Fixpoint leave_prefixed (prefix userID : string) (rooms : list string) : M (option error) :=
  match rooms with
  | [] => mret None
  | room :: rooms =>
      if HasPrefix room prefix then
        r ← sess (LeaveRoom room userID);
        match r with
        | inl e => mret (Some (Wrapf ("failed to leave group room " +:+ room) e))
        | inr _ => leave_prefixed prefix userID rooms
        end
      else leave_prefixed prefix userID rooms
  end.

Definition LeaveAllGroups (movieID userID : string) : M (option error) :=
  r ← sess (GetClientRooms userID);
  match r with
  | inl e => mret (Some (Wrapf "failed to get client rooms" e))
  | inr rooms => leave_prefixed (movieID +:+ ":") userID rooms
  end.

(** ** Room names *)

Fixpoint colon_free (s : string) : bool :=
  match s with
  | EmptyString => true
  | String c s => negb (Ascii.eqb c ":"%char) && colon_free s
  end.

Lemma groupRoomName_inj m1 m2 g1 g2 :
  colon_free m1 = true -> colon_free m2 = true ->
  groupRoomName m1 g1 = groupRoomName m2 g2 -> m1 = m2 /\ g1 = g2.
Proof.
  unfold groupRoomName. revert m2. induction m1 as [|c m1 IH]; intros [|d m2] H1 H2; simpl in *.
  - intros Hg. by injection Hg.
  - intros Hg. injection Hg as <- _. done.
  - intros Hg. injection Hg as -> _. done.
  - apply andb_prop in H1 as [_ H1], H2 as [_ H2]. intros [= -> Hr].
    by destruct (IH m2 H1 H2 Hr) as [-> ->].
Qed.

Lemma movieRoomName_group x : movieRoomName x = groupRoomName "movie" x.
Proof. reflexivity. Qed.

(** The room names keep movies and groups apart as long as no movie id
    contains a colon or is the word "movie": then two group rooms coincide only
    for the same movie and group, and no group room is a movie's room. *)
Theorem room_names_isolated m1 m2 g1 g2 :
  colon_free m1 = true -> colon_free m2 = true -> m1 <> "movie"%string ->
  (groupRoomName m1 g1 = groupRoomName m2 g2 <-> m1 = m2 /\ g1 = g2) /\
  groupRoomName m1 g1 <> movieRoomName g2.
Proof.
  intros H1 H2 Hm. split.
  - split; [by apply groupRoomName_inj|by intros [-> ->]].
  - rewrite movieRoomName_group. intros Heq. by apply groupRoomName_inj in Heq as [? _].
Qed.

Lemma room_names_isolated_witness :
  groupRoomName "lobby" "@AllUsers" <> movieRoomName "lobby".
Proof. by apply (room_names_isolated "lobby" "lobby" "@AllUsers" "lobby"). Defined.

(** ** Membership *)

Lemma contains_spec l s : contains l s = true <-> s ∈ l.
Proof.
  unfold contains. rewrite existsb_exists. split.
  - intros (x & Hx & ->%String.eqb_eq). by apply list_elem_of_In.
  - intros Hs. exists s. split; [by apply list_elem_of_In|apply String.eqb_refl].
Qed.

Definition joined (a : Sessions) (rcs : list (string * string)) : Sessions :=
  mkSessions (s_conns a) (s_attrs a) (list_to_set rcs ∪ s_members a).

Lemma joined_two a r1 r2 c :
  spec_next (JoinRoom r2 c) (spec_next (JoinRoom r1 c) a) = joined a [(r2, c); (r1, c)].
Proof. unfold joined. cbn [spec_next s_conns s_attrs s_members list_to_set]. f_equal. set_solver. Qed.

Section Managers.
Context {W : Type} {h : forall X, port X -> W -> X * W}.
Context `{!SessionPort h, !PoolPort h, !MoviePort h}.

(** The table after the movie was looked up or created and given its group. *)
Definition with_movie (t : MovieTable) (movieID : string) : MovieTable :=
  let r := mt_GetOrCreateMovie t movieID in
  match mt_groups r.2 r.1 !! "@AllUsers"%string with
  | Some _ => r.2
  | None =>
      let g := mt_AllocGroup r.2 "@AllUsers" movieID true in
      mt_AddGroup g.2 r.1 "@AllUsers" g.1
  end.

Lemma JoinMovie_run movieID userID w a p t :
  at_ w a p t ->
  exists w', run h (JoinMovie movieID userID) w = (Ret None, w') /\
    at_ w' (joined a [(groupRoomName movieID "@AllUsers", userID); (movieRoomName movieID, userID)])
      p (with_movie t movieID).
Proof.
  intros Hat. unfold JoinMovie. sys_step Hat. sys_step Hat. sys_step Hat.
  cbn [movie_step fst snd] in *. unfold with_movie.
  destruct (mt_groups _ _ !! _) as [g|] eqn:Eg.
  - prun. sys_step Hat. eexists. split; [apply run_ret|].
    eapply at_sessions, Hat. apply joined_two.
  - rewrite run_mbind. sys_step Hat. sys_step Hat. rewrite run_then_Ret. sys_step Hat.
    eexists. split; [apply run_ret|].
    eapply at_sessions, Hat. apply joined_two.
Qed.

(** The movie is listed and has its group. *)
Lemma with_movie_group t movieID :
  table_inv t ->
  exists l g, movies (with_movie t movieID) !! movieID = Some l /\
    mt_groups (with_movie t movieID) l !! "@AllUsers"%string = Some g.
Proof.
  intros Ht. unfold with_movie. cbv zeta. pose proof (GetOrCreateMovie_inv t movieID Ht) as Hr.
  set (r := mt_GetOrCreateMovie t movieID) in *.
  assert (movies r.2 !! movieID = Some r.1) as Hm.
  { unfold r, mt_GetOrCreateMovie. destruct (movies t !! movieID) eqn:E; [done|].
    cbn. by rewrite lookup_insert_eq. }
  destruct (mt_groups r.2 r.1 !! _) as [g|] eqn:Eg; [by exists r.1, g|].
  destruct (ti_movie _ Hr _ _ Hm) as (m & Hl & _).
  exists r.1, (next_loc r.2). unfold mt_AddGroup, mt_groups.
  cbn [mt_AllocGroup fst snd movie_heap]. rewrite Hl.
  cbn [set_movie movies movie_heap]. split; [done|].
  rewrite lookup_insert_eq. cbn. by rewrite lookup_insert_eq.
Qed.

(** Joining a movie always succeeds: afterwards the user is in the movie's
    room and in the room of its "@AllUsers" group, both of which exist in the
    table; no membership is lost, the only ones gained are those two, and
    connections, attributes and the pool are unchanged. *)
Theorem join_movie_effect movieID userID w :
  sp_inv w -> table_inv (mp_table w) ->
  exists w', run h (JoinMovie movieID userID) w = (Ret None, w') /\
    (exists l g, movies (mp_table w') !! movieID = Some l /\
       mt_groups (mp_table w') l !! "@AllUsers"%string = Some g) /\
    (forall r c, (r, c) ∈ s_members (sp_view w') <->
       (r, c) ∈ s_members (sp_view w) \/
       (c = userID /\ (r = movieRoomName movieID \/ r = groupRoomName movieID "@AllUsers"))) /\
    s_conns (sp_view w') = s_conns (sp_view w) /\ s_attrs (sp_view w') = s_attrs (sp_view w) /\
    pp_pool w' = pp_pool w.
Proof.
  intros Hi Ht. destruct (JoinMovie_run movieID userID w _ _ _ (at_here w Hi))
    as (w' & Hr & _ & Hv & Hp & Htab).
  exists w'. rewrite Hv, Htab. split_and!; [done|by apply with_movie_group| |done|done|done].
  intros r c. unfold joined. cbn [s_members list_to_set].
  rewrite !elem_of_union, !elem_of_singleton, elem_of_empty. naive_solver.
Qed.

(** ** Groups *)

Lemma JoinGroup_run movieID groupName userID w a p t :
  at_ w a p t ->
  exists err w', run h (JoinGroup movieID groupName userID) w = (Ret err, w') /\
    if decide ((movieRoomName movieID, userID) ∈ s_members a)
    then err = None /\ at_ w' (joined a [(groupRoomName movieID groupName, userID)]) p t
    else is_Some err /\ at_ w' a p t.
Proof.
  intros Hat. unfold JoinGroup. sys_step Hat. destruct Hx as [_ Hx]. cbn [spec_next] in Hat.
  destruct (contains x userID) eqn:Ec.
  - apply contains_spec, Hx in Ec. sys_step Hat. eexists _, _. split; [apply run_ret|].
    rewrite decide_True by done. split; [done|]. eapply at_sessions, Hat.
    unfold joined. cbn [spec_next list_to_set]. f_equal. set_solver.
  - eexists _, _. split; [apply run_ret|]. rewrite decide_False; [by split|].
    intros Hin. apply Hx, contains_spec in Hin. congruence.
Qed.

(** A group can be joined only from inside its movie: when the user is in
    the movie's room the call succeeds and adds exactly the one membership;
    otherwise it returns an error and no session changes. *)
Theorem join_group_guarded movieID groupName userID w :
  sp_inv w ->
  exists err w', run h (JoinGroup movieID groupName userID) w = (Ret err, w') /\
    (err = None <-> (movieRoomName movieID, userID) ∈ s_members (sp_view w)) /\
    (err <> None -> sp_view w' = sp_view w) /\
    (err = None -> forall r c, (r, c) ∈ s_members (sp_view w') <->
       (r, c) ∈ s_members (sp_view w) \/ (r, c) = (groupRoomName movieID groupName, userID)).
Proof.
  intros Hi. destruct (JoinGroup_run movieID groupName userID w _ _ _ (at_here w Hi))
    as (err & w' & Hr & Hres).
  exists err, w'. split; [done|]. case_decide as Hin.
  - destruct Hres as [-> (_ & Hv & _)]. split_and!; [done|done|]. intros _ r c. rewrite Hv.
    unfold joined. cbn [s_members list_to_set]. set_solver.
  - destruct Hres as [[e ->] (_ & Hv & _)]. split_and!; [done|done|]. intros [=].
Qed.

(** The separation of movies can be bypassed, because movie ids are chosen
    by clients and rooms are named by concatenation: a user whose movie is
    called "movie" becomes a member of any movie's room by joining a group
    named after it, without ever joining that movie. *)
Theorem movie_room_forged target userID w :
  sp_inv w ->
  exists w1 w2 members w3,
    run h (JoinMovie "movie" userID) w = (Ret None, w1) /\
    run h (JoinGroup "movie" target userID) w1 = (Ret None, w2) /\
    run h (GetMovieUsers target) w2 = (Ret (inr members), w3) /\ userID ∈ members.
Proof.
  intros Hi. destruct (JoinMovie_run "movie" userID w _ _ _ (at_here w Hi)) as (w1 & H1 & Hat).
  destruct (JoinGroup_run "movie" target userID w1 _ _ _ Hat) as (err & w2 & H2 & Hres).
  rewrite decide_True in Hres by (unfold joined; cbn [s_members list_to_set]; set_solver).
  destruct Hres as [-> Hat2].
  destruct (sys_sess_last (GetRoomMembers (movieRoomName target)) w2 _ _ _ Hat2)
    as (members & w3 & H3 & [_ Hm] & _).
  exists w1, w2, members, w3. split_and!; [done..|]. apply Hm.
  rewrite movieRoomName_group. unfold joined. cbn [s_members list_to_set]. set_solver.
Qed.

(** ** Leaving *)

Definition after_leaving (a : Sessions) (rooms : list string) (c : string) : Sessions :=
  mkSessions (s_conns a) (s_attrs a) (s_members a ∖ list_to_set ((fun r => (r, c)) <$> rooms)).

Lemma after_leaving_cons a r rooms c :
  after_leaving (spec_next (LeaveRoom r c) a) rooms c = after_leaving a (r :: rooms) c.
Proof. unfold after_leaving. cbn [spec_next s_conns s_attrs s_members fmap list_fmap list_to_set].
  f_equal. set_solver. Qed.

Lemma leave_groups_run movieID userID names w a p t :
  at_ w a p t ->
  exists w', run h (leave_groups movieID userID names) w = (Ret tt, w') /\
    at_ w' (after_leaving a (groupRoomName movieID <$> names) userID) p t.
Proof.
  revert w a. induction names as [|g names IH]; intros w a Hat; cbn [leave_groups].
  - eexists. split; [apply run_ret|]. eapply at_sessions, Hat. destruct a. unfold after_leaving. cbn.
    f_equal. set_solver.
  - sys_step Hat. destruct (IH _ _ Hat) as (w' & Hr & Hat'). exists w'. split; [done|].
    eapply at_sessions, Hat'. apply after_leaving_cons.
Qed.

(** Leaving a movie that exists succeeds: the user is afterwards in none of
    the movie's group rooms and not in its room, its cached movie is cleared,
    nobody else's membership changes, and the movie is removed from the table
    exactly when its room has no member left. *)
Theorem leave_movie_effect movieID userID l w :
  sp_inv w -> movies (mp_table w) !! movieID = Some l ->
  exists w', run h (LeaveMovie movieID userID) w = (Ret None, w') /\
    s_attrs (sp_view w') = delete (userID, "#movieID"%string) (s_attrs (sp_view w)) /\
    (forall r c, (r, c) ∈ s_members (sp_view w') <-> (r, c) ∈ s_members (sp_view w) /\
       ~ (c = userID /\ (r = movieRoomName movieID \/
          exists g, is_Some (mt_groups (mp_table w) l !! g) /\ r = groupRoomName movieID g))) /\
    (movies (mp_table w') !! movieID = None <->
       forall c, (movieRoomName movieID, c) ∉ s_members (sp_view w')).
Proof.
  intros Hi Hl. pose proof (at_here w Hi) as Hat. unfold LeaveMovie.
  sys_step Hat. cbn [movie_step fst snd] in *. rewrite Hl. sys_step Hat.
  cbn [movie_step fst snd] in *. rewrite run_mbind.
  match goal with |- context [run h (leave_groups ?m ?u ?ns) ?w] =>
    destruct (leave_groups_run m u ns w _ _ _ Hat) as (w3 & -> & Hat3) end.
  clear Hat. rewrite run_then_Ret. sys_step Hat3. sys_step Hat3. sys_step Hat3.
  destruct Hx1 as [_ Hmem]. cbn [spec_next s_conns s_attrs s_members after_leaving] in *.
  set (ms := s_members (sp_view w) ∖ _ ∖ _) in *.
  assert (forall r c, (r, c) ∈ ms <-> (r, c) ∈ s_members (sp_view w) /\
       ~ (c = userID /\ (r = movieRoomName movieID \/
          exists g, is_Some (mt_groups (mp_table w) l !! g) /\ r = groupRoomName movieID g))) as Hms.
  { intros r c. unfold ms. rewrite !elem_of_difference, elem_of_singleton, elem_of_list_to_set,
      list_elem_of_fmap. setoid_rewrite list_elem_of_fmap.
    destruct (range_lists (H := mp_order _) (dom (mt_groups (mp_table w) l))) as [_ Hr].
    setoid_rewrite Hr. setoid_rewrite elem_of_dom. naive_solver. }
  assert (length x1 = 0%nat <-> forall c, (movieRoomName movieID, c) ∉ ms) as Hlen.
  { split.
    - intros Hnil%nil_length_inv c Hc. apply Hmem in Hc. rewrite Hnil in Hc. by apply not_elem_of_nil in Hc.
    - intros Hno. destruct x1 as [|c x1]; [done|]. exfalso. apply (Hno c), Hmem, list_elem_of_here. }
  case_decide as Hz; rewrite run_mbind; [sys_step Hat3|]; prun; eexists; (split; [reflexivity|]);
    destruct Hat3 as (_ & Hv & _ & Ht); rewrite Hv, Ht; cbn [s_attrs s_members movie_step snd movies];
    (split; [done|split; [exact Hms|]]); rewrite <- Hlen.
  - by rewrite lookup_delete_eq.
  - by rewrite Hl.
Qed.
End Managers.
