(* ===== verification/World.v ===== *)
(** * The running system

    The state of the server's own components (the memory session store, the
    connection pool, the movie table) next to an outside: the database, the
    clock, the mailer, the script engine and so on, of any state type and any
    behaviour. This world implements the interfaces the services are proved
    against. *)

From Stdlib Require Import ZArith Lia String.
From stdpp Require Import base list strings gmap option sets relations.
From S2P Require Import Prelude GoFmt LValue LExtract LParse LRoundtrip Smus Effects Ports SessionStore ConnPool.
From S2P Require Import MovieTable Interfaces Services LogonSession LogonRace Movies.

Open Scope Z_scope.

Record World (D : Type) := mkWorld {
  w_sess : MemorySessionStore;
  w_pool : ConnPool;
  w_table : MovieTable;
  w_out : D
}.
Arguments mkWorld {D}.
Arguments w_sess {D}.
Arguments w_pool {D}.
Arguments w_table {D}.
Arguments w_out {D}.

Section World.
Context `{MapOrder} {D : Type} (outside : forall X, port X -> D -> X * D).

Definition world_step (X : Type) (e : port X) (w : World D) : X * World D :=
  match e in port X return X * World D with
  | Sess op =>
      let r := mem_step op (w_sess w) in
      (inr r.1, mkWorld r.2 (w_pool w) (w_table w) (w_out w))
  | Pool op =>
      let r := pool_step op (w_pool w) in
      (r.1, mkWorld (w_sess w) r.2 (w_table w) (w_out w))
  | Mov op =>
      let r := movie_step op (w_table w) in
      (r.1, mkWorld (w_sess w) (w_pool w) r.2 (w_out w))
  | e =>
      let r := outside _ e (w_out w) in
      (r.1, mkWorld (w_sess w) (w_pool w) (w_table w) r.2)
  end.

#[export] Instance world_sessions : SessionPort world_step.
Proof.
  refine {| sp_inv w := store_inv (w_sess w); sp_view w := view (w_sess w) |}.
  - intros X op w Hw. exists (mem_step op (w_sess w)).1. cbn. split_and!.
    + done.
    + by apply mem_step_reply.
    + by apply mem_step_view.
    + by apply mem_step_inv.
  - intros X e w He Hw. by destruct e.
Defined.

#[export] Instance world_pool : PoolPort world_step.
Proof.
  refine {| pp_pool := w_pool |}.
  - done.
  - intros X e w He. by destruct e.
Defined.

#[export] Instance world_movies : MoviePort world_step.
Proof.
  refine {| mp_order := _; mp_table := w_table |}.
  - done.
  - intros X e w He. by destruct e.
Defined.
End World.

(** ** A concrete outside, for examples

    A small database of accounts, a clock that stands still, and nothing else. *)

Record SmallDB := mkSmallDB {
  sdb_users : gmap string User;
  sdb_banned : list Z;
  sdb_clock : Z
}.

Definition small_db {X} (d : SmallDB) (op : db_op X) : error + X :=
  match op in db_op X return error + X with
  | GetUser n => match sdb_users d !! n with Some u => inr u | None => inl ErrUserNotFound end
  | GetActiveBanByUserID id =>
      if existsb (Z.eqb id) (sdb_banned d)
      then inr (Some (mkBan 1 "" (Some id) None "" None None 0)) else inl ErrBanNotFound
  | GetActiveBanByIP _ => inl ErrBanNotFound
  | GetApplicationAttribute _ _ | GetPlayerAttribute _ _ _ => inr LVoid
  | GetApplicationAttributeNames _ | GetPlayerAttributeNames _ _ => inr []
  | CreateApplication _ | DeleteApplication _ | SetApplicationAttribute _ _ _
  | DeleteApplicationAttribute _ _ | SetPlayerAttribute _ _ _ _ | DeletePlayerAttribute _ _ _
  | CreateUser _ _ _ | DeleteUser _ | CreateBan _ _ _ _ | RevokeBan _ => inr tt
  end.

(** Passwords are compared as text, one token is valid, one script exists. *)
Definition small_outside (X : Type) (e : port X) (d : SmallDB) : X * SmallDB :=
  match e in port X return X * SmallDB with
  | Sess op => (inl (Errorf "outside"), d)
  | Pool op => (None, d)
  | Mov op =>
      (match op in movie_op X return X with
       | GetOrCreateMovie _ => 0%nat | GetMovie _ => None | GetMovies => [] | DeleteMovie _ => tt
       | AddGroup _ _ _ => tt | RemoveGroup _ _ => tt | GetGroup _ _ => None | GetGroupNames _ => []
       | GetGroupCount _ => 0 | AllocGroup _ _ _ => 0%nat | Group_GetAttribute _ _ => LVoid
       | Group_SetAttribute _ _ _ => tt | Group_DeleteAttribute _ _ => tt
       | Group_GetAttributeNames _ => []
       end, d)
  | Db op => (small_db d op, d)
  | Timer _ => (tt, d)
  | SendEmail _ => (None, d)
  | ValidateToken t =>
      (if decide (t = "tok"%string) then inr (mkTokenPayload "carol" 40 7) else inl ErrTokenInvalid, d)
  | CompareHashAndPassword hash password =>
      (if decide (hash = password) then None else Some (Errorf "mismatch"), d)
  | GenerateFromPassword p => (inr p, d)
  | HasScript s => (bool_decide (s = "ping"%string), d)
  | Execute m => (inr (sm_Content m), d)
  | Allow _ => (true, d)
  | IsIPBanned _ => (false, d)
  | Now => (sdb_clock d, d)
  end.

Abbreviation small_step := (world_step small_outside).

Definition small_users : SmallDB :=
  mkSmallDB (<["alice" := mkUser 1 "u1" "alice" "secret" 100 0]>
             (<["bob" := mkUser 2 "u2" "bob" "hunter2" 20 0]> ∅)) [2] 1700000000.

(** Two connections accepted, nobody logged on. *)
Definition small_world : World SmallDB :=
  mkWorld
    (ms_RegisterConnection (ms_RegisterConnection NewMemorySessionStore "10.0.0.1:4000"
       "10.0.0.1:4000" 5) "10.0.0.2:5000" "10.0.0.2:5000" 6)
    (cp_Register (cp_Register (NewConnPool (mkNet [] ∅ ∅)) 1%nat "10.0.0.1:4000")
       2%nat "10.0.0.2:5000")
    NewMovieTable small_users.

Lemma small_world_inv : sp_inv (h := small_step) small_world.
Proof.
  apply (mem_step_inv (RegisterConnection "10.0.0.2:5000" "10.0.0.2:5000" 6)).
  apply (mem_step_inv (RegisterConnection "10.0.0.1:4000" "10.0.0.1:4000" 5)).
  apply NewMemorySessionStore_inv.
Qed.

Definition strict_logon : LogonService := mkLogonService "strict" 20 false true.

Definition alice_request (cid : string) : LogonRequest :=
  mkLogonRequest cid "" (Some (mkCredentials "lobby" "alice" "secret")).

(** ** Witnesses of the service theorems *)

Lemma logon_sound_witness :
  authenticated small_step strict_logon (alice_request "10.0.0.1:4000") small_world "alice" 100.
Proof.
  apply (logon_sound small_step strict_logon (alice_request "10.0.0.1:4000") small_world
           (mkLogonResult LogonOK "alice" 100 "lobby")); vm_compute; reflexivity.
Defined.

Lemma logon_effect_witness :
  exists r w', run small_step (Logon strict_logon (alice_request "10.0.0.1:4000")) small_world = (Ret r, w') /\
    res_Code r = LogonOK /\
    session_bound (h := small_step) strict_logon "10.0.0.1:4000" "alice" 100 small_world w'.
Proof.
  destruct (logon_effect (h := small_step) strict_logon (alice_request "10.0.0.1:4000") small_world
    small_world_inv) as (r & w' & Hr & _ & Hok).
  exists r, w'. split; [exact Hr|].
  assert (r = mkLogonResult LogonOK "alice" 100 "lobby") as ->.
  { apply (f_equal (fun x => x.1)) in Hr. vm_compute in Hr. congruence. }
  split; [reflexivity|]. apply Hok. reflexivity.
Defined.

Definition ban_level : Authorizer := mkAuthorizer (<["DBAdmin.ban" := 80]> ∅).

Definition alice_world : World SmallDB :=
  (run small_step (Logon strict_logon (alice_request "10.0.0.1:4000")) small_world).2.

Lemma alice_logged_on :
  run small_step (Logon strict_logon (alice_request "10.0.0.1:4000")) small_world =
  (Ret (mkLogonResult LogonOK "alice" 100 "lobby"), alice_world).
Proof. vm_compute. reflexivity. Qed.

Lemma logon_level_enforced_witness :
  exists w'', run small_step (CanRun ban_level "alice" "DBAdmin.ban") alice_world = (Ret true, w'').
Proof.
  destruct (logon_level_enforced (h := small_step) strict_logon (alice_request "10.0.0.1:4000")
    ban_level "DBAdmin.ban" (mkLogonResult LogonOK "alice" 100 "lobby") small_world alice_world
    small_world_inv alice_logged_on) as [w'' Hw]; [reflexivity|].
  exists w''. exact Hw.
Defined.

Lemma join_movie_effect_witness :
  exists w', run small_step (JoinMovie "lobby" "alice") small_world = (Ret None, w').
Proof.
  destruct (join_movie_effect (h := small_step) "lobby" "alice" small_world small_world_inv)
    as (w' & Hr & _); [exact NewMovieTable_inv|]. exists w'. exact Hr.
Defined.

Lemma join_group_guarded_witness :
  exists err w', run small_step (JoinGroup "lobby" "@Red" "alice") small_world = (Ret err, w') /\
    err <> None.
Proof.
  destruct (join_group_guarded (h := small_step) "lobby" "@Red" "alice" small_world small_world_inv)
    as (err & w' & Hr & Hiff & _). exists err, w'. split; [exact Hr|].
  rewrite Hiff. vm_compute. congruence.
Defined.

Lemma movie_room_forged_witness :
  exists w1 w2 members w3,
    run small_step (JoinMovie "movie" "mallory") small_world = (Ret None, w1) /\
    run small_step (JoinGroup "movie" "lobby" "mallory") w1 = (Ret None, w2) /\
    run small_step (GetMovieUsers "lobby") w2 = (Ret (inr members), w3) /\ "mallory"%string ∈ members.
Proof. exact (movie_room_forged (h := small_step) "lobby" "mallory" small_world small_world_inv). Defined.

Definition lobby_world : World SmallDB := (run small_step (JoinMovie "lobby" "alice") small_world).2.

Lemma lobby_world_inv : sp_inv (h := small_step) lobby_world.
Proof.
  destruct (JoinMovie_run (h := small_step) "lobby" "alice" small_world _ _ _ (at_here _ small_world_inv))
    as (w' & Hr & Hi & _). unfold lobby_world. by rewrite Hr.
Qed.

Lemma leave_movie_effect_witness :
  exists w', run small_step (LeaveMovie "lobby" "alice") lobby_world = (Ret None, w').
Proof.
  destruct (leave_movie_effect (h := small_step) "lobby" "alice" 0%nat lobby_world lobby_world_inv)
    as (w' & Hr & _); [reflexivity|]. exists w'. exact Hr.
Defined.

(** Both connections try to become "alice": the first one wins. *)
Definition race_requests : list LogonRequest :=
  [alice_request "10.0.0.1:4000"; alice_request "10.0.0.2:5000"].

Definition race_first := run small_step (Logon strict_logon (alice_request "10.0.0.1:4000")) small_world.
Definition race_second := run small_step (Logon strict_logon (alice_request "10.0.0.2:5000")) race_first.2.

Lemma race_reachable :
  preachable small_step (Logon strict_logon <$> race_requests, small_world)
    ([Done race_first.1; Done race_second.1], race_second.2).
Proof.
  eapply transitivity.
  - apply (run_alone small_step 0 (Logon strict_logon (alice_request "10.0.0.1:4000"))). done.
  - apply (run_alone small_step 1 (Logon strict_logon (alice_request "10.0.0.2:5000"))
      [Done race_first.1; Logon strict_logon (alice_request "10.0.0.2:5000")] race_first.2). done.
Qed.

Lemma logon_race_witness :
  clients (w_pool race_second.2) !! "alice"%string = Some 1%nat /\
  exists r, race_second.1 = Ret r /\ res_Code r = LogonRefused.
Proof.
  split; [|eexists; split; vm_compute; reflexivity].
  refine (proj1 (logon_race (h := small_step) strict_logon race_requests [1%nat; 2%nat] small_world
    [Done race_first.1; Done race_second.1] race_second.2 eq_refl _ eq_refl _ race_reachable)
    0%nat (mkLogonResult LogonOK "alice" 100 "lobby") 1%nat _ eq_refl eq_refl).
  - repeat constructor; set_solver.
  - intros [|[|i]] req c [= <-] [= <-]; vm_compute; reflexivity.
  - vm_compute. reflexivity.
Defined.
