(* ===== verification/Idle.v ===== *)
(** * Kicking clients: the idle checker and the user kill timer
    (inbound/idle_checker.go, the function of inbound/timer_manager.go's user timers)

    Both remove a client the same way: out of its rooms, out of the session
    store, its connection closed. [idle_check_effect]: one pass of the idle
    checker removes exactly the clients that were silent for longer than the
    timeout. *)

From Stdlib Require Import ZArith Lia.
From stdpp Require Import base list strings gmap option sets.
From S2P Require Import Prelude GoFmt LValue LExtract LParse LRoundtrip Smus Effects Ports SessionStore ConnPool.
From S2P Require Import Rfc3339 MovieTable Interfaces Services LogonSession LogonRace Movies World.

Open Scope Z_scope.

(** [connWriter] may be nil. *)
Definition kick (connWriter : bool) (clientID : string) : M unit :=
  _ ← sess (LeaveAllRooms clientID);
  _ ← sess (UnregisterConnection clientID);
  if connWriter then _ ← pool (DisconnectClient clientID); mret tt else mret tt.

(** The function of a user kill timer after it removed its entry. *)
Definition user_timer_fired (connWriter : bool) (clientID : string) : M unit := kick connWriter clientID.

(** ** The idle checker *)

Record IdleChecker := mkIdleChecker { ic_connWriter : bool; ic_timeout : Z }.

Definition last_activity (info : ConnectionInfo) : Z :=
  if ci_LastActivityAt info =? zero_time then ci_ConnectedAt info else ci_LastActivityAt info.

Definition is_idle (ic : IdleChecker) (now : Z) (info : ConnectionInfo) : bool :=
  ic_timeout ic <? time_Sub now (last_activity info).

Fixpoint idle_loop (ic : IdleChecker) (now : Z) (conns : list ConnectionInfo) : M unit :=
  match conns with
  | [] => mret tt
  | info :: conns =>
      if is_idle ic now info then
        _ ← kick (ic_connWriter ic) (ci_ClientID info);
        idle_loop ic now conns
      else idle_loop ic now conns
  end.

Definition check (ic : IdleChecker) : M unit :=
  r ← sess GetAllConnections;
  match r with
  | inl _ => mret tt
  | inr conns =>
      now ← call_ Now;
      idle_loop ic now conns
  end.

(** The interval of the ticker that calls [check]. *)
Definition tick_interval (ic : IdleChecker) : Z :=
  let interval := Z.quot (ic_timeout ic) 2 in
  if interval <? 30000000000 then 30000000000 else interval.

(** ** Effects *)

Lemma forgotten_untouched c a b : untouched c a b -> forgotten c a -> forgotten c b.
Proof.
  intros (H1 & H2 & H3) (F1 & F2 & F3). split_and!; [congruence|intros n; by rewrite H2|intros r; by rewrite H3].
Qed.

Lemma untouched_trans c a b d : untouched c a b -> untouched c b d -> untouched c a d.
Proof.
  intros (H1 & H2 & H3) (K1 & K2 & K3). split_and!; [congruence|intros n; by rewrite K2|intros r; by rewrite K3].
Qed.

Section Effect.
Context {W : Type} {h : forall X, port X -> W -> X * W} `{!SessionPort h, !PoolPort h, !MoviePort h}.

(** The pool loses no registration and reopens no socket. *)
Definition only_closes (p p' : ConnPool) : Prop :=
  clients p' = clients p /\ closed (net p) ⊆ closed (net p').

Definition kicked (c : string) (w : W) : Prop :=
  forgotten c (sp_view w) /\ forall cn, clients (pp_pool w) !! c = Some cn -> cn ∈ closed (net (pp_pool w)).

Lemma kick_run {A} c (k : M A) w a p t :
  at_ w a p t ->
  exists w' a' p', run h (_ ← kick true c; k) w = run h k w' /\ at_ w' a' p' t /\ kicked c w' /\
    (forall d, d <> c -> untouched d a a') /\ only_closes p p'.
Proof.
  intros Hat. unfold kick. rewrite run_mbind. sys_step Hat. sys_step Hat.
  destruct (sys_pool (h := h) (DisconnectClient c) (fun _ => mret tt) _ _ _ _ _ Hat eq_refl) as (w3 & -> & Hat3). prun.
  eexists w3, _, _. split; [done|]. split; [exact Hat3|]. clear Hat.
  set (q := (pool_step (DisconnectClient c) p).2) in *.
  assert (Hq : clients q = clients p /\ closed (net p) ⊆ closed (net q) /\
    forall cn, clients p !! c = Some cn -> cn ∈ closed (net q)).
  { unfold q. cbn [pool_step snd]. unfold cp_DisconnectClient. destruct (clients p !! c) as [cn|]; cbn [snd clients net].
    - unfold conn_Close. case_decide; cbn [snd closed]; (split_and!; [done|set_solver|]); intros cn' [= <-]; set_solver.
    - by split_and!. }
  destruct Hq as (Q1 & Q2 & Q3). destruct Hat3 as (_ & Hv & Hp & _). split_and!.
  - split; [rewrite Hv; apply unregister_forgotten|]. rewrite Hp, Q1. exact Q3.
  - intros d Hd. destruct (unregister_untouched c d (spec_next (LeaveAllRooms c) a) Hd) as (H1 & H2 & H3).
    split_and!; [done|done|]. intros r. rewrite H3. cbn [spec_next s_members]. unfold without_client.
    rewrite elem_of_filter. naive_solver.
  - by split.
Qed.

(** Which clients a pass kicks. *)
Definition idle_ids (ic : IdleChecker) (now : Z) (conns : list ConnectionInfo) : list string :=
  ci_ClientID <$> filter (fun i => is_idle ic now i = true) conns.

Lemma idle_loop_run ic now conns w a p t :
  ic_connWriter ic = true -> at_ w a p t ->
  exists w' a' p', run h (idle_loop ic now conns) w = (Ret tt, w') /\ at_ w' a' p' t /\
    (forall c, c ∈ idle_ids ic now conns -> kicked c w') /\
    (forall c, c ∉ idle_ids ic now conns -> untouched c a a') /\ only_closes p p'.
Proof.
  intros Hcw. revert w a p. induction conns as [|info conns IH]; intros w a p Hat; cbn [idle_loop].
  - prun. exists w, a, p. split_and!; try done. intros c Hc. by apply elem_of_nil in Hc.
  - destruct (is_idle ic now info) eqn:Hi.
    + rewrite Hcw.
      destruct (kick_run (ci_ClientID info) (idle_loop ic now conns) w a p t Hat)
        as (w1 & a1 & p1 & -> & Hat1 & Hk & Hu & Ho1 & Ho2).
      destruct (IH w1 a1 p1 Hat1) as (w2 & a2 & p2 & -> & Hat2 & Hk2 & Hu2 & Hc1 & Hc2).
      exists w2, a2, p2. split; [done|]. split; [done|]. unfold idle_ids in *. rewrite filter_cons_True by done.
      cbn [fmap list_fmap]. split_and!.
      * intros c Hc. destruct (decide (c ∈ ci_ClientID <$> filter (fun i => is_idle ic now i = true) conns)) as [Hin|Hin]; [by apply Hk2|].
        apply elem_of_cons in Hc as [->|Hc]; [|done]. destruct Hk as [Hf Hcl].
        destruct Hat1 as (_ & Hv1 & Hp1 & _), Hat2 as (_ & Hv2 & Hp2 & _). split.
        -- rewrite Hv2. eapply forgotten_untouched; [by apply Hu2|]. by rewrite <- Hv1.
        -- rewrite Hp2, Hc1. intros cn Hcn. apply Hc2. rewrite <- Hp1. apply Hcl. by rewrite Hp1.
      * intros c Hc. apply not_elem_of_cons in Hc as [Hne Hc]. eapply untouched_trans; [by apply Hu|by apply Hu2].
      * split; [congruence|]. by etrans.
    + destruct (IH w a p Hat) as (w2 & a2 & p2 & Hr & Hat2 & Hk2 & Hu2 & Hc).
      exists w2, a2, p2. unfold idle_ids in *. rewrite filter_cons_False by (by rewrite Hi). by split_and!.
Qed.

(** Each record is filed under its own id. *)
Definition keyed (a : Sessions) : Prop := forall c info, s_conns a !! c = Some info -> ci_ClientID info = c.

(** One pass of the idle checker: a client whose last activity is longer ago
    than the timeout has no session, attribute or room left and its socket is
    closed; every other client is exactly as it was, and no registration in
    the pool is changed. *)
Theorem idle_check_effect ic w :
  sp_inv w -> keyed (sp_view w) -> ic_connWriter ic = true ->
  let now := (h _ Now (h _ (Sess GetAllConnections) w).2).1 in
  exists w', run h (check ic) w = (Ret tt, w') /\ clients (pp_pool w') = clients (pp_pool w) /\
    forall c,
      match s_conns (sp_view w) !! c with
      | Some info =>
          if decide (ic_timeout ic < time_Sub now (last_activity info))%Z then kicked c w'
          else untouched c (sp_view w) (sp_view w')
      | None => untouched c (sp_view w) (sp_view w')
      end.
Proof.
  intros Hi Hkey Hcw. cbv zeta. unfold check, sess. rewrite run_mbind, run_call, run_then_Ret.
  destruct (sp_step h _ GetAllConnections w Hi) as (x & -> & Hx & Hv & Hi1). cbn [spec_reply spec_next] in Hx, Hv.
  pose proof (at_here _ Hi1) as Hat. rewrite Hv, (pp_frame h _ (Sess GetAllConnections) w eq_refl) in Hat.
  set (w0 := (h _ (Sess GetAllConnections) w).2) in *. sys_step Hat.
  destruct (idle_loop_run ic (h _ Now w0).1 x _ _ _ _ Hcw Hat) as (w' & a' & p' & -> & (Hi' & <- & <- & _) & Hk & Hu & Hc & _).
  exists w'. split; [done|]. split; [done|]. intros c.
  assert (Hids : forall c, c ∈ idle_ids ic (h _ Now w0).1 x <->
    exists info, s_conns (sp_view w) !! c = Some info /\ is_idle ic (h _ Now w0).1 info = true).
  { intros d. unfold idle_ids. rewrite list_elem_of_fmap. split.
    - intros (info & -> & Hf). apply list_elem_of_filter in Hf as [Hidle Hin]. rewrite Hx in Hin.
      apply list_elem_of_fmap in Hin as ([k i] & -> & Hin). apply elem_of_map_to_list in Hin. cbn.
      exists i. by rewrite (Hkey _ _ Hin).
    - intros (info & Hl & Hidle). exists info. split; [symmetry; by apply Hkey|]. apply list_elem_of_filter.
      split; [done|]. rewrite Hx. apply list_elem_of_fmap. exists (d, info). split; [done|]. by apply elem_of_map_to_list. }
  destruct (s_conns (sp_view w) !! c) as [info|] eqn:Hl; [case_decide as Hidle|].
  - apply Hk, Hids. exists info. split; [done|]. by apply Z.ltb_lt.
  - apply Hu. rewrite Hids. intros (i & E1 & E2%Z.ltb_lt). congruence.
  - apply Hu. rewrite Hids. intros (i & E1 & E2). congruence.
Qed.
End Effect.

(** Sessions stay filed under their ids. *)
Lemma keyed_next {X} (op : ss_op X) a : keyed a -> keyed (spec_next op a).
Proof.
  intros Hk. destruct op; cbn [spec_next]; try exact Hk; intros c info; cbn [s_conns].
  - rewrite lookup_insert_Some. intros [[<- <-]|[_ Hc]]; [done|by apply Hk].
  - rewrite lookup_delete_Some. intros [_ Hc]. by apply Hk.
  - rewrite lookup_alter_Some. intros [(<- & i & Hi & ->)|[_ Hc]]; [exact (Hk _ _ Hi)|by apply Hk].
Qed.

(** Two connections, of which one was silent a moment too long. *)
Definition watcher : IdleChecker := mkIdleChecker true 1699999994.

Lemma small_world_keyed : keyed (sp_view (h := small_step) small_world).
Proof.
  assert (H : map_Forall (fun c i => ci_ClientID i = c) (s_conns (sp_view (h := small_step) small_world)))
    by (apply (bool_decide_unpack _); vm_compute; exact I).
  exact H.
Qed.

Lemma idle_check_effect_witness :
  exists w', run small_step (check watcher) small_world = (Ret tt, w') /\
    kicked (h := small_step) "10.0.0.1:4000" w' /\
    untouched "10.0.0.2:5000" (sp_view (h := small_step) small_world) (sp_view (h := small_step) w').
Proof.
  destruct (idle_check_effect (h := small_step) watcher small_world small_world_inv small_world_keyed eq_refl)
    as (w' & Hr & _ & Hc).
  exists w'. split; [exact Hr|]. split; [exact (Hc "10.0.0.1:4000"%string)|exact (Hc "10.0.0.2:5000"%string)].
Defined.
