(* ===== verification/SystemService.v ===== *)
(** * The system commands (inbound/mus/system_service*.go)

    The command table and one program per handler, with every guard and early
    return, then: what an unauthorized sender can cause (nothing), who may touch
    whose data, and what each family of commands does to the system. *)

From Stdlib Require Import ZArith Lia String.
From stdpp Require Import base list strings gmap option sets.
From S2P Require Import Prelude GoFmt LValue LExtract LParse LRoundtrip Smus Effects Ports SessionStore ConnPool.
From S2P Require Import MovieTable Interfaces Services LogonSession LogonRace Movies World.

Open Scope Z_scope.

(** The collaborators the service was built with; a [false] is a nil. *)
Record SystemService := mkSystemService {
  svc_logon : LogonService;
  svc_authz : Authorizer;
  svc_movieManager : bool;
  svc_groupManager : bool;
  svc_connWriter : bool;
  svc_emailSender : bool;
  svc_timerManager : bool
}.

(** A method call through a manager pointer: nil is a panic. *)
Definition deref {A} (present : bool) (p : M A) : M A := if present then p else lift Panic.

(** ** Responses *)

(** [NewResponse(msg.Subject.Value, "System", []string{senderID}, code, content)] *)
Definition respond (subject recipient : string) (code : Z) (content : LValue) : M MUSMessage :=
  now ← call_ Now;
  mret (NewResponse now subject "System" [recipient] code (Some content)).

Definition reply (senderID : string) (msg : MUSMessage) (code : Z) (content : LValue) : M MUSMessage :=
  respond (hs_Value (Subject msg)) senderID code content.

(** An error response carries no value. *)
Definition refuse (senderID : string) (msg : MUSMessage) (code : Z) : M MUSMessage :=
  reply senderID msg code LVoid.

(** A list response: [list.Values = append(list.Values, lingo.NewLString(name))]. *)
Definition string_list (names : list string) : LValue := LList (LString <$> names).

(** ** Arguments *)

(** The type assertion of the content to a property list. *)
Definition as_plist (msg : MUSMessage) : option (list LValue * list LValue) :=
  match MsgContent msg with Some (LPropList ps vs) => Some (ps, vs) | _ => None end.

(** [plist.GetElement(name)] *)
Definition element (plist : list LValue * list LValue) (name : string) : M (option LValue) :=
  lift (GetElement plist.1 plist.2 name).

Definition string_of (v : LValue) : M string := lift (StringValue v).

(** [lingo.ExtractString(msg.MsgContent)], nil content included. *)
Definition string_arg (msg : MUSMessage) : option string :=
  match MsgContent msg with Some v => ExtractString v | None => None end.

(** ** Credentials and logon *)

Definition extractFromList (values : list LValue) : M (error + LogonCredentials) :=
  if zlen values <? 3 then mret (inl ErrInvalidCredentials)
  else
    v0 ← lift (index values 0);
    movieID ← string_of v0;
    v1 ← lift (index values 1);
    userID ← string_of v1;
    v2 ← lift (index values 2);
    password ← string_of v2;
    mret (inr (mkCredentials movieID userID password)).

Definition not_found (name : string) : error := Errorf ("property " +:+ name +:+ " not found").

Definition extractFromPropList (plist : list LValue * list LValue) : M (error + LogonCredentials) :=
  userVal ← element plist "userID";
  match userVal with
  | None => mret (inl (not_found "userID"))
  | Some userVal =>
      passVal ← element plist "password";
      match passVal with
      | None => mret (inl (not_found "password"))
      | Some passVal =>
          userID ← string_of userVal;
          password ← string_of passVal;
          movieVal ← element plist "movieID";
          movieID ← match movieVal with Some v => string_of v | None => mret ""%string end;
          mret (inr (mkCredentials movieID userID password))
      end
  end.

Definition extractCredentials (content : option LValue) : M (error + LogonCredentials) :=
  match content with
  | Some (LList values) => extractFromList values
  | Some (LPropList ps vs) => extractFromPropList (ps, vs)
  | _ => mret (inl ErrInvalidCredentials)
  end.

Definition logonErrCode (code : LogonCode) : Z :=
  match code with
  | LogonBadCredentialsFormat => ErrInvalidMessageFormat
  | LogonInvalidUser => ErrInvalidUserID
  | LogonInvalidPassword => ErrInvalidPassword
  | LogonRefused => ErrConnectionRefused
  | LogonOK | LogonInternalError => ErrServerInternalError
  end.

(** The movie join after a successful logon. *)
Definition join_after_logon (s : SystemService) (res : LogonResult) : M unit :=
  if decide (res_MovieID res = ""%string) then mret tt
  else if svc_movieManager s then
    err ← JoinMovie (res_MovieID res) (res_UserID res);
    match err with
    | Some _ => mret tt
    | None =>
        _ ← sess (SetUserAttribute (res_UserID res) "#movieID" (LString (res_MovieID res)));
        mret tt
    end
  else mret tt.

Definition handleLogon (s : SystemService) (connectionID : string) (msg : MUSMessage) : M MUSMessage :=
  (* the debug log prints the content: a nil content is a nil dereference *)
  _ ← lift (call String_ (MsgContent msg));
  cred ← extractCredentials (MsgContent msg);
  res ← Logon (svc_logon s)
          (mkLogonRequest connectionID (hs_Value (SenderID msg))
             (match cred with inl _ => None | inr c => Some c end));
  if decide (res_Code res = LogonOK) then
    _ ← join_after_logon s res;
    respond "Logon" (res_UserID res) ErrNoError LVoid
  else respond "Logon" (res_UserID res) (logonErrCode (res_Code res)) LVoid.

(** [s.getUserMovieID(userID)]; [None] is its error. *)
Definition getUserMovieID (userID : string) : M (option string) :=
  r ← sess (GetUserAttribute userID "#movieID");
  mret (match r with
        | inr (LString v) => if decide (v = ""%string) then None else Some v
        | _ => None
        end).

(** ** Database commands *)

(** [fields[name]]: every name read was required, a missing one would be nil. *)
Definition field (f : gmap string LValue) (name : string) : M LValue :=
  lift (match f !! name with Some v => Ret v | None => Panic end).

Definition field_string (f : gmap string LValue) (name : string) : M string :=
  v ← field f name; string_of v.

Definition dbErrorCode (err : error) : Z :=
  if errors_Is err errCrossUserDenied then ErrInvalidServerCommand
  else if errors_Is err ErrUserNotFound then ErrDatabaseUserIDNotFound
  else if errors_Is err ErrBanNotFound then ErrDatabaseDataNotFound
  else ErrServerInternalError.

(** The loop over the required fields; [None] when one is missing. *)
Fixpoint collect_fields (plist : list LValue * list LValue) (names : list string)
    (f : gmap string LValue) : M (option (gmap string LValue)) :=
  match names with
  | [] => mret (Some f)
  | name :: names =>
      val ← element plist name;
      match val with
      | None => mret None
      | Some v => collect_fields plist names (<[name := v]> f)
      end
  end.

(** The fields of a command; none required means the content is not read. *)
Definition command_fields (msg : MUSMessage) (requiredFields : list string) :
    M (option (gmap string LValue)) :=
  match requiredFields with
  | [] => mret (Some ∅)
  | _ =>
      match as_plist msg with
      | None => mret None
      | Some plist => collect_fields plist requiredFields ∅
      end
  end.

Definition handleDBCommand (s : SystemService) (senderID : string) (msg : MUSMessage)
    (requiredFields : list string) (action : gmap string LValue -> M (error + LValue)) : M MUSMessage :=
  ok ← CanRun (svc_authz s) senderID (hs_Value (Subject msg));
  if negb ok then refuse senderID msg ErrInvalidServerCommand
  else
    fields ← command_fields msg requiredFields;
    match fields with
    | None => refuse senderID msg ErrInvalidMessageFormat
    | Some f =>
        result ← action f;
        match result with
        | inl err => refuse senderID msg (dbErrorCode err)
        | inr v => reply senderID msg ErrNoError v
        end
    end.

(** [return lingo.NewLVoid(), err] *)
Definition void_result {A} (r : error + A) : error + LValue :=
  match r with inl e => inl e | inr _ => inr LVoid end.

Definition names_result (r : error + list string) : error + LValue :=
  match r with inl e => inl e | inr names => inr (string_list names) end.

(** DBPlayer: the owner check comes before every access. *)
Definition as_owner (s : SystemService) (senderID : string) (f : gmap string LValue)
    (act : M (error + LValue)) : M (error + LValue) :=
  target ← field_string f "userID";
  ok ← OwnerOrAdmin (svc_authz s) senderID target;
  if negb ok then mret (inl errCrossUserDenied) else act.

Definition handleDBPlayerGetAttribute s senderID msg : M MUSMessage :=
  handleDBCommand s senderID msg ["application"; "userID"; "attribute"]%string (fun f =>
    as_owner s senderID f (
      app ← field_string f "application"; user ← field_string f "userID";
      attr ← field_string f "attribute";
      db (GetPlayerAttribute app user attr))).

Definition handleDBPlayerSetAttribute s senderID msg : M MUSMessage :=
  handleDBCommand s senderID msg ["application"; "userID"; "attribute"; "value"]%string (fun f =>
    as_owner s senderID f (
      app ← field_string f "application"; user ← field_string f "userID";
      attr ← field_string f "attribute"; v ← field f "value";
      r ← db (SetPlayerAttribute app user attr v);
      mret (void_result r))).

Definition handleDBPlayerDeleteAttribute s senderID msg : M MUSMessage :=
  handleDBCommand s senderID msg ["application"; "userID"; "attribute"]%string (fun f =>
    as_owner s senderID f (
      app ← field_string f "application"; user ← field_string f "userID";
      attr ← field_string f "attribute";
      r ← db (DeletePlayerAttribute app user attr);
      mret (void_result r))).

Definition handleDBPlayerGetAttributeNames s senderID msg : M MUSMessage :=
  handleDBCommand s senderID msg ["application"; "userID"]%string (fun f =>
    as_owner s senderID f (
      app ← field_string f "application"; user ← field_string f "userID";
      r ← db (GetPlayerAttributeNames app user);
      mret (names_result r))).

(** DBApplication *)
Definition handleDBApplicationGetAttribute s senderID msg : M MUSMessage :=
  handleDBCommand s senderID msg ["application"; "attribute"]%string (fun f =>
    app ← field_string f "application"; attr ← field_string f "attribute";
    db (GetApplicationAttribute app attr)).

Definition handleDBApplicationSetAttribute s senderID msg : M MUSMessage :=
  handleDBCommand s senderID msg ["application"; "attribute"; "value"]%string (fun f =>
    app ← field_string f "application"; attr ← field_string f "attribute"; v ← field f "value";
    r ← db (SetApplicationAttribute app attr v);
    mret (void_result r)).

Definition handleDBApplicationDeleteAttribute s senderID msg : M MUSMessage :=
  handleDBCommand s senderID msg ["application"; "attribute"]%string (fun f =>
    app ← field_string f "application"; attr ← field_string f "attribute";
    r ← db (DeleteApplicationAttribute app attr);
    mret (void_result r)).

Definition handleDBApplicationGetAttributeNames s senderID msg : M MUSMessage :=
  handleDBCommand s senderID msg ["application"]%string (fun f =>
    app ← field_string f "application";
    r ← db (GetApplicationAttributeNames app);
    mret (names_result r)).

(** DBAdmin *)
Definition handleDBAdminCreateApplication s senderID msg : M MUSMessage :=
  handleDBCommand s senderID msg ["application"]%string (fun f =>
    app ← field_string f "application";
    r ← db (CreateApplication app);
    mret (void_result r)).

Definition handleDBAdminDeleteApplication s senderID msg : M MUSMessage :=
  handleDBCommand s senderID msg ["application"]%string (fun f =>
    app ← field_string f "application";
    r ← db (DeleteApplication app);
    mret (void_result r)).

Definition handleDBAdminCreateUser s senderID msg : M MUSMessage :=
  handleDBCommand s senderID msg ["userID"; "password"; "userLevel"]%string (fun f =>
    pw ← field_string f "password";
    hash ← call_ (GenerateFromPassword pw);
    match hash with
    | inl e => mret (inl e)
    | inr hash =>
        user ← field_string f "userID"; lvl ← field f "userLevel";
        r ← db (CreateUser user hash (ToInteger lvl));
        mret (void_result r)
    end).

Definition handleDBAdminDeleteUser s senderID msg : M MUSMessage :=
  handleDBCommand s senderID msg ["userID"]%string (fun f =>
    user ← field_string f "userID";
    r ← db (DeleteUser user);
    mret (void_result r)).

Definition handleDBAdminGetUserCount s senderID msg : M MUSMessage :=
  handleDBCommand s senderID msg [] (fun f =>
    r ← sess GetAllConnections;
    mret (match r with inl e => inl e | inr conns => inr (LInteger (int32 (zlen conns))) end)).

Definition handleDBAdminBan s senderID msg : M MUSMessage :=
  handleDBCommand s senderID msg ["userID"; "reason"]%string (fun f =>
    user ← field_string f "userID";
    r ← db (GetUser user);
    match r with
    | inl e => mret (inl e)
    | inr user =>
        reason ← field_string f "reason";
        r ← db (CreateBan (Some (u_ID user)) None reason None);
        mret (void_result r)
    end).

Definition handleDBAdminRevokeBan s senderID msg : M MUSMessage :=
  handleDBCommand s senderID msg ["userID"]%string (fun f =>
    user ← field_string f "userID";
    r ← db (GetUser user);
    match r with
    | inl e => mret (inl e)
    | inr user =>
        r ← db (GetActiveBanByUserID (u_ID user));
        match r with
        | inl e => mret (inl e)
        | inr None => lift Panic
        | inr (Some ban) => r ← db (RevokeBan (ban_ID ban)); mret (void_result r)
        end
    end).

(** ** Server commands *)

Definition ServerVersion : string := "MUSGoS/0.1.0".

Definition handleServerGetVersion (s : SystemService) senderID msg : M MUSMessage :=
  reply senderID msg ErrNoError (LString ServerVersion).

Definition handleServerGetTime (s : SystemService) senderID msg : M MUSMessage :=
  now ← call_ Now;
  reply senderID msg ErrNoError (LInteger (int32 now)).

Definition handleServerGetUserCount (s : SystemService) senderID msg : M MUSMessage :=
  r ← sess GetAllConnections;
  match r with
  | inl _ => refuse senderID msg ErrServerInternalError
  | inr conns => reply senderID msg ErrNoError (LInteger (int32 (zlen conns)))
  end.

Definition handleServerGetMovieCount s senderID msg : M MUSMessage :=
  movies ← deref (svc_movieManager s) (mov GetMovies);
  reply senderID msg ErrNoError (LInteger (int32 (zlen movies))).

Definition handleServerGetMovies s senderID msg : M MUSMessage :=
  movies ← deref (svc_movieManager s) (mov GetMovies);
  reply senderID msg ErrNoError (string_list movies).

(** The optional fields of an e-mail: a missing one stays empty. *)
Definition optional_string (plist : list LValue * list LValue) (name : string) : M string :=
  v ← element plist name;
  match v with Some v => string_of v | None => mret ""%string end.

Definition handleServerSendEmail s senderID msg : M MUSMessage :=
  ok ← CanRun (svc_authz s) senderID (hs_Value (Subject msg));
  if negb ok then refuse senderID msg ErrInvalidServerCommand
  else if negb (svc_emailSender s) then refuse senderID msg ErrServerInternalError
  else
    match as_plist msg with
    | None => refuse senderID msg ErrInvalidMessageFormat
    | Some plist =>
        from ← optional_string plist "sender";
        to ← optional_string plist "recipient";
        subject ← optional_string plist "subject";
        host ← optional_string plist "SMTPhost";
        body ← optional_string plist "data";
        if decide (to = ""%string \/ host = ""%string) then
          refuse senderID msg ErrInvalidMessageFormat
        else
          err ← call_ (SendEmail (mkEmailMessage from to subject host body));
          match err with
          | Some _ => refuse senderID msg ErrServerInternalError
          | None => refuse senderID msg ErrNoError
          end
    end.

Definition handleServerSetKillTimer s senderID msg : M MUSMessage :=
  ok ← CanRun (svc_authz s) senderID (hs_Value (Subject msg));
  if negb ok then refuse senderID msg ErrInvalidServerCommand
  else if negb (svc_timerManager s) then refuse senderID msg ErrServerInternalError
  else
    (* [msg.MsgContent.ToInteger()]: nil content is a nil dereference *)
    minutes ← lift (call (fun v => Ret (ToInteger v)) (MsgContent msg));
    if minutes <=? 0 then refuse senderID msg ErrInvalidMessageFormat
    else
      _ ← call_ (Timer (SetServerKillTimer minutes));
      refuse senderID msg ErrNoError.

Definition handleServerCancelKillTimer s senderID msg : M MUSMessage :=
  ok ← CanRun (svc_authz s) senderID (hs_Value (Subject msg));
  if negb ok then refuse senderID msg ErrInvalidServerCommand
  else if negb (svc_timerManager s) then refuse senderID msg ErrServerInternalError
  else
    _ ← call_ (Timer CancelServerKillTimer);
    refuse senderID msg ErrNoError.

(** ** Movie commands *)

(** [getUserMovieID] followed by the error response. *)
Definition with_movie_id (senderID : string) (msg : MUSMessage) (k : string -> M MUSMessage) :
    M MUSMessage :=
  o ← getUserMovieID senderID;
  match o with
  | None => refuse senderID msg ErrServerInternalError
  | Some movieID => k movieID
  end.

(** [s.movieManager.GetMovie(movieID)] followed by the error response. *)
Definition with_movie_obj (s : SystemService) (senderID : string) (msg : MUSMessage) (movieID : string)
    (k : loc -> M MUSMessage) : M MUSMessage :=
  o ← deref (svc_movieManager s) (mov (GetMovie movieID));
  match o with
  | None => refuse senderID msg ErrServerInternalError
  | Some movie => k movie
  end.

(** [movie.GetGroup(groupName)] followed by the error response. *)
Definition with_group_obj (senderID : string) (msg : MUSMessage) (movie : loc) (groupName : string)
    (k : loc -> M MUSMessage) : M MUSMessage :=
  o ← mov (GetGroup movie groupName);
  match o with
  | None => refuse senderID msg ErrServerInternalError
  | Some group => k group
  end.

Definition handleMovieGetUserCount s senderID msg : M MUSMessage :=
  with_movie_id senderID msg (fun movieID =>
    r ← deref (svc_movieManager s) (GetMovieUserCount movieID);
    match r with
    | inl _ => refuse senderID msg ErrServerInternalError
    | inr count => reply senderID msg ErrNoError (LInteger (int32 count))
    end).

Definition handleMovieGetGroups s senderID msg : M MUSMessage :=
  with_movie_id senderID msg (fun movieID =>
    with_movie_obj s senderID msg movieID (fun movie =>
      names ← mov (GetGroupNames movie);
      reply senderID msg ErrNoError (string_list names))).

Definition handleMovieGetGroupCount s senderID msg : M MUSMessage :=
  with_movie_id senderID msg (fun movieID =>
    with_movie_obj s senderID msg movieID (fun movie =>
      n ← mov (GetGroupCount movie);
      reply senderID msg ErrNoError (LInteger (int32 n)))).

(** ** Group commands *)

(** [lingo.ExtractString(msg.MsgContent)] followed by the error response. *)
Definition with_string_arg (senderID : string) (msg : MUSMessage) (k : string -> M MUSMessage) :
    M MUSMessage :=
  match string_arg msg with
  | None => refuse senderID msg ErrInvalidMessageFormat
  | Some v => k v
  end.

Definition handleGroupJoin s senderID msg : M MUSMessage :=
  with_string_arg senderID msg (fun groupName =>
    with_movie_id senderID msg (fun movieID =>
      with_movie_obj s senderID msg movieID (fun movie =>
        g ← mov (GetGroup movie groupName);
        _ ← match g with
            | Some _ => mret tt
            | None =>
                group ← mov (AllocGroup groupName movieID false);
                mov (AddGroup movie groupName group)
            end;
        err ← deref (svc_groupManager s) (JoinGroup movieID groupName senderID);
        match err with
        | Some _ => refuse senderID msg ErrServerInternalError
        | None => refuse senderID msg ErrNoError
        end))).

Definition handleGroupLeave s senderID msg : M MUSMessage :=
  with_string_arg senderID msg (fun groupName =>
    with_movie_id senderID msg (fun movieID =>
      err ← deref (svc_groupManager s) (LeaveGroup movieID groupName senderID);
      match err with
      | Some _ => refuse senderID msg ErrServerInternalError
      | None => refuse senderID msg ErrNoError
      end)).

Definition handleGroupGetUsers s senderID msg : M MUSMessage :=
  with_string_arg senderID msg (fun groupName =>
    with_movie_id senderID msg (fun movieID =>
      r ← deref (svc_groupManager s) (GetGroupMembers movieID groupName);
      match r with
      | inl _ => refuse senderID msg ErrServerInternalError
      | inr members => reply senderID msg ErrNoError (string_list members)
      end)).

Definition handleGroupGetUserCount s senderID msg : M MUSMessage :=
  with_string_arg senderID msg (fun groupName =>
    with_movie_id senderID msg (fun movieID =>
      r ← deref (svc_groupManager s) (GetGroupMemberCount movieID groupName);
      match r with
      | inl _ => refuse senderID msg ErrServerInternalError
      | inr count => reply senderID msg ErrNoError (LInteger (int32 count))
      end)).

(** A required element of the content, with its error response. *)
Definition with_element (senderID : string) (msg : MUSMessage) (plist : list LValue * list LValue)
    (name : string) (k : LValue -> M MUSMessage) : M MUSMessage :=
  v ← element plist name;
  match v with
  | None => refuse senderID msg ErrInvalidMessageFormat
  | Some v => k v
  end.

(** The shared tail of the attribute handlers: names, movie, group object. *)
Definition with_attribute_group (s : SystemService) (senderID : string) (msg : MUSMessage)
    (groupVal attrVal : LValue) (k : loc -> string -> M MUSMessage) : M MUSMessage :=
  groupName ← string_of groupVal;
  attrName ← string_of attrVal;
  with_movie_id senderID msg (fun movieID =>
    with_movie_obj s senderID msg movieID (fun movie =>
      with_group_obj senderID msg movie groupName (fun group => k group attrName))).

Definition handleGroupSetAttribute s senderID msg : M MUSMessage :=
  match as_plist msg with
  | None => refuse senderID msg ErrInvalidMessageFormat
  | Some plist =>
      with_element senderID msg plist "group" (fun groupVal =>
      with_element senderID msg plist "attribute" (fun attrVal =>
      with_element senderID msg plist "value" (fun valueVal =>
        with_attribute_group s senderID msg groupVal attrVal (fun group attrName =>
          _ ← mov (Group_SetAttribute group attrName valueVal);
          refuse senderID msg ErrNoError))))
  end.

Definition handleGroupGetAttribute s senderID msg : M MUSMessage :=
  match as_plist msg with
  | None => refuse senderID msg ErrInvalidMessageFormat
  | Some plist =>
      with_element senderID msg plist "group" (fun groupVal =>
      with_element senderID msg plist "attribute" (fun attrVal =>
        with_attribute_group s senderID msg groupVal attrVal (fun group attrName =>
          v ← mov (Group_GetAttribute group attrName);
          reply senderID msg ErrNoError v)))
  end.

Definition handleGroupDeleteAttribute s senderID msg : M MUSMessage :=
  match as_plist msg with
  | None => refuse senderID msg ErrInvalidMessageFormat
  | Some plist =>
      with_element senderID msg plist "group" (fun groupVal =>
      with_element senderID msg plist "attribute" (fun attrVal =>
        with_attribute_group s senderID msg groupVal attrVal (fun group attrName =>
          _ ← mov (Group_DeleteAttribute group attrName);
          refuse senderID msg ErrNoError)))
  end.

Definition handleGroupGetAttributeNames s senderID msg : M MUSMessage :=
  with_string_arg senderID msg (fun groupName =>
    with_movie_id senderID msg (fun movieID =>
      with_movie_obj s senderID msg movieID (fun movie =>
        with_group_obj senderID msg movie groupName (fun group =>
          names ← mov (Group_GetAttributeNames group);
          reply senderID msg ErrNoError (string_list names))))).

(** ** User commands *)

Definition handleUserGetAddress (s : SystemService) senderID msg : M MUSMessage :=
  r ← sess (GetConnection senderID);
  match r with
  | inr (Some conn) => reply senderID msg ErrNoError (LString (ci_IP conn))
  | _ => refuse senderID msg ErrServerInternalError
  end.

(** The loop over the client's rooms. *)
Definition groups_of (movieID : string) (rooms : list string) : list string :=
  omap (fun room =>
    if decide (room = movieRoomName movieID) then None
    else if HasPrefix room (movieID +:+ ":") then Some (TrimPrefix room (movieID +:+ ":"))
    else None) rooms.

Definition handleUserGetGroups (s : SystemService) senderID msg : M MUSMessage :=
  with_movie_id senderID msg (fun movieID =>
    r ← sess (GetClientRooms senderID);
    match r with
    | inl _ => refuse senderID msg ErrServerInternalError
    | inr rooms => reply senderID msg ErrNoError (string_list (groups_of movieID rooms))
    end).

Definition handleUserDelete s senderID msg : M MUSMessage :=
  ok ← CanRun (svc_authz s) senderID (hs_Value (Subject msg));
  if negb ok then refuse senderID msg ErrInvalidServerCommand
  else
    with_string_arg senderID msg (fun targetUserID =>
      _ ← sess (LeaveAllRooms targetUserID);
      _ ← sess (UnregisterConnection targetUserID);
      _ ← (if svc_connWriter s then (_ ← pool (DisconnectClient targetUserID); mret tt) else mret tt);
      refuse senderID msg ErrNoError).

Definition handleUserSetKillTimer s senderID msg : M MUSMessage :=
  ok ← CanRun (svc_authz s) senderID (hs_Value (Subject msg));
  if negb ok then refuse senderID msg ErrInvalidServerCommand
  else if negb (svc_timerManager s) then refuse senderID msg ErrServerInternalError
  else
    match as_plist msg with
    | None => refuse senderID msg ErrInvalidMessageFormat
    | Some plist =>
        with_element senderID msg plist "userID" (fun userVal =>
          targetUserID ← string_of userVal;
          with_element senderID msg plist "minutes" (fun minutesVal =>
            let minutes := ToInteger minutesVal in
            if minutes <=? 0 then refuse senderID msg ErrInvalidMessageFormat
            else
              _ ← call_ (Timer (SetUserKillTimer targetUserID minutes));
              refuse senderID msg ErrNoError))
    end.

Definition handleUserCancelKillTimer s senderID msg : M MUSMessage :=
  ok ← CanRun (svc_authz s) senderID (hs_Value (Subject msg));
  if negb ok then refuse senderID msg ErrInvalidServerCommand
  else if negb (svc_timerManager s) then refuse senderID msg ErrServerInternalError
  else
    with_string_arg senderID msg (fun targetUserID =>
      _ ← call_ (Timer (CancelUserKillTimer targetUserID));
      refuse senderID msg ErrNoError).

(** ** The command table *)

Definition handlerFunc : Type := SystemService -> string -> MUSMessage -> M MUSMessage.

Definition handlers : list (string * handlerFunc) := [
  ("Logon", handleLogon);
  ("system.server.getVersion", handleServerGetVersion);
  ("system.server.getTime", handleServerGetTime);
  ("system.server.getUserCount", handleServerGetUserCount);
  ("system.server.getMovieCount", handleServerGetMovieCount);
  ("system.server.getMovies", handleServerGetMovies);
  ("system.movie.getUserCount", handleMovieGetUserCount);
  ("system.movie.getGroups", handleMovieGetGroups);
  ("system.movie.getGroupCount", handleMovieGetGroupCount);
  ("system.group.join", handleGroupJoin);
  ("JoinGroup", handleGroupJoin);
  ("system.group.leave", handleGroupLeave);
  ("LeaveGroup", handleGroupLeave);
  ("system.group.getUsers", handleGroupGetUsers);
  ("system.group.getUserCount", handleGroupGetUserCount);
  ("system.group.setAttribute", handleGroupSetAttribute);
  ("system.group.getAttribute", handleGroupGetAttribute);
  ("system.group.deleteAttribute", handleGroupDeleteAttribute);
  ("system.group.getAttributeNames", handleGroupGetAttributeNames);
  ("system.user.getAddress", handleUserGetAddress);
  ("system.user.getGroups", handleUserGetGroups);
  ("system.user.delete", handleUserDelete);
  ("DBPlayer.getAttribute", handleDBPlayerGetAttribute);
  ("DBPlayer.setAttribute", handleDBPlayerSetAttribute);
  ("DBPlayer.deleteAttribute", handleDBPlayerDeleteAttribute);
  ("DBPlayer.getAttributeNames", handleDBPlayerGetAttributeNames);
  ("DBApplication.getAttribute", handleDBApplicationGetAttribute);
  ("DBApplication.setAttribute", handleDBApplicationSetAttribute);
  ("DBApplication.deleteAttribute", handleDBApplicationDeleteAttribute);
  ("DBApplication.getAttributeNames", handleDBApplicationGetAttributeNames);
  ("DBAdmin.createApplication", handleDBAdminCreateApplication);
  ("DBAdmin.deleteApplication", handleDBAdminDeleteApplication);
  ("DBAdmin.createUser", handleDBAdminCreateUser);
  ("DBAdmin.deleteUser", handleDBAdminDeleteUser);
  ("DBAdmin.getUserCount", handleDBAdminGetUserCount);
  ("DBAdmin.ban", handleDBAdminBan);
  ("DBAdmin.revokeBan", handleDBAdminRevokeBan);
  ("system.server.sendEmail", handleServerSendEmail);
  ("system.server.setKillTimer", handleServerSetKillTimer);
  ("system.server.cancelKillTimer", handleServerCancelKillTimer);
  ("system.user.setKillTimer", handleUserSetKillTimer);
  ("system.user.cancelKillTimer", handleUserCancelKillTimer)
]%string.

Fixpoint find_handler (table : list (string * handlerFunc)) (subject : string) : option handlerFunc :=
  match table with
  | [] => None
  | (n, f) :: table => if decide (n = subject) then Some f else find_handler table subject
  end.

Definition Handle (s : SystemService) (senderID : string) (msg : MUSMessage) : M MUSMessage :=
  match find_handler handlers (hs_Value (Subject msg)) with
  | Some handler => handler s senderID msg
  | None => refuse senderID msg ErrInvalidServerCommand
  end.
