(* ===== verification/SystemProps.v ===== *)
(** * Who may do what with the system commands

    Confinement of the command handlers of SystemService.v, for every
    implementation of the ports: what a denied sender causes, which calls the
    unprivileged commands can make at all, and that one user's stored data is out
    of reach of the others. *)

From Stdlib Require Import ZArith Lia String.
From stdpp Require Import base list strings gmap option sets.
From S2P Require Import Prelude GoFmt LValue LExtract LParse LRoundtrip Smus Effects Ports SessionStore ConnPool.
From S2P Require Import MovieTable Interfaces Services LogonSession LogonRace Movies World SystemService.

Open Scope Z_scope.

(** The commands guarded by a configured level. *)
Definition privileged : list string := [
  "DBPlayer.getAttribute"; "DBPlayer.setAttribute"; "DBPlayer.deleteAttribute";
  "DBPlayer.getAttributeNames"; "DBApplication.getAttribute"; "DBApplication.setAttribute";
  "DBApplication.deleteAttribute"; "DBApplication.getAttributeNames";
  "DBAdmin.createApplication"; "DBAdmin.deleteApplication"; "DBAdmin.createUser";
  "DBAdmin.deleteUser"; "DBAdmin.getUserCount"; "DBAdmin.ban"; "DBAdmin.revokeBan";
  "system.server.sendEmail"; "system.server.setKillTimer"; "system.server.cancelKillTimer";
  "system.user.delete"; "system.user.setKillTimer"; "system.user.cancelKillTimer"]%string.

(** ** The table *)

Lemma find_handler_in subj f : find_handler handlers subj = Some f -> (subj, f) ∈ handlers.
Proof.
  induction handlers as [|[n g] t IH]; simpl; [done|]. case_decide as Hn.
  - intros [= ->]. subst. apply list_elem_of_here.
  - intros Hf. apply list_elem_of_further. by apply IH.
Qed.

Lemma privileged_listed subj : subj ∈ privileged -> is_Some (find_handler handlers subj).
Proof.
  intros Hin. assert (forallb (fun n => bool_decide (is_Some (find_handler handlers n))) privileged = true)
    as Hall by (vm_compute; reflexivity).
  rewrite forallb_forall in Hall. rewrite list_elem_of_In in Hin. apply Hall in Hin.
  by apply bool_decide_eq_true in Hin.
Qed.

(** Case analysis on the entries of the table. *)
Ltac each_handler H :=
  rewrite list_elem_of_In in H; unfold handlers in H; cbn [In] in H;
  repeat (destruct H as [[= <- <-]|H]); [..|destruct H].

(** A literal that a literal list does not contain. *)
Ltac not_in H :=
  exfalso; rewrite list_elem_of_In in H; unfold privileged in H; cbn [In] in H;
  repeat (destruct H as [H|H]; [discriminate H|]); destruct H.

(** Every privileged handler starts with the level check. *)
Definition guarded (f : handlerFunc) : Prop :=
  forall s senderID msg, exists q, f s senderID msg =
    (ok ← CanRun (svc_authz s) senderID (hs_Value (Subject msg));
     if negb ok then refuse senderID msg ErrInvalidServerCommand else q).

Lemma privileged_guarded subj f : (subj, f) ∈ handlers -> subj ∈ privileged -> guarded f.
Proof.
  intros Hin Hp. each_handler Hin;
    solve [not_in Hp | intros s senderID msg; eexists; reflexivity].
Qed.

Section AnyPorts.
Context {W : Type} (h : forall X, port X -> W -> X * W).

(** A guarded program is cut short by a denial. *)
Lemma denied_cut a senderID cmd (p q : M MUSMessage) w :
  (run h (CanRun a senderID cmd) w).1 = Ret false ->
  run h (ok ← CanRun a senderID cmd; if negb ok then p else q) w =
  run h (_ ← CanRun a senderID cmd; p) w.
Proof.
  intros Hd. rewrite !run_mbind. destruct (run h (CanRun a senderID cmd) w) as [o w'] eqn:E.
  cbn [fst] in Hd. subst o. done.
Qed.

(** C3. A privileged command from a sender below the configured level does
    nothing: whatever the message contains, running the command amounts to
    reading the sender's level and answering "invalid server command". No
    database, mail, timer, pool or session-changing call is made, and the
    content of the message is not even looked at. A command without a
    configured level is denied to everyone. *)
Theorem denied_command_inert s senderID msg w :
  hs_Value (Subject msg) ∈ privileged ->
  (run h (CanRun (svc_authz s) senderID (hs_Value (Subject msg))) w).1 = Ret false ->
  run h (Handle s senderID msg) w =
  run h (_ ← CanRun (svc_authz s) senderID (hs_Value (Subject msg));
         refuse senderID msg ErrInvalidServerCommand) w.
Proof.
  intros Hin Hd. unfold Handle. destruct (privileged_listed _ Hin) as [f Hf]. rewrite Hf.
  destruct (privileged_guarded _ _ (find_handler_in _ _ Hf) Hin s senderID msg) as [q ->].
  by apply denied_cut.
Qed.
End AnyPorts.

(** ** What the open commands can reach *)

(** Queries, and changes of the sender's own room memberships. *)
Definition confined (senderID : string) (X : Type) (e : port X) : Prop :=
  match e with
  | Sess op =>
      match op with
      | JoinRoom _ c | LeaveRoom _ c => c = senderID
      | GetConnection _ | GetAllConnections | IsConnected _ | GetUserAttribute _ _
      | GetUserAttributeNames _ | GetRoomMembers _ | GetClientRooms _ => True
      | _ => False
      end
  | Mov op => match op with DeleteMovie _ | RemoveGroup _ _ => False | _ => True end
  | Now => True
  | _ => False
  end.

(** Walk a program, discharging the calls one by one. *)
Ltac confine := repeat first
  [ progress intros
  | apply invoked_ret | apply invoked_lift; solve [auto with fuel | by case_match]
  | apply invoked_call; cbn; done
  | apply invoked_mbind
  | case_match ].

Lemma open_confined subj f s senderID msg :
  (subj, f) ∈ handlers -> subj ∉ privileged -> subj <> "Logon"%string ->
  invoked (confined senderID) (f s senderID msg).
Proof.
  intros Hin Hp Hl. each_handler Hin; try done;
    try (exfalso; apply Hp; apply list_elem_of_In; cbn; tauto); clear Hp Hl.
  all: unfold handleServerGetVersion, handleServerGetTime, handleServerGetUserCount,
    handleServerGetMovieCount, handleServerGetMovies, handleMovieGetUserCount, handleMovieGetGroups,
    handleMovieGetGroupCount, handleGroupJoin, handleGroupLeave, handleGroupGetUsers,
    handleGroupGetUserCount, handleGroupSetAttribute, handleGroupGetAttribute,
    handleGroupDeleteAttribute, handleGroupGetAttributeNames, handleUserGetAddress,
    handleUserGetGroups, with_attribute_group, with_group_obj, with_movie_obj, with_movie_id,
    with_string_arg, with_element, getUserMovieID, JoinGroup, LeaveGroup, GetGroupMembers,
    GetGroupMemberCount, GetMovieUserCount, deref, refuse, reply, respond, element, string_of,
    sess, mov; confine.
Qed.

(** Commands open to every client are confined to it: apart from logon and
    the level-guarded commands, no command, with any content, ever reaches the
    database, the mailer, the timers, the connection pool or the session
    attributes; the only session changes it can make are the sender's own room
    memberships. Unknown commands only get an error response. *)
Theorem open_commands_confined s senderID msg :
  hs_Value (Subject msg) ∉ privileged -> hs_Value (Subject msg) <> "Logon"%string ->
  invoked (confined senderID) (Handle s senderID msg).
Proof.
  intros Hp Hl. unfold Handle. destruct (find_handler handlers _) as [f|] eqn:Hf.
  - apply find_handler_in in Hf. by eapply open_confined.
  - unfold refuse, reply, respond. confine.
Qed.

(** ** Other users' data *)

Definition is_db {X} (e : port X) : bool := match e with Db _ => true | _ => false end.

(** The commands on stored player data. *)
Definition player_commands : list string :=
  ["DBPlayer.getAttribute"; "DBPlayer.setAttribute"; "DBPlayer.deleteAttribute";
   "DBPlayer.getAttributeNames"]%string.

(** The user a player command is about: the text of its "userID" element. *)
Definition command_target (msg : MUSMessage) : outcome (option string) :=
  match as_plist msg with
  | None => Ret None
  | Some plist =>
      v ← GetElement plist.1 plist.2 "userID";
      match v with
      | None => Ret None
      | Some v => t ← StringValue v; Ret (Some t)
      end
  end.

Section Isolation.
Context {W : Type} (h1 h2 : forall X, port X -> W -> X * W).
Context (Hagree : forall X (e : port X) w, is_db e = false -> h1 X e w = h2 X e w).

Definition agree {A} (p : M A) (w : W) : Prop := run h1 p w = run h2 p w.

Lemma agree_bind {A B} (p : M A) (f : A -> M B) w :
  agree p w -> (forall a, (run h1 p w).1 = Ret a -> agree (f a) (run h1 p w).2) ->
  agree (p ≫= f) w.
Proof.
  unfold agree. intros Hp Hf. rewrite !run_mbind, <- Hp. unfold run_then.
  destruct (run h1 p w).1 eqn:E; auto.
Qed.

Lemma agree_call {X} (e : port X) w : is_db e = false -> agree (call_ e) w.
Proof. intros He. unfold agree. rewrite !run_call. by rewrite (Hagree _ e w He). Qed.

Lemma agree_refuse senderID msg code w : agree (refuse senderID msg code) w.
Proof. apply agree_bind; [by apply agree_call|done]. Qed.

Lemma agree_UserLevel u w : agree (UserLevel u) w.
Proof. apply agree_bind; [by apply agree_call|done]. Qed.

Lemma agree_CanRun a u cmd w : agree (CanRun a u cmd) w.
Proof.
  unfold CanRun. destruct (commandLevels a !! cmd); [|done].
  apply agree_bind; [apply agree_UserLevel|done].
Qed.

Lemma agree_reply senderID msg code v w : agree (reply senderID msg code v) w.
Proof. apply agree_bind; [by apply agree_call|done]. Qed.

(** Pure steps agree and leave the state alone. *)
Definition pure {A} (p : M A) : Prop := forall w, run h1 p w = run h2 p w /\ (run h1 p w).2 = w.

Lemma pure_collect plist names f : pure (collect_fields plist names f).
Proof.
  revert f. induction names as [|n names IH]; intros f w; [done|]. cbn [collect_fields].
  unfold element. prun. destruct (GetElement plist.1 plist.2 n) as [[v|]| |]; prun; try done.
  apply IH.
Qed.

Lemma pure_fields msg names : pure (command_fields msg names).
Proof.
  intros w. unfold command_fields. destruct names as [|n names]; [done|].
  destruct (as_plist msg); [apply pure_collect|done].
Qed.

(** The fields collected are the elements of the content. *)
Lemma collect_fields_spec plist names f f' w :
  (run h1 (collect_fields plist names f) w).1 = Ret (Some f') ->
  forall n, (n ∈ names -> exists v, GetElement plist.1 plist.2 n = Ret (Some v) /\ f' !! n = Some v) /\
    (n ∉ names -> f' !! n = f !! n).
Proof.
  revert f. induction names as [|m names IH]; intros f Hr n.
  - cbn in Hr. simplify_eq. split; [by intros ?%not_elem_of_nil|done].
  - cbn [collect_fields] in Hr. unfold element in Hr. revert Hr. prun.
    destruct (GetElement plist.1 plist.2 m) as [[v|]| |] eqn:Em; prun; [|done..].
    intros Hr. destruct (IH _ Hr n) as [H1 H2]. rewrite elem_of_cons. split.
    + intros Hn. destruct (decide (n ∈ names)) as [Hin|Hout]; [by apply H1|].
      destruct Hn as [->|Hn]; [|done]. exists v. split; [done|]. by rewrite H2, lookup_insert_eq.
    + intros Hn. rewrite H2 by naive_solver. rewrite lookup_insert_ne by naive_solver. done.
Qed.

(** A command whose action agrees whenever its "userID" field is the target. *)
Lemma agree_command s senderID msg names act w target :
  "userID"%string ∈ names -> command_target msg = Ret (Some target) ->
  (forall f w, (exists v, f !! "userID"%string = Some v /\ StringValue v = Ret target) ->
     agree (act f) w) ->
  agree (handleDBCommand s senderID msg names act) w.
Proof.
  intros Hn Ht Hact. unfold handleDBCommand. apply agree_bind; [apply agree_CanRun|].
  intros [] _; cbn [negb]; [|apply agree_refuse]. set (w1 := (run h1 (CanRun _ _ _) w).2).
  apply agree_bind; [apply pure_fields|]. intros [f|] Hf; [|apply agree_refuse].
  apply agree_bind; [|intros [e|v] _; [apply agree_refuse|apply agree_reply]].
  apply Hact. unfold command_fields in Hf. unfold command_target in Ht.
  destruct names as [|n names]; [by apply not_elem_of_nil in Hn|].
  destruct (as_plist msg) as [plist|]; [|done].
  destruct (collect_fields_spec _ _ _ _ _ Hf "userID"%string) as [H1 _].
  destruct (H1 Hn) as (v & Hv & Hfv). exists v. split; [done|]. rewrite Hv in Ht.
  cbn in Ht. destruct (StringValue v); cbn in Ht; congruence.
Qed.

(** The owner check stops everyone but the owner and the administrators. *)
Lemma agree_as_owner s senderID f act w target :
  (exists v, f !! "userID"%string = Some v /\ StringValue v = Ret target) -> target <> senderID ->
  (forall w l, (run h1 (UserLevel senderID) w).1 = Ret l -> l < AdminLevel (svc_authz s)) ->
  agree (as_owner s senderID f act) w.
Proof.
  intros (v & Hv & Ht) Hne Hlvl. unfold as_owner, field_string, field, string_of, agree. rewrite Hv.
  prun. rewrite Ht. prun. unfold OwnerOrAdmin. rewrite decide_False by done.
  rewrite !run_mbind, <- (agree_UserLevel senderID w).
  destruct (run h1 (UserLevel senderID) w) as [[l| |] w'] eqn:E; [|done..].
  rewrite !run_then_Ret. prun. rewrite (proj2 (Z.leb_gt _ _)); [done|].
  apply (Hlvl w). by rewrite E.
Qed.

(** Stored player data is out of reach of other users: a player command
    about another user, sent by someone whose session level is below the
    administration level, has the same outcome and leaves the same state
    whatever the database is. It neither reads nor writes it. *)
Theorem cross_user_isolated s senderID msg target w :
  hs_Value (Subject msg) ∈ player_commands ->
  command_target msg = Ret (Some target) -> target <> senderID ->
  (forall w l, (run h1 (UserLevel senderID) w).1 = Ret l -> l < AdminLevel (svc_authz s)) ->
  run h1 (Handle s senderID msg) w = run h2 (Handle s senderID msg) w.
Proof.
  intros Hin Ht Hne Hlvl. change (agree (Handle s senderID msg) w). unfold Handle.
  rewrite list_elem_of_In in Hin. cbn [player_commands In] in Hin.
  assert (forall names act, "userID"%string ∈ names ->
    agree (handleDBCommand s senderID msg names (fun f => as_owner s senderID f (act f))) w) as Hcmd.
  { intros names act Hn. apply (agree_command _ _ _ _ _ _ target Hn Ht). intros f w' Hf.
    by apply (agree_as_owner _ _ _ _ _ target). }
  destruct Hin as [<-|[<-|[<-|[<-|[]]]]]; apply Hcmd; apply list_elem_of_In; cbn; tauto.
Qed.
End Isolation.

(** ** Effects of the handlers *)

(** A logon message without content crashes its handler: the debug log
    prints the content before it is checked, and a nil content is dereferenced.
    The panic is raised before any port is called. *)
Theorem logon_without_content_panics {W} (h : forall X, port X -> W -> X * W) s cid msg w :
  hs_Value (Subject msg) = "Logon"%string -> MsgContent msg = None ->
  run h (Handle s cid msg) w = (Panic, w).
Proof.
  intros Hs Hc. unfold Handle. rewrite Hs. change (find_handler handlers "Logon") with (Some handleLogon).
  cbv beta iota. unfold handleLogon. prun. by rewrite Hc.
Qed.

Section Effects.
Context {W : Type} {h : forall X, port X -> W -> X * W}.
Context `{!SessionPort h, !PoolPort h, !MoviePort h}.

Lemma CanRun_at A u cmd w a p t :
  at_ w a p t ->
  exists w', run h (CanRun A u cmd) w =
      (Ret (match commandLevels A !! cmd with
            | Some req => req <=? level_in a u
            | None => false
            end), w') /\ at_ w' a p t.
Proof.
  intros Hat. unfold CanRun. destruct (commandLevels A !! cmd) as [req|].
  - rewrite run_mbind. unfold UserLevel. sys_step Hat. cbn [spec_reply] in Hx. subst x.
    prun. by eexists.
  - exists w. by split; [apply run_ret|].
Qed.

Lemma reply_at senderID msg code v w a p t :
  at_ w a p t ->
  exists now w', run h (reply senderID msg code v) w =
    (Ret (NewResponse now (hs_Value (Subject msg)) "System" [senderID] code (Some v)), w') /\
    at_ w' a p t.
Proof. intros Hat. unfold reply, respond. sys_step Hat. by eexists _, _. Qed.

(** Removing a user: when the sender's level allows it, the target has no
    connection, attribute or room left, every other client's session is as it
    was, and the target's socket, if it has one, is closed; the response says
    success. *)
Theorem user_delete_effect s senderID msg target req c w :
  sp_inv w -> hs_Value (Subject msg) = "system.user.delete"%string ->
  commandLevels (svc_authz s) !! "system.user.delete"%string = Some req ->
  req <= level_in (sp_view w) senderID ->
  string_arg msg = Some target -> svc_connWriter s = true ->
  clients (pp_pool w) !! target = Some c ->
  exists r w', run h (Handle s senderID msg) w = (Ret r, w') /\ ErrCode r = ErrNoError /\
    forgotten target (sp_view w') /\
    (forall d, d <> target -> untouched d (sp_view w) (sp_view w')) /\
    c ∈ closed (net (pp_pool w')).
Proof.
  intros Hi Hs Hreq Hlvl Harg Hcw Hc. unfold Handle. rewrite Hs.
  change (find_handler handlers "system.user.delete") with (Some handleUserDelete).
  cbv beta iota. unfold handleUserDelete, with_string_arg. rewrite Hs, Harg, Hcw.
  pose proof (at_here w Hi) as Hat. rewrite run_mbind.
  edestruct CanRun_at as (w1 & -> & Hat1); [exact Hat|]. clear Hat.
  rewrite run_then_Ret, Hreq, (proj2 (Z.leb_le _ _)) by done. cbn [negb].
  sys_step Hat1. sys_step Hat1. rewrite run_mbind.
  destruct (sys_pool (h := h) (DisconnectClient target) (fun _ => mret tt) _ _ _ _ _ Hat1 eq_refl)
    as (w4 & -> & Hat4). prun.
  destruct (reply_at senderID msg ErrNoError LVoid _ _ _ _ Hat4) as (now & w5 & Hr & _ & Hv & Hp & _).
  change (refuse senderID msg ErrNoError) with (reply senderID msg ErrNoError LVoid).
  rewrite Hr. eexists _, w5. split; [done|]. split; [done|]. rewrite Hv, Hp.
  split_and!.
  - apply unregister_forgotten.
  - intros d Hd. destruct (unregister_untouched target d (spec_next (LeaveAllRooms target) (sp_view w)) Hd)
      as (H1 & H2 & H3). split_and!; [done|done|]. intros r. rewrite H3.
    cbn [spec_next s_members]. unfold without_client. rewrite elem_of_filter. naive_solver.
  - cbn [pool_step snd]. unfold cp_DisconnectClient. rewrite Hc. cbn [snd net].
    unfold conn_Close. case_decide; [done|]. cbn [snd closed]. set_solver.
Qed.
End Effects.

(** ** Witnesses *)

Definition small_service : SystemService :=
  mkSystemService strict_logon
    (mkAuthorizer (<["system.user.delete" := 80]> (<["DBPlayer.getAttribute" := 20]> ∅)))
    true true true false false.

Definition message (subject : string) (content : option LValue) : MUSMessage :=
  NewResponse 0 subject "" ["System"%string] 0 content.

Lemma denied_command_inert_witness :
  run small_step (Handle small_service "10.0.0.2:5000" (message "system.user.delete" None)) small_world =
  run small_step
    (_ ← CanRun (svc_authz small_service) "10.0.0.2:5000" "system.user.delete";
     refuse "10.0.0.2:5000" (message "system.user.delete" None) ErrInvalidServerCommand) small_world.
Proof.
  apply (denied_command_inert small_step small_service "10.0.0.2:5000"
    (message "system.user.delete" None) small_world).
  - apply list_elem_of_In. cbn. tauto.
  - vm_compute. reflexivity.
Defined.

Lemma open_commands_confined_witness :
  invoked (confined "alice") (Handle small_service "alice" (message "system.server.getTime" None)).
Proof.
  apply (open_commands_confined small_service "alice" (message "system.server.getTime" None));
    [|discriminate].
  intros H. rewrite list_elem_of_In in H. cbn in H. intuition discriminate.
Defined.

Definition spy_message : MUSMessage :=
  message "DBPlayer.getAttribute" (Some (LPropList
    [LSymbol "application"; LSymbol "userID"; LSymbol "attribute"]
    [LString "game"; LString "alice"; LString "gold"])).

(** The same outside, with a database that fails every call. *)
Definition broken_outside (X : Type) (e : port X) (d : SmallDB) : X * SmallDB :=
  match e in port X return X * SmallDB with
  | Db op => (inl (Errorf "disk failure"), d)
  | e => small_outside _ e d
  end.

(** A session store in which every client has level 20. *)
Definition flat_levels {X} (op : ss_op X) (d : MemorySessionStore) : X * MemorySessionStore :=
  match op in ss_op X return X * MemorySessionStore with
  | GetUserAttribute _ _ => (LInteger 20, d)
  | op => mem_step op d
  end.

Definition flat_step (out : forall X, port X -> SmallDB -> X * SmallDB) (X : Type) (e : port X)
    (w : World SmallDB) : X * World SmallDB :=
  match e in port X return X * World SmallDB with
  | Sess op => (inr (flat_levels op (w_sess w)).1, w)
  | e => world_step out _ e w
  end.

Lemma cross_user_isolated_witness :
  run (flat_step small_outside) (Handle small_service "bob" spy_message) small_world =
  run (flat_step broken_outside) (Handle small_service "bob" spy_message) small_world.
Proof.
  apply (cross_user_isolated (flat_step small_outside) (flat_step broken_outside)
    ltac:(intros X e w He; by destruct e) small_service "bob" spy_message "alice" small_world).
  - apply list_elem_of_In. cbn. tauto.
  - vm_compute. reflexivity.
  - discriminate.
  - intros w l Hl. assert (l = 20) as -> by (vm_compute in Hl; congruence). vm_compute. reflexivity.
Defined.

Lemma logon_without_content_panics_witness :
  run small_step (Handle small_service "10.0.0.1:4000" (message "Logon" None)) small_world =
  (Panic, small_world).
Proof. apply (logon_without_content_panics small_step); reflexivity. Defined.

Lemma alice_world_inv : sp_inv (h := small_step) alice_world.
Proof.
  destruct (Logon_settles (h := small_step) strict_logon (alice_request "10.0.0.1:4000") small_world
    small_world_inv) as (r & w' & Hr & _ & Hs).
  rewrite alice_logged_on in Hr. simplify_eq. by destruct (Hs eq_refl).
Qed.

Lemma user_delete_effect_witness :
  exists r w', run small_step
      (Handle small_service "alice" (message "system.user.delete" (Some (LString "10.0.0.2:5000"))))
      alice_world = (Ret r, w') /\ ErrCode r = ErrNoError /\ 2%nat ∈ closed (net (w_pool w')).
Proof.
  destruct (user_delete_effect (h := small_step) small_service "alice"
    (message "system.user.delete" (Some (LString "10.0.0.2:5000"))) "10.0.0.2:5000" 80 2%nat
    alice_world alice_world_inv) as (r & w' & Hr & He & _ & _ & Hc);
    [reflexivity|reflexivity|vm_compute; congruence|reflexivity|reflexivity|vm_compute; reflexivity|].
  exists r, w'. split; [exact Hr|]. split; [exact He|exact Hc].
Defined.
