(* ===== verification/Dispatch.v ===== *)
(** * Routing (inbound/mus/sender.go, dispatcher.go, inbound/smus_handler.go)

    From the bytes of one packet to the response: parse, route by the first
    recipient to the system commands, to a script, or to a user or a group. The
    connection's own id is the identity a message runs under; the sender written
    in the packet is not. *)

From Stdlib Require Import ZArith Lia String.
From stdpp Require Import base list strings gmap option sets.
From S2P Require Import Prelude GoFmt LValue LExtract LParse LRoundtrip Smus Effects Ports SessionStore ConnPool.
From S2P Require Import MovieTable Interfaces Services LogonSession LogonRace Movies World SystemService SystemProps.

Open Scope Z_scope.

(** ** Sender *)

Record Sender := mkSender {
  sd_cipher : option Cipher;
  sd_allEncrypted : bool;
  sd_defaultMovieID : string
}.

(** [if allEncrypted && cipher != nil { bytes = cipher.Encrypt(bytes) }] *)
Definition seal (allEncrypted : bool) (cipher : option Cipher) (data : bytes) : bytes :=
  match cipher with
  | Some c => if allEncrypted then Encrypt c data else data
  | None => data
  end.

(** The first room named "movie:..." gives the movie. *)
Fixpoint movie_of_rooms (rooms : list string) : string :=
  match rooms with
  | [] => ""
  | room :: rooms =>
      if HasPrefix room "movie:" then TrimPrefix room "movie:" else movie_of_rooms rooms
  end.

(** The delivery loop; a failed write is logged and skipped. *)
Fixpoint deliver_all (members : list string) (data : bytes) : M unit :=
  match members with
  | [] => mret tt
  | m :: members => _ ← pool (WriteToClient m data); deliver_all members data
  end.

Definition deliverToGroup (s : Sender) (wireFrom routingSender groupRef subject : string)
    (content : option LValue) : M (option error) :=
  r ← sess (GetClientRooms routingSender);
  match r with
  | inl e => mret (Some (Wrapf "failed to get sender rooms" e))
  | inr rooms =>
      let movieID := movie_of_rooms rooms in
      let movieID := if decide (movieID = ""%string) then sd_defaultMovieID s else movieID in
      if decide (movieID = ""%string) then
        mret (Some (Errorf ("sender " +:+ routingSender +:+ " is not in any movie")))
      else
        r ← sess (GetRoomMembers (groupRoomName movieID groupRef));
        match r with
        | inl e => mret (Some (Wrapf ("failed to get group members for " +:+ groupRef) e))
        | inr members =>
            now ← call_ Now;
            data ← lift (MUSMessage_GetBytes
                           (NewResponse now subject wireFrom [groupRef] ErrNoError content));
            _ ← deliver_all members (seal (sd_allEncrypted s) (sd_cipher s) data);
            mret None
        end
  end.

Definition SendMessageFrom (s : Sender) (wireFrom routingSender recipientID subject : string)
    (content : option LValue) : M (option error) :=
  if HasPrefix recipientID "@" then deliverToGroup s wireFrom routingSender recipientID subject content
  else
    now ← call_ Now;
    data ← lift (MUSMessage_GetBytes
                   (NewResponse now subject wireFrom [recipientID] ErrNoError content));
    pool (WriteToClient recipientID (seal (sd_allEncrypted s) (sd_cipher s) data)).

Definition SendMessage (s : Sender) (senderID recipientID subject : string) (content : option LValue) :
    M (option error) :=
  SendMessageFrom s senderID senderID recipientID subject content.

(** ** Dispatcher *)

Record Dispatcher := mkDispatcher {
  d_scriptEngine : bool;
  d_systemService : SystemService;
  d_sender : Sender
}.

Inductive handle_error := ParseFailed (e : parse_error) | NoRecipients.

Definition handleScript (d : Dispatcher) (senderID : string) (msg : MUSMessage) : M (option MUSMessage) :=
  if negb (d_scriptEngine d) then mret None
  else
    let scriptName := hs_Value (Subject msg) in
    found ← call_ (HasScript scriptName);
    if negb found then mret None
    else
      r ← call_ (Execute (mkScriptMessage scriptName senderID (MsgContent msg)));
      match r with
      | inr (Some v) =>
          now ← call_ Now;
          mret (Some (NewResponse now scriptName "system.script" [senderID] ErrNoError (Some v)))
      | _ => mret None
      end.

Definition Dispatch (d : Dispatcher) (senderID : string) (msg : MUSMessage) :
    M (handle_error + option MUSMessage) :=
  if hl_Count (RecptID msg) =? 0 then mret (inl NoRecipients)
  else
    first ← lift (index (hl_Strings (RecptID msg)) 0);
    let recipient := hs_Value first in
    if decide (recipient = "System"%string) then
      r ← Handle (d_systemService d) senderID msg; mret (inr (Some r))
    else if decide (recipient = "system.script"%string) then
      r ← handleScript d senderID msg; mret (inr r)
    else
      _ ← SendMessage (d_sender d) senderID recipient (hs_Value (Subject msg)) (MsgContent msg);
      mret (inr None).

(** ** SMUSHandler *)

Record SMUSHandler := mkSMUSHandler {
  sh_cipher : option Cipher;
  sh_dispatcher : Dispatcher;
  sh_allEncrypted : bool
}.

Definition HandleRawMessage (s : SMUSHandler) (clientID : string) (data : bytes) :
    M (handle_error + bytes) :=
  r ← lift (ParseMUSMessageWithDecryption data (sh_cipher s));
  match r with
  | inl e => mret (inl (ParseFailed e))
  | inr msg =>
      response ← Dispatch (sh_dispatcher s) clientID msg;
      match response with
      | inl e => mret (inl e)
      | inr None => mret (inr [])
      | inr (Some m) =>
          out ← lift (MUSMessage_GetBytes m);
          mret (inr (seal (sh_allEncrypted s) (sh_cipher s) out))
      end
  end.

(** ** The claimed sender has no say *)

(** Two messages that differ at most in who they claim to come from. *)
Definition same_but_sender (m1 m2 : MUSMessage) : Prop :=
  Subject m1 = Subject m2 /\ RecptID m1 = RecptID m2 /\ MsgContent m1 = MsgContent m2.

Lemma handlers_ignore_sender subj f s id m1 m2 :
  (subj, f) ∈ handlers -> subj <> "Logon"%string -> same_but_sender m1 m2 -> f s id m1 = f s id m2.
Proof.
  intros Hin Hl (Hs & _ & Hc).
  destruct m1 as [cs1 e1 t1 sb1 sn1 r1 raw1 d1 c1], m2 as [cs2 e2 t2 sb2 sn2 r2 raw2 d2 c2].
  cbn [Subject MsgContent] in Hs, Hc. subst.
  each_handler Hin; [done|reflexivity..].
Qed.

Lemma Dispatch_ignores_sender d id m1 m2 :
  same_but_sender m1 m2 -> hs_Value (Subject m1) <> "Logon"%string ->
  Dispatch d id m1 = Dispatch d id m2.
Proof.
  intros Hm Hl. assert (Handle (d_systemService d) id m1 = Handle (d_systemService d) id m2) as HH.
  { destruct Hm as (Hs & Hr & Hc). unfold Handle. rewrite <- Hs.
    destruct (find_handler handlers _) as [f|] eqn:Hf.
    - apply find_handler_in in Hf. by apply (handlers_ignore_sender _ _ _ _ _ _ Hf).
    - unfold refuse, reply. by rewrite Hs. }
  destruct Hm as (Hs & Hr & Hc). unfold Dispatch, handleScript. by rewrite Hs, Hr, Hc, HH.
Qed.


(** ** Group messages *)

Lemma movie_of_rooms_spec rooms mid :
  (forall m, movieRoomName m ∈ rooms <-> m = mid) -> movie_of_rooms rooms = mid.
Proof.
  intros Hm. assert (movieRoomName mid ∈ rooms) as Hin by by apply Hm.
  assert (forall m, movieRoomName m ∈ rooms -> m = mid) as Hall by naive_solver. clear Hm.
  induction rooms as [|r rooms IH]; [by apply not_elem_of_nil in Hin|]. cbn [movie_of_rooms].
  destruct (HasPrefix r "movie:") eqn:E.
  - apply HasPrefix_spec in E as [m ->]. rewrite TrimPrefix_app. apply Hall, list_elem_of_here.
  - apply IH.
    + apply elem_of_cons in Hin as [<-|Hin]; [|done].
      unfold movieRoomName in E. by rewrite HasPrefix_app in E.
    + intros m Hin'. apply Hall. by apply list_elem_of_further.
Qed.

(** What one write puts on the network: nothing for a client that is not
    connected or whose socket is closed or broken. *)
Definition delivery (p : ConnPool) (data : bytes) (m : string) : option (conn * bytes) :=
  match clients p !! m with
  | Some c => if decide (c ∈ closed (net p) \/ c ∈ dead (net p)) then None else Some (c, data)
  | None => None
  end.

Definition with_sent (p : ConnPool) (l : list (conn * bytes)) : ConnPool :=
  mkPool (clients p) (connToID p) (writeMu p)
    (mkNet (sent (net p) ++ l) (closed (net p)) (dead (net p))).

Lemma with_sent_nil p : with_sent p [] = p.
Proof. destruct p as [? ? ? [? ? ?]]. unfold with_sent. cbn. by rewrite app_nil_r. Qed.

Lemma with_sent_app p l k : with_sent (with_sent p l) k = with_sent p (l ++ k).
Proof. unfold with_sent. cbn. by rewrite app_assoc. Qed.

Lemma write_delivers p m data :
  pool_inv p ->
  exists err, pool_step (WriteToClient m data) p =
    (Some err, with_sent p (match delivery p data m with Some d => [d] | None => [] end)).
Proof.
  intros [Hb Hmu]. cbn [pool_step]. unfold cp_WriteToClient, delivery.
  destruct (clients p !! m) as [c|] eqn:E.
  - rewrite decide_True by (rewrite Hmu; apply elem_of_dom; exists m; by apply Hb).
    unfold conn_Write. case_decide; cbn [fst snd].
    + eexists. rewrite with_sent_nil. by destruct p.
    + eexists. done.
  - eexists. by rewrite with_sent_nil.
Qed.

Section Groups.
Context {W : Type} {h : forall X, port X -> W -> X * W}.
Context `{!SessionPort h, !PoolPort h, !MoviePort h}.

Lemma deliver_all_run members data w a p t :
  at_ w a p t -> pool_inv p ->
  exists w', run h (deliver_all members data) w = (Ret tt, w') /\
    at_ w' a (with_sent p (omap (delivery p data) members)) t.
Proof.
  revert w p. induction members as [|m members IH]; intros w p Hat Hp.
  - exists w. split; [apply run_ret|]. cbn. by rewrite with_sent_nil.
  - cbn [deliver_all]. destruct (write_delivers p m data Hp) as [err Hw].
    destruct (sys_pool (h := h) (WriteToClient m data) (fun _ => deliver_all members data)
      w a p t err Hat) as (w1 & Hr & Hat1); [by rewrite Hw|].
    rewrite Hw in Hat1. cbn [snd] in Hat1.
    destruct (IH _ _ Hat1) as (w2 & Hr2 & Hat2); [done|].
    exists w2. split; [by rewrite Hr|]. rewrite with_sent_app in Hat2.
    revert Hat2. cbn [omap list_omap]. by destruct (delivery p data m).
Qed.

(** A message to a group is written exactly once to every member of the
    sender's movie's group that has a live connection, and to nobody else:
    all get the same bytes, the encoding of a message from the sender to the
    group, in the clear or encrypted as configured. One broken connection does
    not keep the others from their copy, and no session changes. *)
Theorem group_delivery s senderID groupRef subject content mid w :
  sp_inv w -> pool_inv (pp_pool w) -> HasPrefix groupRef "@" = true -> mid <> ""%string ->
  (forall m, (movieRoomName m, senderID) ∈ s_members (sp_view w) <-> m = mid) ->
  (forall v, content = Some v -> returns (GetBytes v)) ->
  exists now data members w',
    run h (SendMessage s senderID groupRef subject content) w = (Ret None, w') /\
    MUSMessage_GetBytes (NewResponse now subject senderID [groupRef] ErrNoError content) = Ret data /\
    lists members (fun c => (groupRoomName mid groupRef, c) ∈ s_members (sp_view w)) /\
    sent (net (pp_pool w')) = sent (net (pp_pool w)) ++
      omap (delivery (pp_pool w) (seal (sd_allEncrypted s) (sd_cipher s) data)) members /\
    sp_view w' = sp_view w.
Proof.
  intros Hi Hp Hpre Hmid Hmov Hcont. unfold SendMessage, SendMessageFrom. rewrite Hpre.
  unfold deliverToGroup. pose proof (at_here w Hi) as Hat. sys_step Hat. cbn [spec_next] in Hat.
  destruct Hx as [_ Hx]. cbv zeta.
  rewrite (movie_of_rooms_spec x mid) by (intros m; by rewrite Hx).
  rewrite !(decide_False (P := mid = ""%string)) by done.
  sys_step Hat. cbn [spec_next] in Hat. rename x0 into members. sys_step Hat.
  set (now := (h Z Now _).1).
  assert (exists data, MUSMessage_GetBytes (NewResponse now subject senderID [groupRef] ErrNoError content)
    = Ret data) as [data Hd].
  { unfold MUSMessage_GetBytes. cbn [NewResponse MsgContent]. destruct content as [v|]; [|by eexists].
    destruct (Hcont v eq_refl) as [bs ->]. by eexists. }
  rewrite run_mbind, run_lift, Hd, run_then_Ret, run_mbind.
  destruct (deliver_all_run members (seal (sd_allEncrypted s) (sd_cipher s) data) _ _ _ _ Hat Hp)
    as (w' & -> & _ & Hv & Hpool & _).
  prun. exists now, data, members, w'. rewrite Hpool. split_and!; [done|done|exact Hx0|done|done].
Qed.
End Groups.

(** ** Witnesses *)

Definition claim_packet (sender : string) : bytes :=
  match MUSMessage_GetBytes
    (NewResponse 0 "system.server.getTime" sender ["System"%string] 0 (Some LVoid)) with
  | Ret b => b
  | _ => []
  end.

Definition small_handler : SMUSHandler :=
  mkSMUSHandler None (mkDispatcher true small_service (mkSender None false "")) false.

Definition parsed_claim (sender : string) : MUSMessage :=
  match ParseMUSMessage (claim_packet sender) with
  | Ret (inr m) => m
  | _ => message "" None
  end.


(** "alice" is in the lobby, and her own copy of a message to everyone there. *)
Definition chat_world : World SmallDB := (run small_step (JoinMovie "lobby" "alice") alice_world).2.

Lemma chat_world_at :
  at_ (h := small_step) chat_world
    (joined (view (w_sess alice_world))
       [(groupRoomName "lobby" "@AllUsers", "alice"%string); (movieRoomName "lobby", "alice"%string)])
    (w_pool alice_world) (with_movie (w_table alice_world) "lobby").
Proof.
  destruct (JoinMovie_run (h := small_step) "lobby" "alice" alice_world _ _ _ (at_here _ alice_world_inv))
    as (w' & Hr & Hat). unfold chat_world. rewrite Hr. exact Hat.
Qed.

Lemma alice_pool_inv : pool_inv (w_pool alice_world).
Proof.
  replace (w_pool alice_world) with sample_pool by (vm_compute; reflexivity).
  apply (pool_reachable_inv _ sample_pool_reachable).
Qed.

Lemma group_delivery_witness :
  exists data w', run small_step
      (SendMessage (mkSender None false "") "alice" "@AllUsers" "chat" (Some (LString "hello")))
      chat_world = (Ret None, w') /\ sent (net (w_pool w')) = [(1%nat, data)].
Proof.
  pose proof chat_world_at as (Hi & Hv & Hp & _).
  destruct (group_delivery (h := small_step) (mkSender None false "") "alice" "@AllUsers" "chat"
    (Some (LString "hello")) "lobby" chat_world Hi) as (now & data & ms & w' & Hr & _ & Hl & Hs & _).
  - rewrite Hp. exact alice_pool_inv.
  - reflexivity.
  - discriminate.
  - intros m. rewrite Hv. unfold joined. cbn [s_members list_to_set].
    replace (s_members (view (w_sess alice_world))) with (∅ : gset (string * string))
      by (vm_compute; reflexivity).
    rewrite !elem_of_union, !elem_of_singleton, !elem_of_empty. split.
    + intros [[H|[H|[]]]|[]]; [discriminate H|]. by injection H.
    + intros ->. left. right. by left.
  - intros v [= <-]. eexists. reflexivity.
  - exists data, w'. split; [exact Hr|].
    change (sent (net (w_pool w')) = [(1%nat, data)]).
    assert (ms = ["alice"%string]) as ->.
    { destruct Hl as [Hnd Hl]. rewrite Hv in Hl. apply Permutation_singleton_r.
      apply NoDup_Permutation; [exact Hnd|apply NoDup_singleton|]. intros c. rewrite Hl.
      unfold joined. cbn [s_members list_to_set].
      replace (s_members (view (w_sess alice_world))) with (∅ : gset (string * string))
        by (vm_compute; reflexivity).
      rewrite !elem_of_union, !elem_of_singleton, !elem_of_empty, list_elem_of_singleton. split.
      + intros [[H|[H|[]]]|[]]; [by injection H|discriminate H].
      + intros ->. left. by left. }
    etransitivity; [exact Hs|]. rewrite Hp. vm_compute. reflexivity.
Defined.
