(* ===== verification/Tcp.v ===== *)
(** * The TCP server (inbound/tcp_server.go, disconnect_hook.go)

    Framing of the byte stream, the per-frame work and the life of one
    connection: registration, the read loop, and the deferred teardown that runs
    whether the loop ends normally or a handler panics. *)

From Stdlib Require Import ZArith Lia String.
From stdpp Require Import base list strings gmap option sets.
From S2P Require Import Prelude GoFmt LValue LExtract LParse LRoundtrip Smus Effects Ports SessionStore ConnPool.
From S2P Require Import MovieTable Interfaces Services LogonSession LogonRace Movies World SystemService SystemProps.
From S2P Require Import Dispatch.

Open Scope Z_scope.

(** ** Framing *)

Definition musFrameHeaderLen : Z := 6.

Inductive frame_error := InvalidFrameHeader | NegativeContentSize | FrameTooLarge.

(** [inr None] asks for more bytes; [inr (Some (frame, rest))] is a frame. *)
Definition nextFrame (buf : bytes) (maxSize : Z) : outcome (frame_error + option (bytes * bytes)) :=
  if zlen buf <? musFrameHeaderLen then Ret (inr None)
  else
    b0 ← index buf 0;
    b1 ← index buf 1;
    if negb (bool_decide (b0 = Byte.x72)) || negb (bool_decide (b1 = Byte.x00))
    then Ret (inl InvalidFrameHeader)
    else
      contentSize ← be_uint 4 buf 2;
      if contentSize <? 0 then Ret (inl NegativeContentSize)
      else
        let total := musFrameHeaderLen + contentSize in
        if (0 <? maxSize) && (maxSize <? total) then Ret (inl FrameTooLarge)
        else if zlen buf <? total then Ret (inr None)
        else
          frame ← slice buf 0 total;
          rest ← slice_from buf total;
          Ret (inr (Some (frame, rest))).

(** ** One connection *)

(** The server's settings: the message size limit, whether a rate limiter is
    installed, and the script subject of the disconnect hook, if enabled. *)
Record TCPServer := mkTCPServer {
  srv_MaxMessageSize : Z;
  srv_rateLimiter : bool;
  srv_onDisconnect : option string;
  srv_handler : SMUSHandler
}.

(** The rate limiter, if any. *)
Definition admit_frame (s : TCPServer) (host : string) : M bool :=
  if srv_rateLimiter s then call_ (Allow host) else mret true.

(** The handler call and the activity stamp on success; errors give no response. *)
Definition process_frame (s : TCPServer) (currentID : string) (frame : bytes) : M bytes :=
  r ← HandleRawMessage (srv_handler s) currentID frame;
  match r with
  | inl _ => mret []
  | inr response =>
      now ← call_ Now;
      _ ← sess (UpdateLastActivity currentID now);
      mret response
  end.

(** The inner loop over the buffered frames: [None] leaves the read loop,
    [Some acc] waits for more bytes. *)
Fixpoint frame_loop (fuel : nat) (s : TCPServer) (c : conn) (host : string) (acc : bytes) :
    M (option bytes) :=
  match fuel with
  | O => lift OutOfFuel
  | S fuel =>
      r ← lift (nextFrame acc (srv_MaxMessageSize s));
      match r with
      | inl _ => mret None
      | inr None => mret (Some acc)
      | inr (Some (frame, rest)) =>
          currentID ← pool (CurrentID c);
          ok ← admit_frame s host;
          if negb ok then frame_loop fuel s c host rest
          else
            response ← process_frame s currentID frame;
            if 0 <? zlen response then
              writeID ← pool (CurrentID c);
              err ← pool (WriteToClient writeID response);
              match err with
              | Some _ => mret None
              | None => frame_loop fuel s c host rest
              end
            else frame_loop fuel s c host rest
      end
  end.

(** A frame is at least six bytes, so the buffer bounds the number of rounds. *)
Definition frame_fuel (acc : bytes) : nat := S (length acc).

(** The read loop: [chunks] are the successive reads, then end of file or an
    error ends it. The read buffer has [srv_MaxMessageSize] bytes, which must be
    positive: the code makes it without a check. *)
Fixpoint read_loop (s : TCPServer) (c : conn) (host : string) (acc : bytes) (chunks : list bytes) :
    M unit :=
  match chunks with
  | [] => mret tt
  | chunk :: chunks =>
      let acc := acc ++ chunk in
      r ← frame_loop (frame_fuel acc) s c host acc;
      match r with
      | None => mret tt
      | Some acc => read_loop s c host acc chunks
      end
  end.

(** [NewDisconnectFlushHook]'s callback. *)
Definition disconnect_hook (subject clientID : string) : M unit :=
  if decide (clientID = ""%string) then mret tt
  else
    found ← call_ (HasScript subject);
    if negb found then mret tt
    else
      _ ← call_ (Execute (mkScriptMessage subject clientID (Some LVoid)));
      mret tt.

(** The deferred teardown. *)
Definition teardown (s : TCPServer) (c : conn) : M unit :=
  currentID ← pool (Unregister c);
  _ ← match srv_onDisconnect s with Some subject => disconnect_hook subject currentID | None => mret tt end;
  _ ← sess (UnregisterConnection currentID);
  pool (CloseConn c).

(** The body: the session record and the read loop. *)
Definition serve (s : TCPServer) (c : conn) (clientIP host : string) (chunks : list bytes) : M unit :=
  now ← call_ Now;
  _ ← sess (RegisterConnection clientIP clientIP now);
  read_loop s c host [] chunks.

Definition handleConnection (s : TCPServer) (c : conn) (clientIP host : string) (chunks : list bytes) :
    M unit :=
  recover_ tt
    (_ ← pool (Register c clientIP);
     defer_ (teardown s c) (serve s c clientIP host chunks)).

(** ** The framer *)

Lemma nextFrame_short buf n : zlen buf < 6 -> nextFrame buf n = Ret (inr None).
Proof. intros H. unfold nextFrame, musFrameHeaderLen. by rewrite (proj2 (Z.ltb_lt _ _)). Qed.

(** The header of a long enough buffer: its two bytes and its size field. *)
Lemma nextFrame_long buf :
  6 <= zlen buf ->
  exists b0 b1 size, index buf 0 = Ret b0 /\ index buf 1 = Ret b1 /\ be_uint 4 buf 2 = Ret size /\
    0 <= size < two32 /\
    forall n, nextFrame buf n =
      if negb (bool_decide (b0 = Byte.x72)) || negb (bool_decide (b1 = Byte.x00))
      then Ret (inl InvalidFrameHeader)
      else if (0 <? n) && (n <? 6 + size) then Ret (inl FrameTooLarge)
      else if zlen buf <? 6 + size then Ret (inr None)
      else Ret (inr (Some (take (Z.to_nat (6 + size)) buf, drop (Z.to_nat (6 + size)) buf))).
Proof.
  intros Hlen. destruct (index_ret buf 0) as [b0 H0]; [lia|]. destruct (index_ret buf 1) as [b1 H1]; [lia|].
  destruct (be_uint_ret 4 buf 2) as (size & Hs & Hr); [lia|simpl; lia|].
  change (256 ^ Z.of_nat 4) with two32 in Hr.
  exists b0, b1, size. split_and!; [done|done|done|lia|lia|]. intros n.
  unfold nextFrame, musFrameHeaderLen. rewrite (proj2 (Z.ltb_ge (zlen buf) 6)) by lia.
  rewrite H0, H1, Hs. cbn [mbind outcome_bind].
  rewrite (proj2 (Z.ltb_ge size 0)) by lia.
  destruct (negb _ || negb _); [done|]. destruct (_ && _); [done|].
  destruct (Z.ltb_spec (zlen buf) (6 + size)); [done|]. unfold slice_from.
  rewrite !slice_ret by lia. cbn [mbind outcome_bind]. rewrite Z.sub_0_r. cbn [drop Z.to_nat].
  do 3 f_equal. f_equal. apply take_ge. rewrite length_drop. unfold zlen. lia.
Qed.

(** More bytes behind a buffer do not change what was decided on it. *)
Lemma index_ext {A} (l k : list A) i x : index l i = Ret x -> index (l ++ k) i = Ret x.
Proof.
  unfold index. destruct (0 <=? i); [|done]. destruct (l !! Z.to_nat i) eqn:E; [|done].
  intros [= ->]. by rewrite (lookup_app_l_Some _ _ _ _ E).
Qed.

Lemma be_uint_ext n l k off x : be_uint n l off = Ret x -> be_uint n (l ++ k) off = Ret x.
Proof.
  unfold be_uint, slice. destruct (_ && _ && _) eqn:E; [|done]. intros [= <-].
  apply andb_prop in E as [E H3]. rewrite E. apply andb_prop in E as [H1 H2].
  rewrite Z.leb_le in *. rewrite zlen_app. pose proof (zlen_nonneg k).
  rewrite (proj2 (Z.leb_le _ _)) by lia. cbn [mbind outcome_bind andb]. do 2 f_equal.
  unfold zlen in *. rewrite drop_app_le by lia. rewrite take_app_le; [done|]. rewrite length_drop. lia.
Qed.

Lemma nextFrame_ext buf ext n :
  match nextFrame buf n with
  | Ret (inl e) => nextFrame (buf ++ ext) n = Ret (inl e)
  | Ret (inr (Some (frame, rest))) => nextFrame (buf ++ ext) n = Ret (inr (Some (frame, rest ++ ext)))
  | Ret (inr None) => True
  | _ => False
  end.
Proof.
  destruct (Z.lt_ge_cases (zlen buf) 6) as [Hs|Hl]; [by rewrite nextFrame_short|].
  destruct (nextFrame_long buf Hl) as (b0 & b1 & size & H0 & H1 & Hsz & Hr & ->).
  destruct (nextFrame_long (buf ++ ext)) as (b0' & b1' & size' & H0' & H1' & Hsz' & _ & ->).
  { rewrite zlen_app. pose proof (zlen_nonneg ext). lia. }
  rewrite (index_ext _ _ _ _ H0) in H0'. rewrite (index_ext _ _ _ _ H1) in H1'.
  rewrite (be_uint_ext _ _ _ _ _ Hsz) in Hsz'. simplify_eq.
  destruct (negb _ || negb _); [done|]. destruct (_ && _); [done|].
  destruct (Z.ltb_spec (zlen buf) (6 + size')); [done|].
  rewrite (proj2 (Z.ltb_ge _ _)) by (rewrite zlen_app; pose proof (zlen_nonneg ext); lia).
  unfold zlen in *. rewrite take_app_le, drop_app_le by lia. done.
Qed.

(** The framer is total and exact. On any buffer it returns; a frame it
    returns is a non-empty prefix of the buffer that starts with the MUS header
    and whose length is six plus its size field, and the rest is what follows;
    and when it asks for more, the buffer is shorter than the size limit (or
    than a header): one connection cannot make the server buffer more than one
    frame. *)
Theorem nextFrame_exact buf n :
  match nextFrame buf n with
  | Ret (inr (Some (frame, rest))) =>
      buf = frame ++ rest /\ (exists body, frame = MUSHeader ++ body) /\
      (exists size, be_uint 4 frame 2 = Ret size /\ zlen frame = 6 + size) /\
      (0 < n -> zlen frame <= n)
  | Ret (inr None) => 0 < n -> zlen buf < Z.max 6 n
  | Ret (inl _) => True
  | _ => False
  end.
Proof.
  destruct (Z.lt_ge_cases (zlen buf) 6) as [Hs|Hl]; [rewrite nextFrame_short by done; lia|].
  destruct (nextFrame_long buf Hl) as (b0 & b1 & size & H0 & H1 & Hsz & Hr & ->).
  destruct (negb _ || negb _) eqn:Eh; [done|].
  apply orb_false_elim in Eh as [E0%negb_false_iff%bool_decide_eq_true E1%negb_false_iff%bool_decide_eq_true].
  subst b0 b1. destruct (_ && _) eqn:Em; [done|].
  assert (0 < n -> 6 + size <= n) as Hmax.
  { intros Hn. rewrite (proj2 (Z.ltb_lt 0 n) Hn) in Em. cbn in Em. apply Z.ltb_ge in Em. lia. }
  destruct (Z.ltb_spec (zlen buf) (6 + size)); [lia|].
  assert (zlen (take (Z.to_nat (6 + size)) buf) = 6 + size) as Hlen.
  { unfold zlen in *. rewrite length_take. lia. }
  split_and!; [by rewrite take_drop| | |lia].
  - destruct buf as [|x [|y buf]]; [done|done|].
    injection H0 as ->. injection H1 as ->.
    destruct (Z.to_nat (6 + size)) as [|[|k]] eqn:Ek; [lia|lia|]. by exists (take k buf).
  - exists size. split; [|done]. rewrite <- Hsz. unfold be_uint, slice. rewrite Hlen.
    rewrite !(proj2 (Z.leb_le _ _)) by (simpl; lia). cbn [andb mbind outcome_bind]. do 2 f_equal.
    change (Z.to_nat 2) with 2%nat. change (Z.to_nat (2 + Z.of_nat 4 - 2)) with 4%nat.
    rewrite skipn_firstn_comm, take_take. f_equal. lia.
Qed.

(** ** Reading in chunks *)

Lemma nextFrame_consumes buf n frame rest :
  nextFrame buf n = Ret (inr (Some (frame, rest))) -> (length rest < length buf)%nat.
Proof.
  destruct (Z.lt_ge_cases (zlen buf) 6) as [Hs|Hl]; [by rewrite nextFrame_short|].
  destruct (nextFrame_long buf Hl) as (b0 & b1 & size & _ & _ & _ & Hr & ->).
  destruct (negb _ || negb _); [done|]. destruct (_ && _); [done|].
  destruct (_ <? _); [done|]. intros [= _ <-]. rewrite length_drop. unfold zlen in *. lia.
Qed.

Lemma nextFrame_returns buf n : exists r, nextFrame buf n = Ret r.
Proof. pose proof (nextFrame_ext buf [] n). destruct (nextFrame buf n); [by eexists|done|done]. Qed.

Section Chunks.
Context {W : Type} (h : forall X, port X -> W -> X * W).
Context (s : TCPServer) (c : conn) (host : string).

Abbreviation loop fuel acc := (frame_loop fuel s c host acc).

(** The work on one frame, with the rest of the loop as a continuation. *)
Definition on_frame (frame : bytes) (next : M (option bytes)) : M (option bytes) :=
  currentID ← pool (CurrentID c);
  ok ← admit_frame s host;
  if negb ok then next
  else
    response ← process_frame s currentID frame;
    if 0 <? zlen response then
      writeID ← pool (CurrentID c);
      err ← pool (WriteToClient writeID response);
      match err with Some _ => mret None | None => next end
    else next.

Lemma run_then_ext {A B} (r : outcome A * W) (f g : A -> W -> outcome B * W) :
  (forall a w, f a w = g a w) -> run_then r f = run_then r g.
Proof. intros Hfg. unfold run_then. destruct r.1; auto. Qed.

(** Two continuations that behave alike can be exchanged; what follows a
    continuation may move into it when it is skipped on a break. *)
Lemma on_frame_then frame next k w :
  k None = mret None ->
  run h (on_frame frame next ≫= k) w = run h (on_frame frame (next ≫= k)) w.
Proof.
  intros Hk. unfold on_frame, pool. rewrite !run_mbind, !run_call, !run_then_Ret, !run_lift.
  destruct (h _ (Pool _) w).1; [|reflexivity]. rewrite !run_then_Ret, !run_mbind.
  destruct (run h (admit_frame s host) _) as [[ok| |] w1]; [|reflexivity..]. rewrite !run_then_Ret.
  destruct ok; cbn [negb]; [|by rewrite run_mbind].
  rewrite !run_mbind. destruct (run h (process_frame s _ frame) w1) as [[resp| |] w2]; [|reflexivity..].
  rewrite !run_then_Ret. destruct (0 <? zlen resp); [|by rewrite run_mbind].
  rewrite !run_mbind, !run_call, !run_then_Ret, !run_lift. destruct (h _ (Pool _) w2).1; [|reflexivity].
  rewrite !run_then_Ret, !run_mbind, !run_call, !run_then_Ret, !run_lift.
  match goal with |- context [(h _ (Pool (WriteToClient ?a ?b)) ?w').1] =>
    destruct (h _ (Pool (WriteToClient a b)) w').1 as [[e|]|] end; [| |reflexivity].
  - rewrite !run_then_Ret, !run_ret, run_then_Ret, Hk. reflexivity.
  - rewrite !run_then_Ret, run_mbind. reflexivity.
Qed.

Lemma on_frame_ext frame n1 n2 w :
  (forall w, run h n1 w = run h n2 w) -> run h (on_frame frame n1) w = run h (on_frame frame n2) w.
Proof.
  intros Hn. unfold on_frame. rewrite !run_mbind. apply run_then_ext. intros id w1.
  rewrite !run_mbind. apply run_then_ext. intros ok w2. destruct ok; cbn [negb]; [|apply Hn].
  rewrite !run_mbind. apply run_then_ext. intros resp w3. destruct (0 <? zlen resp); [|apply Hn].
  rewrite !run_mbind. apply run_then_ext. intros wid w4. rewrite !run_mbind. apply run_then_ext.
  intros [e|] w5; [done|apply Hn].
Qed.

Lemma frame_loop_unfold fuel acc w :
  run h (loop (S fuel) acc) w =
  match nextFrame acc (srv_MaxMessageSize s) with
  | Ret (inl _) => (Ret None, w)
  | Ret (inr None) => (Ret (Some acc), w)
  | Ret (inr (Some (frame, rest))) => run h (on_frame frame (loop fuel rest)) w
  | Panic => (Panic, w)
  | OutOfFuel => (OutOfFuel, w)
  end.
Proof.
  cbn [frame_loop]. rewrite run_mbind, run_lift.
  destruct (nextFrame acc _) as [[e|[[frame rest]|]]| |]; reflexivity.
Qed.

(** More fuel than bytes is as good as any. *)
Lemma frame_loop_fuel f1 f2 acc w :
  (length acc < f1)%nat -> (length acc < f2)%nat -> run h (loop f1 acc) w = run h (loop f2 acc) w.
Proof.
  revert f2 acc w. induction f1 as [|f1 IH]; intros f2 acc w H1 H2; [lia|].
  destruct f2 as [|f2]; [lia|]. rewrite !frame_loop_unfold.
  destruct (nextFrame acc _) as [[e|[[frame rest]|]]| |] eqn:E; [done| |done|done|done].
  apply nextFrame_consumes in E. apply on_frame_ext. intros w'. apply IH; lia.
Qed.

(** Draining a longer buffer is draining the shorter one, then going on with
    what it left. *)
Lemma frame_loop_app fuel acc ext w :
  (length (acc ++ ext) < fuel)%nat ->
  run h (loop fuel (acc ++ ext)) w =
  run h (r ← loop fuel acc;
         match r with None => mret None | Some acc' => loop (frame_fuel (acc' ++ ext)) (acc' ++ ext) end) w.
Proof.
  revert acc w. induction fuel as [|fuel IH]; intros acc w Hf; [lia|].
  rewrite run_mbind, (frame_loop_unfold fuel acc).
  pose proof (nextFrame_ext acc ext (srv_MaxMessageSize s)) as Hext.
  destruct (nextFrame acc _) as [[e|[[frame rest]|]]| |] eqn:E; [| | |done|done].
  - by rewrite frame_loop_unfold, Hext.
  - rewrite frame_loop_unfold, Hext, <- run_mbind, on_frame_then by done.
    apply on_frame_ext. intros w'. apply IH. apply nextFrame_consumes in E.
    rewrite length_app in *. lia.
  - rewrite run_then_Ret. apply frame_loop_fuel; [done|]. unfold frame_fuel. lia.
Qed.
End Chunks.

Lemma read_loop_concat {W} (h : forall X, port X -> W -> X * W) s c host acc chunk chunks w :
  run h (read_loop s c host acc (chunk :: chunks)) w =
  run h (read_loop s c host acc [concat (chunk :: chunks)]) w.
Proof.
  revert acc chunk w. induction chunks as [|chunk' chunks IH]; intros acc chunk w.
  { cbn [concat]. by rewrite app_nil_r. }
  cbn [read_loop]. cbv zeta. set (all := concat (chunk' :: chunks)).
  assert (forall acc w, run h (read_loop s c host acc (chunk' :: chunks)) w =
    run h (read_loop s c host acc [all]) w) as IH' by (intros; apply IH). clear IH.
  change (concat (chunk :: chunk' :: chunks)) with (chunk ++ all). rewrite app_assoc.
  rewrite !run_mbind.
  rewrite (frame_loop_app h s c host (frame_fuel ((acc ++ chunk) ++ all)) (acc ++ chunk) all w)
    by (unfold frame_fuel; lia). rewrite run_mbind.
  rewrite (frame_loop_fuel h s c host (frame_fuel ((acc ++ chunk) ++ all)) (frame_fuel (acc ++ chunk)))
    by (unfold frame_fuel; rewrite ?length_app; lia).
  destruct (run h (frame_loop _ _ _ _ _) w) as [[[acc'|]| |] w1]; rewrite ?run_then_Ret; try reflexivity.
  etransitivity; [apply IH'|]. cbn [read_loop]. cbv zeta. rewrite run_mbind. apply run_then_ext.
  intros [a|] w2; reflexivity.
Qed.

(** C37. TCP segmentation is invisible: two deliveries of the same byte stream in
    different chunks (a message split over several reads, several messages in
    one read) make the connection handler do the same calls in the same order
    with the same answers, whatever the ports do. *)
Theorem chunking_irrelevant {W} (h : forall X, port X -> W -> X * W) s c host chunks1 chunks2 w :
  concat chunks1 = concat chunks2 ->
  run h (read_loop s c host [] chunks1) w = run h (read_loop s c host [] chunks2) w.
Proof.
  intros Hc. assert (forall chunks, run h (read_loop s c host [] chunks) w =
    run h (read_loop s c host [] [concat chunks]) w) as Hall.
  { intros [|chunk chunks]; [|apply read_loop_concat]. cbn [read_loop concat]. cbv zeta.
    rewrite run_mbind. unfold frame_fuel. rewrite frame_loop_unfold, nextFrame_short by done.
    rewrite run_then_Ret. reflexivity. }
  by rewrite (Hall chunks1), (Hall chunks2), Hc.
Qed.

Lemma chunking_irrelevant_witness :
  run small_step (read_loop (mkTCPServer 65536 false None small_handler) 1%nat "10.0.0.1" []
    [take 5 (claim_packet ""); drop 5 (claim_packet "") ++ claim_packet "x"]) small_world =
  run small_step (read_loop (mkTCPServer 65536 false None small_handler) 1%nat "10.0.0.1" []
    [claim_packet ""; claim_packet "x"]) small_world.
Proof.
  apply (chunking_irrelevant small_step). cbn [concat]. rewrite !app_nil_r, app_assoc.
  by rewrite take_drop.
Defined.

(** ** The life of a connection *)

(** What a message handler may call: everything but the two pool calls that
    belong to the connection's own set-up and teardown. *)
Definition no_registration (X : Type) (e : port X) : Prop :=
  match e with
  | Pool op => match op with Register _ _ | Unregister _ => False | _ => True end
  | _ => True
  end.

Ltac walk_with tac := repeat first
  [ progress intros
  | solve [tac]
  | apply invoked_ret | apply invoked_lift; solve [auto with fuel | by case_match]
  | apply invoked_call; exact I
  | apply invoked_mbind
  | case_match ].

Ltac walk := walk_with ltac:(fail).

Lemma Logon_no_registration s req : invoked no_registration (Logon s req).
Proof.
  unfold Logon, logon_mode, logon_account, validateCredentials, establishSession, remap_guard,
    bind_session, sess, db, pool. walk.
Qed.

Lemma JoinMovie_no_registration m u : invoked no_registration (JoinMovie m u).
Proof. unfold JoinMovie, sess, mov. walk. Qed.

Lemma collect_no_registration plist names f : invoked no_registration (collect_fields plist names f).
Proof. revert f. induction names; intros f; cbn [collect_fields]; unfold element; walk. auto. Qed.

Lemma command_no_registration s id msg names act :
  (forall f, invoked no_registration (act f)) ->
  invoked no_registration (handleDBCommand s id msg names act).
Proof.
  intros Hact. unfold handleDBCommand, CanRun, UserLevel, command_fields, refuse, reply, respond, sess.
  walk; auto using collect_no_registration.
Qed.

Lemma handleLogon_no_registration s id msg : invoked no_registration (handleLogon s id msg).
Proof.
  unfold handleLogon, extractCredentials, extractFromList, extractFromPropList, element, string_of,
    join_after_logon, respond, sess.
  walk; auto using Logon_no_registration, JoinMovie_no_registration.
Qed.

Lemma confined_no_registration id X (e : port X) : confined id X e -> no_registration X e.
Proof. by destruct e. Qed.

Lemma handlers_no_registration subj f s id msg :
  (subj, f) ∈ handlers -> invoked no_registration (f s id msg).
Proof.
  intros Hin. destruct (decide (subj ∈ privileged)) as [Hp|Hp]; cycle 1.
  - destruct (decide (subj = "Logon"%string)) as [Hl|Hl].
    + each_handler Hin; first [discriminate Hl|apply handleLogon_no_registration].
    + eapply invoked_mono; [apply (confined_no_registration id)|by eapply open_confined].
  - each_handler Hin; try (by not_in Hp);
      first [ apply command_no_registration; intros f; unfold as_owner, OwnerOrAdmin, UserLevel,
                field_string, field, string_of, db, sess; walk
            | unfold handleServerSendEmail, handleServerSetKillTimer, handleServerCancelKillTimer,
                handleUserDelete, handleUserSetKillTimer, handleUserCancelKillTimer, optional_string,
                with_element, with_string_arg, CanRun, UserLevel, element, string_of, refuse, reply,
                respond, sess, pool; walk ].
Qed.

Lemma deliver_all_no_registration ms data : invoked no_registration (deliver_all ms data).
Proof. induction ms; cbn [deliver_all]; unfold pool; walk; auto. Qed.

Lemma Dispatch_no_registration d id msg : invoked no_registration (Dispatch d id msg).
Proof.
  unfold Dispatch, Handle, handleScript, SendMessage, SendMessageFrom, deliverToGroup, refuse, reply,
    respond, pool, sess.
  walk; first [apply deliver_all_no_registration
              | eapply handlers_no_registration, find_handler_in; eassumption].
Qed.

Lemma HandleRawMessage_no_registration s id frame : invoked no_registration (HandleRawMessage s id frame).
Proof. unfold HandleRawMessage. walk; auto using Dispatch_no_registration. Qed.

Lemma process_frame_no_registration s id frame : invoked no_registration (process_frame s id frame).
Proof. unfold process_frame, sess. walk_with ltac:(apply HandleRawMessage_no_registration). Qed.

Lemma frame_loop_no_registration fuel s c host acc :
  (length acc < fuel)%nat -> invoked no_registration (frame_loop fuel s c host acc).
Proof.
  revert acc. induction fuel as [|fuel IH]; intros acc Hf; [lia|]. cbn [frame_loop].
  destruct (nextFrame_returns acc (srv_MaxMessageSize s)) as [r Hr]. rewrite Hr.
  apply invoked_lift_bind. destruct r as [e|[[frame rest]|]]; [done| |done].
  apply nextFrame_consumes in Hr.
  assert (invoked no_registration (frame_loop fuel s c host rest)) as Hrest by (apply IH; lia).
  unfold admit_frame, pool.
  walk_with ltac:(first [exact Hrest | apply process_frame_no_registration]).
Qed.

Lemma read_loop_no_registration s c host acc chunks :
  invoked no_registration (read_loop s c host acc chunks).
Proof.
  revert acc. induction chunks as [|chunk chunks IH]; intros acc; [done|]. cbn [read_loop]. cbv zeta.
  apply invoked_mbind; [apply frame_loop_no_registration; unfold frame_fuel; lia|].
  intros [acc'|]; [apply IH|done].
Qed.

Lemma serve_no_registration s c ip host chunks : invoked no_registration (serve s c ip host chunks).
Proof. unfold serve, sess. walk_with ltac:(apply read_loop_no_registration). Qed.

Section Connection.
Context {W : Type} {h : forall X, port X -> W -> X * W}.
Context `{!SessionPort h, !PoolPort h, !MoviePort h}.

(** What holds while a connection is served. *)
Definition serving (c : conn) (w : W) : Prop :=
  sp_inv w /\ pool_inv (pp_pool w) /\ is_Some (connToID (pp_pool w) !! c).

Lemma serving_step c X (e : port X) w :
  no_registration X e -> serving c w -> serving c (h X e w).2.
Proof.
  intros He (Hi & Hp & Hc). split.
  { destruct (is_sess e) eqn:Es; [|by apply (sp_frame h)].
    destruct e; try done. by destruct (sp_step h _ op w Hi) as (x & _ & _ & _ & ?). }
  destruct (is_pool e) eqn:Ep; [|by rewrite (pp_frame h)].
  destruct e; try done. destruct (pp_step h _ op w) as [_ ->]. split.
  - apply pool_step_inv; [done|]. by destruct op.
  - destruct op; try done; cbn [pool_step snd].
    + unfold cp_WriteToClient. case_match; [|done]. by case_decide.
    + destruct (remap_cases (pp_pool w) oldID newID) as [[-> _]|(c' & _ & _ & ->)]; [done|].
      cbn [snd connToID]. apply lookup_insert_is_Some. destruct (decide (c' = c)); naive_solver.
    + unfold cp_DisconnectClient. by case_match.
Qed.

Lemma serve_keeps c s ip host chunks w :
  serving c w -> serving c (run h (serve s c ip host chunks) w).2.
Proof.
  apply (run_invariant h no_registration (serving c)); [|apply serve_no_registration].
  intros X e w'. apply serving_step.
Qed.

Lemma hook_run s id w a p t :
  at_ w a p t ->
  exists w', run h (match srv_onDisconnect s with
                    | Some subject => disconnect_hook subject id
                    | None => mret tt
                    end) w = (Ret tt, w') /\ at_ w' a p t.
Proof.
  intros Hat. destruct (srv_onDisconnect s) as [subject|]; [|by exists w; split; [apply run_ret|]].
  unfold disconnect_hook. case_decide; [by exists w; split; [apply run_ret|]|].
  sys_step Hat. destruct (h _ (HasScript subject) _).1; cbn [negb];
    [|eexists; by split; [apply run_ret|]].
  sys_step Hat. eexists. by split; [apply run_ret|].
Qed.

Lemma teardown_run s c w :
  serving c w ->
  exists w', run h (teardown s c) w = (Ret tt, w') /\
    connToID (pp_pool w') !! c = None /\ pool_inv (pp_pool w') /\
    c ∈ closed (net (pp_pool w')) /\ forgotten (cp_CurrentID (pp_pool w) c) (sp_view w').
Proof.
  intros (Hi & Hp & Hc). pose proof (at_here w Hi) as Hat. unfold teardown.
  set (id := cp_CurrentID (pp_pool w) c).
  destruct (sys_pool (h := h) (Unregister c) (fun currentID =>
    _ ← match srv_onDisconnect s with Some subject => disconnect_hook subject currentID | None => mret tt end;
    _ ← sess (UnregisterConnection currentID); pool (CloseConn c)) w _ _ _ id Hat eq_refl)
    as (w1 & -> & Hat1). clear Hat. rewrite run_mbind.
  destruct (hook_run s id w1 _ _ _ Hat1) as (w2 & -> & Hat2). clear Hat1. rewrite run_then_Ret.
  sys_step Hat2. destruct (sys_pool (h := h) (CloseConn c) mret _ _ _ _ tt Hat2 eq_refl)
    as (w4 & Hr & (_ & Hv & Hpool & _)).
  exists w4. split; [revert Hr; unfold pool; prun; destruct (h _ (Pool (CloseConn c)) _) as [[[]|] ?];
    prun; auto|].
  rewrite Hpool, Hv. split_and!.
  - cbn. by rewrite lookup_delete_eq.
  - by apply (unregister_inv (pp_pool w) c Hp).
  - cbn [pool_step snd net]. unfold conn_Close. case_decide; [done|]. cbn [snd closed]. set_solver.
  - apply unregister_forgotten.
Qed.

(** C13. No connection leaves anything behind. Whatever bytes the client sends
    and however its connection ends (end of stream, protocol error, a failed
    write, or a panic in the handling of a message), the connection handler
    itself returns; afterwards the connection is out of the pool, whose table
    is consistent, its socket is closed, and no session, attribute or room
    membership is left under the id it was last known by. *)
Theorem connection_cleanup s c ip host chunks w :
  sp_inv w -> pool_inv (pp_pool w) ->
  connToID (pp_pool w) !! c = None -> clients (pp_pool w) !! ip = None ->
  let w1 := (run h (serve s c ip host chunks) (h _ (Pool (Register c ip)) w).2).2 in
  exists w', run h (handleConnection s c ip host chunks) w = (Ret tt, w') /\
    connToID (pp_pool w') !! c = None /\ pool_inv (pp_pool w') /\
    c ∈ closed (net (pp_pool w')) /\ forgotten (cp_CurrentID (pp_pool w1) c) (sp_view w').
Proof.
  intros Hi Hp Hc Hip w1.
  destruct (pp_step h _ (Register c ip) w) as [Hans Hpool]. cbn [pool_step fst snd] in Hans, Hpool.
  destruct (sp_frame h _ (Pool (Register c ip)) w eq_refl Hi) as [_ Hi0].
  assert (serving c (h _ (Pool (Register c ip)) w).2) as H0.
  { split; [done|]. rewrite Hpool. split; [by apply register_inv|]. cbn.
    rewrite lookup_insert_eq. by eexists. }
  pose proof (serve_keeps c s ip host chunks _ H0) as H1. fold w1 in H1.
  destruct (teardown_run s c w1 H1) as (w' & Ht & Hrest).
  exists w'. split; [|exact Hrest]. unfold handleConnection. rewrite run_recover, run_mbind.
  unfold pool. rewrite run_mbind, run_call, run_then_Ret, Hans, run_lift, run_then_Ret, run_defer.
  cbv zeta. fold w1. rewrite Ht, run_then_Ret. cbn [fst snd].
  pose proof (run_invoked h no_registration (serve s c ip host chunks)
    (h _ (Pool (Register c ip)) w).2 (serve_no_registration _ _ _ _ _)) as Hfuel.
  destruct (run h (serve _ _ _ _ _) _).1 as [[]| |]; [done|done|done].
Qed.
End Connection.

Lemma connection_cleanup_witness :
  exists w', run small_step (handleConnection (mkTCPServer 65536 false None small_handler) 3%nat
      "10.0.0.3:6000" "10.0.0.3" [claim_packet ""]) small_world = (Ret tt, w') /\
    3%nat ∈ closed (net (w_pool w')).
Proof.
  destruct (connection_cleanup (h := small_step) (mkTCPServer 65536 false None small_handler) 3%nat
    "10.0.0.3:6000" "10.0.0.3" [claim_packet ""] small_world small_world_inv) as (w' & Hr & _ & _ & Hc & _);
    [|reflexivity|reflexivity|].
  - apply pool_reachable_inv. exists (mkNet [] ∅ ∅).
    eapply rtc_l; [apply (PoolTrans _ (Register 1%nat "10.0.0.1:4000")); vm_compute; by split|].
    eapply rtc_l; [apply (PoolTrans _ (Register 2%nat "10.0.0.2:5000")); vm_compute; by split|].
    apply rtc_refl.
  - exists w'. split; [exact Hr|exact Hc].
Defined.
