(* ===== verification/Listener.v ===== *)
(** * The accept loop and the shutdown of the TCP server (inbound/tcp_server.go)

    [Start] accepts connections, closes those without a readable or with a
    banned address and starts a goroutine for each of the others; [Shutdown]
    closes the channel [shutdown], the listener, the connections that are in the
    pool, and waits for the goroutines. What a goroutine does while its connection
    is open is the subject of file Tcp; here it registers, runs until its socket
    is closed by either side, cleans up and leaves.

    [tcp_lifecycle]: the wait group counts the running goroutines, refused
    connections are closed and never served, and a shutdown that does not meet a
    connection in the making returns, with every goroutine gone. *)

From Stdlib Require Import ZArith Lia.
From stdpp Require Import base list strings gmap option sets fin_maps fin_sets relations.
From S2P Require Import Prelude.

Open Scope Z_scope.

(** Where the accept loop is. *)
Inductive aphase :=
| ATop
| AAccept
| AGot (c : nat) (host : option string)      (* [None]: the address has no host *)
| AReturned.

(** Where the goroutine of a connection is. *)
Inductive hphase :=
| HSpawned                                   (* not in the pool yet *)
| HServing
| HLeft                                      (* unregistered, socket closed *)
| HDone.                                     (* [wg.Done] *)

(** Where the call of [Shutdown] is. *)
Inductive sphase := SRunning | SSignalled | SListenerClosed | SWaiting | SReturned.

#[export] Instance aphase_eq_dec : EqDecision aphase.
Proof. solve_decision. Defined.

#[export] Instance hphase_eq_dec : EqDecision hphase.
Proof. solve_decision. Defined.

#[export] Instance sphase_eq_dec : EqDecision sphase.
Proof. solve_decision. Defined.

Record TcpSystem := mkTcp {
  ts_accept : aphase;
  ts_shutdown : bool;                        (* the channel is closed *)
  ts_listener : bool;                        (* the listener is open *)
  ts_wg : Z;
  ts_conns : gmap nat hphase;
  ts_closed : gset nat;                      (* sockets the server closed *)
  ts_gone : gset nat;                        (* sockets whose reads fail or end: the client's doing *)
  ts_refused : gset nat;
  ts_down : sphase
}.

Definition tcp_start : TcpSystem := mkTcp ATop false true 0 ∅ ∅ ∅ ∅ SRunning.

Definition at_accept (a : aphase) (s : TcpSystem) : TcpSystem :=
  mkTcp a (ts_shutdown s) (ts_listener s) (ts_wg s) (ts_conns s) (ts_closed s) (ts_gone s) (ts_refused s) (ts_down s).

Definition at_down (d : sphase) (s : TcpSystem) : TcpSystem :=
  mkTcp (ts_accept s) (ts_shutdown s) (ts_listener s) (ts_wg s) (ts_conns s) (ts_closed s) (ts_gone s) (ts_refused s) d.

Definition conn_at (c : nat) (h : hphase) (s : TcpSystem) : TcpSystem :=
  mkTcp (ts_accept s) (ts_shutdown s) (ts_listener s) (ts_wg s) (<[c := h]> (ts_conns s)) (ts_closed s) (ts_gone s)
    (ts_refused s) (ts_down s).

Definition close_all (cs : gset nat) (s : TcpSystem) : TcpSystem :=
  mkTcp (ts_accept s) (ts_shutdown s) (ts_listener s) (ts_wg s) (ts_conns s) (cs ∪ ts_closed s) (ts_gone s)
    (ts_refused s) (ts_down s).

Definition wg_add (n : Z) (s : TcpSystem) : TcpSystem :=
  mkTcp (ts_accept s) (ts_shutdown s) (ts_listener s) (ts_wg s + n) (ts_conns s) (ts_closed s) (ts_gone s)
    (ts_refused s) (ts_down s).

(** The loop looks at the channel before it accepts and after a failed accept. *)
Definition accept_next (s : TcpSystem) (go_on : aphase) : TcpSystem :=
  at_accept (if ts_shutdown s then AReturned else go_on) s.

(** The connection is closed and the loop goes on. *)
Definition refuse (c : nat) (s : TcpSystem) : TcpSystem :=
  mkTcp ATop (ts_shutdown s) (ts_listener s) (ts_wg s) (ts_conns s) ({[c]} ∪ ts_closed s) (ts_gone s)
    ({[c]} ∪ ts_refused s) (ts_down s).

Definition spawn (c : nat) (s : TcpSystem) : TcpSystem := at_accept ATop (conn_at c HSpawned (wg_add 1 s)).

(** The connections in the pool. *)
Definition pooled (s : TcpSystem) : gset nat := dom (filter (fun p => p.2 = HServing) (ts_conns s)).

Definition ended_socket (s : TcpSystem) (c : nat) : Prop := c ∈ ts_closed s \/ c ∈ ts_gone s.

(** Steps of the server's own goroutines. *)
Inductive server_step : TcpSystem -> TcpSystem -> Prop :=
| LTop s : ts_accept s = ATop -> server_step s (accept_next s AAccept)
| LAcceptFails s :
    ts_accept s = AAccept -> ts_listener s = false -> server_step s (accept_next s ATop)
| LNoHost c s : ts_accept s = AGot c None -> server_step s (refuse c s)
| LBanned c host s : ts_accept s = AGot c (Some host) -> server_step s (refuse c s)
| LServe c host s : ts_accept s = AGot c (Some host) -> server_step s (spawn c s)
| LRegister c s : ts_conns s !! c = Some HSpawned -> server_step s (conn_at c HServing s)
| LTeardown c s :
    ts_conns s !! c = Some HServing -> ended_socket s c -> server_step s (close_all {[c]} (conn_at c HLeft s))
| LWgDone c s : ts_conns s !! c = Some HLeft -> server_step s (wg_add (-1) (conn_at c HDone s))
| LSignal s :
    ts_down s = SRunning ->
    server_step s (mkTcp (ts_accept s) true (ts_listener s) (ts_wg s) (ts_conns s) (ts_closed s) (ts_gone s) (ts_refused s) SSignalled)
| LCloseListener s :
    ts_down s = SSignalled ->
    server_step s (mkTcp (ts_accept s) (ts_shutdown s) false (ts_wg s) (ts_conns s) (ts_closed s) (ts_gone s) (ts_refused s) SListenerClosed)
| LCloseAll s : ts_down s = SListenerClosed -> server_step s (at_down SWaiting (close_all (pooled s) s))
| LWaited s : ts_down s = SWaiting -> ts_wg s = 0 -> server_step s (at_down SReturned s).

(** What the world does: connections come, accepting fails for other reasons,
    clients end theirs (or send what makes the server drop them). *)
Inductive world_step : TcpSystem -> TcpSystem -> Prop :=
| WConnect c host s :
    ts_accept s = AAccept -> ts_listener s = true -> ts_conns s !! c = None -> c ∉ ts_refused s ->
    world_step s (at_accept (AGot c host) s)
| WAcceptFails s : ts_accept s = AAccept -> world_step s (accept_next s ATop)
| WGone c s :
    world_step s (mkTcp (ts_accept s) (ts_shutdown s) (ts_listener s) (ts_wg s) (ts_conns s) (ts_closed s)
                    ({[c]} ∪ ts_gone s) (ts_refused s) (ts_down s)).

Definition tcp_step (s s' : TcpSystem) : Prop := server_step s s' \/ world_step s s'.

(** ** Invariants *)

Definition running (m : gmap nat hphase) : nat := size (filter (fun p => p.2 <> HDone) m).

Lemma running_insert_new m c h : m !! c = None -> h <> HDone -> running (<[c := h]> m) = S (running m).
Proof.
  intros Hc Hh. unfold running. rewrite map_filter_insert_True by done.
  rewrite map_size_insert_None; [done|]. apply map_lookup_filter_None. by left.
Qed.

Lemma running_insert_same m c h h' : m !! c = Some h -> h <> HDone -> h' <> HDone -> running (<[c := h']> m) = running m.
Proof.
  intros Hc Hh Hh'. unfold running. rewrite map_filter_insert_True by done.
  rewrite map_size_insert_Some; [done|]. eexists. by apply map_lookup_filter_Some.
Qed.

Lemma running_insert_done m c h : m !! c = Some h -> h <> HDone -> S (running (<[c := HDone]> m)) = running m.
Proof.
  intros Hc Hh. unfold running. rewrite map_filter_insert_False by (cbn; tauto). rewrite map_filter_delete, map_size_delete_Some.
  - assert (size (filter (fun p => p.2 <> HDone) m) <> 0%nat) as Hne; [|lia].
    intros E. apply map_size_empty_inv in E. assert (filter (fun p => p.2 <> HDone) m !! c = Some h) as Hl
      by by apply map_lookup_filter_Some. by rewrite E in Hl.
  - eexists. by apply map_lookup_filter_Some.
Qed.

Definition stage (d : sphase) : Z :=
  match d with SRunning => 0 | SSignalled => 1 | SListenerClosed => 2 | SWaiting => 3 | SReturned => 4 end.

Definition tcp_inv (s : TcpSystem) : Prop :=
  ts_wg s = Z.of_nat (running (ts_conns s)) /\
  ts_shutdown s = (0 <? stage (ts_down s)) /\ ts_listener s = (stage (ts_down s) <? 2) /\
  (forall c, c ∈ ts_refused s -> c ∈ ts_closed s /\ ts_conns s !! c = None) /\
  (forall c h, ts_accept s = AGot c h -> ts_conns s !! c = None /\ c ∉ ts_refused s) /\
  (forall c, ts_conns s !! c = Some HLeft \/ ts_conns s !! c = Some HDone -> c ∈ ts_closed s) /\
  (ts_down s = SReturned -> (running (ts_conns s) <= 1)%nat /\
     ((0 < running (ts_conns s))%nat -> ts_accept s = ATop \/ ts_accept s = AReturned)).

Lemma inv_start : tcp_inv tcp_start.
Proof. repeat split; try done; set_solver. Qed.

Lemma inv_accept_next s a :
  (ts_accept s = ATop \/ ts_accept s = AAccept) -> a = ATop \/ a = AAccept -> tcp_inv s -> tcp_inv (accept_next s a).
Proof.
  intros Ha Hn (I1 & I2 & I3 & I4 & I5 & I6 & I7). unfold accept_next.
  split; [done|]. split; [done|]. split; [done|]. split; [done|]. split; [|split; [done|]].
  - intros c h. cbn. destruct (ts_shutdown s), Hn; by subst.
  - cbn. intros Hd. destruct (I7 Hd) as [H1 H2]. split; [done|]. intros _. right. rewrite I2, Hd. done.
Qed.

(** A goroutine goes from one phase to another. *)
Lemma conn_phase_inv c h h' s :
  ts_conns s !! c = Some h -> h <> HDone -> h' <> HDone -> (h' = HLeft -> c ∈ ts_closed s) -> tcp_inv s ->
  tcp_inv (conn_at c h' s).
Proof.
  intros Hc Hh Hh' Hl (I1 & I2 & I3 & I4 & I5 & I6 & I7).
  assert (running (<[c := h']> (ts_conns s)) = running (ts_conns s)) as Hr by by apply (running_insert_same _ _ h).
  unfold tcp_inv. cbn [conn_at ts_wg ts_shutdown ts_listener ts_refused ts_closed ts_conns ts_accept ts_down]. rewrite Hr.
  split_and!; [done..| | | |done].
  - intros d Hd. destruct (I4 d Hd). split; [done|]. rewrite lookup_insert_ne; [done|congruence].
  - intros d g Hg. destruct (I5 d g Hg). split; [|done]. rewrite lookup_insert_ne; [done|congruence].
  - intros d. destruct (decide (c = d)) as [->|Hne]; [|rewrite lookup_insert_ne by done; apply I6].
    rewrite lookup_insert_eq. intros [E|E]; simplify_eq; auto.
Qed.

Lemma inv_close cs s : tcp_inv s -> tcp_inv (close_all cs s).
Proof.
  intros (I1 & I2 & I3 & I4 & I5 & I6 & I7). split_and!; [done..| |done| |done].
  - intros c Hc. destruct (I4 c Hc). cbn. set_solver.
  - intros c Hc. specialize (I6 c Hc). cbn. set_solver.
Qed.

Lemma inv_done c s : ts_conns s !! c = Some HLeft -> tcp_inv s -> tcp_inv (wg_add (-1) (conn_at c HDone s)).
Proof.
  intros Hc (I1 & I2 & I3 & I4 & I5 & I6 & I7). pose proof (running_insert_done _ c HLeft Hc ltac:(done)) as Hr.
  unfold tcp_inv. cbn [wg_add conn_at ts_wg ts_shutdown ts_listener ts_refused ts_closed ts_conns ts_accept ts_down].
  split_and!; [lia|done|done| | | |].
  - intros d Hd. destruct (I4 d Hd). split; [done|]. rewrite lookup_insert_ne; [done|congruence].
  - intros d g Hg. destruct (I5 d g Hg). split; [|done]. rewrite lookup_insert_ne; [done|congruence].
  - intros d. destruct (decide (c = d)) as [->|Hne]; [auto|rewrite lookup_insert_ne by done; apply I6].
  - intros Hd. destruct (I7 Hd) as [H1 H2]. split; [lia|]. intros _. apply H2. lia.
Qed.

Lemma inv_spawn c host s : ts_accept s = AGot c (Some host) -> tcp_inv s -> tcp_inv (spawn c s).
Proof.
  intros Ha (I1 & I2 & I3 & I4 & I5 & I6 & I7). destruct (I5 c _ Ha) as [Hc Hr].
  pose proof (running_insert_new _ c HSpawned Hc ltac:(done)) as Hn.
  unfold tcp_inv. cbn [spawn at_accept wg_add conn_at ts_wg ts_shutdown ts_listener ts_refused ts_closed ts_conns ts_accept ts_down].
  split_and!; [lia|done|done| |done| |].
  - intros d Hd. destruct (I4 d Hd). split; [done|]. rewrite lookup_insert_ne; [done|congruence].
  - intros d. destruct (decide (c = d)) as [->|Hne]; [|rewrite lookup_insert_ne by done; apply I6].
    rewrite lookup_insert_eq. intros [E|E]; done.
  - intros Hd. destruct (I7 Hd) as [H1 H2]. rewrite Hn. split; [|auto].
    destruct (decide (running (ts_conns s) = 0%nat)) as [->|Hne]; [lia|]. destruct H2; [lia|congruence..].
Qed.

Lemma inv_refuse c h s : ts_accept s = AGot c h -> tcp_inv s -> tcp_inv (refuse c s).
Proof.
  intros Ha (I1 & I2 & I3 & I4 & I5 & I6 & I7). destruct (I5 c _ Ha) as [Hc Hr].
  split_and!; [done|done|done| |done| |].
  - intros d. cbn. rewrite elem_of_union, elem_of_singleton. intros [->|Hd]; [split; [by apply elem_of_union_l, elem_of_singleton|done]|].
    destruct (I4 d Hd). split; [by apply elem_of_union_r|done].
  - intros d Hd. specialize (I6 d Hd). cbn. by apply elem_of_union_r.
  - cbn. intros Hd. destruct (I7 Hd). split; [done|]. auto.
Qed.

Lemma server_inv s s' : server_step s s' -> tcp_inv s -> tcp_inv s'.
Proof.
  destruct 1 as [s Ha|s Ha Hl|c s Ha|c host s Ha|c host s Ha|c s Hc|c s Hc He|c s Hc|s Hd|s Hd|s Hd|s Hd Hw]; intros I.
  - apply inv_accept_next; auto.
  - apply inv_accept_next; auto.
  - by eapply inv_refuse.
  - by eapply inv_refuse.
  - by eapply inv_spawn.
  - by apply (conn_phase_inv c HSpawned).
  - change (tcp_inv (conn_at c HLeft (close_all {[c]} s))). apply (conn_phase_inv c HServing); try done; [cbn; set_solver|].
    by apply inv_close.
  - by apply inv_done.
  - destruct I as (I1 & I2 & I3 & I4 & I5 & I6 & I7). rewrite Hd in I3. by split_and!.
  - destruct I as (I1 & I2 & I3 & I4 & I5 & I6 & I7). rewrite Hd in I2. by split_and!.
  - destruct (inv_close (pooled s) s I) as (I1 & I2 & I3 & I4 & I5 & I6 & I7). cbn in *. rewrite Hd in I2, I3. by split_and!.
  - destruct I as (I1 & I2 & I3 & I4 & I5 & I6 & I7). rewrite Hd in I2, I3. split_and!; try done. cbn. intros _. lia.
Qed.

Lemma world_inv s s' : world_step s s' -> tcp_inv s -> tcp_inv s'.
Proof.
  destruct 1 as [c host s Ha Hl Hc Hr|s Ha|c s]; intros I.
  - destruct I as (I1 & I2 & I3 & I4 & I5 & I6 & I7). split_and!; try done.
    + intros d h [= -> ->]. done.
    + cbn. intros Hd. rewrite Hl, Hd in I3. done.
  - apply inv_accept_next; auto.
  - exact I.
Qed.

Lemma tcp_reachable s : rtc tcp_step tcp_start s -> tcp_inv s.
Proof.
  intros Hr. enough (forall a b, rtc tcp_step a b -> tcp_inv a -> tcp_inv b) as H1 by exact (H1 _ _ Hr inv_start).
  induction 1 as [|a b c [Hab|Hab] _ IH]; [done| |]; intros Ha; apply IH; [by eapply server_inv|by eapply world_inv].
Qed.

(** ** Shutting down *)

(** Every goroutine that is left is on its way out. *)
Definition winding_down (s : TcpSystem) : Prop := forall c h, ts_conns s !! c = Some h ->
  h = HDone \/ h = HLeft \/ h = HServing /\ ended_socket s c.

Lemma running_some m : running m <> 0%nat -> exists c h, m !! c = Some h /\ h <> HDone.
Proof.
  intros Hn. unfold running in Hn. destruct (map_choose (filter (fun p => p.2 <> HDone) m)) as (c & h & Hc).
  { intros E. by rewrite E in Hn. }
  apply map_lookup_filter_Some in Hc. eauto.
Qed.

Lemma winding_leave c s : ts_conns s !! c = Some HLeft -> winding_down s -> winding_down (wg_add (-1) (conn_at c HDone s)).
Proof.
  intros Hc Hw d h. cbn. destruct (decide (c = d)) as [->|Hne].
  - rewrite lookup_insert_eq. intros [= <-]. by left.
  - rewrite lookup_insert_ne by done. apply Hw.
Qed.

Lemma winding_teardown c s : winding_down s -> winding_down (close_all {[c]} (conn_at c HLeft s)).
Proof.
  intros Hw d h. cbn. destruct (decide (c = d)) as [->|Hne].
  - rewrite lookup_insert_eq. intros [= <-]. auto.
  - rewrite lookup_insert_ne by done. intros Hd. destruct (Hw d h Hd) as [?|[?|[? He]]]; [auto..|].
    right. right. split; [done|]. unfold ended_socket in *. cbn. set_solver.
Qed.

Lemma winds_down s :
  winding_down s -> ts_accept s = AReturned ->
  exists s', rtc server_step s s' /\ running (ts_conns s') = 0%nat /\ ts_down s' = ts_down s /\ ts_accept s' = AReturned.
Proof.
  remember (running (ts_conns s)) as n eqn:Hn. revert s Hn. induction n as [|n IH]; intros s Hn Hw Ha; [by exists s|].
  destruct (running_some (ts_conns s)) as (c & h & Hc & Hh); [lia|].
  assert (forall s1, ts_conns s1 !! c = Some HLeft -> running (ts_conns s1) = S n -> winding_down s1 -> ts_accept s1 = AReturned ->
    exists s', rtc server_step s1 s' /\ running (ts_conns s') = 0%nat /\ ts_down s' = ts_down s1 /\ ts_accept s' = AReturned) as Hleft.
  { intros s1 H1 H2 H3 H4. pose proof (running_insert_done _ c HLeft H1 ltac:(done)) as Hr.
    destruct (IH (wg_add (-1) (conn_at c HDone s1))) as (s' & R1 & R2 & R3 & R4); [cbn; lia|by apply winding_leave|done|].
    exists s'. split; [|done]. eapply rtc_l; [by apply LWgDone|done]. }
  destruct (Hw c h Hc) as [->|[->|[-> He]]]; [done|by apply Hleft|].
  destruct (Hleft (close_all {[c]} (conn_at c HLeft s))) as (s' & R1 & R2 & R3 & R4).
  - cbn. by rewrite lookup_insert_eq.
  - cbn. by rewrite (running_insert_same _ _ HServing).
  - by apply winding_teardown.
  - done.
  - exists s'. split; [|done]. eapply rtc_l; [by apply LTeardown|done].
Qed.

Lemma accept_returns s :
  ts_shutdown s = true -> ts_listener s = false -> (forall c h, ts_accept s <> AGot c h) ->
  rtc server_step s (at_accept AReturned s).
Proof.
  intros Hs Hl Ha. assert (accept_next s AAccept = at_accept AReturned s) as E1 by (unfold accept_next; by rewrite Hs).
  assert (accept_next s ATop = at_accept AReturned s) as E2 by (unfold accept_next; by rewrite Hs).
  destruct (ts_accept s) as [| |c h|] eqn:Ht.
  - apply rtc_once. rewrite <- E1. by apply LTop.
  - apply rtc_once. rewrite <- E2. by apply LAcceptFails.
  - by destruct (Ha c h).
  - assert (s = at_accept AReturned s) as <- by (destruct s; cbn in *; by subst). apply rtc_refl.
Qed.

(** C16. The life of the TCP server. At any time, whatever connects, fails or is
    closed: the wait group counts the goroutines that have not finished; a refused
    connection is closed and has no goroutine; every goroutine that is done has
    closed its socket; after [Shutdown] has returned at most one goroutine is
    left. And when [Shutdown] comes to close the pool while no connection is
    between [Accept] and its entry in the pool, the server's own steps lead to
    the return of both [Shutdown] and [Start], with all goroutines done. *)
Theorem tcp_lifecycle s :
  rtc tcp_step tcp_start s ->
  ts_wg s = Z.of_nat (running (ts_conns s)) /\
  (forall c, c ∈ ts_refused s -> c ∈ ts_closed s /\ ts_conns s !! c = None) /\
  (forall c, ts_conns s !! c = Some HDone -> c ∈ ts_closed s) /\
  (ts_down s = SReturned -> (running (ts_conns s) <= 1)%nat) /\
  (ts_down s = SListenerClosed -> (forall c h, ts_accept s <> AGot c h) -> (forall c, ts_conns s !! c <> Some HSpawned) ->
   exists s', rtc server_step s s' /\ ts_down s' = SReturned /\ ts_accept s' = AReturned /\
     forall c h, ts_conns s' !! c = Some h -> h = HDone /\ c ∈ ts_closed s').
Proof.
  intros Hr. assert (I := tcp_reachable s Hr). destruct I as (I1 & I2 & I3 & I4 & I5 & I6 & I7).
  split_and!; [done|done|auto|intros Hd; apply (I7 Hd)|].
  intros Hd Ha Hs. rewrite Hd in I2, I3.
  set (s1 := at_accept AReturned s). set (s2 := at_down SWaiting (close_all (pooled s1) s1)).
  assert (winding_down s2) as Hw.
  { intros c h Hc. change (ts_conns s !! c = Some h) in Hc. destruct h; [by destruct (Hs c)| |auto|auto].
    right. right. split; [done|]. left. cbn. apply elem_of_union_l, elem_of_dom. exists HServing. by apply map_lookup_filter_Some. }
  destruct (winds_down s2 Hw eq_refl) as (s3 & R & R0 & R3 & R4).
  assert (rtc server_step s s3) as Hs3.
  { etrans; [by apply accept_returns|]. eapply rtc_l; [by apply LCloseAll|exact R]. }
  assert (J : tcp_inv s3) by (apply tcp_reachable; etrans; [exact Hr|]; eapply rtc_subrel; [|exact Hs3]; intros; by left).
  exists (at_down SReturned s3). destruct J as (J1 & _ & _ & _ & _ & J6 & _). split_and!; [|done|done|].
  - eapply rtc_r; [exact Hs3|]. apply LWaited; [done|]. by rewrite J1, R0.
  - cbn. intros c h Hc. destruct (decide (h = HDone)) as [->|Hne]; [auto|].
    apply map_size_empty_inv in R0. assert (filter (fun p => p.2 <> HDone) (ts_conns s3) !! c = Some h) as Hf
      by by apply map_lookup_filter_Some. by rewrite R0 in Hf.
Qed.

(** One client is being served when the server is shut down. *)
Definition one_served : TcpSystem :=
  mkTcp AAccept true false 1 {[ 0%nat := HServing ]} ∅ ∅ ∅ SListenerClosed.

Lemma one_served_reached : rtc tcp_step tcp_start one_served.
Proof.
  eapply rtc_l; [left; by apply LTop|]. eapply rtc_l; [right; by apply (WConnect 0%nat (Some "10.0.0.1"%string))|].
  eapply rtc_l; [left; by eapply LServe|]. eapply rtc_l; [left; by apply LTop|].
  eapply rtc_l; [left; by apply (LRegister 0%nat)|]. eapply rtc_l; [left; by apply LSignal|].
  eapply rtc_l; [left; by apply LCloseListener|]. apply rtc_refl.
Qed.

Lemma tcp_lifecycle_witness :
  rtc tcp_step tcp_start one_served /\
  exists s', rtc server_step one_served s' /\ ts_down s' = SReturned /\ ts_accept s' = AReturned /\
    forall c h, ts_conns s' !! c = Some h -> h = HDone /\ c ∈ ts_closed s'.
Proof.
  split; [exact one_served_reached|].
  destruct (tcp_lifecycle one_served one_served_reached) as (_ & _ & _ & _ & Hdown).
  apply Hdown; [reflexivity|discriminate|]. intros c. destruct (decide (c = 0%nat)) as [->|Hne]; [discriminate|].
  unfold one_served. cbn. rewrite lookup_singleton_ne by congruence. discriminate.
Defined.

(** A connection accepted just before the shutdown registers after [CloseAll]:
    [Shutdown] then waits for a goroutine that waits for its client, and no step
    of the server can end that. *)
Lemma shutdown_hangs :
  exists s, rtc tcp_step tcp_start s /\ ts_down s = SWaiting /\ ts_conns s !! 0%nat = Some HServing /\
    forall s', server_step s s' -> False.
Proof.
  exists (mkTcp AReturned true false 1 {[ 0%nat := HServing ]} ∅ ∅ ∅ SWaiting). split; [|split; [done|split; [done|]]].
  - eapply rtc_l; [left; by apply LTop|]. eapply rtc_l; [right; by apply (WConnect 0%nat (Some "10.0.0.1"%string))|].
    eapply rtc_l; [left; by apply LSignal|]. eapply rtc_l; [left; by apply LCloseListener|].
    eapply rtc_l; [left; by apply LCloseAll|]. eapply rtc_l; [left; by eapply LServe|].
    eapply rtc_l; [left; by apply LTop|]. eapply rtc_l; [left; by apply (LRegister 0%nat)|]. apply rtc_refl.
  - assert (forall c h, ({[ 0%nat := HServing ]} : gmap nat hphase) !! c = Some h -> c = 0%nat /\ h = HServing) as Hone.
    { intros c h Hc. apply lookup_singleton_Some in Hc as [<- <-]. done. }
    intros s'. inversion 1; subst; cbn in *; try done;
      match goal with H : _ !! _ = Some _ |- _ => apply Hone in H as [-> ?] end; try done.
    by match goal with H : ended_socket _ _ |- _ => destruct H; set_solver end.
Qed.

(** Or it is served after [Shutdown] has returned, when the stores are closed. *)
Lemma served_after_shutdown :
  exists s, rtc tcp_step tcp_start s /\ ts_down s = SReturned /\ ts_conns s !! 0%nat = Some HServing.
Proof.
  exists (mkTcp ATop true false 1 {[ 0%nat := HServing ]} ∅ ∅ ∅ SReturned). split; [|done].
  eapply rtc_l; [left; by apply LTop|]. eapply rtc_l; [right; by apply (WConnect 0%nat (Some "10.0.0.1"%string))|].
  eapply rtc_l; [left; by apply LSignal|]. eapply rtc_l; [left; by apply LCloseListener|].
  eapply rtc_l; [left; by apply LCloseAll|]. eapply rtc_l; [left; by apply LWaited|].
  eapply rtc_l; [left; by eapply LServe|]. eapply rtc_l; [left; by apply (LRegister 0%nat)|]. apply rtc_refl.
Qed.
