(* ===== verification/Udp.v ===== *)
(** * The UDP server (inbound/udp_server.go)

    Datagrams are handled one after the other on the read loop, so the handler
    must come back whatever a datagram contains. The last thing it does is to
    write the response, whose error is only logged: the datagram to write is the
    result here. Logging and counters are not modelled. *)

From Stdlib Require Import ZArith Lia String.
From stdpp Require Import base list strings gmap option sets.
From S2P Require Import Prelude GoFmt LValue LExtract LParse LRoundtrip Smus Effects Ports SessionStore ConnPool.
From S2P Require Import MovieTable Interfaces Services LogonSession LogonRace Movies World SystemService SystemProps.
From S2P Require Import Dispatch Tcp.

Open Scope Z_scope.

Record UDPServer := mkUDPServer {
  udp_MaxMessageSize : Z;
  udp_banChecker : bool;
  udp_rateLimiter : bool;
  udp_handler : SMUSHandler
}.

(** The sender's address is its IP and its [addr.String()]. *)
Definition packet_body (s : UDPServer) (ip addr : string) (data : bytes) : M (option bytes) :=
  banned ← (if udp_banChecker s then call_ (IsIPBanned ip) else mret false : M bool);
  if (banned : bool) then mret None
  else
    ok ← (if udp_rateLimiter s then call_ (Allow ip) else mret true : M bool);
    if negb ok then mret None
    else
      r ← HandleRawMessage (udp_handler s) addr data;
      let response := match r with inl _ => [] | inr b => b end in
      if 0 <? zlen response then mret (Some response) else mret None.

Definition handlePacket (s : UDPServer) (ip addr : string) (data : bytes) : M (option bytes) :=
  recover_ None (packet_body s ip addr data).

(** The read loop over the datagrams received: the buffer cuts each one to
    [MaxMessageSize], empty ones are dropped. *)
Fixpoint serve_udp (s : UDPServer) (packets : list (string * string * bytes)) : M (list (string * bytes)) :=
  match packets with
  | [] => mret []
  | (ip, addr, data) :: packets =>
      let data := take (Z.to_nat (udp_MaxMessageSize s)) data in
      r ← (if 0 <? zlen data then handlePacket s ip addr data else mret None);
      rest ← serve_udp s packets;
      mret (match r with Some out => (addr, out) :: rest | None => rest end)
  end.

Lemma packet_no_registration s ip addr data : invoked no_registration (packet_body s ip addr data).
Proof.
  unfold packet_body.
  apply invoked_mbind; [destruct (udp_banChecker s); [by apply invoked_call|done]|]. intros [|]; [done|].
  apply invoked_mbind; [destruct (udp_rateLimiter s); [by apply invoked_call|done]|]. intros [|]; [cbn [negb]|done].
  apply invoked_mbind; [apply HandleRawMessage_no_registration|]. intros r. by case_match.
Qed.

Lemma handlePacket_returns {W} (h : forall X, port X -> W -> X * W) s ip addr data w :
  exists r, (run h (handlePacket s ip addr data) w).1 = Ret r.
Proof.
  unfold handlePacket. rewrite run_recover. cbv zeta. cbn [fst].
  pose proof (run_invoked h _ _ w (packet_no_registration s ip addr data)) as Hf.
  destruct (run h (packet_body s ip addr data) w).1; [eauto|eauto|done].
Qed.

(** No datagram stops the UDP server: whatever is received, every datagram
    is handled to the end, a panic in its handling included, and a datagram
    from a banned or rate-limited address makes no call beyond that check and is
    not answered. *)
Theorem udp_served {W} (h : forall X, port X -> W -> X * W) s packets w :
  (exists out, (run h (serve_udp s packets) w).1 = Ret out) /\
  forall ip addr data w,
    (udp_banChecker s = true -> (h _ (IsIPBanned ip) w).1 = true ->
       run h (handlePacket s ip addr data) w = (Ret None, (h _ (IsIPBanned ip) w).2)) /\
    (udp_banChecker s = false -> udp_rateLimiter s = true -> (h _ (Allow ip) w).1 = false ->
       run h (handlePacket s ip addr data) w = (Ret None, (h _ (Allow ip) w).2)).
Proof.
  split.
  - revert w. induction packets as [|[[ip addr] data] packets IH]; intros w; cbn [serve_udp]; [by eexists|]. prun.
    destruct (0 <? _); prun.
    + destruct (handlePacket_returns h s ip addr (take (Z.to_nat (udp_MaxMessageSize s)) data) w) as [r Hr].
      destruct (run h (handlePacket s ip addr _) w) as [o w1]. cbn [fst] in Hr. subst o. prun.
      destruct (IH w1) as [out Ho]. destruct (run h (serve_udp s packets) w1) as [o w2]. cbn [fst] in Ho. subst o. prun.
      by eexists.
    + destruct (IH w) as [out Ho]. destruct (run h (serve_udp s packets) w) as [o w2]. cbn [fst] in Ho. subst o. prun.
      by eexists.
  - clear w packets. intros ip addr data w. unfold handlePacket, packet_body. split.
    + intros Hb Hv. rewrite run_recover, Hb. prun. rewrite Hv. by prun.
    + intros Hb Hr Hv. rewrite run_recover, Hb. prun. rewrite Hr. prun. rewrite Hv. by prun.
Qed.

(** Three datagrams to a server without checks, one of them empty. *)
Lemma udp_served_witness :
  exists out, (run small_step (serve_udp (mkUDPServer 4096 false false small_handler)
    [("10.0.0.9", "10.0.0.9:53", [Byte.x72; Byte.x00]); ("10.0.0.9", "10.0.0.9:53", []);
     ("10.0.0.8", "10.0.0.8:53", [Byte.x00])]%string) small_world).1 = Ret out.
Proof.
  exact (proj1 (udp_served small_step (mkUDPServer 4096 false false small_handler)
    [("10.0.0.9", "10.0.0.9:53", [Byte.x72; Byte.x00]); ("10.0.0.9", "10.0.0.9:53", []);
     ("10.0.0.8", "10.0.0.8:53", [Byte.x00])]%string small_world)).
Defined.
