(* ===== verification/Config.v ===== *)
(** * Configuration (internal/config/config.go)

    The configuration is read from the environment; [env] is what [os.Environ]
    lists after godotenv (a third-party package) has loaded the .env file, one
    [KEY=VALUE] string per variable. [PostgresConfig.DSN], which only spells a
    URL for the driver, is not modelled.

    [command_levels]: the level of every command is its default unless the
    variable named after the command holds an integer. [configured_level_enforced]:
    in a server so configured, a guarded command from a sender below that level
    does nothing. [configured_level_ignored]: the levels of the other commands
    have no effect at all. *)

From Stdlib Require Import ZArith Lia String Ascii.
From stdpp Require Import base list strings gmap option sets.
From S2P Require Import Prelude GoFmt LValue LExtract LParse LRoundtrip Smus Effects Ports SessionStore ConnPool.
From S2P Require Import MovieTable Interfaces Services LogonSession LogonRace Movies World SystemService SystemProps.

Open Scope Z_scope.

Record RedisConfig := mkRedisConfig {
  redis_Host : string;
  redis_Port : string;
  redis_Password : string;
  redis_DB : string;
  redis_KeyPrefix : string;
  redis_ConnTTL : string
}.

Record RabbitMQConfig := mkRabbitMQConfig {
  mq_Host : string;
  mq_Port : string;
  mq_User : string;
  mq_Password : string;
  mq_VHost : string;
  mq_Exchange : string
}.

Record PostgresConfig := mkPostgresConfig {
  pg_URL : string;
  pg_Host : string;
  pg_Port : string;
  pg_User : string;
  pg_Password : string;
  pg_DBName : string;
  pg_SSLMode : string
}.

Record ServerConfig := mkServerConfig {
  cfg_ApplicationName : string;
  cfg_Port : string;
  cfg_ServerIP : string;
  cfg_MaxMessageSize : Z;
  cfg_TCPNoDelay : bool;
  cfg_DefaultUserLevel : Z;
  cfg_LogLevel : string;
  cfg_LoggerType : string;
  cfg_LogPath : string;
  cfg_LogBufferSize : Z;
  cfg_Environment : string;
  cfg_CipherType : string;
  cfg_EncryptionKey : string;
  cfg_Protocol : string;
  cfg_DatabaseType : string;
  cfg_DatabasePath : string;
  cfg_Postgres : PostgresConfig;
  cfg_SessionStoreType : string;
  cfg_ScriptsPath : string;
  cfg_ScriptTimeout : Z;
  cfg_SandboxedScriptsDir : string;
  cfg_DisconnectHook : string;
  cfg_AuthMode : string;
  cfg_Redis : RedisConfig;
  cfg_AllEncrypted : bool;
  cfg_QueueType : string;
  cfg_QueueRedis : RedisConfig;
  cfg_RabbitMQ : RabbitMQConfig;
  cfg_CommandLevels : gmap string Z;
  cfg_IdleTimeout : Z;
  cfg_UDPPort : string;
  cfg_CacheType : string;
  cfg_CacheRedis : RedisConfig;
  cfg_RateLimitRequests : Z;
  cfg_RateLimitWindow : Z;
  cfg_MetricsPort : string;
  cfg_MetricsBindAddr : string;
  cfg_HTTPPort : string;
  cfg_HTTPBindAddr : string;
  cfg_HTTPScriptsPath : string;
  cfg_JobsEnabled : bool;
  cfg_DefaultMovieID : string;
  cfg_SMTPHost : string;
  cfg_SMTPPort : string;
  cfg_SMTPUser : string;
  cfg_SMTPPass : string;
  cfg_SMTPFrom : string
}.

Definition default_levels : list (string * Z) := [
  ("system.server.getVersion", 20);
  ("system.server.getTime", 20);
  ("system.server.getUserCount", 20);
  ("system.server.getMovieCount", 20);
  ("system.server.getMovies", 20);
  ("system.movie.getUserCount", 20);
  ("system.movie.getGroups", 20);
  ("system.movie.getGroupCount", 20);
  ("system.group.join", 20);
  ("system.group.leave", 20);
  ("system.group.getUsers", 20);
  ("system.group.getUserCount", 20);
  ("system.group.setAttribute", 20);
  ("system.group.getAttribute", 20);
  ("system.group.deleteAttribute", 20);
  ("system.group.getAttributeNames", 20);
  ("system.user.getAddress", 20);
  ("system.user.getGroups", 20);
  ("system.user.delete", 80);
  ("DBPlayer.getAttribute", 20);
  ("DBPlayer.setAttribute", 20);
  ("DBPlayer.deleteAttribute", 20);
  ("DBPlayer.getAttributeNames", 20);
  ("DBApplication.getAttribute", 80);
  ("DBApplication.setAttribute", 80);
  ("DBApplication.deleteAttribute", 80);
  ("DBApplication.getAttributeNames", 80);
  ("DBAdmin.createApplication", 80);
  ("DBAdmin.deleteApplication", 80);
  ("DBAdmin.createUser", 80);
  ("DBAdmin.deleteUser", 80);
  ("DBAdmin.getUserCount", 80);
  ("DBAdmin.ban", 80);
  ("DBAdmin.revokeBan", 80);
  ("system.server.sendEmail", 80);
  ("system.server.setKillTimer", 80);
  ("system.server.cancelKillTimer", 80);
  ("system.user.setKillTimer", 80);
  ("system.user.cancelKillTimer", 80)
]%string%Z.

Definition defaultCommandLevels : gmap string Z := list_to_map default_levels.

(** ** The environment *)

(** [strings.IndexByte(env, '=')] and the two slices around it. *)
Fixpoint split_env (s : string) : option (string * string) :=
  match s with
  | EmptyString => None
  | String c s =>
      if decide (c = "="%char) then Some (EmptyString, s)
      else match split_env s with Some (k, v) => Some (String c k, v) | None => None end
  end.

(** [os.LookupEnv] *)
Fixpoint LookupEnv (env : list string) (key : string) : option string :=
  match env with
  | [] => None
  | e :: env =>
      match split_env e with
      | Some (k, v) => if decide (k = key) then Some v else LookupEnv env key
      | None => LookupEnv env key
      end
  end.

Definition Atoi (s : string) : num_error + Z := ParseInt (bytes_of_string s).

Definition getEnv (env : list string) (key fallback : string) : string :=
  match LookupEnv env key with Some value => value | None => fallback end.

Definition getEnvInt (env : list string) (key : string) (fallback : Z) : Z :=
  match LookupEnv env key with
  | Some value => match Atoi value with inr n => n | inl _ => fallback end
  | None => fallback
  end.

(** ** Command levels *)

Fixpoint map_chars (f : ascii -> ascii) (s : string) : string :=
  match s with EmptyString => EmptyString | String c s => String (f c) (map_chars f s) end.

(** [strings.ReplaceAll(subject, ".", "_")] and [strings.ToUpper] on ASCII. *)
Definition dot_to_underscore (c : ascii) : ascii := if decide (c = "."%char) then "_"%char else c.
Definition to_upper (c : ascii) : ascii :=
  let n := N_of_ascii c in if ((97 <=? n) && (n <=? 122))%N then ascii_of_N (n - 32) else c.

Definition normalized (subject : string) : string := map_chars to_upper (map_chars dot_to_underscore subject).

Section Levels.
Context `{MapOrder}.

(** The reverse lookup: normalized subject to subject. *)
Definition reverse_lookup : gmap string string :=
  fold_left (fun lookup subject => <[normalized subject := subject]> lookup) (range (dom defaultCommandLevels)) ∅.

(** One turn of the loop over the environment. *)
Definition override (levels : gmap string Z) (env : string) : gmap string Z :=
  if HasPrefix env "USERLEVEL_" then
    match split_env env with
    | None => levels
    | Some (key, val) =>
        match reverse_lookup !! TrimPrefix key "USERLEVEL_" with
        | Some subject => match Atoi val with inr n => <[subject := n]> levels | inl _ => levels end
        | None => levels
        end
    end
  else levels.

Definition loadCommandLevels (env : list string) : gmap string Z := fold_left override env defaultCommandLevels.

Definition LoadServerConfig (env : list string) : ServerConfig := {|
  cfg_ApplicationName := getEnv env "APPLICATION_NAME" "SMUS-SERVER";
  cfg_Port := getEnv env "PORT" "1199";
  cfg_ServerIP := getEnv env "SERVER_IP" "";
  cfg_MaxMessageSize := getEnvInt env "MAX_MESSAGE_SIZE" 8192;
  cfg_TCPNoDelay := bool_decide (getEnv env "TCP_NO_DELAY" "1" = "1");
  cfg_DefaultUserLevel := getEnvInt env "DEFAULT_USER_LEVEL" 20;
  cfg_LogLevel := getEnv env "LOG_LEVEL" "INFO";
  cfg_LoggerType := getEnv env "LOGGER_TYPE" "file";
  cfg_LogPath := getEnv env "LOG_PATH" "logs";
  cfg_LogBufferSize := getEnvInt env "LOG_BUFFER_SIZE" 1024;
  cfg_Environment := getEnv env "ENVIRONMENT" "development";
  cfg_CipherType := getEnv env "CIPHER_TYPE" "blowfish";
  cfg_EncryptionKey := getEnv env "ENCRYPTION_KEY" "IPAddress resolution";
  cfg_Protocol := getEnv env "PROTOCOL" "smus";
  cfg_DatabaseType := getEnv env "DATABASE_TYPE" "sqlite";
  cfg_DatabasePath := getEnv env "DATABASE_PATH" "data/musgo.db";
  cfg_Postgres := mkPostgresConfig (getEnv env "DATABASE_URL" "") (getEnv env "DATABASE_HOST" "localhost") (getEnv env "DATABASE_PORT" "5432") (getEnv env "DATABASE_USER" "postgres") (getEnv env "DATABASE_PASSWORD" "") (getEnv env "DATABASE_NAME" "musgo") (getEnv env "DATABASE_SSLMODE" "disable");
  cfg_SessionStoreType := getEnv env "SESSION_STORE_TYPE" "memory";
  cfg_ScriptsPath := getEnv env "SCRIPTS_PATH" "external/scripts";
  cfg_ScriptTimeout := getEnvInt env "SCRIPT_TIMEOUT" 5;
  cfg_SandboxedScriptsDir := getEnv env "SANDBOXED_SCRIPTS_DIR" "";
  cfg_DisconnectHook := getEnv env "DISCONNECT_HOOK" "users/onDisconnect";
  cfg_AuthMode := getEnv env "AUTH_MODE" "open";
  cfg_Redis := mkRedisConfig (getEnv env "REDIS_HOST" "localhost") (getEnv env "REDIS_PORT" "6379") (getEnv env "REDIS_PASSWORD" "") (getEnv env "REDIS_DB" "0") (getEnv env "REDIS_KEY_PREFIX" "musgo") (getEnv env "REDIS_CONN_TTL" "3600");
  cfg_AllEncrypted := HasPrefix (getEnv env "ENCRYPTION_KEY" "IPAddress resolution") "#All";
  cfg_QueueType := getEnv env "QUEUE_TYPE" "memory";
  cfg_QueueRedis := mkRedisConfig (getEnv env "QUEUE_REDIS_HOST" "localhost") (getEnv env "QUEUE_REDIS_PORT" "6379") (getEnv env "QUEUE_REDIS_PASSWORD" "") (getEnv env "QUEUE_REDIS_DB" "1") (getEnv env "QUEUE_REDIS_KEY_PREFIX" "musgoq") "";
  cfg_RabbitMQ := mkRabbitMQConfig (getEnv env "RABBITMQ_HOST" "localhost") (getEnv env "RABBITMQ_PORT" "5672") (getEnv env "RABBITMQ_USER" "guest") (getEnv env "RABBITMQ_PASSWORD" "guest") (getEnv env "RABBITMQ_VHOST" "/") (getEnv env "RABBITMQ_EXCHANGE" "musgo");
  cfg_CommandLevels := loadCommandLevels env;
  cfg_IdleTimeout := getEnvInt env "IDLE_TIMEOUT" 0;
  cfg_UDPPort := getEnv env "UDP_PORT" "";
  cfg_CacheType := getEnv env "CACHE_TYPE" "memory";
  cfg_CacheRedis := mkRedisConfig (getEnv env "CACHE_REDIS_HOST" "localhost") (getEnv env "CACHE_REDIS_PORT" "6379") (getEnv env "CACHE_REDIS_PASSWORD" "") (getEnv env "CACHE_REDIS_DB" "2") (getEnv env "CACHE_REDIS_KEY_PREFIX" "musgoc") "";
  cfg_RateLimitRequests := getEnvInt env "RATE_LIMIT_REQUESTS" 0;
  cfg_RateLimitWindow := getEnvInt env "RATE_LIMIT_WINDOW" 60;
  cfg_MetricsPort := getEnv env "METRICS_PORT" "";
  cfg_MetricsBindAddr := getEnv env "METRICS_BIND_ADDR" "127.0.0.1";
  cfg_HTTPPort := getEnv env "HTTP_PORT" "";
  cfg_HTTPBindAddr := getEnv env "HTTP_BIND_ADDR" "127.0.0.1";
  cfg_HTTPScriptsPath := getEnv env "HTTP_SCRIPTS_PATH" "external/https";
  cfg_JobsEnabled := bool_decide (getEnv env "JOBS_ENABLED" "1" = "1");
  cfg_DefaultMovieID := getEnv env "DEFAULT_MOVIE_ID" "faria";
  cfg_SMTPHost := getEnv env "SMTP_HOST" "";
  cfg_SMTPPort := getEnv env "SMTP_PORT" "587";
  cfg_SMTPUser := getEnv env "SMTP_USER" "";
  cfg_SMTPPass := getEnv env "SMTP_PASS" "";
  cfg_SMTPFrom := getEnv env "SMTP_FROM" ""
|}%string%Z.
End Levels.

(** ** What the level table is *)

(** Each variable is listed once. *)
Definition unique_keys (env : list string) : Prop := NoDup (omap (fun e => fst <$> split_env e) env).

Definition level_variable (subject : string) : string := "USERLEVEL_" +:+ normalized subject.

Lemma split_env_spec s k v : split_env s = Some (k, v) -> s = k +:+ String "=" v.
Proof.
  revert k v. induction s as [|c s IH]; intros k v; cbn; [done|]. case_decide as Hc; [by intros [= <- <-]; subst|].
  destruct (split_env s) as [[k' v']|]; [|done]. intros [= <- <-]. by rewrite (IH k' v').
Qed.

Lemma HasPrefix_key p k v :
  HasPrefix (k +:+ String "=" v) p = true -> ("="%char ∉ String.list_ascii_of_string p) -> exists x, k = p +:+ x.
Proof.
  intros [r E]%HasPrefix_spec. revert k E. induction p as [|c p IH]; intros k E Hn; [by exists k|].
  destruct k as [|d k]; injection E as E1 E2; subst; [exfalso; apply Hn; left|].
  destruct (IH k E2) as [x ->]; [|by exists x]. intros Hin. apply Hn. by right.
Qed.

Lemma fold_insert_lookup (f : string -> string) l (m : gmap string string) x :
  (forall s, s ∈ l -> f s <> x) -> fold_left (fun m s => <[f s := s]> m) l m !! x = m !! x.
Proof.
  revert m. induction l as [|s l IH]; intros m Hl; [done|]. cbn. rewrite IH by (intros; apply Hl; by right).
  apply lookup_insert_ne, Hl. left.
Qed.

Lemma fold_insert_found (f : string -> string) l (m : gmap string string) s :
  s ∈ l -> (forall t, t ∈ l -> f t = f s -> t = s) -> fold_left (fun m s => <[f s := s]> m) l m !! f s = Some s.
Proof.
  revert m. induction l as [|t l IH]; intros m Hs Hinj; [by apply not_elem_of_nil in Hs|]. cbn.
  destruct (decide (s ∈ l)) as [Hin|Hnin]; [apply IH; [done|]; intros; apply Hinj; [by right|done]|].
  apply elem_of_cons in Hs as [->|Hs]; [|by destruct (Hnin Hs)]. rewrite fold_insert_lookup; [by rewrite lookup_insert_eq|].
  intros u Hu E. apply Hnin. by rewrite <- (Hinj u) by (done || by right).
Qed.

(** Different commands have different variables. *)
Lemma normalized_inj s t : s ∈ default_levels.*1 -> t ∈ default_levels.*1 -> normalized s = normalized t -> s = t.
Proof.
  intros Hs Ht Heq. assert (NoDup (normalized <$> default_levels.*1)) as Hnd
    by (apply (bool_decide_unpack _); vm_compute; exact I).
  apply list_elem_of_lookup in Hs as [i Hi]. apply list_elem_of_lookup in Ht as [j Hj].
  assert (i = j) as ->; [|congruence].
  apply (NoDup_lookup _ _ _ (normalized s) Hnd); rewrite list_lookup_fmap; [by rewrite Hi|rewrite Hj; cbn; by rewrite Heq].
Qed.

Lemma default_subjects s : s ∈ dom defaultCommandLevels <-> s ∈ default_levels.*1.
Proof. unfold defaultCommandLevels. by rewrite dom_list_to_map, elem_of_list_to_set. Qed.

Section LevelTable.
Context `{MapOrder}.

Lemma reverse_lookup_spec x s : reverse_lookup !! x = Some s <-> s ∈ default_levels.*1 /\ normalized s = x.
Proof.
  assert (forall t, t ∈ range (dom defaultCommandLevels) <-> t ∈ default_levels.*1) as Hr.
  { intros t. rewrite range_perm, elem_of_elements. apply default_subjects. }
  assert (forall t, t ∈ default_levels.*1 -> reverse_lookup !! normalized t = Some t) as Hf.
  { intros t Ht. apply fold_insert_found; [by apply Hr|]. intros u Hu%Hr E. by apply normalized_inj. }
  split; [|intros [Hs <-]; by apply Hf]. intros Hx.
  destruct (decide (x ∈ normalized <$> default_levels.*1)) as [Hin|Hnin].
  - apply list_elem_of_fmap in Hin as (t & -> & Ht). rewrite Hf in Hx by done. by simplify_eq.
  - unfold reverse_lookup in Hx. rewrite fold_insert_lookup in Hx; [by rewrite lookup_empty in Hx|].
    intros t Ht%Hr <-. apply Hnin. apply list_elem_of_fmap. eauto.
Qed.

(** An entry changes the level of the command it is named after. *)
Lemma override_lookup levels e s :
  s ∈ default_levels.*1 ->
  override levels e !! s =
  match split_env e with
  | Some (k, v) => if decide (k = level_variable s) then match Atoi v with inr n => Some n | inl _ => levels !! s end else levels !! s
  | None => levels !! s
  end.
Proof.
  intros Hs. unfold override, level_variable. destruct (split_env e) as [[k v]|] eqn:E; [|by destruct (HasPrefix e _)].
  pose proof (split_env_spec _ _ _ E) as Hk. destruct (HasPrefix e "USERLEVEL_") eqn:Hp.
  - rewrite Hk in Hp. destruct (HasPrefix_key _ _ _ Hp) as [x ->]; [by vm_compute; set_solver|]. rewrite TrimPrefix_app.
    destruct (reverse_lookup !! x) as [t|] eqn:Hx.
    + apply reverse_lookup_spec in Hx as [Ht <-]. case_decide as Hd.
      * apply string_app_inj_l, normalized_inj in Hd as <-; [|done..]. destruct (Atoi v); [done|]. by rewrite lookup_insert_eq.
      * destruct (Atoi v); [done|]. apply lookup_insert_ne. intros ->. by apply Hd.
    + case_decide as Hd; [|done]. apply string_app_inj_l in Hd as ->.
      rewrite (proj2 (reverse_lookup_spec (normalized s) s)) in Hx by done. done.
  - case_decide as Hd; [|done]. exfalso. subst k.
    assert (HasPrefix e "USERLEVEL_" = true); [|congruence]. apply HasPrefix_spec.
    exists (normalized s +:+ String "=" v). by rewrite Hk.
Qed.

Lemma lookup_env_absent env k : k ∉ omap (fun e => fst <$> split_env e) env -> LookupEnv env k = None.
Proof.
  induction env as [|e env IH]; intros Hk; [done|]. cbn in Hk |- *. destruct (split_env e) as [[k' v]|]; cbn in Hk; [|by apply IH].
  apply not_elem_of_cons in Hk as [Hne Hk]. rewrite decide_False by done. by apply IH.
Qed.

Lemma overrides_lookup env levels s :
  unique_keys env -> s ∈ default_levels.*1 ->
  fold_left override env levels !! s =
  match LookupEnv env (level_variable s) with
  | Some v => match Atoi v with inr n => Some n | inl _ => levels !! s end
  | None => levels !! s
  end.
Proof.
  intros Hu Hs. revert levels. induction env as [|e env IH]; intros levels; [done|]. unfold unique_keys in Hu. cbn in Hu |- *.
  assert (unique_keys env /\ forall k v, split_env e = Some (k, v) -> LookupEnv env k = None) as [Hu' Hk].
  { destruct (split_env e) as [[k v]|]; cbn in Hu; [|done]. apply NoDup_cons in Hu as [Hn Hu]. split; [done|].
    intros k' v' [= <- <-]. by apply lookup_env_absent. }
  rewrite IH by done. rewrite override_lookup by done. destruct (split_env e) as [[k v]|] eqn:E; [|done].
  case_decide as Hd; [|done]. subst k. by rewrite (Hk _ _ eq_refl).
Qed.

Lemma override_other levels e s : s ∉ default_levels.*1 -> override levels e !! s = levels !! s.
Proof.
  intros Hs. unfold override. destruct (HasPrefix e _); [|done]. destruct (split_env e) as [[k v]|]; [|done].
  destruct (reverse_lookup !! _) as [t|] eqn:Ht; [|done]. apply reverse_lookup_spec in Ht as [Ht _].
  destruct (Atoi v); [done|]. apply lookup_insert_ne. congruence.
Qed.

(** The level table of the server: whatever the environment holds and in
    whatever order Go walks its maps, exactly the commands of the default table
    have a level, and it is the integer of the variable named after the command
    (dots as underscores, in capitals), or the default when there is no such
    variable or it is not an integer. *)
Lemma command_levels env subject :
  unique_keys env ->
  cfg_CommandLevels (LoadServerConfig env) !! subject =
  getEnvInt env (level_variable subject) <$> (defaultCommandLevels !! subject).
Proof.
  intros Hu. unfold LoadServerConfig, cfg_CommandLevels, loadCommandLevels, getEnvInt.
  destruct (defaultCommandLevels !! subject) as [d|] eqn:Hd.
  - assert (subject ∈ default_levels.*1) as Hs by (apply default_subjects, elem_of_dom; eauto).
    rewrite overrides_lookup, Hd by done. cbn [fmap option_fmap option_map]. destruct (LookupEnv env _) as [v|]; [|done]. by destruct (Atoi v).
  - assert (subject ∉ default_levels.*1) as Hs by (intros [x Hx]%default_subjects%elem_of_dom; congruence). clear Hu.
    transitivity (defaultCommandLevels !! subject); [|done].
    generalize defaultCommandLevels as lv. induction env as [|e env IH]; intros lv; [done|]. cbn.
    rewrite IH. by apply override_other.
Qed.

(** ** The configured server *)

Lemma privileged_defaults subject : subject ∈ privileged -> is_Some (defaultCommandLevels !! subject).
Proof.
  intros Hin. assert (Forall (fun s => is_Some (defaultCommandLevels !! s)) privileged) as Hall
    by (apply (bool_decide_unpack _); vm_compute; exact I).
  by eapply Forall_forall in Hall.
Qed.

Section AnyPorts.
Context {W : Type} (h : forall X, port X -> W -> X * W).

(** In a server configured from the environment, each guarded command has
    the level of its variable (or its default), and from a sender below it the
    command reads that level, answers "invalid server command" and does nothing
    else. *)
Theorem configured_level_enforced env s senderID msg w :
  unique_keys env ->
  svc_authz s = mkAuthorizer (cfg_CommandLevels (LoadServerConfig env)) ->
  hs_Value (Subject msg) ∈ privileged ->
  exists d, defaultCommandLevels !! hs_Value (Subject msg) = Some d /\
    forall l w', run h (UserLevel senderID) w = (Ret l, w') ->
      l < getEnvInt env (level_variable (hs_Value (Subject msg))) d ->
      run h (Handle s senderID msg) w = run h (refuse senderID msg ErrInvalidServerCommand) w'.
Proof.
  intros Hu Ha Hin. destruct (privileged_defaults _ Hin) as [d Hd]. exists d. split; [done|]. intros l w' Hl Hlt.
  assert (run h (CanRun (svc_authz s) senderID (hs_Value (Subject msg))) w = (Ret false, w')) as Hc.
  { unfold CanRun. rewrite Ha. cbn [commandLevels]. rewrite command_levels, Hd by done. cbn [fmap option_fmap option_map].
    rewrite run_mbind, Hl, run_then_Ret, run_ret. by rewrite (proj2 (Z.leb_gt _ _)). }
  destruct (privileged_listed _ Hin) as [f Hf]. unfold Handle. rewrite Hf.
  destruct (privileged_guarded _ _ (find_handler_in _ _ Hf) Hin s senderID msg) as [q ->].
  rewrite denied_cut by (by rewrite Hc). by rewrite run_mbind, Hc, run_then_Ret.
Qed.
End AnyPorts.
End LevelTable.

(** The same service with another table of levels. *)
Definition with_levels (s : SystemService) (levels : gmap string Z) : SystemService :=
  mkSystemService (svc_logon s) (mkAuthorizer levels) (svc_movieManager s) (svc_groupManager s) (svc_connWriter s)
    (svc_emailSender s) (svc_timerManager s).

(** The levels of the commands that are not guarded are never consulted:
    for every service, sender and message, such a command does the same whatever
    the table says, although the default table gives eighteen of them a level and
    .env.example offers to change it. *)
Theorem configured_level_ignored s levels senderID msg :
  hs_Value (Subject msg) ∉ privileged ->
  Handle (with_levels s levels) senderID msg = Handle s senderID msg.
Proof.
  intros Hp. unfold Handle. destruct (find_handler handlers (hs_Value (Subject msg))) as [f|] eqn:Hf; [|done].
  apply find_handler_in in Hf. revert Hf Hp. generalize (hs_Value (Subject msg)) as subj. intros subj Hin Hp.
  each_handler Hin; try (exfalso; apply Hp; apply list_elem_of_In; cbn; tauto); reflexivity.
Qed.

(** ** Concrete environments *)

Definition sample_env : list string :=
  ["PATH=/bin"; "USERLEVEL_SYSTEM_USER_DELETE=90"; "USERLEVEL_DBADMIN_BAN=many"; "USERLEVEL_NOSUCH=1"]%string.

Lemma sample_env_unique : unique_keys sample_env.
Proof. apply (bool_decide_unpack _). vm_compute. exact I. Qed.

Definition configured_service : SystemService :=
  with_levels small_service (cfg_CommandLevels (LoadServerConfig sample_env)).

Lemma configured_level_enforced_witness :
  run small_step (Handle configured_service "10.0.0.2:5000" (message "system.user.delete" None)) small_world =
  run small_step (refuse "10.0.0.2:5000" (message "system.user.delete" None) ErrInvalidServerCommand)
    (run small_step (UserLevel "10.0.0.2:5000") small_world).2.
Proof.
  destruct (configured_level_enforced small_step sample_env configured_service "10.0.0.2:5000" (message "system.user.delete" None)
    small_world sample_env_unique eq_refl) as (d & Hd & H).
  - apply list_elem_of_In. cbn. tauto.
  - apply (H 0); [vm_compute; reflexivity|]. vm_compute in Hd. injection Hd as <-. vm_compute. reflexivity.
Defined.

Lemma configured_level_ignored_witness :
  Handle (with_levels small_service defaultCommandLevels) "10.0.0.2:5000" (message "system.server.getVersion" None) =
  Handle small_service "10.0.0.2:5000" (message "system.server.getVersion" None).
Proof.
  apply (configured_level_ignored small_service defaultCommandLevels "10.0.0.2:5000" (message "system.server.getVersion" None)).
  intros Hin. apply list_elem_of_In in Hin. cbn in Hin. repeat (destruct Hin as [Hin|Hin]; [discriminate|]). exact Hin.
Defined.
