(* ===== verification/Dsn.v ===== *)
(** * The connection string of PostgreSQL (config.go, [PostgresConfig.DSN])

    A configured URL is used as it is; otherwise the fields are put together by
    net/url, each part escaped after the rules of its place. [dsn_roundtrip]: a
    reader of URLs (RFC 3986: authority up to the first slash, user information up
    to the last at sign, percent decoding) gets back the user, the password, the
    host and port, the database and the SSL mode, whatever characters they hold. *)

From Stdlib Require Import ZArith Lia.
From stdpp Require Import base list strings option sets.
From S2P Require Import Prelude GoFmt Utf8 Json Config.

Open Scope Z_scope.

(** ** Escaping, as in net/url *)

Inductive encoding := encodePath | encodeHost | encodeUserPassword | encodeQueryComponent.

#[export] Instance encoding_eq_dec : EqDecision encoding.
Proof. solve_decision. Defined.

Definition one_of (s : string) (b : byte) : bool := bool_decide (b ∈ bytes_of_string s).

Definition alphanumeric (b : byte) : bool :=
  let z := Z_of_byte b in
  (97 <=? z) && (z <=? 122) || (65 <=? z) && (z <=? 90) || (48 <=? z) && (z <=? 57).

(** A quotation mark is written by its number. *)
Definition shouldEscape (b : byte) (mode : encoding) : bool :=
  if alphanumeric b then false
  else if bool_decide (mode = encodeHost) && (one_of "!$&'()*+,;=:[]<>" b || bool_decide (b = Byte.x22)) then false
  else if one_of "-_.~" b then false
  else if one_of "$&+,/:;=?@" b then
    match mode with
    | encodePath => bool_decide (b = Byte.x3f)
    | encodeUserPassword => one_of "@/?:" b
    | encodeQueryComponent | encodeHost => true
    end
  else true.

Definition upperhex (z : Z) : byte := byte_of_Z (if z <? 10 then 48 + z else 55 + z).

Definition escape_one (mode : encoding) (b : byte) : bytes :=
  if bool_decide (mode = encodeQueryComponent) && bool_decide (b = Byte.x20) then [Byte.x2b]
  else if shouldEscape b mode then [Byte.x25; upperhex (Z_of_byte b / 16); upperhex (Z_of_byte b mod 16)]
  else [b].

Definition escape (mode : encoding) (s : string) : bytes := flat_map (escape_one mode) (bytes_of_string s).

(** [net.JoinHostPort] *)
Definition JoinHostPort (host port : string) : string :=
  if one_of host Byte.x3a then "[" +:+ host +:+ "]:" +:+ port else host +:+ ":" +:+ port.

Definition DSN_bytes (c : PostgresConfig) : bytes :=
  lit "postgres://" ++ escape encodeUserPassword (pg_User c) ++ lit ":" ++ escape encodeUserPassword (pg_Password c) ++ lit "@" ++
  escape encodeHost (JoinHostPort (pg_Host c) (pg_Port c)) ++ escape encodePath ("/" +:+ pg_DBName c) ++
  lit "?sslmode=" ++ escape encodeQueryComponent (pg_SSLMode c).

Definition DSN (c : PostgresConfig) : string :=
  if decide (pg_URL c = ""%string) then string_of_bytes (DSN_bytes c) else pg_URL c.

(** ** A reader of URLs *)

Definition hex_of (b : byte) : Z :=
  let z := Z_of_byte b in if z <=? 57 then z - 48 else if z <=? 70 then z - 55 else z - 87.

(** Percent decoding; in a query a plus sign is a blank. *)
Fixpoint unescape (query : bool) (l : bytes) : bytes :=
  match l with
  | [] => []
  | b :: l1 =>
      if decide (b = Byte.x25) then
        match l1 with
        | x :: y :: l2 => byte_of_Z (hex_of x * 16 + hex_of y) :: unescape query l2
        | _ => [b]
        end
      else (if query && bool_decide (b = Byte.x2b) then Byte.x20 else b) :: unescape query l1
  end.

(** Around the first occurrence of a byte. *)
Fixpoint cut_at (d : byte) (l : bytes) : option (bytes * bytes) :=
  match l with
  | [] => None
  | b :: l => if decide (b = d) then Some ([], l) else (fun r => (b :: r.1, r.2)) <$> cut_at d l
  end.

(** Around the last occurrence. *)
Definition cut_last (d : byte) (l : bytes) : option (bytes * bytes) :=
  (fun r => (rev r.2, rev r.1)) <$> cut_at d (rev l).

Fixpoint drop_prefix (p l : bytes) : option bytes :=
  match p, l with
  | [], _ => Some l
  | x :: p, y :: l => if decide (x = y) then drop_prefix p l else None
  | _, _ => None
  end.

Record url_parts := mkUrlParts {
  up_user : bytes; up_password : bytes; up_host : bytes; up_path : bytes; up_sslmode : bytes
}.

Definition read_url (l : bytes) : option url_parts :=
  rest ← drop_prefix (lit "postgres://") l;
  a ← cut_at Byte.x2f rest;
  h ← cut_last Byte.x40 a.1;
  u ← cut_at Byte.x3a h.1;
  p ← cut_at Byte.x3f a.2;
  q ← drop_prefix (lit "sslmode=") p.2;
  Some (mkUrlParts (unescape false u.1) (unescape false u.2) (unescape false h.2) (unescape false p.1) (unescape true q)).

(** ** Escaping is undone by decoding, and hides the delimiters *)

Definition is_query (mode : encoding) : bool := bool_decide (mode = encodeQueryComponent).

Lemma unescape_one mode b l : unescape (is_query mode) (escape_one mode b ++ l) = b :: unescape (is_query mode) l.
Proof. destruct mode; destruct b; reflexivity. Qed.

Lemma unescape_escape mode s : unescape (is_query mode) (escape mode s) = bytes_of_string s.
Proof.
  unfold escape. induction (bytes_of_string s) as [|b l IH]; [done|]. cbn [flat_map]. by rewrite unescape_one, IH.
Qed.

(** What never appears in an escaped part. *)
Definition hidden (mode : encoding) : string :=
  match mode with
  | encodeUserPassword => "/?#@:"
  | encodeHost => "/?#@"
  | encodePath => "?#"
  | encodeQueryComponent => "?#&="
  end.

Lemma escape_one_hides mode b : existsb (one_of (hidden mode)) (escape_one mode b) = false.
Proof. destruct mode; destruct b; vm_compute; reflexivity. Qed.

Lemma escape_hides mode s d : one_of (hidden mode) d = true -> d ∉ escape mode s.
Proof.
  intros Hd Hin. unfold escape in Hin. apply list_elem_of_In, in_flat_map in Hin as (b & _ & Hin).
  pose proof (escape_one_hides mode b) as He.
  assert (existsb (one_of (hidden mode)) (escape_one mode b) = true) as Ht by (apply existsb_exists; eauto). congruence.
Qed.

Lemma cut_at_app d l r : d ∉ l -> cut_at d (l ++ d :: r) = Some (l, r).
Proof.
  induction l as [|b l IH]; intros Hd; cbn; [by rewrite decide_True|].
  rewrite decide_False by set_solver. rewrite IH by set_solver. done.
Qed.

Lemma cut_last_app d l r : d ∉ r -> cut_last d (l ++ d :: r) = Some (l, r).
Proof.
  intros Hd. unfold cut_last. rewrite rev_app_distr. cbn [rev]. rewrite <- app_assoc. cbn [app].
  rewrite cut_at_app; [cbn; by rewrite !rev_involutive|]. rewrite list_elem_of_In, <- in_rev, <- list_elem_of_In. done.
Qed.

Lemma drop_prefix_app p l : drop_prefix p (p ++ l) = Some l.
Proof. induction p as [|x p IH]; [done|]. cbn. by rewrite decide_True. Qed.

Lemma escape_slash db : escape encodePath ("/" +:+ db) = Byte.x2f :: escape encodePath db.
Proof. reflexivity. Qed.

(** The connection string says what was configured. Without a URL of its own,
    the string assembled from the fields reads back, as a URL, as exactly the
    configured user, password, host and port, database and SSL mode, whatever
    characters these hold; a configured URL is passed on unchanged. *)
Theorem dsn_roundtrip (c : PostgresConfig) :
  (pg_URL c <> ""%string -> DSN c = pg_URL c) /\
  (pg_URL c = ""%string ->
   read_url (bytes_of_string (DSN c)) =
   Some (mkUrlParts (bytes_of_string (pg_User c)) (bytes_of_string (pg_Password c))
           (bytes_of_string (JoinHostPort (pg_Host c) (pg_Port c))) (bytes_of_string (pg_DBName c))
           (bytes_of_string (pg_SSLMode c)))).
Proof.
  unfold DSN. split; intros Hu; [by rewrite decide_False|]. rewrite decide_True by done.
  rewrite bytes_of_string_of_bytes. unfold DSN_bytes, read_url. rewrite drop_prefix_app. cbn [mbind option_bind].
  rewrite escape_slash. set (u := escape encodeUserPassword (pg_User c)). set (w := escape encodeUserPassword (pg_Password c)).
  set (h := escape encodeHost _). set (q := escape encodeQueryComponent _).
  change (lit ":") with [Byte.x3a]. change (lit "@") with [Byte.x40].
  change (lit "?sslmode=") with (Byte.x3f :: lit "sslmode="). cbn [app].
  assert (Hauth : u ++ Byte.x3a :: w ++ Byte.x40 :: h ++ Byte.x2f :: escape encodePath (pg_DBName c) ++ Byte.x3f :: lit "sslmode=" ++ q =
    (u ++ Byte.x3a :: w ++ Byte.x40 :: h) ++ Byte.x2f :: escape encodePath (pg_DBName c) ++ Byte.x3f :: lit "sslmode=" ++ q)
    by (rewrite <- app_assoc; cbn; by rewrite <- app_assoc).
  rewrite Hauth, cut_at_app.
  2:{ assert (Byte.x2f ∉ u) by by apply escape_hides. assert (Byte.x2f ∉ w) by by apply escape_hides.
      assert (Byte.x2f ∉ h) by by apply escape_hides. rewrite !elem_of_app, !elem_of_cons, elem_of_app, elem_of_cons. naive_solver. }
  cbn [mbind option_bind fst snd].
  replace (u ++ Byte.x3a :: w ++ Byte.x40 :: h) with ((u ++ Byte.x3a :: w) ++ Byte.x40 :: h) by (by rewrite <- app_assoc).
  rewrite cut_last_app by by apply escape_hides. cbn [mbind option_bind fst snd].
  rewrite cut_at_app by by apply escape_hides. cbn [mbind option_bind fst snd].
  rewrite cut_at_app by by apply escape_hides. cbn [mbind option_bind fst snd]. rewrite drop_prefix_app. cbn [mbind option_bind].
  f_equal. f_equal; [apply (unescape_escape encodeUserPassword)|apply (unescape_escape encodeUserPassword)
    |apply (unescape_escape encodeHost)|apply (unescape_escape encodePath)|apply (unescape_escape encodeQueryComponent)].
Qed.

(** A password full of delimiters. *)
Example odd_password :
  DSN (mkPostgresConfig "" "::1" "5432" "game" "p@ss:w/d?" "musgo" "disable") =
  "postgres://game:p%40ss%3Aw%2Fd%3F@[::1]:5432/musgo?sslmode=disable"%string.
Proof. vm_compute. reflexivity. Qed.
