(* ===== verification/Logger.v ===== *)
(** * The file logger (outbound/file_logger.go)

    Callers put entries into a buffered channel without ever waiting for it (a
    full buffer loses the entry and says so on standard error); one goroutine,
    [drain], takes them out and writes them. [Flush] puts a marker into the
    channel and waits until it comes out, or gives up after five seconds. [Fatal]
    flushes, writes its line itself and ends the process.

    The logger is a transition system: any number of callers, the channel, the
    writing goroutine. [log_in_order] says what is in the file at any time. *)

From Stdlib Require Import ZArith Lia.
From stdpp Require Import base list strings gmap option sets relations.
From S2P Require Import Prelude GoFmt SessionStore.

Open Scope Z_scope.

(** ** Levels and lines (domain/ports/logger.go) *)

Inductive LogLevel := DEBUG | INFO | WARN | ERROR | FATAL.

(** The constants are numbered from 0. *)
Definition rank (l : LogLevel) : Z :=
  match l with DEBUG => 0 | INFO => 1 | WARN => 2 | ERROR => 3 | FATAL => 4 end.

Definition LogLevel_String (l : LogLevel) : string :=
  match l with DEBUG => "DEBUG" | INFO => "INFO" | WARN => "WARN" | ERROR => "ERROR" | FATAL => "FATAL" end.

Section Logger.
Context {V : Type} (show_value : V -> string) `{MapOrder}.

Record logEntry := mkEntry {
  le_level : LogLevel;
  le_msg : string;
  le_fields : gmap string V
}.

(** What the channel carries: an entry, or the marker of a [Flush] call. *)
Inductive item := IEntry (e : logEntry) | IFlush (n : nat).

Record FileLogger := mkLogger {
  fl_component : string;
  fl_level : LogLevel;
  fl_capacity : nat
}.

Context (l : FileLogger).

Definition field_text (fields : gmap string V) (key : string) : string :=
  match fields !! key with Some v => " " +:+ key +:+ "=" +:+ show_value v | None => "" end.

(** The line [write] puts into the file and on standard output. *)
Definition log_line (e : logEntry) : string :=
  let logMsg := "[" +:+ LogLevel_String (le_level e) +:+ "] [" +:+ fl_component l +:+ "] " +:+ le_msg e in
  if decide (le_fields e = ∅) then logMsg
  else foldl (fun acc key => acc +:+ field_text (le_fields e) key) (logMsg +:+ " |") (range (dom (le_fields e))).

(** ** The transition system *)

Inductive fphase :=
| FWaiting                     (* wants to send its marker *)
| FQueued                      (* waits for the marker to come out *)
| FDone (timed_out : bool).

(** A call of [Flush]; [Fatal] is one that knows what to write afterwards. *)
Record flusher := mkFlusher {
  fc_fatal : option logEntry;
  fc_before : nat;             (* how many entries had been accepted when it was called *)
  fc_phase : fphase
}.

Record LogSystem := mkLogSystem {
  lg_channel : list item;
  lg_hand : option item;       (* what [drain] has taken out; [None]: it waits at the channel *)
  lg_file : list string;
  lg_stderr : list string;
  lg_flushers : gmap nat flusher;
  lg_exited : bool;
  (* what has happened, for the theorems *)
  lg_accepted : list logEntry;
  lg_drained : list logEntry
}.

Definition initial : LogSystem := mkLogSystem [] None [] [] ∅ false [] [].

(** A send succeeds at once when the receiver waits or the buffer has room. *)
Definition sendable (s : LogSystem) : bool :=
  match lg_hand s, lg_channel s with
  | None, [] => true
  | _, _ => bool_decide (length (lg_channel s) < fl_capacity l)%nat
  end.

(** The item goes to the waiting receiver, or to the end of the buffer. *)
Definition enqueue (i : item) (s : LogSystem) : LogSystem :=
  match lg_hand s, lg_channel s with
  | None, [] => mkLogSystem [] (Some i) (lg_file s) (lg_stderr s) (lg_flushers s) (lg_exited s) (lg_accepted s) (lg_drained s)
  | _, _ => mkLogSystem (lg_channel s ++ [i]) (lg_hand s) (lg_file s) (lg_stderr s) (lg_flushers s) (lg_exited s)
              (lg_accepted s) (lg_drained s)
  end.

Definition accept (e : logEntry) (s : LogSystem) : LogSystem :=
  let s := enqueue (IEntry e) s in
  mkLogSystem (lg_channel s) (lg_hand s) (lg_file s) (lg_stderr s) (lg_flushers s) (lg_exited s) (lg_accepted s ++ [e]) (lg_drained s).

Definition dropped_text (msg : string) : string := "[DROPPED] log buffer full, message lost: " +:+ msg.

Definition to_stderr (text : string) (s : LogSystem) : LogSystem :=
  mkLogSystem (lg_channel s) (lg_hand s) (lg_file s) (lg_stderr s ++ [text]) (lg_flushers s) (lg_exited s) (lg_accepted s) (lg_drained s).

(** [send]: one call of [Debug], [Info], [Warn] or [Error]. *)
Definition send (level : LogLevel) (msg : string) (fields : gmap string V) (s : LogSystem) : LogSystem :=
  if rank level <? rank (fl_level l) then s
  else if sendable s then accept (mkEntry level msg fields) s
  else to_stderr (dropped_text msg) s.

Definition with_flusher (n : nat) (f : flusher) (s : LogSystem) : LogSystem :=
  mkLogSystem (lg_channel s) (lg_hand s) (lg_file s) (lg_stderr s) (<[n := f]> (lg_flushers s)) (lg_exited s)
    (lg_accepted s) (lg_drained s).

Definition in_fphase (f : flusher) (ph : fphase) : flusher := mkFlusher (fc_fatal f) (fc_before f) ph.

Definition write (e : logEntry) (s : LogSystem) : LogSystem :=
  mkLogSystem (lg_channel s) (lg_hand s) (lg_file s ++ [log_line e]) (lg_stderr s) (lg_flushers s) (lg_exited s)
    (lg_accepted s) (lg_drained s).

(** [drain] has dealt with what it took out. *)
Definition drained (es : list logEntry) (s : LogSystem) : LogSystem :=
  mkLogSystem (lg_channel s) None (lg_file s) (lg_stderr s) (lg_flushers s) (lg_exited s) (lg_accepted s) (lg_drained s ++ es).

Definition exit_ (s : LogSystem) : LogSystem :=
  mkLogSystem (lg_channel s) (lg_hand s) (lg_file s) (lg_stderr s) (lg_flushers s) true (lg_accepted s) (lg_drained s).

(** The line of [Fatal], if its level is enabled, and the end. *)
Definition die (e : logEntry) (s : LogSystem) : LogSystem :=
  exit_ (if rank (fl_level l) <=? rank FATAL then write e s else s).

Definition flush_timeout : string := "[WARN] flush timeout, some logs may be lost".

Inductive log_step : LogSystem -> LogSystem -> Prop :=
| SSend level msg fields s :
    lg_exited s = false -> level <> FATAL -> log_step s (send level msg fields s)
| SReceive i rest s :
    lg_exited s = false -> lg_hand s = None -> lg_channel s = i :: rest ->
    log_step s (mkLogSystem rest (Some i) (lg_file s) (lg_stderr s) (lg_flushers s) false (lg_accepted s) (lg_drained s))
| SWrite e s :
    lg_exited s = false -> lg_hand s = Some (IEntry e) -> log_step s (drained [e] (write e s))
| SMarker n f s :
    lg_exited s = false -> lg_hand s = Some (IFlush n) -> lg_flushers s !! n = Some f ->
    log_step s (drained [] (with_flusher n (in_fphase f (FDone false)) s))
| SFlush n fatal s :
    lg_exited s = false -> lg_flushers s !! n = None -> (forall e, fatal = Some e -> le_level e = FATAL) ->
    log_step s (with_flusher n (mkFlusher fatal (length (lg_accepted s)) FWaiting) s)
| SEnqueue n f s :
    lg_exited s = false -> lg_flushers s !! n = Some f -> fc_phase f = FWaiting -> sendable s = true ->
    log_step s (enqueue (IFlush n) (with_flusher n (in_fphase f FQueued) s))
| STimeout n f s :
    lg_exited s = false -> lg_flushers s !! n = Some f -> fc_phase f = FWaiting ->
    log_step s (to_stderr flush_timeout (with_flusher n (in_fphase f (FDone true)) s))
| SDie n f e t s :
    lg_exited s = false -> lg_flushers s !! n = Some f -> fc_phase f = FDone t -> fc_fatal f = Some e ->
    log_step s (die e s).

(** ** Invariants *)

Definition pipeline (s : LogSystem) : list item := option_list (lg_hand s) ++ lg_channel s.

Definition entry_of (i : item) : option logEntry := match i with IEntry e => Some e | IFlush _ => None end.
Abbreviation entries_of := (omap entry_of).

Lemma pipeline_enqueue i s : pipeline (enqueue i s) = pipeline s ++ [i].
Proof. unfold pipeline, enqueue. destruct (lg_hand s), (lg_channel s); cbn; by rewrite <- ?app_assoc. Qed.

Definition flush_marked (s : LogSystem) : Prop := forall n pre post,
  pipeline s = pre ++ IFlush n :: post ->
  exists f, lg_flushers s !! n = Some f /\ (fc_before f <= length (lg_drained s) + length (entries_of pre))%nat.

Definition flush_sound (s : LogSystem) : Prop := forall n f, lg_flushers s !! n = Some f ->
  (fc_before f <= length (lg_accepted s))%nat /\ (forall e, fc_fatal f = Some e -> le_level e = FATAL) /\
  (fc_phase f = FDone false -> (fc_before f <= length (lg_drained s))%nat).

Definition file_written (s : LogSystem) : Prop :=
  if lg_exited s then
    exists n f e t, lg_flushers s !! n = Some f /\ fc_phase f = FDone t /\ fc_fatal f = Some e /\
      lg_file s = (log_line <$> lg_drained s) ++ [log_line e]
  else lg_file s = log_line <$> lg_drained s.

Definition log_inv (s : LogSystem) : Prop :=
  lg_drained s ++ entries_of (pipeline s) = lg_accepted s /\
  (length (lg_channel s) <= fl_capacity l)%nat /\
  Forall (fun e => rank (fl_level l) <= rank (le_level e)) (lg_accepted s) /\
  flush_marked s /\ flush_sound s /\ file_written s.

Lemma inv_initial : log_inv initial.
Proof.
  split; [done|]. split; [cbn; lia|]. split; [constructor|]. split; [|split; [|done]].
  - intros n pre post E. by destruct pre.
  - intros n f E. by apply (lookup_empty_Some n f) in E.
Qed.

(** *** Accepting an entry or a marker *)

Lemma enqueue_capacity i s :
  sendable s = true -> (length (lg_channel s) <= fl_capacity l)%nat -> (length (lg_channel (enqueue i s)) <= fl_capacity l)%nat.
Proof.
  unfold sendable, enqueue. destruct (lg_hand s), (lg_channel s) as [|j ch]; cbn; intros Hs Hc; try lia;
    apply bool_decide_eq_true in Hs; rewrite ?length_app; cbn in *; lia.
Qed.

Lemma enqueue_rest i s :
  lg_file (enqueue i s) = lg_file s /\ lg_flushers (enqueue i s) = lg_flushers s /\ lg_exited (enqueue i s) = lg_exited s /\
  lg_accepted (enqueue i s) = lg_accepted s /\ lg_drained (enqueue i s) = lg_drained s.
Proof. unfold enqueue. by destruct (lg_hand s), (lg_channel s). Qed.

Lemma snoc_split {A} (xs pre post : list A) x y :
  xs ++ [x] = pre ++ y :: post -> (post = [] /\ pre = xs /\ x = y) \/ exists post', post = post' ++ [x] /\ xs = pre ++ y :: post'.
Proof.
  intros E. destruct post as [|z post _] using rev_ind.
  - left. by apply app_inj_tail in E as [-> ->].
  - right. exists post. rewrite app_comm_cons, app_assoc in E. by apply app_inj_tail in E as [-> ->].
Qed.

Lemma accept_inv e s :
  lg_exited s = false -> sendable s = true -> rank (fl_level l) <= rank (le_level e) -> log_inv s -> log_inv (accept e s).
Proof.
  intros He Hs Hl (I1 & I2 & I3 & I4 & I5 & I6). destruct (enqueue_rest (IEntry e) s) as (R1 & R2 & R3 & R4 & R5).
  assert (pipeline (accept e s) = pipeline s ++ [IEntry e]) as Hp by apply pipeline_enqueue.
  unfold log_inv, flush_marked, flush_sound, file_written. rewrite Hp. cbn [accept lg_channel lg_file lg_flushers lg_exited lg_accepted lg_drained].
  rewrite R1, R2, R3, R4, R5, omap_app. split_and!.
  - rewrite app_assoc, I1. done.
  - by apply enqueue_capacity.
  - apply Forall_app. split; [done|]. by constructor.
  - intros n pre post E. apply snoc_split in E as [(_ & _ & E)|(post' & _ & E)]; [done|]. by apply (I4 n pre post').
  - intros n f Hf. destruct (I5 n f Hf) as (B1 & B2 & B3). rewrite length_app. split_and!; [lia|done|done].
  - exact I6.
Qed.

Lemma to_stderr_inv text s : log_inv s -> log_inv (to_stderr text s).
Proof. intros (I1 & I2 & I3 & I4 & I5 & I6). by repeat (split; [done|]). Qed.

(** A flusher moves on; it keeps what it has to wait for. *)
Lemma flusher_inv n f s :
  lg_exited s = false -> log_inv s ->
  (forall g, lg_flushers s !! n = Some g -> fc_before f = fc_before g) ->
  (fc_before f <= length (lg_accepted s))%nat -> (forall e, fc_fatal f = Some e -> le_level e = FATAL) ->
  (fc_phase f = FDone false -> (fc_before f <= length (lg_drained s))%nat) ->
  log_inv (with_flusher n f s).
Proof.
  intros He (I1 & I2 & I3 & I4 & I5 & I6) Hb B1 B2 B3. split; [done|]. split; [done|]. split; [done|]. split; [|split].
  - intros m pre post E. destruct (I4 m pre post E) as (g & Hg & Hle). cbn [with_flusher lg_flushers lg_drained].
    destruct (decide (n = m)) as [->|Hne]; [|rewrite lookup_insert_ne by done; eauto].
    exists f. rewrite lookup_insert_eq. split; [done|]. by rewrite (Hb g Hg).
  - intros m g. cbn [with_flusher lg_flushers lg_drained lg_accepted]. destruct (decide (n = m)) as [->|Hne].
    + rewrite lookup_insert_eq. by intros [= <-].
    + rewrite lookup_insert_ne by done. apply I5.
  - unfold file_written in *. cbn [with_flusher lg_exited lg_file lg_drained]. rewrite He in *. exact I6.
Qed.

Lemma marker_inv n s :
  lg_exited s = false -> sendable s = true -> (exists f, lg_flushers s !! n = Some f) -> log_inv s ->
  log_inv (enqueue (IFlush n) s).
Proof.
  intros He Hs (f & Hf) (I1 & I2 & I3 & I4 & I5 & I6). destruct (enqueue_rest (IFlush n) s) as (R1 & R2 & R3 & R4 & R5).
  unfold log_inv, flush_marked, flush_sound, file_written. rewrite pipeline_enqueue, R1, R2, R3, R4, R5, omap_app, app_nil_r.
  split; [done|]. split; [by apply enqueue_capacity|]. split; [done|]. split; [|by split].
  intros m pre post E. apply snoc_split in E as [(-> & -> & [= ->])|(post' & _ & E)]; [|by apply (I4 m pre post')].
  exists f. split; [done|]. rewrite <- length_app, I1. apply (I5 m f Hf).
Qed.

(** *** The writing goroutine *)

Lemma receive_inv i rest s :
  lg_hand s = None -> lg_channel s = i :: rest -> lg_exited s = false -> log_inv s ->
  log_inv (mkLogSystem rest (Some i) (lg_file s) (lg_stderr s) (lg_flushers s) false (lg_accepted s) (lg_drained s)).
Proof.
  intros Hh Hc He (I1 & I2 & I3 & I4 & I5 & I6). unfold log_inv, flush_marked, file_written, pipeline in *.
  rewrite Hh, Hc, He in *. cbn in I2 |- *. split; [done|]. split; [lia|]. by split.
Qed.

Lemma write_inv e s :
  lg_exited s = false -> lg_hand s = Some (IEntry e) -> log_inv s -> log_inv (drained [e] (write e s)).
Proof.
  intros He Hh (I1 & I2 & I3 & I4 & I5 & I6). unfold log_inv, flush_marked, flush_sound, file_written, pipeline in *.
  rewrite Hh, ?He in *. cbn [drained write option_list lg_hand lg_channel lg_file lg_flushers lg_exited lg_accepted lg_drained app] in *.
  rewrite He. split; [|split; [done|split; [done|split; [|split]]]].
  - rewrite <- app_assoc. exact I1.
  - intros n pre post E. destruct (I4 n (IEntry e :: pre) post) as (f & Hf & Hle); [cbn in E |- *; by rewrite E|].
    exists f. split; [done|]. rewrite length_app. cbn in Hle |- *. lia.
  - intros n f Hf. destruct (I5 n f Hf) as (B1 & B2 & B3). split_and!; [done..|]. rewrite length_app. intros Hp. specialize (B3 Hp). lia.
  - by rewrite I6, fmap_app.
Qed.

Lemma closed_inv n f s :
  lg_exited s = false -> lg_hand s = Some (IFlush n) -> lg_flushers s !! n = Some f -> log_inv s ->
  log_inv (drained [] (with_flusher n (in_fphase f (FDone false)) s)).
Proof.
  intros He Hh Hf I. assert (I' := I). destruct I' as (I1 & I2 & I3 & I4 & I5 & I6).
  destruct (I4 n [] (lg_channel s)) as (g & Hg & Hle); [unfold pipeline; by rewrite Hh|].
  rewrite Hf in Hg. injection Hg as <-. cbn in Hle. destruct (I5 n f Hf) as (B1 & B2 & _).
  assert (log_inv (with_flusher n (in_fphase f (FDone false)) s)) as J.
  { apply flusher_inv; try done; [|cbn; lia]. intros g. rewrite Hf. by intros [= <-]. }
  destruct J as (J1 & J2 & J3 & J4 & J5 & J6). unfold log_inv, flush_marked, flush_sound, file_written, pipeline in *.
  cbn [drained with_flusher lg_hand lg_channel lg_file lg_flushers lg_exited lg_accepted lg_drained option_list] in *.
  rewrite Hh, He, ?app_nil_r in *. cbn [option_list app] in *. split; [exact J1|]. split; [done|]. split; [done|]. split; [|by split].
  intros m pre post E. destruct (J4 m (IFlush n :: pre) post) as (g & Hg & Hle'); [cbn in E |- *; by rewrite E|]. by exists g.
Qed.

Lemma die_inv n f e t s :
  lg_exited s = false -> lg_flushers s !! n = Some f -> fc_phase f = FDone t -> fc_fatal f = Some e ->
  log_inv s -> log_inv (die e s).
Proof.
  intros He Hf Hp Hfat (I1 & I2 & I3 & I4 & I5 & I6). unfold die.
  assert (rank (fl_level l) <=? rank FATAL = true) as -> by (destruct (fl_level l); done).
  split; [done|]. split; [done|]. split; [done|]. split; [done|]. split; [done|].
  unfold file_written in *. rewrite He in I6. cbn. exists n, f, e, t. by rewrite I6.
Qed.

Lemma step_inv s s' : log_step s s' -> log_inv s -> log_inv s'.
Proof.
  destruct 1 as [level msg fields s He _|i rest s He Hh Hc|e s He Hh|n f s He Hh Hf|n fatal s He Hf Hfat|n f s He Hf Hp Hs|n f s He Hf Hp|n f e t s He Hf Hp Hfat];
    intros I.
  - unfold send. destruct (Z.ltb_spec (rank level) (rank (fl_level l))); [done|].
    destruct (sendable s) eqn:Hs; [by apply accept_inv|by apply to_stderr_inv].
  - by apply receive_inv.
  - by apply write_inv.
  - by apply closed_inv.
  - apply flusher_inv; try done. intros g. by rewrite Hf.
  - destruct I as (I1 & I2 & I3 & I4 & I5 & I6). destruct (I5 n f Hf) as (B1 & B2 & _).
    apply marker_inv; [done|done|cbn; rewrite lookup_insert_eq; eauto|]. apply flusher_inv; try done.
    intros g. rewrite Hf. by intros [= <-].
  - apply to_stderr_inv. destruct I as (I1 & I2 & I3 & I4 & I5 & I6). destruct (I5 n f Hf) as (B1 & B2 & _).
    apply flusher_inv; try done. intros g. rewrite Hf. by intros [= <-].
  - by eapply die_inv.
Qed.

Lemma log_reachable s : rtc log_step initial s -> log_inv s.
Proof.
  intros Hr. enough (forall a b, rtc log_step a b -> log_inv a -> log_inv b) as H1 by exact (H1 _ _ Hr inv_initial).
  induction 1 as [|a b c Hab _ IH]; [done|]. intros Ha. by apply IH, (step_inv a).
Qed.

Lemma entries_length (il : list item) : (length (entries_of il) <= length il)%nat.
Proof. induction il as [|[e|n] il IH]; cbn in *; lia. Qed.

Lemma not_sendable s : (length (lg_channel s) <= fl_capacity l)%nat -> sendable s = false -> length (lg_channel s) = fl_capacity l.
Proof.
  unfold sendable. intros Hc. destruct (lg_hand s), (lg_channel s) as [|j ch]; try done;
    intros Hs; apply bool_decide_eq_false in Hs; cbn in *; lia.
Qed.

(** The log is in order and complete. At any time, whatever callers and the
    writing goroutine do: the file holds the lines of a prefix of the entries
    accepted so far, in the order in which they were accepted, all of an enabled
    level, and is at most the buffer and one entry behind; only [Fatal] adds a
    line of its own, as the last one. A [Flush] that returned without a timeout
    leaves everything accepted before it in the file. An entry of an enabled
    level is accepted unless the buffer is full, and then standard error says
    that it was lost. *)
Theorem log_in_order s :
  rtc log_step initial s ->
  (exists waiting, lg_accepted s = lg_drained s ++ waiting /\ (length waiting <= S (fl_capacity l))%nat) /\
  Forall (fun e => rank (fl_level l) <= rank (le_level e)) (lg_accepted s) /\
  lg_file s = (log_line <$> lg_drained s) ++ skipn (length (lg_drained s)) (lg_file s) /\
  (if lg_exited s then exists e, le_level e = FATAL /\ skipn (length (lg_drained s)) (lg_file s) = [log_line e]
   else skipn (length (lg_drained s)) (lg_file s) = []) /\
  (forall n f, lg_flushers s !! n = Some f -> fc_phase f = FDone false ->
     take (fc_before f) (lg_accepted s) `prefix_of` lg_drained s) /\
  (forall level msg fields, rank (fl_level l) <= rank level ->
     send level msg fields s = accept (mkEntry level msg fields) s \/
     length (lg_channel s) = fl_capacity l /\ send level msg fields s = to_stderr (dropped_text msg) s).
Proof.
  intros Hr. destruct (log_reachable s Hr) as (I1 & I2 & I3 & I4 & I5 & I6).
  assert (Hfile : lg_file s = (log_line <$> lg_drained s) ++ skipn (length (lg_drained s)) (lg_file s) /\
    if lg_exited s then exists e, le_level e = FATAL /\ skipn (length (lg_drained s)) (lg_file s) = [log_line e]
    else skipn (length (lg_drained s)) (lg_file s) = []).
  { assert (skipn (length (lg_drained s)) (log_line <$> lg_drained s) = []) as Hd
      by (apply drop_ge; by rewrite length_fmap).
    unfold file_written in I6. destruct (lg_exited s).
    - destruct I6 as (n & f & e & t & Hf & _ & Hfat & ->). rewrite drop_app_length' by (by rewrite length_fmap).
      split; [done|]. exists e. split; [by apply (I5 n f Hf)|done].
    - rewrite I6, Hd, app_nil_r. done. }
  destruct Hfile as [F1 F2]. split_and!; [|done..| |].
  - exists (entries_of (pipeline s)). split; [done|]. etrans; [apply entries_length|]. unfold pipeline.
    rewrite length_app. destruct (lg_hand s); cbn; lia.
  - intros n f Hf Hp. destruct (I5 n f Hf) as (_ & _ & B). specialize (B Hp). rewrite <- I1, take_app_le by lia. 
    apply prefix_take.
  - intros level msg fields Hl. unfold send. destruct (Z.ltb_spec (rank level) (rank (fl_level l))); [lia|].
    destruct (sendable s) eqn:Hs; [by left|]. right. split; [by apply not_sendable|done].
Qed.
End Logger.

(** A logger with room for one entry: two lines, a flush that waits for both, and
    an entry that is lost. *)
Definition small_logger : FileLogger := mkLogger "game" INFO 1.

Definition flushed : LogSystem (V := unit) :=
  let a := mkEntry INFO "a" ∅ in let b := mkEntry WARN "b" ∅ in
  mkLogSystem [] None ["[INFO] [game] a"; "[WARN] [game] b"]%string [dropped_text "c"]
    {[ 0%nat := mkFlusher None 2 (FDone false) ]} false [a; b] [a; b].

Lemma flushed_reached : rtc (log_step (fun _ => ""%string) small_logger) initial flushed.
Proof.
  eapply rtc_l; [apply (SSend _ _ INFO "a" ∅); done|].
  eapply rtc_l; [apply (SSend _ _ WARN "b" ∅); done|].
  eapply rtc_l; [apply (SSend _ _ ERROR "c" ∅); done|].
  eapply rtc_l; [apply (SFlush _ _ 0%nat None); done|].
  eapply rtc_l; [eapply SWrite; done|].
  eapply rtc_l; [eapply SReceive; done|].
  eapply rtc_l; [eapply (SEnqueue _ _ 0%nat); done|].
  eapply rtc_l; [eapply SWrite; done|].
  eapply rtc_l; [eapply SReceive; done|].
  eapply rtc_l; [eapply SMarker; done|].
  apply rtc_refl.
Qed.

Lemma log_in_order_witness :
  rtc (log_step (fun _ => ""%string) small_logger) initial flushed /\
  take 2 (lg_accepted flushed) `prefix_of` lg_drained flushed.
Proof.
  split; [exact flushed_reached|].
  destruct (log_in_order _ small_logger flushed flushed_reached) as (_ & _ & _ & _ & Hf & _).
  exact (Hf 0%nat _ eq_refl eq_refl).
Defined.
