(* ===== verification/Boot.v ===== *)
(** * Starting the server (cmd/gameserver/main.go, internal/factory)

    [main] reads the configuration, builds one component after the other through
    the factories, and then starts the listeners; a component that cannot be
    built ends the process. Building the components that talk to something
    outside (database, Redis, RabbitMQ, sockets) is a call here.

    [startup_order]: nothing listens before the database is open, its migrations
    have run and every configured backend is connected; boot hooks run after the
    migrations; and when the server is stopped by a signal, everything it opened
    is closed. *)

From Stdlib Require Import ZArith Lia.
From stdpp Require Import base list strings gmap option sets.
From S2P Require Import Prelude GoFmt LValue LExtract LParse LRoundtrip Smus Blowfish Effects Protocol Ports SessionStore SqlText SqlBuilder Migrations Console LuaHost Queue Config Dsn Logger.

Open Scope Z_scope.

(** What is closed or stopped again. *)
Inductive resource :=
| RDatabase | RSession | RQueue | RCache | RTimers | RLimiter | RMetrics | RHttp | RIdle | RScheduler | RUdp | RTcp.

#[export] Instance resource_eq_dec : EqDecision resource.
Proof. solve_decision. Defined.

Inductive boot_port : Type -> Type :=
| BStderr (msg : string) : boot_port unit
| OpenLogFile (logPath component : string) : boot_port (option error)
| BLog (level : log_level) (msg : string) : boot_port unit
| OpenSQLite (path : string) : boot_port (error + unit)
| OpenPostgres (dsn : string) : boot_port (error + unit)
| RunPendingMigrations : boot_port (error + MigrationResult)
| DialSession (addr password : string) (db : Z) (keyPrefix : string) (connTTL : Z) : boot_port (error + unit)
| DialQueue (addr password : string) (db : Z) (keyPrefix : string) : boot_port (error + unit)
| DialRabbit (cfg : RabbitMQConfig) : boot_port (error + unit)
| DialCache (addr password : string) (db : Z) (keyPrefix : string) : boot_port (error + unit)
| BHooks {X} (e : console_port X) : boot_port X
| Consume (topic : string) : boot_port (option error)
| StartMetrics (port bindAddr : string) : boot_port unit
| StartHTTP (port bindAddr scripts : string) : boot_port unit
| ListenTCP (addr : string) : boot_port (option error)
| ListenUDP (addr : string) : boot_port (option error)
| StartIdle (timeout : Z) : boot_port unit
| StartJobs (scripts : string) : boot_port unit
| StartConsole : boot_port unit
| AwaitSignal : boot_port unit
| Release (r : resource) : boot_port unit.

Abbreviation BM := (prog boot_port).

(** ** Factories *)

Definition ParseLogLevel (level : string) : LogLevel :=
  if decide (level = "DEBUG"%string) then DEBUG
  else if decide (level = "INFO"%string) then INFO
  else if decide (level = "WARN"%string) then WARN
  else if decide (level = "ERROR"%string) then ERROR
  else INFO.

Definition unsupported (what type : string) : error := Errorf ("unsupported " +:+ what +:+ " type: " +:+ type).

(** Panics when the file cannot be opened, and (in [make]) on a negative size. *)
Definition NewFileLogger (component : string) (level : LogLevel) (logPath : string) (bufferSize : Z) : BM FileLogger :=
  err ← call_ (OpenLogFile logPath component);
  match err with
  | Some _ => lift Panic
  | None => if bufferSize <? 0 then lift Panic else mret (mkLogger component level (Z.to_nat bufferSize))
  end.

Definition NewLogger (loggerType component : string) (level : LogLevel) (logPath : string) (bufferSize : Z) :
    BM (error + FileLogger) :=
  if decide (loggerType = "file"%string) then l ← NewFileLogger component level logPath bufferSize; mret (inr l)
  else mret (inl (unsupported "logger" loggerType)).

(** [strconv.Atoi] *)
Definition Atoi (s : string) : num_error + Z := ParseInt (bytes_of_string s).

Definition addr_of (cfg : RedisConfig) : string := redis_Host cfg +:+ ":" +:+ redis_Port cfg.

Definition NewSessionStore (storeType : string) (cfg : RedisConfig) : BM (error + unit) :=
  if decide (storeType = "memory"%string) then mret (inr tt)
  else if decide (storeType = "redis"%string) then
    match Atoi (redis_DB cfg) with
    | inl e => mret (inl (Wrapf "invalid REDIS_DB value" (NumError (bytes_of_string (redis_DB cfg)) e)))
    | inr db =>
        match Atoi (redis_ConnTTL cfg) with
        | inl e => mret (inl (Wrapf "invalid REDIS_CONN_TTL value" (NumError (bytes_of_string (redis_ConnTTL cfg)) e)))
        | inr connTTL => call_ (DialSession (addr_of cfg) (redis_Password cfg) db (redis_KeyPrefix cfg) connTTL)
        end
    end
  else mret (inl (unsupported "session store" storeType)).

Definition NewMessageQueue (queueType : string) (cfg : RedisConfig) (rabbit : RabbitMQConfig) : BM (error + unit) :=
  if decide (queueType = "memory"%string) then mret (inr tt)
  else if decide (queueType = "redis"%string) then
    match Atoi (redis_DB cfg) with
    | inl e => mret (inl (Wrapf "invalid QUEUE_REDIS_DB value" (NumError (bytes_of_string (redis_DB cfg)) e)))
    | inr db => call_ (DialQueue (addr_of cfg) (redis_Password cfg) db (redis_KeyPrefix cfg))
    end
  else if decide (queueType = "rabbitmq"%string) then call_ (DialRabbit rabbit)
  else mret (inl (unsupported "queue" queueType)).

Definition NewCache (cacheType : string) (cfg : RedisConfig) : BM (error + unit) :=
  if decide (cacheType = "memory"%string) then mret (inr tt)
  else if decide (cacheType = "redis"%string) then
    match Atoi (redis_DB cfg) with
    | inl e => mret (inl (Wrapf "invalid CACHE_REDIS_DB value" (NumError (bytes_of_string (redis_DB cfg)) e)))
    | inr db => call_ (DialCache (addr_of cfg) (redis_Password cfg) db (redis_KeyPrefix cfg))
    end
  else mret (inl (unsupported "cache" cacheType)).

Definition is_postgres (dbType : string) : bool :=
  bool_decide (dbType = "postgres"%string) || bool_decide (dbType = "postgresql"%string).

Definition NewDatabase (dbType connStr : string) : BM (error + unit) :=
  if decide (dbType = "sqlite"%string) then call_ (OpenSQLite connStr)
  else if is_postgres dbType then call_ (OpenPostgres connStr)
  else mret (inl (unsupported "database" dbType)).

Definition NewHandler (protocol : string) : error + unit :=
  if decide (protocol = "smus"%string) then inr tt else inl (Errorf ("unsupported protocol: " +:+ protocol)).

(** [None]: no engine. *)
Definition NewScriptEngine (scriptsPath : string) : option string :=
  if decide (scriptsPath = ""%string) then None else Some scriptsPath.

(** ** main *)

Inductive boot_end := Exited (code : Z) | Stopped.

Section Main.
Context (cfg : ServerConfig) (hooks : list BootHook) (topics : list string).

Definition log (level : log_level) (msg : string) : BM unit := call_ (BLog level msg).

(** [gameLogger.Fatal] exits, deferred calls do not run. *)
Definition Fatal (msg : string) : BM boot_end := _ ← log LogFatal msg; mret (Exited 1).

Definition or_fatal {A} (r : error + A) (msg : string) (k : A -> BM boot_end) : BM boot_end :=
  match r with inl _ => Fatal msg | inr a => k a end.

Fixpoint release_in_order (rs : list resource) : BM unit :=
  match rs with
  | [] => mret tt
  | r :: rs => _ ← call_ (Release r); release_in_order rs
  end.

(** The end of [main]: the servers are shut down, then the deferred calls run. *)
Definition shut_down (udp : bool) (deferred : list resource) : BM boot_end :=
  _ ← call_ AwaitSignal;
  _ ← log LogInfo "Shutting down server...";
  _ ← (if udp then call_ (Release RUdp) else mret tt);
  _ ← call_ (Release RTcp);
  _ ← release_in_order deferred;
  mret Stopped.

Definition start_udp (deferred : list resource) : BM boot_end :=
  if decide (cfg_UDPPort cfg = ""%string) then _ ← call_ StartConsole; shut_down false deferred
  else
    r ← call_ (ListenUDP (cfg_ServerIP cfg +:+ ":" +:+ cfg_UDPPort cfg));
    match r with
    | Some _ => Fatal "Failed to start UDP server"
    | None => _ ← call_ StartConsole; shut_down true deferred
    end.

Definition start_jobs (deferred : list resource) : BM boot_end :=
  if cfg_JobsEnabled cfg then _ ← call_ (StartJobs (cfg_ScriptsPath cfg)); start_udp (RScheduler :: deferred)
  else _ ← log LogInfo "Job scheduler disabled (JOBS_ENABLED != 1)"; start_udp deferred.

Definition start_tcp (deferred : list resource) : BM boot_end :=
  _ ← log LogInfo (if decide (cfg_DisconnectHook cfg = ""%string) then "Disconnect flush hook disabled (DISCONNECT_HOOK empty)"
                   else "Disconnect flush hook enabled");
  r ← call_ (ListenTCP (cfg_ServerIP cfg +:+ ":" +:+ cfg_Port cfg));
  match r with
  | Some _ => Fatal "Failed to start server"
  | None =>
      if 0 <? cfg_IdleTimeout cfg then
        _ ← call_ (StartIdle (int64 (cfg_IdleTimeout cfg * 1000000000)));
        _ ← log LogInfo "Idle checker enabled";
        start_jobs (RIdle :: deferred)
      else start_jobs deferred
  end.

Definition start_http (deferred : list resource) : BM boot_end :=
  if decide (cfg_HTTPPort cfg = ""%string) then start_tcp deferred
  else if decide (cfg_HTTPScriptsPath cfg = ""%string) then
    _ ← log LogError "HTTP server disabled: HTTP_PORT set but HTTP_SCRIPTS_PATH is empty";
    start_tcp deferred
  else
    _ ← call_ (StartHTTP (cfg_HTTPPort cfg) (cfg_HTTPBindAddr cfg) (cfg_HTTPScriptsPath cfg));
    start_tcp (RHttp :: deferred).

Definition start_metrics (deferred : list resource) : BM boot_end :=
  if decide (cfg_MetricsPort cfg = ""%string) then start_http deferred
  else _ ← call_ (StartMetrics (cfg_MetricsPort cfg) (cfg_MetricsBindAddr cfg)); start_http (RMetrics :: deferred).

Definition build_handler (deferred : list resource) : BM boot_end :=
  or_fatal (NewHandler (cfg_Protocol cfg)) "Failed to initialize protocol handler" (fun _ =>
    _ ← log LogInfo "Protocol handler initialized";
    if 0 <? cfg_RateLimitRequests cfg then
      _ ← log LogInfo "Rate limiter enabled"; start_metrics (RLimiter :: deferred)
    else start_metrics deferred).

(** Errors of [Subscribe] are dropped. *)
Fixpoint consume (l : list string) : BM unit :=
  match l with
  | [] => mret tt
  | t :: l => _ ← call_ (Consume t); consume l
  end.

Definition hook_env : BootHookEnv :=
  mkHookEnv (cfg_ScriptsPath cfg)
    (mkBuilder RootPool (if is_postgres (cfg_DatabaseType cfg) then postgresDialect else sqliteDialect)).

Definition run_game (deferred : list resource) : BM boot_end :=
  _ ← log LogInfo (match NewScriptEngine (cfg_ScriptsPath cfg) with
                   | Some _ => "Script engine initialized"
                   | None => "Script engine disabled (no scripts path configured)"
                   end);
  errs ← embed (fun X e => BHooks e) (RunBootHooks hooks hook_env);
  _ ← (match errs with [] => mret tt | _ => log LogWarn "Boot hooks failed" end);
  _ ← consume topics;
  _ ← (match topics with [] => mret tt | _ => log LogInfo "Queue consumers registered" end);
  build_handler (RTimers :: deferred).

Definition build_stores (deferred : list resource) : BM boot_end :=
  s ← NewSessionStore (cfg_SessionStoreType cfg) (cfg_Redis cfg);
  or_fatal s "Failed to initialize session store" (fun _ =>
    _ ← log LogInfo "Session store initialized";
    q ← NewMessageQueue (cfg_QueueType cfg) (cfg_QueueRedis cfg) (cfg_RabbitMQ cfg);
    or_fatal q "Failed to initialize message queue" (fun _ =>
      _ ← log LogInfo "Message queue initialized";
      c ← NewCache (cfg_CacheType cfg) (cfg_CacheRedis cfg);
      or_fatal c "Failed to initialize cache" (fun _ =>
        _ ← log LogInfo "Cache initialized";
        run_game (RCache :: RQueue :: RSession :: deferred)))).

Definition build_cipher (deferred : list resource) : BM boot_end :=
  c ← lift (NewCipher (cfg_CipherType cfg) (cfg_EncryptionKey cfg));
  match c with
  | None => Fatal "Failed to initialize cipher"
  | Some _ => _ ← log LogInfo "Cipher initialized"; build_stores deferred
  end.

Definition open_database : BM boot_end :=
  let conn := if is_postgres (cfg_DatabaseType cfg) then DSN (cfg_Postgres cfg) else cfg_DatabasePath cfg in
  d ← NewDatabase (cfg_DatabaseType cfg) conn;
  or_fatal d "Failed to initialize database" (fun _ =>
    m ← call_ RunPendingMigrations;
    match m with
    | inl _ => _ ← call_ (Release RDatabase); Fatal "Failed to run migrations"
    | inr res =>
        _ ← log LogInfo "Database initialized";
        _ ← log LogInfo (match mr_Ran res with [] => "Migrations up to date" | _ => "Migrations executed" end);
        build_cipher [RDatabase]
    end).

Definition main : BM boot_end :=
  l ← NewLogger (cfg_LoggerType cfg) (cfg_ApplicationName cfg) (ParseLogLevel (cfg_LogLevel cfg)) (cfg_LogPath cfg)
        (cfg_LogBufferSize cfg);
  match l with
  | inl _ => _ ← call_ (BStderr "Failed to initialize logger"); mret (Exited 1)
  | inr _ =>
      _ ← log LogInfo ("Starting " +:+ cfg_ApplicationName cfg +:+ "...");
      _ ← log LogInfo "Server configuration";
      open_database
  end.
End Main.

(** ** The start-up protocol *)

Record progress := mkProgress {
  opened : list resource;
  migrated : bool;
  failed : bool;
  signalled : bool
}.

Definition got {A} (r : resource) (x : error + A) : option resource :=
  match x with inr _ => Some r | inl _ => None end.

Definition bound (r : resource) (x : option error) : option resource :=
  match x with None => Some r | Some _ => None end.

(** The resource a call acquired. *)
Definition acquired {X} (e : boot_port X) : X -> option resource :=
  match e in boot_port X return X -> option resource with
  | OpenSQLite _ | OpenPostgres _ => got RDatabase
  | DialSession _ _ _ _ _ => got RSession
  | DialQueue _ _ _ _ | DialRabbit _ => got RQueue
  | DialCache _ _ _ _ => got RCache
  | ListenTCP _ => bound RTcp
  | ListenUDP _ => bound RUdp
  | StartMetrics _ _ => fun _ => Some RMetrics
  | StartHTTP _ _ _ => fun _ => Some RHttp
  | StartIdle _ => fun _ => Some RIdle
  | StartJobs _ => fun _ => Some RScheduler
  | _ => fun _ => None
  end.

(** A call the server cannot do without failed. *)
Definition fatal {X} (e : boot_port X) : X -> bool :=
  match e in boot_port X return X -> bool with
  | OpenSQLite _ | OpenPostgres _ | DialSession _ _ _ _ _ | DialQueue _ _ _ _ | DialRabbit _ | DialCache _ _ _ _ =>
      fun x => match x with inl _ => true | inr _ => false end
  | RunPendingMigrations => fun x => match x with inl _ => true | inr _ => false end
  | OpenLogFile _ _ | ListenTCP _ | ListenUDP _ => fun x => match x with Some _ => true | None => false end
  | _ => fun _ => false
  end.

Definition after {X} (e : boot_port X) (x : X) (m : progress) : progress := {|
  opened :=
    match e with
    | Release r => filter (fun r' => r' <> r) (opened m)
    | _ => match acquired e x with Some r => r :: opened m | None => opened m end
    end;
  migrated := match e with RunPendingMigrations => migrated m || negb (fatal e x) | _ => migrated m end;
  failed := failed m || fatal e x;
  signalled := match e with AwaitSignal => true | _ => signalled m end
|}.

Definition store (r : resource) : bool :=
  match r with RDatabase | RSession | RQueue | RCache => true | _ => false end.

(** Clients of the stores: they may call them as long as they run. *)
Definition server (r : resource) : bool :=
  match r with RMetrics | RHttp | RIdle | RScheduler | RUdp | RTcp => true | _ => false end.

Section StartupOrder.
Context (cfg : ServerConfig).

Definition backend (type : string) (r : resource) (m : progress) : Prop := type = "memory"%string \/ r ∈ opened m.

Definition ready (m : progress) : Prop :=
  RDatabase ∈ opened m /\ migrated m = true /\ failed m = false /\ signalled m = false /\
  backend (cfg_SessionStoreType cfg) RSession m /\ backend (cfg_QueueType cfg) RQueue m /\
  backend (cfg_CacheType cfg) RCache m.

Definition allowed {X} (e : boot_port X) (m : progress) : Prop :=
  match e with
  | BStderr _ | BLog _ _ => True
  | OpenLogFile _ _ => opened m = []
  | OpenSQLite _ | OpenPostgres _ => opened m = []
  | RunPendingMigrations => opened m = [RDatabase]
  | DialSession _ _ _ _ _ | DialQueue _ _ _ _ | DialRabbit _ | DialCache _ _ _ _ => migrated m = true
  | BHooks _ | Consume _ => ready m
  | StartMetrics _ _ | StartHTTP _ _ _ | ListenTCP _ => ready m
  | ListenUDP _ | StartIdle _ | StartJobs _ => ready m /\ RTcp ∈ opened m
  | StartConsole | AwaitSignal => ready m /\ RTcp ∈ opened m /\ (cfg_UDPPort cfg = ""%string \/ RUdp ∈ opened m)
  | Release r =>
      (signalled m = true \/ failed m = true) /\ (store r = true -> forall s, s ∈ opened m -> server s = false)
  end.

Definition number (s : string) : Prop := exists n, Atoi s = inr n.

Definition session_ok : Prop :=
  cfg_SessionStoreType cfg = "memory"%string \/
  cfg_SessionStoreType cfg = "redis"%string /\ number (redis_DB (cfg_Redis cfg)) /\ number (redis_ConnTTL (cfg_Redis cfg)).

Definition queue_ok : Prop :=
  cfg_QueueType cfg = "memory"%string \/ cfg_QueueType cfg = "rabbitmq"%string \/
  cfg_QueueType cfg = "redis"%string /\ number (redis_DB (cfg_QueueRedis cfg)).

Definition cache_ok : Prop :=
  cfg_CacheType cfg = "memory"%string \/ cfg_CacheType cfg = "redis"%string /\ number (redis_DB (cfg_CacheRedis cfg)).

(** The configurations the factories accept. *)
Definition supported : Prop :=
  cfg_LoggerType cfg = "file"%string /\
  (cfg_DatabaseType cfg = "sqlite"%string \/ is_postgres (cfg_DatabaseType cfg) = true) /\
  cfg_CipherType cfg = "blowfish"%string /\
  session_ok /\ queue_ok /\ cache_ok /\
  cfg_Protocol cfg = "smus"%string.

Definition ended (o : outcome boot_end) (m : progress) : Prop :=
  match o with
  | Ret Stopped => supported /\ failed m = false /\ signalled m = true /\ opened m = []
  | Ret (Exited code) => code = 1 /\ signalled m = false /\ (failed m = true \/ ~ supported)
  | Panic => opened m = [] /\ (failed m = true \/ cfg_LogBufferSize cfg < 0)
  | OutOfFuel => False
  end.

Abbreviation follows := (obeys (@allowed) (@after)).

Lemma Fatal_follows m msg : signalled m = false -> failed m = true \/ ~ supported -> follows ended m (Fatal msg).
Proof.
  intros Hs Hf. unfold Fatal, log. apply obeys_call; [done|]. intros []. cbn. split; [done|]. split; [done|].
  by rewrite orb_false_r.
Qed.

(** *** Shutting down *)

Fixpoint ordered (rs : list resource) : Prop :=
  match rs with
  | [] => True
  | r :: rs => (store r = true -> forall s, s ∈ rs -> server s = false) /\ ordered rs
  end.

Lemma release_follows final rs m :
  signalled m = true -> opened m ⊆ rs -> ordered rs ->
  (forall m', opened m' = [] -> failed m' = failed m -> signalled m' = true -> final (Ret tt) m') ->
  follows final m (release_in_order rs).
Proof.
  revert m. induction rs as [|r rs IH]; intros m Hs Ho Hord Hk; cbn [release_in_order].
  - apply Hk; [|done..]. by apply list_nil_subseteq.
  - destruct Hord as [Hr Hord]. apply obeys_call.
    + split; [by left|]. intros St s Hin. apply Ho, elem_of_cons in Hin as [->|Hin]; [by destruct r|by apply Hr].
    + intros []. apply IH; [done| |done|].
      * intros s. cbn. rewrite list_elem_of_filter. intros [Hne Hin].
        apply Ho, elem_of_cons in Hin as [?|Hin]; done.
      * intros m' H1 H2. apply Hk; [done|]. by rewrite H2, <- (orb_false_r (failed m)).
Qed.

(** What holds of the calls deferred so far. *)
Definition pending (m : progress) (deferred : list resource) : Prop :=
  ready m /\ opened m ⊆ deferred /\ ordered deferred.

Lemma ready_acquire m m' :
  ready m -> opened m ⊆ opened m' -> migrated m' = migrated m -> failed m' = failed m -> signalled m' = signalled m ->
  ready m'.
Proof.
  unfold ready, backend. intros (Hd & Hm & Hf & Hs & H1 & H2 & H3) Ho -> -> ->. repeat split; [by apply Ho|done..| | |];
    [destruct H1|destruct H2|destruct H3]; auto.
Qed.

Lemma pending_keep m m' deferred :
  pending m deferred -> opened m' = opened m -> migrated m' = migrated m -> failed m' = failed m ->
  signalled m' = signalled m -> pending m' deferred.
Proof.
  intros (Hr & Ho & Hord) E ???. split; [|by rewrite E]. apply (ready_acquire m); [done| |done..]. by rewrite E.
Qed.

Lemma pending_push m m' r deferred :
  pending m deferred -> server r = true -> opened m' = r :: opened m -> migrated m' = migrated m ->
  failed m' = failed m -> signalled m' = signalled m -> pending m' (r :: deferred).
Proof.
  intros (Hr & Ho & Hord) Hs E ???. split; [|split].
  - apply (ready_acquire m); [done| |done..]. rewrite E. set_solver.
  - rewrite E. set_solver.
  - split; [by destruct r|done].
Qed.

Lemma pending_swap m r s deferred :
  pending m (r :: s :: deferred) -> server r = true -> server s = true -> pending m (s :: r :: deferred).
Proof.
  intros (Hr & Ho & Hord) H1 H2. split; [done|]. split; [set_solver|].
  destruct Hord as (? & ? & ?). repeat split; [by destruct s|by destruct r|done].
Qed.

Lemma pending_stopped m deferred : pending m deferred -> failed m = false /\ signalled m = false.
Proof. by intros ((_ & _ & ? & ? & _) & _). Qed.

(** *** From the handler on: the configuration is known to be supported *)

Section Supported.
Context (Hsup : supported).

Ltac keep := eapply pending_keep; [eassumption|cbn; rewrite ?orb_false_r; reflexivity..].
Ltac push := eapply pending_push; [eassumption|reflexivity|cbn; rewrite ?orb_false_r; reflexivity..].

Lemma shut_down_follows m (udp : bool) deferred :
  pending m (if udp then RUdp :: RTcp :: deferred else RTcp :: deferred) -> RTcp ∈ opened m ->
  cfg_UDPPort cfg = ""%string \/ RUdp ∈ opened m -> follows ended m (shut_down udp deferred).
Proof.
  intros Hp Ht Hu. assert (follows ended m
    (call_ AwaitSignal ≫= fun _ => log LogInfo "Shutting down server..." ≫= fun _ =>
     release_in_order (if udp then RUdp :: RTcp :: deferred else RTcp :: deferred) ≫= fun _ => mret Stopped)) as H.
  { destruct (pending_stopped _ _ Hp) as [Hf Hs]. destruct Hp as (Hr & Ho & Hord).
    unfold log. apply obeys_call; [done|]. intros []. apply obeys_call; [done|]. intros []. apply obeys_bind.
    apply release_follows; [done..|]. intros m' Ho' Hf' Hs'. cbn. repeat split; [apply Hsup..|by rewrite Hf'; cbn; rewrite Hf| |]; done. }
  unfold shut_down, log in *. destruct udp; exact H.
Qed.

Lemma start_udp_follows m deferred :
  pending m (RTcp :: deferred) -> RTcp ∈ opened m -> follows ended m (start_udp cfg deferred).
Proof.
  intros Hp Ht. unfold start_udp. case_decide as Hu.
  - apply obeys_call; [split; [apply Hp|auto]|]. intros []. apply shut_down_follows; [keep|done|by left].
  - apply obeys_call; [split; [apply Hp|done]|]. intros [err|].
    + apply Fatal_follows; [apply (pending_stopped _ _ Hp)|]. left. cbn. apply orb_true_r.
    + assert (pending (after (ListenUDP (cfg_ServerIP cfg +:+ ":" +:+ cfg_UDPPort cfg)) None m) (RUdp :: RTcp :: deferred)) as Hp' by push.
      apply obeys_call; [split; [apply Hp'|]; cbn; split; [|right]; set_solver|].
      intros []. apply shut_down_follows; [|cbn; set_solver|cbn; set_solver]. clear Hp. keep.
Qed.

Lemma start_jobs_follows m deferred :
  pending m (RTcp :: deferred) -> RTcp ∈ opened m -> follows ended m (start_jobs cfg deferred).
Proof.
  intros Hp Ht. unfold start_jobs, log. destruct (cfg_JobsEnabled cfg).
  - apply obeys_call; [split; [apply Hp|done]|]. intros []. apply start_udp_follows; [|cbn; set_solver].
    apply pending_swap; [push|done..].
  - apply obeys_call; [done|]. intros []. apply start_udp_follows; [keep|done].
Qed.

Lemma start_tcp_follows m deferred : pending m deferred -> follows ended m (start_tcp cfg deferred).
Proof.
  intros Hp. unfold start_tcp, log. apply obeys_call; [done|]. intros [].
  apply obeys_call; [eapply (pending_keep _ _ _ Hp); cbn; rewrite ?orb_false_r; reflexivity|]. intros [err|].
  - apply Fatal_follows; [apply (pending_stopped _ _ Hp)|]. left. cbn. apply orb_true_r.
  - destruct (0 <? cfg_IdleTimeout cfg).
    + assert (pending (after (ListenTCP (cfg_ServerIP cfg +:+ ":" +:+ cfg_Port cfg)) None m) (RTcp :: deferred)) as Hp' by push.
      apply obeys_call; [split; [eapply (pending_keep _ _ _ Hp'); cbn; rewrite ?orb_false_r; reflexivity|cbn; set_solver]|]. intros [].
      apply obeys_call; [done|]. intros []. apply start_jobs_follows; [|cbn; set_solver].
      apply pending_swap; [|done..]. clear Hp. push.
    + apply start_jobs_follows; [push|cbn; set_solver].
Qed.

Lemma start_http_follows m deferred : pending m deferred -> follows ended m (start_http cfg deferred).
Proof.
  intros Hp. unfold start_http, log. case_decide; [by apply start_tcp_follows|]. case_decide.
  - apply obeys_call; [done|]. intros []. apply start_tcp_follows. keep.
  - apply obeys_call; [apply Hp|]. intros []. apply start_tcp_follows. push.
Qed.

Lemma start_metrics_follows m deferred : pending m deferred -> follows ended m (start_metrics cfg deferred).
Proof.
  intros Hp. unfold start_metrics. case_decide; [by apply start_http_follows|].
  apply obeys_call; [apply Hp|]. intros []. apply start_http_follows. push.
Qed.
End Supported.

(** *** The components, in the order in which they are built *)

Lemma pending_defer m r deferred : store r = false -> pending m deferred -> pending m (r :: deferred).
Proof. intros Hs (Hr & Ho & Hord). split; [done|]. split; [set_solver|]. split; [by rewrite Hs|done]. Qed.

Definition quiet {X} (e : boot_port X) : bool :=
  match e with BStderr _ | BLog _ _ | BHooks _ | Consume _ | StartConsole => true | _ => false end.

Lemma after_quiet {X} (e : boot_port X) x m : quiet e = true -> after e x m = m.
Proof. destruct m as [o mi f s]. unfold after. destruct e; intros Hq; try done; cbn; by rewrite orb_false_r. Qed.

Lemma quiet_follows {X A} (final : outcome A -> progress -> Prop) m (e : boot_port X) (f : X -> BM A) :
  quiet e = true -> allowed e m -> (forall x, follows final m (f x)) -> follows final m (call_ e ≫= f).
Proof. intros Hq Ha Hf. apply obeys_call; [done|]. intros x. rewrite after_quiet by done. apply Hf. Qed.

Lemma build_handler_follows m deferred :
  (cfg_Protocol cfg = "smus"%string -> supported) -> pending m deferred -> follows ended m (build_handler cfg deferred).
Proof.
  intros Hsup Hp. unfold build_handler, NewHandler, or_fatal, log. case_decide as Hx.
  - apply quiet_follows; [done..|]. intros []. destruct (0 <? cfg_RateLimitRequests cfg); [|by apply start_metrics_follows; auto].
    apply quiet_follows; [done..|]. intros []. apply start_metrics_follows; [by apply Hsup|]. by apply pending_defer.
  - apply Fatal_follows; [apply (pending_stopped _ _ Hp)|]. right. intros H. by apply Hx, H.
Qed.

Lemma consume_follows final m topics : ready m -> final (Ret tt) m -> follows final m (consume topics).
Proof.
  intros Hr Hf. induction topics as [|t topics IH]; cbn [consume]; [done|]. by apply quiet_follows.
Qed.

Lemma hooks_follow final m hooks env :
  ready m -> (forall errs, final (Ret errs) m) -> follows final m (embed (fun X e => BHooks e) (RunBootHooks hooks env)).
Proof.
  intros Hr. revert final. enough (forall final, (forall errs, final (Ret errs) m) ->
    obeys (fun X (e : console_port X) => allowed (BHooks e)) (fun X (e : console_port X) => after (BHooks e)) final m (RunBootHooks hooks env)) as H.
  { intros final Hf. by apply obeys_embed, H. }
  induction hooks as [|x hooks IH]; intros final Hf; cbn [RunBootHooks]; [apply Hf|].
  apply obeys_call; [done|]. intros r. rewrite after_quiet by done. apply obeys_bind, IH. intros errs. apply Hf.
Qed.

Lemma run_game_follows m hooks topics deferred :
  (cfg_Protocol cfg = "smus"%string -> supported) -> pending m deferred -> follows ended m (run_game cfg hooks topics deferred).
Proof.
  intros Hsup Hp. assert (ready m) as Hr by apply Hp. unfold run_game, log.
  apply quiet_follows; [done..|]. intros []. apply obeys_bind, hooks_follow; [done|]. intros errs.
  assert (follows ended m (consume topics ≫= fun _ => (match topics with [] => mret tt | _ => call_ (BLog LogInfo "Queue consumers registered") end)
    ≫= fun _ => build_handler cfg (RTimers :: deferred))) as H.
  { apply obeys_bind, consume_follows; [done|]. cbn [then_obeys].
    assert (follows ended m (build_handler cfg (RTimers :: deferred))) as Hb
      by (apply build_handler_follows; [done|by apply pending_defer]).
    destruct topics; [exact Hb|]. by apply quiet_follows. }
  cbn [then_obeys]. destruct errs; [exact H|]. by apply quiet_follows.
Qed.

(** What a factory leaves: a component that works, or a reason to stop. *)
Definition built (type : string) (r : resource) (accepted : Prop) (m : progress) (x : error + unit) (m' : progress) : Prop :=
  signalled m' = signalled m /\ migrated m' = migrated m /\
  match x with
  | inr _ => accepted /\ backend type r m' /\ opened m ⊆ opened m' /\ opened m' ⊆ r :: opened m /\ failed m' = failed m
  | inl _ => failed m' = true \/ ~ accepted
  end.

Lemma built_memory r (accepted : Prop) m : accepted -> built "memory" r accepted m (inr tt) m.
Proof. intros Ha. repeat split; [done|by left|done|set_solver]. Qed.

Lemma built_refused type r (accepted : Prop) m e : ~ accepted -> built type r accepted m (inl e) m.
Proof. intros Ha. repeat split. by right. Qed.

Lemma built_dialled type r (accepted : Prop) m (e : boot_port (error + unit)) :
  accepted -> acquired e = got r -> fatal e = (fun x => match x with inl _ => true | inr _ => false end) ->
  (forall x, opened (after e x m) = match acquired e x with Some r => r :: opened m | None => opened m end) ->
  (forall x, migrated (after e x m) = migrated m) -> (forall x, signalled (after e x m) = signalled m) ->
  forall x, built type r accepted m x (after e x m).
Proof.
  intros Ha Hq Hf Ho Hm Hs x. split; [apply Hs|]. split; [apply Hm|].
  assert (failed (after e x m) = failed m || match x with inl _ => true | inr _ => false end) as Hfail by (cbn; by rewrite Hf).
  specialize (Ho x). rewrite Hq in Ho. destruct x as [err|[]]; cbn [got] in Ho.
  - left. rewrite Hfail. apply orb_true_r.
  - rewrite orb_false_r in Hfail. rewrite Ho. repeat split; [done|right; rewrite Ho; set_solver|set_solver|set_solver|done].
Qed.

Ltac refused := match goal with H : context [built] |- _ => apply H end;
  apply built_refused; intros Hno; repeat match type of Hno with _ \/ _ => destruct Hno as [?|Hno] end; try congruence;
  repeat match goal with H : _ /\ _ |- _ => destruct H | H : exists _, _ |- _ => destruct H end; congruence.

Lemma session_built final m :
  migrated m = true ->
  (forall x m', built (cfg_SessionStoreType cfg) RSession session_ok m x m' -> final (Ret x) m') ->
  follows final m (NewSessionStore (cfg_SessionStoreType cfg) (cfg_Redis cfg)).
Proof.
  intros Hm Hk. unfold NewSessionStore, session_ok, number in *. case_decide as H1.
  { apply Hk. rewrite H1. apply built_memory. by left. }
  case_decide as H2; [|refused].
  destruct (Atoi (redis_DB _)) as [e1|db] eqn:Edb; [refused|].
  destruct (Atoi (redis_ConnTTL _)) as [e2|ttl] eqn:Ettl; [refused|].
  apply obeys_last; [done|]. intros x. apply Hk, built_dialled; try done. right. eauto.
Qed.

Lemma queue_built final m :
  migrated m = true ->
  (forall x m', built (cfg_QueueType cfg) RQueue queue_ok m x m' -> final (Ret x) m') ->
  follows final m (NewMessageQueue (cfg_QueueType cfg) (cfg_QueueRedis cfg) (cfg_RabbitMQ cfg)).
Proof.
  intros Hm Hk. unfold NewMessageQueue, queue_ok, number in *. case_decide as H1.
  { apply Hk. rewrite H1. apply built_memory. by left. }
  case_decide as H2.
  - destruct (Atoi (redis_DB _)) as [e1|db] eqn:Edb; [refused|].
    apply obeys_last; [done|]. intros x. apply Hk, built_dialled; try done. eauto.
  - case_decide as H3; [|refused].
    apply obeys_last; [done|]. intros x. apply Hk, built_dialled; try done. eauto.
Qed.

Lemma cache_built final m :
  migrated m = true ->
  (forall x m', built (cfg_CacheType cfg) RCache cache_ok m x m' -> final (Ret x) m') ->
  follows final m (NewCache (cfg_CacheType cfg) (cfg_CacheRedis cfg)).
Proof.
  intros Hm Hk. unfold NewCache, cache_ok, number in *. case_decide as H1.
  { apply Hk. rewrite H1. apply built_memory. by left. }
  case_decide as H2; [|refused].
  destruct (Atoi (redis_DB _)) as [e1|db] eqn:Edb; [refused|].
  apply obeys_last; [done|]. intros x. apply Hk, built_dialled; try done. eauto.
Qed.

Lemma backend_keep type r m m' : backend type r m -> opened m ⊆ opened m' -> backend type r m'.
Proof. intros [Ht|Hin] Ho; [by left|right; by apply Ho]. Qed.

Lemma build_stores_follows m hooks topics :
  opened m = [RDatabase] -> migrated m = true -> failed m = false -> signalled m = false ->
  (session_ok -> queue_ok -> cache_ok -> cfg_Protocol cfg = "smus"%string -> supported) ->
  follows ended m (build_stores cfg hooks topics [RDatabase]).
Proof.
  intros Ho Hm Hf Hs Hsup. unfold build_stores, log.
  apply obeys_bind, session_built; [done|]. intros [e1|[]] m1 (S1 & M1 & B1).
  { apply Fatal_follows; [by rewrite S1|]. destruct B1; [by left|right]. by intros (_ & _ & _ & ? & _). }
  destruct B1 as (A1 & K1 & I1 & O1 & F1). apply quiet_follows; [done..|]. intros [].
  apply obeys_bind, queue_built; [by rewrite M1|]. intros [e2|[]] m2 (S2 & M2 & B2).
  { apply Fatal_follows; [by rewrite S2, S1|]. destruct B2; [by left|right]. by intros (_ & _ & _ & _ & ? & _). }
  destruct B2 as (A2 & K2 & I2 & O2 & F2). apply quiet_follows; [done..|]. intros [].
  apply obeys_bind, cache_built; [by rewrite M2, M1|]. intros [e3|[]] m3 (S3 & M3 & B3).
  { apply Fatal_follows; [by rewrite S3, S2, S1|]. destruct B3; [by left|right]. by intros (_ & _ & _ & _ & _ & ? & _). }
  destruct B3 as (A3 & K3 & I3 & O3 & F3). apply quiet_follows; [done..|]. intros [].
  apply run_game_follows; [auto|]. split; [|split].
  - split; [apply I3, I2, I1; rewrite Ho; set_solver|]. split; [by rewrite M3, M2, M1|].
    split; [by rewrite F3, F2, F1|]. split; [by rewrite S3, S2, S1|].
    split; [eapply backend_keep; [exact K1|]; by etrans|]. split; [by eapply backend_keep|done].
  - etrans; [exact O3|]. apply list_subseteq_skip. etrans; [exact O2|]. apply list_subseteq_skip.
    etrans; [exact O1|]. rewrite Ho. done.
  - repeat split; intros _ s; rewrite ?elem_of_cons, elem_of_nil; intros Hin; repeat destruct Hin as [->|Hin]; done.
Qed.

Lemma build_cipher_follows m hooks topics :
  opened m = [RDatabase] -> migrated m = true -> failed m = false -> signalled m = false ->
  cfg_LoggerType cfg = "file"%string ->
  cfg_DatabaseType cfg = "sqlite"%string \/ is_postgres (cfg_DatabaseType cfg) = true ->
  follows ended m (build_cipher cfg hooks topics [RDatabase]).
Proof.
  intros Ho Hm Hf Hs Hl Hd. unfold build_cipher, log.
  destruct (NewCipher_total (cfg_CipherType cfg) (cfg_EncryptionKey cfg)) as (r & -> & Hr & _).
  apply obeys_bind. change (then_obeys (@allowed) (@after) ended (fun c => match c with
    | None => Fatal "Failed to initialize cipher"
    | Some _ => call_ (BLog LogInfo "Cipher initialized") ≫= fun _ => build_stores cfg hooks topics [RDatabase] end) (Ret r) m).
  cbn [then_obeys]. destruct r as [b|].
  - apply quiet_follows; [done..|]. intros []. apply build_stores_follows; [done..|].
    intros. split; [done|]. split; [done|]. split; [|done].
    destruct (decide (cfg_CipherType cfg = "blowfish"%string)) as [?|Hc]; [done|]. by apply Hr in Hc.
  - apply Fatal_follows; [done|]. right. intros (_ & _ & Hc & _). by destruct (proj1 Hr eq_refl).
Qed.

Definition start : progress := mkProgress [] false false false.

Definition database_ok : Prop := cfg_DatabaseType cfg = "sqlite"%string \/ is_postgres (cfg_DatabaseType cfg) = true.

Lemma database_built final conn :
  (database_ok -> final (Ret (inr tt)) (mkProgress [RDatabase] false false false)) ->
  (forall err f, f = true \/ ~ database_ok -> final (Ret (inl err)) (mkProgress [] false f false)) ->
  follows final start (NewDatabase (cfg_DatabaseType cfg) conn).
Proof.
  intros Hok Hno. unfold NewDatabase, database_ok in *. case_decide as H1; [|destruct (is_postgres _) eqn:H2].
  - apply obeys_last; [done|]. intros [err|[]]; [apply Hno|apply Hok]; by left.
  - apply obeys_last; [done|]. intros [err|[]]; [apply Hno; by left|apply Hok; by right].
  - apply Hno. right. intros [?|?]; congruence.
Qed.

Lemma open_database_follows hooks topics :
  cfg_LoggerType cfg = "file"%string -> follows ended start (open_database cfg hooks topics).
Proof.
  intros Hl. unfold open_database, log. apply obeys_bind, database_built.
  - intros Hd. apply obeys_call; [done|]. intros [err|res].
    + apply obeys_call; [split; [by right|]|].
      { intros _ s. cbn. rewrite list_elem_of_singleton. by intros ->. }
      intros []. apply Fatal_follows; [done|by left].
    + apply quiet_follows; [done..|]. intros []. apply quiet_follows; [done..|]. intros [].
      by apply build_cipher_follows.
  - intros err f Hf. apply Fatal_follows; [done|]. destruct Hf as [Hf|Hf]; [by left|right]. intros Hs. apply Hf, Hs.
Qed.
End StartupOrder.


(** The configuration of an empty environment is supported. *)
Example default_supported `{!MapOrder} : supported (LoadServerConfig []).
Proof. repeat split; by left. Qed.
